(* ===== verification/_CoqProject ===== *)
-Q . S2P
Prelude.v
RingBuffer.v
RingBufferConc.v
RingDemo.v
LockFreeQueue.v
WeakMemory.v
LockFreeWeak.v
ConnectionPool.v
Timer.v
LeakDetector.v
Kernel.v
EpollReactor.v
MultiReactor.v
Sockets.v
EchoServer.v
MtEcho.v
Handwritten.v
LruCache.v
MemPool.v
ThreadPool.v
