(* ===== verification/Prelude.v ===== *)
(** * cpp-foundation-components: verification library

    The repository is a collection of components for server programs: queues
    (ring_buffer, lock_free_queue), a connection pool, a timer, a leak detector,
    event loops over epoll (epoll, multi_thread_reactor), an LRU cache, and two
    C exercises (memory_pool, thread_pool).  They do not call each other, except
    that multi_thread_reactor runs one event loop per thread, the event loop
    being the class of epoll with small differences, and that the examples are
    their clients: the two echo servers of the reactors, a demo of the ring
    buffer.  Each component is
    modelled in a file of its own, from its source, and proved against a
    specification a few lines long.

    ** How the code is modelled

    A class or struct is a [Record] of its members; a member function is a
    [Definition] of the same name on that record.  [std::size_t] and the 64-bit
    counters are [Z] with the wrap-around written out ([u64], [⊕], [⊖] below);
    [int] where overflow or conversion matters (reference counts, timeouts,
    block sizes) is checked at its bounds.  A call that throws returns an
    [outcome]; undefined behaviour (a read of uninitialised storage, a freed
    object, an access out of bounds, a failed assertion) is [None], and the
    theorems show that it is not reached.

    A component used by several threads is a transition system ([lts] below):
    each thread is at a program point, and one step is one critical section,
    one atomic access, or one call to the outside, so that the interleavings
    are those of the code.  Condition variables lose what the standard allows
    them to lose: a notification wakes only threads that sleep, and a sleeper
    may wake for no reason.  A refinement theorem ([refines]) says that every
    observable run of the system is a run of the specification; a liveness
    theorem says of every reachable state that a thread that sleeps has nothing
    to do, or that a thread that runs alone returns.  Atomic accesses are
    sequentially consistent, except that lock_free_queue is proved a second
    time under the memory orders it asks for, over a machine in which every
    thread has its own view of the stores made so far (WeakMemory.v).

    What the code gets from outside is a parameter: the kernel is the class
    [Kernel] with the laws [KernelLaws] (Kernel.v, with an executable instance
    that satisfies them), connections and their factory are the environment of
    the pool, [malloc] answers with any fresh block or none, [steady_clock] is a
    non-decreasing number without a bound (the source has 64-bit counts of
    nanoseconds: Timer.v and the deadlines of ConnectionPool.v do not overflow),
    callbacks are identities whose calls are observed.  Descriptors are not
    duplicated, as no component duplicates one: closing one ends its
    registrations.

    ** The files

    - Prelude.v: record updates, machine integers, exceptions, transition
      systems and their simulations, sums over lists, the tactic [branch].
    - RingBuffer.v: ring_buffer/include/ring_buffer.hpp, the circular array, its
      policies, statistics, [close] and [clear], run under the mutex: a bounded
      queue that rejects or overwrites.
    - RingBufferConc.v: the same header's blocking and timed calls with the two
      condition variables: every interleaving is a bounded queue, no wake-up is
      lost, no thread is stuck.
    - RingDemo.v: ring_buffer/examples/demo.cpp, the client of the blocking calls:
      [main], its consumers and its producers over the system of
      RingBufferConc.v print every message once and the exact statistics, do not
      deadlock, and end within a bounded number of steps.
    - LockFreeQueue.v: lock_free_queue/include/lock_free_queue.hpp, every atomic
      access of [tryPush], [tryPop] and [close]: a bounded FIFO queue from
      capacity 2 on, which may also refuse while one named call of another
      thread has not returned (the code is not linearizable), no two threads on
      one cell, lock-free.
    - WeakMemory.v: release/acquire memory: a history of stores per location, a
      view per thread, relaxed and release/acquire accesses and updates.
    - LockFreeWeak.v: the queue again, with the memory orders of its source: no
      data race on the storage of a cell, no access to a dead object, and a
      bounded FIFO queue whose refusals may be out of date; a thread that has
      seen every store is refused only as LockFreeQueue.v allows.
    - ConnectionPool.v: connection_pool/src/connection_pool.cpp, acquiring,
      releasing, warming up, cleaning and shutting down: exclusive leases of
      open connections, exact accounting, no lost wake-up, everything closed at
      the end.
    - Timer.v: high_performance_timer/src/high_performance_timer.cpp, the heap
      with lazy cancellation, the scheduler thread, the callback queue and its
      workers: a set of timers by id, fired exactly when due.
    - LeakDetector.v: memory_leak_detector/src/memory_leak_detector.cpp, the
      registry, its reports, scoped checks and the global operators: the ledger
      of the blocks allocated and not freed.
    - Kernel.v: epoll, eventfd, close and the allocation of the buffer for
      events as an interface.
    - EpollReactor.v: epoll/src/epoll_reactor.cpp: a table of callbacks
      dispatched in batches; the kernel's interest list is what the table says;
      what a construction leaves behind, whichever of its calls fails.
    - MultiReactor.v: multi_thread_reactor/src/multi_thread_reactor.cpp: every
      loop is a reactor of EpollReactor.v, a descriptor has one owner, start and
      stop, with what a joining [stop] may wait for, the round robin.  A call
      that a callback makes keeps its loop thread inside the callback.
    - Sockets.v: non-blocking sockets, their readiness and edge-triggered reports
      as an interface, with an executable network.
    - EchoServer.v: epoll/examples/echo_server.cpp, the handlers that the reactor
      of EpollReactor.v dispatches, over the sockets of Sockets.v: a table of the
      bytes each client is owed; no readiness is forgotten, no descriptor leaks.
    - MtEcho.v: multi_thread_reactor/examples/echo_server.cpp: the main thread
      accepts on a loop of its own and the four workers of MultiReactor.v echo,
      every access interleaved: the same table of bytes owed; the threads keep
      to the reactor's rules, none gets stuck in a callback, no descriptor leaks.
    - Handwritten.v: multi_thread_reactor/handwritten: the shorter event loop,
      which looks up one callback at a time and ignores the kernel's errors, and
      the pool that deals descriptors to loops.
    - LruCache.v: lru_cache/lrucache.h, nodes shared by two lists, handles and a
      table: a table whose unpinned entries are evicted in order of release; the
      textbook LRU list when no handle is kept.
    - MemPool.v: memory_pool/main.c over the bytes of its page: a stack of
      blocks whose held bytes stay what the client wrote, for blocks of at least
      8 bytes on a page with room for a pointer after the last one; exactly
      when initialising the page stays inside it.
    - ThreadPool.v: thread_pool/thread_pool.c, the intrusive task queue and the
      workers of a pool that has been set up: tasks are popped in the order they
      were linked, and each is called once, by the worker that popped it.

    Each file states its properties at its end, the most telling first, with
    the theorem that applies each of them to a concrete run behind it.

    ** Bounds and fuel

    Loops whose recursion is not structural carry fuel, and the theorems show
    that the fuel given is enough: [clear] of the ring by its capacity, the
    eviction and destruction loops of the cache by the length of the list, the
    due loop of the timer by the length of the heap (and the catch-up of one
    timer by the periods missed), a thread alone by an explicit number of
    accesses, the demo of the ring buffer by a budget that each of its steps
    uses up.  The lock-free queue's positions are exact below [2^63] operations;
    the cache's reference counts below [2^31 - 1] handles.

    ** Errors found

    Some theorems show behaviour the code should not have; they are stated and
    proved where they were found.  A lock-free queue of capacity 1 overwrites
    its element ([lfq_capacity_one]), and one of any capacity may call itself
    empty although a push has returned, when an earlier push has not
    ([lfq_not_linearizable]) or to a thread that has not seen the push yet
    ([lfq_weak_stale_empty]); [reset] of the leak detector hides leaks
    from scopes opened before it ([leak_reset_hides_leaks]); a [stop] before
    [run] is lost in EpollReactor ([epoll_stop_before_run_lost]), and a callback
    removed by an earlier one of its batch is still called
    ([epoll_stale_callback]); a construction that cannot allocate its buffer
    leaks both its descriptors ([epoll_make_leaks]); [add] and [remove] of one descriptor at the same
    time leave it with two loops ([multi_add_remove_race]), and a callback that
    calls [stop] while another thread's [stop] joins its loop waits for ever, as
    does that [stop] ([multi_stop_deadlock]); the handwritten pool
    leaves its array after 2^31 calls ([hand_nextLoop_bounds]) and its loop keeps
    callbacks the kernel refused ([hand_add_ignores_errors]); the memory pool
    writes past its page ([mempool_main_overflows]); the echo server dies of a
    connection that is aborted early and truncates the echo of a peer that has
    stopped sending ([echo_dies_of_aborted_connection],
    [echo_half_close_truncates]); the multi-threaded one drops what such a peer
    sent before reading it and spins when it is out of descriptors
    ([mt_half_close_discards], [mt_out_of_descriptors_spins]); a worker of the thread
    pool sleeps with a task in the queue ([tpool_lost_wakeup]).  Calls of
    different workers overtake each other, as is to be expected of a pool
    ([tpool_calls_overtake]).

    ** Not modelled

    Memory orders weaker than sequential consistency outside lock_free_queue, and
    in it the cycles of relaxed accesses that the standard discourages (a load
    that reads a store later in its own causal order); the relaxed loads of
    its [stats]; allocation failure inside standard containers, except for the
    buffer of the reactors' constructors; overflow of time points; the text of
    reports and messages beyond what is compared; [isSupported]; the bodies of
    callbacks other than the echo servers'; two threads inside [run] of one
    loop; what the multi-threaded echo server does after the exception that ends
    it.  The creation of the thread pool (it does not compile and reads
    uninitialised fields), slab.c (does not compile), the other demos and the
    tests. *)

From stdpp Require Export prelude gmap strings list sorting relations.
From Stdlib Require Export Lia ZArith.

#[export] Set Default Goal Selector "!".
Open Scope Z_scope.

(** ** Record updates: [r <| field := v |>] and [r <| field ::= f |>] *)

(** [eta] rebuilds a record from its projections; a [Setter] for a projection
    is computed from it. *)
Class Eta (R : Type) := eta : R → R.
Class Setter {R E : Type} (proj : R → E) := set_field : (E → E) → R → R.
Arguments set_field {R E} proj {Setter} f r.

Ltac build_setter :=
  lazymatch goal with
  | |- @Setter ?R ?E ?proj =>
      let b := eval hnf in (@eta R _) in
      lazymatch eval pattern proj in b with
      | ?h _ =>
          let s := eval cbv beta in
            (λ (f : E → E) (r : R), h (λ x, f (proj x)) r) in
          exact s
      end
  end.
#[export] Hint Extern 0 (Setter _) => build_setter : typeclass_instances.

Declare Scope component_scope.
Delimit Scope component_scope with comp.
Notation "r <| proj := v |>" := (set_field proj (λ _, v) r)
  (at level 1, left associativity, proj at level 0, v at level 200)
  : component_scope.
Notation "r <| proj ::= f |>" := (set_field proj f r)
  (at level 1, left associativity, proj at level 0, f at level 200)
  : component_scope.
Open Scope component_scope.

(** ** Machine integers *)

(** [std::size_t] and [std::uint64_t] are 64-bit unsigned integers: a value is
    a [Z] in [0, 2^64) and arithmetic wraps around. *)
Definition two64 : Z := 18446744073709551616.
Definition two63 : Z := 9223372036854775808.
Definition u64 (z : Z) : Z := z mod two64.
Notation "x ⊕ y" := (u64 (x + y)) (at level 50, left associativity)
  : component_scope.
Notation "x ⊖ y" := (u64 (x - y)) (at level 50, left associativity)
  : component_scope.

(** [static_cast<std::ptrdiff_t>] of a 64-bit value (two's complement). *)
Definition to_signed64 (z : Z) : Z := if z <? two63 then z else z - two64.

Definition in_u64 (z : Z) : Prop := 0 ≤ z < two64.

Lemma two64_val : two64 = 18446744073709551616. Proof. reflexivity. Qed.
Lemma two63_val : two63 = 9223372036854775808. Proof. reflexivity. Qed.

Lemma u64_small z : 0 ≤ z < two64 → u64 z = z.
Proof. apply Z.mod_small. Qed.

Lemma u64_range z : 0 ≤ u64 z < two64.
Proof. apply Z.mod_pos_bound. done. Qed.

Lemma u64_idem z : u64 (u64 z) = u64 z.
Proof. apply Z.mod_mod. done. Qed.

Lemma u64_add_l a b : u64 (u64 a + b) = u64 (a + b).
Proof. unfold u64. by rewrite Zplus_mod_idemp_l. Qed.
Lemma u64_add_r a b : u64 (a + u64 b) = u64 (a + b).
Proof. unfold u64. by rewrite Zplus_mod_idemp_r. Qed.
Lemma u64_sub_l a b : u64 (u64 a - b) = u64 (a - b).
Proof. unfold u64. by rewrite Zminus_mod_idemp_l. Qed.
Lemma u64_sub_r a b : u64 (a - u64 b) = u64 (a - b).
Proof. unfold u64. by rewrite Zminus_mod_idemp_r. Qed.

(** Two 64-bit values agree when they differ by a multiple of [2^64]. *)
Lemma u64_congr a b k : a = b + k * two64 → u64 a = u64 b.
Proof. intros ->. apply Z_mod_plus_full. Qed.

Lemma to_signed64_small z : 0 ≤ z < two63 → to_signed64 z = z.
Proof. unfold to_signed64. intros. case_match; lia. Qed.

Lemma in_u64_range z : in_u64 (u64 z).
Proof. apply u64_range. Qed.

Create HintDb comp.
Create Rewrite HintDb u64.
#[export] Hint Resolve u64_range in_u64_range : comp.
#[export] Hint Rewrite u64_idem u64_add_l u64_add_r u64_sub_l u64_sub_r : u64.

(** [u64_norm] drops every inner wrap-around; [u64_lia] replaces each
    wrapped expression that is provably in range by the plain one. *)
Ltac u64_norm := autorewrite with u64 in *.
Ltac u64_elim :=
  repeat match goal with
  | |- context [u64 ?z] => rewrite (u64_small z) by (rewrite ?two64_val in *; lia)
  | H : context [u64 ?z] |- _ =>
      rewrite (u64_small z) in H by (rewrite ?two64_val in *; lia)
  end.
Ltac u64_lia := u64_elim; rewrite ?two64_val, ?two63_val in *; lia.

(** [u64_ring] proves equalities between wrapped linear expressions. *)
Ltac u64_ring :=
  unfold u64, two64, two63 in *; Z.to_euclidean_division_equations; lia.

(** ** Exceptions *)

Inductive exn :=
  | InvalidArgument (what : string)
  | RuntimeError (what : string)
  | LengthError (what : string)
  | BadAlloc.

#[export] Instance exn_eq_dec : EqDecision exn.
Proof. solve_decision. Defined.

(** The outcome of a C++ call: a value, or an exception that propagates. *)
Inductive outcome (A : Type) :=
  | Returns (a : A)
  | Throws (e : exn).
Arguments Returns {A} a.
Arguments Throws {A} e.

#[export] Instance outcome_ret : MRet outcome := @Returns.
#[export] Instance outcome_bind : MBind outcome := λ A B k m,
  match m with Returns a => k a | Throws e => Throws e end.

(** ** Labelled transition systems *)

(** A component whose threads interleave is a transition system: a step
    carries the list of observations it produces (often empty). *)
Record lts (S O : Type) := Lts {
  initial : S → Prop;
  step : S → list O → S → Prop;
}.
Arguments Lts {S O}.
Arguments initial {S O} _ _.
Arguments step {S O} _ _ _ _.

Inductive run {S O} (L : lts S O) : S → list O → S → Prop :=
  | run_nil s : run L s [] s
  | run_step s o s' os s'' :
      step L s o s' → run L s' os s'' → run L s (o ++ os) s''.

Definition reachable {S O} (L : lts S O) (s : S) : Prop :=
  ∃ s0 os, initial L s0 ∧ run L s0 os s.

(** [refines L A]: every observation sequence of [L] is one of [A]. *)
Definition refines {S A O} (L : lts S O) (M : lts A O) : Prop :=
  ∀ s0 os s, initial L s0 → run L s0 os s →
    ∃ a0 a, initial M a0 ∧ run M a0 os a.

Section lts_theory.
Context {S A O : Type} (L : lts S O) (M : lts A O).

Lemma run_one s o s' : step L s o s' → run L s o s'.
Proof. intros Hs. rewrite <-(app_nil_r o). econstructor; [done|constructor]. Qed.

Lemma run_app s os s' os' s'' :
  run L s os s' → run L s' os' s'' → run L s (os ++ os') s''.
Proof.
  induction 1; simpl; [done|]. intros. rewrite <-app_assoc.
  econstructor; eauto.
Qed.

Lemma run_invariant (I : S → Prop) :
  (∀ s o s', I s → step L s o s' → I s') →
  ∀ s os s', run L s os s' → I s → I s'.
Proof. intros Hstep s os s'. induction 1; eauto. Qed.

(** Rule induction over reachable states. *)
Lemma reachable_invariant (I : S → Prop) :
  (∀ s, initial L s → I s) →
  (∀ s o s', I s → step L s o s' → I s') →
  ∀ s, reachable L s → I s.
Proof.
  intros Hinit Hstep s (s0 & os & Hs0 & Hrun).
  eapply run_invariant; eauto.
Qed.

Lemma reachable_initial s : initial L s → reachable L s.
Proof. intros. exists s, []. split; [done|constructor]. Qed.

Lemma reachable_step s o s' : reachable L s → step L s o s' → reachable L s'.
Proof.
  intros (s0 & os & ? & Hrun) Hs. exists s0, (os ++ o). split; [done|].
  eapply run_app; eauto using run_one.
Qed.

(** Forward simulation. *)
Lemma simulation_run (R : S → A → Prop) :
  (∀ s a o s', R s a → step L s o s' → ∃ a', run M a o a' ∧ R s' a') →
  ∀ s os s', run L s os s' → ∀ a, R s a → ∃ a', run M a os a' ∧ R s' a'.
Proof.
  intros Hsim s os s'. induction 1 as [|s o s' os s'' Hs Hr IH]; intros a Ha.
  - exists a. split; [constructor|done].
  - destruct (Hsim _ _ _ _ Ha Hs) as (a1 & Hr1 & Ha1).
    destruct (IH _ Ha1) as (a2 & Hr2 & Ha2).
    exists a2. split; [|done].
    clear -Hr1 Hr2. revert Hr2. induction Hr1; simpl; [done|].
    intros. rewrite <-app_assoc. econstructor; eauto.
Qed.

Lemma simulation_refines (R : S → A → Prop) :
  (∀ s, initial L s → ∃ a, initial M a ∧ R s a) →
  (∀ s a o s', R s a → step L s o s' → ∃ a', run M a o a' ∧ R s' a') →
  refines L M.
Proof.
  intros Hinit Hsim s0 os s Hs0 Hrun.
  destruct (Hinit _ Hs0) as (a0 & Ha0 & HR).
  destruct (simulation_run R Hsim _ _ _ Hrun _ HR) as (a & Hr & _); eauto.
Qed.
End lts_theory.

#[export] Hint Resolve reachable_initial run_one : comp.

(** ** Lists *)

Section lists.
Context {A : Type}.

(** Sum of a measure over a list, used to count threads in a given state. *)
Definition sum_of (f : A → Z) (l : list A) : Z := foldr (λ x n, f x + n) 0 l.

Lemma sum_of_app f l k : sum_of f (l ++ k) = sum_of f l + sum_of f k.
Proof. induction l; simpl; lia. Qed.

Lemma sum_of_insert f l i x y :
  l !! i = Some x → sum_of f (<[i:=y]> l) = sum_of f l - f x + f y.
Proof.
  revert i. induction l as [|z l IH]; intros [|i]; simpl; try done.
  - intros [= ->]. lia.
  - intros Hl. rewrite (IH _ Hl). lia.
Qed.

Lemma sum_of_nonneg f l : (∀ x, 0 ≤ f x) → 0 ≤ sum_of f l.
Proof. intros Hf. induction l as [|x l IH]; simpl; [done|]. specialize (Hf x). lia. Qed.

Lemma sum_of_lookup f l i x :
  (∀ x, 0 ≤ f x) → l !! i = Some x → f x ≤ sum_of f l.
Proof.
  intros Hf. revert i. induction l as [|z l IH]; intros [|i]; simpl; try done.
  - intros [= ->]. pose proof (sum_of_nonneg f l Hf). lia.
  - intros Hl. specialize (IH _ Hl). specialize (Hf z). lia.
Qed.

Lemma sum_of_zero f l :
  (∀ x, 0 ≤ f x) → (∀ x, x ∈ l → f x = 0) → sum_of f l = 0.
Proof.
  intros Hf. induction l as [|z l IH]; simpl; [done|]. intros Hz.
  rewrite IH; [|intros; apply Hz; by right].
  rewrite (Hz z); [done|left].
Qed.

Lemma elem_of_list_insert (l : list A) i x y : x ∈ <[i:=y]> l → x = y ∨ x ∈ l.
Proof.
  intros [j Hj]%list_elem_of_lookup.
  apply list_lookup_insert_Some in Hj as [(_ & -> & _)|[_ Hj]]; [by left|].
  right. by eapply list_elem_of_lookup_2.
Qed.

(** The other elements' shares of two ordered measures. *)
Lemma sum_of_mono f g l i x :
  (∀ x, f x ≤ g x) → l !! i = Some x → sum_of f l - f x ≤ sum_of g l - g x.
Proof.
  intros Hle. assert (∀ l, sum_of f l ≤ sum_of g l) as Hl.
  { intros k. induction k as [|z k IH]; simpl; [done|]. specialize (Hle z). lia. }
  revert i. induction l as [|z l IH]; intros [|i] Hi; simpl in *; try done.
  - simplify_eq. specialize (Hl l). lia.
  - specialize (IH _ Hi). specialize (Hle z). lia.
Qed.

Lemma sum_of_ext f g l : (∀ x, x ∈ l → f x = g x) → sum_of f l = sum_of g l.
Proof.
  induction l as [|z l IH]; simpl; [done|]. intros Hz.
  rewrite IH; [|intros; apply Hz; by right].
  rewrite (Hz z); [done|left].
Qed.

Lemma sum_of_replicate f n x : sum_of f (replicate n x) = Z.of_nat n * f x.
Proof. induction n as [|n IH]; simpl; [done|]. rewrite IH. lia. Qed.

Lemma sum_of_const f l z : (∀ x, f x = z) → sum_of f l = Z.of_nat (length l) * z.
Proof. intros Hf. induction l as [|x l IH]; simpl; [done|]. rewrite IH, Hf. lia. Qed.
End lists.

Lemma sum_of_fmap {A B} (g : A → B) (f : B → Z) l :
  sum_of f (g <$> l) = sum_of (λ x, f (g x)) l.
Proof. induction l as [|x l IH]; csimpl; [done|]. by rewrite IH. Qed.

(** Replacing one element of a list moves one share of a concatenation. *)
Lemma bind_insert_perm {A B} (f : A → list B) l i x y :
  l !! i = Some x → f x ++ (<[i:=y]> l ≫= f) ≡ₚ f y ++ (l ≫= f).
Proof.
  revert i. induction l as [|z l IH]; intros [|i]; csimpl; try done.
  - intros [= ->]. apply Permutation_app_swap_app.
  - intros Hi%IH. by rewrite Permutation_app_swap_app, Hi, Permutation_app_swap_app.
Qed.

Lemma bind_empty {A B} (f : A → list B) l : (∀ x, x ∈ l → f x = []) → l ≫= f = [].
Proof.
  induction l as [|x l IH]; intros Hl; csimpl; [done|].
  rewrite Hl, IH; [done| |by left]. intros y Hy. apply Hl. by right.
Qed.

(** Case analysis on the booleans and decisions a model branches on. *)
Ltac branch :=
  repeat (match goal with
  | H : context [bool_decide _] |- _ => case_bool_decide
  | |- context [bool_decide _] => case_bool_decide
  | H : Some _ = Some _ |- _ => injection H as H
  | H : (_, _) = (_, _) |- _ => injection H as H
  | _ => case_match
  end; simplify_eq/=; try done).

(** ** Circular indices *)

Lemma mod_once a c : 0 < c → 0 ≤ a < 2 * c →
  a mod c = if a <? c then a else a - c.
Proof.
  intros ? ?. case_match.
  - apply Z.mod_small. lia.
  - symmetry. apply Z.mod_unique_pos with 1; lia.
Qed.

(** Positions that share a slot of a ring are at least a lap apart. *)
Lemma congr_lap a b c : 0 < c → a mod c = b mod c → a < b → a ≤ b - c.
Proof.
  intros Hc Hm Hlt. pose proof (Z.div_mod a c). pose proof (Z.div_mod b c).
  assert (a / c < b / c) by nia. nia.
Qed.

Lemma congr_close a b c : 0 < c → a mod c = b mod c → b - c < a < b + c → a = b.
Proof.
  intros Hc Hm Hr. destruct (Z.lt_trichotomy a b) as [Hlt|[->|Hgt]]; [|done|].
  - pose proof (congr_lap a b c Hc Hm Hlt). lia.
  - pose proof (congr_lap b a c Hc (eq_sym Hm) Hgt). lia.
Qed.

Lemma mod_add_lap a c : c ≠ 0 → (a + c) mod c = a mod c.
Proof. intros. rewrite <-(Z_mod_plus_full a 1 c). f_equal. lia. Qed.
