(* ===== verification/RingBuffer.v ===== *)
(** * ring_buffer: the bounded circular buffer, one critical section at a time

    The state and the operations of [foundation::RingBuffer<T>]
    (ring_buffer/include/ring_buffer.hpp) executed by one thread that holds
    the mutex.  Raw storage, the [occupied] flags and the indices are those of
    the source; undefined behaviour (an index outside the vector, a read or a
    destructor call on storage that holds no object) is [None], and the
    invariant [wf] shows it never happens.  [queue] reads the buffer as the
    list of its elements, and every operation is shown to act on that list as
    a bounded FIFO queue.  Blocking and wake-ups are in RingBufferConc. *)

From S2P Require Import Prelude.
Open Scope Z_scope.

Inductive RingBufferFullPolicy := Reject | OverwriteOldest.

#[export] Instance RingBufferFullPolicy_eq_dec : EqDecision RingBufferFullPolicy.
Proof. solve_decision. Defined.

Record RingBufferOptions := mkOptions {
  opt_capacity : Z;
  opt_full_policy : RingBufferFullPolicy;
}.

Record RingBufferStats := mkStats {
  pushes : Z;
  pops : Z;
  failed_pushes : Z;
  failed_pops : Z;
  overwrites : Z;
  closed_pushes : Z;
}.
#[export] Instance eta_RingBufferStats : Eta RingBufferStats := λ s,
  mkStats (pushes s) (pops s) (failed_pushes s) (failed_pops s)
    (overwrites s) (closed_pushes s).

(** A cell: [storage] is [Some v] while an object lives in the raw storage. *)
Record Cell (T : Type) := mkCell {
  storage : option T;
  occupied : bool;
}.
Arguments mkCell {T}.
Arguments storage {T}.
Arguments occupied {T}.
#[export] Instance eta_Cell {T} : Eta (Cell T) := λ c,
  mkCell (storage c) (occupied c).

Record RingBuffer (T : Type) := mkRingBuffer {
  buffer_ : list (Cell T);
  capacity_ : Z;
  full_policy_ : RingBufferFullPolicy;
  head_ : Z;
  tail_ : Z;
  size_ : Z;
  closed_ : bool;
  stats_ : RingBufferStats;
}.
Arguments mkRingBuffer {T}.
Arguments buffer_ {T}.
Arguments capacity_ {T}.
Arguments full_policy_ {T}.
Arguments head_ {T}.
Arguments tail_ {T}.
Arguments size_ {T}.
Arguments closed_ {T}.
Arguments stats_ {T}.
#[export] Instance eta_RingBuffer {T} : Eta (RingBuffer T) := λ r,
  mkRingBuffer (buffer_ r) (capacity_ r) (full_policy_ r) (head_ r) (tail_ r)
    (size_ r) (closed_ r) (stats_ r).

Section operations.
Context {T : Type}.
Implicit Types (rb : RingBuffer T) (v : T).

Definition zero_stats : RingBufferStats := mkStats 0 0 0 0 0 0.

(** The constructor; a capacity of 0 throws. *)
Definition make (options : RingBufferOptions) : outcome (RingBuffer T) :=
  let rb := mkRingBuffer
    (replicate (Z.to_nat (opt_capacity options)) (mkCell None false))
    (opt_capacity options) (opt_full_policy options) 0 0 0 false zero_stats in
  if opt_capacity options =? 0
  then Throws (InvalidArgument "RingBuffer capacity must be greater than 0")
  else Returns rb.

Definition nextIndex rb (index : Z) : Z :=
  if index ⊕ 1 =? capacity_ rb then 0 else index ⊕ 1.

Definition set_cell rb (index : Z) (c : Cell T) : RingBuffer T :=
  rb <| buffer_ := <[Z.to_nat index := c]> (buffer_ rb) |>.

(** Placement new into the raw storage of a cell of the vector. *)
Definition constructAt rb (index : Z) (value : T) : option (RingBuffer T) :=
  _ ← buffer_ rb !! Z.to_nat index;
  Some (set_cell rb index (mkCell (Some value) true)).

(** The destructor runs on an occupied cell only; it needs a live object. *)
Definition destroyAt rb (index : Z) : option (RingBuffer T) :=
  cell ← buffer_ rb !! Z.to_nat index;
  if occupied cell then
    _ ← storage cell;
    Some (set_cell rb index (mkCell None false))
  else Some rb.

Definition hasWritableSlotLocked rb : bool :=
  (size_ rb <? capacity_ rb) ||
  bool_decide (full_policy_ rb = OverwriteOldest).

Definition dropOldest rb : option (RingBuffer T) :=
  rb ← destroyAt rb (head_ rb);
  Some (rb <| head_ := nextIndex rb (head_ rb) |>
           <| size_ := size_ rb ⊖ 1 |>).

Definition pushLocked rb (value : T) : option (RingBuffer T * bool) :=
  if closed_ rb then
    Some (rb <| stats_ ::= λ s, s <| closed_pushes ::= λ n, n ⊕ 1 |>
                                  <| failed_pushes ::= λ n, n ⊕ 1 |> |>, false)
  else if (size_ rb =? capacity_ rb) && bool_decide (full_policy_ rb = Reject) then
    Some (rb <| stats_ ::= λ s, s <| failed_pushes ::= λ n, n ⊕ 1 |> |>, false)
  else
    rb ← (if size_ rb =? capacity_ rb then
            rb ← dropOldest rb;
            Some (rb <| stats_ ::= λ s, s <| overwrites ::= λ n, n ⊕ 1 |> |>)
          else Some rb);
    rb ← constructAt rb (tail_ rb) value;
    Some (rb <| tail_ := nextIndex rb (tail_ rb) |>
             <| size_ ::= λ n, n ⊕ 1 |>
             <| stats_ ::= λ s, s <| pushes ::= λ n, n ⊕ 1 |> |>, true).

Definition popLocked rb : option (RingBuffer T * T) :=
  cell ← buffer_ rb !! Z.to_nat (head_ rb);
  result ← storage cell;
  rb ← dropOldest rb;
  Some (rb <| stats_ ::= λ s, s <| pops ::= λ n, n ⊕ 1 |> |>, result).

(** The critical section of every pop that finds the buffer empty. *)
Definition failPop rb : RingBuffer T :=
  rb <| stats_ ::= λ s, s <| failed_pops ::= λ n, n ⊕ 1 |> |>.

Definition failPush rb : RingBuffer T :=
  rb <| stats_ ::= λ s, s <| failed_pushes ::= λ n, n ⊕ 1 |> |>.

Definition tryPush rb (value : T) : option (RingBuffer T * bool) :=
  pushLocked rb value.

Definition tryPop rb : option (RingBuffer T * option T) :=
  if size_ rb =? 0 then Some (failPop rb, None)
  else '(rb, v) ← popLocked rb; Some (rb, Some v).

Definition close rb : RingBuffer T := rb <| closed_ := true |>.

(** The loop of [clear]: [fuel] bounds its iterations. *)
Fixpoint clearLoop (fuel : nat) rb : option (RingBuffer T) :=
  if size_ rb =? 0 then Some rb
  else match fuel with
       | O => None
       | S fuel => rb ← dropOldest rb; clearLoop fuel rb
       end.

Definition clear rb : option (RingBuffer T) :=
  rb ← clearLoop (Z.to_nat (size_ rb)) rb;
  Some (rb <| head_ := 0 |> <| tail_ := 0 |>).

Definition isClosed rb : bool := closed_ rb.
Definition capacity rb : Z := capacity_ rb.
Definition size rb : Z := size_ rb.
Definition empty rb : bool := size_ rb =? 0.
Definition full rb : bool := size_ rb =? capacity_ rb.

(** ** The elements, oldest first *)

Definition cell_at rb (i : Z) : option (Cell T) := buffer_ rb !! Z.to_nat i.

(** Position of the [k]-th element, counting from the head. *)
Definition slot rb (k : Z) : Z := (head_ rb + k) mod capacity_ rb.

Definition elem rb (k : Z) : option T := cell_at rb (slot rb k) ≫= storage.

Definition queue rb : list T :=
  omap (λ k, elem rb (Z.of_nat k)) (seq 0 (Z.to_nat (size_ rb))).
End operations.

Definition blank {T} : Cell T := mkCell None false.
Definition live {T} (v : T) : Cell T := mkCell (Some v) true.

(** [repr rb q]: [rb] is well formed and holds exactly the elements [q],
    oldest first: slot [k] after the head is a live object for [k < length q]
    and blank storage for the rest of the capacity. *)
Record repr {T} (rb : RingBuffer T) (q : list T) : Prop := {
  repr_capacity : 0 < capacity_ rb < two64;
  repr_length : Z.of_nat (length (buffer_ rb)) = capacity_ rb;
  repr_head : 0 ≤ head_ rb < capacity_ rb;
  repr_size : size_ rb = Z.of_nat (length q);
  repr_bound : size_ rb ≤ capacity_ rb;
  repr_tail : tail_ rb = slot rb (size_ rb);
  repr_cells k : 0 ≤ k < capacity_ rb →
    cell_at rb (slot rb k) = Some (from_option live blank (q !! Z.to_nat k));
}.

Definition wf {T} (rb : RingBuffer T) : Prop := ∃ q, repr rb q.

(** ** Abstract bounded queue *)

Record BoundedQueue (T : Type) := mkBoundedQueue {
  bq_items : list T;
  bq_closed : bool;
}.
Arguments mkBoundedQueue {T}.
Arguments bq_items {T}.
Arguments bq_closed {T}.

Section spec.
Context {T : Type} (cap : Z) (policy : RingBufferFullPolicy).

Definition spec_push (s : BoundedQueue T) (v : T) : BoundedQueue T * bool :=
  if bq_closed s then (s, false)
  else if Z.of_nat (length (bq_items s)) <? cap
  then (mkBoundedQueue (bq_items s ++ [v]) false, true)
  else match policy with
       | Reject => (s, false)
       | OverwriteOldest => (mkBoundedQueue (tail (bq_items s) ++ [v]) false, true)
       end.

Definition spec_pop (s : BoundedQueue T) : BoundedQueue T * option T :=
  (mkBoundedQueue (tail (bq_items s)) (bq_closed s), head (bq_items s)).

Definition spec_close (s : BoundedQueue T) : BoundedQueue T :=
  mkBoundedQueue (bq_items s) true.

Definition spec_clear (s : BoundedQueue T) : BoundedQueue T :=
  mkBoundedQueue [] (bq_closed s).
End spec.

(** The abstraction of a buffer. *)
Definition abstract {T} (rb : RingBuffer T) : BoundedQueue T :=
  mkBoundedQueue (queue rb) (closed_ rb).

(** ** Client programs: sequences of operations and their results *)

Inductive op (T : Type) := Push (v : T) | Pop | Close | Clear.
Arguments Push {T} v.
Arguments Pop {T}.
Arguments Close {T}.
Arguments Clear {T}.

Inductive res (T : Type) := Pushed (b : bool) | Popped (o : option T) | Unit.
Arguments Pushed {T} b.
Arguments Popped {T} o.
Arguments Unit {T}.

Definition exec {T} (rb : RingBuffer T) (o : op T) : option (RingBuffer T * res T) :=
  match o with
  | Push v => '(rb, b) ← tryPush rb v; Some (rb, Pushed b)
  | Pop => '(rb, r) ← tryPop rb; Some (rb, Popped r)
  | Close => Some (close rb, Unit)
  | Clear => rb ← clear rb; Some (rb, Unit)
  end.

Definition spec_exec {T} cap policy (s : BoundedQueue T) (o : op T) : BoundedQueue T * res T :=
  match o with
  | Push v => let '(s, b) := spec_push cap policy s v in (s, Pushed b)
  | Pop => let '(s, r) := spec_pop s in (s, Popped r)
  | Close => (spec_close s, Unit)
  | Clear => (spec_clear s, Unit)
  end.

Fixpoint exec_all {T} (rb : RingBuffer T) (os : list (op T)) : option (RingBuffer T * list (res T)) :=
  match os with
  | [] => Some (rb, [])
  | o :: os => '(rb, r) ← exec rb o; '(rb, rs) ← exec_all rb os; Some (rb, r :: rs)
  end.

Fixpoint spec_exec_all {T} cap policy (s : BoundedQueue T) (os : list (op T)) : BoundedQueue T * list (res T) :=
  match os with
  | [] => (s, [])
  | o :: os =>
      let '(s, r) := spec_exec cap policy s o in
      let '(s, rs) := spec_exec_all cap policy s os in (s, r :: rs)
  end.

(** How often a client saw each kind of result. *)
Definition count {A} (P : A → bool) (l : list A) : Z :=
  sum_of (λ x, if P x then 1 else 0) l.

Definition is_pushed {T} (b : bool) (r : res T) : bool :=
  match r with Pushed b' => eqb b b' | _ => false end.
Definition is_popped {T} (b : bool) (r : res T) : bool :=
  match r with Popped o => eqb b (bool_decide (is_Some o)) | _ => false end.
Definition is_clear {T} (o : op T) : bool :=
  match o with Clear => true | _ => false end.

Definition params {T} (rb : RingBuffer T) : Z * RingBufferFullPolicy :=
  (capacity_ rb, full_policy_ rb).

Section lemmas.
Context {T : Type}.
Implicit Types (rb : RingBuffer T) (v : T) (q : list T).

Lemma slot_val rb k :
  0 ≤ head_ rb < capacity_ rb → 0 ≤ k ≤ capacity_ rb →
  slot rb k = if head_ rb + k <? capacity_ rb then head_ rb + k
              else head_ rb + k - capacity_ rb.
Proof. intros. unfold slot. apply mod_once; lia. Qed.

Lemma nextIndex_val rb i :
  0 < capacity_ rb < two64 → 0 ≤ i < capacity_ rb →
  nextIndex rb i = (i + 1) mod capacity_ rb.
Proof.
  intros. unfold nextIndex. rewrite mod_once by lia. u64_elim.
  repeat case_match; lia.
Qed.

(** Writing one slot leaves every other slot alone. *)
Lemma set_cell_at rb i c j :
  0 ≤ i < Z.of_nat (length (buffer_ rb)) → 0 ≤ j →
  cell_at (set_cell rb i c) j = if decide (i = j) then Some c else cell_at rb j.
Proof.
  intros Hi Hj. unfold cell_at, set_cell; simpl. case_decide as Heq.
  - subst. apply list_lookup_insert_eq. lia.
  - apply list_lookup_insert_ne. lia.
Qed.

Lemma repr_queue rb q : repr rb q → queue rb = q.
Proof.
  intros H. unfold queue. rewrite (repr_size _ _ H), Nat2Z.id.
  apply list_eq. intros i.
  assert (∀ n m, n + m ≤ length q →
    omap (λ k, elem rb (Z.of_nat k)) (seq n m) = take m (drop n q))%nat as Hall.
  { intros n m. revert n. induction m as [|m IH]; intros n Hn; simpl; [done|].
    destruct (lookup_lt_is_Some_2 q n) as [v Hv]; [lia|].
    unfold elem. rewrite (repr_cells _ _ H), Nat2Z.id, Hv.
    2: { pose proof (repr_bound _ _ H). pose proof (repr_size _ _ H). lia. }
    simpl. rewrite IH by lia. rewrite (drop_S _ _ _ Hv). done. }
  rewrite Hall by lia. by rewrite firstn_all.
Qed.

(** Results of the two elementary moves, as plain terms. *)
Definition dropped rb : RingBuffer T :=
  (set_cell rb (head_ rb) blank) <| head_ := nextIndex rb (head_ rb) |>
    <| size_ := size_ rb ⊖ 1 |>.

Definition written rb v : RingBuffer T :=
  (set_cell rb (tail_ rb) (live v)) <| tail_ := nextIndex rb (tail_ rb) |>
    <| size_ ::= λ n, n ⊕ 1 |>.

Lemma repr_head_cell rb v q :
  repr rb (v :: q) → buffer_ rb !! Z.to_nat (head_ rb) = Some (live v).
Proof.
  intros H. pose proof (repr_cells _ _ H 0) as Hc.
  pose proof (repr_capacity _ _ H). pose proof (repr_head _ _ H).
  rewrite slot_val in Hc by lia. case_match; [|lia].
  rewrite Z.add_0_r in Hc. apply Hc. lia.
Qed.

Lemma dropOldest_eq rb v q : repr rb (v :: q) → dropOldest rb = Some (dropped rb).
Proof.
  intros H. unfold dropOldest, destroyAt, dropped.
  rewrite (repr_head_cell _ _ _ H). done.
Qed.

Lemma dropped_repr rb v q : repr rb (v :: q) → repr (dropped rb) q.
Proof.
  intros [Hc Hl Hh Hs Hb Ht Hcells]. simpl in Hs.
  assert (head_ (dropped rb) = slot rb 1) as Hhead.
  { unfold dropped. simpl. rewrite nextIndex_val by lia. unfold slot. done. }
  assert (0 ≤ slot rb 1 < capacity_ rb) by (apply Z.mod_pos_bound; lia).
  assert (∀ k, 0 ≤ k < capacity_ rb → slot (dropped rb) k = slot rb (k + 1)) as Hslot.
  { intros k Hk. unfold slot at 1. rewrite Hhead. simpl. unfold slot.
    rewrite Zplus_mod_idemp_l. f_equal. lia. }
  assert (slot rb 0 = head_ rb) as Hslot0.
  { rewrite slot_val by lia. case_match; lia. }
  split; rewrite ?Hhead; try (simpl; rewrite ?length_insert; u64_lia).
  - simpl. rewrite Hslot by u64_lia. rewrite Ht. f_equal. u64_lia.
  - intros k Hk. simpl in Hk. rewrite Hslot by done.
    change (cell_at (dropped rb)) with (cell_at (set_cell rb (head_ rb) blank)).
    rewrite set_cell_at; [|lia|apply Z.mod_pos_bound; lia].
    case_decide as Heq.
    + (* the freed slot is now the last one *)
      rewrite slot_val in Heq by lia.
      assert (k = capacity_ rb - 1) as -> by (case_match; lia).
      rewrite lookup_ge_None_2 by lia. done.
    + assert (k + 1 < capacity_ rb).
      { rewrite slot_val in Heq by lia. case_match; lia. }
      rewrite Hcells by lia.
      replace (Z.to_nat (k + 1)) with (S (Z.to_nat k)) by lia. done.
Qed.

Lemma written_repr rb v q :
  repr rb q → size_ rb < capacity_ rb → repr (written rb v) (q ++ [v]).
Proof.
  intros [Hc Hl Hh Hs Hb Ht Hcells] Hlt.
  assert (0 ≤ slot rb (size_ rb) < capacity_ rb) by (apply Z.mod_pos_bound; lia).
  split; simpl; rewrite ?length_insert, ?length_app; simpl; try u64_lia.
  - rewrite nextIndex_val by lia. rewrite Ht. u64_elim.
    unfold slot; simpl. rewrite Zplus_mod_idemp_l. f_equal. lia.
  - intros k Hk.
    change (cell_at (written rb v)) with (cell_at (set_cell rb (tail_ rb) (live v))).
    change (slot (written rb v) k) with (slot rb k).
    rewrite set_cell_at; [|lia|apply Z.mod_pos_bound; lia].
    case_decide as Heq.
    + assert (k = size_ rb) as ->.
      { rewrite Ht, !slot_val in Heq by lia. repeat case_match; lia. }
      rewrite lookup_app_r by lia.
      replace (Z.to_nat (size_ rb) - length q)%nat with 0%nat by lia. done.
    + rewrite Hcells by done. do 2 f_equal.
      destruct (decide (k < size_ rb)).
      * rewrite lookup_app_l by lia. done.
      * assert (k ≠ size_ rb) by (intros ->; congruence).
        rewrite !lookup_ge_None_2; rewrite ?length_app; simpl; try lia; done.
Qed.

Lemma constructAt_eq rb v q :
  repr rb q → constructAt rb (tail_ rb) v = Some (set_cell rb (tail_ rb) (live v)).
Proof.
  intros H. unfold constructAt.
  destruct (lookup_lt_is_Some_2 (buffer_ rb) (Z.to_nat (tail_ rb))) as [c ->]; [|done].
  pose proof (repr_length _ _ H). pose proof (repr_capacity _ _ H).
  rewrite (repr_tail _ _ H).
  pose proof (Z.mod_pos_bound (head_ rb + size_ rb) (capacity_ rb)). unfold slot. lia.
Qed.

(** Updates of [stats_] and [closed_] do not touch the elements. *)
Lemma repr_stats rb f q : repr rb q → repr (rb <| stats_ ::= f |>) q.
Proof. intros []; split; done. Qed.
Lemma repr_closed rb b q : repr rb q → repr (rb <| closed_ := b |>) q.
Proof. intros []; split; done. Qed.
End lemmas.

#[export] Hint Resolve repr_stats repr_closed dropped_repr written_repr : comp.

Section refinement.
Context {T : Type}.
Implicit Types (rb : RingBuffer T) (v : T) (q : list T).

Lemma make_repr o rb :
  0 ≤ opt_capacity o < two64 → make o = Returns rb →
  repr rb [] ∧ params rb = (opt_capacity o, opt_full_policy o)
  ∧ closed_ rb = false ∧ stats_ rb = zero_stats.
Proof.
  unfold make. intros Hc. case_match eqn:E; [done|]. intros [= <-].
  apply Z.eqb_neq in E. split_and!; try done.
  split; simpl; rewrite ?length_replicate; try lia.
  - unfold slot. simpl. by rewrite Z.mod_0_l.
  - intros k Hk. unfold cell_at, slot. simpl.
    rewrite Z.mod_small by lia. apply lookup_replicate_2. lia.
Qed.

Lemma pushLocked_spec rb q v :
  repr rb q →
  let '(s, b) := spec_push (capacity_ rb) (full_policy_ rb)
                   (mkBoundedQueue q (closed_ rb)) v in
  ∃ rb', pushLocked rb v = Some (rb', b) ∧ repr rb' (bq_items s)
    ∧ bq_closed s = closed_ rb ∧ closed_ rb' = closed_ rb ∧ params rb' = params rb.
Proof.
  intros H. unfold pushLocked, spec_push. simpl.
  pose proof (repr_size _ _ H) as Hs. pose proof (repr_bound _ _ H).
  pose proof (repr_capacity _ _ H).
  destruct (closed_ rb) eqn:Hcl.
  { eexists. split_and!; eauto with comp. }
  rewrite <-Hs. destruct (Z.eqb_spec (size_ rb) (capacity_ rb)) as [Hfull|Hfull].
  - destruct (Z.ltb_spec (size_ rb) (capacity_ rb)); [lia|].
    destruct (full_policy_ rb); simpl.
    + eexists. split_and!; eauto with comp.
    + destruct q as [|w q]; [simpl in *; lia|].
      rewrite (dropOldest_eq _ _ _ H). cbn [mbind option_bind].
      set (rb1 := (dropped rb) <| stats_ ::= _ |>).
      assert (repr rb1 q) as Hq1 by (subst rb1; eauto with comp).
      rewrite (constructAt_eq _ v _ Hq1). simpl.
      eexists. split_and!; [done| |done..].
      change (repr ((written rb1 v) <| stats_ ::= λ s, s <| pushes ::= λ n, n ⊕ 1 |> |>)
                (q ++ [v])).
      apply repr_stats, written_repr; [done|].
      pose proof (repr_size _ _ Hq1) as Hs1. simpl in Hs, Hs1 |- *. rewrite Hs1. lia.
  - destruct (Z.ltb_spec (size_ rb) (capacity_ rb)); [|lia]. simpl.
    rewrite (constructAt_eq _ v _ H). simpl.
    eexists. split_and!; [done| |done..].
    change (repr ((written rb v) <| stats_ ::= λ s, s <| pushes ::= λ n, n ⊕ 1 |> |>)
              (q ++ [v])).
    by apply repr_stats, written_repr.
Qed.

Lemma popLocked_eq rb v q :
  repr rb (v :: q) →
  popLocked rb = Some ((dropped rb) <| stats_ ::= λ s, s <| pops ::= λ n, n ⊕ 1 |> |>, v).
Proof.
  intros H. unfold popLocked. rewrite (repr_head_cell _ _ _ H). simpl.
  by rewrite (dropOldest_eq _ _ _ H).
Qed.

Lemma tryPop_spec rb q :
  repr rb q →
  ∃ rb', tryPop rb = Some (rb', head q) ∧ repr rb' (tail q)
    ∧ closed_ rb' = closed_ rb ∧ params rb' = params rb.
Proof.
  intros H. unfold tryPop. rewrite (repr_size _ _ H).
  destruct q as [|v q]; simpl.
  - eexists. split_and!; [done|apply repr_stats, H|done..].
  - rewrite (popLocked_eq _ _ _ H). simpl.
    eexists. split_and!; [done|apply repr_stats; eauto with comp|done..].
Qed.

Lemma clearLoop_spec q rb fuel :
  repr rb q → (length q ≤ fuel)%nat →
  ∃ rb', clearLoop fuel rb = Some rb' ∧ repr rb' []
    ∧ closed_ rb' = closed_ rb ∧ params rb' = params rb ∧ stats_ rb' = stats_ rb.
Proof.
  revert rb fuel. induction q as [|v q IH]; intros rb fuel H Hf.
  - exists rb. pose proof (repr_size _ _ H) as Hs. simpl in Hs.
    destruct fuel; simpl; rewrite Hs; done.
  - destruct fuel as [|fuel]; simpl in Hf; [lia|]. simpl.
    rewrite (repr_size _ _ H). simpl. rewrite (dropOldest_eq _ _ _ H). simpl.
    destruct (IH (dropped rb) fuel) as (rb' & ? & ? & ? & ? & ?);
      [eauto with comp|lia|]. by exists rb'.
Qed.

(** [clear] ends with blank storage everywhere and both indices at 0. *)
Lemma clear_spec rb q :
  repr rb q →
  ∃ rb', clear rb = Some rb' ∧ repr rb' [] ∧ Forall (λ c, c = blank) (buffer_ rb')
    ∧ closed_ rb' = closed_ rb ∧ params rb' = params rb ∧ stats_ rb' = stats_ rb.
Proof.
  intros H. unfold clear.
  destruct (clearLoop_spec q rb (Z.to_nat (size_ rb)) H) as (rb' & -> & Hr & ? & ? & ?).
  { rewrite (repr_size _ _ H). lia. }
  assert (∀ i, 0 ≤ i < capacity_ rb' → buffer_ rb' !! Z.to_nat i = Some blank) as Hblank.
  { intros i Hi. destruct Hr as [_ _ Hh _ _ _ Hcells].
    pose proof (Hcells ((i - head_ rb') mod capacity_ rb')) as Hx.
    unfold cell_at, slot in Hx.
    rewrite Zplus_mod_idemp_r in Hx.
    replace (head_ rb' + (i - head_ rb')) with i in Hx by lia.
    rewrite (Z.mod_small i) in Hx by lia. rewrite Hx; [done|].
    apply Z.mod_pos_bound. lia. }
  pose proof (repr_length _ _ Hr). pose proof (repr_capacity _ _ Hr).
  eexists. split_and!; [done| |simpl|done..].
  - pose proof (repr_size _ _ Hr) as Hs. simpl in Hs.
    destruct Hr. split; simpl; try done; [lia|..].
    + unfold slot. simpl. rewrite Hs, Z.mod_0_l; [done|lia].
    + intros k Hk. unfold cell_at, slot. simpl. rewrite Z.mod_small by lia. eauto.
  - apply Forall_lookup. intros i c Hi.
    pose proof (lookup_lt_Some _ _ _ Hi).
    specialize (Hblank (Z.of_nat i)). rewrite Nat2Z.id in Hblank.
    rewrite Hblank in Hi by lia. congruence.
Qed.

(** One operation of the client refines one operation of the queue. *)
Lemma exec_spec rb q o :
  repr rb q →
  let '(s, r) := spec_exec (capacity_ rb) (full_policy_ rb)
                   (mkBoundedQueue q (closed_ rb)) o in
  ∃ rb', exec rb o = Some (rb', r) ∧ repr rb' (bq_items s)
    ∧ closed_ rb' = bq_closed s ∧ params rb' = params rb.
Proof.
  intros H. destruct o as [v| | |]; simpl.
  - pose proof (pushLocked_spec rb q v H) as Hp. unfold tryPush.
    destruct (spec_push _ _ _ _) as [s b]. destruct Hp as (rb' & -> & ? & Hc & ? & ?).
    exists rb'. rewrite Hc. done.
  - destruct (tryPop_spec rb q H) as (rb' & -> & ? & ? & ?). by exists rb'.
  - eexists. split_and!; [done|apply repr_closed, H|done..].
  - destruct (clear_spec rb q H) as (rb' & -> & ? & _ & ? & ? & ?). by exists rb'.
Qed.

Lemma exec_all_spec os rb q :
  repr rb q →
  let '(s, rs) := spec_exec_all (capacity_ rb) (full_policy_ rb)
                   (mkBoundedQueue q (closed_ rb)) os in
  ∃ rb', exec_all rb os = Some (rb', rs) ∧ repr rb' (bq_items s)
    ∧ closed_ rb' = bq_closed s ∧ params rb' = params rb.
Proof.
  revert rb q. induction os as [|o os IH]; intros rb q H; simpl; [by exists rb|].
  pose proof (exec_spec rb q o H) as Ho.
  destruct (spec_exec _ _ _ o) as [s r]. destruct Ho as (rb1 & -> & Hq1 & Hc & Hp).
  simpl. specialize (IH rb1 _ Hq1). injection Hp as Hp1 Hp2.
  rewrite Hp1, Hp2, Hc in IH. destruct s as [items cl]. simpl in *.
  destruct (spec_exec_all _ _ _ os) as [s' rs].
  destruct IH as (rb2 & -> & ? & ? & Hp'). exists rb2. split_and!; try done.
  unfold params in *. congruence.
Qed.
End refinement.

Definition b2z (b : bool) : Z := if b then 1 else 0.

(** [tally rb P F p f]: the counters of [stats_] are the 64-bit images of the
    number of accepted and refused pushes and of successful and failed pops. *)
Record tally {T} (rb : RingBuffer T) (P F p f : Z) : Prop := {
  tally_pushes : pushes (stats_ rb) = u64 P;
  tally_failed_pushes : failed_pushes (stats_ rb) = u64 F;
  tally_pops : pops (stats_ rb) = u64 p;
  tally_failed_pops : failed_pops (stats_ rb) = u64 f;
}.

(** Elements that entered, minus those that left by a pop or an overwrite,
    minus those still there. *)
Definition balance {T} (rb : RingBuffer T) : Z :=
  u64 (pushes (stats_ rb) - pops (stats_ rb) - overwrites (stats_ rb) - size_ rb).

Section statistics.
Context {T : Type}.
Implicit Types (rb : RingBuffer T) (v : T).

Lemma constructAt_inv rb i v rb' :
  constructAt rb i v = Some rb' → rb' = set_cell rb i (live v).
Proof. unfold constructAt. destruct (_ !! _); naive_solver. Qed.

Lemma dropOldest_stats rb rb' :
  dropOldest rb = Some rb' →
  stats_ rb' = stats_ rb ∧ size_ rb' = size_ rb ⊖ 1.
Proof.
  unfold dropOldest, destroyAt. destruct (_ !! _) as [c|]; [|done]. simpl.
  destruct (occupied c), (storage c); intros; simplify_eq/=; done.
Qed.

Lemma clearLoop_stats fuel rb rb' :
  clearLoop fuel rb = Some rb' → stats_ rb' = stats_ rb.
Proof.
  revert rb. induction fuel as [|n IH]; intros rb; simpl; case_match; try naive_solver.
  destruct (dropOldest rb) as [rb1|] eqn:E; [|done]. simpl. intros H1.
  rewrite (IH _ H1). by apply dropOldest_stats in E as [? _].
Qed.

(** The counters an accepted or a refused push moves. *)
Lemma pushLocked_stats rb v rb' b :
  pushLocked rb v = Some (rb', b) →
  if b then
    (stats_ rb' = (stats_ rb) <| pushes ::= λ n, n ⊕ 1 |>
       ∧ size_ rb' = size_ rb ⊕ 1)
    ∨ (stats_ rb' = (stats_ rb) <| overwrites ::= λ n, n ⊕ 1 |>
                                <| pushes ::= λ n, n ⊕ 1 |>
       ∧ size_ rb' = size_ rb ⊖ 1 ⊕ 1)
  else
    size_ rb' = size_ rb
    ∧ (stats_ rb' = (stats_ rb) <| failed_pushes ::= λ n, n ⊕ 1 |>
       ∨ stats_ rb' = (stats_ rb) <| closed_pushes ::= λ n, n ⊕ 1 |>
                                  <| failed_pushes ::= λ n, n ⊕ 1 |>).
Proof.
  unfold pushLocked. destruct (closed_ rb); [naive_solver|].
  destruct (_ =? _) eqn:Efull; simpl.
  - case_bool_decide; [naive_solver|].
    destruct (dropOldest rb) as [rb1|] eqn:E1; [|done]. simpl.
    destruct (constructAt _ _ _) as [rb2|] eqn:E2; [|done]. simpl.
    apply constructAt_inv in E2. apply dropOldest_stats in E1 as [Es Ez].
    intros. simplify_eq/=. rewrite Es, Ez. by right.
  - destruct (constructAt _ _ _) as [rb2|] eqn:E2; [|done]. simpl.
    apply constructAt_inv in E2. intros. simplify_eq/=. by left.
Qed.

Lemma tryPop_stats rb rb' o :
  tryPop rb = Some (rb', o) →
  if o is Some _ then stats_ rb' = (stats_ rb) <| pops ::= λ n, n ⊕ 1 |>
            ∧ size_ rb' = size_ rb ⊖ 1
  else stats_ rb' = (stats_ rb) <| failed_pops ::= λ n, n ⊕ 1 |>
       ∧ size_ rb' = size_ rb.
Proof.
  unfold tryPop, popLocked. case_match; [naive_solver|].
  destruct (_ !! _) as [c|]; [|done]. simpl. destruct (storage c); [|done]. simpl.
  destruct (dropOldest rb) as [rb1|] eqn:E1; [|done]. simpl.
  apply dropOldest_stats in E1 as [Es Ez]. intros. simplify_eq/=. by rewrite Es, Ez.
Qed.

Lemma clear_stats rb rb' : clear rb = Some rb' → stats_ rb' = stats_ rb.
Proof.
  unfold clear. destruct (clearLoop _ _) as [rb1|] eqn:E; [|done].
  intros. simplify_eq/=. by eapply clearLoop_stats.
Qed.

Lemma u64_tally_0 n P : n = u64 P → n = u64 (P + 0).
Proof. by rewrite Z.add_0_r. Qed.
Lemma u64_tally_1 n P : n = u64 P → n ⊕ 1 = u64 (P + 1).
Proof. intros ->. by u64_norm. Qed.
Hint Resolve u64_tally_0 u64_tally_1 : comp.

(** Every critical section moves exactly the counter of its result. *)
Lemma exec_tally rb o rb' r P F p f :
  exec rb o = Some (rb', r) → tally rb P F p f →
  tally rb' (P + b2z (is_pushed true r)) (F + b2z (is_pushed false r))
            (p + b2z (is_popped true r)) (f + b2z (is_popped false r)).
Proof.
  intros He [HP HF Hp Hf]. destruct o as [v| | |]; simpl in He.
  - destruct (tryPush rb v) as [[rb1 b]|] eqn:E; [|done]. simplify_eq/=.
    apply pushLocked_stats in E. destruct b; simpl in *.
    + destruct E as [[Es _]|[Es _]]; split; rewrite Es; simpl; eauto with comp.
    + destruct E as [_ [Es|Es]]; split; rewrite Es; simpl; eauto with comp.
  - destruct (tryPop rb) as [[rb1 o]|] eqn:E; [|done]. simplify_eq/=.
    apply tryPop_stats in E. destruct o; simpl in *; destruct E as [Es _];
      split; rewrite Es; simpl; eauto with comp.
  - simplify_eq/=. split; simpl; eauto with comp.
  - destruct (clear rb) as [rb1|] eqn:E; [|done]. simplify_eq/=.
    apply clear_stats in E. split; rewrite E; simpl; eauto with comp.
Qed.

Lemma exec_balance rb o rb' r :
  exec rb o = Some (rb', r) → is_clear o = false → balance rb' = balance rb.
Proof.
  intros He Ho. unfold balance. destruct o as [v| | |]; simpl in *; [..|done].
  - destruct (tryPush rb v) as [[rb1 b]|] eqn:E; [|done]. simplify_eq/=.
    apply pushLocked_stats in E. destruct b.
    + destruct E as [[-> ->]|[-> ->]]; simpl; u64_ring.
    + destruct E as [-> [->| ->]]; done.
  - destruct (tryPop rb) as [[rb1 o]|] eqn:E; [|done]. simplify_eq/=.
    apply tryPop_stats in E. destruct o; destruct E as [-> ->]; simpl; [|done].
    u64_ring.
  - by simplify_eq/=.
Qed.

Lemma exec_all_tally os rb rb' rs P F p f :
  exec_all rb os = Some (rb', rs) → tally rb P F p f →
  tally rb' (P + count (is_pushed true) rs) (F + count (is_pushed false) rs)
            (p + count (is_popped true) rs) (f + count (is_popped false) rs).
Proof.
  revert rb rs P F p f. induction os as [|o os IH]; intros rb rs P F p f; simpl.
  - intros [= -> <-] H. unfold count. simpl. by rewrite !Z.add_0_r.
  - destruct (exec rb o) as [[rb1 r]|] eqn:E1; [|done]. simpl.
    destruct (exec_all rb1 os) as [[rb2 rs2]|] eqn:E2; [|done]. simpl.
    intros [= -> <-] H. pose proof (IH _ _ _ _ _ _ E2 (exec_tally _ _ _ _ _ _ _ _ E1 H)) as Ht.
    unfold count, b2z in *. simpl. by rewrite !Z.add_assoc.
Qed.

Lemma exec_all_balance os rb rb' rs :
  exec_all rb os = Some (rb', rs) → count is_clear os = 0 → balance rb' = balance rb.
Proof.
  revert rb rs. induction os as [|o os IH]; intros rb rs; simpl; [naive_solver|].
  destruct (exec rb o) as [[rb1 r]|] eqn:E1; [|done]. simpl.
  destruct (exec_all rb1 os) as [[rb2 rs2]|] eqn:E2; [|done]. simpl.
  intros [= -> <-]. unfold count. simpl. intros Hc.
  assert (0 ≤ sum_of (λ x : op T, if is_clear x then 1 else 0) os) as Hn.
  { apply sum_of_nonneg. intros x. by destruct (is_clear x). }
  assert (is_clear o = false) as Ho by (destruct (is_clear o); [lia|done]).
  rewrite Ho in Hc. rewrite (IH _ _ E2 Hc). by eapply exec_balance.
Qed.
End statistics.

(** Pushing into an [OverwriteOldest] queue keeps a suffix of the history. *)
Lemma spec_pushes_overwrite {T} cap (vs q : list T) :
  0 < cap → Z.of_nat (length q) ≤ cap →
  spec_exec_all cap OverwriteOldest (mkBoundedQueue q false) (Push <$> vs)
  = (mkBoundedQueue (drop (length (q ++ vs) - Z.to_nat cap) (q ++ vs)) false,
     replicate (length vs) (Pushed true)).
Proof.
  intros Hcap. revert q. induction vs as [|v vs IH]; intros q Hq; simpl.
  - rewrite app_nil_r. replace (length q - _)%nat with 0%nat by lia. done.
  - unfold spec_push. simpl. destruct (Z.ltb_spec (Z.of_nat (length q)) cap).
    + rewrite IH by (rewrite length_app; simpl; lia). by rewrite <-app_assoc.
    + destruct q as [|w q]; simpl in *; [lia|].
      rewrite IH by (rewrite length_app; simpl; lia). rewrite <-app_assoc.
      rewrite !length_app. simpl.
      replace (S (length q + S (length vs)) - Z.to_nat cap)%nat
        with (S (length q + S (length vs) - Z.to_nat cap))%nat by lia. done.
Qed.

(** ** Properties *)

Section properties.
Context {T : Type}.
Implicit Types (rb : RingBuffer T) (vs : list T).

(** C1: every program of push, pop, close and clear operations run on a fresh
    buffer executes without undefined behaviour, returns exactly the results
    of a bounded FIFO queue with the configured capacity and full policy, and
    ends in a well-formed buffer that holds the queue's elements in order. *)
Theorem ring_refines_bounded_queue options rb os :
  0 ≤ opt_capacity options < two64 → make options = Returns rb →
  let '(s, rs) := spec_exec_all (opt_capacity options) (opt_full_policy options)
                    (mkBoundedQueue [] false) os in
  ∃ rb', exec_all rb os = Some (rb', rs) ∧ wf rb' ∧ abstract rb' = s.
Proof.
  intros Hc Hm. destruct (make_repr _ _ Hc Hm) as (Hr & Hp & Hcl & _).
  pose proof (exec_all_spec os rb [] Hr) as H. injection Hp as Hp1 Hp2.
  rewrite Hp1, Hp2, Hcl in H. destruct (spec_exec_all _ _ _ os) as [s rs].
  destruct H as (rb' & ? & Hr' & Hcl' & _).
  exists rb'. split_and!; [done|by eexists|].
  unfold abstract. rewrite (repr_queue _ _ Hr'), Hcl'. by destruct s.
Qed.

(** Pushing any sequence of values into a fresh [OverwriteOldest] buffer
    accepts all of them and leaves exactly the last [capacity] values, in
    order, whatever the number of wrap-arounds. *)
Theorem ring_overwrite_keeps_latest c rb vs :
  0 < c < two64 → make (mkOptions c OverwriteOldest) = Returns rb →
  ∃ rb', exec_all rb (Push <$> vs) = Some (rb', replicate (length vs) (Pushed true))
    ∧ queue rb' = drop (length vs - Z.to_nat c) vs.
Proof.
  intros Hc Hm. destruct (make_repr (mkOptions c OverwriteOldest) rb ltac:(simpl; lia) Hm) as (Hr & Hp & Hcl & _).
  pose proof (exec_all_spec (Push <$> vs) rb [] Hr) as H. injection Hp as Hp1 Hp2.
  simpl in Hp1, Hp2.
  rewrite Hp1, Hp2, Hcl, spec_pushes_overwrite in H by (simpl; lia).
  destruct H as (rb' & ? & Hr' & _). exists rb'. split; [done|].
  by rewrite (repr_queue _ _ Hr').
Qed.

(** The statistics agree with what callers observed, modulo [2^64]: the
    four result counters count the accepted and refused pushes and the
    successful and failed pops, and without [clear] the number of stored
    elements is pushes minus pops minus overwrites. *)
Theorem ring_stats_account options rb os rb' rs :
  0 ≤ opt_capacity options < two64 → make options = Returns rb →
  exec_all rb os = Some (rb', rs) →
  tally rb' (count (is_pushed true) rs) (count (is_pushed false) rs)
            (count (is_popped true) rs) (count (is_popped false) rs)
  ∧ (count is_clear os = 0 →
     size rb' = u64 (pushes (stats_ rb') - pops (stats_ rb') - overwrites (stats_ rb'))).
Proof.
  intros Hc Hm He. destruct (make_repr _ _ Hc Hm) as (Hr & _ & _ & Hs). split.
  - apply (exec_all_tally _ _ _ _ 0 0 0 0 He). by split; rewrite Hs.
  - intros Hcl. pose proof (exec_all_balance _ _ _ _ He Hcl) as Hb.
    pose proof (exec_all_spec os rb [] Hr) as H. destruct (spec_exec_all _ _ _ os).
    destruct H as (rb2 & He2 & Hr2 & _). rewrite He in He2. simplify_eq.
    assert (0 ≤ size_ rb2 < two64).
    { destruct Hr2. lia. }
    unfold balance in Hb. rewrite Hs, (repr_size _ _ Hr) in Hb. simpl in Hb.
    unfold size. u64_ring.
Qed.

(** [clear], hence the destructor, terminates after at most [size_]
    iterations on every well-formed buffer, destroys every stored object
    exactly where it lives (all storage is blank afterwards), keeps the
    statistics and leaves an empty well-formed buffer. *)
Theorem ring_clear_destroys_all rb :
  wf rb →
  ∃ rb', clear rb = Some rb' ∧ wf rb' ∧ queue rb' = []
    ∧ Forall (λ c, c = blank) (buffer_ rb') ∧ stats_ rb' = stats_ rb.
Proof.
  intros [q Hq]. destruct (clear_spec _ _ Hq) as (rb' & ? & Hr & ? & _ & _ & ?).
  exists rb'. split_and!; try done; [by eexists|by apply repr_queue].
Qed.
End properties.

(** ** Witnesses *)

Definition sample_options : RingBufferOptions := mkOptions 2 OverwriteOldest.
Definition sample_ops : list (op Z) :=
  [Push 1; Push 2; Push 3; Pop; Close; Push 4; Pop; Pop].
Definition sample : RingBuffer Z :=
  mkRingBuffer (replicate 2 blank) 2 OverwriteOldest 0 0 0 false zero_stats.

Lemma ring_refines_bounded_queue_witness :
  ∃ rb', exec_all sample sample_ops
    = Some (rb', [Pushed true; Pushed true; Pushed true; Popped (Some 2); Unit;
                  Pushed false; Popped (Some 3); Popped None])
    ∧ wf rb' ∧ abstract rb' = mkBoundedQueue [] true.
Proof.
  apply (ring_refines_bounded_queue sample_options sample sample_ops);
    [unfold two64; simpl; lia|reflexivity].
Defined.

Lemma ring_overwrite_keeps_latest_witness :
  ∃ rb', exec_all sample (Push <$> [1; 2; 3; 4; 5])
    = Some (rb', replicate 5 (Pushed true)) ∧ queue rb' = [4; 5].
Proof.
  apply (ring_overwrite_keeps_latest 2 sample [1; 2; 3; 4; 5]);
    [unfold two64; lia|reflexivity].
Defined.

Definition sample_end : RingBuffer Z :=
  mkRingBuffer (replicate 2 blank) 2 OverwriteOldest 1 1 0 true
    (mkStats 3 2 1 1 1 1).

Lemma ring_stats_account_witness :
  tally sample_end 3 1 2 1 ∧ (0 = 0 → 0 = u64 (3 - 2 - 1)).
Proof.
  apply (ring_stats_account sample_options sample sample_ops sample_end
    [Pushed true; Pushed true; Pushed true; Popped (Some 2); Unit;
     Pushed false; Popped (Some 3); Popped None]);
    [unfold two64; simpl; lia|reflexivity|vm_compute; reflexivity].
Defined.

Definition sample_full : RingBuffer Z :=
  mkRingBuffer [live 5; live 4] 2 OverwriteOldest 1 1 2 false zero_stats.

Lemma sample_full_wf : wf sample_full.
Proof.
  exists [4; 5]. split; simpl; try (unfold two64; lia); [reflexivity|].
  intros k Hk. assert (k = 0 ∨ k = 1) as [-> | ->] by lia; reflexivity.
Qed.

Lemma ring_clear_destroys_all_witness :
  ∃ rb', clear sample_full = Some rb' ∧ wf rb' ∧ queue rb' = []
    ∧ Forall (λ c, c = blank) (buffer_ rb') ∧ stats_ rb' = zero_stats.
Proof. apply (ring_clear_destroys_all sample_full), sample_full_wf. Defined.
