(* ===== verification/RingBufferConc.v ===== *)
(** * ring_buffer: threads, condition variables and wake-ups

    The blocking interface of [foundation::RingBuffer<T>].  The mutex makes
    every critical section atomic, so a step of the system is: one thread runs
    a critical section and either finishes with notifications to issue or goes
    to sleep on a condition variable; one pending notification is delivered;
    or a sleeping thread wakes up by itself (time-out or spurious wake-up).
    Every interleaving of these steps is a run of the transition system
    [ring_lts].  It refines an atomic bounded queue, and no wake-up is lost. *)

From S2P Require Import Prelude RingBuffer.
Open Scope Z_scope.

(** Calls of the public interface.  [tryEmplace] and the overloads taking
    [const T&] build a value and call these. *)
Inductive request (T : Type) :=
  | TryPush (v : T) | WaitPush (v : T) | WaitPushFor (v : T)
  | TryPop | WaitPop | WaitPopFor
  | CloseReq | ClearReq.
Arguments TryPush {T} v.
Arguments WaitPush {T} v.
Arguments WaitPushFor {T} v.
Arguments TryPop {T}.
Arguments WaitPop {T}.
Arguments WaitPopFor {T}.
Arguments CloseReq {T}.
Arguments ClearReq {T}.

Inductive condvar := NotEmpty | NotFull.
#[export] Instance condvar_eq_dec : EqDecision condvar.
Proof. solve_decision. Defined.

Inductive signal := NotifyOne (c : condvar) | NotifyAll (c : condvar).

(** How a critical section ends. *)
Inductive ending (T : Type) :=
  | Sleep (c : condvar)
  | Finish (o : op T) (r : res T) (sigs : list signal).
Arguments Sleep {T} c.
Arguments Finish {T} o r sigs.

Inductive thread (T : Type) :=
  | Idle
  | Blocked (c : condvar) (r : request T)
  | Awake (c : condvar) (r : request T) (timed_out : bool)
  | Signalling (sigs : list signal).
Arguments Idle {T}.
Arguments Blocked {T} c r.
Arguments Awake {T} c r timed_out.
Arguments Signalling {T} sigs.

Record system (T : Type) := mkSystem {
  shared : RingBuffer T;
  threads : list (thread T);
}.
Arguments mkSystem {T}.
Arguments shared {T}.
Arguments threads {T}.

Section semantics.
Context {T : Type}.
Implicit Types (rb : RingBuffer T) (v : T) (r : request T).

(** Only the [...For] calls can time out. *)
Definition timed r : bool :=
  match r with WaitPushFor _ | WaitPopFor => true | _ => false end.

Definition pushSection rb v : option (RingBuffer T * ending T) :=
  '(rb, pushed) ← pushLocked rb v;
  Some (rb, Finish (Push v) (Pushed pushed)
              (if (pushed : bool) then [NotifyOne NotEmpty] else [])).

Definition popSection rb : option (RingBuffer T * ending T) :=
  if size_ rb =? 0 then Some (failPop rb, Finish Pop (Popped None) [])
  else '(rb, v) ← popLocked rb;
       Some (rb, Finish Pop (Popped (Some v)) [NotifyOne NotFull]).

(** The critical section of a call, from taking the lock to releasing it.
    [timed_out] tells that the thread comes back from a wait whose deadline
    has passed; [wait] and [wait_for] re-evaluate their predicate first. *)
Definition critical rb r (timed_out : bool) : option (RingBuffer T * ending T) :=
  match r with
  | TryPush v => pushSection rb v
  | WaitPush v =>
      if bool_decide (full_policy_ rb = OverwriteOldest)
         || closed_ rb || (size_ rb <? capacity_ rb)
      then pushSection rb v
      else Some (rb, Sleep NotFull)
  | WaitPushFor v =>
      if closed_ rb || hasWritableSlotLocked rb then pushSection rb v
      else if timed_out
           then Some (failPush rb, Finish (Push v) (Pushed false) [])
           else Some (rb, Sleep NotFull)
  | TryPop => popSection rb
  | WaitPop =>
      if closed_ rb || (0 <? size_ rb) then popSection rb
      else Some (rb, Sleep NotEmpty)
  | WaitPopFor =>
      if closed_ rb || (0 <? size_ rb) then popSection rb
      else if timed_out
           then Some (failPop rb, Finish Pop (Popped None) [])
           else Some (rb, Sleep NotEmpty)
  | CloseReq => Some (close rb, Finish Close Unit [NotifyAll NotEmpty; NotifyAll NotFull])
  | ClearReq => rb ← clear rb; Some (rb, Finish Clear Unit [NotifyAll NotFull])
  end.

Definition after (r : request T) (e : ending T) : thread T :=
  match e with
  | Sleep c => Blocked c r
  | Finish _ _ sigs => Signalling sigs
  end.

(** What the outside sees of a critical section: operation and result. *)
Definition seen (e : ending T) : list (op T * res T) :=
  match e with Sleep _ => [] | Finish o x _ => [(o, x)] end.

Definition wake (c : condvar) (t : thread T) : thread T :=
  match t with
  | Blocked c' r => if bool_decide (c' = c) then Awake c' r false else t
  | _ => t
  end.

Inductive ring_step : system T → list (op T * res T) → system T → Prop :=
  | step_call i r rb rb' ts e :
      ts !! i = Some Idle → critical rb r false = Some (rb', e) →
      ring_step (mkSystem rb ts) (seen e) (mkSystem rb' (<[i := after r e]> ts))
  | step_resume i c r to rb rb' ts e :
      ts !! i = Some (Awake c r to) → critical rb r to = Some (rb', e) →
      ring_step (mkSystem rb ts) (seen e) (mkSystem rb' (<[i := after r e]> ts))
  | step_notify_one i j c r sigs rb ts :
      ts !! i = Some (Signalling (NotifyOne c :: sigs)) →
      ts !! j = Some (Blocked c r) →
      ring_step (mkSystem rb ts) []
        (mkSystem rb (<[j := Awake c r false]> (<[i := Signalling sigs]> ts)))
  | step_notify_none i c sigs rb ts :
      ts !! i = Some (Signalling (NotifyOne c :: sigs)) →
      (∀ j r, ts !! j ≠ Some (Blocked c r)) →
      ring_step (mkSystem rb ts) [] (mkSystem rb (<[i := Signalling sigs]> ts))
  | step_notify_all i c sigs rb ts :
      ts !! i = Some (Signalling (NotifyAll c :: sigs)) →
      ring_step (mkSystem rb ts) []
        (mkSystem rb (wake c <$> <[i := Signalling sigs]> ts))
  | step_return i rb ts :
      ts !! i = Some (Signalling []) →
      ring_step (mkSystem rb ts) [] (mkSystem rb (<[i := Idle]> ts))
  | step_wakeup i c r to rb ts :
      ts !! i = Some (Blocked c r) → (to = true → timed r = true) →
      ring_step (mkSystem rb ts) [] (mkSystem rb (<[i := Awake c r to]> ts)).

Definition ring_init (o : RingBufferOptions) (s : system T) : Prop :=
  make o = Returns (shared s) ∧ Forall (λ t, t = Idle) (threads s).

Definition ring_lts (o : RingBufferOptions) : lts (system T) (op T * res T) :=
  Lts (ring_init o) ring_step.

(** The atomic bounded queue, as a transition system. *)
Definition queue_lts (o : RingBufferOptions) : lts (BoundedQueue T) (op T * res T) :=
  Lts (λ s, s = mkBoundedQueue [] false)
      (λ s os s', ∃ x, os = [(x, snd (spec_exec (opt_capacity o) (opt_full_policy o) s x))]
                  ∧ s' = fst (spec_exec (opt_capacity o) (opt_full_policy o) s x)).

(** ** Wake-up accounting *)

Definition asleep (c : condvar) (t : thread T) : Z :=
  match t with Blocked c' _ => if bool_decide (c' = c) then 1 else 0 | _ => 0 end.

Definition sig_one (c : condvar) (s : signal) : Z :=
  match s with NotifyOne c' => if bool_decide (c' = c) then 1 else 0 | _ => 0 end.
Definition sig_all (c : condvar) (s : signal) : Z :=
  match s with NotifyAll c' => if bool_decide (c' = c) then 1 else 0 | _ => 0 end.

(** Wake-ups on their way: awake threads and undelivered [notify_one]s. *)
Definition token (c : condvar) (t : thread T) : Z :=
  match t with
  | Awake c' _ _ => if bool_decide (c' = c) then 1 else 0
  | Signalling sigs => sum_of (sig_one c) sigs
  | _ => 0
  end.
Definition broadcast (c : condvar) (t : thread T) : Z :=
  match t with Signalling sigs => sum_of (sig_all c) sigs | _ => 0 end.

(** What the sleepers of a condition variable wait for: elements or slots. *)
Definition available (c : condvar) rb : Z :=
  match c with NotEmpty => size_ rb | NotFull => capacity_ rb - size_ rb end.

(** No lost wake-up: if somebody sleeps on [c], a [notify_all] is under way,
    or the buffer is open and at least as many wake-ups are on their way as
    there are elements (slots) to wait for. *)
Definition no_lost_wakeup (c : condvar) (s : system T) : Prop :=
  sum_of (asleep c) (threads s) = 0
  ∨ 0 < sum_of (broadcast c) (threads s)
  ∨ (closed_ (shared s) = false
     ∧ available c (shared s) ≤ sum_of (token c) (threads s)).

Definition request_cv (r : request T) : option condvar :=
  match r with
  | WaitPush _ | WaitPushFor _ => Some NotFull
  | WaitPop | WaitPopFor => Some NotEmpty
  | _ => None
  end.

Definition thread_ok rb (t : thread T) : Prop :=
  match t with
  | Blocked c r | Awake c r _ =>
      request_cv r = Some c
      ∧ (c = NotFull → full_policy_ rb = Reject)
  | _ => True
  end.

Record ring_inv (o : RingBufferOptions) (s : system T) : Prop := {
  inv_repr : wf (shared s);
  inv_params : params (shared s) = (opt_capacity o, opt_full_policy o);
  inv_threads : ∀ i t, threads s !! i = Some t → thread_ok (shared s) t;
  inv_wakeup c : no_lost_wakeup c s;
}.
End semantics.

#[local] Arguments abstract : simpl never.

Section proofs.
Context {T : Type}.
Implicit Types (rb : RingBuffer T) (v : T) (r : request T) (t : thread T).

Lemma sig_all_nonneg c l : 0 ≤ sum_of (sig_all c) l.
Proof. apply sum_of_nonneg. intros []; simpl; by repeat case_bool_decide. Qed.
Lemma sig_one_nonneg c l : 0 ≤ sum_of (sig_one c) l.
Proof. apply sum_of_nonneg. intros []; simpl; by repeat case_bool_decide. Qed.
Lemma asleep_nonneg c t : 0 ≤ asleep c t.
Proof. destruct t; simpl; by repeat case_bool_decide. Qed.
Lemma token_nonneg c t : 0 ≤ token c t.
Proof. destruct t; simpl; try case_bool_decide; auto using sig_one_nonneg; lia. Qed.
Lemma broadcast_nonneg c t : 0 ≤ broadcast c t.
Proof. destruct t; simpl; auto using sig_all_nonneg; lia. Qed.

(** One token of [c] is held by a thread that waits on [c]. *)
Definition uses (c : condvar) r : Z :=
  if bool_decide (request_cv r = Some c) then 1 else 0.

(** Effect of a finished critical section on the accounting of [c]. *)
Definition settles (c : condvar) rb rb' r (sigs : list signal) : Prop :=
  0 < sum_of (sig_all c) sigs
  ∨ (closed_ rb = true ∧ closed_ rb' = true)
  ∨ (closed_ rb = false ∧ closed_ rb' = false
     ∧ (available c rb' ≤ available c rb + sum_of (sig_one c) sigs - uses c r
        ∨ available c rb' ≤ sum_of (sig_one c) sigs)).

(** A critical section never fails; it sleeps only when there is nothing to
    wait for on an open buffer, and otherwise performs one abstract operation
    and leaves the accounting of both condition variables settled. *)
Definition critical_ok rb r rb' (e : ending T) : Prop :=
  wf rb' ∧ params rb' = params rb ∧
  match e with
  | Sleep c => rb' = rb ∧ request_cv r = Some c ∧ closed_ rb = false
               ∧ (c = NotFull → full_policy_ rb = Reject) ∧ available c rb = 0
  | Finish x y sigs =>
      spec_exec (capacity_ rb) (full_policy_ rb) (abstract rb) x = (abstract rb', y)
      ∧ ∀ c, settles c rb rb' r sigs
  end.

Lemma repr_abstract rb q : repr rb q → abstract rb = mkBoundedQueue q (closed_ rb).
Proof. intros H. unfold abstract. by rewrite (repr_queue _ _ H). Qed.

Lemma repr_wf rb q : repr rb q → wf rb.
Proof. by exists q. Qed.
Hint Resolve repr_wf : comp.

Lemma pushSection_ok rb q v r :
  repr rb q → r ∈ [TryPush v; WaitPush v; WaitPushFor v] →
  ∃ rb' e, pushSection rb v = Some (rb', e) ∧ critical_ok rb r rb' e.
Proof.
  intros H Hr. unfold pushSection.
  assert (uses NotEmpty r = 0 ∧ uses NotFull r ≤ 1) as [Hu1 Hu2].
  { rewrite !elem_of_cons, elem_of_nil in Hr. by destruct_or!; subst. }
  pose proof (pushLocked_spec rb q v H) as Hp.
  destruct (spec_push _ _ _ _) as [s b] eqn:Es.
  destruct Hp as (rb' & -> & Hq' & Hcs & Hc' & Hpar). simpl.
  eexists _, _. split; [done|]. split_and!; [eauto with comp|done|..].
  - rewrite (repr_abstract _ _ H), (repr_abstract _ _ Hq'). simpl. rewrite Es.
    destruct s. simpl in *. congruence.
  - pose proof (repr_size _ _ H) as Hz. pose proof (repr_size _ _ Hq') as Hz'.
    pose proof (repr_bound _ _ H). pose proof (repr_capacity _ _ H).
    injection Hpar as Hcap _.
    intros c. unfold settles. rewrite Hc'. destruct (closed_ rb) eqn:Ec; [by right; left|].
    right; right. split_and!; [done..|].
    unfold spec_push in Es. simpl in Es.
    destruct (Z.ltb_spec (Z.of_nat (length q)) (capacity_ rb)).
    + simplify_eq/=. rewrite length_app in Hz'. simpl in Hz'.
      destruct c; simpl; rewrite ?Hcap; lia.
    + destruct (full_policy_ rb); simplify_eq/=.
      * destruct c; simpl; rewrite ?Hcap; lia.
      * destruct q; simpl in *; [lia|]. rewrite length_app in Hz'. simpl in Hz'.
        destruct c; simpl; rewrite ?Hcap; lia.
Qed.

Lemma popSection_ok rb q r :
  repr rb q → r ∈ [TryPop; WaitPop; WaitPopFor] →
  ∃ rb' e, popSection rb = Some (rb', e) ∧ critical_ok rb r rb' e.
Proof.
  intros H Hr. unfold popSection.
  assert (uses NotEmpty r ≤ 1 ∧ uses NotFull r = 0) as [Hu1 Hu2].
  { rewrite !elem_of_cons, elem_of_nil in Hr. by destruct_or!; subst. }
  pose proof (repr_size _ _ H) as Hz. rewrite Hz.
  destruct q as [|w q]; simpl.
  - assert (repr (failPop rb) []) as Hf by (by apply repr_stats).
    eexists _, _. split; [done|]. split_and!; [eauto with comp|done|..].
    + by rewrite (repr_abstract _ _ H), (repr_abstract _ _ Hf).
    + intros c. unfold settles. simpl. destruct (closed_ rb); [by right; left|].
      right; right. split_and!; [done..|]. destruct c; simpl in *; lia.
  - rewrite (popLocked_eq _ _ _ H). simpl.
    set (rb' := (dropped rb) <| stats_ ::= _ |>).
    assert (repr rb' q) as Hq' by (apply repr_stats; eauto with comp).
    eexists _, _. split; [done|]. split_and!; [eauto with comp|done|..].
    + by rewrite (repr_abstract _ _ H), (repr_abstract _ _ Hq').
    + pose proof (repr_size _ _ Hq') as Hz'. simpl in Hz.
      intros c. unfold settles. change (closed_ rb') with (closed_ rb).
      destruct (closed_ rb); [by right; left|].
      right; right. split_and!; [done..|].
      assert (capacity_ rb' = capacity_ rb) as Hcap by done.
      destruct c; cbn [available]; rewrite ?Hcap, Hz', Hz; simpl; lia.
Qed.

(** A timed push that finds no slot waits, or fails once its time is over. *)
Lemma critical_push_for rb v to :
  wf rb → ∃ rb' e, critical rb (WaitPushFor v) to = Some (rb', e)
    ∧ critical_ok rb (WaitPushFor v) rb' e.
Proof.
  intros [q H]. pose proof (repr_size _ _ H) as Hz. pose proof (repr_bound _ _ H) as Hb.
  pose proof (pushSection_ok rb q v (WaitPushFor v) H ltac:(set_solver)) as Hpush.
  cbn [critical]. unfold hasWritableSlotLocked.
  destruct (closed_ rb) eqn:Hc; [exact Hpush|]. simpl.
  destruct (Z.ltb_spec (size_ rb) (capacity_ rb)); [exact Hpush|].
  simpl. case_bool_decide as Hpol; [exact Hpush|].
  assert (full_policy_ rb = Reject) as Hrej by (by destruct (full_policy_ rb)).
  assert (repr (failPush rb) q) as Hq by (by apply repr_stats).
  destruct to; eexists _, _; (split; [done|]); split_and!; eauto with comp;
    simpl; try lia.
  - rewrite (repr_abstract _ _ H), (repr_abstract _ _ Hq). unfold spec_push. simpl.
    rewrite Hc, Hrej. destruct (Z.ltb_spec (Z.of_nat (length q)) (capacity_ rb)); [lia|done].
  - intros c. right; right. simpl. split_and!; [done..|].
    destruct c; simpl; unfold uses; simpl; [|lia]. lia.
Qed.

(** A timed pop that finds nothing waits, or fails once its time is over. *)
Lemma critical_pop_for rb to :
  wf rb → ∃ rb' e, critical rb WaitPopFor to = Some (rb', e)
    ∧ critical_ok rb WaitPopFor rb' e.
Proof.
  intros [q H]. pose proof (repr_size _ _ H) as Hz.
  pose proof (popSection_ok rb q WaitPopFor H ltac:(set_solver)) as Hpop. cbn [critical].
  destruct (closed_ rb) eqn:Hc; [exact Hpop|]. simpl.
  destruct (Z.ltb_spec 0 (size_ rb)); [exact Hpop|].
  assert (repr (failPop rb) q) as Hq by (by apply repr_stats).
  destruct q; simpl in Hz; [|lia].
  destruct to; eexists _, _; (split; [done|]); split_and!; eauto with comp;
    simpl; try lia; try done.
  - unfold abstract. by rewrite (repr_queue _ _ H), (repr_queue _ _ Hq).
  - intros c. right; right. simpl. split_and!; [done..|].
    destruct c; simpl; unfold uses; simpl; lia.
Qed.

Lemma critical_total rb r to :
  wf rb → ∃ rb' e, critical rb r to = Some (rb', e) ∧ critical_ok rb r rb' e.
Proof.
  intros [q H]. pose proof (repr_bound _ _ H) as Hb.
  pose proof (repr_size _ _ H) as Hz.
  destruct r as [v|v|v| | | | |]; cbn [critical].
  - eapply pushSection_ok; [done|set_solver].
  - pose proof (pushSection_ok rb q v (WaitPush v) H ltac:(set_solver)) as Hpush.
    case_bool_decide as Hpol; [exact Hpush|].
    destruct (closed_ rb) eqn:Hc; [exact Hpush|]. simpl.
    destruct (Z.ltb_spec (size_ rb) (capacity_ rb)); [exact Hpush|].
    eexists _, _. split; [done|]. split_and!; eauto with comp; simpl; [|lia].
    by destruct (full_policy_ rb).
  - apply critical_push_for. by exists q.
  - eapply popSection_ok; [done|set_solver].
  - pose proof (popSection_ok rb q WaitPop H ltac:(set_solver)) as Hpop.
    destruct (closed_ rb) eqn:Hc; [exact Hpop|]. simpl.
    destruct (Z.ltb_spec 0 (size_ rb)); [exact Hpop|].
    eexists _, _. split; [done|]. split_and!; eauto with comp; simpl; [done|lia].
  - apply critical_pop_for. by exists q.
  - eexists _, _. split; [done|].
    assert (repr (close rb) q) by (by apply repr_closed).
    split_and!; eauto with comp.
    intros c. left. by destruct c.
  - destruct (clear_spec rb q H) as (rb' & -> & Hq & _ & Hc & Hp & _). simpl.
    eexists _, _. split; [done|]. split_and!; eauto with comp.
    + unfold abstract. simpl. by rewrite (repr_queue _ _ Hq), Hc.
    + intros c. destruct c; [|by left].
      right. unfold settles. rewrite Hc. destruct (closed_ rb); [by left|right].
      split_and!; [done..|]. simpl. rewrite (repr_size _ _ Hq). simpl. lia.
Qed.
End proofs.

Section invariant.
Context {T : Type}.
Implicit Types (rb : RingBuffer T) (v : T) (r : request T) (t : thread T) (ts : list (thread T)).

(** The accounting sums after replacing one thread. *)
Lemma sums_insert c ts i t t' :
  ts !! i = Some t →
  sum_of (asleep c) (<[i:=t']> ts) = sum_of (asleep c) ts - asleep c t + asleep c t' ∧
  sum_of (broadcast c) (<[i:=t']> ts)
    = sum_of (broadcast c) ts - broadcast c t + broadcast c t' ∧
  sum_of (token c) (<[i:=t']> ts) = sum_of (token c) ts - token c t + token c t'.
Proof. intros H. by rewrite !(sum_of_insert _ _ _ _ _ H). Qed.

Lemma sums_nonneg c ts :
  0 ≤ sum_of (asleep c) ts ∧ 0 ≤ sum_of (broadcast c) ts ∧ 0 ≤ sum_of (token c) ts.
Proof.
  split_and!; apply sum_of_nonneg;
    auto using asleep_nonneg, broadcast_nonneg, token_nonneg.
Qed.

Lemma thread_ok_params rb rb' t :
  params rb' = params rb → thread_ok rb t → thread_ok rb' t.
Proof. intros [= _ Hp]. unfold thread_ok. by rewrite Hp. Qed.

Lemma threads_ok_insert rb rb' ts i t' :
  params rb' = params rb →
  (∀ j t, ts !! j = Some t → thread_ok rb t) → thread_ok rb' t' →
  ∀ j t, <[i:=t']> ts !! j = Some t → thread_ok rb' t.
Proof.
  intros Hp Hts Ht' j t. rewrite list_lookup_insert_Some.
  intros [(_ & <- & _)|[_ Hj]]; [done|]. eapply thread_ok_params; eauto.
Qed.

(** Each of the three disjuncts of [no_lost_wakeup] is kept by arithmetic. *)
Ltac keep Hwk :=
  destruct Hwk as [?|[?|[? ?]]];
  [left; lia|right; left; lia|right; right; split; [done|lia]].

(** Running a critical section preserves the invariant. *)
Lemma section_step o rb ts i t r rb' e :
  ring_inv o (mkSystem rb ts) → ts !! i = Some t →
  (∀ c, asleep c t = 0 ∧ broadcast c t = 0 ∧ token c t ≤ uses c r) →
  critical_ok rb r rb' e →
  ring_inv o (mkSystem rb' (<[i := after r e]> ts)).
Proof.
  intros [Hwf Hpar Hts Hwk] Hi Ht (Hwf' & Hpar' & He). simpl in *.
  split; simpl; [done|congruence|..].
  - eapply threads_ok_insert; eauto. destruct e; simpl; [|done].
    destruct He as (-> & ? & _ & ? & _). by split.
  - intros c. specialize (Hwk c). destruct (Ht c) as (Ha & Hb & Hk).
    unfold no_lost_wakeup in *. cbn [shared threads] in *.
    destruct (sums_insert c ts i t (after r e) Hi) as (-> & -> & ->).
    pose proof (sums_nonneg c ts) as (? & ? & ?).
    pose proof (sum_of_lookup _ _ _ _ (token_nonneg c) Hi). unfold uses in Hk.
    destruct e as [c1|x y sigs]; simpl.
    + destruct He as (-> & Hcv & Hcl & _ & Hav). rewrite Hcv in Hk.
      destruct (decide (c1 = c)) as [->|Hne].
      * right; right. split; [done|]. rewrite Hav. lia.
      * rewrite bool_decide_eq_false_2 in Hk by congruence.
        rewrite bool_decide_eq_false_2 by done. keep Hwk.
    + destruct He as [_ He]. specialize (He c). unfold settles, uses in He.
      pose proof (sig_all_nonneg c sigs). pose proof (sig_one_nonneg c sigs).
      destruct He as [He|[[Hc Hc']|(Hc & Hc' & He)]].
      * right; left. lia.
      * destruct Hwk as [?|[?|[? ?]]]; [left; lia|right; left; lia|congruence].
      * destruct Hwk as [?|[?|[? ?]]]; [left; lia|right; left; lia|].
        right; right. split; [done|]. lia.
Qed.

Lemma wake_sums c ts :
  sum_of (asleep c) (wake c <$> ts) = 0.
Proof.
  induction ts as [|t ts IH]; csimpl; [done|]. rewrite IH.
  destruct t; simpl; try done. case_bool_decide; simpl; [done|].
  by rewrite bool_decide_eq_false_2.
Qed.

Lemma wake_other c c' ts :
  c ≠ c' →
  sum_of (asleep c') (wake c <$> ts) = sum_of (asleep c') ts ∧
  sum_of (broadcast c') (wake c <$> ts) = sum_of (broadcast c') ts ∧
  sum_of (token c') (wake c <$> ts) = sum_of (token c') ts.
Proof.
  intros Hne. induction ts as [|t ts (IH1 & IH2 & IH3)]; csimpl; [done|].
  rewrite IH1, IH2, IH3. destruct t as [|c0 r|c0 r to|sigs]; simpl; try done.
  destruct (decide (c0 = c)) as [->|]; simpl.
  - rewrite bool_decide_eq_true_2 by done. simpl.
    by rewrite bool_decide_eq_false_2.
  - by rewrite bool_decide_eq_false_2.
Qed.

Lemma wake_ok rb c t : thread_ok rb t → thread_ok rb (wake c t).
Proof. destruct t; simpl; try done. by case_bool_decide. Qed.

Ltac accounting :=
  unfold no_lost_wakeup in *; cbn [shared threads] in *;
  repeat match goal with
  | H : ?ts !! ?i = Some ?t |- context [sum_of (asleep ?c) (<[?i:=?t']> ?ts)] =>
      destruct (sums_insert c ts i t t' H) as (-> & -> & ->)
  end; simpl in *.

Lemma ring_inv_notify_one o rb ts i j c r sigs :
  ring_inv o (mkSystem rb ts) → ts !! i = Some (Signalling (NotifyOne c :: sigs)) →
  ts !! j = Some (Blocked c r) →
  ring_inv o (mkSystem rb (<[j := Awake c r false]> (<[i := Signalling sigs]> ts))).
Proof.
  intros Hinv Hi Hj.
  destruct Hinv as [Hwf Hpar Hts Hwk]; simpl in *.
  assert (i ≠ j) as Hij by congruence.
  assert (<[i:=Signalling sigs]> ts !! j = Some (Blocked c r)) as Hj'
    by (by rewrite list_lookup_insert_ne).
  split; simpl; try done.
  - eapply (threads_ok_insert rb); [done| |exact (Hts _ _ Hj)].
    eapply (threads_ok_insert rb); eauto. done.
  - intros c'. specialize (Hwk c').
    pose proof (sum_of_lookup _ _ _ _ (asleep_nonneg c') Hj). accounting.
    case_bool_decide; keep Hwk.
Qed.

Lemma ring_inv_notify_none o rb ts i c sigs :
  ring_inv o (mkSystem rb ts) → ts !! i = Some (Signalling (NotifyOne c :: sigs)) →
  (∀ j r, ts !! j ≠ Some (Blocked c r)) →
  ring_inv o (mkSystem rb (<[i := Signalling sigs]> ts)).
Proof.
  intros Hinv Hi Hnone.
  destruct Hinv as [Hwf Hpar Hts Hwk]; simpl in *.
  split; simpl; try done; [eapply (threads_ok_insert rb); eauto; done|].
  intros c'. specialize (Hwk c'). destruct (decide (c = c')) as [->|Hne].
  - left. cbn [threads]. destruct (sums_insert c' ts i _ (Signalling sigs) Hi) as (-> & _ & _).
    simpl. assert (sum_of (asleep c') ts = 0); [|lia].
    apply sum_of_zero; [apply asleep_nonneg|].
    intros t [j Hj]%list_elem_of_lookup. destruct t; simpl; try done.
    case_bool_decide; [|done]. subst. by destruct (Hnone j r).
  - accounting. rewrite (bool_decide_eq_false_2 (c = c')) in * by done.
    keep Hwk.
Qed.

Lemma ring_inv_notify_all o rb ts i c sigs :
  ring_inv o (mkSystem rb ts) → ts !! i = Some (Signalling (NotifyAll c :: sigs)) →
  ring_inv o (mkSystem rb (wake c <$> <[i := Signalling sigs]> ts)).
Proof.
  intros Hinv Hi.
  destruct Hinv as [Hwf Hpar Hts Hwk]; simpl in *.
  split; simpl; try done.
  - intros j t. rewrite list_lookup_fmap. intros (t1 & Ht1 & ->)%fmap_Some.
    apply wake_ok. revert Ht1. eapply (threads_ok_insert rb); eauto. done.
  - intros c'. specialize (Hwk c'). destruct (decide (c = c')) as [->|Hne].
    + left. cbn [threads]. apply wake_sums.
    + unfold no_lost_wakeup in *. cbn [shared threads] in *.
      destruct (wake_other c c' (<[i:=Signalling sigs]> ts) Hne) as (-> & -> & ->).
      destruct (sums_insert c' ts i _ (Signalling sigs) Hi) as (-> & -> & ->).
      simpl. rewrite (bool_decide_eq_false_2 (c = c')) by done.
      keep Hwk.
Qed.

Lemma ring_inv_step o (s : system T) os s' :
  ring_inv o s → ring_step s os s' → ring_inv o s'.
Proof.
  intros Hinv Hstep. destruct Hstep as
    [i r rb rb' ts e Hi Hcr|i c r to rb rb' ts e Hi Hcr|i j c r sigs rb ts Hi Hj
    |i c sigs rb ts Hi Hnone|i c sigs rb ts Hi|i rb ts Hi|i c r to rb ts Hi Hto].
  - destruct (critical_total rb r false (inv_repr _ _ Hinv)) as (rb1 & e1 & Hcr1 & Hok).
    rewrite Hcr in Hcr1. simplify_eq. eapply section_step; eauto.
    intros c. simpl. unfold uses. case_bool_decide; lia.
  - destruct (critical_total rb r to (inv_repr _ _ Hinv)) as (rb1 & e1 & Hcr1 & Hok).
    rewrite Hcr in Hcr1. simplify_eq. eapply section_step; eauto.
    destruct (inv_threads _ _ Hinv _ _ Hi) as [Hcv _].
    intros c'. simpl. unfold uses. rewrite Hcv. repeat case_bool_decide; naive_solver lia.
  - by eapply ring_inv_notify_one.
  - by eapply ring_inv_notify_none.
  - by eapply ring_inv_notify_all.
  - destruct Hinv as [Hwf Hpar Hts Hwk]; simpl in *.
    split; simpl; try done; [eapply (threads_ok_insert rb); eauto; done|].
    intros c'. specialize (Hwk c'). accounting.
    keep Hwk.
  - destruct Hinv as [Hwf Hpar Hts Hwk]; simpl in *.
    split; simpl; try done.
    + eapply (threads_ok_insert rb); eauto. exact (Hts _ _ Hi).
    + intros c'. specialize (Hwk c').
      pose proof (sum_of_lookup _ _ _ _ (asleep_nonneg c') Hi). accounting.
      case_bool_decide; keep Hwk.
Qed.

Lemma ring_inv_init o (s : system T) :
  0 ≤ opt_capacity o < two64 → ring_init o s → ring_inv o s.
Proof.
  intros Hc [Hm Hidle]. destruct (make_repr _ _ Hc Hm) as (Hr & Hp & _).
  assert (∀ i t, threads s !! i = Some t → t = Idle) as Hall
    by (intros; by eapply Forall_lookup_1 in Hidle).
  split; [by eexists|done|..].
  - intros i t Hi. by rewrite (Hall _ _ Hi).
  - intros c. left. apply sum_of_zero; [apply asleep_nonneg|].
    intros t [i Hi]%list_elem_of_lookup. by rewrite (Hall _ _ Hi).
Qed.

Lemma reachable_inv o (s : system T) :
  0 ≤ opt_capacity o < two64 → reachable (ring_lts o) s → ring_inv o s.
Proof.
  intros Hc. apply reachable_invariant; [by intros; apply ring_inv_init|].
  intros; by eapply ring_inv_step.
Qed.

(** A quiet system: no thread is running, awake or about to notify. *)
Definition quiet (s : system T) : Prop :=
  ∀ i t, threads s !! i = Some t → t = Idle ∨ ∃ c r, t = Blocked c r.

(** Who sleeps in a quiet system has nothing to wait for, and rightly so. *)
Lemma quiet_sleeper o (s : system T) i c r :
  ring_inv o s → quiet s → threads s !! i = Some (Blocked c r) →
  closed_ (shared s) = false ∧ available c (shared s) = 0.
Proof.
  intros [[q Hr] Hpar Hts Hwk] Hq Hi.
  assert (∀ f : thread T → Z, (∀ x, 0 ≤ f x) → f Idle = 0 →
    (∀ c r, f (Blocked c r) = 0) → sum_of f (threads s) = 0) as Hzero.
  { intros f Hf Hf1 Hf2. apply sum_of_zero; [done|].
    intros t [j Hj]%list_elem_of_lookup.
    by destruct (Hq _ _ Hj) as [-> | (? & ? & ->)]. }
  specialize (Hwk c). unfold no_lost_wakeup in Hwk.
  rewrite (Hzero (token c)), (Hzero (broadcast c)) in Hwk
    by (done || apply token_nonneg || apply broadcast_nonneg).
  pose proof (sum_of_lookup _ _ _ _ (asleep_nonneg c) Hi) as Hone. simpl in Hone.
  rewrite bool_decide_eq_true_2 in Hone by done.
  destruct Hwk as [?|[?|[Hcl Hav]]]; [lia|lia|]. split; [done|].
  pose proof (repr_size _ _ Hr). pose proof (repr_bound _ _ Hr). destruct c; simpl in *; lia.
Qed.

(** Somebody sleeps on [c], or nobody does. *)
Lemma sleeper_dec c ts :
  (∃ j r, ts !! j = Some (Blocked c r)) ∨ (∀ j r, ts !! j ≠ Some (Blocked c r)).
Proof.
  destruct (decide (Exists (λ t, asleep c t = 1) ts)) as [He|Hne]; [left|right].
  - apply Exists_exists in He as (t & [j Hj]%list_elem_of_lookup & Ht).
    destruct t as [|c' r| |]; simpl in Ht; try done. case_bool_decide; [subst|done]. eauto.
  - intros j r Hj. apply Hne. apply Exists_exists. exists (Blocked c r).
    split; [by eapply list_elem_of_lookup_2|]. simpl. by rewrite bool_decide_eq_true_2.
Qed.
End invariant.

(** ** Properties *)

Section properties.
Context {T : Type}.
Implicit Types (s : system T).

(** C2: every interleaving of threads calling the blocking, timed and
    non-blocking interface, with spurious wake-ups and time-outs at any
    moment, shows exactly the operations and results of an atomic bounded
    FIFO queue with the configured capacity and full policy. *)
Theorem ring_conc_refines o :
  0 ≤ opt_capacity o < two64 → refines (ring_lts (T:=T) o) (queue_lts o).
Proof.
  intros Hc. apply (simulation_refines _ _ (λ s a, ring_inv o s ∧ a = abstract (shared s))).
  - intros s Hs. exists (mkBoundedQueue [] false). split; [done|].
    split; [by apply ring_inv_init|]. destruct Hs as [Hm _].
    destruct (make_repr _ _ Hc Hm) as (Hr & _ & Hcl & _).
    unfold abstract. by rewrite (repr_queue _ _ Hr), Hcl.
  - intros s a os s' [Hinv ->] Hstep.
    pose proof (ring_inv_step _ _ _ _ Hinv Hstep) as Hinv'.
    enough (run (queue_lts o) (abstract (shared s)) os (abstract (shared s')))
      by (eexists; eauto).
    destruct Hinv as [Hwf Hpar _ _]. injection Hpar as Hp1 Hp2.
    assert (∀ r to rb' e, critical (shared s) r to = Some (rb', e) →
      run (queue_lts o) (abstract (shared s)) (seen e) (abstract rb')) as Hsec.
    { intros r to rb' e Hcr.
      destruct (critical_total _ r to Hwf) as (rb1 & e1 & Hcr1 & _ & _ & He).
      rewrite Hcr in Hcr1. simplify_eq.
      destruct e1 as [c|x y sigs]; simpl; [destruct He as [-> _]; constructor|].
      destruct He as [He _]. apply run_one. exists x. rewrite <-Hp1, <-Hp2, He. done. }
    destruct Hstep; simpl in *; eauto; constructor.
Qed.

(** C3: no wake-up is lost.  In a reachable quiet system a thread asleep in
    [waitPop] or [waitPopFor] means the buffer is empty and open, and a thread
    asleep in [waitPush] or [waitPushFor] means it is full, open and rejects:
    no thread sleeps while what it waits for is there, nor after [close]. *)
Theorem ring_no_lost_wakeup o s i c r :
  0 ≤ opt_capacity o < two64 → reachable (ring_lts o) s → quiet s →
  threads s !! i = Some (Blocked c r) →
  closed_ (shared s) = false
  ∧ match c with
    | NotEmpty => queue (shared s) = []
    | NotFull => Z.of_nat (length (queue (shared s))) = opt_capacity o
                 ∧ opt_full_policy o = Reject
    end.
Proof.
  intros Hc Hreach Hq Hi. pose proof (reachable_inv _ _ Hc Hreach) as Hinv.
  destruct (quiet_sleeper _ _ _ _ _ Hinv Hq Hi) as [Hcl Hav]. split; [done|].
  destruct Hinv as [[q Hr] Hpar Hts _]. injection Hpar as Hp1 Hp2.
  rewrite (repr_queue _ _ Hr). pose proof (repr_size _ _ Hr) as Hz.
  destruct c; simpl in Hav; [destruct q; simpl in Hz; [done|lia]|].
  split; [lia|]. rewrite <-Hp2. by apply (Hts _ _ Hi).
Qed.

(** No call ever gets stuck inside the buffer.  In every reachable system
    an idle thread can start any call, an awake thread can finish its wait or
    go back to sleep, and a thread with notifications can deliver the first
    one: the storage operations a critical section performs are all defined. *)
Theorem ring_threads_progress o s i t :
  0 ≤ opt_capacity o < two64 → reachable (ring_lts o) s → threads s !! i = Some t →
  match t with
  | Idle => ∀ r, ∃ rb' e, critical (shared s) r false = Some (rb', e)
  | Blocked _ _ => True
  | Awake _ r to => ∃ rb' e, critical (shared s) r to = Some (rb', e)
                    ∧ ring_step s (seen e) (mkSystem rb' (<[i := after r e]> (threads s)))
  | Signalling _ => ∃ s', ring_step s [] s'
  end.
Proof.
  intros Hc Hreach Hi. destruct (reachable_inv _ _ Hc Hreach) as [Hwf _ _ _].
  destruct s as [rb ts]. simpl in *.
  destruct t as [|c r|c r to|[|[c|c] sigs]]; [..|done| | | |].
  - intros r. destruct (critical_total rb r false Hwf) as (rb' & e & ? & _). eauto.
  - destruct (critical_total rb r to Hwf) as (rb' & e & ? & _).
    exists rb', e. split; [done|]. by eapply step_resume.
  - eexists. by eapply step_return.
  - destruct (sleeper_dec c ts) as [(j & r & Hj)|Hnone]; eexists.
    + by eapply step_notify_one.
    + by eapply step_notify_none.
  - eexists. by eapply step_notify_all.
Qed.
End properties.

(** ** Witnesses *)

Definition conc_options : RingBufferOptions := mkOptions 1 Reject.
Definition conc_fresh : RingBuffer Z :=
  mkRingBuffer [blank] 1 Reject 0 0 0 false zero_stats.

(** A consumer that went to sleep on the empty buffer. *)
Definition conc_sleeping : system Z :=
  mkSystem conc_fresh [Blocked NotEmpty WaitPop].

Lemma conc_sleeping_reachable : reachable (ring_lts conc_options) conc_sleeping.
Proof.
  eapply reachable_step;
    [apply reachable_initial; instantiate (1 := mkSystem conc_fresh [Idle]);
     split; [reflexivity|by repeat constructor]|].
  by apply (step_call 0 WaitPop conc_fresh conc_fresh [Idle] (Sleep NotEmpty)).
Qed.

Lemma ring_conc_refines_witness :
  refines (ring_lts (T:=Z) conc_options) (queue_lts conc_options).
Proof. apply (ring_conc_refines conc_options). unfold two64; simpl; lia. Defined.

Lemma ring_no_lost_wakeup_witness :
  closed_ conc_fresh = false ∧ queue conc_fresh = [].
Proof.
  apply (ring_no_lost_wakeup conc_options conc_sleeping 0 NotEmpty WaitPop).
  - unfold two64; simpl; lia.
  - apply conc_sleeping_reachable.
  - intros [|i] t Hi; simpl in Hi; [|done]. simplify_eq. eauto.
  - reflexivity.
Defined.

Lemma ring_threads_progress_witness :
  ∃ rb' e, critical conc_fresh WaitPop false = Some (rb', e).
Proof.
  apply (ring_threads_progress conc_options (mkSystem conc_fresh [Idle]) 0 Idle).
  - unfold two64; simpl; lia.
  - apply reachable_initial. split; [reflexivity|by repeat constructor].
  - reflexivity.
Defined.
