(* ===== verification/RingDemo.v ===== *)
(** * The demo of ring_buffer: producers, consumers and a closing main

    ring_buffer/examples/demo.cpp, a client of the blocking interface: consumers
    that log what [waitPop] gives them until it gives nothing, producers that
    [waitPush] their messages, and [main], which starts them, joins the
    producers, closes the buffer, joins the consumers and prints the
    statistics.  The threads run over [ring_step] of RingBufferConc.v, thread 0
    being [main]; the numbers of consumers, producers and messages and the
    capacity are parameters, which the demo takes to be 2, 3, 4 and 4. *)

From S2P Require Import Prelude RingBuffer RingBufferConc.
From stdpp Require Import pretty.
Open Scope Z_scope.

(** ** The program *)

(** Where [main] is: starting the threads; joining producer [p]; in [close];
    joining consumer [c]; at the statistics; past the end. *)
Inductive main_pc :=
  | Spawn (i : nat)
  | JoinProducers (p : nat)
  | CloseBuffer
  | JoinConsumers (c : nat)
  | Report
  | Return_.
#[export] Instance main_pc_eq_dec : EqDecision main_pc.
Proof. solve_decision. Defined.

(** Where a thread is in its function: not started yet; in [waitPop], at [log]
    and at [sleep_for], or past the loop; in the [waitPush] of its message [k],
    or past the loop. *)
Inductive job (T : Type) :=
  | Main (m : main_pc)
  | NotStarted (j : job T)
  | Pop_
  | Log (m : T)
  | Pause
  | ConsumerExit
  | PushItem (p k : nat)
  | ProducerExit.
Arguments Main {T} m.
Arguments NotStarted {T} j.
Arguments Pop_ {T}.
Arguments Log {T} m.
Arguments Pause {T}.
Arguments ConsumerExit {T}.
Arguments PushItem {T} p k.
Arguments ProducerExit {T}.

Record state (T : Type) := mkState {
  sys : system T;
  jobs : list (job T);
}.
Arguments mkState {T}.
Arguments sys {T}.
Arguments jobs {T}.

(** What is printed. *)
Inductive event (T : Type) :=
  | Logged (c : nat) (m : T)
  | Reported (s : RingBufferStats).
Arguments Logged {T} c m.
Arguments Reported {T} s.

Section demo.
Context {T : Type} (message : nat → nat → T) (consumers producers items : nat) (cap : Z).
Implicit Types (j : job T) (s : state T).

(** The call of the buffer a job is about to make, or inside. *)
Definition calls j : option (request T) :=
  match j with
  | Main CloseBuffer => Some CloseReq
  | Pop_ => Some WaitPop
  | PushItem p k => Some (WaitPush (message p k))
  | _ => None
  end.

(** The [for] loop of producer [p] at its message [k]. *)
Definition producer p k : job T :=
  if (k <? items)%nat then PushItem p k else ProducerExit.

(** The job after a critical section of its call. *)
Definition next_job j (e : ending T) : job T :=
  match e, j with
  | Sleep _, _ => j
  | Finish _ (Popped (Some m)) _, Pop_ => Log m
  | Finish _ (Popped None) _, Pop_ => ConsumerExit
  | Finish _ _ _, PushItem p k => producer p (S k)
  | Finish _ _ _, Main CloseBuffer => Main (JoinConsumers 0)
  | _, _ => j
  end.

Definition options : RingBufferOptions := mkOptions cap Reject.

(** Thread [c + 1] is consumer [c], thread [consumers + p + 1] producer [p]. *)
Definition initial_jobs : list (job T) :=
  Main (Spawn 0) :: replicate consumers (NotStarted Pop_)
  ++ ((λ p, NotStarted (producer p 0)) <$> seq 0 producers).

Definition demo_init s : Prop :=
  make options = Returns (shared (sys s))
  ∧ threads (sys s) = replicate (1 + consumers + producers) Idle ∧ jobs s = initial_jobs.

(** The notifications of a thread that has left its critical section, and its
    return from the call: the steps of [ring_step] with neither a critical
    section nor a wake-up for no reason. *)
Inductive delivers : system T → system T → Prop :=
  | deliver_one i k c r sigs rb ts :
      ts !! i = Some (Signalling (NotifyOne c :: sigs)) → ts !! k = Some (Blocked c r) →
      delivers (mkSystem rb ts)
        (mkSystem rb (<[k := Awake c r false]> (<[i := Signalling sigs]> ts)))
  | deliver_none i c sigs rb ts :
      ts !! i = Some (Signalling (NotifyOne c :: sigs)) → (∀ k r, ts !! k ≠ Some (Blocked c r)) →
      delivers (mkSystem rb ts) (mkSystem rb (<[i := Signalling sigs]> ts))
  | deliver_all i c sigs rb ts :
      ts !! i = Some (Signalling (NotifyAll c :: sigs)) →
      delivers (mkSystem rb ts) (mkSystem rb (wake c <$> <[i := Signalling sigs]> ts))
  | deliver_return i rb ts :
      ts !! i = Some (Signalling []) →
      delivers (mkSystem rb ts) (mkSystem rb (<[i := Idle]> ts)).

(** A thread has left its function, and its last call. *)
Definition exited s (i : nat) (j : job T) : Prop :=
  jobs s !! i = Some j ∧ threads (sys s) !! i = Some Idle.

(** A step of the program itself. *)
Inductive active : state T → list (event T) → state T → Prop :=
  | act_enter i j r rb rb' ts js e :
      js !! i = Some j → calls j = Some r → ts !! i = Some Idle →
      critical rb r false = Some (rb', e) →
      active (mkState (mkSystem rb ts) js) []
        (mkState (mkSystem rb' (<[i := after r e]> ts)) (<[i := next_job j e]> js))
  | act_resume i j c r to rb rb' ts js e :
      js !! i = Some j → ts !! i = Some (Awake c r to) → critical rb r to = Some (rb', e) →
      active (mkState (mkSystem rb ts) js) []
        (mkState (mkSystem rb' (<[i := after r e]> ts)) (<[i := next_job j e]> js))
  | act_deliver z z' js :
      delivers z z' → active (mkState z js) [] (mkState z' js)
  | act_log c m z js :
      js !! S c = Some (Log m) → threads z !! S c = Some Idle →
      active (mkState z js) [Logged c m] (mkState z (<[S c := Pause]> js))
  | act_wake i z js :
      js !! i = Some Pause → active (mkState z js) [] (mkState z (<[i := Pop_]> js))
  | act_spawn i j z js :
      js !! 0%nat = Some (Main (Spawn i)) → js !! S i = Some (NotStarted j) →
      active (mkState z js) []
        (mkState z (<[S i := j]> (<[0%nat := Main (Spawn (S i))]> js)))
  | act_spawned z js :
      js !! 0%nat = Some (Main (Spawn (consumers + producers))) →
      active (mkState z js) [] (mkState z (<[0%nat := Main (JoinProducers 0)]> js))
  | act_join_producer p z js :
      js !! 0%nat = Some (Main (JoinProducers p)) →
      exited (mkState z js) (S (consumers + p)) ProducerExit →
      active (mkState z js) [] (mkState z (<[0%nat := Main (JoinProducers (S p))]> js))
  | act_joined_producers z js :
      js !! 0%nat = Some (Main (JoinProducers producers)) →
      active (mkState z js) [] (mkState z (<[0%nat := Main CloseBuffer]> js))
  | act_join_consumer c z js :
      js !! 0%nat = Some (Main (JoinConsumers c)) → threads z !! 0%nat = Some Idle →
      exited (mkState z js) (S c) ConsumerExit →
      active (mkState z js) [] (mkState z (<[0%nat := Main (JoinConsumers (S c))]> js))
  | act_joined_consumers z js :
      js !! 0%nat = Some (Main (JoinConsumers consumers)) → threads z !! 0%nat = Some Idle →
      active (mkState z js) [] (mkState z (<[0%nat := Main Report]> js))
  | act_report z js :
      js !! 0%nat = Some (Main Report) →
      active (mkState z js) [Reported (stats_ (shared z))]
        (mkState z (<[0%nat := Main Return_]> js)).

(** A wake-up for no reason. *)
Inductive spurious : state T → state T → Prop :=
  | wakes i c r rb ts js :
      ts !! i = Some (Blocked c r) →
      spurious (mkState (mkSystem rb ts) js)
        (mkState (mkSystem rb (<[i := Awake c r false]> ts)) js).

Definition demo_step s (es : list (event T)) s' : Prop := active s es s' ∨ spurious s s' ∧ es = [].
Definition demo_lts : lts (state T) (event T) := Lts demo_init demo_step.

(** [takes s a w s']: from [s] to [s'] in [a] steps of the program and [w]
    wake-ups for no reason, in any order. *)
Inductive takes s : nat → nat → state T → Prop :=
  | takes_none : takes s 0 0 s
  | takes_active a w es s' s'' :
      takes s a w s' → active s' es s'' → takes s (S a) w s''
  | takes_wake a w s' s'' :
      takes s a w s' → spurious s' s'' → takes s a (S w) s''.
End demo.

(** The demo itself. *)
Definition demo_message (p i : nat) : string :=
  "producer " +:+ pretty p +:+ " item " +:+ pretty i.
Definition ring_demo : lts (state string) (event string) := demo_lts demo_message 2 3 4 4.

(** ** The abstract demo: every message is printed once, then the statistics *)

Section spec.
Context {T : Type} (message : nat → nat → T) (consumers producers items : nat).

(** The messages of producer [p] from its [k]-th on; all messages. *)
Definition from (p k : nat) : list T := message p <$> seq k (items - k).
Definition all_messages : list T := seq 0 producers ≫= λ p, from p 0.
Definition total : Z := Z.of_nat producers * Z.of_nat items.

(** The statistics at the end: nothing refused, nothing overwritten, and one
    failed pop per consumer, the one that ends it. *)
Definition final_stats : RingBufferStats :=
  mkStats total total 0 (Z.of_nat consumers) 0 0.

(** The messages not printed yet, as a bag; [None] after the statistics. *)
Inductive prints : option (list T) → list (event T) → option (list T) → Prop :=
  | prints_message c m l l' :
      (c < consumers)%nat → l ≡ₚ m :: l' → prints (Some l) [Logged c m] (Some l')
  | prints_stats : prints (Some []) [Reported final_stats] None.

Definition printing : lts (option (list T)) (event T) :=
  Lts (λ a, a = Some all_messages) prints.
End spec.

(** ** Critical sections of the demo's calls *)

Section sections.
Context {T : Type}.
Implicit Types (rb : RingBuffer T) (v : T) (q : list T).

(** A push into an open buffer with room. *)
Lemma pushSection_room rb q v :
  repr rb q → closed_ rb = false → size_ rb < capacity_ rb →
  ∃ rb', pushSection rb v = Some (rb', Finish (Push v) (Pushed true) [NotifyOne NotEmpty])
    ∧ repr rb' (q ++ [v]) ∧ closed_ rb' = false
    ∧ stats_ rb' = (stats_ rb) <| pushes ::= λ n, n ⊕ 1 |>.
Proof.
  intros Hr Hc Hroom. pose proof (repr_size _ _ Hr) as Hz. pose proof (repr_capacity _ _ Hr).
  pose proof (pushLocked_spec rb q v Hr) as Hp. unfold spec_push in Hp. simpl in Hp.
  rewrite Hc, <-Hz in Hp. destruct (Z.ltb_spec (size_ rb) (capacity_ rb)); [|lia].
  destruct Hp as (rb' & Hp & Hr' & _ & Hc' & _). simpl in Hr'.
  exists rb'. unfold pushSection. rewrite Hp. split_and!; [done..|].
  pose proof (repr_size _ _ Hr') as Hz'. rewrite length_app in Hz'. simpl in Hz'.
  destruct (pushLocked_stats _ _ _ _ Hp) as [[? _]|[_ Hs]]; [done|].
  exfalso. rewrite Hz' in Hs. revert Hs. u64_ring.
Qed.

(** A pop of a stored element, and of nothing. *)
Lemma popSection_some rb q v :
  repr rb (v :: q) →
  ∃ rb', popSection rb = Some (rb', Finish Pop (Popped (Some v)) [NotifyOne NotFull])
    ∧ repr rb' q ∧ closed_ rb' = closed_ rb
    ∧ stats_ rb' = (stats_ rb) <| pops ::= λ n, n ⊕ 1 |>.
Proof.
  intros Hr. unfold popSection. rewrite (repr_size _ _ Hr). simpl.
  rewrite (popLocked_eq _ _ _ Hr). simpl. eexists. split; [done|].
  split; [apply repr_stats; eauto with comp|done].
Qed.
Lemma popSection_none rb :
  size_ rb = 0 → popSection rb = Some (failPop rb, Finish Pop (Popped None) []).
Proof. intros Hz. unfold popSection. by rewrite Hz. Qed.
End sections.

(** ** The invariant *)

Section invariant.
Context {T : Type} (message : nat → nat → T) (consumers producers items : nat) (cap : Z).
Implicit Types (j : job T) (s : state T) (m : main_pc) (rb : RingBuffer T)
  (js : list (job T)) (ts : list (thread T)).

Abbreviation workers := (consumers + producers)%nat.
Abbreviation from := (from message items).
Abbreviation producer := (producer items).
Abbreviation next_job := (next_job items).
Abbreviation calls := (calls message).
Abbreviation options := (options cap).
Abbreviation total := (total producers items).

(** What [main] has done already when it is at [m]: started thread [S k],
    closed the buffer, joined a producer, joined a consumer. *)
Definition started m (k : nat) : bool :=
  match m with Spawn i => (k <? i)%nat | _ => true end.
Definition past_close m : bool :=
  match m with JoinConsumers _ | Report | Return_ => true | _ => false end.
Definition producer_joined m (p : nat) : bool :=
  match m with Spawn _ => false | JoinProducers p' => (p <? p')%nat | _ => true end.
Definition consumer_joined m (c : nat) : bool :=
  match m with
  | JoinConsumers c' => (c <? c')%nat | Report | Return_ => true | _ => false
  end.
Definition within m : Prop :=
  match m with
  | Spawn i => i ≤ workers | JoinProducers p => p ≤ producers
  | JoinConsumers c => c ≤ consumers | _ => True
  end%nat.

Definition consumer_fits m (c : nat) j : Prop :=
  match j with
  | NotStarted j' => j' = Pop_ ∧ started m c = false
  | Pop_ | Log _ | Pause => started m c = true ∧ consumer_joined m c = false
  | ConsumerExit => started m c = true
  | _ => False
  end.
Definition producer_fits m (p : nat) j : Prop :=
  match j with
  | NotStarted j' => j' = producer p 0 ∧ started m (consumers + p) = false
  | PushItem p' k => p' = p ∧ (k < items)%nat ∧ started m (consumers + p) = true
                     ∧ producer_joined m p = false
  | ProducerExit => started m (consumers + p) = true
  | _ => False
  end.
Definition job_fits m (i : nat) j : Prop :=
  match i with
  | O => j = Main m
  | S k => if (k <? consumers)%nat then consumer_fits m k j
           else producer_fits m (k - consumers) j
  end.

(** What a job still has to push; what it has popped and not printed. *)
Fixpoint todo_of j : list T :=
  match j with
  | NotStarted j => todo_of j | PushItem p k => from p k | _ => []
  end.
Definition held_of j : list T := match j with Log x => [x] | _ => [] end.
Definition unprinted j : list T := held_of j ++ todo_of j.
Definition pending s : list T := queue (shared (sys s)) ++ (jobs s ≫= unprinted).

Definition todo j : Z := Z.of_nat (length (todo_of j)).
Definition exit_ j : Z := match j with ConsumerExit => 1 | _ => 0 end.
Fixpoint consuming j : Z :=
  match j with NotStarted j => consuming j | Pop_ | Log _ | Pause => 1 | _ => 0 end.

(** The call a sleeping or woken thread is inside. *)
Definition inside (t : thread T) : option (request T) :=
  match t with Blocked _ r | Awake _ r _ => Some r | _ => None end.

Definition stats_at rb js : RingBufferStats :=
  mkStats (total - sum_of todo js) (total - sum_of todo js - size_ rb) 0
    (sum_of exit_ js) 0 0.

Record demo_inv m rb ts js : Prop := {
  d_within : within m;
  d_ring : ring_inv options (mkSystem rb ts);
  d_threads : length ts = S workers;
  d_jobs : length js = S workers;
  d_fits i j : js !! i = Some j → job_fits m i j;
  d_inside i t j r :
    ts !! i = Some t → js !! i = Some j → inside t = Some r → calls j = Some r;
  d_closed : closed_ rb = past_close m;
  d_exit : ConsumerExit ∈ js → closed_ rb = true ∧ size_ rb = 0;
  d_stats : stats_ rb = stats_at rb js;
  d_total : size_ rb + sum_of todo js ≤ total;
  d_consumers : sum_of exit_ js + sum_of consuming js = Z.of_nat consumers;
}.

(** ** Lists of jobs *)

Lemma from_cons p k : (k < items)%nat → from p k = message p k :: from p (S k).
Proof.
  intros Hk. unfold RingDemo.from. replace (items - k)%nat with (S (items - S k)) by lia. done.
Qed.
Lemma todo_of_producer p k : todo_of (producer p k) = from p k.
Proof.
  unfold RingDemo.producer. destruct (Nat.ltb_spec k items); [done|].
  unfold RingDemo.from. by replace (items - k)%nat with 0%nat by lia.
Qed.
Lemma todo_nonneg j : 0 ≤ todo j.
Proof. unfold todo. lia. Qed.
Lemma exit_nonneg j : 0 ≤ exit_ j.
Proof. destruct j; simpl; lia. Qed.
Lemma consuming_nonneg j : 0 ≤ consuming j.
Proof. induction j; simpl; lia. Qed.
Lemma producer_consuming p k : consuming (producer p k) = 0 ∧ exit_ (producer p k) = 0.
Proof. unfold RingDemo.producer. by case_match. Qed.

(** ** Critical sections at a job *)

(** [acts rb j e rb']: at job [j] a critical section ends with [e] and leaves
    the buffer [rb']. *)
Inductive acts rb : job T → ending T → RingBuffer T → Prop :=
  | acts_sleep j c : acts rb j (Sleep c) rb
  | acts_push p k q rb' :
      repr rb q → repr rb' (q ++ [message p k]) → closed_ rb = false → closed_ rb' = false →
      stats_ rb' = (stats_ rb) <| pushes ::= λ n, n ⊕ 1 |> →
      acts rb (PushItem p k)
        (Finish (Push (message p k)) (Pushed true) [NotifyOne NotEmpty]) rb'
  | acts_pop x q rb' :
      repr rb (x :: q) → repr rb' q → closed_ rb' = closed_ rb →
      stats_ rb' = (stats_ rb) <| pops ::= λ n, n ⊕ 1 |> →
      acts rb Pop_ (Finish Pop (Popped (Some x)) [NotifyOne NotFull]) rb'
  | acts_end :
      size_ rb = 0 → closed_ rb = true →
      acts rb Pop_ (Finish Pop (Popped None) []) (failPop rb)
  | acts_close :
      acts rb (Main CloseBuffer)
        (Finish Close Unit [NotifyAll NotEmpty; NotifyAll NotFull]) (close rb).

Lemma section_acts m rb ts js i j r to rb' e :
  demo_inv m rb ts js → js !! i = Some j → calls j = Some r →
  critical rb r to = Some (rb', e) → acts rb j e rb'.
Proof.
  intros Hinv Hj Hcall Hcr.
  destruct (d_ring _ _ _ _ Hinv) as [[q Hr] Hpar _ _]. simpl in *. injection Hpar as Hp1 Hp2.
  pose proof (repr_bound _ _ Hr) as Hb. pose proof (repr_size _ _ Hr) as Hz.
  pose proof (d_fits _ _ _ _ Hinv _ _ Hj) as Hfits.
  destruct j as [[]| | | | | |p k|]; simplify_eq/=.
  - simplify_eq/=. constructor.
  - destruct (closed_ rb) eqn:Hc; simpl in Hcr.
    + destruct q as [|x q].
      * rewrite popSection_none in Hcr by done. simplify_eq. by constructor.
      * destruct (popSection_some _ _ _ Hr) as (rb1 & E & ? & ? & ?).
        rewrite E in Hcr. simplify_eq. econstructor; eauto.
    + destruct (Z.ltb_spec 0 (size_ rb)); [|simplify_eq; constructor].
      destruct q as [|x q]; [simpl in *; lia|].
      destruct (popSection_some _ _ _ Hr) as (rb1 & E & ? & ? & ?).
      rewrite E in Hcr. simplify_eq. econstructor; eauto.
  - assert (closed_ rb = false) as Hc.
    { rewrite (d_closed _ _ _ _ Hinv). destruct i as [|i]; simpl in Hfits; [done|].
      case_match; [done|]. destruct Hfits as (_ & _ & _ & Hpj). by destruct m. }
    rewrite Hp2, Hc in Hcr. simpl in Hcr.
    destruct (Z.ltb_spec (size_ rb) (capacity_ rb)); [|simplify_eq; constructor].
    destruct (pushSection_room rb q (message p k) Hr Hc) as (rb1 & E & ? & ? & ?); [done|].
    rewrite E in Hcr. simplify_eq. econstructor; eauto.
Qed.

(** ** The steps *)

(** Replacing the thread and the job of [i]. *)
Lemma inside_insert ts js i t' j' :
  (∀ k t j r, ts !! k = Some t → js !! k = Some j → inside t = Some r → calls j = Some r) →
  (∀ r, inside t' = Some r → calls j' = Some r) →
  ∀ k t j r, <[i := t']> ts !! k = Some t → <[i := j']> js !! k = Some j →
    inside t = Some r → calls j = Some r.
Proof.
  intros Hold Hnew k t j r Ht Hj. destruct (decide (i = k)) as [->|Hne].
  - apply list_lookup_insert_Some in Ht as [(_ & <- & _)|[? _]]; [|done].
    apply list_lookup_insert_Some in Hj as [(_ & <- & _)|[? _]]; [|done]. apply Hnew.
  - rewrite list_lookup_insert_ne in Ht by done.
    rewrite list_lookup_insert_ne in Hj by done. eauto.
Qed.

Lemma fits_insert m js i j' :
  (∀ k j, js !! k = Some j → job_fits m k j) → job_fits m i j' →
  ∀ k j, <[i := j']> js !! k = Some j → job_fits m k j.
Proof.
  intros Hold Hnew k j [(<- & <- & _)|[_ Hj]]%list_lookup_insert_Some; eauto.
Qed.

(** A new job for thread [i], whatever the buffer and the threads do. *)
Lemma update_keeps m rb ts js rb' ts' i j j' :
  demo_inv m rb ts js → js !! i = Some j → job_fits m i j' →
  ring_inv options (mkSystem rb' ts') → length ts' = S workers →
  (∀ k t j r, ts' !! k = Some t → <[i := j']> js !! k = Some j →
    inside t = Some r → calls j = Some r) →
  closed_ rb' = closed_ rb →
  (ConsumerExit ∈ <[i := j']> js → closed_ rb = true ∧ size_ rb' = 0) →
  stats_ rb' = stats_at rb' (<[i := j']> js) →
  size_ rb' + todo j' ≤ size_ rb + todo j →
  exit_ j' + consuming j' = exit_ j + consuming j →
  demo_inv m rb' ts' (<[i := j']> js).
Proof.
  intros Hinv Hj Hfit Hring Hlen Hins Hcl Hexit Hst Htot Hcons.
  destruct Hinv as [Hw _ _ Hl Hfits _ Hc _ _ Ht Hn].
  split; try done.
  - by rewrite length_insert.
  - by eapply fits_insert.
  - congruence.
  - rewrite Hcl. done.
  - rewrite (sum_of_insert _ _ _ _ _ Hj). lia.
  - rewrite !(sum_of_insert _ _ _ _ _ Hj). lia.
Qed.

(** A new job that neither pushes nor pops, the buffer and the threads staying. *)
Lemma job_keeps m rb ts js i j j' :
  demo_inv m rb ts js → js !! i = Some j → job_fits m i j' →
  calls j = None ∨ (∀ t, ts !! i = Some t → inside t = None) →
  todo_of j' = todo_of j → exit_ j' = exit_ j → consuming j' = consuming j →
  demo_inv m rb ts (<[i := j']> js).
Proof.
  intros Hinv Hj Hfit Hcall Htodo Hex Hcons.
  assert (todo j' = todo j) as Htd by (unfold todo; by rewrite Htodo).
  eapply update_keeps; eauto using d_ring, d_threads; rewrite ?Htd, ?Hex, ?Hcons; try done.
  - intros k t j1 r Ht Hk Hr. destruct (decide (i = k)) as [->|Hne].
    + destruct Hcall as [Hcall|Hcall]; [|by rewrite (Hcall _ Ht) in Hr].
      pose proof (d_inside _ _ _ _ Hinv _ _ _ _ Ht Hj Hr). congruence.
    + rewrite list_lookup_insert_ne in Hk by done. by eapply d_inside.
  - intros [Hin|Hin]%elem_of_list_insert; [|rewrite <-?(d_closed _ _ _ _ Hinv); by eapply d_exit].
    subst j'. destruct j; try done. eapply d_exit; [done|]. by eapply list_elem_of_lookup_2.
  - rewrite (d_stats _ _ _ _ Hinv). unfold stats_at.
    rewrite !(sum_of_insert _ _ _ _ _ Hj), Htd, Hex. f_equal; lia.
Qed.

Lemma unprinted_insert js i j j' :
  js !! i = Some j → unprinted j' = unprinted j →
  <[i := j']> js ≫= unprinted ≡ₚ js ≫= unprinted.
Proof.
  intros Hj Heq. pose proof (bind_insert_perm unprinted js i j j' Hj) as Hp.
  rewrite Heq in Hp. by apply Permutation_app_inv_l in Hp.
Qed.

Context (Hcap : 0 < cap < two64).
Context (Hfew : Z.of_nat consumers < two64) (Htotal : total < two64).

Lemma todo_push p k : (k < items)%nat → todo (PushItem p k) = 1 + todo (producer p (S k)).
Proof.
  intros Hk. unfold todo. rewrite todo_of_producer. simpl. rewrite from_cons by done. simpl. lia.
Qed.

Lemma push_pending rb rb' js i p k q :
  js !! i = Some (PushItem p k) → (k < items)%nat →
  repr rb q → repr rb' (q ++ [message p k]) →
  queue rb' ++ (<[i := producer p (S k)]> js ≫= unprinted)
    ≡ₚ queue rb ++ (js ≫= unprinted).
Proof.
  intros Hj Hk Hr Hr'. rewrite (repr_queue _ _ Hr), (repr_queue _ _ Hr').
  pose proof (bind_insert_perm unprinted js _ _ (producer p (S k)) Hj) as Hp.
  assert (unprinted (producer p (S k)) = from p (S k)) as Hu.
  { rewrite <-todo_of_producer. unfold RingDemo.producer. by case_match. }
  rewrite Hu in Hp. unfold unprinted at 1 in Hp. simpl in Hp.
  rewrite from_cons in Hp by done.
  rewrite <-app_assoc. apply Permutation_app_head. simpl.
  apply (Permutation_app_inv_l (from p (S k))).
  rewrite <-Hp. by rewrite <-Permutation_middle.
Qed.

Lemma push_keeps m rb ts js i p k q rb' t :
  demo_inv m rb ts js → js !! i = Some (PushItem p k) →
  repr rb q → repr rb' (q ++ [message p k]) → closed_ rb = false → closed_ rb' = false →
  stats_ rb' = (stats_ rb) <| pushes ::= λ n, n ⊕ 1 |> →
  inside t = None → ring_inv options (mkSystem rb' (<[i := t]> ts)) →
  demo_inv m rb' (<[i := t]> ts) (<[i := producer p (S k)]> js)
  ∧ queue rb' ++ (<[i := producer p (S k)]> js ≫= unprinted)
    ≡ₚ queue rb ++ (js ≫= unprinted).
Proof.
  intros Hinv Hj Hr Hr' Hc Hc' Hst Ht Hring.
  pose proof (d_fits _ _ _ _ Hinv _ _ Hj) as Hfit.
  destruct i as [|i]; [done|]. simpl in Hfit. case_match eqn:Hi; [done|].
  destruct Hfit as (-> & Hk & Hs & Hpj). split; [|by eapply push_pending].
  pose proof (repr_size _ _ Hr) as Hz. pose proof (repr_size _ _ Hr') as Hz'.
  rewrite length_app in Hz'. simpl in Hz'.
  pose proof (todo_push (i - consumers) k Hk) as Htd.
  destruct (producer_consuming (i - consumers) (S k)) as [Hx1 Hx2].
  eapply update_keeps; [done|done| |done|..].
  - unfold job_fits. rewrite Hi. unfold RingDemo.producer. case_match eqn:Hlt; simpl; [|done].
    split_and!; try done. by apply Nat.ltb_lt in Hlt.
  - rewrite length_insert. by eapply d_threads.
  - apply inside_insert; [by eapply d_inside|]. intros r. by rewrite Ht.
  - congruence.
  - intros Hin. exfalso. apply elem_of_list_insert in Hin as [Hin|Hin].
    + by rewrite <-Hin in Hx2.
    + destruct (d_exit _ _ _ _ Hinv Hin). congruence.
  - rewrite Hst, (d_stats _ _ _ _ Hinv). unfold stats_at, set_field. simpl.
    rewrite !(sum_of_insert _ _ _ _ _ Hj), Hx2, Htd, Hz', Hz. simpl.
    pose proof (sum_of_lookup _ _ _ _ todo_nonneg Hj).
    pose proof (d_total _ _ _ _ Hinv).
    pose proof (todo_nonneg (producer (i - consumers) (S k))).
    u64_elim. f_equal; lia.
  - lia.
  - rewrite Hx1, Hx2. done.
Qed.

(** The job of a consumer is at a positive position. *)
Lemma pop_position m rb ts js i :
  demo_inv m rb ts js → js !! i = Some Pop_ →
  ∃ c, i = S c ∧ (c < consumers)%nat ∧ started m c = true ∧ consumer_joined m c = false.
Proof.
  intros Hinv Hj. pose proof (d_fits _ _ _ _ Hinv _ _ Hj) as Hfit.
  destruct i as [|c]; [done|]. simpl in Hfit. case_match eqn:Hc; [|done].
  apply Nat.ltb_lt in Hc. naive_solver.
Qed.
Lemma consumer_job m c j :
  (c < consumers)%nat → consumer_fits m c j → job_fits m (S c) j.
Proof. intros Hc%Nat.ltb_lt Hfit. unfold job_fits. by rewrite Hc. Qed.

Lemma pop_keeps m rb ts js i x q rb' t :
  demo_inv m rb ts js → js !! i = Some Pop_ →
  repr rb (x :: q) → repr rb' q → closed_ rb' = closed_ rb →
  stats_ rb' = (stats_ rb) <| pops ::= λ n, n ⊕ 1 |> →
  inside t = None → ring_inv options (mkSystem rb' (<[i := t]> ts)) →
  demo_inv m rb' (<[i := t]> ts) (<[i := Log x]> js)
  ∧ queue rb' ++ (<[i := Log x]> js ≫= unprinted) ≡ₚ queue rb ++ (js ≫= unprinted).
Proof.
  intros Hinv Hj Hr Hr' Hc Hst Ht Hring.
  pose proof (repr_size _ _ Hr) as Hz. pose proof (repr_size _ _ Hr') as Hz'. simpl in Hz.
  destruct (pop_position _ _ _ _ _ Hinv Hj) as (c & -> & Hlt & Hs & Hcj). split.
  - eapply update_keeps; [done|done| |done|..].
    + by apply consumer_job.
    + rewrite length_insert. by eapply d_threads.
    + apply inside_insert; [by eapply d_inside|]. intros r. by rewrite Ht.
    + done.
    + intros [Hin|Hin]%elem_of_list_insert; [done|].
      destruct (d_exit _ _ _ _ Hinv Hin). lia.
    + rewrite Hst, (d_stats _ _ _ _ Hinv). unfold stats_at, set_field. simpl.
      rewrite !(sum_of_insert _ _ _ _ _ Hj), Hz', Hz. change (todo Pop_) with 0. change (todo (Log x)) with 0. simpl.
      pose proof (sum_of_nonneg todo js todo_nonneg).
      pose proof (d_total _ _ _ _ Hinv). u64_elim. f_equal; lia.
    + unfold todo. simpl. lia.
    + done.
  - rewrite (repr_queue _ _ Hr), (repr_queue _ _ Hr').
    pose proof (bind_insert_perm unprinted js _ _ (Log x) Hj) as Hp. simpl in Hp.
    rewrite Hp. simpl. by rewrite <-Permutation_middle.
Qed.

Lemma end_keeps m rb ts js i t :
  demo_inv m rb ts js → js !! i = Some Pop_ → size_ rb = 0 → closed_ rb = true →
  inside t = None → ring_inv options (mkSystem (failPop rb) (<[i := t]> ts)) →
  demo_inv m (failPop rb) (<[i := t]> ts) (<[i := ConsumerExit]> js)
  ∧ queue (failPop rb) ++ (<[i := ConsumerExit]> js ≫= unprinted)
    ≡ₚ queue rb ++ (js ≫= unprinted).
Proof.
  intros Hinv Hj Hz Hc Ht Hring.
  destruct (pop_position _ _ _ _ _ Hinv Hj) as (c & -> & Hlt & Hs & Hcj). split.
  - eapply update_keeps; [done|done|by apply consumer_job|done|..]; try done.
    + rewrite length_insert. by eapply d_threads.
    + apply inside_insert; [by eapply d_inside|]. intros r. by rewrite Ht.
    + unfold failPop, set_field. simpl.
      rewrite (d_stats _ _ _ _ Hinv). unfold stats_at. simpl.
      rewrite !(sum_of_insert _ _ _ _ _ Hj). change (todo Pop_) with 0. change (todo ConsumerExit) with 0. simpl.
      pose proof (d_consumers _ _ _ _ Hinv).
      pose proof (sum_of_lookup _ _ _ _ consuming_nonneg Hj) as Hle. simpl in Hle.
      pose proof (sum_of_nonneg exit_ js exit_nonneg).
      u64_elim. f_equal; lia.
  - apply Permutation_app_head. by eapply unprinted_insert.
Qed.

(** [main] moves on from [m] to [m']. *)
Lemma main_keeps m m' rb ts js rb' ts' :
  demo_inv m rb ts js → within m' →
  ring_inv options (mkSystem rb' ts') → length ts' = S workers →
  (∀ k t j r, ts' !! k = Some t → <[0%nat := Main m']> js !! k = Some j →
    inside t = Some r → calls j = Some r) →
  closed_ rb' = past_close m' → size_ rb' = size_ rb → stats_ rb' = stats_ rb →
  (closed_ rb = true → closed_ rb' = true) →
  (∀ k j, (k < workers)%nat → job_fits m (S k) j → js !! S k = Some j → job_fits m' (S k) j) →
  demo_inv m' rb' ts' (<[0%nat := Main m']> js).
Proof.
  intros Hinv Hw Hring Hlen Hins Hc Hz Hs Hcl Hmove.
  pose proof Hinv as [_ _ _ Hl Hfits _ _ Hexit Hst Htot Hcons].
  assert (is_Some (js !! 0%nat)) as [j0 Hj0] by (apply lookup_lt_is_Some_2; lia).
  pose proof (Hfits _ _ Hj0) as E. simpl in E. subst j0.
  split; try done.
  - by rewrite length_insert.
  - intros k j Hk. destruct k as [|k].
    + rewrite list_lookup_insert_eq in Hk by lia. by simplify_eq.
    + rewrite list_lookup_insert_ne in Hk by done. pose proof (lookup_lt_Some _ _ _ Hk).
      apply Hmove; [lia|by apply Hfits|done].
  - intros [Hin|Hin]%elem_of_list_insert; [done|]. rewrite Hz.
    destruct (Hexit Hin) as [Hx ->]. by rewrite Hcl.
  - rewrite Hs, Hst. unfold stats_at. by rewrite !(sum_of_insert _ _ _ _ _ Hj0), Hz, !Z.sub_add.
  - rewrite (sum_of_insert _ _ _ _ _ Hj0), Hz. change (todo (Main m')) with (todo (Main m)). lia.
  - rewrite !(sum_of_insert _ _ _ _ _ Hj0). simpl. lia.
Qed.

(** ... with the buffer and the threads as they are. *)
Lemma demo_main_moves m m' rb ts js :
  demo_inv m rb ts js → m ≠ CloseBuffer → within m' → past_close m' = past_close m →
  (∀ k j, (k < workers)%nat → job_fits m (S k) j → js !! S k = Some j → job_fits m' (S k) j) →
  demo_inv m' rb ts (<[0%nat := Main m']> js).
Proof.
  intros Hinv Hm Hw Hpc Hmove.
  eapply main_keeps; eauto using d_ring, d_threads.
  - intros k t j r Ht Hk Hr. destruct (decide (k = 0%nat)) as [->|Hne].
    + assert (is_Some (js !! 0%nat)) as [j0 Hj0].
      { apply lookup_lt_is_Some_2. rewrite (d_jobs _ _ _ _ Hinv). lia. }
      pose proof (d_inside _ _ _ _ Hinv _ _ _ _ Ht Hj0 Hr) as Hcall.
      pose proof (d_fits _ _ _ _ Hinv _ _ Hj0) as E. simpl in E. subst. by destruct m.
    + rewrite list_lookup_insert_ne in Hk by done. by eapply d_inside.
  - rewrite Hpc. by eapply d_closed.
Qed.

Lemma main_unprinted m m' js :
  js !! 0%nat = Some (Main m) → <[0%nat := Main m']> js ≫= unprinted ≡ₚ js ≫= unprinted.
Proof. intros. by eapply unprinted_insert. Qed.

Lemma close_keeps rb ts js :
  demo_inv CloseBuffer rb ts js → ∀ t, inside t = None →
  ring_inv options (mkSystem (close rb) (<[0%nat := t]> ts)) →
  demo_inv (JoinConsumers 0) (close rb) (<[0%nat := t]> ts)
    (<[0%nat := Main (JoinConsumers 0)]> js).
Proof.
  intros Hinv t Ht Hring. eapply main_keeps; [done|simpl; lia|done|..]; try done.
  - rewrite length_insert. by eapply d_threads.
  - apply inside_insert; [by eapply d_inside|]. intros r. by rewrite Ht.
Qed.

(** A critical section at any job. *)
Lemma section_keeps m rb ts js i j r rb' e :
  demo_inv m rb ts js → js !! i = Some j → calls j = Some r → acts rb j e rb' →
  ring_inv options (mkSystem rb' (<[i := after r e]> ts)) →
  ∃ m', demo_inv m' rb' (<[i := after r e]> ts) (<[i := next_job j e]> js)
    ∧ queue rb' ++ (<[i := next_job j e]> js ≫= unprinted) ≡ₚ queue rb ++ (js ≫= unprinted)
    ∧ m' ≠ Return_ ∧ m ≠ Return_.
Proof.
  intros Hinv Hj Hcall Hacts Hring.
  assert (m ≠ Return_) as Hm.
  { intros ->. pose proof (d_fits _ _ _ _ Hinv _ _ Hj) as Hfit.
    destruct i; simpl in Hfit; [by subst|]. case_match; destruct j; naive_solver. }
  destruct Hacts as [j c|p k q rb' Hr Hr' Hc Hc' Hst|x q rb' Hr Hr' Hc Hst|Hz Hc|].
  - exists m. change (next_job j (Sleep c)) with j. rewrite (list_insert_id js) by done.
    split_and!; try done. destruct Hinv as [? ? ? ? ? Hins ? ? ? ? ?]. split; try done.
    + by rewrite length_insert.
    + rewrite <-(list_insert_id js i j) by done. apply inside_insert; [done|].
      intros r'. simpl. congruence.
  - exists m. rewrite !(and_assoc _ _ (m ≠ _ ∧ _)). split; [|done]. by eapply push_keeps.
  - exists m. rewrite !(and_assoc _ _ (m ≠ _ ∧ _)). split; [|done]. by eapply pop_keeps.
  - exists m. rewrite !(and_assoc _ _ (m ≠ _ ∧ _)). split; [|done]. by eapply end_keeps.
  - exists (JoinConsumers 0). pose proof (d_fits _ _ _ _ Hinv _ _ Hj) as Hfit.
    destruct i as [|i]; simpl in Hfit; [|by case_match]. simplify_eq.
    split_and!; try done; [by apply close_keeps|].
    apply Permutation_app_head. by eapply main_unprinted.
Qed.

(** Notifications, returns and wake-ups move no thread to another call. *)
Definition moves_threads (z z' : system T) : Prop :=
  shared z' = shared z ∧ length (threads z') = length (threads z)
  ∧ ∀ k t' r, threads z' !! k = Some t' → inside t' = Some r →
      ∃ t, threads z !! k = Some t ∧ inside t = Some r.

Lemma moves_one rb ts i t t' :
  ts !! i = Some t → (∀ r, inside t' = Some r → inside t = Some r) →
  moves_threads (mkSystem rb ts) (mkSystem rb (<[i := t']> ts)).
Proof.
  intros Hi Ht. split_and!; simpl; [done|by rewrite length_insert|]. intros k t1 r.
  rewrite list_lookup_insert_Some. intros [(<- & <- & _)|[_ Hk]]; eauto.
Qed.
Lemma moves_trans z1 z2 z3 : moves_threads z1 z2 → moves_threads z2 z3 → moves_threads z1 z3.
Proof.
  intros (Hs1 & Hl1 & H1) (Hs2 & Hl2 & H2). split_and!; [congruence..|].
  intros k t r Ht Hr. destruct (H2 _ _ _ Ht Hr) as (t2 & ? & ?). eauto.
Qed.

Lemma delivers_moves z z' : delivers z z' → moves_threads z z'.
Proof.
  intros [i k c r sigs rb ts Hi Hk|i c sigs rb ts Hi Hnone|i c sigs rb ts Hi|i rb ts Hi].
  - eapply moves_trans; [by eapply (moves_one rb ts i _ (Signalling sigs))|].
    eapply (moves_one _ _ k (Blocked c r)); [|done].
    assert (i ≠ k) by congruence. by rewrite list_lookup_insert_ne.
  - by eapply moves_one.
  - eapply moves_trans; [by eapply (moves_one _ _ _ _ (Signalling sigs))|].
    split_and!; simpl; [done|apply length_fmap|]. intros k t' r Ht Hr.
    rewrite list_lookup_fmap in Ht. apply fmap_Some in Ht as (t & Ht & ->).
    exists t. split; [done|]. destruct t; simpl in *; try done. by case_match.
  - by eapply moves_one.
Qed.

Lemma delivers_step (z z' : system T) : delivers z z' → ring_step z [] z'.
Proof. destruct 1; by econstructor. Qed.

Lemma threads_keep m rb ts ts' js :
  demo_inv m rb ts js → moves_threads (mkSystem rb ts) (mkSystem rb ts') →
  ring_step (mkSystem rb ts) [] (mkSystem rb ts') → demo_inv m rb ts' js.
Proof.
  intros Hinv (_ & Hl & Hm) Hstep. simpl in *. pose proof Hinv as [Hw Hr Hlt ? ? Hi ? ? ? ? ?].
  split; try done; [by eapply ring_inv_step|congruence|].
  intros k t j r Ht Hj Hr'. destruct (Hm _ _ _ Ht Hr') as (t0 & ? & ?). eauto.
Qed.

(** ** Every step keeps the invariant *)

(** The abstract state [a] of the demo at [s]. *)
Definition bag m s (a : option (list T)) : Prop :=
  if decide (m = Return_) then a = None else ∃ l, a = Some l ∧ l ≡ₚ pending s.
Definition demo_at m s : Prop := demo_inv m (shared (sys s)) (threads (sys s)) (jobs s).
Definition printing_at s (a : option (list T)) : Prop := ∃ m, demo_at m s ∧ bag m s a.

Lemma log_keeps m rb ts js c x :
  demo_inv m rb ts js → js !! S c = Some (Log x) →
  (c < consumers)%nat ∧ demo_inv m rb ts (<[S c := Pause]> js)
  ∧ js ≫= unprinted ≡ₚ x :: (<[S c := Pause]> js ≫= unprinted).
Proof.
  intros Hinv Hj. pose proof (d_fits _ _ _ _ Hinv _ _ Hj) as Hfit. simpl in Hfit.
  case_match eqn:Hc; [|done]. pose proof (proj1 (Nat.ltb_lt _ _) Hc) as Hlt.
  split; [done|]. split.
  - eapply job_keeps; eauto. by apply consumer_job.
  - apply (bind_insert_perm unprinted _ _ _ Pause) in Hj. simpl in Hj. by rewrite Hj.
Qed.

Lemma wake_keeps m rb ts js i :
  demo_inv m rb ts js → js !! i = Some Pause →
  demo_inv m rb ts (<[i := Pop_]> js)
  ∧ <[i := Pop_]> js ≫= unprinted ≡ₚ js ≫= unprinted.
Proof.
  intros Hinv Hj. pose proof (d_fits _ _ _ _ Hinv _ _ Hj) as Hfit.
  destruct i as [|c]; [done|]. simpl in Hfit.
  case_match eqn:Hc; [|done]. pose proof (proj1 (Nat.ltb_lt _ _) Hc) as Hlt.
  split; [|by eapply unprinted_insert].
  eapply job_keeps; eauto. by apply consumer_job.
Qed.

Lemma started_next i k : k ≠ i → started (Spawn (S i)) k = started (Spawn i) k.
Proof. intros. simpl. destruct (Nat.ltb_spec k (S i)), (Nat.ltb_spec k i); lia || done. Qed.

Lemma starts_itself i j :
  job_fits (Spawn i) (S i) (NotStarted j) → job_fits (Spawn (S i)) (S i) j.
Proof.
  assert (started (Spawn (S i)) i = true) as Hs by (apply Nat.ltb_lt; lia).
  unfold job_fits. destruct (Nat.ltb_spec i consumers) as [Hc|Hc]; intros [-> _]; [done|].
  unfold RingDemo.producer, producer_fits.
  replace (consumers + (i - consumers))%nat with i by lia.
  destruct (Nat.ltb_spec 0 items); done.
Qed.

Lemma starts_other i k j :
  k ≠ i → job_fits (Spawn i) (S k) j → job_fits (Spawn (S i)) (S k) j.
Proof.
  intros Hne. unfold job_fits. destruct (Nat.ltb_spec k consumers) as [Hc|Hc].
  - unfold consumer_fits. by rewrite (started_next i k).
  - unfold producer_fits. replace (consumers + (k - consumers))%nat with k by lia.
    by rewrite (started_next i k).
Qed.

Lemma spawn_keeps i rb ts js j :
  demo_inv (Spawn i) rb ts js → js !! S i = Some (NotStarted j) →
  demo_inv (Spawn (S i)) rb ts (<[S i := j]> (<[0%nat := Main (Spawn (S i))]> js))
  ∧ (<[S i := j]> (<[0%nat := Main (Spawn (S i))]> js)) ≫= unprinted ≡ₚ js ≫= unprinted.
Proof.
  intros Hinv Hj.
  assert (∃ j0, js !! 0%nat = Some j0 ∧ j0 = Main (Spawn i)) as (j0 & Hj0 & ->).
  { destruct (lookup_lt_is_Some_2 js 0) as [j0 Hj0]; [rewrite (d_jobs _ _ _ _ Hinv); lia|].
    exists j0. split; [done|]. exact (d_fits _ _ _ _ Hinv _ _ Hj0). }
  set (js1 := <[0%nat := Main (Spawn (S i))]> js).
  assert (js1 !! S i = Some (NotStarted j)) as Hj1 by (subst js1; by rewrite list_lookup_insert_ne).
  pose proof (d_fits _ _ _ _ Hinv _ _ Hj) as Hfit.
  assert (held_of j = [] ∧ exit_ j = 0) as [Hheld Hex].
  { simpl in Hfit. case_match; destruct Hfit as [-> _]; [done|].
    unfold RingDemo.producer. by case_match. }
  split; [|rewrite (unprinted_insert _ _ (NotStarted j)); [by eapply main_unprinted|done|];
           unfold unprinted; by rewrite Hheld].
  - pose proof Hinv as [Hw Hr Hlt Hl Hfits Hins Hc Hexit Hst Htot Hcons].
    pose proof (lookup_lt_Some _ _ _ Hj) as Hi.
    assert (∀ f, f (Main (Spawn (S i))) = f (Main (Spawn i)) → f j = f (NotStarted j) →
      sum_of f (<[S i := j]> js1) = sum_of f js) as Hsum.
    { intros f Hf0 Hf. rewrite (sum_of_insert _ _ _ _ _ Hj1). subst js1.
      rewrite (sum_of_insert _ _ _ _ _ Hj0). lia. }
    split; try done.
    + simpl. lia.
    + subst js1. by rewrite !length_insert.
    + intros k j' [(<- & <- & _)|[Hne Hk]]%list_lookup_insert_Some; [by apply starts_itself|].
      subst js1. destruct k as [|k].
      * rewrite list_lookup_insert_eq in Hk by lia. by simplify_eq.
      * rewrite list_lookup_insert_ne in Hk by done. apply starts_other; [congruence|eauto].
    + intros k t j' r Ht [(<- & <- & _)|[Hne Hk]]%list_lookup_insert_Some Hcall.
      { by specialize (Hins _ _ _ _ Ht Hj Hcall). }
      subst js1. destruct k as [|k].
      * by specialize (Hins _ _ _ _ Ht Hj0 Hcall).
      * rewrite list_lookup_insert_ne in Hk by done. by eapply Hins.
    + intros [Hin|[Hin|Hin]%elem_of_list_insert]%elem_of_list_insert; [by rewrite <-Hin in Hex|done|].
      by apply Hexit.
    + rewrite Hst. unfold stats_at. by rewrite !Hsum.
    + by rewrite Hsum.
    + by rewrite !Hsum.
Qed.

(** The other steps of [main]: thread [S k] is as far as [main] takes it. *)
Lemma fits_move m m' k j :
  started m' k = started m k →
  ((k < consumers)%nat → consumer_joined m' k = consumer_joined m k ∨ j = ConsumerExit) →
  ((consumers ≤ k)%nat →
    producer_joined m' (k - consumers) = producer_joined m (k - consumers)
    ∨ j = ProducerExit) →
  job_fits m (S k) j → job_fits m' (S k) j.
Proof.
  intros Hs Hc Hp. unfold job_fits. destruct (Nat.ltb_spec k consumers) as [Hk|Hk].
  - unfold consumer_fits. rewrite Hs. by destruct (Hc Hk) as [->| ->].
  - unfold producer_fits. replace (consumers + (k - consumers))%nat with k by lia.
    rewrite Hs. by destruct (Hp Hk) as [->| ->].
Qed.

Lemma ltb_next k p : k ≠ p → (k <? S p)%nat = (k <? p)%nat.
Proof. intros. destruct (Nat.ltb_spec k (S p)), (Nat.ltb_spec k p); lia || done. Qed.

Lemma join_producer_keeps p rb ts js :
  demo_inv (JoinProducers p) rb ts js → js !! S (consumers + p) = Some ProducerExit →
  demo_inv (JoinProducers (S p)) rb ts (<[0%nat := Main (JoinProducers (S p))]> js).
Proof.
  intros Hinv Hj. pose proof (lookup_lt_Some _ _ _ Hj) as Hlt.
  rewrite (d_jobs _ _ _ _ Hinv) in Hlt.
  eapply demo_main_moves; [done|done|simpl; lia|done|]. intros k j _ Hfit Hk. revert Hfit.
  apply fits_move; [done|by left|]. intros Hle. simpl.
  destruct (decide (k - consumers = p)%nat) as [Heq|Hne]; [right|left; by apply ltb_next].
  replace k with (consumers + p)%nat in Hk by lia. congruence.
Qed.

Lemma join_consumer_keeps c rb ts js :
  demo_inv (JoinConsumers c) rb ts js →
  js !! S c = Some ConsumerExit →
  demo_inv (JoinConsumers (S c)) rb ts (<[0%nat := Main (JoinConsumers (S c))]> js).
Proof.
  intros Hinv Hj. assert (c < consumers)%nat as Hlt.
  { pose proof (d_fits _ _ _ _ Hinv _ _ Hj) as Hfit. simpl in Hfit.
    destruct (Nat.ltb_spec c consumers); done. }
  eapply demo_main_moves; [done|done|simpl; lia|done|].
  intros k j _ Hfit Hk. revert Hfit. apply fits_move; [done| |by left]. intros Hle. simpl.
  destruct (decide (k = c)%nat) as [->|Hne]; [right; congruence|left; by apply ltb_next].
Qed.

(** The steps between the phases of [main]. *)
Definition next_phase m : option main_pc :=
  match m with
  | Spawn i => if (i =? workers)%nat then Some (JoinProducers 0) else None
  | JoinProducers p => if (p =? producers)%nat then Some CloseBuffer else None
  | JoinConsumers c => if (c =? consumers)%nat then Some Report else None
  | Report => Some Return_
  | _ => None
  end.

Lemma demo_phase_keeps m m' rb ts js :
  demo_inv m rb ts js → next_phase m = Some m' →
  demo_inv m' rb ts (<[0%nat := Main m']> js).
Proof.
  intros Hinv Hm. eapply demo_main_moves; [done|by intros ->|..].
  - destruct m; simpl in Hm; try case_match; simplify_eq; simpl; lia || done.
  - destruct m; simpl in Hm; try case_match; by simplify_eq.
  - intros k j Hk Hfit _. revert Hfit. apply fits_move.
    + destruct m as [i| | | | |]; simpl in Hm; try case_match eqn:E; simplify_eq; try done.
      simpl. apply Nat.eqb_eq in E. subst. symmetry. by apply Nat.ltb_lt.
    + intros Hc. left. destruct m as [| | |c| |]; simpl in Hm; try case_match eqn:E;
        simplify_eq; try done.
      simpl. apply Nat.eqb_eq in E. subst. symmetry. by apply Nat.ltb_lt.
    + intros Hc. left. destruct m as [|p| | | |]; simpl in Hm; try case_match eqn:E;
        simplify_eq; try done.
      simpl. apply Nat.eqb_eq in E. subst. symmetry. apply Nat.ltb_lt. lia.
Qed.

Context (Hconsumers : (0 < consumers)%nat).

(** At the statistics everything has been printed and counted. *)
Lemma report_final rb ts js :
  demo_inv Report rb ts js →
  queue rb ++ (js ≫= unprinted) = [] ∧ stats_ rb = final_stats consumers producers items.
Proof.
  intros Hinv. pose proof Hinv as [_ [[q Hr] _ _ _] _ Hl Hfits _ Hc Hexit Hst Htot Hcons].
  simpl in Hr.
  assert (∀ j, j ∈ js → unprinted j = [] ∧ todo j = 0 ∧ consuming j = 0) as Hdone.
  { intros j [[|k] Hk]%list_elem_of_lookup; apply Hfits in Hk; simpl in Hk; [by subst|].
    case_match; destruct j; simpl in Hk; naive_solver. }
  assert (ConsumerExit ∈ js) as Hin.
  { destruct (lookup_lt_is_Some_2 js 1) as [j Hj]; [lia|].
    pose proof (Hfits _ _ Hj) as Hfit. unfold job_fits in Hfit.
    rewrite (proj2 (Nat.ltb_lt 0 consumers)) in Hfit by done.
    destruct j; simpl in Hfit; try naive_solver. by eapply list_elem_of_lookup_2. }
  destruct (Hexit Hin) as [_ Hz]. rewrite (repr_queue _ _ Hr).
  rewrite (repr_size _ _ Hr) in Hz. destruct q; [|simpl in Hz; lia].
  assert (sum_of todo js = 0 ∧ sum_of consuming js = 0) as [Ht0 Hc0].
  { split; apply sum_of_zero; auto using todo_nonneg, consuming_nonneg; naive_solver. }
  split; [apply bind_empty; naive_solver|].
  rewrite Hst. unfold stats_at, final_stats. rewrite (repr_size _ _ Hr), Ht0. simpl.
  f_equal; lia.
Qed.

Lemma demo_main m m' rb ts js :
  demo_inv m rb ts js → js !! 0%nat = Some (Main m') → m' = m.
Proof. intros Hinv Hj. pose proof (d_fits _ _ _ _ Hinv _ _ Hj). naive_solver. Qed.

Lemma demo_exited m rb ts js i j t :
  demo_inv m rb ts js → js !! i = Some j → ts !! i = Some t → calls j = None →
  inside t = None.
Proof.
  intros Hinv Hj Ht Hcall. destruct (inside t) as [r|] eqn:E; [|done].
  by rewrite (d_inside _ _ _ _ Hinv _ _ _ _ Ht Hj E) in Hcall.
Qed.

(** A step that prints nothing. *)
Definition silent s s' : Prop :=
  ∀ m, demo_at m s → ∃ m', demo_at m' s' ∧ (m = Return_ ↔ m' = Return_)
    ∧ pending s' ≡ₚ pending s.

Lemma bag_silent m m' s s' a :
  (m = Return_ ↔ m' = Return_) → pending s' ≡ₚ pending s → bag m s a → bag m' s' a.
Proof.
  intros Hm Hp. unfold bag. destruct (decide (m = _)), (decide (m' = _)); try naive_solver.
  intros (l & -> & Hl). exists l. by rewrite Hp.
Qed.

Lemma section_silent i j r to rb rb' ts js e :
  js !! i = Some j → calls j = Some r → critical rb r to = Some (rb', e) →
  ring_step (mkSystem rb ts) (seen e) (mkSystem rb' (<[i := after r e]> ts)) →
  silent (mkState (mkSystem rb ts) js)
    (mkState (mkSystem rb' (<[i := after r e]> ts)) (<[i := next_job j e]> js)).
Proof.
  intros Hj Hcall Hcr Hstep m Hinv. unfold demo_at in *. simpl in *.
  destruct (section_keeps m rb ts js i j r rb' e) as (m' & Hinv' & Hp & ? & ?); try done.
  - by eapply section_acts.
  - eapply ring_inv_step, Hstep. by eapply d_ring.
  - exists m'. split_and!; [done|naive_solver|exact Hp].
Qed.

Lemma phase_silent m m' z js :
  js !! 0%nat = Some (Main m) → m' ≠ Return_ → next_phase m = Some m' →
  silent (mkState z js) (mkState z (<[0%nat := Main m']> js)).
Proof.
  intros Hj Hm' Hm m1 Hinv. unfold demo_at in *. simpl in *.
  pose proof (demo_main _ _ _ _ _ Hinv Hj) as ->. exists m'.
  split_and!; [by eapply demo_phase_keeps|split; [by intros ->|done]|].
  apply Permutation_app_head. by eapply main_unprinted.
Qed.

Lemma main_silent m m' rb ts js :
  js !! 0%nat = Some (Main m) → m ≠ Return_ → m' ≠ Return_ →
  (demo_inv m rb ts js → demo_inv m' rb ts (<[0%nat := Main m']> js)) →
  silent (mkState (mkSystem rb ts) js) (mkState (mkSystem rb ts) (<[0%nat := Main m']> js)).
Proof.
  intros Hj Hm Hm' Hkeep m1 Hinv. unfold demo_at in *. simpl in *.
  pose proof (demo_main _ _ _ _ _ Hinv Hj) as ->. exists m'.
  split_and!; [by apply Hkeep|naive_solver|].
  apply Permutation_app_head. by eapply main_unprinted.
Qed.

Lemma threads_silent z z' js :
  moves_threads z z' → ring_step z [] z' → silent (mkState z js) (mkState z' js).
Proof.
  destruct z as [rb ts], z' as [rb' ts']. intros Hm Hstep. pose proof Hm as (E & _).
  simpl in E. subst rb'. intros m Hinv. exists m. unfold demo_at in *. simpl in *.
  split_and!; [by eapply threads_keep|done|done].
Qed.

Abbreviation active := (active message consumers producers items).
Abbreviation demo_step := (demo_step message consumers producers items).

Lemma active_silent s s' : active s [] s' → silent s s'.
Proof.
  intros Hstep. inversion Hstep as
    [i j r rb rb' ts js e Hj Hcall Hi Hcr|i j c r to rb rb' ts js e Hj Hi Hcr|z z' js Hd
    |c x z js Hj Hi|i z js Hj|i j z js Hj Hk|z js Hj|p z js Hj Hx|z js Hj
    |c z js Hj Hi Hx|z js Hj Hi|z js Hj]; subst.
  - eapply section_silent; eauto. by eapply step_call.
  - intros m Hinv. assert (calls j = Some r) as Hcall by (by eapply d_inside).
    revert m Hinv. apply section_silent with to; try done. by eapply step_resume.
  - by eapply threads_silent; [apply delivers_moves|apply delivers_step].
  - intros m Hinv. destruct (wake_keeps _ _ _ _ _ Hinv Hj) as [Hinv' Hp].
    exists m. split_and!; [done..|]. by apply Permutation_app_head.
  - intros m Hinv. pose proof (demo_main _ _ _ _ _ Hinv Hj) as <-.
    destruct (spawn_keeps _ _ _ _ _ Hinv Hk) as [Hinv' Hp].
    eexists. split_and!; [done..|]. by apply Permutation_app_head.
  - eapply phase_silent; [done..|]. simpl. by rewrite Nat.eqb_refl.
  - destruct z as [rb ts]. eapply main_silent; [done..|]. intros Hinv.
    eapply join_producer_keeps; [done|]. by destruct Hx.
  - eapply phase_silent; [done..|]. simpl. by rewrite Nat.eqb_refl.
  - destruct z as [rb ts]. eapply main_silent; [done..|]. intros Hinv. 
    eapply join_consumer_keeps; [done|]. by destruct Hx.
  - eapply phase_silent; [done..|]. simpl. by rewrite Nat.eqb_refl.
Qed.

(** A step of the demo is a run of the abstract demo. *)
Lemma active_prints s es s' a :
  active s es s' → printing_at s a →
  ∃ a', run (printing message consumers producers items) a es a' ∧ printing_at s' a'.
Proof.
  intros Hstep (m & Hinv & Ha). destruct es as [|e es].
  { exists a. split; [constructor|].
    destruct (active_silent _ _ Hstep _ Hinv) as (m' & ? & ? & ?).
    exists m'. split; [done|]. by eapply bag_silent. }
  inversion Hstep as [| | |c x z js Hj Hi| | | | | | | |z js Hj]; subst; clear Hstep.
  - destruct (log_keeps _ _ _ _ _ _ Hinv Hj) as (Hc & Hinv' & Hp). simpl in *.
    assert (m ≠ Return_) as Hm.
    { intros ->. pose proof (d_fits _ _ _ _ Hinv _ _ Hj) as Hfit. simpl in Hfit.
      case_match; naive_solver. }
    unfold bag in Ha. destruct (decide (m = Return_)); [done|]. destruct Ha as (l & -> & Hl).
    exists (Some (pending (mkState z (<[S c := Pause]> js)))). split.
    + apply run_one. constructor; [done|]. rewrite Hl. unfold pending. simpl.
      rewrite Hp. by rewrite <-Permutation_middle.
    + exists m. split; [done|]. unfold bag. destruct (decide (m = Return_)); [done|]. by eexists.
  - pose proof (demo_main _ _ _ _ _ Hinv Hj) as <-. simpl in *.
    destruct (report_final _ _ _ Hinv) as [Hp Hs]. simpl in Hp, Hs.
    unfold bag in Ha. destruct (decide (Report = Return_)); [done|]. destruct Ha as (l & -> & Hl).
    unfold pending in Hl. simpl in Hl. rewrite Hp in Hl. apply Permutation_nil_r in Hl as ->.
    exists None. split; [apply run_one; simpl; rewrite Hs; constructor|].
    exists Return_. split; [by eapply demo_phase_keeps|]. unfold bag. by destruct (decide _).
Qed.

Lemma spurious_prints s s' a : spurious s s' → printing_at s a → printing_at s' a.
Proof.
  intros [i c r rb ts js Hi] (m & Hinv & Ha).
  destruct (threads_silent (mkSystem rb ts)
    (mkSystem rb (<[i := Awake c r false]> ts)) js) with m as (m' & ? & ? & ?); try done.
  - eapply moves_one; [done|]. naive_solver.
  - by eapply step_wakeup.
  - exists m'. split; [done|]. by eapply bag_silent.
Qed.

(** ** The start *)

(** A measure of the jobs at the start. *)
Lemma initial_sum (f : job T → Z) zc zp :
  f (Main (Spawn 0)) = 0 → f (NotStarted Pop_) = zc →
  (∀ p, f (NotStarted (producer p 0)) = zp) →
  sum_of f (initial_jobs consumers producers items)
  = Z.of_nat consumers * zc + Z.of_nat producers * zp.
Proof.
  intros Hm Hc Hp. unfold initial_jobs. simpl.
  rewrite sum_of_app, sum_of_replicate, sum_of_fmap, Hm, Hc.
  rewrite (sum_of_const _ _ zp) by done. rewrite length_seq. lia.
Qed.

Lemma initial_lookup i j :
  initial_jobs consumers producers items !! i = Some j →
  match i with
  | O => j = Main (Spawn 0)
  | S k => if (k <? consumers)%nat then j = NotStarted Pop_
           else j = NotStarted (producer (k - consumers) 0)
  end.
Proof.
  destruct i as [|k]; unfold initial_jobs; simpl; [congruence|].
  destruct (Nat.ltb_spec k consumers) as [Hk|Hk].
  - rewrite lookup_app_l by (by rewrite length_replicate).
    rewrite lookup_replicate_2 by done. congruence.
  - rewrite lookup_app_r by (by rewrite length_replicate). rewrite length_replicate.
    rewrite list_lookup_fmap. intros (p & Hp & ->)%fmap_Some.
    apply lookup_seq in Hp as [-> _]. done.
Qed.

Lemma initial_unprinted :
  initial_jobs consumers producers items ≫= unprinted
  = all_messages message producers items.
Proof.
  unfold initial_jobs, all_messages. csimpl. rewrite bind_app.
  rewrite bind_empty; [|by intros x [-> _]%elem_of_replicate]. simpl.
  induction (seq 0 producers) as [|p l IH]; csimpl; [done|]. rewrite IH. f_equal.
  unfold unprinted. simpl. rewrite todo_of_producer.
  unfold RingDemo.producer. by destruct (0 <? items)%nat.
Qed.

Lemma demo_starts s :
  demo_init consumers producers items cap s →
  demo_at (Spawn 0) s ∧ pending s = all_messages message producers items.
Proof.
  intros (Hm & Hts & Hjs).
  destruct (make_repr options _ ltac:(simpl; lia) Hm) as (Hr & Hp & Hc & Hst).
  assert (∀ p, todo (NotStarted (producer p 0)) = Z.of_nat items) as Htodo.
  { intros p. unfold todo. simpl. rewrite todo_of_producer. unfold RingDemo.from.
    rewrite length_fmap, length_seq. lia. }
  assert (sum_of todo (jobs s) = total) as Htot.
  { rewrite Hjs, (initial_sum _ 0 (Z.of_nat items)); unfold RingDemo.total; done || lia. }
  assert (sum_of exit_ (jobs s) = 0) as Hex.
  { rewrite Hjs, (initial_sum _ 0 0); done || lia. }
  split; [|unfold pending; rewrite (repr_queue _ _ Hr), Hjs; apply initial_unprinted].
  split.
  - simpl. lia.
  - destruct s as [[rb ts] js]. cbn [sys jobs shared threads] in *.
    apply ring_inv_init; [simpl; lia|].
    split; [done|]. cbn [threads]. rewrite Hts. by apply Forall_replicate.
  - rewrite Hts. apply length_replicate.
  - rewrite Hjs. unfold initial_jobs. simpl.
    by rewrite length_app, length_replicate, length_fmap, length_seq.
  - rewrite Hjs. intros i j Hj. apply initial_lookup in Hj. destruct i as [|k]; [done|].
    unfold job_fits. case_match; by subst.
  - rewrite Hts. intros i t j r [-> _]%lookup_replicate_1. done.
  - done.
  - rewrite Hjs. intros [i Hi]%list_elem_of_lookup. apply initial_lookup in Hi.
    destruct i; [done|]. by case_match.
  - rewrite Hst. unfold stats_at. rewrite Htot, Hex, (repr_size _ _ Hr). simpl.
    by rewrite Z.sub_diag.
  - rewrite Htot, (repr_size _ _ Hr). simpl. lia.
  - rewrite Hex, Hjs, (initial_sum _ 1 0); try done; [simpl; lia|].
    intros p. apply producer_consuming.
Qed.

Lemma demo_reachable s :
  reachable (demo_lts message consumers producers items cap) s → ∃ m, demo_at m s.
Proof.
  assert (reachable (demo_lts message consumers producers items cap) s →
          ∃ a, printing_at s a) as Hall.
  { revert s. apply (reachable_invariant _ (λ s, ∃ a, printing_at s a)).
    - intros s Hs%demo_starts. destruct Hs as [Hs Hp]. eexists (Some (pending s)), (Spawn 0).
      split; [done|]. unfold bag. destruct (decide _); [done|]. by eexists.
    - intros s es s' [a Ha] [Hstep|[Hstep _]].
      + destruct (active_prints _ _ _ _ Hstep Ha) as (a' & _ & ?). by eexists.
      + eexists. by eapply spurious_prints. }
  intros (a & m & ? & _)%Hall. by exists m.
Qed.

Lemma demo_prints :
  refines (demo_lts message consumers producers items cap)
    (printing message consumers producers items).
Proof.
  apply (simulation_refines _ _ printing_at).
  - intros s [Hs Hp]%demo_starts. eexists. split; [done|]. exists (Spawn 0).
    split; [done|]. unfold bag. destruct (decide _); [done|]. eexists. by rewrite Hp.
  - intros s a es s' Ha [Hstep|[Hstep ->]]; [by eapply active_prints|].
    exists a. split; [constructor|]. by eapply spurious_prints.
Qed.

(** ** No deadlock *)

(** A thread with a step of its own. *)
Definition can_go (t : thread T) j : bool :=
  match t with
  | Awake _ _ _ | Signalling _ => true
  | Blocked _ _ => false
  | Idle => match j with Log _ | Pause => true | _ => bool_decide (is_Some (calls j)) end
  end.

Lemma signalling_delivers rb ts i sigs :
  ts !! i = Some (Signalling sigs) → ∃ z', delivers (mkSystem rb ts) z'.
Proof.
  intros Hi. destruct sigs as [|[c|c] sigs]; [eexists; by eapply deliver_return| |].
  - destruct (sleeper_dec c ts) as [(k & r & Hk)|Hnone]; eexists.
    + by eapply deliver_one.
    + by eapply deliver_none.
  - eexists. by eapply deliver_all.
Qed.

Lemma can_go_active m rb ts js i t j :
  demo_inv m rb ts js → ts !! i = Some t → js !! i = Some j → can_go t j = true →
  ∃ es s', active (mkState (mkSystem rb ts) js) es s'.
Proof.
  intros Hinv Ht Hj Hgo. pose proof (inv_repr _ _ (d_ring _ _ _ _ Hinv)) as Hwf. simpl in Hwf.
  destruct t as [|c r|c r to|sigs]; simpl in Hgo; [|done| |].
  - destruct (calls j) as [r|] eqn:Hcall.
    { destruct (critical_total rb r false Hwf) as (rb' & e & ? & _).
      eexists _, _. by eapply act_enter. }
    destruct j; try done.
    + pose proof (d_fits _ _ _ _ Hinv _ _ Hj) as Hfit. destruct i as [|c]; [done|].
      eexists _, _. by eapply act_log.
    + eexists _, _. by eapply act_wake.
  - destruct (critical_total rb r to Hwf) as (rb' & e & ? & _).
    eexists _, _. by eapply act_resume.
  - destruct (signalling_delivers rb ts i sigs Ht) as [z' Hz].
    eexists _, _. by eapply act_deliver.
Qed.

Definition stuck ts js : Prop :=
  ∀ i t j, ts !! i = Some t → js !! i = Some j → can_go t j = false.

(** The jobs of a stuck state. *)
Definition stuck_at rb j : Prop :=
  match j with
  | Main CloseBuffer | Log _ | Pause => False
  | Pop_ => closed_ rb = false ∧ size_ rb = 0
  | PushItem _ _ => closed_ rb = false ∧ 0 < size_ rb
  | _ => True
  end.

Lemma stuck_jobs m rb ts js i j :
  demo_inv m rb ts js → stuck ts js → js !! i = Some j →
  stuck_at rb j ∧ (calls j = None → ts !! i = Some Idle).
Proof.
  intros Hinv Hstuck Hj. pose proof (d_ring _ _ _ _ Hinv) as Hring.
  destruct (lookup_lt_is_Some_2 ts i) as [t Ht].
  { rewrite (d_threads _ _ _ _ Hinv), <-(d_jobs _ _ _ _ Hinv). by eapply lookup_lt_Some. }
  pose proof (Hstuck _ _ _ Ht Hj) as Hgo.
  assert (quiet (mkSystem rb ts)) as Hq.
  { intros k t1 Hk. simpl in Hk. destruct (lookup_lt_is_Some_2 js k) as [j1 Hj1].
    { rewrite (d_jobs _ _ _ _ Hinv), <-(d_threads _ _ _ _ Hinv). by eapply lookup_lt_Some. }
    specialize (Hstuck _ _ _ Hk Hj1). destruct t1; naive_solver. }
  destruct t as [|c r| |]; simpl in Hgo; [|clear Hgo|done|done].
  - split; [|done]. by destruct j as [[]| | | | | | |].
  - pose proof (d_inside _ _ _ _ Hinv _ _ _ _ Ht Hj eq_refl) as Hcall.
    split; [|congruence].
    destruct (quiet_sleeper _ _ _ _ _ Hring Hq Ht) as [Hcl Hav]. simpl in Hcl, Hav.
    destruct (inv_threads _ _ Hring _ _ Ht) as [Hcv _].
    pose proof (inv_params _ _ Hring) as [= Hp _]. simpl in Hp.
    destruct j as [[]| | | | | | |]; simplify_eq/=; split; done || lia.
Qed.

(** A consumer that is stuck, when the buffer is open or not empty. *)
Lemma stuck_full m rb ts js :
  demo_inv m rb ts js → stuck ts js → started m 0 = true → closed_ rb = false →
  0 < size_ rb → False.
Proof.
  intros Hinv Hstuck Hs Hcl Hz.
  destruct (lookup_lt_is_Some_2 js 1) as [j Hj]; [rewrite (d_jobs _ _ _ _ Hinv); lia|].
  pose proof (d_fits _ _ _ _ Hinv _ _ Hj) as Hfit. unfold job_fits in Hfit.
  rewrite (proj2 (Nat.ltb_lt 0 consumers)) in Hfit by done.
  destruct (stuck_jobs _ _ _ _ _ _ Hinv Hstuck Hj) as [Hat _].
  destruct j; simpl in Hfit, Hat; try done.
  - destruct Hfit. congruence.
  - lia.
  - apply list_elem_of_lookup_2 in Hj. destruct (d_exit _ _ _ _ Hinv Hj). congruence.
Qed.

Lemma stuck_spawn i rb ts js :
  demo_inv (Spawn i) rb ts js → (i < workers)%nat → ∃ j, js !! S i = Some (NotStarted j).
Proof.
  intros Hinv Hi. destruct (lookup_lt_is_Some_2 js (S i)) as [j Hj].
  { rewrite (d_jobs _ _ _ _ Hinv). lia. }
  pose proof (d_fits _ _ _ _ Hinv _ _ Hj) as Hfit.
  assert (started (Spawn i) i = false) as Hs by (apply Nat.ltb_ge; lia).
  unfold job_fits in Hfit. destruct (Nat.ltb_spec i consumers) as [Hc|Hc].
  - destruct j; simpl in Hfit; naive_solver congruence.
  - unfold producer_fits in Hfit. replace (consumers + (i - consumers))%nat with i in Hfit by lia.
    destruct j; naive_solver congruence.
Qed.

Lemma stuck_producer p rb ts js :
  demo_inv (JoinProducers p) rb ts js → stuck ts js → (p < producers)%nat →
  exited (mkState (mkSystem rb ts) js) (S (consumers + p)) ProducerExit.
Proof.
  intros Hinv Hstuck Hp. destruct (lookup_lt_is_Some_2 js (S (consumers + p))) as [j Hj].
  { rewrite (d_jobs _ _ _ _ Hinv). lia. }
  pose proof (d_fits _ _ _ _ Hinv _ _ Hj) as Hfit. unfold job_fits in Hfit.
  destruct (Nat.ltb_spec (consumers + p) consumers); [lia|].
  destruct (stuck_jobs _ _ _ _ _ _ Hinv Hstuck Hj) as [Hat Hidle].
  destruct j; simpl in Hfit, Hat; try done.
  - by destruct Hfit.
  - destruct Hat as [Hcl Hz]. exfalso. by eapply stuck_full.
  - split; [done|by apply Hidle].
Qed.

Lemma stuck_consumer c rb ts js :
  demo_inv (JoinConsumers c) rb ts js → stuck ts js → (c < consumers)%nat →
  exited (mkState (mkSystem rb ts) js) (S c) ConsumerExit.
Proof.
  intros Hinv Hstuck Hc. destruct (lookup_lt_is_Some_2 js (S c)) as [j Hj].
  { rewrite (d_jobs _ _ _ _ Hinv). lia. }
  pose proof (d_fits _ _ _ _ Hinv _ _ Hj) as Hfit. unfold job_fits in Hfit.
  rewrite (proj2 (Nat.ltb_lt c consumers)) in Hfit by done.
  destruct (stuck_jobs _ _ _ _ _ _ Hinv Hstuck Hj) as [Hat Hidle].
  pose proof (d_closed _ _ _ _ Hinv) as Hcl. simpl in Hcl.
  destruct j; simpl in Hfit, Hat; try naive_solver congruence.
  split; [done|by apply Hidle].
Qed.

(** [main] itself has a step when nobody else has. *)
Lemma stuck_main m rb ts js :
  demo_inv m rb ts js → stuck ts js → m ≠ Return_ →
  ∃ es s', active (mkState (mkSystem rb ts) js) es s'.
Proof.
  intros Hinv Hstuck Hm.
  destruct (lookup_lt_is_Some_2 js 0) as [j0 Hj]; [rewrite (d_jobs _ _ _ _ Hinv); lia|].
  pose proof (d_fits _ _ _ _ Hinv _ _ Hj) as E. simpl in E. subst j0.
  destruct (stuck_jobs _ _ _ _ _ _ Hinv Hstuck Hj) as [Hat Hidle].
  pose proof (d_within _ _ _ _ Hinv) as Hw.
  destruct m as [i|p| |c| |]; simpl in Hat, Hw; [..|done].
  - destruct (decide (i = workers)) as [->|Hne]; [eexists _, _; by eapply act_spawned|].
    destruct (stuck_spawn i rb ts js Hinv) as [j Hk]; [lia|].
    eexists _, _. by eapply act_spawn.
  - destruct (decide (p = producers)) as [->|Hne].
    + eexists _, _. by eapply act_joined_producers.
    + eexists _, _. eapply act_join_producer; [done|]. apply stuck_producer; [done..|lia].
  - done.
  - destruct (decide (c = consumers)) as [->|Hne].
    + eexists _, _. eapply act_joined_consumers; [done|by apply Hidle].
    + eexists _, _. eapply act_join_consumer; [done|by apply Hidle|].
      apply stuck_consumer; [done..|lia].
  - eexists _, _. by eapply act_report.
Qed.

(** Everything has ended: every thread is past its last call. *)
Definition finished s : Prop :=
  jobs s !! 0%nat = Some (Main Return_)
  ∧ ∀ i j, jobs s !! S i = Some j → j = ConsumerExit ∨ j = ProducerExit.

Lemma return_finished s : demo_at Return_ s → finished s.
Proof.
  intros Hinv. split.
  - destruct (lookup_lt_is_Some_2 (jobs s) 0) as [j0 Hj]; [rewrite (d_jobs _ _ _ _ Hinv); lia|].
    rewrite Hj. f_equal. exact (d_fits _ _ _ _ Hinv _ _ Hj).
  - intros i j Hj. pose proof (d_fits _ _ _ _ Hinv _ _ Hj) as Hfit. simpl in Hfit.
    case_match; destruct j; naive_solver.
Qed.

Lemma demo_progress m s : demo_at m s → finished s ∨ ∃ es s', active s es s'.
Proof.
  intros Hinv. destruct (decide (m = Return_)) as [->|Hm]; [left; by apply return_finished|].
  right. destruct s as [[rb ts] js]. unfold demo_at in Hinv. simpl in Hinv.
  destruct (decide (Exists (λ p, can_go p.1 p.2 = true) (zip ts js))) as [He|Hne].
  - apply Exists_exists in He as ([t j] & [i Hi]%list_elem_of_lookup & Hgo).
    apply lookup_zip_Some in Hi as [Ht Hj]. simpl in Hgo. by eapply can_go_active.
  - eapply stuck_main; [done| |done]. intros i t j Ht Hj.
    destruct (can_go t j) eqn:Hgo; [|done]. exfalso. apply Hne. apply Exists_exists.
    exists (t, j). split; [|done]. apply (list_elem_of_lookup_2 _ i). by apply lookup_zip_Some.
Qed.

(** ** A measure: every step of the program uses some of its work up *)

Definition crew : Z := 1 + Z.of_nat workers.

Definition signal_work (g : signal) : Z :=
  match g with NotifyOne _ => 3 | NotifyAll _ => 2 * crew + 1 end.
Definition thread_work (t : thread T) : Z :=
  match t with
  | Idle => 1 | Blocked _ _ => 0 | Awake _ _ _ => 2
  | Signalling sigs => 2 + sum_of signal_work sigs
  end.
Definition main_work m : Z :=
  match m with
  | Spawn i => 4 * crew + Z.of_nat consumers + Z.of_nat producers + 8 + Z.of_nat (workers - i)
  | JoinProducers p => 4 * crew + Z.of_nat consumers + 7 + Z.of_nat (producers - p)
  | CloseBuffer => 4 * crew + Z.of_nat consumers + 6
  | JoinConsumers c => 2 + Z.of_nat (consumers - c)
  | Report => 1
  | Return_ => 0
  end.
Fixpoint job_work j : Z :=
  match j with
  | Main m => main_work m
  | NotStarted j => job_work j
  | Pop_ => 2 | Log _ => 4 | Pause => 3
  | PushItem p k => 12 * Z.of_nat (items - k)
  | ConsumerExit | ProducerExit => 0
  end.
Definition work s : Z :=
  sum_of job_work (jobs s) + sum_of thread_work (threads (sys s)) + 7 * size_ (shared (sys s)).

(** The work at the start. *)
Definition budget : Z :=
  5 * crew + 4 * Z.of_nat consumers + 2 * Z.of_nat producers + 8 + 12 * total.

Lemma signal_work_nonneg g : 0 ≤ signal_work g.
Proof. destruct g; simpl; unfold crew; lia. Qed.
Lemma thread_work_nonneg t : 0 ≤ thread_work t.
Proof.
  destruct t as [| | |sigs]; simpl; try lia.
  pose proof (sum_of_nonneg signal_work sigs signal_work_nonneg). lia.
Qed.
Lemma job_work_nonneg j : 0 ≤ job_work j.
Proof. induction j as [[]| | | | | | |]; simpl; unfold crew; lia. Qed.

Lemma job_work_producer p k : job_work (producer p k) = 12 * Z.of_nat (items - k).
Proof. unfold RingDemo.producer. destruct (Nat.ltb_spec k items); simpl; lia. Qed.

Lemma wake_work c ts :
  sum_of thread_work (wake c <$> ts) ≤ sum_of thread_work ts + 2 * Z.of_nat (length ts).
Proof.
  induction ts as [|t ts IH]; csimpl; [lia|].
  assert (thread_work (wake c t) ≤ thread_work t + 2); [|lia].
  destruct t; simpl; try case_match; simpl; lia.
Qed.

Lemma delivers_work (z z' : system T) :
  delivers z z' → Z.of_nat (length (threads z)) = crew →
  shared z' = shared z
  ∧ sum_of thread_work (threads z') + 1 ≤ sum_of thread_work (threads z).
Proof.
  intros [i k c r sigs rb ts Hi Hk|i c sigs rb ts Hi Hnone|i c sigs rb ts Hi|i rb ts Hi] Hl;
    simpl in *; (split; [done|]).
  - assert (<[i := Signalling sigs]> ts !! k = Some (Blocked c r)) as Hk'.
    { rewrite list_lookup_insert_ne; [done|congruence]. }
    rewrite (sum_of_insert _ _ _ _ _ Hk'), (sum_of_insert _ _ _ _ _ Hi). simpl. lia.
  - rewrite (sum_of_insert _ _ _ _ _ Hi). simpl. lia.
  - pose proof (wake_work c (<[i := Signalling sigs]> ts)) as Hw.
    rewrite length_insert, (sum_of_insert _ _ _ _ _ Hi) in Hw. simpl in Hw. lia.
  - rewrite (sum_of_insert _ _ _ _ _ Hi). simpl. lia.
Qed.

(** A critical section entered or resumed by a thread with some work left. *)
Lemma section_work m rb ts js i j r rb' e t :
  demo_inv m rb ts js → js !! i = Some j → ts !! i = Some t → 1 ≤ thread_work t →
  acts rb j e rb' →
  work (mkState (mkSystem rb' (<[i := after r e]> ts)) (<[i := next_job j e]> js)) + 1
    ≤ work (mkState (mkSystem rb ts) js).
Proof.
  intros Hinv Hj Ht Hwt Hacts. unfold work. simpl.
  rewrite (sum_of_insert _ _ _ _ _ Hj), (sum_of_insert _ _ _ _ _ Ht).
  destruct Hacts as [j c|p k q rb' Hr Hr' _ _ _|x q rb' Hr Hr' _ _|Hz _|].
  - simpl. lia.
  - simpl. rewrite job_work_producer, (repr_size _ _ Hr), (repr_size _ _ Hr'), length_app. simpl.
    pose proof (d_fits _ _ _ _ Hinv _ _ Hj) as Hfit. destruct i as [|i]; [done|].
    simpl in Hfit. case_match; [done|]. destruct Hfit as (_ & Hk & _). lia.
  - simpl. rewrite (repr_size _ _ Hr), (repr_size _ _ Hr'). simpl. lia.
  - simpl. lia.
  - simpl. unfold crew in *. lia.
Qed.

Lemma job_only_work z js i j j' :
  js !! i = Some j → job_work j' + 1 ≤ job_work j →
  work (mkState z (<[i := j']> js)) + 1 ≤ work (mkState z js).
Proof. intros Hj Hle. unfold work. simpl. rewrite (sum_of_insert _ _ _ _ _ Hj). lia. Qed.

Lemma active_work m s es s' : demo_at m s → active s es s' → work s' + 1 ≤ work s.
Proof.
  intros Hinv Hstep. unfold demo_at in Hinv. inversion Hstep as
    [i j r rb rb' ts js e Hj Hcall Hi Hcr|i j c r to rb rb' ts js e Hj Hi Hcr|z z' js Hd
    |c x z js Hj Hi|i z js Hj|i j z js Hj Hk|z js Hj|p z js Hj Hx|z js Hj
    |c z js Hj Hi Hx|z js Hj Hi|z js Hj]; subst; simpl in Hinv.
  - eapply section_work; [done..|simpl; lia|by eapply section_acts].
  - eapply section_work; [done..|simpl; lia|].
    eapply section_acts; [done..| |done]. by eapply d_inside.
  - destruct (delivers_work _ _ Hd) as [E Hw].
    { rewrite (d_threads _ _ _ _ Hinv). unfold crew. lia. }
    unfold work. simpl. rewrite E. lia.
  - eapply job_only_work; [done|]. simpl. lia.
  - eapply job_only_work; [done|]. simpl. lia.
  - unfold work. simpl.
    assert (<[0%nat := Main (Spawn (S i))]> js !! S i = Some (NotStarted j)) as Hk'
      by (by rewrite list_lookup_insert_ne).
    rewrite (sum_of_insert _ _ _ _ _ Hk'), (sum_of_insert _ _ _ _ _ Hj). simpl.
    apply lookup_lt_Some in Hk. rewrite (d_jobs _ _ _ _ Hinv) in Hk. lia.
  - eapply job_only_work; [done|]. simpl. lia.
  - eapply job_only_work; [done|]. destruct Hx as [Hx _]. simpl in Hx.
    apply lookup_lt_Some in Hx. rewrite (d_jobs _ _ _ _ Hinv) in Hx. simpl. lia.
  - eapply job_only_work; [done|]. simpl. lia.
  - eapply job_only_work; [done|]. destruct Hx as [Hx _]. simpl in Hx.
    pose proof (d_fits _ _ _ _ Hinv _ _ Hx) as Hfit. simpl in Hfit.
    destruct (Nat.ltb_spec c consumers); [|done]. simpl. lia.
  - eapply job_only_work; [done|]. simpl. lia.
  - eapply job_only_work; [done|]. simpl. lia.
Qed.

Lemma spurious_work s s' : spurious s s' → work s' ≤ work s + 2.
Proof.
  intros [i c r rb ts js Hi]. unfold work. simpl.
  rewrite (sum_of_insert _ _ _ _ _ Hi). simpl. lia.
Qed.

Lemma budget_start s : demo_init consumers producers items cap s → work s = budget.
Proof.
  intros (Hm & Hts & Hjs).
  destruct (make_repr options _ ltac:(simpl; lia) Hm) as (Hr & _).
  unfold work. rewrite Hts, Hjs, (repr_size _ _ Hr), sum_of_replicate.
  unfold initial_jobs. simpl. rewrite sum_of_app, sum_of_replicate, sum_of_fmap.
  rewrite (sum_of_const _ _ (12 * Z.of_nat items)), length_seq.
  - simpl. unfold budget, crew, RingDemo.total. lia.
  - intros p. simpl. rewrite job_work_producer. lia.
Qed.

Lemma takes_work s a w s' m :
  demo_at m s → takes message consumers producers items s a w s' →
  (∃ m', demo_at m' s') ∧ work s' + Z.of_nat a ≤ work s + 2 * Z.of_nat w.
Proof.
  intros Hinv. induction 1 as [|a w es s' s'' _ [[m' Hm'] IH] Hstep|a w s' s'' _ [[m' Hm'] IH] Hstep].
  - split; [by exists m|lia].
  - split; [|pose proof (active_work _ _ _ _ Hm' Hstep); lia].
    destruct (active_prints s' es s'' (if decide (m' = Return_) then None else Some (pending s')))
      as (a' & _ & m'' & Hm'' & _); [done| |by exists m''].
    exists m'. split; [done|]. unfold bag. case_decide; [done|by eexists].
  - split; [|pose proof (spurious_work _ _ Hstep); lia].
    destruct (spurious_prints s' s'' (if decide (m' = Return_) then None else Some (pending s')))
      as (m'' & Hm'' & _); [done| |by exists m''].
    exists m'. split; [done|]. unfold bag. case_decide; [done|by eexists].
Qed.

Lemma work_nonneg m s : demo_at m s → 0 ≤ work s.
Proof.
  intros Hinv. destruct (inv_repr _ _ (d_ring _ _ _ _ Hinv)) as [q Hr]. simpl in Hr.
  unfold work. rewrite (repr_size _ _ Hr).
  pose proof (sum_of_nonneg job_work (jobs s) job_work_nonneg).
  pose proof (sum_of_nonneg thread_work (threads (sys s)) thread_work_nonneg). lia.
Qed.
End invariant.

(** ** Properties *)

Section properties.
Context {T : Type} (message : nat → nat → T) (consumers producers items : nat) (cap : Z).

(** C4: in every interleaving of [main], its consumers and its producers, with
    spurious wake-ups at any moment, the demo prints messages that were pushed,
    each at most once, and prints the statistics only after all of them: then
    every push and pop of a message is counted, nothing was refused or
    overwritten, and each consumer failed one pop, the one that ends it. *)
Theorem ring_demo_prints :
  0 < cap < two64 → (0 < consumers)%nat → Z.of_nat consumers < two64 →
  total producers items < two64 →
  refines (demo_lts message consumers producers items cap)
    (printing message consumers producers items).
Proof. intros. by apply demo_prints. Qed.

(** C5: the demo ends.  However its threads are scheduled, a run takes at most
    [budget] steps of its own and two more per spurious wake-up, and it never
    deadlocks: wherever it is, a thread has a step to take, until all have
    left their functions. *)
Theorem ring_demo_ends s0 a w s :
  0 < cap < two64 → (0 < consumers)%nat → Z.of_nat consumers < two64 →
  total producers items < two64 →
  demo_init consumers producers items cap s0 →
  takes message consumers producers items s0 a w s →
  Z.of_nat a ≤ budget consumers producers items + 2 * Z.of_nat w
  ∧ (finished s ∨ ∃ es s', active message consumers producers items s es s').
Proof.
  intros Hcap Hc Hfew Htot H0 Htakes.
  assert (demo_at message consumers producers items cap (Spawn 0) s0) as Hinv
    by (by eapply demo_starts).
  assert (work consumers producers items s0 = budget consumers producers items) as <-
    by (by eapply budget_start).
  assert ((∃ m, demo_at message consumers producers items cap m s)
    ∧ work consumers producers items s + Z.of_nat a
        ≤ work consumers producers items s0 + 2 * Z.of_nat w) as [[m Hm] Hw]
    by (by eapply takes_work).
  assert (0 ≤ work consumers producers items s) by (by eapply work_nonneg).
  split; [lia|]. by eapply demo_progress.
Qed.
End properties.

(** ** Witnesses *)

Definition demo_start : state string :=
  mkState (mkSystem (mkRingBuffer [blank; blank; blank; blank] 4 Reject 0 0 0 false zero_stats)
                    (replicate 6 Idle))
          (initial_jobs 2 3 4).

Lemma ring_demo_prints_witness : refines ring_demo (printing demo_message 2 3 4).
Proof. apply (ring_demo_prints demo_message 2 3 4 4); unfold two64, total; simpl; lia. Defined.

(** The first step of the demo: [main] starts the first consumer. *)
Lemma ring_demo_ends_witness :
  ∃ s, takes demo_message 2 3 4 demo_start 1 0 s
    ∧ 1 ≤ 196
    ∧ (finished s ∨ ∃ es s', active demo_message 2 3 4 s es s').
Proof.
  assert (takes demo_message 2 3 4 demo_start 1 0
    (mkState (sys demo_start)
       (<[1%nat := Pop_]> (<[0%nat := Main (Spawn 1)]> (initial_jobs 2 3 4))))) as Htakes.
  { eapply takes_active; [constructor|]. by apply (act_spawn _ _ _ _ 0). }
  eexists. split; [exact Htakes|].
  apply (ring_demo_ends demo_message 2 3 4 4 demo_start 1 0);
    [unfold two64; simpl; lia|lia|unfold two64; simpl; lia|unfold two64, total; simpl; lia| |done].
  split_and!; reflexivity.
Defined.
