(* ===== verification/LockFreeQueue.v ===== *)
(** * lock_free_queue: the bounded multi-producer multi-consumer queue

    [foundation::LockFreeQueue<T>] (lock_free_queue/include/lock_free_queue.hpp),
    one atomic access at a time.  A thread inside a call is a program counter
    [pc]; [thread_step] executes its next access on the shared state, and the
    transition system [lfq_lts] interleaves any number of threads.  Atomics are
    taken as sequentially consistent (the relaxed positions are only tickets
    confirmed by compare-and-swap); LockFreeWeak.v does without that.  The specification is a bounded
    first-in first-out queue that may also refuse while one call of another
    thread, which it names, has not returned: the code does so, and is not
    linearizable.  64-bit positions are kept at their width, and the theorems cover the runs in which the enqueue position stays below
    [2^63 - capacity], where the source's signed differences are exact. *)

From S2P Require Import Prelude.
Open Scope Z_scope.

Record Cell (T : Type) := mkCell {
  sequence : Z;
  storage : option T;
}.
Arguments mkCell {T}.
Arguments sequence {T}.
Arguments storage {T}.
#[export] Instance eta_Cell {T} : Eta (Cell T) := λ c, mkCell (sequence c) (storage c).

Record Queue (T : Type) := mkQueue {
  buffer_ : list (Cell T);
  capacity_ : Z;
  enqueue_pos_ : Z;
  dequeue_pos_ : Z;
  closed_ : bool;
  pushes_ : Z;
  pops_ : Z;
  failed_pushes_ : Z;
  failed_pops_ : Z;
  closed_pushes_ : Z;
}.
Arguments mkQueue {T}.
Arguments buffer_ {T}.
Arguments capacity_ {T}.
Arguments enqueue_pos_ {T}.
Arguments dequeue_pos_ {T}.
Arguments closed_ {T}.
Arguments pushes_ {T}.
Arguments pops_ {T}.
Arguments failed_pushes_ {T}.
Arguments failed_pops_ {T}.
Arguments closed_pushes_ {T}.
#[export] Instance eta_Queue {T} : Eta (Queue T) := λ q,
  mkQueue (buffer_ q) (capacity_ q) (enqueue_pos_ q) (dequeue_pos_ q) (closed_ q)
    (pushes_ q) (pops_ q) (failed_pushes_ q) (failed_pops_ q) (closed_pushes_ q).

Record LockFreeQueueStats := mkStats {
  pushes : Z;
  pops : Z;
  failed_pushes : Z;
  failed_pops : Z;
  closed_pushes : Z;
}.

(** Result of a call of [tryPush] or [tryPop]. *)
Inductive result (T : Type) := RPush (b : bool) | RPop (o : option T).
Arguments RPush {T} b.
Arguments RPop {T} o.

(** Where a thread stands: the access it performs next, with its locals. *)
Inductive pc (T : Type) :=
  | Ready
  | PushStart (v : T)             (* load closed_ *)
  | PushRefused                   (* ++closed_pushes_ *)
  | PushLoad (v : T)              (* load enqueue_pos_ *)
  | PushSeq (v : T) (pos : Z)     (* load sequence of the cell of pos *)
  | PushCas (v : T) (pos : Z)     (* compare_exchange_weak enqueue_pos_ *)
  | PushWrite (v : T) (pos : Z)   (* construct the value in the cell *)
  | PushPublish (v : T) (pos : Z) (* store sequence = pos + 1 *)
  | PushCount                     (* ++pushes_ *)
  | PushFailed                    (* ++failed_pushes_ *)
  | PopLoad                       (* load dequeue_pos_ *)
  | PopSeq (pos : Z)
  | PopCas (pos : Z)
  | PopRead (pos : Z)             (* move the value out and destroy it *)
  | PopRelease (v : T) (pos : Z)  (* store sequence = pos + capacity_ *)
  | PopCount (v : T)              (* ++pops_ *)
  | PopFailed                     (* ++failed_pops_ *)
  | Returned (r : result T).
Arguments Ready {T}.
Arguments PushStart {T} v.
Arguments PushRefused {T}.
Arguments PushLoad {T} v.
Arguments PushSeq {T} v pos.
Arguments PushCas {T} v pos.
Arguments PushWrite {T} v pos.
Arguments PushPublish {T} v pos.
Arguments PushCount {T}.
Arguments PushFailed {T}.
Arguments PopLoad {T}.
Arguments PopSeq {T} pos.
Arguments PopCas {T} pos.
Arguments PopRead {T} pos.
Arguments PopRelease {T} v pos.
Arguments PopCount {T} v.
Arguments PopFailed {T}.
Arguments Returned {T} r.

(** Events of a run: the points at which calls take effect, and returns. *)
Inductive event (T : Type) :=
  | Enq (i : nat) (v : T)       (* ticket taken by a producer *)
  | Deq (i : nat) (v : T)       (* ticket taken by a consumer *)
  | Full (i : nat)              (* a producer sees no free cell *)
  | Empty (i : nat)             (* a consumer sees no element *)
  | Refused (i : nat)           (* a producer sees the queue closed *)
  | Closed (i : nat)
  | Ret (i : nat) (r : result T).
Arguments Enq {T} i v.
Arguments Deq {T} i v.
Arguments Full {T} i.
Arguments Empty {T} i.
Arguments Refused {T} i.
Arguments Closed {T} i.
Arguments Ret {T} i r.

Section operations.
Context {T : Type}.
Implicit Types (q : Queue T) (v : T).

Definition make (capacity : Z) : outcome (Queue T) :=
  if capacity =? 0
  then Throws (InvalidArgument "LockFreeQueue capacity must be greater than 0")
  else Returns (mkQueue ((λ i, mkCell (Z.of_nat i) None) <$> seq 0 (Z.to_nat capacity))
                 capacity 0 0 false 0 0 0 0 0).

(** The cell of a position, [buffer_[pos % capacity_]]. *)
Definition index q (pos : Z) : nat := Z.to_nat (pos mod capacity_ q).
Definition cell q (pos : Z) : option (Cell T) := buffer_ q !! index q pos.
Definition set_cell q (pos : Z) (c : Cell T) : Queue T :=
  q <| buffer_ := <[index q pos := c]> (buffer_ q) |>.

(** [static_cast<ptrdiff_t>(seq) - static_cast<ptrdiff_t>(pos)]. *)
Definition diff (seq pos : Z) : Z := to_signed64 seq - to_signed64 pos.

(** The next access of thread [i].  [spurious] lets a weak compare-and-swap
    fail although the values agree.  [None]: the call would read storage that
    holds no object. *)
Definition thread_step (i : nat) (spurious : bool) q (p : pc T)
    : option (Queue T * pc T * list (event T)) :=
  match p with
  | Ready => None
  | PushStart v =>
      if closed_ q then Some (q, PushRefused, [Refused i])
      else Some (q, PushLoad v, [])
  | PushRefused => Some (q <| closed_pushes_ ::= λ n, n ⊕ 1 |>, PushFailed, [])
  | PushLoad v => Some (q, PushSeq v (enqueue_pos_ q), [])
  | PushSeq v pos =>
      c ← cell q pos;
      let d := diff (sequence c) pos in
      if d =? 0 then Some (q, PushCas v pos, [])
      else if d <? 0 then Some (q, PushFailed, [Full i])
      else Some (q, PushLoad v, [])
  | PushCas v pos =>
      if (enqueue_pos_ q =? pos) && negb spurious
      then Some (q <| enqueue_pos_ := pos ⊕ 1 |>, PushWrite v pos, [Enq i v])
      else Some (q, PushSeq v (enqueue_pos_ q), [])
  | PushWrite v pos =>
      c ← cell q pos;
      Some (set_cell q pos (c <| storage := Some v |>), PushPublish v pos, [])
  | PushPublish v pos =>
      c ← cell q pos;
      Some (set_cell q pos (c <| sequence := pos ⊕ 1 |>), PushCount, [])
  | PushCount => Some (q <| pushes_ ::= λ n, n ⊕ 1 |>, Returned (RPush true), [])
  | PushFailed =>
      Some (q <| failed_pushes_ ::= λ n, n ⊕ 1 |>, Returned (RPush false), [])
  | PopLoad => Some (q, PopSeq (dequeue_pos_ q), [])
  | PopSeq pos =>
      c ← cell q pos;
      let d := diff (sequence c) (pos ⊕ 1) in
      if d =? 0 then Some (q, PopCas pos, [])
      else if d <? 0 then Some (q, PopFailed, [Empty i])
      else Some (q, PopLoad, [])
  | PopCas pos =>
      if (dequeue_pos_ q =? pos) && negb spurious
      then c ← cell q pos;
           Some (q <| dequeue_pos_ := pos ⊕ 1 |>, PopRead pos,
                 match storage c with Some v => [Deq i v] | None => [] end)
      else Some (q, PopSeq (dequeue_pos_ q), [])
  | PopRead pos =>
      c ← cell q pos;
      v ← storage c;
      Some (set_cell q pos (c <| storage := None |>), PopRelease v pos, [])
  | PopRelease v pos =>
      c ← cell q pos;
      Some (set_cell q pos (c <| sequence := pos ⊕ capacity_ q |>), PopCount v, [])
  | PopCount v => Some (q <| pops_ ::= λ n, n ⊕ 1 |>, Returned (RPop (Some v)), [])
  | PopFailed => Some (q <| failed_pops_ ::= λ n, n ⊕ 1 |>, Returned (RPop None), [])
  | Returned r => Some (q, Ready, [Ret i r])
  end.

Definition close q : Queue T := q <| closed_ := true |>.
Definition isClosed q : bool := closed_ q.
Definition capacity q : Z := capacity_ q.

(** [approximateSize] of two positions loaded one after the other. *)
Definition approximateSize (capacity enqueued dequeued : Z) : Z :=
  if enqueued <? dequeued then 0 else Z.min (enqueued ⊖ dequeued) capacity.

Definition empty q : bool :=
  approximateSize (capacity_ q) (enqueue_pos_ q) (dequeue_pos_ q) =? 0.
Definition full q : bool :=
  approximateSize (capacity_ q) (enqueue_pos_ q) (dequeue_pos_ q) =? capacity_ q.

Definition stats q : LockFreeQueueStats :=
  mkStats (pushes_ q) (pops_ q) (failed_pushes_ q) (failed_pops_ q) (closed_pushes_ q).

(** A call executed without interference, with at most [fuel] accesses. *)
Fixpoint solo (fuel : nat) q (p : pc T) : option (Queue T * result T) :=
  match p, fuel with
  | Returned r, _ => Some (q, r)
  | _, O => None
  | _, S fuel => '(q, p, _) ← thread_step 0 false q p; solo fuel q p
  end.

Definition tryPush (fuel : nat) q v : option (Queue T * result T) :=
  solo fuel q (PushStart v).
Definition tryPop (fuel : nat) q : option (Queue T * result T) :=
  solo fuel q PopLoad.

(** The destructor: [tryPop] until it fails. *)
Fixpoint destroy (rounds fuel : nat) q : option (Queue T) :=
  match rounds with
  | O => None
  | S rounds =>
      '(q, r) ← tryPop fuel q;
      match r with
      | RPop (Some _) => destroy rounds fuel q
      | _ => Some q
      end
  end.

(** ** The system of threads *)

Record system := mkSystem {
  queue : Queue T;
  threads : list (pc T);
}.

Inductive lfq_step : system → list (event T) → system → Prop :=
  | step_thread i spurious q p q' p' es ts :
      ts !! i = Some p → thread_step i spurious q p = Some (q', p', es) →
      lfq_step (mkSystem q ts) es (mkSystem q' (<[i := p']> ts))
  | step_call_push i v q ts :
      ts !! i = Some Ready →
      lfq_step (mkSystem q ts) [] (mkSystem q (<[i := PushStart v]> ts))
  | step_call_pop i q ts :
      ts !! i = Some Ready →
      lfq_step (mkSystem q ts) [] (mkSystem q (<[i := PopLoad]> ts))
  | step_close i q ts :
      ts !! i = Some Ready →
      lfq_step (mkSystem q ts) [Closed i] (mkSystem (close q) ts).

Definition lfq_init (cap : Z) (s : system) : Prop :=
  make cap = Returns (queue s) ∧ Forall (λ p, p = Ready) (threads s).

(** Runs whose enqueue position keeps clear of the sign bit. *)
Definition in_range (s : system) : Prop :=
  enqueue_pos_ (queue s) + capacity_ (queue s) < two63.

Definition lfq_lts (cap : Z) : lts system (event T) :=
  Lts (lfq_init cap) (λ s es s', lfq_step s es s' ∧ in_range s').
End operations.
Arguments system T : clear implicits.

(** ** Abstract queue: accepted calls take effect atomically, then return

    A push that is accepted and a pop that finds an element act at one point,
    in FIFO order.  The answers [full] and [empty] depend on more than the
    elements: an element can be popped only once the push that brought it has
    progressed, and its place can be filled again only once the pop that took
    it has.  The specification says exactly whose delay is excused: a queue
    that is not empty may answer [empty] while the push of its {e first}
    element has not returned, and one that is not full may answer [full] while
    the pop of the element [cap] places before the next one has not.  The code
    is therefore not linearizable to a bounded FIFO queue
    ([lfq_not_linearizable]). *)

(** A call whose effect has taken place and which has not returned: it brings
    the [k]-th element of the queue's life, it has taken the [k]-th element
    [v], or it has been given its answer. *)
Inductive call (T : Type) :=
  | Pushing (k : Z)
  | Popping (k : Z) (v : T)
  | Answered (r : result T).
Arguments Pushing {T} k.
Arguments Popping {T} k v.
Arguments Answered {T} r.

Definition answer {T} (c : call T) : result T :=
  match c with
  | Pushing _ => RPush true
  | Popping _ v => RPop (Some v)
  | Answered r => r
  end.

Record lqueue (T : Type) := mkLqueue {
  items : list T;
  lclosed : bool;
  taken : Z;                        (* elements popped so far *)
  inflight : gmap nat (call T);
}.
Arguments mkLqueue {T}.
Arguments items {T}.
Arguments lclosed {T}.
Arguments taken {T}.
Arguments inflight {T}.

Section spec.
Context {T : Type} (cap : Z).
Implicit Types (a : lqueue T).

Inductive spec_step : lqueue T → list (event T) → lqueue T → Prop :=
  | spec_enq i v l c n f :
      f !! i = None → Z.of_nat (length l) < cap →
      spec_step (mkLqueue l c n f) [Enq i v]
        (mkLqueue (l ++ [v]) c n (<[i := Pushing (n + Z.of_nat (length l))]> f))
  | spec_deq i v l c n f :
      f !! i = None →
      spec_step (mkLqueue (v :: l) c n f) [Deq i v]
        (mkLqueue l c (n + 1) (<[i := Popping n v]> f))
  | spec_full i l c n f :
      f !! i = None →
      Z.of_nat (length l) = cap
        ∨ (∃ j v, f !! j = Some (Popping (n + Z.of_nat (length l) - cap) v)) →
      spec_step (mkLqueue l c n f) [Full i]
        (mkLqueue l c n (<[i := Answered (RPush false)]> f))
  | spec_empty i l c n f :
      f !! i = None → l = [] ∨ (∃ j, f !! j = Some (Pushing n)) →
      spec_step (mkLqueue l c n f) [Empty i]
        (mkLqueue l c n (<[i := Answered (RPop None)]> f))
  | spec_refused i l n f :
      f !! i = None →
      spec_step (mkLqueue l true n f) [Refused i]
        (mkLqueue l true n (<[i := Answered (RPush false)]> f))
  | spec_closed i l c n f :
      f !! i = None →
      spec_step (mkLqueue l c n f) [Closed i] (mkLqueue l true n f)
  | spec_ret i k l c n f :
      f !! i = Some k →
      spec_step (mkLqueue l c n f) [Ret i (answer k)] (mkLqueue l c n (delete i f)).

Definition lqueue_lts : lts (lqueue T) (event T) :=
  Lts (λ a, a = mkLqueue [] false 0 ∅) spec_step.
End spec.

(** ** Simulation relation *)

(** The life cycle of a cell: free for position [p], being filled for [p] by
    thread [i] ([b]: value constructed), holding the element of [p], being
    emptied by thread [i] ([b]: value moved out). *)
Inductive slot (T : Type) :=
  | Free (p : Z)
  | Writing (p : Z) (i : nat) (v : T) (b : bool)
  | Avail (p : Z) (v : T)
  | Reading (p : Z) (i : nat) (v : T) (b : bool).
Arguments Free {T} p.
Arguments Writing {T} p i v b.
Arguments Avail {T} p v.
Arguments Reading {T} p i v b.

Section relation.
Context {T : Type} (cap : Z).
Implicit Types (q : Queue T) (g : list (slot T)) (st : slot T) (ts : list (pc T)).

Definition slot_pos st : Z :=
  match st with Free p | Writing p _ _ _ | Avail p _ | Reading p _ _ _ => p end.

Definition slot_cell st : Cell T :=
  match st with
  | Free p => mkCell p None
  | Writing p _ v b => mkCell p (if b then Some v else None)
  | Avail p v => mkCell (p + 1) (Some v)
  | Reading p _ v b => mkCell (p + 1) (if b then None else Some v)
  end.

(** Where positions lie relative to the enqueue and dequeue tickets. *)
Definition slot_range (E D : Z) st : Prop :=
  match st with
  | Free p => E ≤ p < D + cap
  | Writing p _ _ _ | Avail p _ => D ≤ p < E
  | Reading p _ _ _ => E - cap ≤ p < D ∧ 0 ≤ p
  end.

Definition slot_owner ts st : Prop :=
  match st with
  | Writing p i v b => ts !! i = Some (if b then PushPublish v p else PushWrite v p)
  | Reading p i v b => ts !! i = Some (if b then PopRelease v p else PopRead p)
  | _ => True
  end.

Definition slot_value st : option T :=
  match st with Writing _ _ v _ | Avail _ v => Some v | _ => None end.

Definition gat g (p : Z) : option (slot T) := g !! Z.to_nat (p mod cap).

(** What a thread knows; [f] is its call if it has taken effect. *)
Definition thread_ok (E D : Z) g (f : option (call T)) (i : nat) (p : pc T) : Prop :=
  match p with
  | Ready | PushStart _ | PushLoad _ | PopLoad => f = None
  | PushRefused | PushFailed => f = Some (Answered (RPush false))
  | PushSeq _ pos => f = None ∧ 0 ≤ pos ≤ E
  | PushCas _ pos => f = None ∧ 0 ≤ pos ≤ E ∧ (pos < E ∨ gat g pos = Some (Free pos))
  | PushWrite v pos => f = Some (Pushing pos) ∧ gat g pos = Some (Writing pos i v false)
  | PushPublish v pos => f = Some (Pushing pos) ∧ gat g pos = Some (Writing pos i v true)
  | PushCount => ∃ k, f = Some (Pushing k)
  | PopSeq pos => f = None ∧ 0 ≤ pos ≤ D
  | PopCas pos => f = None ∧ 0 ≤ pos ≤ D ∧ (pos < D ∨ ∃ v, gat g pos = Some (Avail pos v))
  | PopRead pos => ∃ v, f = Some (Popping pos v) ∧ gat g pos = Some (Reading pos i v false)
  | PopRelease v pos =>
      f = Some (Popping pos v) ∧ gat g pos = Some (Reading pos i v true)
  | PopCount v => ∃ k, f = Some (Popping k v)
  | PopFailed => f = Some (Answered (RPop None))
  | Returned r => ∃ c, f = Some c ∧ answer c = r
  end.

Record rel (s : system T) (a : lqueue T) g : Prop := {
  r_cap : 2 ≤ cap;
  r_capacity : capacity_ (queue s) = cap;
  r_glength : Z.of_nat (length g) = cap;
  r_length : length (buffer_ (queue s)) = length g;
  r_pos : 0 ≤ dequeue_pos_ (queue s) ≤ enqueue_pos_ (queue s);
  r_size : enqueue_pos_ (queue s) - dequeue_pos_ (queue s) ≤ cap;
  r_bound : enqueue_pos_ (queue s) + cap < two63;
  r_items : Z.of_nat (length (items a)) = enqueue_pos_ (queue s) - dequeue_pos_ (queue s);
  r_value k v : items a !! k = Some v →
    gat g (dequeue_pos_ (queue s) + Z.of_nat k) ≫= slot_value = Some v;
  r_closed : lclosed a = closed_ (queue s);
  r_slots j st : g !! j = Some st →
    Z.to_nat (slot_pos st mod cap) = j
    ∧ slot_range (enqueue_pos_ (queue s)) (dequeue_pos_ (queue s)) st
    ∧ buffer_ (queue s) !! j = Some (slot_cell st)
    ∧ slot_owner (threads s) st;
  r_threads i p : threads s !! i = Some p →
    thread_ok (enqueue_pos_ (queue s)) (dequeue_pos_ (queue s)) g (inflight a !! i) i p;
  r_taken : taken a = dequeue_pos_ (queue s);
}.
End relation.

Section simulation.
Context {T : Type} (cap : Z).
Implicit Types (q : Queue T) (g : list (slot T)) (st : slot T) (ts : list (pc T))
  (s : system T) (a : lqueue T).

(** The position a thread has claimed and works on. *)
Definition claim (p : pc T) : option Z :=
  match p with
  | PushWrite _ pos | PushPublish _ pos | PopRead pos | PopRelease _ pos => Some pos
  | _ => None
  end.

Definition owner st : option nat :=
  match st with Writing _ i _ _ | Reading _ i _ _ => Some i | _ => None end.

Lemma slot_index_lt p : 2 ≤ cap → 0 ≤ p mod cap < cap.
Proof. intros. apply Z.mod_pos_bound. lia. Qed.

Lemma gat_is_some s a g p : rel cap s a g → ∃ st, gat cap g p = Some st.
Proof.
  intros H. apply lookup_lt_is_Some_2. pose proof (r_glength _ _ _ _ H).
  pose proof (slot_index_lt p (r_cap _ _ _ _ H)). lia.
Qed.

Lemma gat_slot s a g p st :
  rel cap s a g → gat cap g p = Some st →
  slot_pos st mod cap = p mod cap
  ∧ slot_range cap (enqueue_pos_ (queue s)) (dequeue_pos_ (queue s)) st
  ∧ cell (queue s) p = Some (slot_cell st)
  ∧ slot_owner (threads s) st.
Proof.
  intros H Hg. destruct (r_slots _ _ _ _ H _ _ Hg) as (Hj & Hr & Hb & Ho).
  pose proof (slot_index_lt p (r_cap _ _ _ _ H)).
  pose proof (slot_index_lt (slot_pos st) (r_cap _ _ _ _ H)).
  split_and!; [lia|done| |done].
  unfold cell, index. by rewrite (r_capacity _ _ _ _ H).
Qed.

Lemma gat_insert g p p' st :
  2 ≤ cap → Z.of_nat (length g) = cap →
  gat cap (<[Z.to_nat (p mod cap) := st]> g) p'
  = if decide (p' mod cap = p mod cap) then Some st else gat cap g p'.
Proof.
  intros Hc Hl. unfold gat. pose proof (slot_index_lt p Hc). pose proof (slot_index_lt p' Hc).
  case_decide as Heq.
  - rewrite Heq. apply list_lookup_insert_eq. lia.
  - apply list_lookup_insert_ne. lia.
Qed.

(** A thread that works on a position owns that slot and no other. *)
Lemma owner_claim ts st i :
  slot_owner ts st → owner st = Some i →
  ∃ p, ts !! i = Some p ∧ claim p = Some (slot_pos st).
Proof. destruct st as [|p j v []| |p j v []]; simpl; intros; simplify_eq; eauto. Qed.

Lemma slot_owner_insert ts i p' st :
  slot_owner ts st → owner st ≠ Some i → slot_owner (<[i:=p']> ts) st.
Proof.
  destruct st; simpl; try done; intros ? ?;
    (rewrite list_lookup_insert_ne; [done|congruence]).
Qed.

(** Thread [i] moves without touching cells or tickets. *)
Lemma rel_local q q' ts a g i p p' c' f' :
  rel cap (mkSystem q ts) a g → ts !! i = Some p → claim p = None →
  buffer_ q' = buffer_ q → capacity_ q' = capacity_ q →
  enqueue_pos_ q' = enqueue_pos_ q → dequeue_pos_ q' = dequeue_pos_ q →
  closed_ q' = c' →
  (∀ j, j ≠ i → f' !! j = inflight a !! j) →
  thread_ok cap (enqueue_pos_ q) (dequeue_pos_ q) g (f' !! i) i p' →
  rel cap (mkSystem q' (<[i:=p']> ts)) (mkLqueue (items a) c' (taken a) f') g.
Proof.
  intros H Hi Hp Hb Hc He Hd Hcl Hf Hok.
  destruct H as [H1 H2 H3 H4 H5 Hsz H6 H7 H8 H9 H10 H11 H12]; simpl in *.
  split; simpl; rewrite ?Hb, ?Hc, ?He, ?Hd; try done.
  - intros j st Hj. destruct (H10 j st Hj) as (? & ? & ? & Ho). split_and!; try done.
    apply slot_owner_insert; [done|]. intros Hw.
    destruct (owner_claim _ _ _ Ho Hw) as (? & ? & ?). congruence.
  - intros j p1. destruct (decide (j = i)) as [->|Hne].
    + rewrite list_lookup_insert_eq by (by eapply lookup_lt_Some). by intros [= <-].
    + rewrite list_lookup_insert_ne by done. rewrite Hf by done. apply H11.
Qed.

(** The slots that hold other positions than the ticket taken keep their place
    in the window. *)
Lemma slot_range_step E D E' D' pos st :
  0 < cap → (E' = E ∨ E' = E + 1 ∧ pos = E) → (D' = D ∨ D' = D + 1 ∧ pos = D) →
  slot_pos st mod cap ≠ pos mod cap →
  slot_range cap E D st → slot_range cap E' D' st.
Proof.
  intros Hc HE HD Hdiff. destruct st as [p0|p0 j0 v0 b0|p0 v0|p0 j0 v0 b0]; simpl in *; intros Hr.
  - destruct HE as [->|[-> ->]]; [lia|]. assert (p0 ≠ E) by congruence. lia.
  - destruct HD as [->|[-> ->]]; [lia|]. assert (p0 ≠ D) by congruence. lia.
  - destruct HD as [->|[-> ->]]; [lia|]. assert (p0 ≠ D) by congruence. lia.
  - destruct HE as [->|[-> ->]]; [lia|]. assert (p0 ≠ E - cap); [|lia].
    intros ->. apply Hdiff. rewrite <-(mod_add_lap _ cap) by lia. f_equal. lia.
Qed.

(** What the other threads know survives a change of the slot of [pos], which
    belongs to thread [i] or to nobody. *)
Lemma thread_ok_step E D E' D' g pos i j st0 st1 f p :
  2 ≤ cap → Z.of_nat (length g) = cap → E ≤ E' → D ≤ D' → j ≠ i →
  gat cap g pos = Some st0 → (owner st0 = None ∨ owner st0 = Some i) →
  (∀ p0, st0 = Free p0 → p0 < E') → (∀ p0 v, st0 = Avail p0 v → p0 < D') →
  thread_ok cap E D g f j p →
  thread_ok cap E' D' (<[Z.to_nat (pos mod cap) := st1]> g) f j p.
Proof.
  intros Hc Hl HE HD Hne Hg0 Hown Hfree Havail Hok.
  assert (∀ pos' st, gat cap g pos' = Some st → owner st = Some j →
    gat cap (<[Z.to_nat (pos mod cap):=st1]> g) pos' = Some st) as Hkeep.
  { intros pos' st Hg' Hst. rewrite gat_insert by done. case_decide as Heq; [|done].
    unfold gat in *. rewrite Heq, Hg0 in Hg'. destruct Hown; congruence. }
  destruct p; simpl in *; try done.
  - destruct Hok as (? & ?). split; [done|lia].
  - destruct Hok as (? & ? & Hor). split_and!; [done|lia..|].
    destruct Hor as [?|Hg']; [left; lia|].
    rewrite gat_insert by done. case_decide as Heq; [|by right].
    left. unfold gat in *. rewrite Heq, Hg0 in Hg'. simplify_eq. by apply Hfree.
  - destruct Hok as (? & ?). split; [done|by apply Hkeep].
  - destruct Hok as (? & ?). split; [done|by apply Hkeep].
  - destruct Hok as (? & ?). split; [done|lia].
  - destruct Hok as (? & ? & Hor). split_and!; [done|lia..|].
    destruct Hor as [?|[v Hg']]; [left; lia|].
    rewrite gat_insert by done. case_decide as Heq; [|right; by exists v].
    left. unfold gat in *. rewrite Heq, Hg0 in Hg'. simplify_eq. by eapply Havail.
  - destruct Hok as (v & ? & ?). exists v. split; [done|]. by apply Hkeep.
  - destruct Hok as (? & ?). split; [done|by apply Hkeep].
Qed.

(** Thread [i] moves the cell of [pos] from [st0] to [st1], and perhaps takes
    the enqueue or the dequeue ticket [pos]. *)
Lemma rel_slot q q' ts a g i p p' pos st0 st1 l' n' f' :
  rel cap (mkSystem q ts) a g → ts !! i = Some p → (claim p = None ∨ claim p = Some pos) →
  gat cap g pos = Some st0 →
  (owner st0 = None ∨ owner st0 = Some i) →
  buffer_ q' = <[index q pos := slot_cell st1]> (buffer_ q) →
  capacity_ q' = cap → closed_ q' = closed_ q →
  (enqueue_pos_ q' = enqueue_pos_ q ∨
    enqueue_pos_ q' = enqueue_pos_ q + 1 ∧ pos = enqueue_pos_ q) →
  (dequeue_pos_ q' = dequeue_pos_ q ∨
    dequeue_pos_ q' = dequeue_pos_ q + 1 ∧ pos = dequeue_pos_ q) →
  0 ≤ enqueue_pos_ q' - dequeue_pos_ q' ≤ cap → enqueue_pos_ q' + cap < two63 →
  (∀ p0, st0 = Free p0 → p0 < enqueue_pos_ q') →
  (∀ p0 v, st0 = Avail p0 v → p0 < dequeue_pos_ q') →
  slot_pos st1 mod cap = pos mod cap →
  slot_range cap (enqueue_pos_ q') (dequeue_pos_ q') st1 →
  slot_owner (<[i:=p']> ts) st1 →
  (∀ j, j ≠ i → f' !! j = inflight a !! j) →
  thread_ok cap (enqueue_pos_ q') (dequeue_pos_ q')
    (<[Z.to_nat (pos mod cap) := st1]> g) (f' !! i) i p' →
  Z.of_nat (length l') = enqueue_pos_ q' - dequeue_pos_ q' → n' = dequeue_pos_ q' →
  (∀ k v, l' !! k = Some v →
    gat cap (<[Z.to_nat (pos mod cap) := st1]> g) (dequeue_pos_ q' + Z.of_nat k)
      ≫= slot_value = Some v) →
  rel cap (mkSystem q' (<[i:=p']> ts)) (mkLqueue l' (lclosed a) n' f')
    (<[Z.to_nat (pos mod cap) := st1]> g).
Proof.
  intros H Hi Hp Hg0 Hown Hb Hc Hcl He Hd Hle Hbd Hfree Havail Hpos Hrange Ho1 Hf Hok Hlen Hn Hval.
  pose proof H as [H1 H2 H3 H4 H5 Hsz H6 H7 H8 H9 H10 H11 H12]; simpl in *.
  pose proof (slot_index_lt pos H1) as Hidx.
  split; simpl; rewrite ?Hc; try done.
  - by rewrite length_insert.
  - rewrite Hb, !length_insert. done.
  - lia.
  - lia.
  - congruence.
  - intros j st Hj. rewrite Hb. unfold index. rewrite H2.
    apply list_lookup_insert_Some in Hj as [(<- & <- & Hlt)|[Hne Hj]].
    + split_and!; try done; [by rewrite Hpos|].
      apply list_lookup_insert_eq. lia.
    + destruct (H10 j st Hj) as (Hsp & Hr & Hbj & Ho).
      split_and!; [done| | |].
      * apply (slot_range_step (enqueue_pos_ q) (dequeue_pos_ q) _ _ pos); [lia|done|done| |done].
        congruence.
      * by rewrite list_lookup_insert_ne.
      * apply slot_owner_insert; [done|]. intros Hw.
        destruct (owner_claim _ _ _ Ho Hw) as (p1 & Hp1 & Hcl1). simplify_eq.
        assert (slot_pos st = pos) as Heq by (destruct Hp; congruence).
        rewrite Heq in Hne. done.
  - intros j p1. destruct (decide (j = i)) as [->|Hne].
    { rewrite list_lookup_insert_eq by (by eapply lookup_lt_Some). by intros [= <-]. }
    rewrite list_lookup_insert_ne by done. rewrite Hf by done. intros Hj.
    specialize (H11 _ _ Hj).
    eapply (thread_ok_step (enqueue_pos_ q) (dequeue_pos_ q)); eauto; lia.
Qed.

Lemma slot_seq_range s a g p st :
  rel cap s a g → gat cap g p = Some st → 0 ≤ sequence (slot_cell st) < two63.
Proof.
  intros H Hg. destruct (gat_slot _ _ _ _ _ H Hg) as (_ & Hr & _).
  pose proof (r_pos _ _ _ _ H). pose proof (r_bound _ _ _ _ H). pose proof (r_cap _ _ _ _ H).
  destruct st; simpl in *; lia.
Qed.

Lemma diff_exact seq pos :
  0 ≤ seq < two63 → 0 ≤ pos < two63 → diff seq pos = seq - pos.
Proof. intros. unfold diff. by rewrite !to_signed64_small. Qed.

(** What a producer learns from the sequence number of its cell. *)
Lemma producer_view s a g pos st :
  rel cap s a g → gat cap g pos = Some st →
  0 ≤ pos ≤ enqueue_pos_ (queue s) →
  (sequence (slot_cell st) = pos → pos < enqueue_pos_ (queue s) ∨ st = Free pos)
  ∧ (sequence (slot_cell st) < pos →
      enqueue_pos_ (queue s) - dequeue_pos_ (queue s) = cap
      ∨ ∃ i v b, st = Reading (enqueue_pos_ (queue s) - cap) i v b).
Proof.
  intros H Hg Hpos. destruct (gat_slot _ _ _ _ _ H Hg) as (Hm & Hr & _).
  pose proof (r_cap _ _ _ _ H) as Hc. pose proof (r_pos _ _ _ _ H).
  pose proof (r_size _ _ _ _ H). assert (0 < cap) as Hc0 by lia.
  pose proof (congr_lap _ _ _ Hc0 Hm) as Hlap.
  split; intros Hseq; destruct st as [p|p i v b|p v|p i v b]; simpl in *; subst;
    try specialize (Hlap ltac:(lia)); try lia; try (left; lia).
  - by right.
  - right. exists i, v, b. f_equal. lia.
Qed.

(** What a consumer learns from the sequence number of its cell. *)
Lemma consumer_view s a g pos st :
  rel cap s a g → gat cap g pos = Some st →
  0 ≤ pos ≤ dequeue_pos_ (queue s) →
  (sequence (slot_cell st) = pos + 1 →
     pos < dequeue_pos_ (queue s) ∨ ∃ v, st = Avail pos v)
  ∧ (sequence (slot_cell st) < pos + 1 →
      enqueue_pos_ (queue s) = dequeue_pos_ (queue s)
      ∨ ∃ i v b, st = Writing (dequeue_pos_ (queue s)) i v b).
Proof.
  intros H Hg Hpos. destruct (gat_slot _ _ _ _ _ H Hg) as (Hm & Hr & _).
  pose proof (r_cap _ _ _ _ H) as Hc. pose proof (r_pos _ _ _ _ H).
  pose proof (r_size _ _ _ _ H). assert (0 < cap) as Hc0 by lia.
  pose proof (congr_lap _ _ _ Hc0 Hm) as Hlap.
  pose proof (congr_lap _ _ _ Hc0 (eq_sym Hm)) as Hlap'.
  split; intros Hseq; destruct st as [p|p i v b|p v|p i v b]; simpl in *; subst;
    try specialize (Hlap ltac:(lia)); try specialize (Hlap' ltac:(lia));
    try lia; try (left; lia).
  - right. exists v. f_equal. lia.
  - right. exists i, v, b. f_equal. lia.
Qed.

(** The call of the thread that works on a slot. *)
Lemma owner_inflight s a g p st :
  rel cap s a g → gat cap g p = Some st →
  match st with
  | Writing p i _ _ => inflight a !! i = Some (Pushing p)
  | Reading p i v _ => inflight a !! i = Some (Popping p v)
  | _ => True
  end.
Proof.
  intros H Hg. destruct (gat_slot _ _ _ _ _ H Hg) as (Hm & _ & _ & Ho).
  destruct st as [p0|p0 i v b|p0 v|p0 i v b]; simpl in *; try done;
    pose proof (r_threads _ _ _ _ H _ _ Ho) as Hok; destruct b; simpl in Hok.
  1-3: by destruct Hok.
  destruct Hok as (v' & -> & Hg'). unfold gat in *. rewrite Hm, Hg in Hg'. naive_solver.
Qed.

Lemma cell_index q pos : cell q pos = buffer_ q !! index q pos.
Proof. done. Qed.

Lemma set_cell_id q pos c : cell q pos = Some c → set_cell q pos c = q.
Proof.
  intros H. unfold set_cell. rewrite cell_index in H. destruct q. simpl in *.
  unfold set_field; simpl. f_equal. by apply list_insert_id.
Qed.

(** The abstract run that matches a step with at most one event. *)
Definition matched a es a' : Prop :=
  es = [] ∧ a' = a ∨ spec_step cap a es a'.

Lemma matched_run a es a' : matched a es a' → run (lqueue_lts cap) a es a'.
Proof. intros [[-> ->]|Hs]; [constructor|by apply run_one]. Qed.

(** Steps that change neither cells nor tickets. *)
Lemma sim_local q ts a g i p p' q' :
  rel cap (mkSystem q ts) a g → ts !! i = Some p → claim p = None →
  buffer_ q' = buffer_ q → capacity_ q' = capacity_ q →
  enqueue_pos_ q' = enqueue_pos_ q → dequeue_pos_ q' = dequeue_pos_ q →
  closed_ q' = closed_ q →
  thread_ok cap (enqueue_pos_ q) (dequeue_pos_ q) g (inflight a !! i) i p' →
  ∃ g', rel cap (mkSystem q' (<[i:=p']> ts)) a g'.
Proof.
  intros H Hi Hp ????? Hok. exists g.
  pose proof (rel_local q q' ts a g i p p' (closed_ q) (inflight a) H Hi Hp) as Hr.
  pose proof (r_closed _ _ _ _ H) as Hcl. simpl in Hcl.
  rewrite <-Hcl in Hr at 2. destruct a. simpl in *. by apply Hr.
Qed.

(** Steps that fix the answer of a call without touching the elements. *)
Lemma sim_result q ts a g i p p' q' k :
  rel cap (mkSystem q ts) a g → ts !! i = Some p → claim p = None →
  buffer_ q' = buffer_ q → capacity_ q' = capacity_ q →
  enqueue_pos_ q' = enqueue_pos_ q → dequeue_pos_ q' = dequeue_pos_ q →
  closed_ q' = closed_ q →
  thread_ok cap (enqueue_pos_ q) (dequeue_pos_ q) g (Some k) i p' →
  rel cap (mkSystem q' (<[i:=p']> ts))
    (mkLqueue (items a) (lclosed a) (taken a) (<[i:=k]> (inflight a))) g.
Proof.
  intros H Hi Hp ????? Hok. rewrite (r_closed _ _ _ _ H).
  eapply rel_local; eauto; simpl.
  - intros j Hj. by rewrite lookup_insert_ne.
  - by rewrite lookup_insert_eq.
Qed.

(** A producer takes ticket [enqueue_pos_]. *)
Lemma sim_enq q ts a g i v :
  rel cap (mkSystem q ts) a g → ts !! i = Some (PushCas v (enqueue_pos_ q)) →
  enqueue_pos_ q + 1 + cap < two63 →
  ∃ a' g', spec_step cap a [Enq i v] a' ∧
    rel cap (mkSystem (q <| enqueue_pos_ := enqueue_pos_ q + 1 |>)
               (<[i := PushWrite v (enqueue_pos_ q)]> ts)) a' g'.
Proof.
  intros H Hi Hb. pose proof (r_threads _ _ _ _ H _ _ Hi) as (Hf & _ & Hor).
  destruct Hor as [?|Hg]; [simpl in *; lia|].
  destruct (gat_slot _ _ _ _ _ H Hg) as (_ & Hr & Hc & _). simpl in Hr.
  pose proof H as [H1 H2 H3 H4 H5 Hsz H6 H7 H8 H9 H10 H11 H12]; simpl in *.
  set (E := enqueue_pos_ q) in *. set (D := dequeue_pos_ q) in *.
  exists (mkLqueue (items a ++ [v]) (lclosed a) D (<[i:=Pushing E]> (inflight a))).
  exists (<[Z.to_nat (E mod cap) := Writing E i v false]> g). split.
  { destruct a as [l c n f]. simpl in *. rewrite <-H12.
    replace E with (n + Z.of_nat (length l)) by lia. apply spec_enq; [done|lia]. }
  eapply (rel_slot q _ ts a g i (PushCas v E) _ E (Free E));
    simpl; try done; try lia; try (by left); try (by right).
  - symmetry. apply list_insert_id. done.
  - intros p0 [= <-]. lia.
  - rewrite list_lookup_insert_eq; [done|by eapply lookup_lt_Some].
  - intros j Hj. by rewrite lookup_insert_ne.
  - rewrite lookup_insert_eq, gat_insert, decide_True by done. done.
  - rewrite length_app. simpl. lia.
  - intros k w Hk. rewrite gat_insert by done.
    apply lookup_app_Some in Hk as [Hk|[Hge Hk]].
    + pose proof (lookup_lt_Some _ _ _ Hk).
      rewrite decide_False; [by apply H8|].
      intros Heq. apply congr_lap in Heq; lia.
    + destruct (k - length (items a))%nat eqn:Hk0; simpl in Hk; [|done]. simplify_eq.
      rewrite decide_True; [done|]. f_equal. lia.
Qed.

(** A consumer takes ticket [dequeue_pos_]. *)
Lemma sim_deq q ts a g i :
  rel cap (mkSystem q ts) a g → ts !! i = Some (PopCas (dequeue_pos_ q)) →
  ∃ c v a' g', cell q (dequeue_pos_ q) = Some c ∧ storage c = Some v
    ∧ spec_step cap a [Deq i v] a'
    ∧ rel cap (mkSystem (q <| dequeue_pos_ := dequeue_pos_ q + 1 |>)
                (<[i := PopRead (dequeue_pos_ q)]> ts)) a' g'.
Proof.
  intros H Hi. pose proof (r_threads _ _ _ _ H _ _ Hi) as (Hf & _ & Hor).
  destruct Hor as [?|[v Hg]]; [simpl in *; lia|].
  destruct (gat_slot _ _ _ _ _ H Hg) as (_ & Hr & Hc & _). simpl in Hr, Hc.
  pose proof H as [H1 H2 H3 H4 H5 Hsz H6 H7 H8 H9 H10 H11 H12]; simpl in *.
  set (E := enqueue_pos_ q) in *. set (D := dequeue_pos_ q) in *.
  destruct a as [l c n f]. simpl in *. subst n.
  destruct l as [|w l]; simpl in *; [lia|].
  assert (w = v) as ->.
  { specialize (H8 0%nat w eq_refl). rewrite Z.add_0_r, Hg in H8. simpl in H8. congruence. }
  exists (mkCell (D + 1) (Some v)), v, (mkLqueue l c (D + 1) (<[i:=Popping D v]> f)).
  exists (<[Z.to_nat (D mod cap) := Reading D i v false]> g).
  split_and!; [done|done|by apply spec_deq|].
  eapply (rel_slot q _ ts (mkLqueue (v :: l) c D f) g i (PopCas D) _ D (Avail D v));
    simpl; try done; try lia; try (by left); try (by right).
  - symmetry. apply list_insert_id. done.
  - intros p0 w [= <- _]. lia.
  - rewrite list_lookup_insert_eq; [done|by eapply lookup_lt_Some].
  - intros j Hj. by rewrite lookup_insert_ne.
  - exists v. rewrite lookup_insert_eq, gat_insert, decide_True by done. done.
  - intros k w Hk. rewrite gat_insert by done. pose proof (lookup_lt_Some _ _ _ Hk).
    rewrite decide_False.
    + specialize (H8 (S k) w Hk). rewrite <-H8. f_equal. f_equal. lia.
    + intros Heq. symmetry in Heq. apply congr_lap in Heq; lia.
Qed.

(** Thread [i] works on the cell of the position it has claimed: the cell goes
    from [st0] to [st1], elements and tickets stay. *)
Lemma sim_cell q ts a g i p p' pos st0 st1 :
  rel cap (mkSystem q ts) a g → ts !! i = Some p → claim p = Some pos →
  gat cap g pos = Some st0 → owner st0 = Some i →
  slot_pos st1 mod cap = pos mod cap →
  slot_range cap (enqueue_pos_ q) (dequeue_pos_ q) st1 →
  slot_value st1 = slot_value st0 →
  slot_owner (<[i:=p']> ts) st1 →
  thread_ok cap (enqueue_pos_ q) (dequeue_pos_ q)
    (<[Z.to_nat (pos mod cap) := st1]> g) (inflight a !! i) i p' →
  rel cap (mkSystem (set_cell q pos (slot_cell st1)) (<[i:=p']> ts)) a
    (<[Z.to_nat (pos mod cap) := st1]> g).
Proof.
  intros H Hi Hp Hg Ho Hpos Hr Hv Ho1 Hok.
  pose proof H as [H1 H2 H3 H4 H5 Hsz H6 H7 H8 H9 H10 H11 H12]; simpl in *.
  destruct a as [l c n f]. simpl in *.
  eapply (rel_slot q (set_cell q pos (slot_cell st1)) ts (mkLqueue l c n f) g i p p'
            pos st0 st1 l n f); simpl; eauto; try lia.
  - by intros p0 ->.
  - by intros p0 v ->.
  - intros k v Hk. rewrite gat_insert by done. case_decide as Heq; [|by apply H8].
    specialize (H8 k v Hk). unfold gat in *. rewrite Heq, Hg in H8. simpl in *. congruence.
Qed.

Lemma claimed_slot q ts a g i p pos :
  rel cap (mkSystem q ts) a g → ts !! i = Some p → claim p = Some pos →
  ∃ st, gat cap g pos = Some st ∧ owner st = Some i ∧ slot_pos st = pos
    ∧ cell q pos = Some (slot_cell st)
    ∧ slot_range cap (enqueue_pos_ q) (dequeue_pos_ q) st
    ∧ match p with
      | PushWrite v _ => st = Writing pos i v false
      | PushPublish v _ => st = Writing pos i v true
      | PopRead _ => ∃ v, st = Reading pos i v false
      | PopRelease v _ => st = Reading pos i v true
      | _ => False
      end
    ∧ 0 ≤ pos < enqueue_pos_ q.
Proof.
  intros H Hi Hp. pose proof (r_threads _ _ _ _ H _ _ Hi) as Hok.
  pose proof (r_pos _ _ _ _ H) as Hpos. simpl in Hpos.
  assert (∃ st, gat cap g pos = Some st ∧ owner st = Some i ∧ slot_pos st = pos ∧
    match p with
    | PushWrite v _ => st = Writing pos i v false
    | PushPublish v _ => st = Writing pos i v true
    | PopRead _ => ∃ v, st = Reading pos i v false
    | PopRelease v _ => st = Reading pos i v true
    | _ => False
    end) as (st & Hg & Ho & Hsp & Hst)
    by (destruct p; simpl in *; simplify_eq;
        [destruct Hok as [_ ?]|destruct Hok as [_ ?]|destruct Hok as (v & _ & ?)
        |destruct Hok as [_ ?]]; eauto 8).
  destruct (gat_slot _ _ _ _ _ H Hg) as (_ & Hr & Hc & _). simpl in Hr, Hc.
  exists st. split_and!; try done;
    destruct st; simpl in *; simplify_eq; lia.
Qed.

(** The access a thread makes at [p] is a step of the abstract queue, or none. *)
Definition simulated q ts a g i sp p : Prop :=
  rel cap (mkSystem q ts) a g → ts !! i = Some p → ∀ q' p' es,
  thread_step i sp q p = Some (q', p', es) → enqueue_pos_ q' + cap < two63 →
  ∃ a' g', run (lqueue_lts cap) a es a' ∧ rel cap (mkSystem q' (<[i:=p']> ts)) a' g'.

Lemma sim_silent s a :
  (∃ g', rel cap s a g') → ∃ a' g', run (lqueue_lts cap) a [] a' ∧ rel cap s a' g'.
Proof. intros [g' ?]. exists a, g'. split; [constructor|done]. Qed.

Ltac sim_intro :=
  intros H Hi q' p' es Hs Hb; pose proof (r_threads _ _ _ _ H _ _ Hi) as Hok;
  pose proof (r_pos _ _ _ _ H) as Hpos; pose proof (r_bound _ _ _ _ H) as Hbd;
  pose proof (r_cap _ _ _ _ H) as Hcap; simpl in Hok, Hpos, Hbd, Hs.

Lemma sim_push_start q ts a g i sp v : simulated q ts a g i sp (PushStart v).
Proof.
  sim_intro.
  destruct (closed_ q) eqn:Hcl; simplify_eq.
  - eexists _, _. split; [|by eapply sim_result].
    pose proof (r_closed _ _ _ _ H) as Hac. simpl in Hac. rewrite Hcl in Hac.
    destruct a as [l c n f]; simpl in *; subst. by apply run_one, spec_refused.
  - apply sim_silent. by eapply sim_local.
Qed.

Lemma sim_push_seq q ts a g i sp v pos : simulated q ts a g i sp (PushSeq v pos).
Proof.
  sim_intro.
  destruct Hok as [Hf Hrange].
  destruct (gat_is_some _ _ _ pos H) as [st Hg].
  destruct (gat_slot _ _ _ _ _ H Hg) as (_ & _ & Hc & _). simpl in Hc.
  rewrite Hc in Hs. simpl in Hs.
  rewrite diff_exact in Hs by (lia || by eapply slot_seq_range).
  destruct (producer_view _ _ _ _ _ H Hg Hrange) as [Heq Hlt]. simpl in Heq, Hlt.
  destruct (Z.eqb_spec (sequence (slot_cell st) - pos) 0); simplify_eq.
  { apply sim_silent. eapply sim_local; eauto. simpl. split_and!; [done|lia..|].
    destruct Heq as [?| ->]; [lia|by left|by right]. }
  destruct (Z.ltb_spec (sequence (slot_cell st) - pos) 0); simplify_eq.
  { eexists _, _. split; [|by eapply sim_result].
    pose proof (r_items _ _ _ _ H) as Hit. pose proof (r_taken _ _ _ _ H) as Htk.
    destruct a as [l c k f]; simpl in *.
    apply run_one, spec_full; [done|].
    destruct Hlt as [?|(j & w & b & ->)]; [lia|left; lia|right].
    exists j, w. replace (k + Z.of_nat (length l)) with (enqueue_pos_ q') by lia.
    exact (owner_inflight _ _ _ _ _ H Hg). }
  apply sim_silent. by eapply sim_local.
Qed.

Lemma sim_push_cas q ts a g i sp v pos : simulated q ts a g i sp (PushCas v pos).
Proof.
  sim_intro.
  destruct (Z.eqb_spec (enqueue_pos_ q) pos); destruct sp; simpl in Hs; simplify_eq;
    try (apply sim_silent; eapply sim_local; eauto; simpl; split; [by destruct Hok|lia]).
  simpl in Hb. rewrite u64_small in * by (rewrite two64_val; rewrite two63_val in *; lia).
  destruct (sim_enq _ _ _ _ _ _ H Hi Hb) as (a' & g' & Hsp & Hr).
  exists a', g'. split; [by apply run_one|done].
Qed.

Lemma sim_push_write q ts a g i sp v pos : simulated q ts a g i sp (PushWrite v pos).
Proof.
  sim_intro.
  destruct (claimed_slot _ _ _ _ _ _ _ H Hi eq_refl)
    as (st & Hg & Ho & Hsp & Hc & Hr & -> & Hp). rewrite Hc in Hs. simplify_eq/=.
  apply sim_silent. eexists.
  apply (sim_cell q ts a g i _ (PushPublish v pos) pos _ (Writing pos i v true) H Hi
           eq_refl Hg); try done; simpl.
  - rewrite list_lookup_insert_eq; [done|by eapply lookup_lt_Some].
  - split; [by destruct Hok|]. rewrite gat_insert, decide_True; by try apply H.
Qed.

Lemma sim_push_publish q ts a g i sp v pos : simulated q ts a g i sp (PushPublish v pos).
Proof.
  sim_intro.
  destruct (claimed_slot _ _ _ _ _ _ _ H Hi eq_refl)
    as (st & Hg & Ho & Hsp & Hc & Hr & -> & Hp). rewrite Hc in Hs. simplify_eq/=.
  rewrite u64_small by (rewrite two64_val; rewrite two63_val in *; lia).
  apply sim_silent. eexists.
  apply (sim_cell q ts a g i _ PushCount pos _ (Avail pos v) H Hi eq_refl Hg);
    try done; simpl. destruct Hok; by eexists.
Qed.

Lemma sim_pop_seq q ts a g i sp pos : simulated q ts a g i sp (PopSeq pos).
Proof.
  sim_intro.
  destruct Hok as [Hf Hrange].
  destruct (gat_is_some _ _ _ pos H) as [st Hg].
  destruct (gat_slot _ _ _ _ _ H Hg) as (_ & _ & Hc & _). simpl in Hc.
  rewrite Hc in Hs. simpl in Hs.
  rewrite u64_small in Hs by (rewrite two64_val; rewrite two63_val in *; lia).
  rewrite diff_exact in Hs by (lia || by eapply slot_seq_range).
  destruct (consumer_view _ _ _ _ _ H Hg Hrange) as [Heq Hlt]. simpl in Heq, Hlt.
  destruct (Z.eqb_spec (sequence (slot_cell st) - (pos + 1)) 0); simplify_eq.
  { apply sim_silent. eapply sim_local; eauto. simpl. split_and!; [done|lia..|].
    destruct Heq as [?|[v ->]]; [lia|by left|right; by exists v]. }
  destruct (Z.ltb_spec (sequence (slot_cell st) - (pos + 1)) 0); simplify_eq.
  { eexists _, _. split; [|by eapply sim_result].
    pose proof (r_items _ _ _ _ H) as Hit. pose proof (r_taken _ _ _ _ H) as Htk.
    destruct a as [l c k f]; simpl in *.
    apply run_one, spec_empty; [done|].
    destruct Hlt as [?|(j & w & b & ->)]; [lia|left|right].
    - apply length_zero_iff_nil. lia.
    - exists j. rewrite Htk. exact (owner_inflight _ _ _ _ _ H Hg). }
  apply sim_silent. by eapply sim_local.
Qed.

Lemma sim_pop_cas q ts a g i sp pos : simulated q ts a g i sp (PopCas pos).
Proof.
  sim_intro.
  destruct (Z.eqb_spec (dequeue_pos_ q) pos); destruct sp; simpl in Hs; simplify_eq;
    try (apply sim_silent; eapply sim_local; eauto; simpl; split; [by destruct Hok|lia]).
  destruct (sim_deq _ _ _ _ _ H Hi) as (c & v & a' & g' & Hc & Hv & Hsp & Hr).
  rewrite Hc in Hs. simplify_eq/=. rewrite Hv.
  rewrite u64_small by (rewrite two64_val; rewrite two63_val in *; lia).
  exists a', g'. split; [by apply run_one|done].
Qed.

Lemma sim_pop_read q ts a g i sp pos : simulated q ts a g i sp (PopRead pos).
Proof.
  sim_intro.
  destruct (claimed_slot _ _ _ _ _ _ _ H Hi eq_refl)
    as (st & Hg & Ho & Hsp & Hc & Hr & [v ->] & Hp). rewrite Hc in Hs. simplify_eq/=.
  apply sim_silent. eexists.
  apply (sim_cell q ts a g i _ (PopRelease v pos) pos _ (Reading pos i v true) H Hi
           eq_refl Hg); try done; simpl.
  - rewrite list_lookup_insert_eq; [done|by eapply lookup_lt_Some].
  - rewrite gat_insert, decide_True by (try apply H; done).
    split; [|done]. exact (owner_inflight _ _ _ _ _ H Hg).
Qed.

Lemma sim_pop_release q ts a g i sp v pos : simulated q ts a g i sp (PopRelease v pos).
Proof.
  sim_intro.
  destruct (claimed_slot _ _ _ _ _ _ _ H Hi eq_refl)
    as (st & Hg & Ho & Hsp & Hc & Hr & -> & Hp). rewrite Hc in Hs. simpl in Hs.
  pose proof (r_capacity _ _ _ _ H) as Hcq. simpl in Hcq. rewrite Hcq in Hs. clear Hcq.
  rewrite u64_small in Hs by (rewrite two64_val; rewrite two63_val in *; lia).
  simplify_eq. apply sim_silent. eexists.
  apply (sim_cell q ts a g i _ (PopCount v) pos _ (Free (pos + cap)) H Hi
           eq_refl Hg); try done; simpl.
  - apply mod_add_lap. lia.
  - simpl in Hr. lia.
  - destruct Hok; by eexists.
Qed.

Lemma sim_returned q ts a g i sp r : simulated q ts a g i sp (Returned r).
Proof.
  sim_intro.
  simplify_eq. destruct a as [l c n f]; simpl in *. destruct Hok as (k & Hk & <-).
  exists (mkLqueue l c n (delete i f)), g. split; [by apply run_one, spec_ret|].
  pose proof (r_closed _ _ _ _ H) as Hcl. simpl in Hcl. rewrite Hcl.
  eapply (rel_local q' q' ts (mkLqueue l c n f)); eauto; simpl.
  - intros j Hj. by rewrite lookup_delete_ne.
  - by rewrite lookup_delete_eq.
Qed.

Lemma sim_thread q ts a g i sp p q' p' es :
  rel cap (mkSystem q ts) a g → ts !! i = Some p →
  thread_step i sp q p = Some (q', p', es) → enqueue_pos_ q' + cap < two63 →
  ∃ a' g', run (lqueue_lts cap) a es a' ∧ rel cap (mkSystem q' (<[i:=p']> ts)) a' g'.
Proof.
  intros H Hi Hs. pose proof (r_threads _ _ _ _ H _ _ Hi) as Hok.
  pose proof (r_pos _ _ _ _ H) as Hpos. simpl in Hok, Hpos.
  destruct p as [|v| |v|v pos|v pos|v pos|v pos| | | |pos|pos|pos|v pos|v| |r];
    [done|..];
    try (intros _; simpl in Hs; simplify_eq; apply sim_silent; eapply sim_local; eauto;
         simpl; split_and?; (done || lia || naive_solver)).
  - by apply (sim_push_start q ts a g i sp v).
  - by apply (sim_push_seq q ts a g i sp v pos).
  - by apply (sim_push_cas q ts a g i sp v pos).
  - by apply (sim_push_write q ts a g i sp v pos).
  - by apply (sim_push_publish q ts a g i sp v pos).
  - by apply (sim_pop_seq q ts a g i sp pos).
  - by apply (sim_pop_cas q ts a g i sp pos).
  - by apply (sim_pop_read q ts a g i sp pos).
  - by apply (sim_pop_release q ts a g i sp v pos).
  - by apply (sim_returned q ts a g i sp r).
Qed.

Lemma sim_call q ts a g i p' :
  rel cap (mkSystem q ts) a g → ts !! i = Some Ready →
  (p' = PopLoad ∨ ∃ v, p' = PushStart v) →
  rel cap (mkSystem q (<[i:=p']> ts)) a g.
Proof.
  intros H Hi Hp. pose proof (r_threads _ _ _ _ H _ _ Hi) as Hf. simpl in Hf.
  pose proof (rel_local q q ts a g i Ready p' (closed_ q) (inflight a) H Hi) as Hr.
  pose proof (r_closed _ _ _ _ H) as Hcl. simpl in Hcl. rewrite <-Hcl in Hr.
  destruct a. simpl in *. apply Hr; try done. by destruct Hp as [->|[v ->]].
Qed.

Lemma sim_step s a g es s' :
  rel cap s a g → lfq_step s es s' → in_range s' →
  ∃ a' g', run (lqueue_lts cap) a es a' ∧ rel cap s' a' g'.
Proof.
  intros H Hs Hb. unfold in_range in Hb.
  destruct Hs as [i sp q p q' p' es ts Hi Hst|i v q ts Hi|i q ts Hi|i q ts Hi].
  - eapply sim_thread; eauto. simpl in Hb.
    assert (capacity_ q' = cap) as Hc; [|by rewrite Hc in Hb].
    pose proof (r_capacity _ _ _ _ H) as Hcq. simpl in Hcq. rewrite <-Hcq.
    destruct p; simpl in Hst; repeat case_match; simplify_eq/=; try done;
      destruct (cell q pos) as [c|]; simplify_eq/=; repeat case_match; simplify_eq/=; try done.
    destruct (storage c); by simplify_eq/=.
  - exists a, g. split; [constructor|]. eapply sim_call; eauto.
  - exists a, g. split; [constructor|]. eapply sim_call; eauto.
  - pose proof (r_threads _ _ _ _ H _ _ Hi) as Hf. simpl in Hf.
    exists (mkLqueue (items a) true (taken a) (inflight a)), g.
    split; [destruct a; by apply run_one, spec_closed|].
    rewrite <-(list_insert_id ts i Ready) by done.
    eapply (rel_local q (close q)); eauto.
Qed.

Lemma rel_init s :
  2 ≤ cap < two63 → lfq_init cap s →
  ∃ g, rel cap s (mkLqueue [] false 0 ∅) g.
Proof.
  intros Hc [Hm Hready]. unfold make in Hm. case_match; [done|].
  destruct s as [q ts]. simpl in *. injection Hm as <-.
  exists ((λ i, Free (Z.of_nat i)) <$> seq 0 (Z.to_nat cap)).
  split; simpl; rewrite ?length_fmap, ?length_seq; try done; try lia.
  - intros j st. rewrite list_lookup_fmap.
    intros (k & Hk%lookup_seq & ->)%fmap_Some. simpl.
    split_and!; [rewrite Z.mod_small by lia; lia|lia|lia| |done].
    rewrite list_lookup_fmap, lookup_seq_lt by lia. simpl. do 2 f_equal. lia.
  - intros i p Hi. eapply Forall_lookup_1 in Hready as ->; [|done].
    simpl. apply lookup_empty.
Qed.

Lemma reachable_rel s :
  2 ≤ cap < two63 → reachable (lfq_lts cap) s → ∃ a g, rel cap s a g.
Proof.
  intros Hc. apply (reachable_invariant (lfq_lts cap) (λ s, ∃ a g, rel cap s a g)).
  - intros s0 H0. destruct (rel_init _ Hc H0) as [g ?]. eauto.
  - intros s0 es s1 (a & g & H) [Hs Hb].
    destruct (sim_step _ _ _ _ _ H Hs Hb) as (a' & g' & _ & ?). eauto.
Qed.
End simulation.

(** ** Calls without interference *)

(** [settled cap q l]: no call is under way and [q] holds the elements [l]. *)
Record settled {T} (cap : Z) (q : Queue T) (l : list T) : Prop := {
  st_cap : 2 ≤ cap;
  st_capacity : capacity_ q = cap;
  st_length : Z.of_nat (length (buffer_ q)) = cap;
  st_pos : 0 ≤ dequeue_pos_ q;
  st_items : enqueue_pos_ q = dequeue_pos_ q + Z.of_nat (length l);
  st_size : Z.of_nat (length l) ≤ cap;
  st_bound : enqueue_pos_ q + cap < two63;
  st_cells p : dequeue_pos_ q ≤ p < dequeue_pos_ q + cap →
    cell q p = Some (if decide (p < enqueue_pos_ q)
                     then mkCell (p + 1) (l !! Z.to_nat (p - dequeue_pos_ q))
                     else mkCell p None);
}.

Definition quiet {T} (s : system T) : Prop := Forall (λ p, p = Ready) (threads s).

Section solo.
Context {T : Type} (cap : Z).
Implicit Types (q : Queue T) (l : list T) (s : system T) (a : lqueue T) (g : list (slot T)).

Lemma rel_settled s a g :
  rel cap s a g → quiet s → settled cap (queue s) (items a).
Proof.
  intros H Hq. pose proof H as [H1 H2 H3 H4 H5 Hsz H6 H7 H8 H9 H10 H11 H12].
  assert (∀ st i, slot_owner (threads s) st → owner st ≠ Some i) as Hno.
  { intros st i Ho Hw. destruct (owner_claim _ _ _ Ho Hw) as (p & Hp & Hc).
    pose proof (Forall_lookup_1 _ _ _ _ Hq Hp) as Hx. simpl in Hx. by subst. }
  split; try done; try lia.
  intros p Hp. destruct (gat_is_some _ _ _ _ p H) as [st Hg].
  destruct (gat_slot _ _ _ _ _ _ H Hg) as (Hm & Hr & Hc & Ho). rewrite Hc. f_equal.
  assert (0 < cap) as Hc0 by lia.
  pose proof (congr_close _ _ _ Hc0 Hm) as Hclose.
  destruct st as [p0|p0 i v b|p0 v|p0 i v b]; simpl in *.
  - rewrite Hclose by lia. rewrite decide_False by lia. done.
  - by destruct (Hno (Writing p0 i v b) i Ho).
  - rewrite (Hclose ltac:(lia)) in *. rewrite decide_True by lia. f_equal.
    destruct (lookup_lt_is_Some_2 (items a) (Z.to_nat (p - dequeue_pos_ (queue s))))
      as [w Hw]; [lia|]. specialize (H8 _ _ Hw).
    replace (dequeue_pos_ (queue s) + _) with p in H8 by lia.
    rewrite Hg in H8. simpl in H8. congruence.
  - by destruct (Hno (Reading p0 i v b) i Ho).
Qed.

Lemma index_insert q p p' c :
  2 ≤ cap → capacity_ q = cap → Z.of_nat (length (buffer_ q)) = cap →
  cell (set_cell q p c) p'
  = if decide (p' mod cap = p mod cap) then Some c else cell q p'.
Proof.
  intros Hc Hq Hl. unfold cell, set_cell, index; simpl. rewrite Hq.
  pose proof (slot_index_lt cap p Hc). pose proof (slot_index_lt cap p' Hc).
  case_decide as Heq.
  - rewrite Heq. apply list_lookup_insert_eq. lia.
  - apply list_lookup_insert_ne. lia.
Qed.

(** The queue after an undisturbed successful push and pop. *)
Definition pushed q v : Queue T :=
  (set_cell q (enqueue_pos_ q) (mkCell (enqueue_pos_ q + 1) (Some v)))
    <| enqueue_pos_ := enqueue_pos_ q + 1 |> <| pushes_ ::= λ n, n ⊕ 1 |>.

Definition popped q : Queue T :=
  (set_cell q (dequeue_pos_ q) (mkCell (dequeue_pos_ q + cap) None))
    <| dequeue_pos_ := dequeue_pos_ q + 1 |> <| pops_ ::= λ n, n ⊕ 1 |>.

Lemma settled_room q l : settled cap q l → Z.of_nat (length l) < cap →
  cell q (enqueue_pos_ q) = Some (mkCell (enqueue_pos_ q) None).
Proof.
  intros H Hr. rewrite (st_cells _ _ _ H) by (pose proof (st_items _ _ _ H); lia).
  by rewrite decide_False by lia.
Qed.

Lemma settled_full q l : settled cap q l → Z.of_nat (length l) = cap →
  ∃ v, cell q (enqueue_pos_ q) = Some (mkCell (enqueue_pos_ q - cap + 1) v).
Proof.
  intros H Hr. pose proof (st_cap _ _ _ H). pose proof (st_items _ _ _ H).
  pose proof (st_cells _ _ _ H (enqueue_pos_ q - cap)) as Hc.
  rewrite decide_True in Hc by lia. eexists. rewrite <-Hc by lia.
  unfold cell, index. rewrite (st_capacity _ _ _ H). do 2 f_equal.
  rewrite <-(mod_add_lap (enqueue_pos_ q - cap) cap) by lia. f_equal. lia.
Qed.

Lemma settled_first q v l : settled cap q (v :: l) →
  cell q (dequeue_pos_ q) = Some (mkCell (dequeue_pos_ q + 1) (Some v)).
Proof.
  intros H. pose proof (st_items _ _ _ H) as Hi. simpl in Hi.
  rewrite (st_cells _ _ _ H) by (pose proof (st_cap _ _ _ H); lia).
  rewrite decide_True by lia. by rewrite Z.sub_diag.
Qed.

Lemma settled_pushed q l v :
  settled cap q l → Z.of_nat (length l) < cap → enqueue_pos_ q + 1 + cap < two63 →
  settled cap (pushed q v) (l ++ [v]).
Proof.
  intros [H1 H2 H3 H4 H5 H6 H7 H8] Hlt Hb.
  split; simpl; rewrite ?length_insert, ?length_app; simpl; try done; try lia.
  intros p Hp.
  change (cell (pushed q v) p)
    with (cell (set_cell q (enqueue_pos_ q) (mkCell (enqueue_pos_ q + 1) (Some v))) p).
  rewrite index_insert by done. case_decide as Heq.
  - apply congr_close in Heq as ->; [|lia..]. rewrite decide_True by lia. do 2 f_equal.
    rewrite lookup_app_r by lia.
    replace (Z.to_nat (enqueue_pos_ q - dequeue_pos_ q) - length l)%nat with 0%nat by lia.
    done.
  - rewrite H8 by done. f_equal. assert (p ≠ enqueue_pos_ q) by congruence.
    destruct (decide (p < enqueue_pos_ q)).
    + rewrite decide_True by lia. by rewrite lookup_app_l by lia.
    + by rewrite decide_False by lia.
Qed.

Lemma settled_popped q v l : settled cap q (v :: l) → settled cap (popped q) l.
Proof.
  intros [H1 H2 H3 H4 H5 H6 H7 H8]. simpl in H5, H6.
  split; simpl; rewrite ?length_insert; try done; try lia.
  intros p Hp.
  change (cell (popped q) p)
    with (cell (set_cell q (dequeue_pos_ q) (mkCell (dequeue_pos_ q + cap) None)) p).
  rewrite index_insert by done. case_decide as Heq.
  - rewrite <-(mod_add_lap (dequeue_pos_ q) cap) in Heq by lia.
    apply congr_close in Heq as ->; [|lia..]. by rewrite decide_False by lia.
  - assert (p ≠ dequeue_pos_ q + cap).
    { intros ->. by rewrite mod_add_lap in Heq by lia. }
    rewrite H8 by lia. f_equal. case_decide; [|done]. f_equal.
    by replace (Z.to_nat (p - dequeue_pos_ q))
      with (S (Z.to_nat (p - (dequeue_pos_ q + 1)))) by lia.
Qed.

Lemma set_cell_twice q p c c' :
  set_cell (set_cell q p c) p c' = set_cell q p c'.
Proof.
  unfold set_cell, index. destruct q; simpl. unfold set_field; simpl. f_equal.
  apply list_insert_insert_eq.
Qed.

Lemma solo_step n q p q' p' es :
  thread_step 0 false q p = Some (q', p', es) → (∀ r, p ≠ Returned r) →
  solo (S n) q p = solo n q' p'.
Proof. intros Hs Hr. cbn [solo]. rewrite Hs. destruct p; naive_solver. Qed.

Ltac solo_go := erewrite solo_step;
  [|cbn [thread_step mbind option_bind]; try reflexivity|done].

(** An undisturbed [tryPush] returns after at most 8 accesses. *)
Lemma tryPush_settled q l v :
  settled cap q l → enqueue_pos_ q + 1 + cap < two63 →
  tryPush 8 q v =
    Some (if closed_ q
          then (q <| closed_pushes_ ::= λ n, n ⊕ 1 |>
                  <| failed_pushes_ ::= λ n, n ⊕ 1 |>, RPush false)
          else if Z.of_nat (length l) <? cap then (pushed q v, RPush true)
          else (q <| failed_pushes_ ::= λ n, n ⊕ 1 |>, RPush false)).
Proof.
  intros H Hb. pose proof (st_pos _ _ _ H). pose proof (st_items _ _ _ H) as Hi.
  pose proof (st_cap _ _ _ H). pose proof (st_size _ _ _ H).
  pose proof (st_capacity _ _ _ H) as Hq. pose proof (st_length _ _ _ H) as Hl.
  unfold tryPush. destruct (closed_ q) eqn:Hcl.
  { solo_go; [|by rewrite Hcl]. solo_go. by solo_go. }
  solo_go; [|by rewrite Hcl]. solo_go.
  destruct (Z.ltb_spec (Z.of_nat (length l)) cap) as [Hlt|Hge].
  - solo_go.
    2: { rewrite (settled_room _ _ H Hlt). cbn [mbind option_bind sequence].
         by rewrite diff_exact, Z.sub_diag by lia. }
    solo_go; [|by rewrite Z.eqb_refl, u64_small
                 by (rewrite two64_val; rewrite two63_val in *; lia)].
    solo_go.
    2: { change (cell (q <| enqueue_pos_ := enqueue_pos_ q + 1 |>) (enqueue_pos_ q))
           with (cell q (enqueue_pos_ q)).
         by rewrite (settled_room _ _ H Hlt). }
    solo_go; [|by rewrite index_insert, decide_True by done].
    rewrite set_cell_twice. solo_go. cbn [solo]. do 2 f_equal.
    unfold pushed. rewrite u64_small by (rewrite two64_val; rewrite two63_val in *; lia).
    done.
  - destruct (settled_full _ _ H) as [w Hw]; [lia|]. solo_go.
    2: { rewrite Hw. cbn [mbind option_bind sequence]. rewrite diff_exact by lia.
         destruct (Z.eqb_spec (enqueue_pos_ q - cap + 1 - enqueue_pos_ q) 0); [lia|].
         by destruct (Z.ltb_spec (enqueue_pos_ q - cap + 1 - enqueue_pos_ q) 0); [|lia]. }
    by solo_go.
Qed.

Lemma set_cell_ticket q x p c :
  set_cell (q <| dequeue_pos_ := x |>) p c = (set_cell q p c) <| dequeue_pos_ := x |>.
Proof. done. Qed.

Lemma tryPop_settled q l :
  settled cap q l →
  tryPop 7 q =
    Some (match l with
          | [] => (q <| failed_pops_ ::= λ n, n ⊕ 1 |>, RPop None)
          | v :: _ => (popped q, RPop (Some v))
          end).
Proof.
  intros H. pose proof (st_pos _ _ _ H). pose proof (st_items _ _ _ H) as Hi.
  pose proof (st_cap _ _ _ H). pose proof (st_bound _ _ _ H).
  pose proof (st_capacity _ _ _ H) as Hq. pose proof (st_length _ _ _ H) as Hl.
  assert (u64 (dequeue_pos_ q + 1) = dequeue_pos_ q + 1) as Hu.
  { rewrite u64_small; [done|]. rewrite two64_val. rewrite two63_val in *. lia. }
  assert (u64 (dequeue_pos_ q + capacity_ q) = dequeue_pos_ q + cap) as Hu'.
  { rewrite Hq, u64_small; [done|]. rewrite two64_val. rewrite two63_val in *. lia. }
  unfold tryPop. solo_go. destruct l as [|v l]; simpl in Hi.
  - pose proof (settled_room _ _ H) as Hc. rewrite Hi, Z.add_0_r in Hc. solo_go.
    2: { rewrite Hc by (simpl; lia). cbn [mbind option_bind sequence].
         rewrite Hu, diff_exact by lia.
         destruct (Z.eqb_spec (dequeue_pos_ q - (dequeue_pos_ q + 1)) 0); [lia|].
         by destruct (Z.ltb_spec (dequeue_pos_ q - (dequeue_pos_ q + 1)) 0); [|lia]. }
    by solo_go.
  - solo_go.
    2: { rewrite (settled_first _ _ _ H). cbn [mbind option_bind sequence].
         by rewrite Hu, diff_exact, Z.sub_diag by lia. }
    solo_go; [|by rewrite Z.eqb_refl, (settled_first _ _ _ H), Hu]. solo_go.
    2: { change (cell (q <| dequeue_pos_ := dequeue_pos_ q + 1 |>) (dequeue_pos_ q))
           with (cell q (dequeue_pos_ q)).
         by rewrite (settled_first _ _ _ H). }
    solo_go; [|by rewrite index_insert, decide_True by done].
    rewrite set_cell_twice. cbn [capacity_ set_field].
    change (capacity_ (set_cell _ _ _)) with (capacity_ q). rewrite Hu'.
    rewrite set_cell_ticket. solo_go. cbn [solo]. unfold popped. reflexivity.
Qed.

Lemma destroy_step n fuel q q' r :
  tryPop fuel q = Some (q', r) →
  destroy (S n) fuel q = match r with RPop (Some _) => destroy n fuel q' | _ => Some q' end.
Proof. intros H. cbn [destroy]. by rewrite H. Qed.

(** The destructor returns after one failing [tryPop] past the elements. *)
Lemma destroy_settled q l :
  settled cap q l →
  ∃ q', destroy (S (length l)) 7 q = Some q' ∧ settled cap q' [].
Proof.
  revert q. induction l as [|v l IH]; intros q H; rewrite (destroy_step _ _ _ _ _ (tryPop_settled _ _ H)).
  - eexists. split; [done|]. destruct H. by split.
  - apply IH. by eapply settled_popped.
Qed.
End solo.

(** ** Progress *)

(** Accesses a thread still has to make when it runs alone. *)
Definition remaining {T} (q : Queue T) (p : pc T) : nat :=
  match p with
  | Ready | Returned _ => 0
  | PushCount | PushFailed | PopCount _ | PopFailed => 1
  | PushRefused | PushPublish _ _ | PopRelease _ _ => 2
  | PushWrite _ _ | PopRead _ => 3
  | PushCas _ pos => if (pos =? enqueue_pos_ q)%Z then 4 else 6
  | PopCas pos => if (pos =? dequeue_pos_ q)%Z then 4 else 6
  | PushSeq _ pos => if (pos =? enqueue_pos_ q)%Z then 5 else 7
  | PopSeq pos => if (pos =? dequeue_pos_ q)%Z then 5 else 7
  | PushLoad _ | PopLoad => 6
  | PushStart _ => 7
  end%nat.

(** A step that sends a thread back to reload its position. *)
Definition retried {T} (q : Queue T) (p p' : pc T) : Prop :=
  match p, p' with
  | PushSeq _ pos, PushLoad _ | PushCas _ pos, PushSeq _ _ => pos < enqueue_pos_ q
  | PopSeq pos, PopLoad | PopCas pos, PopSeq _ => pos < dequeue_pos_ q
  | _, _ => True
  end.

Section progress.
Context {T : Type} (cap : Z).
Implicit Types (q : Queue T) (s : system T) (a : lqueue T) (g : list (slot T)).

(** The sequence number of the cell at the current ticket is never ahead. *)
Lemma producer_fresh s a g pos st :
  rel cap s a g → gat cap g pos = Some st → 0 ≤ pos ≤ enqueue_pos_ (queue s) →
  pos < sequence (slot_cell st) → pos < enqueue_pos_ (queue s).
Proof.
  intros H Hg Hpos. destruct (gat_slot _ _ _ _ _ _ H Hg) as (Hm & Hr & _).
  pose proof (r_cap _ _ _ _ H) as Hc. pose proof (r_pos _ _ _ _ H).
  pose proof (r_size _ _ _ _ H). assert (0 < cap) as Hc0 by lia.
  pose proof (congr_close _ _ _ Hc0 Hm) as Hclose.
  destruct st as [p|p i v b|p v|p i v b]; simpl in *; intros; lia.
Qed.

Lemma consumer_fresh s a g pos st :
  rel cap s a g → gat cap g pos = Some st → 0 ≤ pos ≤ dequeue_pos_ (queue s) →
  pos + 1 < sequence (slot_cell st) → pos < dequeue_pos_ (queue s).
Proof.
  intros H Hg Hpos. destruct (gat_slot _ _ _ _ _ _ H Hg) as (Hm & Hr & _).
  pose proof (r_cap _ _ _ _ H) as Hc. pose proof (r_pos _ _ _ _ H).
  pose proof (r_size _ _ _ _ H). assert (0 < cap) as Hc0 by lia.
  pose proof (congr_close _ _ _ Hc0 Hm) as Hclose.
  destruct st as [p|p i v b|p v|p i v b]; simpl in *; intros; lia.
Qed.

(** What a thread inside a call meets at its next access: it can make it, it
    comes nearer to the end of its call, unless the compare-and-exchange fails
    for no reason, and a step that takes a ticket is followed by at most three. *)
Definition advances q i sp p : Prop :=
  ∃ q' p' es, thread_step i sp q p = Some (q', p', es)
    ∧ p' ≠ Ready
    ∧ (sp = false → (remaining q' p' < remaining q p)%nat ∧ retried q p p')
    ∧ (enqueue_pos_ q' = enqueue_pos_ q
       ∨ enqueue_pos_ q' = enqueue_pos_ q + 1 ∧ (3 < remaining q p)%nat
         ∧ (remaining q' p' ≤ 3)%nat).

Lemma some_cell s a g pos :
  rel cap s a g →
  ∃ st, gat cap g pos = Some st ∧ cell (queue s) pos = Some (slot_cell st).
Proof.
  intros H. destruct (gat_is_some _ _ _ _ pos H) as [st Hg].
  destruct (gat_slot _ _ _ _ _ _ H Hg) as (_ & _ & Hc & _). eauto.
Qed.

Ltac advance_intro :=
  intros H Hi; pose proof (r_threads _ _ _ _ H _ _ Hi) as Hok;
  pose proof (r_pos _ _ _ _ H) as Hpos; pose proof (r_bound _ _ _ _ H) as Hb;
  pose proof (r_cap _ _ _ _ H) as Hcap; simpl in Hok, Hpos, Hb;
  unfold advances; cbn [thread_step].
(** The next state is determined, and its program point is nearer. *)
Ltac advance_on := do 3 eexists; split; [done|]; simpl; split_and!; [done| |by left].

Lemma advances_push_seq q ts a g i sp v pos :
  rel cap (mkSystem q ts) a g → ts !! i = Some (PushSeq v pos) → advances q i sp (PushSeq v pos).
Proof.
  advance_intro. destruct Hok as [_ Hp]. destruct (some_cell _ _ _ pos H) as (st & Hg & Hce).
  simpl in Hce. rewrite Hce. cbn [mbind option_bind].
  pose proof (slot_seq_range _ _ _ _ _ _ H Hg) as Hsr.
  rewrite diff_exact by lia.
  pose proof (producer_fresh _ _ _ _ _ H Hg Hp) as Hfr. simpl in Hfr.
  destruct (Z.eqb_spec (sequence (slot_cell st) - pos) 0);
    [|destruct (Z.ltb_spec (sequence (slot_cell st) - pos) 0)];
    do 3 eexists; (split; [done|]); simpl; (split_and!; [done| |by left]); intros _;
    (split; [|try done; try (apply Hfr; lia)]);
    destruct (Z.eqb_spec pos (enqueue_pos_ q)); try lia.
Qed.

Lemma advances_push_cas q ts a g i sp v pos :
  rel cap (mkSystem q ts) a g → ts !! i = Some (PushCas v pos) → advances q i sp (PushCas v pos).
Proof.
  advance_intro. destruct Hok as (_ & Hp & _).
  destruct (Z.eqb_spec (enqueue_pos_ q) pos) as [He|Hne]; simpl;
    [destruct sp; simpl|]; do 3 eexists; (split; [done|]); simpl;
    (split_and!; [done| |try (by left)]); try done.
  - intros _. split; [|done]. case_match; lia.
  - right. rewrite u64_small by (rewrite two64_val; rewrite two63_val in Hb; lia).
    case_match; lia.
  - intros _. rewrite Z.eqb_refl. split; [|lia].
    destruct (Z.eqb_spec pos (enqueue_pos_ q)); lia.
Qed.

Lemma advances_pop_seq q ts a g i sp pos :
  rel cap (mkSystem q ts) a g → ts !! i = Some (PopSeq pos) → advances q i sp (PopSeq pos).
Proof.
  advance_intro. destruct Hok as [_ Hp]. destruct (some_cell _ _ _ pos H) as (st & Hg & Hce).
  simpl in Hce. rewrite Hce. cbn [mbind option_bind].
  pose proof (slot_seq_range _ _ _ _ _ _ H Hg) as Hsr.
  rewrite u64_small, diff_exact by (rewrite ?two64_val; rewrite ?two63_val in *; lia).
  pose proof (consumer_fresh _ _ _ _ _ H Hg Hp) as Hfr. simpl in Hfr.
  destruct (Z.eqb_spec (sequence (slot_cell st) - (pos + 1)) 0);
    [|destruct (Z.ltb_spec (sequence (slot_cell st) - (pos + 1)) 0)];
    do 3 eexists; (split; [done|]); simpl; (split_and!; [done| |by left]); intros _;
    (split; [|try done; try (apply Hfr; lia)]);
    destruct (Z.eqb_spec pos (dequeue_pos_ q)); try lia.
Qed.

Lemma advances_pop_cas q ts a g i sp pos :
  rel cap (mkSystem q ts) a g → ts !! i = Some (PopCas pos) → advances q i sp (PopCas pos).
Proof.
  advance_intro. destruct Hok as (_ & Hp & _). destruct (some_cell _ _ _ pos H) as (st & Hg & Hce).
  simpl in Hce. rewrite Hce.
  cbn [mbind option_bind].
  destruct (Z.eqb_spec (dequeue_pos_ q) pos) as [He|Hne]; simpl;
    [destruct sp; simpl|]; do 3 eexists; (split; [done|]); simpl;
    (split_and!; [done| |try (by left)]); try done.
  - intros _. split; [|done]. case_match; lia.
  - intros _. rewrite Z.eqb_refl. split; [|lia].
    destruct (Z.eqb_spec pos (dequeue_pos_ q)); lia.
Qed.

Lemma thread_step_ok q ts a g i p sp :
  rel cap (mkSystem q ts) a g → ts !! i = Some p → p ≠ Ready → (∀ r, p ≠ Returned r) →
  advances q i sp p.
Proof.
  intros H Hi Hr Hret. pose proof (λ pos, some_cell _ _ _ pos H) as Hcell. simpl in Hcell.
  destruct p as [|v| |v|v pos|v pos|v pos|v pos| | | |pos|pos|pos|v pos|v| |r];
    try done; try (by destruct (Hret r)).
  - unfold advances. simpl. destruct (closed_ q); advance_on; by (split; [lia|]).
  - advance_on. split; [lia|done].
  - advance_on. rewrite Z.eqb_refl. split; [lia|done].
  - by eapply advances_push_seq.
  - by eapply advances_push_cas.
  - unfold advances. simpl. destruct (Hcell pos) as (st & Hg & ->). advance_on. split; [lia|done].
  - unfold advances. simpl. destruct (Hcell pos) as (st & Hg & ->). advance_on. split; [lia|done].
  - advance_on. split; [lia|done].
  - advance_on. split; [lia|done].
  - advance_on. rewrite Z.eqb_refl. split; [lia|done].
  - by eapply advances_pop_seq.
  - by eapply advances_pop_cas.
  - destruct (claimed_slot _ _ _ _ _ _ _ _ H Hi eq_refl) as (st & _ & _ & _ & Hc & _ & (v & ->) & _).
    unfold advances. simpl. rewrite Hc. advance_on. split; [lia|done].
  - unfold advances. simpl. destruct (Hcell pos) as (st & Hg & ->). advance_on. split; [lia|done].
  - advance_on. split; [lia|done].
  - advance_on. split; [lia|done].
Qed.

(** Only the events of a step depend on the thread's name. *)
Lemma thread_step_id i j sp q p q' p' es :
  thread_step i sp q p = Some (q', p', es) →
  ∃ es', thread_step j sp q p = Some (q', p', es').
Proof.
  intros Hs. destruct p; simpl in *;
    try match goal with
    | H : context [cell q ?pos] |- _ => destruct (cell q pos) as [c|] eqn:Hc; simpl in *
    end; repeat case_match; simplify_eq/=; eauto.
Qed.

(** A thread that runs alone returns. *)
Lemma solo_returns n q ts a g i p :
  rel cap (mkSystem q ts) a g → ts !! i = Some p → p ≠ Ready →
  (remaining q p ≤ n)%nat →
  ((3 < remaining q p)%nat → enqueue_pos_ q + 1 + cap < two63) →
  ∃ q' r, solo n q p = Some (q', r).
Proof.
  revert q ts a g p. induction n as [|n IH]; intros q ts a g p H Hi Hr Hn Hb.
  { destruct p; simpl in *; try lia; try (case_match; lia); try done. eauto. }
  assert ((∃ r, p = Returned r) ∨ ∀ r, p ≠ Returned r) as [[r ->]|Hret']
    by (destruct p; eauto); [simpl; eauto|].
  destruct (thread_step_ok q ts a g i p false H Hi Hr Hret')
    as (q' & p' & es & Hs & Hr' & Hm & He).
  destruct (Hm eq_refl) as [Hlt _].
  pose proof (r_bound _ _ _ _ H) as Hbd. simpl in Hbd.
  destruct (sim_thread _ _ _ _ _ _ _ _ _ _ _ H Hi Hs) as (a' & g' & _ & H');
    [destruct He as [->|(-> & ? & ?)]; [done|by apply Hb]|].
  destruct (thread_step_id i 0 _ _ _ _ _ _ Hs) as [es' Hs'].
  erewrite solo_step by eauto.
  eapply (IH _ _ _ _ _ H').
  - apply list_lookup_insert_eq. by eapply lookup_lt_Some.
  - done.
  - lia.
  - intros. destruct He as [->|(-> & ? & ?)]; [apply Hb|]; lia.
Qed.
End progress.

(** ** Properties *)

(** The elements a trace takes in and hands out, in order. *)
Definition enqueued {T} (es : list (event T)) : list T :=
  omap (λ e, match e with Enq _ v => Some v | _ => None end) es.
Definition dequeued {T} (es : list (event T)) : list T :=
  omap (λ e, match e with Deq _ v => Some v | _ => None end) es.

Section trace.
Context {T : Type} (cap : Z).
Implicit Types (s : system T) (a : lqueue T) (es : list (event T)).

Lemma spec_run_fifo a es a' :
  run (lqueue_lts cap) a es a' → items a ++ enqueued es = dequeued es ++ items a'.
Proof.
  induction 1 as [a|a e a1 es a2 Hs Hr IH]; simpl; [by rewrite app_nil_r|].
  unfold enqueued, dequeued in *. rewrite !omap_app.
  destruct Hs; simpl in *; try done.
  - by rewrite <-IH, <-app_assoc.
  - by rewrite <-IH.
Qed.

(** A run of the queue, its abstract items and its simulation relation. *)
Lemma run_rel s0 es s :
  2 ≤ cap < two63 → lfq_init cap s0 → run (lfq_lts cap) s0 es s →
  ∃ a g, rel cap s a g ∧ enqueued es = dequeued es ++ items a.
Proof.
  intros Hc Hi Hr. destruct (rel_init cap s0 Hc Hi) as [g Hg].
  assert (∃ a', run (lqueue_lts cap) (mkLqueue [] false 0 ∅) es a' ∧ ∃ g', rel cap s a' g')
    as (a' & Hra & g' & H').
  { eapply (simulation_run _ (lqueue_lts cap) (λ s a, ∃ g, rel cap s a g)); eauto.
    intros s1 a1 o s1' [g1 H1] [Hs Hb].
    destruct (sim_step cap _ _ _ _ _ H1 Hs Hb) as (a' & g' & ? & ?). eauto. }
  exists a', g'. split; [done|]. by apply (spec_run_fifo _ _ _ Hra).
Qed.

Lemma approximateSize_exact E D :
  0 ≤ D ≤ E → E - D ≤ cap → E < two63 → approximateSize cap E D = E - D.
Proof.
  intros ? ? ?. unfold approximateSize. destruct (Z.ltb_spec E D); [lia|].
  rewrite u64_small by (rewrite two64_val; rewrite two63_val in *; lia). lia.
Qed.
End trace.

(** ** Statistics *)

Section statistics.
Context {T : Type} (cap : Z).
Implicit Types (q : Queue T) (p : pc T) (ts : list (pc T)) (es : list (event T)).

Definition push_gave (b : bool) (r : result T) : bool :=
  match r with RPush b' => eqb b b' | _ => false end.
Definition pop_gave (b : bool) (r : result T) : bool :=
  match r with RPop o => eqb b (bool_decide (is_Some o)) | _ => false end.

(** Returns of a run with a kind of result, and threads about to return one. *)
Definition returns (kind : result T → bool) (e : event T) : Z :=
  match e with Ret _ r => if kind r then 1 else 0 | _ => 0 end.
Definition returning (kind : result T → bool) p : Z :=
  match p with Returned r => if kind r then 1 else 0 | _ => 0 end.
Definition refusals (e : event T) : Z := match e with Refused _ => 1 | _ => 0 end.
Definition refusing p : Z := match p with PushRefused => 1 | _ => 0 end.

Definition counts (kind : result T → bool) (n : Z) ts es : Prop :=
  n = u64 (sum_of (returns kind) es + sum_of (returning kind) ts).
Definition counted q ts es : Prop :=
  counts (push_gave true) (pushes_ q) ts es
  ∧ counts (pop_gave true) (pops_ q) ts es
  ∧ counts (push_gave false) (failed_pushes_ q) ts es
  ∧ counts (pop_gave false) (failed_pops_ q) ts es
  ∧ closed_pushes_ q = u64 (sum_of refusals es - sum_of refusing ts).

Lemma sum_of_ready (f : pc T → Z) ts :
  Forall (λ p, p = Ready) ts → f Ready = 0 → sum_of f ts = 0.
Proof. induction 1 as [|p ts -> _ IH]; simpl; [done|]. intros Hf. rewrite Hf, IH; done. Qed.

Lemma thread_counted i sp q p q' p' es es' ts :
  ts !! i = Some p → thread_step i sp q p = Some (q', p', es') →
  counted q ts es → counted q' (<[i := p']> ts) (es ++ es').
Proof.
  intros Hi Hst (H1 & H2 & H3 & H4 & H5). unfold counted, counts in *.
  rewrite !(sum_of_insert _ _ _ _ _ Hi), !sum_of_app.
  destruct p; simpl in Hst; branch;
    repeat match goal with
    | H : (_ ≫= _) = Some _ |- _ => apply bind_Some in H as (? & ? & ?); branch
    end; simplify_eq/=; rewrite ?H1, ?H2, ?H3, ?H4, ?H5;
    split_and!; try (u64_norm; f_equal; lia).
Qed.

Lemma step_counted s es s' es0 :
  lfq_step s es s' → counted (queue s) (threads s) es0 →
  counted (queue s') (threads s') (es0 ++ es).
Proof.
  intros [i sp q p q' p' es1 ts Hi Hst|i v q ts Hi|i q ts Hi|i q ts Hi]; simpl.
  - by eapply thread_counted.
  - unfold counted, counts. rewrite !(sum_of_insert _ _ _ _ _ Hi), app_nil_r. simpl.
    by rewrite !Z.add_0_r, !Z.sub_0_r.
  - unfold counted, counts. rewrite !(sum_of_insert _ _ _ _ _ Hi), app_nil_r. simpl.
    by rewrite !Z.add_0_r, !Z.sub_0_r.
  - unfold counted, counts. rewrite !sum_of_app. simpl. by rewrite !Z.add_0_r.
Qed.

Lemma run_counted s0 es s :
  lfq_init cap s0 → run (lfq_lts cap) s0 es s → counted (queue s) (threads s) es.
Proof.
  intros [Hm Hready] Hr.
  assert (∀ s es s' es0, run (lfq_lts cap) s es s' → counted (queue s) (threads s) es0 →
    counted (queue s') (threads s') (es0 ++ es)) as Hall.
  { intros s1 es1 s2 es0 Hrun. revert es0.
    induction Hrun as [s1|s1 o s2 os s3 [Hstep _] _ IH]; intros es0 Hc.
    - by rewrite app_nil_r.
    - rewrite app_assoc. apply IH. by eapply step_counted. }
  apply (Hall _ _ _ [] Hr). unfold make in Hm. case_match; [done|]. injection Hm as <-.
  unfold counted, counts. by rewrite !(sum_of_ready _ _ Hready).
Qed.
End statistics.

Section properties.
Context {T : Type} (cap : Z).
Implicit Types (q : Queue T) (s : system T).

(** C6: with at least two cells, every interleaving of the accesses of any
    number of producers, consumers and closers is a run of a bounded FIFO queue
    in which an accepted push and a successful pop act at once, at one access
    of their own, in first-in first-out order and within the capacity.
    A pop is refused as empty only when the queue is empty or the push that
    brought its {e first} element has not returned; a push is refused as full
    only when the queue is full or the pop of the element [cap] places before
    the one it would bring has not returned.  These two exceptions are the
    code's: it is not linearizable ([lfq_not_linearizable]). *)
Theorem lfq_refines (Hcap : 2 ≤ cap < two63) :
  refines (lfq_lts (T:=T) cap) (lqueue_lts cap).
Proof.
  apply (simulation_refines _ _ (λ s a, ∃ g, rel cap s a g)).
  - intros s H0. eexists. split; [done|]. by apply rel_init.
  - intros s a es s' [g H] [Hs Hb]. destruct (sim_step cap _ _ _ _ _ H Hs Hb) as (a' & g' & ? & ?).
    eauto.
Qed.

(** Storage is used safely.  In every reachable state a thread inside a
    call can make its next access (a pop finds an object in the cell it has
    claimed), a push constructs its value in a cell that holds none, and two
    threads never work on the same cell. *)
Theorem lfq_storage_safe s i p sp
    (Hcap : 2 ≤ cap < two63) (Hs : reachable (lfq_lts cap) s)
    (Hi : threads s !! i = Some p) (Hp : p ≠ Ready) :
  is_Some (thread_step i sp (queue s) p)
  ∧ (∀ v pos, p = PushWrite v pos → cell (queue s) pos = Some (mkCell pos None))
  ∧ (∀ j p' pos pos', i ≠ j → threads s !! j = Some p' →
       claim p = Some pos → claim p' = Some pos' →
       index (queue s) pos ≠ index (queue s) pos').
Proof.
  destruct (reachable_rel cap s Hcap Hs) as (a & g & H). destruct s as [q ts]. simpl in *.
  split_and!.
  - destruct p as [| | | | | | | | | | | | | | | | |r]; [done|..|by eexists].
    all: destruct (thread_step_ok cap q ts a g i _ sp H Hi Hp ltac:(done))
      as (? & ? & ? & -> & _); by eexists.
  - intros v pos ->. destruct (claimed_slot cap _ _ _ _ _ _ _ H Hi eq_refl)
      as (st & _ & _ & _ & Hc & _ & -> & _). done.
  - intros j p' pos pos' Hne Hj Hcl Hcl' Hidx.
    destruct (claimed_slot cap _ _ _ _ _ _ _ H Hi Hcl) as (st & Hg & Ho & _).
    destruct (claimed_slot cap _ _ _ _ _ _ _ H Hj Hcl') as (st' & Hg' & Ho' & _).
    unfold index, gat in *. pose proof (r_capacity _ _ _ _ H) as Hq. simpl in Hq.
    rewrite Hq in Hidx. rewrite Hidx, Hg' in Hg. simplify_eq.
Qed.

(** C9: progress.  From every reachable state a thread inside a call that
    runs alone returns after at most 7 accesses, and it goes back to reload
    its position only when another thread has taken that position: some call
    always succeeds. *)
Theorem lfq_lock_free s i p
    (Hcap : 2 ≤ cap < two63) (Hs : reachable (lfq_lts cap) s)
    (Hb : enqueue_pos_ (queue s) + 1 + cap < two63)
    (Hi : threads s !! i = Some p) (Hp : p ≠ Ready) :
  (∃ q' r, solo 7 (queue s) p = Some (q', r))
  ∧ (∀ q' p' es, thread_step i false (queue s) p = Some (q', p', es) →
       retried (queue s) p p').
Proof.
  destruct (reachable_rel cap s Hcap Hs) as (a & g & H). destruct s as [q ts]. cbn [queue threads] in *.
  split.
  - apply (solo_returns cap 7 q ts a g i p H Hi Hp); [|done].
    destruct p; simpl; try case_match; lia.
  - intros q' p' es Hst.
    destruct p as [| | | | | | | | | | | | | | | | |r]; try done.
    all: destruct (thread_step_ok cap q ts a g i _ false H Hi Hp ltac:(done))
      as (q1 & p1 & es1 & Hst' & _ & Hm & _); rewrite Hst in Hst'; simplify_eq;
      by apply Hm.
Qed.

(** C10: the elements handed out are, in order, the first ones taken in, none
    lost and none duplicated; when no call is under way the others are in the
    queue, [tryPush] and [tryPop] behave as on a FIFO of [cap] elements,
    [empty], [full] and [approximateSize] are exact and the destructor takes
    every remaining element out. *)
Theorem lfq_fifo s0 es s
    (Hcap : 2 ≤ cap < two63) (H0 : lfq_init cap s0) (Hr : run (lfq_lts cap) s0 es s) :
  ∃ l, enqueued es = dequeued es ++ l ∧ Z.of_nat (length l) ≤ cap
    ∧ (quiet s → enqueue_pos_ (queue s) + 1 + cap < two63 →
       approximateSize cap (enqueue_pos_ (queue s)) (dequeue_pos_ (queue s))
         = Z.of_nat (length l)
       ∧ empty (queue s) = bool_decide (l = [])
       ∧ full (queue s) = bool_decide (Z.of_nat (length l) = cap)
       ∧ (∀ v, ∃ q', tryPush 8 (queue s) v
            = Some (q', RPush (negb (closed_ (queue s)) && (Z.of_nat (length l) <? cap))))
       ∧ (∃ q', tryPop 7 (queue s) = Some (q', RPop (head l)))
       ∧ (∃ q', destroy (S (length l)) 7 (queue s) = Some q' ∧ settled cap q' [])).
Proof.
  destruct (run_rel cap _ _ _ Hcap H0 Hr) as (a & g & H & Hio). exists (items a).
  pose proof (r_items _ _ _ _ H) as Hit. pose proof (r_size _ _ _ _ H) as Hsz.
  pose proof (r_pos _ _ _ _ H) as Hpos. pose proof (r_bound _ _ _ _ H) as Hbd.
  pose proof (r_capacity _ _ _ _ H) as Hq.
  split; [done|]. split; [lia|]. intros Hqu Hb.
  pose proof (rel_settled cap _ _ _ H Hqu) as Hst.
  assert (approximateSize cap (enqueue_pos_ (queue s)) (dequeue_pos_ (queue s))
    = Z.of_nat (length (items a))) as Ha by (rewrite approximateSize_exact; lia).
  unfold empty, full. rewrite Hq, Ha. split_and!; [done| | | | |].
  - by destruct (items a).
  - case_bool_decide; [by apply Z.eqb_eq|by apply Z.eqb_neq].
  - intros v. rewrite (tryPush_settled cap _ _ v Hst Hb).
    destruct (closed_ (queue s)); [by eexists|]. case_match; by eexists.
  - rewrite (tryPop_settled cap _ _ Hst). destruct (items a); by eexists.
  - by apply destroy_settled.
Qed.

(** The statistics count what the calls returned, and what they are about to:
    between two calls [stats] is exact, modulo [2^64]. *)
Theorem lfq_stats_account s0 es s :
  lfq_init cap s0 → run (lfq_lts cap) s0 es s →
  counted (queue s) (threads s) es
  ∧ (quiet s → stats (queue s) =
       mkStats (u64 (sum_of (returns (push_gave true)) es)) (u64 (sum_of (returns (pop_gave true)) es))
         (u64 (sum_of (returns (push_gave false)) es)) (u64 (sum_of (returns (pop_gave false)) es))
         (u64 (sum_of refusals es))).
Proof.
  intros H0 Hr. assert (counted (queue s) (threads s) es) as Hc by (by eapply run_counted).
  split; [done|]. intros Hq. destruct Hc as (H1 & H2 & H3 & H4 & H5).
  unfold stats. by rewrite H1, H2, H3, H4, H5, !(sum_of_ready _ _ Hq), !Z.add_0_r, Z.sub_0_r.
Qed.

(** A consumer of the capacity-one queue after two pushes never returns. *)
Lemma capacity_one_spin n q c :
  capacity_ q = 1 → buffer_ q = [c] → sequence c = 2 → dequeue_pos_ q = 0 →
  solo n q PopLoad = None ∧ solo n q (PopSeq 0) = None.
Proof.
  intros Hq Hb Hs Hd. induction n as [|n [IH1 IH2]]; [done|]. split.
  - erewrite solo_step; [by rewrite <-Hd in IH2; apply IH2|done|done].
  - assert (cell q 0 = Some c) as Hc by (unfold cell, index; by rewrite Hq, Hb).
    erewrite solo_step; [apply IH1| |done]. simpl. rewrite Hc. simpl. by rewrite Hs.
Qed.

(** A queue of capacity one, which the constructor accepts, breaks the
    protocol: a second push succeeds and overwrites the first element, and the
    next [tryPop] never returns. *)
Theorem lfq_capacity_one (v w : T) :
  ∃ q0 q1 q2, make 1 = Returns q0
    ∧ tryPush 8 q0 v = Some (q1, RPush true)
    ∧ tryPush 8 q1 w = Some (q2, RPush true)
    ∧ buffer_ q2 = [mkCell 2 (Some w)]
    ∧ ∀ fuel, tryPop fuel q2 = None.
Proof.
  do 3 eexists. split_and!; try reflexivity. intros fuel.
  by eapply capacity_one_spin.
Qed.
End properties.

(** ** Witnesses *)

Definition lfq_fresh : Queue Z :=
  mkQueue [mkCell 0 None; mkCell 1 None] 2 0 0 false 0 0 0 0 0.

(** A producer that has just taken the first ticket, next to an idle thread. *)
Definition lfq_writer : system Z :=
  mkSystem (lfq_fresh <| enqueue_pos_ := 1 |>) [PushWrite 5 0; Ready].

Lemma lfq_fresh_init : lfq_init 2 (mkSystem lfq_fresh [Ready; Ready]).
Proof. split; [reflexivity|by repeat constructor]. Qed.

Lemma lfq_writer_run :
  run (lfq_lts 2) (mkSystem lfq_fresh [Ready; Ready]) [Enq 0 5] lfq_writer.
Proof.
  eapply (run_step _ _ []); [split; [by apply (step_call_push 0 5)|reflexivity]|].
  eapply (run_step _ _ []); [split; [by eapply (step_thread 0 false)|reflexivity]|].
  eapply (run_step _ _ []); [split; [by eapply (step_thread 0 false)|reflexivity]|].
  eapply (run_step _ _ []); [split; [by eapply (step_thread 0 false)|reflexivity]|].
  eapply run_one. split; [|reflexivity].
  exact (step_thread 0 false lfq_fresh (PushCas 5 0) (lfq_fresh <| enqueue_pos_ := 1 |>)
    (PushWrite 5 0) [Enq 0 5] [PushCas 5 0; Ready] eq_refl eq_refl).
Qed.

Lemma lfq_writer_reachable : reachable (lfq_lts 2) lfq_writer.
Proof. eexists _, _. split; [apply lfq_fresh_init|apply lfq_writer_run]. Qed.

(** A schedule: a thread enters a call, or makes its next access. *)
Inductive sched (T : Type) :=
  | StartPush (i : nat) (v : T)
  | StartPop (i : nat)
  | Access (i : nat).
Arguments StartPush {T} i v.
Arguments StartPop {T} i.
Arguments Access {T} i.

Definition schedule_one {T} (x : sched T) (s : system T) : option (system T * list (event T)) :=
  let enter i p :=
    match threads s !! i with
    | Some Ready => Some (mkSystem (queue s) (<[i := p]> (threads s)), [])
    | _ => None
    end in
  match x with
  | StartPush i v => enter i (PushStart v)
  | StartPop i => enter i PopLoad
  | Access i =>
      p ← threads s !! i;
      '(q, p, es) ← thread_step i false (queue s) p;
      Some (mkSystem q (<[i := p]> (threads s)), es)
  end.

Fixpoint scheduled {T} (l : list (sched T)) (s : system T) : option (system T * list (event T)) :=
  match l with
  | [] => Some (s, [])
  | x :: l =>
      '(s, es) ← schedule_one x s;
      if enqueue_pos_ (queue s) + capacity_ (queue s) <? two63
      then '(s, es') ← scheduled l s; Some (s, es ++ es') else None
  end.

Lemma schedule_one_step {T} (x : sched T) s s' es :
  schedule_one x s = Some (s', es) → lfq_step s es s'.
Proof.
  destruct s as [q ts]. destruct x as [i v|i|i]; simpl;
    destruct (ts !! i) as [p|] eqn:Hi; simpl; try done.
  - destruct p; try done. intros [= <- <-]. by apply step_call_push.
  - destruct p; try done. intros [= <- <-]. by apply step_call_pop.
  - destruct (thread_step i false q p) as [[[q' p'] es']|] eqn:Hst; [|done].
    intros [= <- <-]. by eapply step_thread.
Qed.

Lemma scheduled_run {T} cap (l : list (sched T)) s s' es :
  scheduled l s = Some (s', es) → run (lfq_lts cap) s es s'.
Proof.
  revert s es. induction l as [|x l IH]; simpl; intros s es Hl; [simplify_eq; constructor|].
  destruct (schedule_one x s) as [[s1 es1]|] eqn:Hx; simplify_eq/=.
  destruct (Z.ltb_spec (enqueue_pos_ (queue s1) + capacity_ (queue s1)) two63); [|done].
  destruct (scheduled l s1) as [[s2 es2]|] eqn:Hl'; simplify_eq/=.
  econstructor; [split; [by eapply schedule_one_step|done]|by apply IH].
Qed.

(** Thread 0 takes the first ticket of a push and is held up; thread 1 pushes. *)
Definition held_up : list (sched Z) :=
  StartPush 0 5 :: replicate 4 (Access 0) ++ StartPush 1 6 :: replicate 8 (Access 1).

(** The code is not linearizable to a FIFO queue: with the producer of the
    first element held up, the push of thread 1 returns [true]; a [tryPop] which
    thread 1 calls afterwards finds nothing, although no call has popped. *)
Theorem lfq_not_linearizable :
  ∃ s s', lfq_init 2 (mkSystem lfq_fresh [Ready; Ready])
    ∧ run (lfq_lts 2) (mkSystem lfq_fresh [Ready; Ready])
        [Enq 0 5; Enq 1 6; Ret 1 (RPush true)] s
    ∧ threads s !! 1%nat = Some Ready
    ∧ run (lfq_lts 2) s [Empty 1; Ret 1 (RPop None)] s'.
Proof.
  pose proof (scheduled_run 2 held_up (mkSystem lfq_fresh [Ready; Ready])) as H1.
  pose proof (λ s : system Z, scheduled_run 2 (StartPop 1 :: replicate 4 (Access 1)) s) as H2.
  do 2 eexists. split_and!; [apply lfq_fresh_init|apply H1; vm_compute; reflexivity
    |reflexivity|apply H2; vm_compute; reflexivity].
Qed.

Lemma lfq_refines_witness : refines (lfq_lts (T:=Z) 2) (lqueue_lts 2).
Proof. apply (lfq_refines 2). split; [done|reflexivity]. Defined.

Lemma lfq_storage_safe_witness :
  cell (queue lfq_writer) 0 = Some (mkCell 0 None).
Proof.
  eapply (lfq_storage_safe 2 lfq_writer 0 (PushWrite 5 0) false
    ltac:(split; [done|reflexivity]) lfq_writer_reachable eq_refl ltac:(done)).
  reflexivity.
Defined.

Lemma lfq_lock_free_witness :
  ∃ q' r, solo 7 (queue lfq_writer) (PushWrite 5 0) = Some (q', r).
Proof.
  apply (lfq_lock_free 2 lfq_writer 0 (PushWrite 5 0)
    ltac:(split; [done|reflexivity]) lfq_writer_reachable ltac:(reflexivity)
    eq_refl ltac:(done)).
Defined.

(** Two threads push one element each, and return. *)
Definition two_pushes : list (sched Z) :=
  StartPush 0 5 :: replicate 8 (Access 0) ++ StartPush 1 6 :: replicate 8 (Access 1).

Lemma lfq_fifo_witness :
  ∃ s, quiet s
    ∧ run (lfq_lts 2) (mkSystem lfq_fresh [Ready; Ready])
        [Enq 0 5; Ret 0 (RPush true); Enq 1 6; Ret 1 (RPush true)] s
    ∧ full (queue s) = true
    ∧ (∃ q', tryPush 8 (queue s) 7 = Some (q', RPush false))
    ∧ ∃ q', tryPop 7 (queue s) = Some (q', RPop (Some 5)).
Proof.
  assert (∃ s, quiet s ∧ enqueue_pos_ (queue s) = 2 ∧ closed_ (queue s) = false
    ∧ run (lfq_lts 2) (mkSystem lfq_fresh [Ready; Ready])
        [Enq 0 5; Ret 0 (RPush true); Enq 1 6; Ret 1 (RPush true)] s) as (s & Hq & He & Hcl & Hr).
  { eexists. split_and!; [| | |apply (scheduled_run 2 two_pushes); vm_compute; reflexivity];
      [repeat constructor|reflexivity|reflexivity]. }
  exists s. destruct (lfq_fifo 2 _ _ _ ltac:(split; [done|reflexivity]) lfq_fresh_init Hr)
    as (l & Hio & _ & Hall).
  simpl in Hio. subst l. rewrite He in Hall.
  destruct (Hall Hq ltac:(reflexivity)) as (_ & _ & Hf & Hpush & Hpop & _).
  specialize (Hpush 7). rewrite Hcl in Hpush. done.
Defined.

(** A producer inside its call has been counted nowhere yet. *)
Lemma lfq_stats_account_witness : stats (queue lfq_writer) = mkStats 0 0 0 0 0.
Proof.
  destruct (lfq_stats_account 2 _ _ _ lfq_fresh_init lfq_writer_run) as [(H1 & H2 & H3 & H4 & H5) _].
  unfold stats. by rewrite H1, H2, H3, H4, H5.
Defined.
