(* ===== verification/WeakMemory.v ===== *)
(** * Release and acquire

    The memory that C++ gives to atomic objects when its orders are weaker than
    sequential consistency, as an operational machine with views.  An atomic
    object has a history of messages, one for every store, ordered by
    timestamps (its modification order); a thread has a view, the timestamp up
    to which it must have seen each object.  A load may answer with any message
    that is not older than the view; an acquire load takes over the view that a
    release store left in its message.  A read-modify-write takes the place
    just after the message it reads.  An object that is not atomic has a
    version, counted by its accesses: an access by a thread that has not seen
    the last one is a data race, hence undefined behaviour.

    The machine does not let a load answer with a store that comes later in
    program order: this is C++20 with cyclic dependencies excluded (RC11).  A
    finite execution has finitely many stores, so that timestamps can be taken
    in [nat]: a store may choose any free one beyond the thread's view, and so
    be placed in the modification order before stores made earlier. *)

From S2P Require Import Prelude.
From stdpp Require Import functions.
Open Scope Z_scope.

Inductive memory_order := relaxed | acquire | release.

Abbreviation view L := (L → nat).

Record message (L : Type) := mkMessage {
  value : Z;
  released : view L;
}.
Arguments mkMessage {L}.
Arguments value {L}.
Arguments released {L}.
Abbreviation memory L := (L → gmap nat (message L)).

Section memory.
Context {L : Type} `{EqDecision L}.

Implicit Types (V W : view L) (M : memory L) (l : L) (t : nat) (o : memory_order).

Definition origin : view L := λ _, 0%nat.
Definition join V W : view L := λ l, (V l `max` W l)%nat.
Definition sees W V : Prop := ∀ l, (W l ≤ V l)%nat.

(** [load(o)] answered with the message at [t]; [None]: it cannot be. *)
Definition load o M V l t : option (Z * view L) :=
  m ← M l !! t;
  if (V l <=? t)%nat
  then Some (value m,
             <[l := t]> (match o with acquire => join V (released m) | _ => V end))
  else None.

(** [store(v, o)] placed at [t]. *)
Definition store o M V l t (v : Z) : option (memory L * view L) :=
  if (V l <? t)%nat && bool_decide (M l !! t = None)
  then let V' := <[l := t]> V in
       let m := mkMessage v (match o with release => V' | _ => <[l := t]> origin end) in
       Some (<[l := <[t := m]> (M l)]> M, V')
  else None.

(** A relaxed read-modify-write that reads the message at [t]: the value read,
    and what it makes of it.  It continues the release sequence it reads. *)
Definition update M V l t (f : Z → Z) : option (Z * memory L * view L) :=
  m ← M l !! t;
  if (V l <=? t)%nat && bool_decide (M l !! S t = None)
  then let V' := <[l := S t]> V in
       let m' := mkMessage (f (value m)) (<[l := S t]> (released m)) in
       Some (value m, <[l := <[S t := m']> (M l)]> M, V')
  else None.

(** ** Views *)

#[export] Instance sees_refl : Reflexive sees.
Proof. by intros V l. Qed.
#[export] Instance sees_trans : Transitive sees.
Proof. intros U V W H1 H2 l. etrans; [apply H1|apply H2]. Qed.

Lemma sees_join_l V W : sees V (join V W).
Proof. intros l. unfold join. lia. Qed.
Lemma sees_join_r V W : sees W (join V W).
Proof. intros l. unfold join. lia. Qed.
Lemma sees_insert V l t : (V l ≤ t)%nat → sees V (<[l := t]> V).
Proof.
  intros Hle l'. destruct (decide (l = l')) as [<-|Hne].
  - by rewrite fn_lookup_insert.
  - by rewrite fn_lookup_insert_ne.
Qed.

(** A load raises the view, to the message read and to what an acquire load
    takes over. *)
Lemma load_sees o M V l t v V' :
  load o M V l t = Some (v, V') →
  ∃ m, M l !! t = Some m ∧ value m = v ∧ (V l ≤ t)%nat
    ∧ ((released m l ≤ t)%nat → sees V V')
    ∧ (∀ l', l' ≠ l → V' l' = match o with acquire => join V (released m) | _ => V end l')
    ∧ V' l = t.
Proof.
  unfold load. destruct (M l !! t) as [m|]; simpl; [|done].
  destruct (Nat.leb_spec (V l) t); [|done]. intros [= <- <-].
  exists m. split_and!; try done.
  - intros Hr l'. destruct (decide (l = l')) as [<-|Hne]; [by rewrite fn_lookup_insert|].
    rewrite fn_lookup_insert_ne by done. destruct o; try done. unfold join. lia.
  - intros l' Hne. by rewrite fn_lookup_insert_ne.
  - apply fn_lookup_insert.
Qed.

(** ** Views of messages that exist *)

(** [closed A M ver W]: [W] points to messages of the atomic objects, and not
    beyond the versions of the others. *)
Definition closed (atomic : L → bool) M (ver : L → nat) W : Prop :=
  ∀ l, if atomic l then is_Some (M l !! W l) else (W l ≤ ver l)%nat.

Lemma closed_mono A M M' ver ver' W :
  (∀ l t, is_Some (M l !! t) → is_Some (M' l !! t)) → (∀ l, (ver l ≤ ver' l)%nat) →
  closed A M ver W → closed A M' ver' W.
Proof.
  intros HM Hv HW l. specialize (HW l). destruct (A l); [by apply HM|].
  specialize (Hv l). lia.
Qed.

Lemma closed_join A M ver V W :
  closed A M ver V → closed A M ver W → closed A M ver (join V W).
Proof.
  intros HV HW l. specialize (HV l). specialize (HW l). unfold join. destruct (A l); [|lia].
  destruct (Nat.max_spec (V l) (W l)) as [[_ ->]|[_ ->]]; done.
Qed.

Lemma closed_insert A M ver W l t :
  closed A M ver W → (if A l then is_Some (M l !! t) else (t ≤ ver l)%nat) →
  closed A M ver (<[l := t]> W).
Proof.
  intros HW Ht l'. destruct (decide (l = l')) as [<-|Hne].
  - by rewrite fn_lookup_insert.
  - rewrite fn_lookup_insert_ne by done. apply HW.
Qed.

Lemma message_insert M l t m l' t' :
  is_Some (M l' !! t') → is_Some (<[l := <[t := m]> (M l)]> M l' !! t').
Proof.
  intros Hs. destruct (decide (l = l')) as [<-|Hne].
  - rewrite fn_lookup_insert. apply lookup_insert_is_Some'. by right.
  - by rewrite fn_lookup_insert_ne.
Qed.

Lemma message_at M l t m : <[l := <[t := m]> (M l)]> M l !! t = Some m.
Proof. rewrite fn_lookup_insert. apply lookup_insert_eq. Qed.

(** All messages carry views that point to messages. *)
Definition all_closed A M ver : Prop :=
  ∀ l t m, M l !! t = Some m → closed A M ver (released m).

Lemma load_closed A o M ver V l t v V' :
  all_closed A M ver → closed A M ver V → A l = true →
  load o M V l t = Some (v, V') → closed A M ver V'.
Proof.
  intros HM HV Hl. unfold load. destruct (M l !! t) as [m|] eqn:Hm; simpl; [|done].
  destruct (V l <=? t)%nat; [|done]. intros [= <- <-]. apply closed_insert.
  - destruct o; [done| |done]. apply closed_join; [done|]. by eapply HM.
  - by rewrite Hl, Hm.
Qed.

(** A new message with a closed view. *)
Lemma insert_all_closed A M ver l t m :
  all_closed A M ver → closed A (<[l := <[t := m]> (M l)]> M) ver (released m) →
  all_closed A (<[l := <[t := m]> (M l)]> M) ver.
Proof.
  intros HM Hm l' t' m'. destruct (decide (l = l')) as [<-|Hne].
  - rewrite fn_lookup_insert. intros [(_ & ->)|[_ Hm']]%lookup_insert_Some; [done|].
    eapply closed_mono; [|done|by eapply HM]. intros. by apply message_insert.
  - rewrite fn_lookup_insert_ne by done. intros Hm'.
    eapply closed_mono; [|done|by eapply HM]. intros. by apply message_insert.
Qed.

(** ** Stores and read-modify-writes *)

Lemma store_Some o M V l t v M' V' :
  store o M V l t v = Some (M', V') →
  ∃ m, (V l < t)%nat ∧ M l !! t = None ∧ V' = <[l := t]> V ∧ M' = <[l := <[t := m]> (M l)]> M
    ∧ value m = v ∧ released m = match o with release => V' | _ => <[l := t]> origin end.
Proof.
  unfold store. destruct (Nat.ltb_spec (V l) t); simpl; [|done].
  case_bool_decide; [|done]. intros [= <- <-]. eexists. split_and!; try done.
Qed.

Lemma update_Some M V l t f x M' V' :
  update M V l t f = Some (x, M', V') →
  ∃ m, M l !! t = Some m ∧ value m = x ∧ (V l ≤ t)%nat ∧ M l !! S t = None
    ∧ V' = <[l := S t]> V
    ∧ M' = <[l := <[S t := mkMessage (f x) (<[l := S t]> (released m))]> (M l)]> M.
Proof.
  unfold update. destruct (M l !! t) as [m|]; simpl; [|done].
  destruct (Nat.leb_spec (V l) t); simpl; [|done]. case_bool_decide; [|done].
  intros [= <- <- <-]. by exists m.
Qed.

Lemma closed_new A M ver W l t m :
  A l = true → closed A M ver W → closed A (<[l := <[t := m]> (M l)]> M) ver (<[l := t]> W).
Proof.
  intros Hl HW. apply closed_insert; [|rewrite Hl, message_at; done].
  eapply closed_mono; [|done|done]. intros. by apply message_insert.
Qed.

Lemma store_closed A M ver V l t v M' V' :
  A l = true → all_closed A M ver → closed A M ver V →
  store release M V l t v = Some (M', V') → closed A M' ver V' ∧ all_closed A M' ver.
Proof.
  intros Hl HM HV (m & _ & _ & -> & -> & _ & Hr)%store_Some.
  split; [by apply closed_new|]. apply insert_all_closed; [done|]. rewrite Hr.
  by apply closed_new.
Qed.

Lemma update_closed A M ver V l t f x M' V' :
  A l = true → all_closed A M ver → closed A M ver V →
  update M V l t f = Some (x, M', V') → closed A M' ver V' ∧ all_closed A M' ver.
Proof.
  intros Hl HM HV (m & Hm & _ & _ & _ & -> & ->)%update_Some.
  split; [by apply closed_new|]. apply insert_all_closed; [done|]. simpl.
  apply closed_new; [done|]. by eapply HM.
Qed.

(** ** Progress: an access can always be made at some timestamp *)

Lemma last_message (h : gmap nat (message L)) n :
  is_Some (h !! n) → ∃ t m, h !! t = Some m ∧ (n ≤ t)%nat
    ∧ ∀ t', is_Some (h !! t') → (t' ≤ t)%nat.
Proof.
  intros Hn. assert (∀ k, (∀ t', is_Some (h !! t') → (t' ≤ k + n)%nat) →
    ∃ t m, h !! t = Some m ∧ (n ≤ t)%nat ∧ ∀ t', is_Some (h !! t') → (t' ≤ t)%nat) as Hk.
  { induction k as [|k IH]; intros Hb.
    - destruct Hn as [m Hm]. exists n, m. split_and!; [done|done|exact Hb].
    - destruct (h !! (S k + n)%nat) as [m|] eqn:Hm.
      + exists (S k + n)%nat, m. split_and!; [done|lia|done].
      + apply IH. intros t' Ht'. specialize (Hb _ Ht').
        destruct (decide (t' = (S k + n)%nat)) as [->|]; [|lia].
        rewrite Hm in Ht'. by destruct Ht'. }
  apply (Hk (max_list (elements (dom h)))). intros t' Ht'.
  apply elem_of_dom, elem_of_elements in Ht'. apply max_list_elem_of_le in Ht'. lia.
Qed.

Lemma load_progress o M V l : is_Some (M l !! V l) → is_Some (load o M V l (V l)).
Proof. intros [m Hm]. unfold load. rewrite Hm, Nat.leb_refl. by eexists. Qed.

Lemma update_progress M V l f :
  is_Some (M l !! V l) → ∃ t m, M l !! t = Some m ∧ (V l ≤ t)%nat
    ∧ (∀ t', is_Some (M l !! t') → (t' ≤ t)%nat) ∧ is_Some (update M V l t f).
Proof.
  intros Hl. destruct (last_message _ _ Hl) as (t & m & Hm & Hle & Hlast).
  exists t, m. split_and!; try done. unfold update. rewrite Hm. simpl.
  rewrite (proj2 (Nat.leb_le _ _)) by done. rewrite bool_decide_eq_true_2; [by eexists|].
  apply eq_None_not_Some. intros Hs%Hlast. lia.
Qed.

Lemma store_progress o M V l v :
  is_Some (M l !! V l) → ∃ t, is_Some (store o M V l t v).
Proof.
  intros Hl. destruct (last_message _ _ Hl) as (t & m & _ & Hle & Hlast).
  exists (S t). unfold store. rewrite (proj2 (Nat.ltb_lt _ _)) by lia.
  rewrite bool_decide_eq_true_2; [by eexists|].
  apply eq_None_not_Some. intros Hs%Hlast. lia.
Qed.
End memory.
