(* ===== verification/LockFreeWeak.v ===== *)
(** * lock_free_queue under its own memory orders

    The accesses of [LockFreeQueue<T>] (lock_free_queue.hpp) with the memory
    orders the source gives them, over the views of WeakMemory.v: the positions
    and the statistics are relaxed, the sequence numbers and [closed_] are
    acquired and released, the storage of a cell is not atomic at all.  The
    program points are those of LockFreeQueue.v.  What is shown: no access to
    the storage of a cell races with another, and every run is one of a bounded
    first-in first-out queue whose refusals may be out of date, but those of a
    thread that has seen every store, which are as LockFreeQueue.v allows. *)

From stdpp Require Import functions.
From S2P Require Import Prelude WeakMemory LockFreeQueue.
Open Scope Z_scope.

Module Weak.

(** ** State *)

Inductive loc :=
  | Enqueue | Dequeue | Flag
  | Sequence (j : nat)
  | Storage (j : nat)
  | Pushes | Pops | FailedPushes | FailedPops | ClosedPushes.
#[export] Instance loc_eq_dec : EqDecision loc.
Proof. solve_decision. Defined.

Definition atomic (l : loc) : bool := match l with Storage _ => false | _ => true end.

(** [data]: for each cell the number of accesses to its storage, and the object
    it holds. *)
Record Queue (T : Type) := mkQueue {
  mem : memory loc;
  data : list (nat * option T);
  cells : Z;
}.
Arguments mkQueue {T}.
Arguments mem {T}.
Arguments data {T}.
Arguments cells {T}.
#[export] Instance eta_Queue {T} : Eta (Queue T) := λ q, mkQueue (mem q) (data q) (cells q).

(** What an access does: the thread moves; it cannot be made in this way; it
    is undefined behaviour, a data race or a read of storage without an
    object. *)
Inductive access (T : Type) :=
  | Moved (q : Queue T) (V : view loc) (p : pc T) (es : list (event T))
  | Blocked
  | Undefined.
Arguments Moved {T} q V p es.
Arguments Blocked {T}.
Arguments Undefined {T}.

Section operations.
Context {T : Type}.
Implicit Types (q : Queue T) (V : view loc) (v : T) (p : pc T).

(** The constructor's stores come before every call: they are the messages at
    timestamp 0. *)
Definition make (capacity : Z) : outcome (Queue T) :=
  if capacity =? 0
  then Throws (InvalidArgument "LockFreeQueue capacity must be greater than 0")
  else Returns (mkQueue
    (λ l, {[0%nat := mkMessage match l with Sequence i => Z.of_nat i | _ => 0 end origin]})
    (replicate (Z.to_nat capacity) (0%nat, None)) capacity).

Definition index q (pos : Z) : nat := Z.to_nat (pos mod cells q).

(** *** Accesses *)

Definition loads o q V l (t : nat) (k : Z → view loc → access T) : access T :=
  match load o (mem q) V l t with Some (x, V) => k x V | None => Blocked end.
Definition stores o q V l (t : nat) (x : Z) (p : pc T) : access T :=
  match store o (mem q) V l t x with
  | Some (M, V) => Moved (q <| mem := M |>) V p []
  | None => Blocked
  end.
(** [fetch_add(1, relaxed)] of a counter. *)
Definition counts q V l (t : nat) (p : pc T) : access T :=
  match update (mem q) V l t (λ n, n ⊕ 1) with
  | Some (_, M, V) => Moved (q <| mem := M |>) V p []
  | None => Blocked
  end.
(** [compare_exchange_weak(pos, pos + 1, relaxed, relaxed)] that reads the
    message at [t]. *)
Definition exchanges q V l (t : nat) (spurious : bool) (pos : Z) (p : pc T) (es : list (event T))
    (retry : Z → pc T) : access T :=
  loads relaxed q V l t (λ x V',
    if (x =? pos) && negb spurious
    then match update (mem q) V l t (λ _, pos ⊕ 1) with
         | Some (_, M, V) => Moved (q <| mem := M |>) V p es
         | None => Blocked
         end
    else Moved q V' (retry x) []).
(** An access to the storage of cell [j], which leaves [y] there. *)
Definition touches q V (j : nat) (k : option T → option (option T * pc T)) : access T :=
  match data q !! j with
  | Some (n, x) =>
      if (V (Storage j) =? n)%nat
      then match k x with
           | Some (y, p) =>
               Moved (q <| data := <[j := (S n, y)]> (data q) |>) (<[Storage j := S n]> V) p []
           | None => Undefined
           end
      else Undefined
  | None => Undefined
  end.

(** *** The calls *)

(** The next access of thread [i], with view [V]; [t] is the timestamp it works
    at, [spurious] lets a weak compare-and-swap fail. *)
Definition thread_step (i t : nat) (spurious : bool) q V p : access T :=
  match p with
  | Ready => Blocked
  | PushStart v =>
      loads acquire q V Flag t (λ x V,
        if negb (x =? 0) then Moved q V PushRefused [Refused i] else Moved q V (PushLoad v) [])
  | PushRefused => counts q V ClosedPushes t PushFailed
  | PushLoad v => loads relaxed q V Enqueue t (λ x V, Moved q V (PushSeq v x) [])
  | PushSeq v pos =>
      loads acquire q V (Sequence (index q pos)) t (λ x V,
        let d := diff x pos in
        if d =? 0 then Moved q V (PushCas v pos) []
        else if d <? 0 then Moved q V PushFailed [Full i]
        else Moved q V (PushLoad v) [])
  | PushCas v pos =>
      exchanges q V Enqueue t spurious pos (PushWrite v pos) [Enq i v] (PushSeq v)
  | PushWrite v pos =>
      touches q V (index q pos) (λ _, Some (Some v, PushPublish v pos))
  | PushPublish v pos => stores release q V (Sequence (index q pos)) t (pos ⊕ 1) PushCount
  | PushCount => counts q V Pushes t (Returned (RPush true))
  | PushFailed => counts q V FailedPushes t (Returned (RPush false))
  | PopLoad => loads relaxed q V Dequeue t (λ x V, Moved q V (PopSeq x) [])
  | PopSeq pos =>
      loads acquire q V (Sequence (index q pos)) t (λ x V,
        let d := diff x (pos ⊕ 1) in
        if d =? 0 then Moved q V (PopCas pos) []
        else if d <? 0 then Moved q V PopFailed [Empty i]
        else Moved q V PopLoad [])
  | PopCas pos =>
      exchanges q V Dequeue t spurious pos (PopRead pos)
        (match data q !! index q pos with Some (_, Some v) => [Deq i v] | _ => [] end) PopSeq
  | PopRead pos =>
      touches q V (index q pos) (λ x, v ← x; Some (None, PopRelease v pos))
  | PopRelease v pos =>
      stores release q V (Sequence (index q pos)) t (pos ⊕ cells q) (PopCount v)
  | PopCount v => counts q V Pops t (Returned (RPop (Some v)))
  | PopFailed => counts q V FailedPops t (Returned (RPop None))
  | Returned r => Moved q V Ready [Ret i r]
  end.

Definition close (t : nat) q V : option (Queue T * view loc) :=
  '(M, V) ← store release (mem q) V Flag t 1;
  Some (q <| mem := M |>, V).

(** ** The system of threads *)

Record system := mkSystem {
  queue : Queue T;
  threads : list (pc T * view loc);
}.

Inductive weak_step : system → list (event T) → system → Prop :=
  | weak_thread i t spurious q V p q' V' p' es ts :
      ts !! i = Some (p, V) → thread_step i t spurious q V p = Moved q' V' p' es →
      weak_step (mkSystem q ts) es (mkSystem q' (<[i := (p', V')]> ts))
  | weak_call_push i v V q ts :
      ts !! i = Some (Ready, V) →
      weak_step (mkSystem q ts) [] (mkSystem q (<[i := (PushStart v, V)]> ts))
  | weak_call_pop i V q ts :
      ts !! i = Some (Ready, V) →
      weak_step (mkSystem q ts) [] (mkSystem q (<[i := (PopLoad, V)]> ts))
  | weak_close i t V V' q q' ts :
      ts !! i = Some (Ready, V) → close t q V = Some (q', V') →
      weak_step (mkSystem q ts) [Closed i] (mkSystem q' (<[i := (Ready, V')]> ts)).

(** The threads start after the constructor, whose stores they have seen. *)
Definition weak_init (cap : Z) (s : system) : Prop :=
  make cap = Returns (queue s) ∧ Forall (λ x, x = (Ready, origin)) (threads s).

(** Runs whose enqueue position keeps clear of the sign bit. *)
Definition in_range (s : system) : Prop :=
  ∀ t, is_Some (mem (queue s) Enqueue !! t) → Z.of_nat t + cells (queue s) < two63.

Definition weak_lts (cap : Z) : lts system (event T) :=
  Lts (weak_init cap) (λ s es s', weak_step s es s' ∧ in_range s').
End operations.
Arguments system T : clear implicits.

(** ** Abstract queue

    The queue of LockFreeQueue.v, except that a refusal may be out of date: a
    producer may answer that the queue is full, or a consumer that it is empty,
    by what it has seen of the other threads. *)
Inductive stale_step {T} (cap : Z) : lqueue T → list (event T) → lqueue T → Prop :=
  | stale_now a es a' : spec_step cap a es a' → stale_step cap a es a'
  | stale_full i l c n f :
      f !! i = None →
      stale_step cap (mkLqueue l c n f) [Full i]
        (mkLqueue l c n (<[i := Answered (RPush false)]> f))
  | stale_empty i l c n f :
      f !! i = None →
      stale_step cap (mkLqueue l c n f) [Empty i]
        (mkLqueue l c n (<[i := Answered (RPop None)]> f)).

Definition stale_lts {T} (cap : Z) : lts (lqueue T) (event T) :=
  Lts (λ a, a = mkLqueue [] false 0 ∅) (stale_step cap).

Lemma stale_run {T} cap (a : lqueue T) es a' :
  run (lqueue_lts cap) a es a' → run (stale_lts cap) a es a'.
Proof. induction 1; econstructor; [by apply stale_now|done]. Qed.

(** ** Simulation relation

    A queue [Q] of LockFreeQueue.v goes along with the memory: its positions are
    the last messages of theirs, its cells those of the sequence numbers. *)
Section relation.
Context {T : Type} (cap : Z).
Implicit Types (q : Queue T) (Q : LockFreeQueue.Queue T) (V : view loc) (p : pc T)
  (M : memory loc) (ts : list (pc T * view loc)) (s : system T).

Definition idx (pos : Z) : nat := Z.to_nat (pos mod cap).

(** The history of a position: it is counted up from 0. *)
Record tickets (h : gmap nat (message loc)) (n : Z) : Prop := {
  k_known t : is_Some (h !! t) ↔ Z.of_nat t ≤ n;
  k_value t m : h !! t = Some m → value m = Z.of_nat t;
}.

(** The last message of a sequence number, which only grows. *)
Record newest (h : gmap nat (message loc)) (t : nat) (m : message loc) : Prop := {
  n_at : h !! t = Some m;
  n_last t' m' : h !! t' = Some m' → (t' ≤ t)%nat ∧ 0 ≤ value m' ≤ value m
    ∧ (t' ≠ t → value m' < value m);
}.

Definition version q (l : loc) : nat :=
  match l with Storage j => default 0%nat (fst <$> data q !! j) | _ => 0%nat end.

(** [V] has seen the sequence number [x] of cell [j], and what came before. *)
Definition saw q V (j : nat) (x : Z) : Prop :=
  ∃ t m, mem q (Sequence j) !! t = Some m ∧ value m = x ∧ (t ≤ V (Sequence j))%nat
    ∧ (released m (Storage j) ≤ V (Storage j))%nat.

(** [V] has seen everything of cell [j]. *)
Definition holds q V (j : nat) : Prop :=
  (version q (Storage j) ≤ V (Storage j))%nat
  ∧ ∃ t m, newest (mem q (Sequence j)) t m ∧ (t ≤ V (Sequence j))%nat.

Definition knows q V p : Prop :=
  match p with
  | PushCas _ pos => saw q V (idx pos) pos
  | PopCas pos => saw q V (idx pos) (pos + 1)
  | _ => match claim p with Some pos => holds q V (idx pos) | None => True end
  end.

Definition claimed ts (j : nat) : Prop :=
  ∃ i p V pos, ts !! i = Some (p, V) ∧ claim p = Some pos ∧ idx pos = j.

(** Cell [c] of [Q] at index [j]; a cell on which nobody works has passed its
    storage on with its sequence number. *)
Definition cell_ok q ts (j : nat) (c : Cell T) : Prop :=
  data q !! j = Some (version q (Storage j), storage c)
  ∧ ∃ t m, newest (mem q (Sequence j)) t m ∧ value m = sequence c
    ∧ (claimed ts j ∨ (version q (Storage j) ≤ released m (Storage j))%nat).

Record coupled Q s : Prop := {
  c_cells : cells (queue s) = cap;
  c_enqueue : tickets (mem (queue s) Enqueue) (enqueue_pos_ Q);
  c_dequeue : tickets (mem (queue s) Dequeue) (dequeue_pos_ Q);
  c_flag t m : mem (queue s) Flag !! t = Some m → value m ≠ 0 → closed_ Q = true;
  c_cell j c : buffer_ Q !! j = Some c → cell_ok (queue s) (threads s) j c;
  c_threads i p V : threads s !! i = Some (p, V) →
    closed atomic (mem (queue s)) (version (queue s)) V ∧ knows (queue s) V p;
  c_messages : all_closed atomic (mem (queue s)) (version (queue s));
}.

Definition weak_rel s (a : lqueue T) : Prop :=
  ∃ Q g, rel cap (LockFreeQueue.mkSystem Q (fst <$> threads s)) a g ∧ coupled Q s.
End relation.

Section simulation.
Context {T : Type} (cap : Z).
Implicit Types (q : Queue T) (Q : LockFreeQueue.Queue T) (V : view loc) (p : pc T)
  (M : memory loc) (ts : list (pc T * view loc)) (s : system T) (g : list (slot T))
  (a : lqueue T).

(** Messages stay. *)
Definition grows q q' : Prop :=
  (∀ l t m, mem q l !! t = Some m → mem q' l !! t = Some m)
  ∧ ∀ l, (version q l ≤ version q' l)%nat.

Lemma grows_closed q q' V :
  grows q q' → closed atomic (mem q) (version q) V → closed atomic (mem q') (version q') V.
Proof. intros [Hm Hv]. apply closed_mono; [|done]. intros l t [m ?]. eauto. Qed.

Lemma saw_grows q q' V j x : grows q q' → saw q V j x → saw q' V j x.
Proof. intros [Hm _] (t & m & ? & ?). exists t, m. eauto. Qed.

(** A step of thread [i] that changes the cell [j] only, if any. *)
Lemma coupled_step Q Q' q q' ts i p V p' V' j :
  coupled cap Q (mkSystem q ts) → ts !! i = Some (p, V) → grows q q' →
  cells q' = cells q →
  tickets (mem q' Enqueue) (enqueue_pos_ Q') → tickets (mem q' Dequeue) (dequeue_pos_ Q') →
  (∀ t m, mem q' Flag !! t = Some m → value m ≠ 0 → closed_ Q' = true) →
  (∀ k, k ≠ j → buffer_ Q' !! k = buffer_ Q !! k ∧ data q' !! k = data q !! k
     ∧ mem q' (Sequence k) = mem q (Sequence k)) →
  (∀ c, buffer_ Q' !! j = Some c → cell_ok cap q' (<[i := (p', V')]> ts) j c) →
  (∀ pos, claim p = Some pos → idx cap pos = j ∨ claim p' = Some pos) →
  (∀ k pk Vk pos, k ≠ i → ts !! k = Some (pk, Vk) → claim pk = Some pos → idx cap pos ≠ j) →
  closed atomic (mem q') (version q') V' → knows cap q' V' p' →
  all_closed atomic (mem q') (version q') →
  coupled cap Q' (mkSystem q' (<[i := (p', V')]> ts)).
Proof.
  intros [H1 H2 H3 H4 H5 H6 H7] Hi Hg Hc He Hd Hf Hk Hj Hcl Hne HV Hkn Hall.
  simpl in *. split; simpl; try done; [congruence| |].
  - intros k c Hb. destruct (decide (k = j)) as [->|Hkj]; [by apply Hj|].
    destruct (Hk _ Hkj) as (Hb' & Hdk & Hmk). rewrite Hb' in Hb.
    destruct (H5 _ _ Hb) as (Hdata & t & m & Hn & Hv & Hor).
    assert (version q' (Storage k) = version q (Storage k)) as Hver
      by (unfold version; by rewrite Hdk).
    split; [by rewrite Hdk, Hver|]. exists t, m. rewrite Hmk, Hver. split_and!; try done.
    destruct Hor as [(i0 & p0 & V0 & pos & Hi0 & Hp0 & Hx)|]; [left|by right].
    destruct (decide (i0 = i)) as [->|Hii].
    + simplify_eq. destruct (Hcl _ Hp0) as [?|Hp']; [congruence|].
      exists i, p', V', pos. split_and!; try done. apply list_lookup_insert_eq.
      by eapply lookup_lt_Some.
    + exists i0, p0, V0, pos. by rewrite list_lookup_insert_ne.
  - intros k pk Vk [(<- & [= <- <-] & _)|[Hki Hkk]]%list_lookup_insert_Some; [done|].
    destruct (H6 _ _ _ Hkk) as [Hcv Hkv]. split; [by eapply grows_closed|].
    assert (∀ pos, claim pk = Some pos → holds q Vk (idx cap pos) → holds q' Vk (idx cap pos))
      as Hh.
    { intros pos Hp. destruct (Hk (idx cap pos)) as (_ & Hdk & Hmk).
      { exact (Hne _ _ _ _ (not_eq_sym Hki) Hkk Hp). }
      unfold holds, version. by rewrite Hdk, Hmk. }
    destruct pk; simpl in *; try done; try (by eapply saw_grows); by apply Hh.
Qed.

(** *** Steps that leave the cells and the positions alone *)

Definition counter (l : loc) : bool :=
  match l with
  | Pushes | Pops | FailedPushes | FailedPops | ClosedPushes => true
  | _ => false
  end.

Lemma idx_lt Q ts a g pos :
  rel cap (LockFreeQueue.mkSystem Q (fst <$> ts)) a g → (idx cap pos < length (buffer_ Q))%nat.
Proof.
  intros H. pose proof (r_cap _ _ _ _ H). pose proof (r_glength _ _ _ _ H).
  pose proof (r_length _ _ _ _ H) as Hl. simpl in Hl. unfold idx.
  pose proof (slot_index_lt cap pos ltac:(done)). lia.
Qed.

Lemma coupled_quiet Q q q' ts a g i p V p' V' :
  rel cap (LockFreeQueue.mkSystem Q (fst <$> ts)) a g →
  coupled cap Q (mkSystem q ts) → ts !! i = Some (p, V) → claim p = None →
  grows q q' → cells q' = cells q → data q' = data q →
  (∀ l, counter l = false → mem q' l = mem q l) →
  closed atomic (mem q') (version q') V' → knows cap q' V' p' →
  all_closed atomic (mem q') (version q') →
  coupled cap Q (mkSystem q' (<[i := (p', V')]> ts)).
Proof.
  intros Hrel H Hi Hp Hg Hc Hd Hm HV Hk Hall.
  destruct H as [H1 H2 H3 H4 H5 H6 H7] eqn:HH. clear HH. simpl in *.
  eapply (coupled_step Q Q q q' ts i p V p' V' (length (buffer_ Q)));
    rewrite ?Hd, ?Hm by done; try done.
  - intros k Hne. by rewrite Hm.
  - intros c Hlen. apply lookup_lt_Some in Hlen. lia.
  - rewrite Hp. done.
  - intros k pk Vk pos _ _ _ Heq. pose proof (idx_lt _ _ _ _ pos Hrel). lia.
Qed.

(** The shadow thread moves as well. *)
Lemma rel_quiet Q ts a g i p V p' V' :
  rel cap (LockFreeQueue.mkSystem Q (fst <$> ts)) a g → ts !! i = Some (p, V) →
  claim p = None →
  thread_ok cap (enqueue_pos_ Q) (dequeue_pos_ Q) g (inflight a !! i) i p' →
  rel cap (LockFreeQueue.mkSystem Q (fst <$> <[i := (p', V')]> ts)) a g.
Proof.
  intros H Hi Hp Hok. rewrite list_fmap_insert. simpl.
  pose proof (r_closed _ _ _ _ H) as Hcl. simpl in Hcl.
  assert ((fst <$> ts) !! i = Some p) as Hi' by (by rewrite list_lookup_fmap, Hi).
  pose proof (rel_local cap Q Q _ a g i p p' (closed_ Q) (inflight a) H Hi' Hp) as Hr.
  destruct a as [l c n f]. simpl in *. subst c. by apply Hr.
Qed.

Lemma rel_refused Q ts a g i p V p' V' r :
  rel cap (LockFreeQueue.mkSystem Q (fst <$> ts)) a g → ts !! i = Some (p, V) →
  claim p = None → thread_ok cap (enqueue_pos_ Q) (dequeue_pos_ Q) g (Some r) i p' →
  rel cap (LockFreeQueue.mkSystem Q (fst <$> <[i := (p', V')]> ts))
    (mkLqueue (items a) (lclosed a) (taken a) (<[i := r]> (inflight a))) g.
Proof.
  intros H Hi Hp Hok. rewrite list_fmap_insert. simpl.
  eapply sim_result; [done| |done..]. by rewrite list_lookup_fmap, Hi.
Qed.

Lemma grows_insert q l t m :
  mem q l !! t = None → grows q (q <| mem := <[l := <[t := m]> (mem q l)]> (mem q) |>).
Proof.
  intros Hn. split; [|done]. intros l' t' m' Hm. simpl. destruct (decide (l = l')) as [<-|Hne].
  - rewrite fn_lookup_insert, lookup_insert_ne; [done|]. congruence.
  - by rewrite fn_lookup_insert_ne.
Qed.

Lemma loads_Moved o q V l t k q' V' p' (es : list (event T)) :
  loads o q V l t k = Moved q' V' p' es →
  ∃ x V1, load o (mem q) V l t = Some (x, V1) ∧ k x V1 = Moved q' V' p' es.
Proof. unfold loads. destruct (load _ _ _ _ _) as [[x V1]|]; [|done]. eauto. Qed.

(** What a thread gets from a load. *)
Lemma load_view Q q ts i p V o l t x V1 :
  coupled cap Q (mkSystem q ts) → ts !! i = Some (p, V) → atomic l = true →
  load o (mem q) V l t = Some (x, V1) → closed atomic (mem q) (version q) V1.
Proof.
  intros H Hi Hl Hld. eapply load_closed; [apply (c_messages _ _ _ H)| |done|done].
  by eapply (c_threads _ _ _ H).
Qed.

Definition simulated i t sp p : Prop := ∀ q ts a V q' V' p' es,
  weak_rel cap (mkSystem q ts) a → ts !! i = Some (p, V) →
  thread_step i t sp q V p = Moved q' V' p' es → in_range (mkSystem q' (<[i := (p', V')]> ts)) →
  ∃ a', run (stale_lts cap) a es a' ∧ weak_rel cap (mkSystem q' (<[i := (p', V')]> ts)) a'.

(** A load after which the call has no new result. *)
Lemma quiet_load Q q ts a g i p V o l t x V1 p' :
  rel cap (LockFreeQueue.mkSystem Q (fst <$> ts)) a g → coupled cap Q (mkSystem q ts) →
  ts !! i = Some (p, V) → claim p = None →
  load o (mem q) V l t = Some (x, V1) → atomic l = true →
  thread_ok cap (enqueue_pos_ Q) (dequeue_pos_ Q) g (inflight a !! i) i p' →
  knows cap q V1 p' →
  ∃ a', run (stale_lts cap) a [] a' ∧ weak_rel cap (mkSystem q (<[i := (p', V1)]> ts)) a'.
Proof.
  intros Hrel H Hi Hp Hld Hl Hok Hk. exists a. split; [constructor|]. exists Q, g. split.
  - by eapply rel_quiet.
  - eapply coupled_quiet; try done; [by eapply load_view|apply (c_messages _ _ _ H)].
Qed.

(** One that fixes the result [r] of the call, as the specification allows. *)
Lemma refused_load Q q ts a g i p V o l t x V1 p' r e :
  rel cap (LockFreeQueue.mkSystem Q (fst <$> ts)) a g → coupled cap Q (mkSystem q ts) →
  ts !! i = Some (p, V) → claim p = None →
  load o (mem q) V l t = Some (x, V1) → atomic l = true →
  thread_ok cap (enqueue_pos_ Q) (dequeue_pos_ Q) g (Some r) i p' →
  knows cap q V1 p' →
  stale_step cap a [e] (mkLqueue (items a) (lclosed a) (taken a) (<[i := r]> (inflight a))) →
  ∃ a', run (stale_lts cap) a [e] a' ∧ weak_rel cap (mkSystem q (<[i := (p', V1)]> ts)) a'.
Proof.
  intros Hrel H Hi Hp Hld Hl Hok Hk Hsp. eexists. split; [by apply run_one|]. exists Q, g. split.
  - by eapply rel_refused.
  - eapply coupled_quiet; try done; [by eapply load_view|apply (c_messages _ _ _ H)].
Qed.

(** A counter goes up. *)
Lemma quiet_count Q q ts a g i p V l t p' q' V' p1 es :
  rel cap (LockFreeQueue.mkSystem Q (fst <$> ts)) a g → coupled cap Q (mkSystem q ts) →
  ts !! i = Some (p, V) → claim p = None →
  counts q V l t p1 = Moved q' V' p' es → counter l = true →
  thread_ok cap (enqueue_pos_ Q) (dequeue_pos_ Q) g (inflight a !! i) i p1 →
  knows cap q' V' p1 →
  ∃ a', run (stale_lts cap) a es a' ∧ weak_rel cap (mkSystem q' (<[i := (p', V')]> ts)) a'.
Proof.
  intros Hrel H Hi Hp Hst Hl Hok Hk. unfold counts in Hst.
  destruct (update _ _ _ _ _) as [[[x M] V1]|] eqn:Hup; simplify_eq.
  assert (atomic l = true) as Hat by (by destruct l).
  destruct (update_closed atomic _ (version q) _ _ _ _ _ _ _ Hat
    (c_messages _ _ _ H) (proj1 (c_threads _ _ _ H _ _ _ Hi)) Hup) as [Hcl Hall].
  apply update_Some in Hup as (m & _ & _ & _ & Hn & -> & ->).
  exists a. split; [constructor|]. exists Q, g. split; [by eapply rel_quiet|].
  eapply coupled_quiet; try done.
  - by apply grows_insert.
  - intros l' Hl'. simpl. apply fn_lookup_insert_ne. intros ->. congruence.
Qed.

(** *** What loads see *)

Lemma index_idx Q q ts pos : coupled cap Q (mkSystem q ts) → index q pos = idx cap pos.
Proof. intros H. unfold index, idx. by rewrite (c_cells _ _ _ H : cells q = cap). Qed.

Lemma ticket_loaded h n o M V l t x V1 :
  tickets h n → M l = h → load o M V l t = Some (x, V1) → 0 ≤ x ≤ n.
Proof.
  intros Hk <- (m & Hm & <- & _)%load_sees. rewrite (k_value _ _ Hk _ _ Hm).
  pose proof (proj1 (k_known _ _ Hk t) (mk_is_Some _ _ Hm)). lia.
Qed.

(** The cell of a position, in the memory and in the shadow. *)
Lemma shadow_cell Q q ts a g pos c :
  rel cap (LockFreeQueue.mkSystem Q (fst <$> ts)) a g → coupled cap Q (mkSystem q ts) →
  cell Q pos = Some c → cell_ok cap q ts (idx cap pos) c.
Proof.
  intros Hrel H Hc. apply (c_cell _ _ _ H). unfold cell, LockFreeQueue.index in Hc.
  by rewrite (r_capacity _ _ _ _ Hrel : capacity_ Q = cap) in Hc.
Qed.

Lemma slot_at Q q ts a g pos :
  rel cap (LockFreeQueue.mkSystem Q (fst <$> ts)) a g → coupled cap Q (mkSystem q ts) →
  ∃ st, gat cap g pos = Some st ∧ cell_ok cap q ts (idx cap pos) (slot_cell st)
    ∧ 0 ≤ sequence (slot_cell st) < two63.
Proof.
  intros Hrel H. destruct (gat_is_some _ _ _ _ pos Hrel) as [st Hg]. exists st.
  split; [done|]. split; [|by eapply slot_seq_range].
  destruct (gat_slot _ _ _ _ _ _ Hrel Hg) as (_ & _ & Hc & _). by eapply shadow_cell.
Qed.

Lemma sequence_loaded Q q ts a g pos V t x V1 :
  rel cap (LockFreeQueue.mkSystem Q (fst <$> ts)) a g → coupled cap Q (mkSystem q ts) →
  load acquire (mem q) V (Sequence (idx cap pos)) t = Some (x, V1) →
  ∃ st, gat cap g pos = Some st ∧ 0 ≤ x ≤ sequence (slot_cell st)
    ∧ sequence (slot_cell st) < two63 ∧ saw q V1 (idx cap pos) x.
Proof.
  intros Hrel H (m & Hm & Hx & _ & _ & Hne & Ht)%load_sees.
  destruct (slot_at _ _ _ _ _ pos Hrel H) as (st & Hg & (_ & t0 & m0 & Hn & Hv & _) & Hr).
  exists st. split; [done|]. destruct (n_last _ _ _ Hn _ _ Hm) as (_ & Hle & _).
  split_and!; [lia|lia|lia|]. exists t, m. split_and!; [done|done|lia|].
  rewrite Hne by done. apply sees_join_r.
Qed.

(** A sequence number that a producer waits for, once it has been stored. *)
Lemma producer_saw Q ts a g pos st :
  rel cap (LockFreeQueue.mkSystem Q (fst <$> ts)) a g → gat cap g pos = Some st →
  0 ≤ pos ≤ enqueue_pos_ Q → pos ≤ sequence (slot_cell st) →
  pos < enqueue_pos_ Q ∨ gat cap g pos = Some (Free pos).
Proof.
  intros H Hg Hpos Hle. destruct (gat_slot _ _ _ _ _ _ H Hg) as (Hm & Hr & _).
  pose proof (r_cap _ _ _ _ H) as Hc. pose proof (r_pos _ _ _ _ H) as Hp.
  pose proof (r_size _ _ _ _ H) as Hs. simpl in Hp, Hs, Hr.
  destruct (decide (pos < enqueue_pos_ Q)); [by left|right]. rewrite Hg. f_equal.
  pose proof (congr_lap _ _ cap ltac:(lia) Hm) as H1.
  pose proof (congr_lap _ _ cap ltac:(lia) (eq_sym Hm)) as H2.
  destruct st as [p|p i v b|p v|p i v b]; simpl in *; try lia. f_equal. lia.
Qed.

Lemma consumer_saw Q ts a g pos st :
  rel cap (LockFreeQueue.mkSystem Q (fst <$> ts)) a g → gat cap g pos = Some st →
  0 ≤ pos ≤ dequeue_pos_ Q → pos + 1 ≤ sequence (slot_cell st) →
  pos < dequeue_pos_ Q ∨ ∃ v, gat cap g pos = Some (Avail pos v).
Proof.
  intros H Hg Hpos Hle. destruct (gat_slot _ _ _ _ _ _ H Hg) as (Hm & Hr & _).
  pose proof (r_cap _ _ _ _ H) as Hc. pose proof (r_pos _ _ _ _ H) as Hp.
  pose proof (r_size _ _ _ _ H) as Hs. simpl in Hp, Hs, Hr.
  destruct (decide (pos < dequeue_pos_ Q)); [by left|right].
  pose proof (congr_lap _ _ cap ltac:(lia) Hm) as H1.
  pose proof (congr_lap _ _ cap ltac:(lia) (eq_sym Hm)) as H2.
  destruct st as [p|p i v b|p v|p i v b]; simpl in *; try lia.
  exists v. rewrite Hg. do 2 f_equal. lia.
Qed.

Ltac weak_intro :=
  intros q ts a V q' V' p' es (Q & g & Hrel & H) Hi Hst Hbd;
  pose proof (list_lookup_fmap_Some_2 fst _ _ _ Hi) as Hi'; simpl in Hi';
  pose proof (r_threads _ _ _ _ Hrel _ _ Hi') as Hok;
  pose proof (r_pos _ _ _ _ Hrel) as Hpos; pose proof (r_bound _ _ _ _ Hrel) as Hb;
  pose proof (r_cap _ _ _ _ Hrel) as Hcap; simpl in Hok, Hpos, Hb, Hst.

Lemma weak_push_start i t sp v : simulated i t sp (PushStart v).
Proof.
  weak_intro. apply loads_Moved in Hst as (x & V1 & Hld & Hst).
  destruct (Z.eqb_spec x 0) as [->|Hx]; simplify_eq/=; [by eapply quiet_load|].
  eapply refused_load; try done. apply stale_now.
  assert (lclosed a = true) as Hcl.
  { apply load_sees in Hld as (m & Hm & <- & _).
    rewrite (r_closed _ _ _ _ Hrel). by eapply (c_flag _ _ _ H). }
  destruct a as [l c n f]. simpl in *. subst c. by apply spec_refused.
Qed.

Lemma weak_push_load i t sp v : simulated i t sp (PushLoad v).
Proof.
  weak_intro. apply loads_Moved in Hst as (x & V1 & Hld & [= <- <- <- <-]).
  eapply quiet_load; try done. simpl. split; [done|].
  by eapply ticket_loaded; [apply (c_enqueue _ _ _ H)| |].
Qed.

Lemma weak_pop_load i t sp : simulated i t sp PopLoad.
Proof.
  weak_intro. apply loads_Moved in Hst as (x & V1 & Hld & [= <- <- <- <-]).
  eapply quiet_load; try done. simpl. split; [done|].
  by eapply ticket_loaded; [apply (c_dequeue _ _ _ H)| |].
Qed.

Lemma weak_push_seq i t sp v pos : simulated i t sp (PushSeq v pos).
Proof.
  weak_intro. apply loads_Moved in Hst as (x & V1 & Hld & Hst).
  rewrite (index_idx _ _ _ _ H) in Hld. destruct Hok as [Hf Hr].
  destruct (sequence_loaded _ _ _ _ _ _ _ _ _ _ Hrel H Hld) as (st & Hg & Hx & Hs & Hsaw).
  rewrite diff_exact in Hst by lia.
  destruct (Z.eqb_spec (x - pos) 0) as [Heq|Hne]; simplify_eq.
  - assert (x = pos) as -> by lia. eapply quiet_load; try done. simpl. split_and!; [done|lia|lia|].
    eapply producer_saw; try done. lia.
  - destruct (Z.ltb_spec (x - pos) 0); simplify_eq; [|by eapply quiet_load].
    eapply refused_load; try done. destruct a. by apply stale_full.
Qed.

Lemma weak_pop_seq i t sp pos : simulated i t sp (PopSeq pos).
Proof.
  weak_intro. apply loads_Moved in Hst as (x & V1 & Hld & Hst).
  rewrite (index_idx _ _ _ _ H) in Hld. destruct Hok as [Hf Hr].
  destruct (sequence_loaded _ _ _ _ _ _ _ _ _ _ Hrel H Hld) as (st & Hg & Hx & Hs & Hsaw).
  rewrite u64_small in Hst by (rewrite two64_val; rewrite two63_val in *; lia).
  rewrite diff_exact in Hst by lia.
  destruct (Z.eqb_spec (x - (pos + 1)) 0) as [Heq|Hne]; simplify_eq.
  - assert (x = pos + 1) as -> by lia. eapply quiet_load; try done. simpl.
    split_and!; [done|lia|lia|]. eapply consumer_saw; try done. lia.
  - destruct (Z.ltb_spec (x - (pos + 1)) 0); simplify_eq; [|by eapply quiet_load].
    eapply refused_load; try done. destruct a. by apply stale_empty.
Qed.

(** *** Who works on a cell *)

(** Nobody but the owner of a slot has claimed its position. *)
Lemma unclaimed Q ts a g pos st k pk Vk pos' :
  rel cap (LockFreeQueue.mkSystem Q (fst <$> ts)) a g → gat cap g pos = Some st →
  owner st ≠ Some k → ts !! k = Some (pk, Vk) → claim pk = Some pos' →
  idx cap pos' ≠ idx cap pos.
Proof.
  intros H Hg Ho Hk Hc Heq.
  assert ((fst <$> ts) !! k = Some pk) as Hk' by (by rewrite list_lookup_fmap, Hk).
  destruct (claimed_slot _ _ _ _ _ _ _ _ H Hk' Hc) as (st' & Hg' & Ho' & _).
  unfold gat in Hg, Hg'. unfold idx in Heq. rewrite Heq, Hg in Hg'. congruence.
Qed.

(** A thread that has seen the present sequence number of a cell on which nobody
    works has seen everything of the cell. *)
Lemma saw_holds Q q ts a g pos st V :
  rel cap (LockFreeQueue.mkSystem Q (fst <$> ts)) a g → coupled cap Q (mkSystem q ts) →
  gat cap g pos = Some st → owner st = None →
  saw q V (idx cap pos) (sequence (slot_cell st)) → holds q V (idx cap pos).
Proof.
  intros Hrel H Hg Ho (t & m & Hm & Hv & Ht & Hs).
  destruct (slot_at _ _ _ _ _ pos Hrel H) as (st' & Hg' & (_ & t0 & m0 & Hn & Hv0 & Hor) & _).
  assert (st' = st) as -> by congruence.
  destruct (n_last _ _ _ Hn _ _ Hm) as (_ & _ & Hlt).
  destruct (decide (t = t0)) as [->|Hne]; [|specialize (Hlt Hne); lia].
  pose proof (n_at _ _ _ Hn) as Hm0. assert (m0 = m) as -> by congruence.
  split; [|by exists t0, m]. destruct Hor as [(k & pk & Vk & pos' & Hk & Hc & Hi)|?]; [|lia].
  destruct (unclaimed _ _ _ _ _ _ _ _ _ _ Hrel Hg ltac:(rewrite Ho; done) Hk Hc Hi).
Qed.

Lemma holds_keep q q' V V' j :
  holds q V j → data q' !! j = data q !! j → mem q' (Sequence j) = mem q (Sequence j) →
  (V (Storage j) ≤ V' (Storage j))%nat → (V (Sequence j) ≤ V' (Sequence j))%nat → holds q' V' j.
Proof.
  unfold holds, version. intros (Hv & t & m & Hn & Ht) -> -> ??. split; [lia|].
  exists t, m. split; [done|lia].
Qed.

Lemma tickets_next h n t m :
  tickets h n → Z.of_nat t = n → value m = n + 1 → tickets (<[S t := m]> h) (n + 1).
Proof.
  intros [Hk Hv] Ht Hm. split.
  - intros t'. rewrite lookup_insert_is_Some', Hk. lia.
  - intros t' m' [(<- & <-)|[_ Hm']]%lookup_insert_Some; [lia|by apply Hv].
Qed.

(** A successful exchange reads the last position. *)
Lemma ticket_taken h n t : tickets h n → is_Some (h !! t) → h !! S t = None → Z.of_nat t = n.
Proof.
  intros Hk H1%(k_known _ _ Hk) H2. destruct (decide (Z.of_nat (S t) ≤ n)) as [Hle|]; [|lia].
  apply (k_known _ _ Hk) in Hle as [m ?]. congruence.
Qed.

(** *** Tickets *)

Lemma exchanges_Moved q V l t sp pos p1 es1 retry q' V' p' es :
  exchanges q V l t sp pos p1 es1 retry = Moved q' V' p' es →
  (∃ x, load relaxed (mem q) V l t = Some (x, V') ∧ q' = q ∧ p' = retry x ∧ es = [])
  ∨ sp = false ∧ p' = p1 ∧ es = es1 ∧ ∃ M, update (mem q) V l t (λ _, pos ⊕ 1) = Some (pos, M, V')
      ∧ q' = q <| mem := M |>.
Proof.
  intros (x & V1 & Hld & Hst)%loads_Moved. destruct (Z.eqb_spec x pos) as [->|Hne], sp;
    simpl in Hst; try (simplify_eq; left; by exists x || by exists pos).
  right. destruct (update _ _ _ _ _) as [[[x M] V2]|] eqn:Hup; simplify_eq.
  split_and!; try done. exists M. split; [|done].
  apply load_sees in Hld as (m & Hm & Hv & _). pose proof Hup as Hup'.
  apply update_Some in Hup' as (m' & Hm' & Hx & _). do 3 f_equal. congruence.
Qed.

(** Thread [i] takes the ticket [pos], which gives it the slot of [pos]. *)
Lemma weak_ticket Q Q' q ts a g i p V p' pos st l t M V' es a' g' :
  rel cap (LockFreeQueue.mkSystem Q (fst <$> ts)) a g → coupled cap Q (mkSystem q ts) →
  ts !! i = Some (p, V) → claim p = None → claim p' = Some pos →
  gat cap g pos = Some st → owner st = None → saw q V (idx cap pos) (sequence (slot_cell st)) →
  update (mem q) V l t (λ _, pos ⊕ 1) = Some (pos, M, V') →
  l = Enqueue ∨ l = Dequeue → 
  buffer_ Q' = buffer_ Q → closed_ Q' = closed_ Q →
  tickets (M Enqueue) (enqueue_pos_ Q') → tickets (M Dequeue) (dequeue_pos_ Q') →
  run (lqueue_lts cap) a es a' →
  rel cap (LockFreeQueue.mkSystem Q' (<[i := p']> (fst <$> ts))) a' g' →
  ∃ a', run (stale_lts cap) a es a'
    ∧ weak_rel cap (mkSystem (q <| mem := M |>) (<[i := (p', V')]> ts)) a'.
Proof.
  intros Hrel H Hi Hp Hp' Hg Ho Hsaw Hup Hl HbQ HcQ Hte Htd Hrun Hrel'.
  exists a'. split; [by apply stale_run|]. exists Q', g'. split.
  { simpl. by rewrite list_fmap_insert. }
  assert (atomic l = true ∧ (∀ j, l ≠ Sequence j) ∧ (∀ j, l ≠ Storage j) ∧ l ≠ Flag)
    as (Hat & Hls & Hlst & Hlf) by (by destruct Hl as [-> | ->]).
  destruct (update_closed atomic _ (version q) _ _ _ _ _ _ _ Hat
    (c_messages _ _ _ H) (proj1 (c_threads _ _ _ H _ _ _ Hi)) Hup) as [Hcl Hall].
  apply update_Some in Hup as (m & Hm & Hv & _ & Hn & -> & ->).
  set (M := <[l := _]> (mem q)) in *.
  assert (∀ l', l' ≠ l → M l' = mem q l') as HM
    by (intros l' ?; by apply fn_lookup_insert_ne).
  eapply (coupled_step Q Q' q _ ts i p V p' _ (idx cap pos)); try done.
  - by apply grows_insert.
  - simpl. rewrite HM by done. intros t' m'. rewrite HcQ. apply (c_flag _ _ _ H).
  - intros k Hk. simpl. by rewrite HbQ, HM.
  - intros c Hc. rewrite HbQ in Hc. destruct (c_cell _ _ _ H _ _ Hc) as (Hd & t0 & m0 & Hn0 & Hv0 & _).
    split; [done|]. exists t0, m0. simpl. rewrite HM by done. split_and!; [done|done|]. left.
    exists i, p', (<[l := S t]> V), pos. split_and!; try done.
    apply list_lookup_insert_eq. by eapply lookup_lt_Some.
  - rewrite Hp. done.
  - intros k pk Vk pos' Hk Hik Hck. eapply unclaimed; try done. by rewrite Ho.
  - assert (holds (q <| mem := M |>) (<[l := S t]> V) (idx cap pos)) as Hh.
    { apply (holds_keep q _ V); [by eapply saw_holds|done|simpl; by rewrite HM|..];
        rewrite fn_lookup_insert_ne by done; done. }
    unfold knows. destruct p'; simpl in Hp'; simplify_eq; simpl; exact Hh.
Qed.

Lemma weak_push_cas i t sp v pos : simulated i t sp (PushCas v pos).
Proof.
  weak_intro. destruct (exchanges_Moved _ _ _ _ _ _ _ _ _ _ _ _ _ Hst)
    as [(x & Hld & -> & -> & ->)|(-> & -> & -> & M & Hup & ->)].
  { eapply quiet_load; try done; simpl. split; [apply Hok|].
    by eapply ticket_loaded; [apply (c_enqueue _ _ _ H)| |]. }
  pose proof Hup as (m & Hm & Hv & _ & Hn & _ & HM)%update_Some.
  pose proof (ticket_taken _ _ _ (c_enqueue _ _ _ H) (mk_is_Some _ _ Hm) Hn) as Ht.
  rewrite (k_value _ _ (c_enqueue _ _ _ H) _ _ Hm) in Hv.
  assert (pos = enqueue_pos_ Q) as -> by lia. destruct Hok as (_ & _ & [?|Hg]); [lia|].
  assert (enqueue_pos_ Q + 1 + cap < two63) as Hb'.
  { specialize (Hbd (S t)). simpl in Hbd. rewrite HM, message_at in Hbd.
    rewrite (c_cells _ _ _ H : cells q = cap) in Hbd. specialize (Hbd ltac:(by eexists)). lia. }
  destruct (sim_enq _ _ _ _ _ _ _ Hrel Hi' Hb') as (a' & g' & Hsp & Hrel').
  assert (enqueue_pos_ Q ⊕ 1 = enqueue_pos_ Q + 1) as Hu
    by (apply u64_small; rewrite two64_val; rewrite two63_val in *; lia).
  eapply (weak_ticket Q (Q <| enqueue_pos_ := enqueue_pos_ Q + 1 |>) q ts a g i _ V _ _ (Free (enqueue_pos_ Q))); try done.
  - by apply (c_threads _ _ _ H _ _ _ Hi).
  - by left.
  - rewrite HM, fn_lookup_insert. simpl. rewrite Hu.
    apply tickets_next; [apply (c_enqueue _ _ _ H)|done|done].
  - rewrite HM, fn_lookup_insert_ne by done. apply (c_dequeue _ _ _ H).
  - by apply run_one.
Qed.

Lemma weak_pop_cas i t sp pos : simulated i t sp (PopCas pos).
Proof.
  weak_intro. destruct (exchanges_Moved _ _ _ _ _ _ _ _ _ _ _ _ _ Hst)
    as [(x & Hld & -> & -> & ->)|(-> & -> & -> & M & Hup & ->)].
  { eapply quiet_load; try done; simpl. split; [apply Hok|].
    by eapply ticket_loaded; [apply (c_dequeue _ _ _ H)| |]. }
  pose proof Hup as (m & Hm & Hv & _ & Hn & _ & HM)%update_Some.
  pose proof (ticket_taken _ _ _ (c_dequeue _ _ _ H) (mk_is_Some _ _ Hm) Hn) as Ht.
  rewrite (k_value _ _ (c_dequeue _ _ _ H) _ _ Hm) in Hv.
  assert (pos = dequeue_pos_ Q) as -> by lia. destruct Hok as (_ & _ & [?|[w Hg]]); [lia|].
  destruct (sim_deq _ _ _ _ _ _ Hrel Hi') as (c & v & a' & g' & Hc & Hsv & Hsp & Hrel').
  assert (dequeue_pos_ Q ⊕ 1 = dequeue_pos_ Q + 1) as Hu
    by (apply u64_small; rewrite two64_val; rewrite two63_val in *; lia).
  assert (data q !! index q (dequeue_pos_ Q)
    = Some (version q (Storage (idx cap (dequeue_pos_ Q))), Some v)) as ->.
  { rewrite (index_idx _ _ _ _ H), <-Hsv. exact (proj1 (shadow_cell _ _ _ _ _ _ _ Hrel H Hc)). }
  eapply (weak_ticket Q (Q <| dequeue_pos_ := dequeue_pos_ Q + 1 |>) q ts a g i _ V _ _ (Avail (dequeue_pos_ Q) w)); try done.
  - by apply (c_threads _ _ _ H _ _ _ Hi).
  - by right.
  - rewrite HM, fn_lookup_insert_ne by done. apply (c_enqueue _ _ _ H).
  - rewrite HM, fn_lookup_insert. simpl. rewrite Hu.
    apply tickets_next; [apply (c_dequeue _ _ _ H)|done|done].
  - by apply run_one.
Qed.

(** *** Work on a claimed cell *)

Lemma touches_Moved q V j k q' V' p' es :
  touches q V j k = Moved q' V' p' es →
  ∃ n x y, data q !! j = Some (n, x) ∧ V (Storage j) = n ∧ k x = Some (y, p') ∧ es = []
    ∧ q' = q <| data := <[j := (S n, y)]> (data q) |> ∧ V' = <[Storage j := S n]> V.
Proof.
  unfold touches. destruct (data q !! j) as [[n x]|]; [|done].
  destruct (Nat.eqb_spec (V (Storage j)) n); [|done].
  destruct (k x) as [[y p]|] eqn:Hk; [|done]. intros [= <- <- <- <-]. by exists n, x, y.
Qed.

Lemma shadow_index Q ts a g pos :
  rel cap (LockFreeQueue.mkSystem Q (fst <$> ts)) a g →
  LockFreeQueue.index Q pos = idx cap pos.
Proof.
  intros H. unfold LockFreeQueue.index, idx. by rewrite (r_capacity _ _ _ _ H : capacity_ Q = cap).
Qed.

(** The thread that has claimed [pos] uses its storage. *)
Lemma weak_touch Q q ts a g i p V p' pos n x y c :
  rel cap (LockFreeQueue.mkSystem Q (fst <$> ts)) a g → coupled cap Q (mkSystem q ts) →
  ts !! i = Some (p, V) → claim p = Some pos → claim p' = Some pos →
  data q !! idx cap pos = Some (n, x) → V (Storage (idx cap pos)) = n →
  cell Q pos = Some c →
  LockFreeQueue.thread_step i false Q p = Some (set_cell Q pos (c <| storage := y |>), p', []) →
  enqueue_pos_ Q + cap < two63 →
  ∃ a', run (stale_lts cap) a [] a'
    ∧ weak_rel cap (mkSystem (q <| data := <[idx cap pos := (S n, y)]> (data q) |>)
        (<[i := (p', <[Storage (idx cap pos) := S n]> V)]> ts)) a'.
Proof.
  intros Hrel H Hi Hp Hp' Hd HV Hc Hsc Hb.
  assert ((fst <$> ts) !! i = Some p) as Hi' by (by rewrite list_lookup_fmap, Hi).
  destruct (sim_thread _ _ _ _ _ _ _ _ _ _ _ Hrel Hi' Hsc Hb) as (a' & g' & Hrun & Hrel').
  exists a'. split; [by apply stale_run|]. eexists _, g'. split.
  { simpl. rewrite list_fmap_insert. exact Hrel'. }
  set (j := idx cap pos) in *. set (q' := q <| data := _ |>).
  destruct (shadow_cell _ _ _ _ _ _ _ Hrel H Hc) as (_ & t & m & Hn & Hm & _). fold j in Hn.
  destruct (c_threads _ _ _ H _ _ _ Hi) as [HcV Hk].
  assert (version q (Storage j) = n) as Hver by (simpl; by rewrite Hd).
  assert (∀ k, data q' !! k = if decide (j = k) then Some (S n, y) else data q !! k) as Hdq.
  { intros k. simpl. case_decide as Hjk; [subst k|by apply list_lookup_insert_ne].
    apply list_lookup_insert_eq. by eapply lookup_lt_Some. }
  assert (∀ l, version q' l = if decide (l = Storage j) then S n else version q l) as Hvq.
  { intros [| | | |k| | | | |]; try done. unfold version.
    rewrite (Hdq k). repeat case_decide; simplify_eq; done. }
  assert (grows q q') as Hg by (split; [done|]; intros l; rewrite Hvq; case_decide; [subst l|]; lia).
  assert (closed atomic (mem q') (version q') (<[Storage j := S n]> V)) as HcV'.
  { apply closed_insert; [by eapply grows_closed|].
    change (S n ≤ version q' (Storage j))%nat. by rewrite Hvq, decide_True. }
  assert (holds q V j) as [_ Hseq].
  { clear -Hk Hp. destruct p; simpl in Hp; simplify_eq; exact Hk. }
  destruct H as [H1 H2 H3 H4 H5 H6 H7] eqn:HH. clear HH. simpl in *.
  eapply (coupled_step Q _ q q' ts i p V p' _ j); try done.
  - intros k Hk'. simpl. rewrite (shadow_index _ _ _ _ _ Hrel). fold j.
    rewrite list_lookup_insert_ne by done. split; [done|]. split; [|done].
    apply list_lookup_insert_ne. done.
  - intros c' Hc'. simpl in Hc'. rewrite (shadow_index _ _ _ _ _ Hrel) in Hc'. fold j in Hc'.
    apply list_lookup_insert_Some in Hc' as [(_ & <- & _)|[? _]]; [|done].
    split; [rewrite Hdq, Hvq, !decide_True; done|]. exists t, m. split; [done|]. split; [done|].
    left. eexists i, p', _, pos. split_and!; [|done|done]. apply list_lookup_insert_eq.
    by eapply lookup_lt_Some.
  - intros pos' Hpos'. left. by simplify_eq.
  - intros k pk Vk pos' Hki Hk' Hck.
    destruct (claimed_slot _ _ _ _ _ _ _ _ Hrel Hi' Hp) as (st & Hgs & Ho & _).
    eapply unclaimed; try done. congruence.
  - assert (holds q' (<[Storage j := S n]> V) j) as Hh.
    { split; [by rewrite Hvq, decide_True, fn_lookup_insert|].
      destruct Hseq as (t1 & m1 & ? & ?). exists t1, m1. by rewrite fn_lookup_insert_ne. }
    unfold knows. destruct p'; simpl in Hp'; simplify_eq; exact Hh.
  - intros l t0 m0 Hm0. eapply grows_closed; [done|]. by eapply H7.
Qed.

Lemma weak_push_write i t sp v pos : simulated i t sp (PushWrite v pos).
Proof.
  weak_intro. destruct (touches_Moved _ _ _ _ _ _ _ _ Hst)
    as (n & x & y & Hd & HV & [= <- <-] & -> & -> & ->).
  rewrite (index_idx _ _ _ _ H) in *.
  destruct (claimed_slot _ _ _ _ _ _ _ _ Hrel Hi' eq_refl) as (st & _ & _ & _ & Hc & _).
  eapply (weak_touch Q q ts a g i _ V _ pos n x); try done. simpl. by rewrite Hc.
Qed.

Lemma weak_pop_read i t sp pos : simulated i t sp (PopRead pos).
Proof.
  weak_intro. destruct (touches_Moved _ _ _ _ _ _ _ _ Hst)
    as (n & x & y & Hd & HV & Hx & -> & -> & ->).
  rewrite (index_idx _ _ _ _ H) in *.
  destruct (claimed_slot _ _ _ _ _ _ _ _ Hrel Hi' eq_refl) as (st & _ & _ & _ & Hc & _).
  destruct (shadow_cell _ _ _ _ _ _ _ Hrel H Hc) as [Hd' _]. simpl in Hc.
  assert (x = storage (slot_cell st)) as -> by congruence.
  destruct (storage (slot_cell st)) as [v|] eqn:Hs; simplify_eq/=.
  eapply (weak_touch Q q ts a g i _ V _ pos); try done. simpl. by rewrite Hc; simpl; rewrite Hs.
Qed.

(** The thread that has claimed [pos] passes the cell on. *)
Lemma weak_pass Q q ts a g i p V p' pos x t M V' c :
  rel cap (LockFreeQueue.mkSystem Q (fst <$> ts)) a g → coupled cap Q (mkSystem q ts) →
  ts !! i = Some (p, V) → claim p = Some pos → claim p' = None →
  (∀ v w, p' ≠ PushCas v w) → (∀ w, p' ≠ PopCas w) →
  store release (mem q) V (Sequence (idx cap pos)) t x = Some (M, V') →
  cell Q pos = Some c → 0 ≤ sequence c < x →
  LockFreeQueue.thread_step i false Q p = Some (set_cell Q pos (c <| sequence := x |>), p', []) →
  enqueue_pos_ Q + cap < two63 →
  ∃ a', run (stale_lts cap) a [] a'
    ∧ weak_rel cap (mkSystem (q <| mem := M |>) (<[i := (p', V')]> ts)) a'.
Proof.
  intros Hrel H Hi Hp Hp' Hpush Hpop Hst Hc Hlt Hsc Hb.
  assert ((fst <$> ts) !! i = Some p) as Hi' by (by rewrite list_lookup_fmap, Hi).
  destruct (sim_thread _ _ _ _ _ _ _ _ _ _ _ Hrel Hi' Hsc Hb) as (a' & g' & Hrun & Hrel').
  exists a'. split; [by apply stale_run|]. eexists _, g'. split.
  { simpl. rewrite list_fmap_insert. exact Hrel'. }
  set (j := idx cap pos) in *.
  destruct (shadow_cell _ _ _ _ _ _ _ Hrel H Hc) as (Hd & t0 & m0 & Hn & Hm0 & _).
  fold j in Hd, Hn. destruct (c_threads _ _ _ H _ _ _ Hi) as [HcV Hk].
  assert (holds q V j) as [HvV (t1 & m1 & Hn1 & Ht1)].
  { clear -Hk Hp. destruct p; simpl in Hp; simplify_eq; exact Hk. }
  assert (t1 = t0) as ->.
  { pose proof (n_last _ _ _ Hn _ _ (n_at _ _ _ Hn1)) as [? _].
    pose proof (n_last _ _ _ Hn1 _ _ (n_at _ _ _ Hn)) as [? _]. lia. }
  assert (atomic (Sequence j) = true) as Hat by done.
  destruct (store_closed atomic _ (version q) _ _ _ _ _ _ Hat (c_messages _ _ _ H) HcV Hst)
    as [HcV' Hall].
  apply store_Some in Hst as (m & Hltt & Hnone & -> & -> & Hvm & Hrm).
  set (M := <[Sequence j := _]> (mem q)) in *.
  assert (∀ l', l' ≠ Sequence j → M l' = mem q l') as HM
    by (intros l' ?; by apply fn_lookup_insert_ne).
  eapply (coupled_step Q _ q _ ts i p V p' _ j); try done.
  - by apply grows_insert.
  - simpl. rewrite HM by done. apply (c_enqueue _ _ _ H).
  - simpl. rewrite HM by done. apply (c_dequeue _ _ _ H).
  - simpl. rewrite HM by done. apply (c_flag _ _ _ H).
  - intros k Hk'. simpl. rewrite (shadow_index _ _ _ _ _ Hrel). fold j.
    rewrite list_lookup_insert_ne by done. split; [done|]. split; [done|]. apply HM. congruence.
  - intros c' Hc'. simpl in Hc'. rewrite (shadow_index _ _ _ _ _ Hrel) in Hc'. fold j in Hc'.
    apply list_lookup_insert_Some in Hc' as [(_ & <- & _)|[? _]]; [|done].
    split; [done|]. exists t, m. split; [|split; [done|right]].
    + simpl. unfold M. rewrite fn_lookup_insert. split; [apply lookup_insert_eq|].
      intros t' m' [(<- & <-)|[Hne Hm']]%lookup_insert_Some; [by rewrite Hvm; split_and!; lia || done|].
      destruct (n_last _ _ _ Hn _ _ Hm') as (? & ? & _). split_and!; lia.
    + rewrite Hrm, fn_lookup_insert_ne by done. exact HvV.
  - intros pos' Hpos'. left. by simplify_eq.
  - intros k pk Vk pos' Hki Hk' Hck.
    destruct (claimed_slot _ _ _ _ _ _ _ _ Hrel Hi' Hp) as (st & Hgs & Ho & _).
    eapply unclaimed; try done. congruence.
  - unfold knows. rewrite Hp'. destruct p'; try done; naive_solver.
Qed.

Lemma stores_Moved q V l t x p1 q' V' p' (es : list (event T)) :
  stores release q V l t x p1 = Moved q' V' p' es →
  ∃ M, store release (mem q) V l t x = Some (M, V') ∧ q' = q <| mem := M |> ∧ p' = p1 ∧ es = [].
Proof. unfold stores. destruct (store _ _ _ _ _ _) as [[M V1]|]; [|done]. naive_solver. Qed.

Lemma weak_push_publish i t sp v pos : simulated i t sp (PushPublish v pos).
Proof.
  weak_intro. destruct (stores_Moved _ _ _ _ _ _ _ _ _ _ Hst) as (M & Hs & -> & -> & ->).
  rewrite (index_idx _ _ _ _ H) in Hs.
  destruct (claimed_slot _ _ _ _ _ _ _ _ Hrel Hi' eq_refl)
    as (st & _ & _ & _ & Hc & _ & -> & Hp). simpl in Hp.
  rewrite u64_small in Hs by (rewrite two64_val; rewrite two63_val in *; lia).
  eapply (weak_pass Q q ts a g i _ V _ pos); try done; simpl; [lia|].
  simpl in Hc. rewrite Hc. simpl.
  by rewrite u64_small by (rewrite two64_val; rewrite two63_val in *; lia).
Qed.

Lemma weak_pop_release i t sp v pos : simulated i t sp (PopRelease v pos).
Proof.
  weak_intro. destruct (stores_Moved _ _ _ _ _ _ _ _ _ _ Hst) as (M & Hs & -> & -> & ->).
  rewrite (index_idx _ _ _ _ H), (c_cells _ _ _ H : cells q = cap) in Hs.
  destruct (claimed_slot _ _ _ _ _ _ _ _ Hrel Hi' eq_refl)
    as (st & _ & _ & _ & Hc & _ & -> & Hp). simpl in Hp.
  rewrite u64_small in Hs by (rewrite two64_val; rewrite two63_val in *; lia).
  eapply (weak_pass Q q ts a g i _ V _ pos); try done; simpl; [lia|].
  simpl in Hc. rewrite Hc. simpl. rewrite (r_capacity _ _ _ _ Hrel : capacity_ Q = cap).
  by rewrite u64_small by (rewrite two64_val; rewrite two63_val in *; lia).
Qed.

Lemma weak_returned i t sp r : simulated i t sp (Returned r).
Proof.
  weak_intro. injection Hst as <- <- <- <-.
  destruct (sim_returned cap Q _ a g i false r Hrel Hi' Q Ready [Ret i r] eq_refl Hb)
    as (a' & g' & Hrun & Hrel').
  exists a'. split; [by apply stale_run|]. exists Q, g'. split.
  { simpl. rewrite list_fmap_insert. exact Hrel'. }
  eapply coupled_quiet; try done; [by apply (c_threads _ _ _ H _ _ _ Hi)|apply (c_messages _ _ _ H)].
Qed.

(** ** Every step is simulated *)

Lemma weak_sim i t sp p : simulated i t sp p.
Proof.
  destruct p as [|v| |v|v pos|v pos|v pos|v pos| | | |pos|pos|pos|v pos|v| |r].
  - intros ????????. done.
  - apply weak_push_start.
  - weak_intro. by eapply quiet_count.
  - apply weak_push_load.
  - apply weak_push_seq.
  - apply weak_push_cas.
  - apply weak_push_write.
  - apply weak_push_publish.
  - weak_intro. eapply quiet_count; try done; naive_solver.
  - weak_intro. eapply quiet_count; try done; naive_solver.
  - apply weak_pop_load.
  - apply weak_pop_seq.
  - apply weak_pop_cas.
  - apply weak_pop_read.
  - apply weak_pop_release.
  - weak_intro. eapply quiet_count; try done; naive_solver.
  - weak_intro. eapply quiet_count; try done; naive_solver.
  - apply weak_returned.
Qed.

Lemma weak_call q ts a i V p' :
  weak_rel cap (mkSystem q ts) a → ts !! i = Some (Ready, V) →
  (p' = PopLoad ∨ ∃ v, p' = PushStart v) →
  weak_rel cap (mkSystem q (<[i := (p', V)]> ts)) a.
Proof.
  intros (Q & g & Hrel & H) Hi Hp. exists Q, g.
  assert ((fst <$> ts) !! i = Some Ready) as Hi' by (by rewrite list_lookup_fmap, Hi).
  split.
  - simpl. rewrite list_fmap_insert. by eapply sim_call.
  - eapply coupled_quiet; try done; [by apply (c_threads _ _ _ H _ _ _ Hi)| |apply (c_messages _ _ _ H)].
    by destruct Hp as [-> |[v ->]].
Qed.

Lemma weak_closes q ts a i t V q' V' :
  weak_rel cap (mkSystem q ts) a → ts !! i = Some (Ready, V) → close t q V = Some (q', V') →
  ∃ a', run (stale_lts cap) a [Closed i] a' ∧ weak_rel cap (mkSystem q' (<[i := (Ready, V')]> ts)) a'.
Proof.
  intros (Q & g & Hrel & H) Hi Hcl. unfold close in Hcl.
  destruct (store _ _ _ _ _ _) as [[M V1]|] eqn:Hst; simplify_eq/=.
  assert ((fst <$> ts) !! i = Some Ready) as Hi' by (by rewrite list_lookup_fmap, Hi).
  destruct (sim_step cap _ a g _ _ Hrel (step_close i Q _ Hi')) as (a' & g' & Hrun & Hrel').
  { pose proof (r_bound _ _ _ _ Hrel) as Hb. simpl in Hb. unfold LockFreeQueue.in_range. simpl.
    by rewrite (r_capacity _ _ _ _ Hrel : capacity_ Q = cap). }
  exists a'. split; [by apply stale_run|]. exists (LockFreeQueue.close Q), g'. split.
  { simpl. by rewrite list_fmap_insert, list_insert_id. }
  assert (atomic Flag = true) as Hat by done.
  destruct (store_closed atomic _ (version q) _ _ _ _ _ _ Hat (c_messages _ _ _ H)
    (proj1 (c_threads _ _ _ H _ _ _ Hi)) Hst) as [HcV' Hall].
  apply store_Some in Hst as (m & _ & Hn & -> & -> & _).
  eapply (coupled_step Q _ q _ ts i Ready V Ready _ (length (buffer_ Q))); try done.
  - by apply grows_insert.
  - apply (c_enqueue _ _ _ H).
  - apply (c_dequeue _ _ _ H).
  - intros c Hlen. apply lookup_lt_Some in Hlen. simpl in Hlen. lia.
  - intros k pk Vk pos _ _ _ Heq. pose proof (idx_lt _ _ _ _ pos Hrel). lia.
Qed.

Lemma weak_sim_step s a es s' :
  weak_rel cap s a → weak_step s es s' → in_range s' →
  ∃ a', run (stale_lts cap) a es a' ∧ weak_rel cap s' a'.
Proof.
  intros H Hs Hb. destruct Hs as [i t sp q V p q' V' p' es ts Hi Hst|i v V q ts Hi|i V q ts Hi
    |i t V V' q q' ts Hi Hcl].
  - by eapply weak_sim.
  - exists a. split; [constructor|]. eapply weak_call; eauto.
  - exists a. split; [constructor|]. eapply weak_call; eauto.
  - by eapply weak_closes.
Qed.

Lemma tickets_start (m : message loc) : value m = 0 → tickets {[0%nat := m]} 0.
Proof.
  intros Hm. split.
  - intros t. rewrite lookup_singleton_is_Some. lia.
  - intros t m' [<- <-]%lookup_singleton_Some. done.
Qed.

Lemma closed_origin q : (∀ l, is_Some (mem q l !! 0%nat)) → closed atomic (mem q) (version q) origin.
Proof. intros Hq l. destruct (atomic l); [apply Hq|unfold origin; lia]. Qed.

Lemma weak_init_rel s :
  2 ≤ cap < two63 → weak_init cap s → weak_rel cap s (mkLqueue [] false 0 ∅).
Proof.
  intros Hc [Hm Hready]. unfold make in Hm. destruct (Z.eqb_spec cap 0); [done|].
  destruct s as [q ts]. simpl in *. injection Hm as <-.
  assert (∃ Q, LockFreeQueue.make (T:=T) cap = Returns Q) as [Q HQ].
  { unfold LockFreeQueue.make. destruct (Z.eqb_spec cap 0); [done|]. eauto. }
  destruct (rel_init cap (LockFreeQueue.mkSystem Q (fst <$> ts)) Hc) as [g Hrel].
  { split; [done|]. apply Forall_fmap. eapply Forall_impl; [done|]. by intros ? ->. }
  exists Q, g. split; [done|]. unfold LockFreeQueue.make in HQ.
  destruct (Z.eqb_spec cap 0); [done|]. injection HQ as <-.
  assert (∀ q : Queue T, (∀ l, is_Some (mem q l !! 0%nat)) →
    closed atomic (mem q) (version q) origin) as Ho by (by intros; apply closed_origin).
  split; simpl; try done.
  - by apply tickets_start.
  - by apply tickets_start.
  - intros t m. rewrite lookup_singleton. case_decide; naive_solver.
  - intros j c. rewrite list_lookup_fmap. intros (k & Hk & ->)%fmap_Some.
    apply lookup_seq in Hk as [-> Hlt].
    assert (replicate (Z.to_nat cap) (0%nat, @None T) !! j = Some (0%nat, None)) as Hr
      by (apply lookup_replicate_2; lia).
    split; unfold version; simpl; rewrite Hr; [done|].
    exists 0%nat, (mkMessage (Z.of_nat j) origin). split; [|split; [done|by right]].
    split; [apply lookup_singleton_eq|]. intros t' m'. rewrite lookup_singleton.
    case_decide; intros [= <-]. subst. simpl. split_and!; lia || done.
  - intros i p V Hi. eapply Forall_lookup_1 in Hready; [|done]. simplify_eq.
    split; [|done]. by apply (Ho (mkQueue _ _ _)).
  - intros l t m. rewrite lookup_singleton. case_decide; intros [= <-]. simpl.
    by apply (Ho (mkQueue _ _ _)).
Qed.

Lemma weak_reachable s :
  2 ≤ cap < two63 → reachable (weak_lts cap) s → ∃ a, weak_rel cap s a.
Proof.
  intros Hc. apply (reachable_invariant (weak_lts cap) (λ s, ∃ a, weak_rel cap s a)).
  - intros s0 H0. eexists. by apply weak_init_rel.
  - intros s0 es s1 (a & H) [Hs Hb].
    destruct (weak_sim_step _ _ _ _ H Hs Hb) as (a' & _ & ?). eauto.
Qed.

(** *** Accesses can be made *)

Lemma loads_progress o q V l k :
  is_Some (mem q l !! V l) → ∃ x V', loads o q V l (V l) k = k x V'.
Proof. intros Hl. unfold loads. destruct (load_progress o _ _ _ Hl) as [[x V'] ->]. eauto. Qed.

Definition moves (x : access T) : Prop := ∃ q V p es, x = Moved q V p es.

Lemma counts_moves q V l p : is_Some (mem q l !! V l) → ∃ t, moves (counts q V l t p).
Proof.
  intros Hl. destruct (update_progress _ _ _ (λ n, n ⊕ 1) Hl) as (t & _ & _ & _ & _ & [[[x M] V'] Hu]).
  exists t. unfold counts. rewrite Hu. by repeat eexists.
Qed.

Lemma stores_moves q V l x p :
  is_Some (mem q l !! V l) → ∃ t, moves (stores release q V l t x p).
Proof.
  intros Hl. destruct (store_progress release _ _ _ x Hl) as (t & [M V'] & Hs).
  exists t. unfold stores. rewrite Hs. by repeat eexists.
Qed.

Lemma exchanges_moves q V l pos p es retry :
  is_Some (mem q l !! V l) → ∃ t, moves (exchanges q V l t false pos p es retry).
Proof.
  intros Hl. destruct (update_progress _ _ _ (λ _, pos ⊕ 1) Hl)
    as (t & m & Hm & Hle & _ & [[[x M] V'] Hu]).
  exists t. unfold exchanges, loads, load. rewrite Hm. simpl.
  rewrite (proj2 (Nat.leb_le _ _)) by done. rewrite Hu.
  destruct (_ && _); by repeat eexists.
Qed.

(** The thread that has claimed a position has seen the last access to the
    storage of its cell. *)
Lemma claimed_version Q q ts i p V pos :
  coupled cap Q (mkSystem q ts) → ts !! i = Some (p, V) → claim p = Some pos →
  V (Storage (idx cap pos)) = version q (Storage (idx cap pos)).
Proof.
  intros H Hi Hp. destruct (c_threads _ _ _ H _ _ _ Hi) as [HV Hk].
  assert (holds q V (idx cap pos)) as [Hle _].
  { clear -Hk Hp. destruct p; simpl in Hp; simplify_eq; exact Hk. }
  specialize (HV (Storage (idx cap pos))). simpl in HV, Hle. simpl. lia.
Qed.

Lemma touches_moves Q q ts a g i p V pos k :
  rel cap (LockFreeQueue.mkSystem Q (fst <$> ts)) a g → coupled cap Q (mkSystem q ts) →
  ts !! i = Some (p, V) → claim p = Some pos →
  (∀ c, cell Q pos = Some c → is_Some (k (storage c))) →
  moves (touches q V (index q pos) k).
Proof.
  intros Hrel H Hi Hp Hk.
  assert ((fst <$> ts) !! i = Some p) as Hi' by (by rewrite list_lookup_fmap, Hi).
  destruct (claimed_slot _ _ _ _ _ _ _ _ Hrel Hi' Hp) as (st & _ & _ & _ & Hc & _).
  destruct (Hk _ Hc) as [[y p'] Hy].
  destruct (shadow_cell _ _ _ _ _ _ _ Hrel H Hc) as [Hd _].
  unfold touches. rewrite (index_idx _ _ _ _ H), Hd, (claimed_version _ _ _ _ _ _ _ H Hi Hp).
  rewrite Nat.eqb_refl, Hy. by repeat eexists.
Qed.

Lemma weak_moves q ts a i p V :
  weak_rel cap (mkSystem q ts) a → ts !! i = Some (p, V) → p ≠ Ready →
  ∃ t, moves (thread_step i t false q V p).
Proof.
  intros (Q & g & Hrel & H) Hi Hne.
  assert ((fst <$> ts) !! i = Some p) as Hi' by (by rewrite list_lookup_fmap, Hi).
  assert (∀ l, atomic l = true → is_Some (mem q l !! V l)) as HV.
  { intros l Hl. pose proof (proj1 (c_threads _ _ _ H _ _ _ Hi) l) as Hx. by rewrite Hl in Hx. }
  destruct p as [|v| |v|v pos|v pos|v pos|v pos| | | |pos|pos|pos|v pos|v| |r];
    simpl; try done; try (by apply counts_moves, HV); try (by apply stores_moves, HV);
    try (by apply exchanges_moves, HV).
  - destruct (loads_progress acquire q V Flag (λ x V,
      if negb (x =? 0) then Moved q V PushRefused [Refused i] else Moved q V (PushLoad v) []))
      as (x & V' & Hx); [by apply HV|]. eexists. rewrite Hx. destruct (negb _); by repeat eexists.
  - eexists. edestruct (loads_progress relaxed q V Enqueue) as (x & V' & ->); [by apply HV|].
    by repeat eexists.
  - eexists. edestruct (loads_progress acquire q V (Sequence (index q pos))) as (x & V' & ->);
      [by apply HV|]. cbv zeta. repeat case_match; by repeat eexists.
  - exists 0%nat. by eapply touches_moves.
  - eexists. edestruct (loads_progress relaxed q V Dequeue) as (x & V' & ->); [by apply HV|].
    by repeat eexists.
  - eexists. edestruct (loads_progress acquire q V (Sequence (index q pos))) as (x & V' & ->);
      [by apply HV|]. cbv zeta. repeat case_match; by repeat eexists.
  - exists 0%nat. eapply touches_moves; try done. intros c Hc.
    destruct (claimed_slot _ _ _ _ _ _ _ _ Hrel Hi' eq_refl)
      as (st & _ & _ & _ & Hc' & _ & [v ->] & _).
    simpl in Hc'. rewrite Hc in Hc'. simplify_eq. by eexists.
  - exists 0%nat. by repeat eexists.
Qed.

(** Only the storage can be used wrongly. *)
Lemma weak_defined q ts a i t sp p V :
  weak_rel cap (mkSystem q ts) a → ts !! i = Some (p, V) → thread_step i t sp q V p ≠ Undefined.
Proof.
  intros Hr Hi Hu.
  assert (∀ o l k, (∀ x V, k x V ≠ Undefined) → loads o q V l t k ≠ Undefined) as Hl.
  { intros o l k Hk. unfold loads. destruct (load _ _ _ _ _) as [[??]|]; [apply Hk|done]. }
  assert (∀ l p', counts q V l t p' ≠ Undefined) as Hcn.
  { intros l p'. unfold counts. by destruct (update _ _ _ _ _) as [[[??]?]|]. }
  assert (∀ l pos p1 es1 k, exchanges q V l t sp pos p1 es1 k ≠ Undefined) as Hex.
  { intros l pos p1 es1 k. apply Hl. intros. destruct (_ && _); [|done].
    by destruct (update _ _ _ _ _) as [[[??]?]|]. }
  assert (∀ l x p1, stores release q V l t x p1 ≠ Undefined) as Hst.
  { intros l x p1. unfold stores. by destruct (store _ _ _ _ _ _) as [[??]|]. }
  destruct p as [|v| |v|v pos|v pos|v pos|v pos| | | |pos|pos|pos|v pos|v| |r];
    simpl in Hu; try done; try (by apply Hcn in Hu); try (by apply Hex in Hu);
    try (by apply Hst in Hu); try (revert Hu; apply Hl; intros; cbv zeta; repeat case_match; done).
  - destruct (weak_moves q ts a i (PushWrite v pos) V Hr Hi) as (t' & q' & V' & p' & es & Hm);
      [done|]. simpl in Hm. congruence.
  - destruct (weak_moves q ts a i (PopRead pos) V Hr Hi) as (t' & q' & V' & p' & es & Hm);
      [done|]. simpl in Hm. congruence.
Qed.

(** Only the two loads of a sequence number answer that the queue is full or
    empty. *)
Lemma refusal_from q i t sp p V q' V' p' es :
  thread_step i t sp q V p = Moved q' V' p' es → es = [Full i] ∨ es = [Empty i] →
  (∃ v pos, p = PushSeq v pos) ∨ ∃ pos, p = PopSeq pos.
Proof.
  intros Hst He. assert (es ≠ []) as Hne by (by destruct He as [-> | ->]).
  destruct p as [|v| |v|v pos|v pos|v pos|v pos| | | |pos|pos|pos|v pos|v| |r]; simpl in Hst;
    try done; try (by eauto);
    try (by apply touches_Moved in Hst as (? & ? & ? & _ & _ & _ & ? & _));
    try (by apply stores_Moved in Hst as (? & _ & _ & _ & ?));
    try (unfold counts in Hst; destruct (update _ _ _ _ _) as [[[??]?]|]; by simplify_eq).
  - apply loads_Moved in Hst as (x & V1 & _ & Hst). destruct (negb _); simplify_eq; by destruct He.
  - apply loads_Moved in Hst as (x & V1 & _ & Hst). by simplify_eq.
  - apply exchanges_Moved in Hst as [(? & _ & _ & _ & ?)|(_ & _ & -> & _)]; [done|by destruct He].
  - apply loads_Moved in Hst as (x & V1 & _ & Hst). by simplify_eq.
  - apply exchanges_Moved in Hst as [(? & _ & _ & _ & ?)|(_ & _ & -> & _)]; [done|].
    destruct (data _ !! _) as [[? []]|]; by destruct He.
  - simplify_eq. by destruct He.
Qed.

(** The newest sequence number is that of the shadow. *)
Lemma newest_loaded Q q ts a g pos V t x V1 :
  rel cap (LockFreeQueue.mkSystem Q (fst <$> ts)) a g → coupled cap Q (mkSystem q ts) →
  (∀ l t', is_Some (mem q l !! t') → (t' ≤ V l)%nat) →
  load acquire (mem q) V (Sequence (index q pos)) t = Some (x, V1) →
  ∃ c, cell Q pos = Some c ∧ x = sequence c.
Proof.
  intros Hrel H Hseen Hld. rewrite (index_idx _ _ _ _ H) in Hld.
  apply load_sees in Hld as (m & Hm & <- & Hle & _).
  destruct (slot_at _ _ _ _ _ pos Hrel H) as (st & Hg & (_ & t0 & m0 & Hn & Hv0 & _) & _).
  destruct (gat_slot _ _ _ _ _ _ Hrel Hg) as (_ & _ & Hc & _). exists (slot_cell st).
  split; [done|]. rewrite <-Hv0. destruct (n_last _ _ _ Hn _ _ Hm) as (Ht & _).
  pose proof (Hseen _ _ (mk_is_Some _ _ (n_at _ _ _ Hn))).
  assert (t = t0) as -> by lia. f_equal. pose proof (n_at _ _ _ Hn). congruence.
Qed.

(** A refusal of a thread that has seen everything is one of the queue of
    LockFreeQueue.v. *)
Lemma up_to_date q ts a i t sp p V q' V' p' es :
  weak_rel cap (mkSystem q ts) a → ts !! i = Some (p, V) →
  thread_step i t sp q V p = Moved q' V' p' es → es = [Full i] ∨ es = [Empty i] →
  (∀ l t', is_Some (mem q l !! t') → (t' ≤ V l)%nat) → ∃ a', run (lqueue_lts cap) a es a'.
Proof.
  intros (Q & g & Hrel & H) Hi Hst He Hseen.
  pose proof (list_lookup_fmap_Some_2 fst _ _ _ Hi) as Hi'; simpl in Hi'.
  pose proof (r_bound _ _ _ _ Hrel) as Hb. simpl in Hb.
  assert (∀ p1, LockFreeQueue.thread_step i false Q p = Some (Q, p1, es) →
    ∃ a', run (lqueue_lts cap) a es a') as Hdone.
  { intros p1 Hsc. destruct (sim_thread _ _ _ _ _ _ _ _ _ _ _ Hrel Hi' Hsc Hb) as (a' & _ & Hr & _).
    by exists a'. }
  destruct (refusal_from _ _ _ _ _ _ _ _ _ _ Hst He) as [(v & pos & ->)|[pos ->]];
    simpl in Hst; apply loads_Moved in Hst as (x & V1 & Hld & Hst);
    destruct (newest_loaded _ _ _ _ _ _ _ _ _ _ Hrel H Hseen Hld) as (c & Hc & ->).
  - apply (Hdone PushFailed). simpl. rewrite Hc. simpl.
    destruct (_ =? 0); simplify_eq; [by destruct He|]. destruct (_ <? 0); simplify_eq; [done|by destruct He].
  - apply (Hdone PopFailed). simpl. rewrite Hc. simpl.
    destruct (_ =? 0); simplify_eq; [by destruct He|]. destruct (_ <? 0); simplify_eq; [done|by destruct He].
Qed.
End simulation.

(** ** Properties *)

(** C8: with the memory orders of the source the queue is still a bounded
    first-in first-out queue: whatever messages the threads read and wherever
    their stores go, every run with capacity at least two is one of the queue of
    LockFreeQueue.v in which a refusal ([Full], [Empty]) may be out of date.
    The refusal of a thread that has seen every store is one the queue of
    LockFreeQueue.v gives in the state the run has reached: the queue is empty
    (full), or the one call that the specification names has not returned. *)
Theorem lfq_weak_refines {T} cap (Hc : 2 ≤ cap < two63) :
  refines (weak_lts (T:=T) cap) (stale_lts cap)
  ∧ ∀ s0 os s i t sp p V q' V' p' es,
      weak_init (T:=T) cap s0 → run (weak_lts cap) s0 os s →
      threads s !! i = Some (p, V) → thread_step i t sp (queue s) V p = Moved q' V' p' es →
      es = [Full i] ∨ es = [Empty i] →
      (∀ l t', is_Some (mem (queue s) l !! t') → (t' ≤ V l)%nat) →
      ∃ a0 a a', initial (stale_lts cap) a0 ∧ run (stale_lts cap) a0 os a
        ∧ run (lqueue_lts cap) a es a'.
Proof.
  assert (∀ (s : system T) a os s', weak_rel cap s a → step (weak_lts cap) s os s' →
    ∃ a', run (stale_lts cap) a os a' ∧ weak_rel cap s' a') as Hsim.
  { intros s a os s' H [Hs Hb]. by eapply weak_sim_step. }
  split.
  - apply (simulation_refines _ _ (weak_rel cap)); [|done].
    intros s Hs. eexists. split; [done|]. by apply weak_init_rel.
  - intros s0 os [q ts] i t sp p V q' V' p' es Hinit Hrun Hi Hst He Hseen.
    destruct (simulation_run _ _ _ Hsim _ _ _ Hrun _ (weak_init_rel _ _ Hc Hinit)) as (a & Hr & Ha).
    destruct (up_to_date cap q ts a i t sp p V q' V' p' es Ha Hi Hst He Hseen) as [a' Hr'].
    by exists (mkLqueue [] false 0 ∅), a, a'.
Qed.

(** C7: no data race.  With capacity at least two, in every state reachable
    with the memory orders of the source, whatever access a thread inside a call
    makes next is defined: the storage of a cell is used only by a thread that
    has seen the last use of it, an object is there when it is moved out; and
    the thread can always make one. *)
Theorem lfq_weak_race_free {T} cap (s : system T) i p V
    (Hc : 2 ≤ cap < two63) (Hs : reachable (weak_lts cap) s)
    (Hi : threads s !! i = Some (p, V)) :
  (∀ t sp, thread_step i t sp (queue s) V p ≠ Undefined)
  ∧ (p ≠ Ready → ∃ t q' V' p' es, thread_step i t false (queue s) V p = Moved q' V' p' es).
Proof.
  destruct (weak_reachable _ _ Hc Hs) as [a Ha]. destruct s as [q ts]. split.
  - intros t sp. by eapply weak_defined.
  - by eapply weak_moves.
Qed.

(** ** Played runs *)

(** A thread makes its next access at a timestamp, or enters a call. *)
Inductive turn (T : Type) :=
  | Go (i t : nat)
  | CallPush (i : nat) (v : T)
  | CallPop (i : nat).
Arguments Go {T}.
Arguments CallPush {T}.
Arguments CallPop {T}.

Definition bounded {T} (s : system T) : bool :=
  bool_decide (map_Forall (λ t _, Z.of_nat t + cells (queue s) < two63) (mem (queue s) Enqueue)).

Definition take_turn {T} (x : turn T) (s : system T) : option (system T * list (event T)) :=
  let '(mkSystem q ts) := s in
  match x with
  | Go i t =>
      '(p, V) ← ts !! i;
      match thread_step i t false q V p with
      | Moved q V p es =>
          let s := mkSystem q (<[i := (p, V)]> ts) in if bounded s then Some (s, es) else None
      | _ => None
      end
  | CallPush i v =>
      '(p, V) ← ts !! i;
      match p with
      | Ready => if bounded s then Some (mkSystem q (<[i := (PushStart v, V)]> ts), []) else None
      | _ => None
      end
  | CallPop i =>
      '(p, V) ← ts !! i;
      match p with
      | Ready => if bounded s then Some (mkSystem q (<[i := (PopLoad, V)]> ts), []) else None
      | _ => None
      end
  end.

Fixpoint take_turns {T} (l : list (turn T)) (s : system T) : option (system T * list (event T)) :=
  match l with
  | [] => Some (s, [])
  | x :: l =>
      '(s, es) ← take_turn x s; '(s, es') ← take_turns l s; Some (s, es ++ es')
  end.

Lemma bounded_range {T} (s : system T) : bounded s = true → in_range s.
Proof.
  unfold bounded. rewrite bool_decide_eq_true. intros Hb t [m Hm]. by apply (Hb t m).
Qed.

Lemma take_turn_step {T} cap x (s s' : system T) es :
  take_turn x s = Some (s', es) → step (weak_lts cap) s es s'.
Proof.
  destruct s as [q ts]. destruct x as [i t|i v|i]; simpl;
    destruct (ts !! i) as [[p V]|] eqn:Hi; simpl; try done.
  - destruct (thread_step _ _ _ _ _ _) as [q' V' p' es'| |] eqn:Hst; try done.
    destruct (bounded _) eqn:Hb; [|done]. intros [= <- <-].
    split; [by eapply weak_thread|by apply bounded_range].
  - destruct p; try done. destruct (bounded _) eqn:Hb; [|done]. intros [= <- <-].
    split; [by apply weak_call_push|exact (bounded_range _ Hb)].
  - destruct p; try done. destruct (bounded _) eqn:Hb; [|done]. intros [= <- <-].
    split; [by apply weak_call_pop|exact (bounded_range _ Hb)].
Qed.

Lemma weak_turns_run {T} cap l : ∀ (s s' : system T) es,
  take_turns l s = Some (s', es) → run (weak_lts cap) s es s'.
Proof.
  induction l as [|x l IH]; simpl; intros s s' es Hl; [simplify_eq; constructor|].
  destruct (take_turn x s) as [[s1 es1]|] eqn:Hx; simplify_eq/=.
  destruct (take_turns l s1) as [[s2 es2]|] eqn:Hl'; simplify_eq/=.
  econstructor; [by eapply take_turn_step|by apply IH].
Qed.

(** Two threads and a queue of two cells. *)
Definition two : outcome (system Z) :=
  match make 2 with
  | Returns q => Returns (mkSystem q (replicate 2 (Ready, origin)))
  | Throws e => Throws e
  end.

Lemma two_played {A} l (φ : system Z * list (event Z) → A) v :
  match two with Returns s => φ <$> take_turns l s | Throws _ => None end = Some v →
  ∃ s0 s os, weak_init 2 s0 ∧ run (weak_lts 2) s0 os s ∧ φ (s, os) = v.
Proof.
  unfold two. destruct (make 2) as [q|e] eqn:Hm; [|done].
  destruct (take_turns l _) as [[s os]|] eqn:Hl; [|done]. intros [= <-].
  eexists _, s, os. split; [|split; [by eapply weak_turns_run|done]].
  split; [done|]. by repeat constructor.
Qed.

(** Thread 0 pushes, and returns. *)
Definition pushed : list (turn Z) :=
  [CallPush 0 7; Go 0 0; Go 0 0; Go 0 0; Go 0 0; Go 0 0; Go 0 1; Go 0 0; Go 0 0].
(** Thread 1 then reads the old sequence number, or the new one. *)
Definition stale_pop : list (turn Z) := [CallPop 1; Go 1 0; Go 1 0; Go 1 0; Go 1 0].
Definition fresh_pop : list (turn Z) :=
  [CallPop 1; Go 1 0; Go 1 1; Go 1 0; Go 1 0; Go 1 2; Go 1 0; Go 1 0].

Lemma lfq_weak_refines_witness :
  ∃ a0 a, initial (stale_lts (T:=Z) 2) a0
  ∧ run (stale_lts 2) a0 [Enq 0 7; Ret 0 (RPush true); Deq 1 7; Ret 1 (RPop (Some 7))] a.
Proof.
  destruct (two_played (pushed ++ fresh_pop) snd
    [Enq 0 7; Ret 0 (RPush true); Deq 1 7; Ret 1 (RPop (Some 7))])
    as (s0 & s & os & Hi & Hr & Ho); [vm_compute; reflexivity|]. simpl in Ho. subst os.
  exact (proj1 (lfq_weak_refines (T:=Z) 2 ltac:(rewrite two63_val; lia)) _ _ _ Hi Hr).
Defined.

(** Thread 1 is about to move the object out. *)
Lemma lfq_weak_race_free_witness :
  ∃ s V, reachable (weak_lts (T:=Z) 2) s ∧ threads s !! 1%nat = Some (PopRead 0, V)
  ∧ ∀ t sp, thread_step 1 t sp (queue s) V (PopRead 0) ≠ Undefined.
Proof.
  destruct (two_played (pushed ++ take 4 fresh_pop) (λ x, fst <$> threads x.1) [Ready; PopRead 0])
    as (s0 & s & os & Hi & Hr & Ht); [vm_compute; reflexivity|]. simpl in Ht.
  destruct (threads s) as [|x [|[p V] [|]]] eqn:Hts; simplify_eq/=.
  assert (reachable (weak_lts (T:=Z) 2) s) as Hs by (by exists s0, os).
  exists s, V. split; [done|]. rewrite Hts. split; [done|].
  apply (lfq_weak_race_free 2 s 1 (PopRead 0) V); [rewrite two63_val; lia|done|by rewrite Hts].
Defined.

(** The refusals really can be out of date: a consumer finds the queue empty
    after the call that pushed has returned, which no run of the queue of
    LockFreeQueue.v shows. *)
Theorem lfq_weak_stale_empty :
  (∃ s0 s, weak_init (T:=Z) 2 s0
     ∧ run (weak_lts 2) s0 [Enq 0 7; Ret 0 (RPush true); Empty 1; Ret 1 (RPop None)] s)
  ∧ ∀ a0 a, initial (lqueue_lts (T:=Z) 2) a0 →
     ¬ run (lqueue_lts 2) a0 [Enq 0 7; Ret 0 (RPush true); Empty 1; Ret 1 (RPop None)] a.
Proof.
  split.
  - destruct (two_played (pushed ++ stale_pop) snd
      [Enq 0 7; Ret 0 (RPush true); Empty 1; Ret 1 (RPop None)])
      as (s0 & s & os & Hi & Hr & Ho); [vm_compute; reflexivity|]. simpl in Ho. subst os. eauto.
  - intros a0 a -> Hr.
    assert (∀ (b c : lqueue Z) e es, run (lqueue_lts 2) b (e :: es) c →
      ∃ b', spec_step 2 b [e] b' ∧ run (lqueue_lts 2) b' es c) as Hstep.
    { clear. intros b c e es Hr. remember (e :: es) as l eqn:Hl.
      destruct Hr as [|b o b' os c Hs Hr']; [done|].
      assert (∃ x, o = [x]) as [x ->] by (destruct Hs; eauto). simplify_eq/=. eauto. }
    apply Hstep in Hr as (b1 & H1 & Hr). inversion H1; subst.
    apply Hstep in Hr as (b2 & H2 & Hr). inversion H2; subst.
    apply Hstep in Hr as (b3 & H3 & _). inversion H3 as [| | |? ? ? ? ? _ Hor| | |]; subst.
    destruct Hor as [?|[j Hj]]; [done|]. simpl in Hj.
    rewrite delete_insert_id in Hj by done. done.
Qed.
End Weak.
