(* ===== verification/ConnectionPool.v ===== *)
(** * connection_pool: a pool of database connections

    [foundation::ConnectionPool] (connection_pool/src/connection_pool.cpp): the
    shared [State] under its mutex, and the threads inside [tryAcquireFor],
    [release], [warmUp], [shutdown] and the cleaner.  A thread is a program
    counter [pc]; [thread_step] executes its next critical section or its next
    call of the connection interface (factory, [ping], [close], all outside the
    mutex), and [pool_lts] interleaves any number of threads with the passing of
    time and spurious wake-ups.  The outcomes of the factory and of [ping] are
    the environment's: the theorems hold for all of them. *)

From S2P Require Import Prelude.
Open Scope Z_scope.

(** Durations are milliseconds, time points nanoseconds, as in the source. *)
Record ConnectionPoolConfig := mkConfig {
  min_idle : Z;
  max_size : Z;
  acquire_timeout : Z;
  idle_timeout : Z;
  max_lifetime : Z;
  cleaner_interval : Z;
}.

(** [conn] is the identity of the connection object an entry owns. *)
Record Entry := mkEntry {
  conn : Z;
  created_at : Z;
  last_used_at : Z;
}.

Record State := mkState {
  config : ConnectionPoolConfig;
  idle : list Entry;
  shutting_down : bool;
  total : Z;
  active : Z;
  waiting : Z;
  created : Z;
  destroyed : Z;
  acquired : Z;
  timeouts : Z;
}.
#[export] Instance eta_Entry : Eta Entry := λ e,
  mkEntry (conn e) (created_at e) (last_used_at e).
#[export] Instance eta_State : Eta State := λ s,
  mkState (config s) (idle s) (shutting_down s) (total s) (active s) (waiting s)
    (created s) (destroyed s) (acquired s) (timeouts s).

Record ConnectionPoolStats := mkStats {
  stats_total : Z;
  stats_idle : Z;
  stats_active : Z;
  stats_waiting : Z;
  stats_created : Z;
  stats_destroyed : Z;
  stats_acquired : Z;
  stats_timeouts : Z;
}.

(** ** Operations *)

Definition isExpired (start now limit : Z) : bool :=
  (0 <=? limit) && (limit * 1000000 <=? now - start).

Definition make (has_factory : bool) (c : ConnectionPoolConfig) : outcome State :=
  if negb has_factory
  then Throws (InvalidArgument "ConnectionPool requires a connection factory")
  else if max_size c =? 0
  then Throws (InvalidArgument "ConnectionPool max_size must be greater than 0")
  else if max_size c <? min_idle c
  then Throws (InvalidArgument "ConnectionPool min_idle cannot exceed max_size")
  else if cleaner_interval c <=? 0
  then Throws (InvalidArgument "ConnectionPool cleaner_interval must be positive")
  else Returns (mkState c [] false 0 0 0 0 0 0 0).

(** What the environment answers during a step: the clock, the identity of the
    connection a successful factory call returns, the factory's result ([false]
    is a null pointer) and the result of [ping] on a connection. *)
Record env := mkEnv {
  clock : Z;
  fresh : Z;
  factory : outcome bool;
  ping : Z → outcome bool;
}.

Definition createEntry (e : env) : option Entry :=
  match factory e with
  | Returns true => Some (mkEntry (fresh e) (clock e) (clock e))
  | _ => None
  end.

Definition shouldRetire (c : ConnectionPoolConfig) (entry : Entry) (now : Z) : bool :=
  isExpired (created_at entry) now (max_lifetime c)
  || isExpired (last_used_at entry) now (idle_timeout c).

Definition isHealthy (e : env) (entry : Entry) : bool :=
  match ping e (conn entry) with Returns b => b | Throws _ => false end.

(** The deadline of [tryAcquireFor timeout] called at [now]. *)
Definition deadline (now timeout : Z) : Z :=
  now + (if timeout <? 0 then 0 else timeout) * 1000000.

(** [acquire()] uses the configured timeout. *)
Definition acquire_deadline (st : State) (now : Z) : Z :=
  deadline now (acquire_timeout (config st)).

(** The predicate of the wait in [tryAcquireFor]. *)
Definition ready (st : State) : bool :=
  shutting_down st || negb (bool_decide (idle st = []))
  || (total st <? max_size (config st)).

(** The sweep of [cleanupIdle]: entries kept, stale entries, remaining total. *)
Fixpoint sweep (c : ConnectionPoolConfig) (now : Z) (l : list Entry) (total destroyed : Z)
    : list Entry * list Entry * Z * Z :=
  match l with
  | [] => ([], [], total, destroyed)
  | e :: l =>
      if shouldRetire c e now && (min_idle c <? total)
      then let '(kept, stale, t, d) := sweep c now l (total ⊖ 1) (destroyed ⊕ 1) in
           (kept, e :: stale, t, d)
      else let '(kept, stale, t, d) := sweep c now l total destroyed in
           (e :: kept, stale, t, d)
  end.

Definition cleanupIdle (st : State) (now : Z) : State * list Entry :=
  let '(kept, stale, t, d) := sweep (config st) now (idle st) (total st) (destroyed st) in
  (st <| idle := kept |> <| total := t |> <| destroyed := d |>, stale).

Definition stats (st : State) : ConnectionPoolStats :=
  mkStats (total st) (Z.of_nat (length (idle st))) (active st) (waiting st)
    (created st) (destroyed st) (acquired st) (timeouts st).

(** ** Threads *)

(** Who runs [warmUp]: a caller, or the cleaner between two sweeps. *)
Inductive caller := User | Cleaner.

(** Where a thread goes on after closing retired entries. *)
Inductive continuation := Return | Warm (c : caller) (warmed : Z).

Inductive pc :=
  | Outside
  | AcqTop (d : Z)                (* about to lock; [d]: deadline *)
  | AcqAsleep (d : Z)             (* asleep on [available] *)
  | AcqWoken (d : Z)              (* woken, about to lock again *)
  | AcqCreate                     (* slot reserved, about to create *)
  | AcqFailed                     (* creation failed, about to give the slot back *)
  | AcqCount (e : Entry)          (* about to count the creation *)
  | AcqCheck (e : Entry) (d : Z)  (* idle entry taken, about to check it *)
  | AcqRetire (e : Entry) (k : option Z)  (* about to close a bad entry *)
  | AcqRetired (k : option Z)     (* closed; [k]: continue or return *)
  | AcqGrant (e : Entry)          (* about to hand the entry out *)
  | Holding (e : Entry)           (* the caller owns the connection *)
  | Releasing (e : Entry) (reached_lifetime : bool)
  | WarmTop (c : caller) (warmed : Z)
  | WarmCreate (c : caller) (warmed : Z)
  | WarmFailed (c : caller) (warmed : Z)
  | WarmAdd (c : caller) (warmed : Z) (e : Entry)
  | CleanerSleep
  | CleanerClock                  (* about to read the clock *)
  | CleanerSweep (now : Z)
  | CleanerDone
  | ShutFlag
  | ShutJoin                      (* joining the cleaner *)
  | ShutWait                      (* about to test [active == 0] *)
  | ShutAsleep                    (* asleep on [shutdown_done] *)
  | Closing (es : list Entry) (k : continuation).

Inductive event :=
  | Open (c : Z)
  | Acquire (c : Z)
  | Release (c : Z)
  | Close (c : Z)
  | TimedOut
  | Refused
  | WarmedUp (n : Z)
  | Stop
  | Drained.

(** Notifications of [available] (at most one kind per step) and whether
    [shutdown_done] is notified. *)
Inductive wake := NoWake | WakeOne | WakeAll.

Record effect := mkEffect {
  state : State;
  next : pc;
  available : wake;
  shutdown_done : bool;
  events : list event;
}.

Definition quietly (st : State) (p : pc) : option effect :=
  Some (mkEffect st p NoWake false []).

Definition resume (k : continuation) : pc :=
  match k with Return => Outside | Warm c n => WarmTop c n end.

(** [warmUp] returns how many connections it added. *)
Definition reported (c : caller) (warmed : Z) : list event :=
  match c with User => [WarmedUp warmed] | Cleaner => [] end.

Definition warmed_up (c : caller) : pc :=
  match c with User => Outside | Cleaner => CleanerSleep end.

(** The next step of a thread: a critical section, or work outside the lock. *)
Definition thread_step (e : env) (st : State) (p : pc) : option effect :=
  match p with
  | Outside | AcqAsleep _ | Holding _ | ShutAsleep | ShutJoin | CleanerDone => None
  | AcqTop d =>
      if shutting_down st then Some (mkEffect st Outside NoWake false [Refused])
      else match idle st with
      | entry :: rest =>
          quietly (st <| idle := rest |> <| active ::= λ n, n ⊕ 1 |>) (AcqCheck entry d)
      | [] =>
          if total st <? max_size (config st)
          then quietly (st <| total ::= λ n, n ⊕ 1 |> <| active ::= λ n, n ⊕ 1 |>) AcqCreate
          else quietly (st <| waiting ::= λ n, n ⊕ 1 |>) (AcqAsleep d)
      end
  | AcqWoken d =>
      if ready st then quietly (st <| waiting ::= λ n, n ⊖ 1 |>) (AcqTop d)
      else if d <=? clock e
      then Some (mkEffect (st <| waiting ::= λ n, n ⊖ 1 |> <| timeouts ::= λ n, n ⊕ 1 |>)
                   Outside NoWake false [TimedOut])
      else quietly st (AcqAsleep d)
  | AcqCreate =>
      match createEntry e with
      | Some entry => Some (mkEffect st (AcqCount entry) NoWake false [Open (conn entry)])
      | None => quietly st AcqFailed
      end
  | AcqFailed =>
      let st := st <| active ::= λ n, n ⊖ 1 |> <| total ::= λ n, n ⊖ 1 |> in
      Some (mkEffect st Outside WakeOne (active st =? 0) [])
  | AcqCount entry => quietly (st <| created ::= λ n, n ⊕ 1 |>) (AcqGrant entry)
  | AcqCheck entry d =>
      if shouldRetire (config st) entry (clock e) || negb (isHealthy e entry)
      then quietly st (AcqRetire entry (Some d))
      else quietly st (AcqGrant entry)
  | AcqRetire entry k =>
      Some (mkEffect st (AcqRetired k) NoWake false [Close (conn entry)])
  | AcqRetired k =>
      let st := st <| active ::= λ n, n ⊖ 1 |> <| total ::= λ n, n ⊖ 1 |>
                   <| destroyed ::= λ n, n ⊕ 1 |> in
      match k with
      | Some d => Some (mkEffect st (AcqTop d) WakeOne (active st =? 0) [])
      | None => Some (mkEffect st Outside WakeOne (active st =? 0) [Refused])
      end
  | AcqGrant entry =>
      if shutting_down st then quietly st (AcqRetire entry None)
      else Some (mkEffect (st <| acquired ::= λ n, n ⊕ 1 |>) (Holding entry)
                   NoWake false [Acquire (conn entry)])
  | Releasing entry reached_lifetime =>
      if shutting_down st || reached_lifetime
      then let st := st <| active ::= λ n, n ⊖ 1 |> <| total ::= λ n, n ⊖ 1 |>
                        <| destroyed ::= λ n, n ⊕ 1 |> in
           Some (mkEffect st (Closing [entry] Return) WakeOne (active st =? 0) [])
      else let st := st <| active ::= λ n, n ⊖ 1 |> <| idle ::= λ l, l ++ [entry] |> in
           Some (mkEffect st Outside WakeOne (active st =? 0) [])
  | WarmTop c n =>
      if shutting_down st || (min_idle (config st) <=? Z.of_nat (length (idle st)))
         || (max_size (config st) <=? total st)
      then Some (mkEffect st (warmed_up c) NoWake false (reported c n))
      else quietly (st <| total ::= λ n, n ⊕ 1 |>) (WarmCreate c n)
  | WarmCreate c n =>
      match createEntry e with
      | Some entry => Some (mkEffect st (WarmAdd c n entry) NoWake false [Open (conn entry)])
      | None => quietly st (WarmFailed c n)
      end
  | WarmFailed c n =>
      Some (mkEffect (st <| total ::= λ n, n ⊖ 1 |>) (warmed_up c) WakeOne false
              (reported c n))
  | WarmAdd c n entry =>
      if shutting_down st
      then quietly (st <| total ::= λ n, n ⊖ 1 |>) (Closing [entry] (Warm c n))
      else Some (mkEffect (st <| created ::= λ n, n ⊕ 1 |> <| idle ::= λ l, l ++ [entry] |>)
                   (WarmTop c (n ⊕ 1)) WakeOne false [])
  | CleanerSleep =>
      if shutting_down st then quietly st CleanerDone else quietly st CleanerClock
  | CleanerClock => quietly st (CleanerSweep (clock e))
  | CleanerSweep now =>
      let '(st, stale) := cleanupIdle st now in
      Some (mkEffect st (Closing stale (Warm Cleaner 0))
              (if bool_decide (stale = []) then NoWake else WakeAll) false [])
  | ShutFlag =>
      Some (mkEffect (st <| shutting_down := true |>) ShutJoin WakeAll false [Stop])
  | ShutWait =>
      if active st =? 0
      then let es := idle st in
           let n := Z.of_nat (length es) in
           Some (mkEffect (st <| idle := [] |> <| destroyed ::= λ d, d ⊕ n |>
                              <| total ::= λ t, t ⊖ n |>)
                   (Closing es Return) NoWake false [Drained])
      else quietly st ShutAsleep
  | Closing [] k => quietly st (resume k)
  | Closing (entry :: es) k =>
      Some (mkEffect st (Closing es k) NoWake false [Close (conn entry)])
  end.

(** A thread running alone, until it leaves the pool, owns a connection or has
    to wait; [f] gives the environment of each step. *)
Fixpoint solo (fuel : nat) (f : nat → env) (st : State) (p : pc)
    : option (State * pc * list event) :=
  match thread_step (f 0%nat) st p with
  | None => Some (st, p, [])
  | Some eff =>
      match fuel with
      | O => None
      | S fuel =>
          '(st, p, es) ← solo fuel (λ n, f (S n)) (state eff) (next eff);
          Some (st, p, events eff ++ es)
      end
  end.

(** The last copy of a handed-out pointer is dropped at time [now]. *)
Definition release (st : State) (now : Z) (entry : Entry) : pc :=
  Releasing (entry <| last_used_at := now |>)
    (isExpired (created_at entry) now (max_lifetime (config st))).

(** ** The system of threads *)

Definition wake_acquirer (p : pc) : pc :=
  match p with AcqAsleep d => AcqWoken d | _ => p end.
Definition wake_shutdown (p : pc) : pc :=
  match p with ShutAsleep => ShutWait | _ => p end.

Inductive woken : wake → list pc → list pc → Prop :=
  | woken_none ts : woken NoWake ts ts
  | woken_one ts i d :
      ts !! i = Some (AcqAsleep d) → woken WakeOne ts (<[i := AcqWoken d]> ts)
  | woken_nobody ts :
      (∀ i d, ts !! i ≠ Some (AcqAsleep d)) → woken WakeOne ts ts
  | woken_all ts : woken WakeAll ts (wake_acquirer <$> ts).

(** [serial]: the identity of the next connection object. *)
Record system := mkSystem {
  pool : State;
  now : Z;
  serial : Z;
  threads : list pc;
}.

Inductive pool_step : system → list event → system → Prop :=
  | step_thread i p f g eff st t n ts ts' :
      ts !! i = Some p →
      thread_step (mkEnv t n f g) st p = Some eff →
      woken (available eff) (<[i := next eff]> ts) ts' →
      pool_step (mkSystem st t n ts) (events eff)
        (mkSystem (state eff) t (n + 1)
           (if shutdown_done eff then wake_shutdown <$> ts' else ts'))
  | step_wake i p st t n ts :
      ts !! i = Some p →
      pool_step (mkSystem st t n ts) []
        (mkSystem st t n (<[i := wake_shutdown (wake_acquirer p)]> ts))
  | step_join i st t n ts :
      ts !! i = Some ShutJoin → ts !! 0%nat = Some CleanerDone →
      pool_step (mkSystem st t n ts) [] (mkSystem st t n (<[i := ShutWait]> ts))
  | step_acquire i timeout st t n ts :
      ts !! i = Some Outside →
      pool_step (mkSystem st t n ts) []
        (mkSystem st t n (<[i := AcqTop (deadline t timeout)]> ts))
  | step_release i entry st t n ts :
      ts !! i = Some (Holding entry) →
      pool_step (mkSystem st t n ts) [Release (conn entry)]
        (mkSystem st t n (<[i := release st t entry]> ts))
  | step_warmUp i st t n ts :
      ts !! i = Some Outside →
      pool_step (mkSystem st t n ts) [] (mkSystem st t n (<[i := WarmTop User 0]> ts))
  | step_shutdown i st t n ts :
      ts !! i = Some Outside →
      pool_step (mkSystem st t n ts) [] (mkSystem st t n (<[i := ShutFlag]> ts))
  | step_tick t' st t n ts :
      t ≤ t' → pool_step (mkSystem st t n ts) [] (mkSystem st t' n ts).

Definition pool_init (c : ConnectionPoolConfig) (s : system) : Prop :=
  make true c = Returns (pool s) ∧ 0 ≤ serial s
  ∧ ∃ n, threads s = CleanerSleep :: replicate n Outside.

Definition pool_lts (c : ConnectionPoolConfig) : lts system event :=
  Lts (pool_init c) pool_step.

(** ** Specification: exclusive leases of connections *)

Record leases := mkLeases {
  opened : gset Z;
  leased : gset Z;
  closed : gset Z;
  stopped : bool;
  finished : bool;
}.

Inductive lease_step (limit : Z) : leases → list event → leases → Prop :=
  | lease_open c o l k b f :
      c ∉ o → lease_step limit (mkLeases o l k b f) [Open c] (mkLeases ({[c]} ∪ o) l k b f)
  | lease_acquire c o l k f :
      c ∈ o → c ∉ l → c ∉ k → Z.of_nat (size l) < limit →
      lease_step limit (mkLeases o l k false f) [Acquire c]
        (mkLeases o ({[c]} ∪ l) k false f)
  | lease_release c o l k b f :
      c ∈ l →
      lease_step limit (mkLeases o l k b f) [Release c] (mkLeases o (l ∖ {[c]}) k b f)
  | lease_close c o l k b f :
      c ∈ o → c ∉ l → c ∉ k →
      lease_step limit (mkLeases o l k b f) [Close c] (mkLeases o l ({[c]} ∪ k) b f)
  | lease_timeout o l k f :
      lease_step limit (mkLeases o l k false f) [TimedOut] (mkLeases o l k false f)
  | lease_refused o l k f :
      lease_step limit (mkLeases o l k true f) [Refused] (mkLeases o l k true f)
  | lease_warmed n o l k b f :
      lease_step limit (mkLeases o l k b f) [WarmedUp n] (mkLeases o l k b f)
  | lease_stop o l k b f :
      lease_step limit (mkLeases o l k b f) [Stop] (mkLeases o l k true f)
  | lease_drained o k f :
      lease_step limit (mkLeases o ∅ k true f) [Drained] (mkLeases o ∅ k true true).

Definition lease_lts (limit : Z) : lts leases event :=
  Lts (λ a, a = mkLeases ∅ ∅ ∅ false false) (lease_step limit).

(** ** Counting threads *)

Definition active_of (p : pc) : Z :=
  match p with
  | AcqCreate | AcqFailed | AcqCount _ | AcqCheck _ _ | AcqRetire _ _ | AcqRetired _
  | AcqGrant _ | Holding _ | Releasing _ _ => 1
  | _ => 0
  end.

Definition warming_of (p : pc) : Z :=
  match p with
  | WarmCreate _ _ | WarmFailed _ _ | WarmAdd _ _ _ => 1
  | _ => 0
  end.

(** Active threads whose entry has been counted in [created]. *)
Definition counted_of (p : pc) : Z :=
  match p with
  | AcqCheck _ _ | AcqRetire _ _ | AcqRetired _ | AcqGrant _ | Holding _ | Releasing _ _ => 1
  | _ => 0
  end.

Definition waiting_of (p : pc) : Z :=
  match p with
  | AcqAsleep _ | AcqWoken _ => 1
  | _ => 0
  end.

(** Threads that have seen the pool shut down. *)
Definition stopping_of (p : pc) : Z :=
  match p with
  | AcqRetire _ None | AcqRetired None | ShutJoin | ShutWait | ShutAsleep | CleanerDone => 1
  | _ => 0
  end.

(** The entries a thread owns. *)
Definition owned (p : pc) : list Entry :=
  match p with
  | AcqCount e | AcqCheck e _ | AcqRetire e _ | AcqGrant e | Holding e
  | Releasing e _ | WarmAdd _ _ e => [e]
  | Closing es _ => es
  | _ => []
  end.

Definition is_conn (c : Z) (e : Entry) : Z := if conn e =? c then 1 else 0.
Definition owns (c : Z) (p : pc) : Z := sum_of (is_conn c) (owned p).

Definition holding_of (p : pc) : Z := match p with Holding _ => 1 | _ => 0 end.
Definition holds (c : Z) (p : pc) : Z :=
  match p with Holding e => is_conn c e | _ => 0 end.

Definition asleep_of (p : pc) : Z := match p with AcqAsleep _ => 1 | _ => 0 end.
(** Threads about to look for an available connection. *)
Definition token_of (p : pc) : Z :=
  match p with AcqTop _ | AcqWoken _ => 1 | _ => 0 end.
Definition shut_asleep_of (p : pc) : Z := match p with ShutAsleep => 1 | _ => 0 end.

(** Measures that waking a thread does not change. *)
Definition stable (f : pc → Z) : Prop :=
  ∀ p, f (wake_acquirer p) = f p ∧ f (wake_shutdown p) = f p.

Lemma stable_measures c :
  stable active_of ∧ stable warming_of ∧ stable counted_of ∧ stable waiting_of
  ∧ stable stopping_of ∧ stable (owns c) ∧ stable holding_of ∧ stable (holds c).
Proof. split_and!; intros []; done. Qed.

Section sums.
Context (f : pc → Z) (Hf : stable f).

Lemma sum_of_woken w ts ts' : woken w ts ts' → sum_of f ts' = sum_of f ts.
Proof.
  destruct 1 as [ts|ts i d Hi|ts|ts]; try done.
  - rewrite (sum_of_insert _ _ _ _ _ Hi). destruct (Hf (AcqAsleep d)) as [Ha _].
    simpl in Ha. lia.
  - rewrite sum_of_fmap. apply sum_of_ext. intros p _. apply Hf.
Qed.

Lemma sum_of_step i p p' w (b : bool) ts ts' :
  ts !! i = Some p → woken w (<[i:=p']> ts) ts' →
  sum_of f (if b then wake_shutdown <$> ts' else ts') = sum_of f ts - f p + f p'.
Proof.
  intros Hi Hw. rewrite <-(sum_of_insert _ _ _ _ _ Hi), <-(sum_of_woken _ _ _ Hw).
  destruct b; [|done]. rewrite sum_of_fmap. apply sum_of_ext. intros q _. apply Hf.
Qed.

Lemma sum_of_wake i p ts :
  ts !! i = Some p → sum_of f (<[i:=wake_shutdown (wake_acquirer p)]> ts) = sum_of f ts.
Proof.
  intros Hi. rewrite (sum_of_insert _ _ _ _ _ Hi).
  destruct (Hf p), (Hf (wake_acquirer p)). lia.
Qed.

(** The other threads' share of a measure. *)
Lemma sum_of_others i p ts :
  (∀ q, 0 ≤ f q) → ts !! i = Some p → 0 ≤ sum_of f ts - f p.
Proof. intros Hn Hi. pose proof (sum_of_lookup f ts i p Hn Hi). lia. Qed.
End sums.

(** ** Accounting *)

(** The counters agree with [A] active threads, [W] warming up, [C] counted
    in [created] and [Q] waiting. *)
Record counts (c : ConnectionPoolConfig) (st : State) (A W C Q : Z) : Prop := {
  c_config : config st = c;
  c_active : active st = A;
  c_total : total st = Z.of_nat (length (idle st)) + A + W;
  c_max : total st ≤ max_size c;
  c_waiting : waiting st = u64 Q;
  c_created : created st = u64 (destroyed st + Z.of_nat (length (idle st)) + C);
}.

Lemma sweep_spec c now l t d kept stale t' d' :
  Z.of_nat (length l) ≤ t < two64 → sweep c now l t d = (kept, stale, t', d') →
  kept ++ stale ≡ₚ l ∧ t' = t - Z.of_nat (length stale)
  ∧ u64 d' = u64 (d + Z.of_nat (length stale)).
Proof.
  revert t d kept stale t' d'. induction l as [|e l IH]; intros t d kept stale t' d' Ht; simpl in *.
  { intros [= <- <- <- <-]. simpl. split_and!; [done|lia|f_equal; lia]. }
  case_match.
  - destruct (sweep c now l (t ⊖ 1) (d ⊕ 1)) as [[[k s] t1] d1] eqn:Hs.
    intros [= <- <- <- <-]. rewrite (u64_small (t - 1)) in Hs by lia.
    destruct (IH (t - 1) (d ⊕ 1) _ _ _ _ ltac:(lia) Hs) as (Hp & -> & Hd).
    split_and!; [|simpl; lia|].
    + rewrite <-Hp. by rewrite Permutation_middle.
    + rewrite Hd, u64_add_l. f_equal. simpl length. lia.
  - destruct (sweep c now l t d) as [[[k s] t1] d1] eqn:Hs.
    intros [= <- <- <- <-]. destruct (IH t d _ _ _ _ ltac:(lia) Hs) as (Hp & -> & Hd).
    split_and!; [|done|done]. simpl. by rewrite Hp.
Qed.

Definition config_ok (c : ConnectionPoolConfig) : Prop :=
  0 ≤ min_idle c ∧ 0 < max_size c < two64.

Ltac counts_solve :=
  repeat match goal with
  | H : idle _ = _ |- _ => rewrite H; clear H
  | H : waiting _ = _ |- _ => rewrite H; clear H
  | H : created _ = _ |- _ => rewrite H; clear H
  end;
  rewrite ?length_app; simpl length; rewrite <-?Z.add_assoc;
  rewrite ?u64_add_l, ?u64_sub_l, ?u64_add_r;
  first [lia | f_equal; lia | rewrite u64_small; lia].

Lemma u64_congr_add a b n : u64 a = u64 b → u64 (a + n) = u64 (b + n).
Proof. intros H. by rewrite <-(u64_add_l a), H, u64_add_l. Qed.

Lemma counts_step c e st p eff A W C Q :
  config_ok c → 0 ≤ A → 0 ≤ W → 0 ≤ C → 0 ≤ Q →
  counts c st (A + active_of p) (W + warming_of p) (C + counted_of p) (Q + waiting_of p) →
  thread_step e st p = Some eff →
  let p' := next eff in
  counts c (state eff) (A + active_of p') (W + warming_of p') (C + counted_of p')
    (Q + waiting_of p').
Proof.
  intros [Hmin Hm] HA HW HC HQ [Hcfg Hact Htot Hmax Hwait Hcre] Hs.
  subst c. assert (Hlen : 0 ≤ Z.of_nat (length (idle st))) by lia.
  destruct p; simpl in *; unfold quietly in *;
    try match goal with
    | H : context [cleanupIdle] |- _ =>
        unfold cleanupIdle in H;
        destruct (sweep _ _ _ _ _) as [[[kept stale] t'] d'] eqn:Hsw in H;
        apply sweep_spec in Hsw as (Hp & Ht & Hd); [|lia];
        apply Permutation_length in Hp; rewrite length_app in Hp
    end; branch.
  all: rewrite ?orb_false_iff, ?Z.ltb_lt, ?Z.leb_gt in *; try destruct c; try destruct k; simpl in *.
  all: split; simpl; try done; try counts_solve.
  all: rewrite Hcre, <-!Z.add_assoc; symmetry; etransitivity;
    [apply u64_congr_add, Hd|]; f_equal; lia.
Qed.

(** ** The invariant of the system *)

Record pool_inv (c : ConnectionPoolConfig) (s : system) : Prop := {
  i_counts : counts c (pool s) (sum_of active_of (threads s)) (sum_of warming_of (threads s))
    (sum_of counted_of (threads s)) (sum_of waiting_of (threads s));
  i_stop : shutting_down (pool s) = false → sum_of stopping_of (threads s) = 0;
  i_shut : sum_of shut_asleep_of (threads s) = 0 ∨ 0 < active (pool s);
  i_wake : shutting_down (pool s) = false →
    sum_of asleep_of (threads s) = 0
    ∨ max_size c - sum_of active_of (threads s) - sum_of warming_of (threads s)
      ≤ sum_of token_of (threads s);
  i_woken : shutting_down (pool s) = true → sum_of asleep_of (threads s) = 0;
}.

Lemma measures_nonneg c p :
  0 ≤ active_of p ∧ 0 ≤ warming_of p ∧ 0 ≤ counted_of p ∧ 0 ≤ waiting_of p
  ∧ 0 ≤ stopping_of p ∧ 0 ≤ holding_of p ∧ 0 ≤ asleep_of p ∧ 0 ≤ token_of p
  ∧ 0 ≤ shut_asleep_of p ∧ 0 ≤ owns c p ∧ 0 ≤ holds c p.
Proof.
  assert (∀ e, 0 ≤ is_conn c e) by (intros e; unfold is_conn; case_match; lia).
  assert (0 ≤ owns c p) as Ho by by apply sum_of_nonneg.
  split_and!; try done;
    destruct p; simpl; try case_match; first [lia|done].
Qed.

(** The effect of the notifications of a step on the threads asleep. *)
Lemma woken_tokens w (b : bool) ts ts' :
  woken w ts ts' →
  let ts'' := if b then wake_shutdown <$> ts' else ts' in
  let A := sum_of asleep_of ts in let T := sum_of token_of ts in
  match w with
  | NoWake => sum_of asleep_of ts'' = A ∧ sum_of token_of ts'' = T
  | WakeOne =>
      sum_of asleep_of ts'' = A - 1 ∧ sum_of token_of ts'' = T + 1
      ∨ A = 0 ∧ sum_of asleep_of ts'' = 0 ∧ sum_of token_of ts'' = T
  | WakeAll => sum_of asleep_of ts'' = 0 ∧ sum_of token_of ts'' = T + A
  end.
Proof.
  intros Hw. simpl.
  assert (∀ f l, (∀ p, f (wake_shutdown p) = f p) →
    sum_of f (if b then wake_shutdown <$> l else l) = sum_of f l) as Hb.
  { intros f l Hf. destruct b; [|done]. rewrite sum_of_fmap. by apply sum_of_ext. }
  rewrite !Hb by (by intros []).
  destruct Hw as [ts|ts i d Hi|ts Hn|ts].
  - done.
  - left. rewrite !(sum_of_insert _ _ _ _ _ Hi). simpl. lia.
  - right. split_and!; [|..|done]; apply sum_of_zero; try (by intros []);
      intros p [i Hi]%list_elem_of_lookup; destruct p; try done; by destruct (Hn i d).
  - rewrite !sum_of_fmap. split.
    + apply sum_of_zero; by intros [].
    + induction ts as [|p ts IH]; simpl; [done|]. rewrite IH. destruct p; simpl; lia.
Qed.

Lemma woken_shut_asleep w (b : bool) ts ts' :
  woken w ts ts' →
  sum_of shut_asleep_of (if b then wake_shutdown <$> ts' else ts')
  = if b then 0 else sum_of shut_asleep_of ts.
Proof.
  intros Hw. destruct b.
  - rewrite sum_of_fmap. apply sum_of_zero; by intros [].
  - destruct Hw as [ts|ts i d Hi|ts Hn|ts]; try done.
    + rewrite (sum_of_insert _ _ _ _ _ Hi). simpl. lia.
    + rewrite sum_of_fmap. apply sum_of_ext. by intros [].
Qed.

Lemma ready_false st :
  ready st = false →
  shutting_down st = false ∧ idle st = [] ∧ max_size (config st) ≤ total st.
Proof.
  unfold ready. rewrite !orb_false_iff, negb_false_iff, bool_decide_eq_true, Z.ltb_ge.
  tauto.
Qed.

(** What a step of a thread does to the wake-up bookkeeping; [A W S T] count
    the other threads. *)
Lemma thread_step_wake c e st p eff A W S T :
  config_ok c → 0 ≤ A → 0 ≤ W → 0 ≤ T →
  config st = c → active st = A + active_of p →
  total st = Z.of_nat (length (idle st)) + (A + active_of p) + (W + warming_of p) →
  total st ≤ max_size c →
  thread_step e st p = Some eff →
  let p' := next eff in
  let dA := S + asleep_of p' in let dT := T + token_of p' in
  (shutting_down (state eff) = false → shutting_down st = false ∧ stopping_of p' ≤ stopping_of p)
  ∧ (shutting_down st = false →
     S + asleep_of p = 0
     ∨ max_size c - (A + active_of p) - (W + warming_of p) ≤ T + token_of p →
     let room := max_size c - (A + active_of p') - (W + warming_of p') in
     match available eff with
     | NoWake => dA = 0 ∨ room ≤ dT
     | WakeOne => dA ≤ 0 ∨ room ≤ dT + 1
     | WakeAll => True
     end)
  ∧ (shutdown_done eff = true ∨ active st ≤ active (state eff) ∨ 0 < active (state eff))
  ∧ (shut_asleep_of p' = 0 ∨ 0 < active (state eff))
  ∧ (shutting_down (state eff) = true →
     available eff = WakeAll ∨ shutting_down st = true ∧ asleep_of p' = 0).
Proof.
  intros [Hmin Hm] HA HW HT Hcfg Hact Htot Hmax Hs. subst c.
  destruct p; simpl in *; unfold quietly in *;
    try match goal with
    | H : context [cleanupIdle] |- _ =>
        unfold cleanupIdle in H;
        destruct (sweep _ _ _ _ _) as [[[kept stale] t'] d'] eqn:Hsw in H
    end; branch.
  all: try match goal with
    | H : ready _ = false |- _ => apply ready_false in H as (? & Hidle & ?);
        rewrite Hidle in Htot; simpl in Htot
    end.
  all: rewrite ?orb_false_iff, ?Z.ltb_lt, ?Z.ltb_ge, ?Z.eqb_eq, ?Z.eqb_neq in *;
    try destruct c; try destruct k; simpl in *.
  all: split_and!; try done; try lia; try (intros; split; [congruence|lia]);
    try (intros; lia); try (intros; exfalso; congruence);
    try (by left); try (intros; right; split; congruence).
  all: try (right; rewrite u64_small; lia).
  all: destruct (decide (A = 0)); [left|right; right]; rewrite u64_small; lia.
Qed.

Section invariant.
Context (c : ConnectionPoolConfig) (Hok : config_ok c).

Lemma pool_inv_init s : pool_init c s → pool_inv c s.
Proof.
  intros (Hm & _ & n & Ht). unfold make in Hm. repeat case_match; try done.
  injection Hm as Hp. destruct s as [st t k ts]; simpl in *. subst.
  assert (∀ f, f Outside = 0 → sum_of f (replicate n Outside) = 0) as Hz.
  { intros f Hf. induction n; simpl; lia. }
  split; simpl; rewrite ?Hz by done; try (intros; lia).
  split; simpl; rewrite ?Hz by done; try done. destruct Hok. lia.
Qed.

(** Replacing a thread by one that counts the same. *)
Lemma pool_inv_same st t k ts i p p' t' :
  pool_inv c (mkSystem st t k ts) → ts !! i = Some p →
  (active_of p' = active_of p ∧ warming_of p' = warming_of p
   ∧ counted_of p' = counted_of p ∧ waiting_of p' = waiting_of p) →
  (shutting_down st = false → stopping_of p' = stopping_of p) →
  (shut_asleep_of p' ≤ shut_asleep_of p) →
  (asleep_of p' ≤ asleep_of p ∧ token_of p ≤ token_of p') →
  pool_inv c (mkSystem st t' k (<[i:=p']> ts)).
Proof.
  intros [Hcs Hst Hsh Hwk Hwo] Hi (Ha1 & Hw1 & Hc1 & Hq1) Hs Hsa Hat. simpl in *.
  assert (0 ≤ sum_of asleep_of (<[i:=p']> ts) ∧ 0 ≤ sum_of shut_asleep_of (<[i:=p']> ts))
    as [Ha Hb] by (split; apply sum_of_nonneg; by intros []).
  split; simpl; rewrite !(sum_of_insert _ _ _ _ _ Hi) in *;
    rewrite ?Ha1, ?Hw1, ?Hc1, ?Hq1.
  - by rewrite !Z.sub_add.
  - intros Hd. rewrite (Hs Hd), (Hst Hd). lia.
  - lia.
  - intros Hd. destruct (Hwk Hd); [left|right]; lia.
  - intros Hd. specialize (Hwo Hd). lia.
Qed.

(** A step of the thread [i] in the code of the pool. *)
Lemma pool_inv_thread i p f g eff st t k ts ts' :
  pool_inv c (mkSystem st t k ts) → ts !! i = Some p →
  thread_step (mkEnv t k f g) st p = Some eff →
  woken (available eff) (<[i := next eff]> ts) ts' →
  pool_inv c (mkSystem (state eff) t (k + 1)
    (if shutdown_done eff then wake_shutdown <$> ts' else ts')).
Proof.
  intros H Hi Hst Hw.
  pose proof H as [Hcs Hstop Hsh Hwk Hwo]. simpl in *.
  destruct (stable_measures 0) as (Sa & Sw & Sc & Sq & Ss & _).
  pose proof (sum_of_others _ i p ts (λ q, proj1 (measures_nonneg 0 q)) Hi) as HA.
  assert (∀ f, (∀ q, 0 ≤ f q) → 0 ≤ sum_of f ts - f p) as Hn
    by (intros; by apply sum_of_others with i).
  pose proof (Hn warming_of (λ q, ltac:(apply (measures_nonneg 0 q)))) as HW.
  pose proof (Hn counted_of (λ q, ltac:(apply (measures_nonneg 0 q)))) as HC.
  pose proof (Hn waiting_of (λ q, ltac:(apply (measures_nonneg 0 q)))) as HQ.
  pose proof (Hn token_of (λ q, ltac:(apply (measures_nonneg 0 q)))) as HT.
  pose proof (Hn shut_asleep_of (λ q, ltac:(apply (measures_nonneg 0 q)))) as HS.
  pose proof Hcs as [C1 C2 C3 C4 _ _].
  destruct (thread_step_wake c (mkEnv t k f g) st p eff (sum_of active_of ts - active_of p)
    (sum_of warming_of ts - warming_of p) (sum_of asleep_of ts - asleep_of p)
    (sum_of token_of ts - token_of p) Hok HA HW HT C1 ltac:(lia) ltac:(lia) C4 Hst)
    as (Hd & Hr & Hdone & Hsa & Hdown).
  pose proof (counts_step c (mkEnv t k f g) st p eff _ _ _ _ Hok HA HW HC HQ
    ltac:(rewrite !Z.sub_add; done) Hst) as Hcs'. simpl in Hcs'.
  assert (0 ≤ sum_of asleep_of (<[i:=next eff]> ts)
    ∧ 0 ≤ sum_of stopping_of (<[i:=next eff]> ts)) as [Hnn Hns]
    by (split; apply sum_of_nonneg; intros q; apply (measures_nonneg 0 q)).
  pose proof (woken_tokens _ (shutdown_done eff) _ _ Hw) as Htok. simpl in Htok.
  split; simpl.
  - by rewrite (sum_of_step _ Sa i p _ _ _ _ _ Hi Hw), (sum_of_step _ Sw i p _ _ _ _ _ Hi Hw),
      (sum_of_step _ Sc i p _ _ _ _ _ Hi Hw), (sum_of_step _ Sq i p _ _ _ _ _ Hi Hw).
  - intros Hx. rewrite (sum_of_step _ Ss i p _ _ _ _ _ Hi Hw).
    rewrite (sum_of_insert _ _ _ _ _ Hi) in Hns. destruct (Hd Hx) as [Hx' ?].
    specialize (Hstop Hx'). lia.
  - rewrite (woken_shut_asleep _ _ _ _ Hw), (sum_of_insert _ _ _ _ _ Hi).
    destruct (shutdown_done eff); [by left|]. destruct Hdone as [?|Hdone]; [done|].
    assert (0 ≤ shut_asleep_of p) by (by destruct p). lia.
  - intros Hx. destruct (Hd Hx) as [Hx' _]. specialize (Hr Hx').
    specialize (Hwk Hx').
    rewrite (sum_of_step _ Sa i p _ _ _ _ _ Hi Hw), (sum_of_step _ Sw i p _ _ _ _ _ Hi Hw).
    rewrite (sum_of_insert asleep_of _ _ _ _ Hi) in Htok, Hnn.
    rewrite (sum_of_insert token_of _ _ _ _ Hi) in Htok.
    pose proof (sum_of_nonneg asleep_of
      (if shutdown_done eff then wake_shutdown <$> ts' else ts') ltac:(by intros [])).
    destruct (available eff); simpl in *; lia.
  - intros Hx. rewrite (sum_of_insert asleep_of _ _ _ _ Hi) in Htok, Hnn.
    pose proof (sum_of_nonneg asleep_of
      (if shutdown_done eff then wake_shutdown <$> ts' else ts') ltac:(by intros [])).
    destruct (Hdown Hx) as [Ha|[Hy Hz]]; [rewrite Ha in Htok; lia|].
    specialize (Hwo Hy). assert (0 ≤ asleep_of p) by (by destruct p).
    destruct (available eff); lia.
Qed.

Lemma pool_inv_step s es s' : pool_inv c s → pool_step s es s' → pool_inv c s'.
Proof.
  intros H Hs. destruct Hs as [i p f g eff st t k ts ts' Hi Hst Hw|i p st t k ts Hi
    |i st t k ts Hi Hc|i to st t k ts Hi|i e st t k ts Hi|i st t k ts Hi|i st t k ts Hi
    |t' st t k ts Hle].
  - by eapply pool_inv_thread.
  - eapply pool_inv_same; eauto; destruct p; simpl; try done; try lia.
  - eapply pool_inv_same; eauto; simpl; try done; try lia.
  - eapply pool_inv_same; eauto; simpl; try done; try lia.
  - eapply pool_inv_same; eauto; simpl; try done; try lia.
  - eapply pool_inv_same; eauto; simpl; try done; try lia.
  - eapply pool_inv_same; eauto; simpl; try done; try lia.
  - by destruct H.
Qed.
End invariant.

(** ** Refinement of the leases *)

Definition b2z (P : Prop) `{Decision P} : Z := if decide P then 1 else 0.
Arguments b2z P {_}.

(** Occurrences of a connection in the pool: idle, or owned by a thread. *)
Definition present (c : Z) (s : system) : Z :=
  sum_of (is_conn c) (idle (pool s)) + sum_of (owns c) (threads s).

Record lease_rel (cfg : ConnectionPoolConfig) (s : system) (a : leases) : Prop := {
  l_inv : pool_inv cfg s;
  l_present c : present c s + b2z (c ∈ closed a) = b2z (c ∈ opened a);
  l_serial c : c ∈ opened a → c < serial s;
  l_held c : sum_of (holds c) (threads s) = b2z (c ∈ leased a);
  l_size : Z.of_nat (size (leased a)) = sum_of holding_of (threads s);
  l_stop : stopped a = shutting_down (pool s);
  l_finished : finished a = true → shutting_down (pool s) = true ∧ idle (pool s) = [];
}.

Lemma b2z_range P `{Decision P} : 0 ≤ b2z P ≤ 1.
Proof. unfold b2z. case_decide; lia. Qed.

Lemma b2z_true (P : Prop) `{Decision P} : P → b2z P = 1.
Proof. intros. unfold b2z. by rewrite decide_True. Qed.
Lemma b2z_false (P : Prop) `{Decision P} : ¬ P → b2z P = 0.
Proof. intros. unfold b2z. by rewrite decide_False. Qed.
Lemma b2z_one (P : Prop) `{Decision P} : 0 < b2z P → P.
Proof. unfold b2z. case_decide; [done|lia]. Qed.

Lemma b2z_union (c d : Z) (X : gset Z) :
  c ∉ X → b2z (d ∈ {[c]} ∪ X) = b2z (d ∈ X) + (if c =? d then 1 else 0).
Proof.
  intros Hc. unfold b2z. destruct (Z.eqb_spec c d) as [->|Hne].
  - rewrite decide_True; [by rewrite decide_False|]. apply elem_of_union. left.
    by apply elem_of_singleton.
  - rewrite Z.add_0_r. apply decide_ext. rewrite elem_of_union, elem_of_singleton.
    split; [by intros [|]|by right].
Qed.

Lemma b2z_difference (c d : Z) (X : gset Z) :
  c ∈ X → b2z (d ∈ X ∖ {[c]}) = b2z (d ∈ X) - (if c =? d then 1 else 0).
Proof.
  intros Hc. unfold b2z. destruct (Z.eqb_spec c d) as [->|Hne].
  - rewrite decide_False, decide_True; [done..|].
    by rewrite elem_of_difference, elem_of_singleton; intros [_ []].
  - rewrite Z.sub_0_r. apply decide_ext. rewrite elem_of_difference, elem_of_singleton.
    split; [by intros [? _]|done].
Qed.

Lemma size_add (c : Z) (X : gset Z) : c ∉ X → size ({[c]} ∪ X) = S (size X).
Proof.
  intros Hc. rewrite size_union, size_singleton; [done|]. by apply disjoint_singleton_l.
Qed.

Lemma sum_of_Permutation {A} (f : A → Z) l l' : l ≡ₚ l' → sum_of f l = sum_of f l'.
Proof. induction 1; simpl; lia. Qed.

(** What the events of a step say about the connections. *)
Definition opens (c : Z) (es : list event) : Z :=
  sum_of (λ e, match e with Open d => if d =? c then 1 else 0 | _ => 0 end) es.
Definition closes (c : Z) (es : list event) : Z :=
  sum_of (λ e, match e with Close d => if d =? c then 1 else 0 | _ => 0 end) es.
Definition acquires (c : Z) (es : list event) : Z :=
  sum_of (λ e, match e with Acquire d => if d =? c then 1 else 0 | _ => 0 end) es.

(** A step of a thread moves connections as its events say. *)
Lemma thread_step_moves e st p eff d :
  Z.of_nat (length (idle st)) ≤ total st < two64 →
  thread_step e st p = Some eff →
  sum_of (is_conn d) (idle (state eff)) + owns d (next eff)
    = sum_of (is_conn d) (idle st) + owns d p + opens d (events eff) - closes d (events eff)
  ∧ holds d (next eff) = holds d p + acquires d (events eff).
Proof.
  intros Ht Hs. unfold owns, opens, closes, acquires.
  destruct p; try discriminate Hs; simpl in *; unfold quietly in *;
    try match goal with
    | H : context [cleanupIdle] |- _ =>
        unfold cleanupIdle in H;
        destruct (sweep _ _ _ _ _) as [[[kept stale] t'] d'] eqn:Hsw in H;
        apply sweep_spec in Hsw as (Hp & _ & _); [|done];
        apply (sum_of_Permutation (is_conn d)) in Hp; rewrite sum_of_app in Hp
    end.
  all: simplify_eq/=; repeat (case_match; simplify_eq/=; try done).
  all: try destruct c; try destruct k; simpl.
  all: try match goal with H : idle _ = _ |- _ => rewrite H end.
  all: rewrite ?sum_of_app; simpl; first [lia|unfold is_conn; repeat case_match; lia].
Qed.

Lemma createEntry_fresh e entry : createEntry e = Some entry → conn entry = fresh e.
Proof. unfold createEntry. repeat case_match; by intros [= <-]. Qed.

Lemma is_conn_nonneg d e : 0 ≤ is_conn d e.
Proof. unfold is_conn. case_match; lia. Qed.

(** The other facts about the events of a step. *)
Lemma thread_step_events e st p eff :
  thread_step e st p = Some eff →
  (shutting_down st = true →
     shutting_down (state eff) = true ∧ (idle st = [] → idle (state eff) = []))
  ∧ match events eff with
    | [] => shutting_down (state eff) = shutting_down st ∧ holding_of (next eff) = holding_of p
    | [Open c] => c = fresh e ∧ shutting_down (state eff) = shutting_down st
        ∧ holding_of (next eff) = holding_of p
    | [Acquire c] => shutting_down st = false ∧ shutting_down (state eff) = false
        ∧ 0 < owns c p ∧ holds c p = 0 ∧ active_of p = 1 ∧ holding_of p = 0
        ∧ holding_of (next eff) = 1
    | [Close c] => 0 < owns c p ∧ holds c p = 0 ∧ shutting_down (state eff) = shutting_down st
        ∧ holding_of (next eff) = holding_of p
    | [TimedOut] => shutting_down st = false ∧ shutting_down (state eff) = false
        ∧ holding_of (next eff) = holding_of p
    | [Refused] => (shutting_down st = true ∨ stopping_of p = 1)
        ∧ shutting_down (state eff) = shutting_down st
        ∧ holding_of (next eff) = holding_of p
    | [WarmedUp _] => shutting_down (state eff) = shutting_down st
        ∧ holding_of (next eff) = holding_of p
    | [Stop] => shutting_down (state eff) = true ∧ holding_of (next eff) = holding_of p
    | [Drained] => active st = 0 ∧ stopping_of p = 1 ∧ idle (state eff) = []
        ∧ shutting_down (state eff) = shutting_down st
        ∧ holding_of (next eff) = holding_of p
    | _ => False
    end.
Proof.
  intros Hs.
  destruct p; try discriminate Hs; simpl in *; unfold quietly in *;
    try match goal with
    | H : context [cleanupIdle] |- _ =>
        unfold cleanupIdle in H;
        destruct (sweep _ _ _ _ _) as [[[kept stale] t'] d'] eqn:Hsw in H
    end.
  all: simplify_eq/=; repeat (case_match; simplify_eq/=; try done).
  all: try match goal with H : ready _ = false |- _ => apply ready_false in H as (? & ? & ?) end.
  all: rewrite ?Z.eqb_eq, ?orb_false_iff in *; try destruct c; try destruct k; simpl in *.
  all: try match goal with
    | H : createEntry _ = Some _ |- _ => apply createEntry_fresh in H
    | H : _ ∧ _ |- _ => destruct H
    end.
  all: split_and!; try done; try (intros; split_and!; congruence); try (by left); try (by right).
  all: try (unfold owns; simpl; unfold is_conn at 1; rewrite Z.eqb_refl).
  all: try match goal with
    | |- 0 < 1 + sum_of ?f ?l => pose proof (sum_of_nonneg f l (is_conn_nonneg _)); lia
    | |- 0 < _ => lia
    end.
  intros Hd. split; [done|]. intros Hi. rewrite Hi in Hsw. simpl in Hsw. congruence.
Qed.

Section leases.
Context (c : ConnectionPoolConfig) (Hok : config_ok c).

Lemma lease_rel_init s :
  pool_init c s → lease_rel c s (mkLeases ∅ ∅ ∅ false false).
Proof.
  intros H. pose proof (pool_inv_init c Hok s H) as Hinv.
  destruct H as (Hm & Hser & n & Ht). unfold make in Hm. repeat case_match; try done.
  injection Hm as Hp. destruct s as [st t k ts]; simpl in *. subst.
  assert (∀ f, f Outside = 0 → f CleanerSleep = 0 →
    sum_of f (CleanerSleep :: replicate n Outside) = 0) as Hz.
  { intros f Hf Hc. simpl. rewrite Hc. clear -Hf. induction n; simpl in *; lia. }
  split; try done.
  - intros d. unfold present. cbn [idle pool threads closed opened].
    rewrite Hz by done. by rewrite !b2z_false by set_solver.
  - intros d. cbn [threads leased]. rewrite Hz by done. by rewrite b2z_false by set_solver.
  - cbn [threads leased]. by rewrite Hz, size_empty by done.
Qed.

(** Leases after a step of thread [i] from [p] to [p']. *)
Lemma lease_rel_update st t k ts a i p p' w b ts' st' a' :
  lease_rel c (mkSystem st t k ts) a → ts !! i = Some p →
  woken w (<[i:=p']> ts) ts' →
  let ts'' := if b : bool then wake_shutdown <$> ts' else ts' in
  pool_inv c (mkSystem st' t (k + 1) ts'') →
  (∀ d, sum_of (is_conn d) (idle st') + owns d p' + b2z (d ∈ closed a') - b2z (d ∈ opened a')
    = sum_of (is_conn d) (idle st) + owns d p + b2z (d ∈ closed a) - b2z (d ∈ opened a)) →
  (∀ d, d ∈ opened a' → d = k ∨ d ∈ opened a) →
  (∀ d, holds d p' - b2z (d ∈ leased a') = holds d p - b2z (d ∈ leased a)) →
  Z.of_nat (size (leased a')) - holding_of p' = Z.of_nat (size (leased a)) - holding_of p →
  stopped a' = shutting_down st' →
  (finished a' = true → shutting_down st' = true ∧ idle st' = []) →
  lease_rel c (mkSystem st' t (k + 1) ts'') a'.
Proof.
  intros H Hi Hw ts'' Hinv Hpres Hop Hheld Hsz Hstop Hfin.
  destruct (stable_measures 0) as (_ & _ & _ & _ & _ & _ & Sh & _).
  split; try done.
  - intros d. destruct (stable_measures d) as (_ & _ & _ & _ & _ & So & _).
    pose proof (l_present _ _ _ H d) as Hd. specialize (Hpres d). unfold present in *.
    simpl in *. unfold ts''. rewrite (sum_of_step _ So i p _ _ _ _ _ Hi Hw). lia.
  - intros d Hd. simpl. destruct (Hop d Hd) as [->|Ho]; [lia|].
    pose proof (l_serial _ _ _ H d Ho). simpl in *. lia.
  - intros d. destruct (stable_measures d) as (_ & _ & _ & _ & _ & _ & _ & Sd).
    pose proof (l_held _ _ _ H d) as Hd. specialize (Hheld d). simpl in *. unfold ts''.
    rewrite (sum_of_step _ Sd i p _ _ _ _ _ Hi Hw). lia.
  - pose proof (l_size _ _ _ H) as Hd. simpl in *. unfold ts''.
    rewrite (sum_of_step _ Sh i p _ _ _ _ _ Hi Hw). lia.
Qed.

(** Leases after a step of the environment on thread [i]. *)
Lemma lease_rel_local st t k ts a i p p' l' :
  lease_rel c (mkSystem st t k ts) a → ts !! i = Some p →
  pool_inv c (mkSystem st t k (<[i:=p']> ts)) →
  (∀ d, owns d p' = owns d p) →
  (∀ d, holds d p' - b2z (d ∈ l') = holds d p - b2z (d ∈ leased a)) →
  Z.of_nat (size l') - holding_of p' = Z.of_nat (size (leased a)) - holding_of p →
  lease_rel c (mkSystem st t k (<[i:=p']> ts))
    (mkLeases (opened a) l' (closed a) (stopped a) (finished a)).
Proof.
  intros H Hi Hinv Ho Hh Hsz. destruct H as [_ H2 H3 H4 H5 H6 H7].
  split; try done; simpl in *.
  - intros d. specialize (H2 d). unfold present in *. simpl in *.
    rewrite (sum_of_insert _ _ _ _ _ Hi), Ho. lia.
  - intros d. specialize (H4 d). specialize (Hh d).
    rewrite (sum_of_insert _ _ _ _ _ Hi). lia.
  - rewrite (sum_of_insert _ _ _ _ _ Hi). lia.
Qed.

(** A connection owned once by a thread that does not hold it can be leased or
    closed. *)
Lemma owned_free st t k ts a i p d :
  lease_rel c (mkSystem st t k ts) a → ts !! i = Some p → 0 < owns d p → holds d p = 0 →
  d ∈ opened a ∧ (d ∉ leased a) ∧ d ∉ closed a.
Proof.
  intros H Hi Ho Hh.
  pose proof (l_present _ _ _ H d) as Hp. pose proof (l_held _ _ _ H d) as Hl.
  pose proof (b2z_range (d ∈ closed a)). pose proof (b2z_range (d ∈ opened a)).
  pose proof (b2z_range (d ∈ leased a)). unfold present in Hp. simpl in *.
  pose proof (sum_of_nonneg _ (idle st) (is_conn_nonneg d)).
  pose proof (sum_of_lookup (owns d) ts i p (λ q, ltac:(apply (measures_nonneg d q))) Hi).
  assert (∀ q, holds d q ≤ owns d q) as Hle.
  { intros q. destruct q; simpl; try apply (measures_nonneg d _). unfold owns; simpl. lia. }
  pose proof (sum_of_mono _ _ _ _ _ Hle Hi) as Hsub.
  split_and!.
  - apply (b2z_one (d ∈ opened a)). lia.
  - intros Hin. rewrite (b2z_true (d ∈ leased a) Hin) in *. lia.
  - intros Hin. rewrite (b2z_true (d ∈ closed a) Hin) in *. lia.
Qed.

Lemma pool_total_range s :
  pool_inv c s → Z.of_nat (length (idle (pool s))) ≤ total (pool s) < two64.
Proof.
  intros [[_ _ Ht Hm _ _] _ _ _ _]. destruct Hok as [_ ?].
  assert (∀ m, (∀ q, 0 ≤ m q) → 0 ≤ sum_of m (threads s)) as Hnn
    by (intros; by apply sum_of_nonneg).
  pose proof (Hnn active_of (λ q, proj1 (measures_nonneg 0 q))).
  pose proof (Hnn warming_of (λ q, ltac:(apply (measures_nonneg 0 q)))). lia.
Qed.

(** A thread that stops the pool has marked it as stopping. *)
Lemma pool_stopping s i p :
  pool_inv c s → threads s !! i = Some p → stopping_of p = 1 → shutting_down (pool s) = true.
Proof.
  intros [_ Hstop _ _ _] Hi Hp. apply not_false_iff_true. intros Hd. specialize (Hstop Hd).
  pose proof (sum_of_lookup stopping_of _ i p
    (λ q, ltac:(apply (measures_nonneg 0 q))) Hi). lia.
Qed.

(** No lease is out when no call is active. *)
Lemma pool_no_lease s a i p :
  lease_rel c s a → threads s !! i = Some p → active (pool s) = 0 → leased a = ∅.
Proof.
  intros H Hi Ha. pose proof (l_inv _ _ _ H) as [[_ Hact _ _ _ _] _ _ _ _].
  pose proof (l_size _ _ _ H) as Hsize.
  assert (∀ q, holding_of q ≤ active_of q) as Hha by (by intros []).
  pose proof (sum_of_mono _ _ _ _ _ Hha Hi). pose proof (Hha p).
  apply leibniz_equiv, size_empty_inv. lia.
Qed.

(** A call that is about to take a connection has kept a place for it. *)
Lemma pool_lease_room s a i p :
  lease_rel c s a → threads s !! i = Some p → active_of p = 1 → holding_of p = 0 →
  Z.of_nat (size (leased a)) < max_size c.
Proof.
  intros H Hi Ha Hh. pose proof (l_inv _ _ _ H) as [[_ Hact Ht Hmax _ _] _ _ _ _].
  pose proof (l_size _ _ _ H) as Hsize.
  pose proof (sum_of_nonneg warming_of (threads s)
    (λ q, ltac:(apply (measures_nonneg 0 q)))).
  assert (∀ q, holding_of q ≤ active_of q) as Hha by (by intros []).
  pose proof (sum_of_mono _ _ _ _ _ Hha Hi). lia.
Qed.

(** The leases follow one event of the thread: the count of each connection
    moves by what the step [moves], and the rest is arithmetic. *)
Ltac lease_update H Hi Hw Hinv moves :=
  apply (lease_rel_update _ _ _ _ _ _ _ _ _ _ _ _ _ H Hi Hw Hinv); simpl; try done;
  try (let d := fresh "d" in intros d; destruct (moves d));
  rewrite ?b2z_union by done; try lia; try congruence; try by auto.

Lemma pool_sim_thread i p f g eff st t k ts ts' a :
  lease_rel c (mkSystem st t k ts) a → ts !! i = Some p →
  thread_step (mkEnv t k f g) st p = Some eff →
  woken (available eff) (<[i := next eff]> ts) ts' →
  ∃ a', run (lease_lts (max_size c)) a (events eff) a'
    ∧ lease_rel c (mkSystem (state eff) t (k + 1)
        (if shutdown_done eff then wake_shutdown <$> ts' else ts')) a'.
Proof.
  intros H Hi Hs Hw.
  pose proof (pool_inv_step c Hok _ _ _ (l_inv _ _ _ H)
    (step_thread i p f g eff st t k ts ts' Hi Hs Hw)) as Hinv.
  pose proof (pool_total_range _ (l_inv _ _ _ H)) as Hrange.
  pose proof (λ d, thread_step_moves _ _ _ _ d Hrange Hs) as Hmv.
  destruct (thread_step_events _ _ _ _ Hs) as [Hmono Hev].
  pose proof (l_stop _ _ _ H) as Hst. pose proof (l_finished _ _ _ H) as Hfin.
  pose proof (λ d, owned_free _ _ _ _ _ _ _ d H Hi) as Hfree.
  pose proof (pool_no_lease _ _ _ _ H Hi) as Hnone.
  pose proof (pool_stopping _ _ _ (l_inv _ _ _ H) Hi) as Hstopped.
  assert (finished a = true → shutting_down (state eff) = true ∧ idle (state eff) = []) as Hfin'.
  { intros Hft. destruct (Hfin Hft) as [Hsd Hid]. destruct (Hmono Hsd). auto. }
  destruct a as [o l cl b fi]. simpl in *.
  destruct (events eff) as [|[d|d|d|d| | |n| |] [|]] eqn:He; try done; simpl in Hmv, Hev.
  - eexists. split; [constructor|].
    lease_update H Hi Hw Hinv Hmv. by destruct Hev; congruence.
  - destruct Hev as (-> & Hsd & Hh). simpl in *.
    assert (k ∉ o) as Hk by (intros Hk; pose proof (l_serial _ _ _ H _ Hk); simpl in *; lia).
    eexists. split; [by apply run_one, lease_open|].
    lease_update H Hi Hw Hinv Hmv.
    by rewrite elem_of_union, elem_of_singleton.
  - destruct Hev as (Hsd & Hsd' & Ho & Hh & Ha & Hh0 & Hh1).
    destruct (Hfree d Ho Hh) as (? & ? & ?).
    rewrite Hsd in Hst. subst b. eexists.
    split; [by eapply run_one, lease_acquire, (pool_lease_room _ _ _ _ H Hi)|].
    lease_update H Hi Hw Hinv Hmv.
    rewrite size_add by done. lia.
  - destruct Hev as (Ho & Hh & Hsd & Hh'). destruct (Hfree d Ho Hh) as (? & ? & ?).
    eexists. split; [by apply run_one, lease_close|].
    lease_update H Hi Hw Hinv Hmv.
  - destruct Hev as (Hsd & Hsd' & Hh). rewrite Hsd in Hst. subst b.
    eexists. split; [by apply run_one, lease_timeout|].
    lease_update H Hi Hw Hinv Hmv.
  - destruct Hev as (Hsd & Hsd' & Hh).
    assert (shutting_down st = true) as Hd by (destruct Hsd; auto).
    rewrite Hd in Hst. subst b. eexists. split; [by apply run_one, lease_refused|].
    lease_update H Hi Hw Hinv Hmv.
  - destruct Hev as (Hsd & Hh). eexists. split; [by apply run_one, lease_warmed|].
    lease_update H Hi Hw Hinv Hmv.
  - destruct Hev as (Hsd & Hh). eexists. split; [by apply run_one, lease_stop|].
    lease_update H Hi Hw Hinv Hmv.
  - destruct Hev as (Ha & Hp & Hid & Hsd & Hh).
    specialize (Hstopped Hp). rewrite Hstopped in Hst. subst b.
    specialize (Hnone Ha). subst l.
    eexists. split; [by apply run_one, lease_drained|].
    lease_update H Hi Hw Hinv Hmv.
    intros _. split; congruence.
Qed.

Lemma pool_sim_step s es s' a :
  lease_rel c s a → pool_step s es s' →
  ∃ a', run (lease_lts (max_size c)) a es a' ∧ lease_rel c s' a'.
Proof.
  intros H Hs. pose proof (pool_inv_step c Hok _ _ _ (l_inv _ _ _ H) Hs) as Hinv.
  assert (∃ o l k b f, a = mkLeases o l k b f) as (o & l & cl & b & fi & ->)
    by (destruct a; eauto 6).
  destruct Hs as [i p f g eff st t k ts ts' Hi Hst Hw|i p st t k ts Hi
    |i st t k ts Hi Hc|i to st t k ts Hi|i e st t k ts Hi|i st t k ts Hi|i st t k ts Hi
    |t' st t k ts Hle].
  - by eapply pool_sim_thread.
  - eexists. split; [constructor|].
    apply (lease_rel_local st t k ts (mkLeases o l cl b fi) i p); try done; by destruct p.
  - eexists. split; [constructor|].
    by apply (lease_rel_local st t k ts (mkLeases o l cl b fi) i ShutJoin).
  - eexists. split; [constructor|].
    by apply (lease_rel_local st t k ts (mkLeases o l cl b fi) i Outside).
  - pose proof (l_held _ _ _ H (conn e)) as Hl. simpl in Hl.
    pose proof (sum_of_lookup (holds (conn e)) ts i _
      (λ q, ltac:(apply (measures_nonneg (conn e) q))) Hi) as Hge.
    simpl in Hge. unfold is_conn in Hge at 1. rewrite Z.eqb_refl in Hge.
    assert (conn e ∈ l) as Hin by (apply (b2z_one (conn e ∈ l)); lia).
    eexists. split; [by apply run_one, lease_release|].
    apply (lease_rel_local st t k ts (mkLeases o l cl b fi) i (Holding e)); try done; simpl.
    + intros d. rewrite b2z_difference by done. unfold is_conn. lia.
    + rewrite size_difference, size_singleton by (by apply singleton_subseteq_l).
      assert (size l ≠ 0%nat); [|lia].
      intros Hz%size_empty_inv. by apply Hz in Hin.
  - eexists. split; [constructor|].
    by apply (lease_rel_local st t k ts (mkLeases o l cl b fi) i Outside).
  - eexists. split; [constructor|].
    by apply (lease_rel_local st t k ts (mkLeases o l cl b fi) i Outside).
  - eexists. split; [constructor|]. by destruct H.
Qed.
End leases.

(** ** Calls without interference *)

Lemma pool_solo_step fuel e st p eff :
  thread_step e st p = Some eff →
  solo (S fuel) (λ _, e) st p =
    ('(st, p, es) ← solo fuel (λ _, e) (state eff) (next eff); Some (st, p, events eff ++ es)).
Proof. intros H. cbn [solo]. by rewrite H. Qed.

(** An idle entry that [tryAcquireFor] hands out. *)
Definition usable (e : env) (st : State) (entry : Entry) : bool :=
  negb (shouldRetire (config st) entry (clock e)) && isHealthy e entry.

Lemma u64_succ_pred n : 0 ≤ n < two64 → n ⊕ 1 ⊖ 1 = n.
Proof. intros. rewrite u64_sub_l. rewrite u64_small; lia. Qed.

(** The pool after [n] entries have been retired. *)
Definition retired (st : State) (n : nat) : State :=
  st <| idle ::= drop n |> <| total ::= λ t, t ⊖ Z.of_nat n |>
     <| destroyed ::= λ d, d ⊕ Z.of_nat n |>.

Lemma retired_S st n : retired (retired st 1) n = retired st (S n).
Proof.
  unfold retired. destruct st; unfold set_field; simpl. f_equal.
  - by rewrite drop_drop.
  - rewrite u64_sub_l. f_equal. lia.
  - rewrite u64_add_l. f_equal. lia.
Qed.

Lemma retired_0 st : in_u64 (total st) → in_u64 (destroyed st) → retired st 0 = st.
Proof.
  unfold in_u64, retired. destruct st; unfold set_field; simpl. intros ? ?. f_equal.
  - rewrite u64_small; lia.
  - rewrite u64_small; lia.
Qed.

(** One unusable entry costs four steps and leaves the caller at the top. *)
Lemma solo_retire fuel e st d entry l :
  shutting_down st = false → in_u64 (active st) → idle st = entry :: l →
  usable e st entry = false →
  solo (S (S (S (S fuel)))) (λ _, e) st (AcqTop d) =
    ('(st, p, es) ← solo fuel (λ _, e) (retired st 1) (AcqTop d);
     Some (st, p, Close (conn entry) :: es)).
Proof.
  intros Hsd Ha Hi Hu.
  erewrite pool_solo_step; [|simpl; rewrite Hsd, Hi; done].
  erewrite pool_solo_step; cycle 1.
  { simpl. unfold usable in Hu.
    replace (shouldRetire (config st) entry (clock e) || negb (isHealthy e entry)) with true
      by (destruct (shouldRetire _ _ _), (isHealthy e entry); done). done. }
  erewrite pool_solo_step; [|done]. erewrite pool_solo_step; [|done].
  cbn [state next events quietly].
  replace (_ <| destroyed ::= _ |>) with (retired st 1); cycle 1.
  { unfold retired. destruct st; unfold set_field; simpl in *. subst. f_equal.
    by rewrite u64_succ_pred. }
  destruct (solo fuel (λ _, e) (retired st 1) (AcqTop d)) as [[[? ?] ?]|]; done.
Qed.

(** What [tryAcquireFor] does with the entries that are left. *)
Definition acquire_rest (e : env) (st : State) (d : Z) : State * pc * list event :=
  match idle st with
  | entry :: rest =>
      (st <| idle := rest |> <| active ::= λ n, n ⊕ 1 |> <| acquired ::= λ n, n ⊕ 1 |>,
       Holding entry, [Acquire (conn entry)])
  | [] =>
      if total st <? max_size (config st) then
        match createEntry e with
        | Some entry =>
            (st <| total ::= λ n, n ⊕ 1 |> <| active ::= λ n, n ⊕ 1 |>
                <| created ::= λ n, n ⊕ 1 |> <| acquired ::= λ n, n ⊕ 1 |>,
             Holding entry, [Open (conn entry); Acquire (conn entry)])
        | None => (st, Outside, [])
        end
      else (st <| waiting ::= λ n, n ⊕ 1 |>, AcqAsleep d, [])
  end.

Lemma solo_rest fuel e st d :
  shutting_down st = false → in_u64 (active st) → in_u64 (total st) →
  (∀ entry, head (idle st) = Some entry → usable e st entry = true) →
  solo (S (S (S (S fuel)))) (λ _, e) st (AcqTop d) = Some (acquire_rest e st d).
Proof.
  intros Hsd Ha Ht Hu. unfold acquire_rest. destruct (idle st) as [|entry rest] eqn:Hi.
  - destruct (total st <? max_size (config st)) eqn:Hlt.
    + erewrite pool_solo_step; [|simpl; rewrite Hsd, Hi, Hlt; done].
      destruct (createEntry e) as [entry|] eqn:Hc.
      * erewrite pool_solo_step; [|simpl; rewrite Hc; done].
        erewrite pool_solo_step; [|done]. erewrite pool_solo_step; [|simpl; rewrite Hsd; done].
        by destruct fuel.
      * erewrite pool_solo_step; [|simpl; rewrite Hc; done]. erewrite pool_solo_step; [|done].
        cbn [state next events quietly].
        assert (∀ x, x = st → solo (S fuel) (λ _, e) x Outside = Some (st, Outside, [])) as Hx
          by (by intros x ->).
        rewrite Hx; [done|]. destruct st; unfold set_field; simpl in *.
        by rewrite !u64_succ_pred.
    + erewrite pool_solo_step; [|simpl; rewrite Hsd, Hi, Hlt; done]. done.
  - specialize (Hu entry eq_refl). unfold usable in Hu.
    apply andb_true_iff in Hu as [Hu1 Hu2]. apply negb_true_iff in Hu1.
    erewrite pool_solo_step; [|simpl; rewrite Hsd, Hi; done].
    erewrite pool_solo_step; [|simpl; rewrite Hu1, Hu2; done].
    erewrite pool_solo_step; [|simpl; rewrite Hsd; done]. done.
Qed.

(** [warmUp] adds connections while fewer than [min_idle] are idle and the pool
    has room. *)
Definition missing (st : State) : Z :=
  Z.max 0 (Z.min (min_idle (config st) - Z.of_nat (length (idle st)))
             (max_size (config st) - total st)).

(** The pool after [warmUp] has added the entries [new]. *)
Definition warmed (st : State) (new : list Entry) : State :=
  st <| idle ::= λ l, l ++ new |> <| total ::= λ t, t + Z.of_nat (length new) |>
     <| created ::= λ c, c ⊕ Z.of_nat (length new) |>.

Lemma warmed_cons st entry new :
  warmed (warmed st [entry]) new = warmed st (entry :: new).
Proof.
  unfold warmed. destruct st; unfold set_field; simpl. f_equal.
  - by rewrite <-app_assoc.
  - lia.
  - rewrite u64_add_l. f_equal. lia.
Qed.

Lemma warmed_nil st : in_u64 (created st) → warmed st [] = st.
Proof.
  unfold in_u64, warmed. destruct st; unfold set_field; simpl. intros ?. f_equal.
  - by rewrite app_nil_r.
  - lia.
  - rewrite u64_small; lia.
Qed.

Lemma solo_stream_step fuel f st p eff :
  thread_step (f 0%nat) st p = Some eff →
  solo (S fuel) f st p =
    ('(st, p, es) ← solo fuel (λ n, f (S n)) (state eff) (next eff);
     Some (st, p, events eff ++ es)).
Proof. intros H. cbn [solo]. by rewrite H. Qed.

Lemma solo_warm n f st w :
  shutting_down st = false → in_u64 (total st) → in_u64 (created st) → in_u64 w →
  config_ok (config st) → (∀ k, factory (f k) = Returns true) → missing st = Z.of_nat n →
  ∃ new, length new = n
    ∧ solo (S (3 * n)) f st (WarmTop User w) = Some (warmed st new, Outside,
        ((λ e, Open (conn e)) <$> new) ++ [WarmedUp (w ⊕ Z.of_nat n)]).
Proof.
  revert f st w. induction n as [|n IH]; intros f st w Hsd Ht Hcr Hw Hok Hf Hm;
    unfold missing in Hm.
  - exists []. split; [done|]. rewrite warmed_nil by done. simpl. rewrite Hsd. simpl.
    rewrite Z.add_0_r, u64_small by done.
    destruct (Z.leb_spec (min_idle (config st)) (Z.of_nat (length (idle st)))); [done|].
    destruct (Z.leb_spec (max_size (config st)) (total st)); [done|lia].
  - assert (total st < max_size (config st)
      ∧ Z.of_nat (length (idle st)) < min_idle (config st)) as [Hmx Hmi] by lia.
    destruct Hok as [Hmin Hmax]. unfold in_u64 in Ht.
    set (entry := mkEntry (fresh (f 1%nat)) (clock (f 1%nat)) (clock (f 1%nat))).
    assert (Hu : total st ⊕ 1 = total st + 1) by (apply u64_small; lia).
    destruct (IH (λ k, f (S (S (S k)))) (warmed st [entry]) (w ⊕ 1)) as (new & Hl & Hs);
      try done; try apply in_u64_range.
    { unfold in_u64. simpl. lia. }
    { unfold missing. simpl. rewrite length_app. simpl. lia. }
    exists (entry :: new). split; [by rewrite <-Hl|].
    replace (S (3 * S n)) with (S (S (S (S (3 * n))))) by lia.
    erewrite solo_stream_step; cycle 1.
    { simpl. rewrite Hsd. simpl.
      destruct (Z.leb_spec (min_idle (config st)) (Z.of_nat (length (idle st)))); [lia|].
      destruct (Z.leb_spec (max_size (config st)) (total st)); [lia|done]. }
    erewrite solo_stream_step; [|simpl; unfold createEntry; by rewrite Hf].
    erewrite solo_stream_step; [|simpl; by rewrite Hsd].
    cbn [state next events quietly].
    replace (_ <| idle ::= _ |>) with (warmed st [entry]); cycle 1.
    { unfold warmed. destruct st; unfold set_field; simpl in *. by rewrite Hu. }
    rewrite Hs, warmed_cons, u64_add_l.
    by replace (w + Z.of_nat (S n)) with (w + 1 + Z.of_nat n) by lia.
Qed.

(** ** The sweep of the cleaner *)

Lemma sweep_keeps c now l t d kept stale t' d' :
  Z.of_nat (length l) ≤ t < two64 → sweep c now l t d = (kept, stale, t', d') →
  kept `sublist_of` l ∧ stale `sublist_of` l
  ∧ Forall (λ e, shouldRetire c e now = true) stale
  ∧ (stale ≠ [] → min_idle c ≤ t')
  ∧ (min_idle c < t' → Forall (λ e, shouldRetire c e now = false) kept).
Proof.
  revert t d kept stale t' d'. induction l as [|e l IH]; intros t d kept stale t' d' Ht Hsw.
  { simpl in Hsw. simplify_eq. by split_and!. }
  pose proof Hsw as Htot. apply sweep_spec in Htot as (_ & Htot & _); [|done].
  simpl in Hsw, Ht. destruct (shouldRetire c e now) eqn:Hr; simpl in Hsw.
  - destruct (Z.ltb_spec (min_idle c) t) as [Hlt|Hge].
    + destruct (sweep c now l (t ⊖ 1) (d ⊕ 1)) as [[[k s] t1] d1] eqn:Hs. simplify_eq.
      rewrite (u64_small (t - 1)) in Hs by lia.
      pose proof Hs as Ht1. apply sweep_spec in Ht1 as (_ & Ht1 & _); [|lia].
      destruct (IH (t - 1) (d ⊕ 1) _ _ _ _ ltac:(lia) Hs) as (H1 & H2 & H3 & H4 & H5).
      split_and!; [by apply sublist_cons|by apply sublist_skip|by constructor| |done].
      intros _. destruct s as [|e' s]; [simpl; lia|by apply H4].
    + destruct (sweep c now l t d) as [[[k s] t1] d1] eqn:Hs. simplify_eq.
      destruct (IH t d _ _ _ _ ltac:(lia) Hs) as (H1 & H2 & H3 & H4 & H5).
      split_and!; [by apply sublist_skip|by apply sublist_cons|done|done|]. lia.
  - destruct (sweep c now l t d) as [[[k s] t1] d1] eqn:Hs. simplify_eq.
    destruct (IH t d _ _ _ _ ltac:(lia) Hs) as (H1 & H2 & H3 & H4 & H5).
    split_and!; [by apply sublist_skip|by apply sublist_cons|done|done|]. constructor; auto.
Qed.

(** ** Traces *)

Lemma lease_run_trace limit a es a' :
  run (lease_lts limit) a es a' →
  (∀ d, d ∈ opened a' ↔ d ∈ opened a ∨ Open d ∈ es)
  ∧ (∀ d, d ∈ closed a' ↔ d ∈ closed a ∨ Close d ∈ es)
  ∧ (finished a = true ∨ Drained ∈ es → finished a' = true).
Proof.
  induction 1 as [a|a e a1 es a2 Hs Hr (IH1 & IH2 & IH3)].
  - split_and!; [..|intros [?|Hd]]; try done; try by apply elem_of_nil in Hd.
    + intros d. rewrite elem_of_nil. tauto.
    + intros d. rewrite elem_of_nil. tauto.
  - split_and!.
    + intros d. rewrite IH1, elem_of_app.
      destruct Hs; simpl; rewrite ?elem_of_union, ?list_elem_of_singleton, ?elem_of_singleton;
        intuition congruence.
    + intros d. rewrite IH2, elem_of_app.
      destruct Hs; simpl; rewrite ?elem_of_union, ?list_elem_of_singleton, ?elem_of_singleton;
        intuition congruence.
    + rewrite elem_of_app. intros Hd. apply IH3.
      destruct Hs; simpl in *; rewrite ?list_elem_of_singleton in Hd; intuition congruence.
Qed.

(** ** Properties *)

Section properties.
Context (c : ConnectionPoolConfig).

Lemma pool_reachable_inv s :
  config_ok c → reachable (pool_lts c) s → pool_inv c s.
Proof.
  intros Hok. apply (reachable_invariant (pool_lts c)).
  - intros s0. by apply pool_inv_init.
  - intros s0 es s1. by apply pool_inv_step.
Qed.

(** C11: whatever the interleaving, the timing and the answers of the factory
    and of [ping], the pool hands out exclusive leases: a connection is leased
    only when it has been opened, is not closed and nobody else holds it, at
    most [max_size] at a time and never after a shutdown has begun; it is
    closed at most once and never while leased; a call is refused only during a
    shutdown and a shutdown drains only when nothing is leased. *)
Theorem pool_refines_leases (Hok : config_ok c) :
  refines (pool_lts c) (lease_lts (max_size c)).
Proof.
  apply (simulation_refines _ _ (lease_rel c)).
  - intros s Hs. eexists. split; [done|]. by apply lease_rel_init.
  - intros s a es s' H Hs. by apply (pool_sim_step c Hok _ _ _ _ H Hs).
Qed.

(** C12: in every reachable state the statistics agree with the threads: the
    total is the idle, active and warming connections and never exceeds
    [max_size], [active] and [waiting] count the threads that borrow and wait,
    and the created connections are the destroyed, the idle and the borrowed
    ones, all without wrap-around of [total] and [active]. *)
Theorem pool_accounting s (Hok : config_ok c) (Hs : reachable (pool_lts c) s) :
  let st := stats (pool s) in
  stats_total st = stats_idle st + stats_active st + sum_of warming_of (threads s)
  ∧ stats_total st ≤ max_size c
  ∧ stats_active st = sum_of active_of (threads s)
  ∧ stats_waiting st = u64 (sum_of waiting_of (threads s))
  ∧ stats_created st
    = u64 (stats_destroyed st + stats_idle st + sum_of counted_of (threads s)).
Proof.
  destruct (pool_reachable_inv s Hok Hs) as [[C1 C2 C3 C4 C5 C6] _ _ _ _]. simpl. lia.
Qed.

(** C13: no wake-up is lost.  In a reachable state with no caller about to look
    at the pool, a caller asleep in [tryAcquireFor] has nothing to take: no
    shutdown has begun, no connection is idle and [max_size] are in use; and a
    thread asleep in [shutdown] waits for a connection that is still
    borrowed. *)
Theorem pool_no_lost_wakeup s i
    (Hok : config_ok c) (Hs : reachable (pool_lts c) s)
    (Hquiet : ∀ j p, threads s !! j = Some p → token_of p = 0) :
  (∀ d, threads s !! i = Some (AcqAsleep d) →
     shutting_down (pool s) = false ∧ idle (pool s) = [] ∧ total (pool s) = max_size c)
  ∧ (threads s !! i = Some ShutAsleep → 0 < active (pool s)).
Proof.
  destruct (pool_reachable_inv s Hok Hs) as [[C1 C2 C3 C4 _ _] _ Hsh Hwk Hwo].
  assert (sum_of token_of (threads s) = 0) as Htok.
  { apply sum_of_zero; [by intros []|]. intros p [j Hj]%list_elem_of_lookup. eauto. }
  split.
  - intros d Hi.
    pose proof (sum_of_lookup asleep_of _ _ _ (λ q, ltac:(apply (measures_nonneg 0 q))) Hi) as Ha.
    simpl in Ha. destruct (shutting_down (pool s)) eqn:Hd; [specialize (Hwo eq_refl); lia|].
    destruct (Hwk eq_refl) as [?|Hle]; [lia|].
    split_and!; [done|apply nil_length_inv; lia|lia].
  - intros Hi.
    pose proof (sum_of_lookup shut_asleep_of _ _ _ (λ q, ltac:(apply (measures_nonneg 0 q))) Hi).
    simpl in *. lia.
Qed.

(** C14: a shutdown that has drained leaves nothing behind.  Once every call
    has returned, the pool counts no connection and every connection the
    factory has ever opened has been closed. *)
Theorem pool_shutdown_closes_all s0 es s
    (Hok : config_ok c) (H0 : pool_init c s0) (Hr : run (pool_lts c) s0 es s)
    (Hd : Drained ∈ es)
    (Hq : Forall (λ p, p = Outside ∨ p = CleanerDone) (threads s)) :
  idle (pool s) = [] ∧ total (pool s) = 0 ∧ active (pool s) = 0 ∧ waiting (pool s) = 0
  ∧ ∀ d, Open d ∈ es → Close d ∈ es.
Proof.
  assert (∃ a, run (lease_lts (max_size c)) (mkLeases ∅ ∅ ∅ false false) es a
    ∧ lease_rel c s a) as (a & Hra & [[Hcs _ _ _ _] Hp _ _ _ _ Hf]).
  { eapply (simulation_run _ _ (lease_rel c)); [|done|by apply lease_rel_init].
    intros. by eapply pool_sim_step. }
  destruct (lease_run_trace _ _ _ _ Hra) as (Ho & Hcl & Hfin).
  destruct Hf as [_ Hi]; [by apply Hfin; right|].
  assert (∀ f, f Outside = 0 → f CleanerDone = 0 → sum_of f (threads s) = 0) as Hz.
  { intros f H1 H2. clear -H1 H2 Hq. induction Hq as [|p l [->| ->] _ IH]; simpl; lia. }
  destruct Hcs as [_ C2 C3 _ C5 _]. rewrite Hi, !Hz in * by done. simpl in *.
  rewrite u64_small in C5 by (rewrite two64_val; lia).
  split_and!; try done; try lia. intros d Hod. specialize (Hp d).
  unfold present in Hp. rewrite Hi, Hz in Hp by done. simpl in Hp.
  assert (d ∈ opened a) as Hin by (apply Ho; by right).
  rewrite (b2z_true (d ∈ opened a) Hin) in Hp.
  assert (d ∈ closed a) as [Hc|?]%Hcl by (apply (b2z_one (d ∈ closed a)); lia); [|done].
  by apply elem_of_empty in Hc.
Qed.

(** The cleaner closes only stale connections, in queue order, keeps the
    others in their order, never goes below [min_idle] connections by closing,
    and leaves a stale connection only when it cannot close one more. *)
Theorem pool_cleanup_keeps_min_idle st now st' stale
    (Hr : Z.of_nat (length (idle st)) ≤ total st < two64)
    (Hc : cleanupIdle st now = (st', stale)) :
  idle st' ++ stale ≡ₚ idle st
  ∧ idle st' `sublist_of` idle st ∧ stale `sublist_of` idle st
  ∧ Forall (λ e, shouldRetire (config st) e now = true) stale
  ∧ total st' = total st - Z.of_nat (length stale)
  ∧ (stale ≠ [] → min_idle (config st) ≤ total st')
  ∧ (min_idle (config st) < total st' →
     Forall (λ e, shouldRetire (config st) e now = false) (idle st')).
Proof.
  unfold cleanupIdle in Hc.
  destruct (sweep _ _ _ _ _) as [[[kept s] t'] d'] eqn:Hs. simplify_eq. simpl.
  destruct (sweep_spec _ _ _ _ _ _ _ _ _ Hr Hs) as (? & ? & _).
  by destruct (sweep_keeps _ _ _ _ _ _ _ _ _ Hr Hs) as (? & ? & ? & ? & ?).
Qed.

(** An undisturbed [tryAcquireFor] always returns or waits: it closes and
    counts as destroyed the unusable connections at the head of the queue, in
    order, and hands out the first usable one; when none is left it opens a new
    connection if the pool has room (giving the slot back when the factory
    fails) and waits otherwise. *)
Theorem pool_acquire_alone e st d bad good
    (Hsd : shutting_down st = false) (Ha : in_u64 (active st))
    (Ht : Z.of_nat (length (idle st)) ≤ total st < two64) (Hde : in_u64 (destroyed st))
    (Hi : idle st = bad ++ good)
    (Hbad : Forall (λ x, usable e st x = false) bad)
    (Hgood : ∀ x, head good = Some x → usable e st x = true) :
  solo (4 * length bad + 4) (λ _, e) st (AcqTop d)
  = let '(st', p, es) := acquire_rest e (retired st (length bad)) d in
    Some (st', p, ((λ x, Close (conn x)) <$> bad) ++ es).
Proof.
  revert st Hsd Ha Ht Hde Hi Hbad Hgood.
  induction bad as [|x bad IH]; intros st Hsd Ha Ht Hde Hi Hbad Hgood.
  - simpl length. rewrite retired_0 by (try done; unfold in_u64; lia).
    change (4 * 0 + 4)%nat with 4%nat. simpl in Hi. subst good.
    rewrite (solo_rest 0) by (try done; unfold in_u64; lia).
    by destruct (acquire_rest e st d) as [[? ?] ?].
  - simpl in Hi, Ht. rewrite Hi in Ht. simpl in Ht. apply Forall_cons in Hbad as [Hx Hbad].
    replace (4 * length (x :: bad) + 4)%nat with (S (S (S (S (4 * length bad + 4)))))
      by (simpl; lia).
    rewrite (solo_retire _ _ _ _ _ _ Hsd Ha Hi Hx).
    rewrite (IH (retired st 1)); try done.
    + rewrite retired_S. simpl length.
      by destruct (acquire_rest e (retired st (S (length bad))) d) as [[? ?] ?].
    + simpl. rewrite Hi. simpl. rewrite drop_0, u64_small; lia.
    + apply in_u64_range.
    + simpl. by rewrite Hi.
Qed.

(** An undisturbed [warmUp] whose factory succeeds returns after opening
    exactly the missing connections, up to [min_idle] idle ones and [max_size]
    in all, and returns their number. *)
Theorem pool_warmUp_fills f st
    (Hsd : shutting_down st = false) (Ht : in_u64 (total st)) (Hcr : in_u64 (created st))
    (Hok : config_ok (config st)) (Hf : ∀ k, factory (f k) = Returns true) :
  let n := Z.to_nat (missing st) in
  ∃ new, length new = n
    ∧ solo (S (3 * n)) f st (WarmTop User 0) = Some (warmed st new, Outside,
        ((λ e, Open (conn e)) <$> new) ++ [WarmedUp (missing st)]).
Proof.
  intros n. assert (missing st = Z.of_nat n) as Hm by (unfold n, missing; lia).
  destruct (solo_warm n f st 0) as (new & Hl & Hs); try done.
  exists new. split; [done|]. rewrite Hs, Hm. rewrite u64_small; [done|].
  destruct Hok as [_ ?]. unfold in_u64, missing in *. lia.
Qed.
End properties.

(** ** Witnesses *)

Definition cfg : ConnectionPoolConfig := mkConfig 1 1 200 30000 300000 50.
Definition cfg2 : ConnectionPoolConfig := mkConfig 2 3 200 30000 300000 50.
Definition pool_empty (c : ConnectionPoolConfig) : State := mkState c [] false 0 0 0 0 0 0 0.
Definition start : system := mkSystem (pool_empty cfg) 0 0 [CleanerSleep; Outside; Outside].
Definition no_answer : exn := RuntimeError "no answer".

Lemma pool_start_init : pool_init cfg start.
Proof. split_and!; [reflexivity|done|]. by exists 2%nat. Qed.

Lemma cfg_ok : config_ok cfg.
Proof. by split; [|split]. Qed.

Lemma step_thread_eq i p st t n ts eff ts' es s' :
  ts !! i = Some p →
  thread_step (mkEnv t n (Throws no_answer) (λ _, Throws no_answer)) st p = Some eff →
  woken (available eff) (<[i := next eff]> ts) ts' → es = events eff →
  s' = mkSystem (state eff) t (n + 1) (if shutdown_done eff then wake_shutdown <$> ts' else ts') →
  pool_step (mkSystem st t n ts) es s'.
Proof. intros ? ? ? -> ->. by eapply step_thread. Qed.

(** Two callers of a pool of one connection: one creates it, the other waits. *)
Definition waiting_pair : system :=
  mkSystem ((pool_empty cfg) <| total := 1 |> <| active := 1 |> <| waiting := 1 |>) 0 2
    [CleanerSleep; AcqCreate; AcqAsleep 5000000].

Lemma waiting_pair_reachable : reachable (pool_lts cfg) waiting_pair.
Proof.
  eapply (reachable_step _ (mkSystem ((pool_empty cfg) <| total := 1 |> <| active := 1 |>) 0 1
    [CleanerSleep; AcqCreate; AcqTop 5000000]));
    [|by eapply (step_thread_eq 2); [reflexivity..|constructor| |]].
  eapply (reachable_step _ (mkSystem (pool_empty cfg) 0 0
    [CleanerSleep; AcqTop 5000000; AcqTop 5000000]));
    [|by eapply (step_thread_eq 1); [reflexivity..|constructor| |]].
  eapply (reachable_step _ (mkSystem (pool_empty cfg) 0 0
    [CleanerSleep; AcqTop 5000000; Outside]));
    [|by apply (step_acquire 2 5)].
  eapply (reachable_step _ start); [|by apply (step_acquire 1 5)].
  apply reachable_initial, pool_start_init.
Qed.

(** A schedule, step by step, in an environment whose factory and [ping]
    succeed. *)
Inductive action :=
  | Go (i : nat)                (* the next step of thread [i], or its join *)
  | CallAcquire (i : nat) (timeout : Z)
  | CallRelease (i : nat)
  | CallShutdown (i : nat).

Definition acq_asleep (p : pc) : bool := match p with AcqAsleep _ => true | _ => false end.

Definition wake_up (w : wake) (ts : list pc) : option (list pc) :=
  match w with
  | NoWake => Some ts
  | WakeOne => if existsb acq_asleep ts then None else Some ts
  | WakeAll => Some (wake_acquirer <$> ts)
  end.

Definition play (x : action) (s : system) : option (list event * system) :=
  let '(mkSystem st t n ts) := s in
  match x with
  | Go i =>
      p ← ts !! i;
      match p, ts !! 0%nat with
      | ShutJoin, Some CleanerDone => Some ([], mkSystem st t n (<[i := ShutWait]> ts))
      | _, _ =>
          eff ← thread_step (mkEnv t n (Returns true) (λ _, Returns true)) st p;
          ts' ← wake_up (available eff) (<[i := next eff]> ts);
          Some (events eff, mkSystem (state eff) t (n + 1)
                  (if shutdown_done eff then wake_shutdown <$> ts' else ts'))
      end
  | CallAcquire i timeout =>
      match ts !! i with
      | Some Outside => Some ([], mkSystem st t n (<[i := AcqTop (deadline t timeout)]> ts))
      | _ => None
      end
  | CallRelease i =>
      match ts !! i with
      | Some (Holding entry) =>
          Some ([Release (conn entry)], mkSystem st t n (<[i := release st t entry]> ts))
      | _ => None
      end
  | CallShutdown i =>
      match ts !! i with
      | Some Outside => Some ([], mkSystem st t n (<[i := ShutFlag]> ts))
      | _ => None
      end
  end.

Lemma wake_up_woken w ts ts' : wake_up w ts = Some ts' → woken w ts ts'.
Proof.
  destruct w; simpl; intros H; simplify_eq; try constructor.
  destruct (existsb acq_asleep ts) eqn:He; simplify_eq. constructor.
  intros i d Hi. apply not_true_iff_false in He. apply He, existsb_exists.
  exists (AcqAsleep d). split; [|done]. apply list_elem_of_In. by eapply list_elem_of_lookup_2.
Qed.

Lemma pool_play_step x s es s' : play x s = Some (es, s') → pool_step s es s'.
Proof.
  destruct s as [st t n ts]. destruct x as [i|i d|i|i]; simpl; intros H.
  - destruct (ts !! i) as [p|] eqn:Hp; simplify_eq/=.
    assert ((p = ShutJoin ∧ ts !! 0%nat = Some CleanerDone ∧
        (es, s') = ([], mkSystem st t n (<[i := ShutWait]> ts)))
      ∨ (eff ← thread_step (mkEnv t n (Returns true) (λ _, Returns true)) st p;
         ts' ← wake_up (available eff) (<[i := next eff]> ts);
         Some (events eff, mkSystem (state eff) t (n + 1)
           (if shutdown_done eff then wake_shutdown <$> ts' else ts'))) = Some (es, s'))
      as [(-> & H0 & [= -> ->])|Hg]; [|by apply step_join|].
    + destruct p; try by right. destruct (ts !! 0%nat) as [[]|]; try by right.
      left. by simplify_eq.
    + destruct (thread_step _ st p) as [eff|] eqn:Hs; simplify_eq/=.
      destruct (wake_up _ _) as [ts'|] eqn:Hw; simplify_eq/=.
      eapply step_thread; [done|done|by apply wake_up_woken].
  - destruct (ts !! i) as [[]|] eqn:Hp; simplify_eq. by apply step_acquire.
  - destruct (ts !! i) as [[]|] eqn:Hp; simplify_eq. by apply step_release.
  - destruct (ts !! i) as [[]|] eqn:Hp; simplify_eq. by apply step_shutdown.
Qed.

Fixpoint plays (l : list action) (s : system) : option (list event * system) :=
  match l with
  | [] => Some ([], s)
  | x :: l => '(es, s) ← play x s; '(es', s) ← plays l s; Some (es ++ es', s)
  end.

Lemma pool_plays_run l c s es s' : plays l s = Some (es, s') → run (pool_lts c) s es s'.
Proof.
  revert s es. induction l as [|x l IH]; simpl; intros s es H; [simplify_eq; constructor|].
  destruct (play x s) as [[es1 s1]|] eqn:Hx; simplify_eq/=.
  destruct (plays l s1) as [[es2 s2]|] eqn:Hl; simplify_eq/=.
  eapply run_step; [by eapply (pool_play_step x)|by apply IH].
Qed.

(** Thread 1 borrows a new connection and gives it back, and thread 2 shuts the
    pool down. *)
Definition borrow_and_stop : list action :=
  [CallAcquire 1 5; Go 1; Go 1; Go 1; Go 1; CallRelease 1; Go 1;
   CallShutdown 2; Go 2; Go 0; Go 2; Go 2; Go 2; Go 2].

Lemma pool_refines_leases_witness : refines (pool_lts cfg) (lease_lts 1).
Proof. apply (pool_refines_leases cfg cfg_ok). Defined.

Lemma pool_accounting_witness : total (pool waiting_pair) = 1 ∧ waiting (pool waiting_pair) = 1.
Proof.
  destruct (pool_accounting cfg waiting_pair cfg_ok waiting_pair_reachable) as (H & _ & _ & Hw & _).
  split; [exact H|exact Hw].
Defined.

Lemma pool_no_lost_wakeup_witness :
  shutting_down (pool waiting_pair) = false ∧ idle (pool waiting_pair) = []
  ∧ total (pool waiting_pair) = 1.
Proof.
  apply (pool_no_lost_wakeup cfg waiting_pair 2 cfg_ok waiting_pair_reachable) with 5000000;
    [|reflexivity].
  intros [|[|[|j]]] p Hp; simpl in Hp; by simplify_eq.
Defined.

Lemma pool_shutdown_closes_all_witness :
  ∃ s, plays borrow_and_stop start
       = Some ([Open 1; Acquire 1; Release 1; Stop; Drained; Close 1], s)
  ∧ total (pool s) = 0 ∧ Close 1 ∈ [Open 1; Acquire 1; Release 1; Stop; Drained; Close 1].
Proof.
  eexists. split; [by vm_compute|].
  match goal with |- total (pool ?s) = 0 ∧ Close 1 ∈ ?es =>
    destruct (pool_shutdown_closes_all cfg start es s cfg_ok pool_start_init) as (_ & Ht & _ & _ & Hc) end.
  - apply (pool_plays_run borrow_and_stop). by vm_compute.
  - by repeat (apply list_elem_of_here || apply list_elem_of_further).
  - repeat constructor; by (left + right).
  - split; [exact Ht|]. apply Hc, list_elem_of_here.
Defined.

(** Two idle connections of a pool that keeps one: the first is out of date. *)
Definition pool_two : State :=
  mkState cfg [mkEntry 0 0 0; mkEntry 1 299000000000 299000000000] false 2 0 0 2 0 2 0.

Lemma pool_cleanup_keeps_min_idle_witness :
  idle (cleanupIdle pool_two 300000000000).1 = [mkEntry 1 299000000000 299000000000]
  ∧ total (cleanupIdle pool_two 300000000000).1
    = total pool_two - Z.of_nat (length (cleanupIdle pool_two 300000000000).2).
Proof.
  split; [reflexivity|].
  apply (pool_cleanup_keeps_min_idle pool_two 300000000000).
  - split; [done|reflexivity].
  - reflexivity.
Defined.

Lemma pool_acquire_alone_witness :
  ∃ st', solo 8 (λ _, mkEnv 300000000000 7 (Returns true) (λ _, Returns true)) pool_two
      (AcqTop 0)
    = Some (st', Holding (mkEntry 1 299000000000 299000000000), [Close 0; Acquire 1]).
Proof.
  eexists.
  refine (pool_acquire_alone (mkEnv 300000000000 7 (Returns true) (λ _, Returns true)) pool_two
    0 [mkEntry 0 0 0] [mkEntry 1 299000000000 299000000000] _ _ _ _ _ _ _);
    try reflexivity; try (split; [done|reflexivity]); try (repeat constructor; done).
  intros x [= <-]. reflexivity.
Defined.

Lemma pool_warmUp_fills_witness :
  ∃ new, length new = 2%nat
    ∧ solo 7 (λ n, mkEnv 0 (Z.of_nat n) (Returns true) (λ _, Returns true)) (pool_empty cfg2)
        (WarmTop User 0)
      = Some (warmed (pool_empty cfg2) new, Outside,
          ((λ e, Open (conn e)) <$> new) ++ [WarmedUp 2]).
Proof.
  apply (pool_warmUp_fills (λ n, mkEnv 0 (Z.of_nat n) (Returns true) (λ _, Returns true))
    (pool_empty cfg2)); try reflexivity; try (split; [done|reflexivity]).
  by split; [|split].
Defined.
