(* ===== verification/Timer.v ===== *)
(** * high_performance_timer: one scheduler thread over a heap of deadlines

    [foundation::HighPerformanceTimer]
    (high_performance_timer/src/high_performance_timer.cpp): the timers by id,
    the min-heap of deadlines with lazy cancellation, the scheduler thread, the
    queue of ready callbacks and its workers.  The first part models the
    operations as functions on [State]; the second interleaves clients, the
    scheduler and the workers, one critical section at a time.  A time point is
    a number of nanoseconds, without the bound of the source's 64-bit counts; ids,
    generations and statistics are 64-bit. *)

From S2P Require Import Prelude.
Open Scope Z_scope.

Definition invalid_timer_id : Z := 0.

(** [callback] is the identity of the callback object. *)
Record TimerEntry := mkEntry {
  id : Z;
  deadline : Z;
  interval : Z;                 (* milliseconds *)
  repeating : bool;
  generation : Z;
  callback : Z;
}.

Record HeapItem := mkItem {
  item_deadline : Z;
  item_id : Z;
  item_generation : Z;
}.

#[export] Instance eta_TimerEntry : Eta TimerEntry := λ e,
  mkEntry (id e) (deadline e) (interval e) (repeating e) (generation e) (callback e).
#[export] Instance TimerEntry_eq_dec : EqDecision TimerEntry.
Proof. solve_decision. Defined.
#[export] Instance HeapItem_eq_dec : EqDecision HeapItem.
Proof. solve_decision. Defined.

Record State := mkState {
  callback_threads : Z;
  heap : list HeapItem;         (* in the order of [std::greater<HeapItem>] *)
  timers : gmap Z TimerEntry;
  shutting_down : bool;
  next_id : Z;
  ready_callbacks : list Z;
  callback_stopping : bool;
  scheduled : Z;
  cancelled : Z;
  fired : Z;
}.
#[export] Instance eta_State : Eta State := λ s,
  mkState (callback_threads s) (heap s) (timers s) (shutting_down s) (next_id s)
    (ready_callbacks s) (callback_stopping s) (scheduled s) (cancelled s) (fired s).

Record Stats := mkStats {
  stats_scheduled : Z;
  stats_cancelled : Z;
  stats_fired : Z;
  stats_active : Z;
  stats_pending_callbacks : Z;
  stats_callback_threads : Z;
}.

(** ** The heap *)

(** [HeapItem::operator>], and the order of [priority_queue] it induces: the
    top is an item no other is less than. *)
Definition item_gt (a b : HeapItem) : bool :=
  if item_deadline a =? item_deadline b then item_id b <? item_id a
  else item_deadline b <? item_deadline a.

Fixpoint push (x : HeapItem) (h : list HeapItem) : list HeapItem :=
  match h with
  | [] => [x]
  | y :: h => if item_gt x y then y :: push x h else x :: y :: h
  end.

(** ** Operations *)

Definition make (callback_threads : Z) : outcome State :=
  if callback_threads =? 0
  then Throws (InvalidArgument "HighPerformanceTimer callback_threads must be positive")
  else Returns (mkState callback_threads [] ∅ false 1 [] false 0 0 0).

(** The checks of [addTimer] before it takes the lock: the deadline used. *)
Definition addTimer_check (now deadline interval : Z) (repeating : bool)
    (callback : option Z) : outcome (Z * Z) :=
  match callback with
  | None => Throws (InvalidArgument "HighPerformanceTimer callback cannot be empty")
  | Some cb =>
      if repeating && (interval <=? 0)
      then Throws (InvalidArgument "HighPerformanceTimer interval must be positive")
      else Returns (if deadline <? now then now else deadline, cb)
  end.

Definition item_of (e : TimerEntry) : HeapItem := mkItem (deadline e) (id e) (generation e).

(** [next_id++], skipping the invalid id. *)
Definition bump (n : Z) : Z :=
  let n := n ⊕ 1 in if n =? invalid_timer_id then n ⊕ 1 else n.

(** The critical section of [addTimer]. *)
Definition addTimer_locked (st : State) (deadline interval : Z) (repeating : bool)
    (callback : Z) : State * Z :=
  if shutting_down st then (st, invalid_timer_id)
  else
    let i := next_id st in
    let entry := mkEntry i deadline interval repeating 1 callback in
    (st <| next_id := bump i |>
        <| timers ::= λ m, match m !! i with Some _ => m | None => <[i := entry]> m end |>
        <| heap ::= push (mkItem deadline i 1) |>
        <| scheduled ::= λ n, n ⊕ 1 |>, i).

Definition addTimer (st : State) (now deadline interval : Z) (repeating : bool)
    (callback : option Z) : outcome (State * Z) :=
  '(d, cb) ← addTimer_check now deadline interval repeating callback;
  Returns (addTimer_locked st d interval repeating cb).

(** Durations are milliseconds, time points nanoseconds. *)
Definition ms (n : Z) : Z := n * 1000000.

Definition scheduleAt (st : State) (now deadline : Z) (callback : option Z) :=
  addTimer st now deadline 0 false callback.
Definition scheduleAfter (st : State) (now delay : Z) (callback : option Z) :=
  scheduleAt st now (now + ms (if delay <? 0 then 0 else delay)) callback.
Definition scheduleEvery (st : State) (now interval : Z) (callback : option Z) :=
  addTimer st now (now + ms interval) interval true callback.

Definition cancel (st : State) (i : Z) : State * bool :=
  if i =? invalid_timer_id then (st, false)
  else match timers st !! i with
  | None => (st, false)
  | Some _ => (st <| timers ::= delete i |> <| cancelled ::= λ n, n ⊕ 1 |>, true)
  end.

Definition cancelAll (st : State) : State * Z :=
  let count := Z.of_nat (size (timers st)) in
  (st <| timers := ∅ |> <| cancelled ::= λ n, n ⊕ count |>, count).

Definition stats (st : State) : Stats :=
  mkStats (scheduled st) (cancelled st) (fired st) (Z.of_nat (size (timers st)))
    (Z.of_nat (length (ready_callbacks st))) (callback_threads st).

(** ** Firing *)

Definition isCurrent (m : gmap Z TimerEntry) (item : HeapItem) : bool :=
  match m !! item_id item with
  | Some e => (generation e =? item_generation item) && (deadline e =? item_deadline item)
  | None => false
  end.

Fixpoint discardStale (m : gmap Z TimerEntry) (h : list HeapItem) : list HeapItem :=
  match h with
  | item :: h' => if isCurrent m item then h else discardStale m h'
  | [] => []
  end.

(** [while (next_deadline <= now) next_deadline += interval;] *)
Fixpoint catchUp (fuel : nat) (now step next : Z) : option Z :=
  if next <=? now then
    match fuel with
    | O => None
    | S fuel => catchUp fuel now step (next + step)
    end
  else Some next.

Definition nextDeadline (e : TimerEntry) (now : Z) : option Z :=
  let step := ms (interval e) in
  catchUp (Z.to_nat ((now - deadline e) / step + 1)) now step (deadline e + step).

(** One due timer: erased, or rescheduled under a new generation. *)
Definition fireTimer (st : State) (e : TimerEntry) (now : Z) : option State :=
  if repeating e then
    next ← nextDeadline e now;
    let e' := e <| deadline := next |> <| generation ::= λ g, g ⊕ 1 |> in
    Some (st <| timers ::= <[id e := e']> |> <| heap ::= push (item_of e') |>
             <| fired ::= λ n, n ⊕ 1 |>)
  else Some (st <| timers ::= delete (id e) |> <| fired ::= λ n, n ⊕ 1 |>).

(** The inner loop of [schedulerLoop]: every timer due at [now], in order. *)
Fixpoint dueLoop (fuel : nat) (st : State) (now : Z) : option (State * list TimerEntry) :=
  match heap st with
  | [] => Some (st, [])
  | _ =>
      let h := discardStale (timers st) (heap st) in
      match h with
      | [] => Some (st <| heap := h |>, [])
      | item :: rest =>
          if now <? item_deadline item then Some (st <| heap := h |>, [])
          else match fuel with
          | O => None
          | S fuel =>
              let st := st <| heap := rest |> in
              match timers st !! item_id item with
              | Some e =>
                  if (generation e =? item_generation item)
                     && (deadline e =? item_deadline item)
                  then st ← fireTimer st e now;
                       '(st, due) ← dueLoop fuel st now;
                       Some (st, e :: due)
                  else dueLoop fuel st now
              | None => dueLoop fuel st now
              end
          end
      end
  end.

(** What the scheduler does with the lock: stop, sleep until a deadline (or for
    ever), or take the due timers. *)
Inductive verdict :=
  | Finish
  | SleepUntil (d : option Z)
  | Dispatch (due : list TimerEntry).

(** One round of [schedulerLoop]; [now] and [now'] are its two clock readings. *)
Definition schedulerRound (fuel : nat) (st : State) (now now' : Z) : option (State * verdict) :=
  if shutting_down st then Some (st, Finish)
  else
    let st := st <| heap := discardStale (timers st) (heap st) |> in
    match heap st with
    | [] => Some (st, SleepUntil None)
    | item :: _ =>
        if now <? item_deadline item then Some (st, SleepUntil (Some (item_deadline item)))
        else '(st, due) ← dueLoop fuel st now'; Some (st, Dispatch due)
    end.

Definition enqueueCallbacks (st : State) (callbacks : list Z) : State :=
  st <| ready_callbacks ::= λ q, q ++ callbacks |>.

(** A worker with the lock: run a callback, leave, or sleep. *)
Inductive task := RunCallback (cb : Z) | Leave | Sleep.

Definition callbackSection (st : State) : State * task :=
  match ready_callbacks st with
  | cb :: q => (st <| ready_callbacks := q |>, RunCallback cb)
  | [] => (st, if callback_stopping st then Leave else Sleep)
  end.

(** The two critical sections of [shutdown]. *)
Definition shutdownTimers (st : State) : State :=
  st <| shutting_down := true |> <| timers := ∅ |>.
Definition shutdownCallbacks (st : State) : State :=
  st <| callback_stopping := true |>.

(** ** Ordering and the heap invariant *)

Definition key_lt (a b : Z * Z) : Prop := a.1 < b.1 ∨ a.1 = b.1 ∧ a.2 < b.2.
Definition key_le (a b : Z * Z) : Prop := a.1 < b.1 ∨ a.1 = b.1 ∧ a.2 ≤ b.2.
Definition item_key (x : HeapItem) : Z * Z := (item_deadline x, item_id x).
Definition entry_key (e : TimerEntry) : Z * Z := (deadline e, id e).
Definition item_le (x y : HeapItem) : Prop := key_le (item_key x) (item_key y).

Lemma item_gt_spec a b : reflect (key_lt (item_key b) (item_key a)) (item_gt a b).
Proof.
  unfold item_gt, key_lt, item_key; simpl. apply iff_reflect.
  case_match; [rewrite Z.ltb_lt|rewrite Z.ltb_lt]; lia.
Qed.

#[export] Instance item_le_trans : Transitive item_le.
Proof. intros [] [] []. unfold item_le, key_le; simpl. lia. Qed.

Lemma push_perm x h : push x h ≡ₚ x :: h.
Proof.
  induction h as [|y h IH]; simpl; [done|]. destruct (item_gt x y); [|done].
  rewrite IH. apply Permutation_swap.
Qed.

Lemma push_sorted x h : StronglySorted item_le h → StronglySorted item_le (push x h).
Proof.
  induction 1 as [|y h Hh IH Hy]; simpl; [repeat constructor|].
  destruct (item_gt_spec x y) as [Hgt|Hle].
  - constructor; [done|]. rewrite push_perm. constructor; [|done].
    destruct Hgt as [?|[? ?]]; unfold item_le, key_le; lia.
  - assert (item_le x y) as Hxy.
    { unfold item_le, key_le, key_lt, item_key in *. simpl in *. lia. }
    constructor; [by constructor|]. constructor; [done|].
    eapply Forall_impl; [done|]. intros z Hz. by etransitivity.
Qed.

Lemma discardStale_suffix m h : ∃ k, h = k ++ discardStale m h ∧ Forall (λ x, isCurrent m x = false) k.
Proof.
  induction h as [|x h (k & Hk & Hf)]; simpl; [by exists []|].
  destruct (isCurrent m x) eqn:Hx; [by exists []|]. exists (x :: k). simpl. split; [congruence|].
  by constructor.
Qed.

Lemma discardStale_head m h x rest : discardStale m h = x :: rest → isCurrent m x = true.
Proof.
  induction h as [|y h IH]; simpl; [done|]. destruct (isCurrent m y) eqn:Hy; [|done].
  by intros [= <- <-].
Qed.

(** Every active timer has its current item in the sorted heap. *)
Record heap_ok (m : gmap Z TimerEntry) (h : list HeapItem) : Prop := {
  h_sorted : StronglySorted item_le h;
  h_entry i e : m !! i = Some e → id e = i ∧ item_of e ∈ h;
  h_interval i e : m !! i = Some e → repeating e = true → 0 < interval e;
}.

Lemma isCurrent_item m h i e : heap_ok m h → m !! i = Some e → isCurrent m (item_of e) = true.
Proof.
  intros H Hi. destruct (h_entry _ _ H _ _ Hi) as [<- _]. unfold isCurrent. simpl.
  rewrite Hi. by rewrite !Z.eqb_refl.
Qed.

Lemma isCurrent_entry m h x :
  heap_ok m h → isCurrent m x = true → ∃ e, m !! item_id x = Some e ∧ x = item_of e.
Proof.
  intros H Hc. unfold isCurrent in Hc. destruct (m !! item_id x) as [e|] eqn:He; [|done].
  apply andb_true_iff in Hc as [Hg%Z.eqb_eq Hd%Z.eqb_eq].
  destruct (h_entry _ _ H _ _ He) as [Hid _]. exists e. split; [done|].
  destruct x. unfold item_of. simpl in *. congruence.
Qed.

Lemma heap_ok_discard m h : heap_ok m h → heap_ok m (discardStale m h).
Proof.
  intros H. destruct (discardStale_suffix m h) as (k & Hk & Hf). pose proof H as [Hs He Hi].
  split; try done.
  - rewrite Hk in Hs. by apply StronglySorted_app in Hs as (_ & _ & ?).
  - intros i e Hie. destruct (He i e Hie) as [Hid Hin]. split; [done|].
    rewrite Hk in Hin. apply elem_of_app in Hin as [Hin|Hin]; [|done].
    rewrite Forall_forall in Hf. specialize (Hf _ Hin).
    by rewrite (isCurrent_item m h i e H Hie) in Hf.
Qed.

(** ** The catch-up loop *)

(** The first deadline after [now], a whole number of periods later. *)
Definition next_tick (deadline step now : Z) : Z :=
  deadline + step * (Z.max 0 ((now - deadline) / step) + 1).

Lemma catchUp_spec fuel now step next :
  0 < step → (now - next) / step < Z.of_nat fuel →
  catchUp fuel now step next = Some (next + step * Z.max 0 ((now - next) / step + 1)).
Proof.
  revert next. induction fuel as [|fuel IH]; intros next Hs Hf; simpl.
  - destruct (Z.leb_spec next now) as [Hle|Hgt].
    + assert (0 ≤ (now - next) / step) by (apply Z.div_pos; lia). lia.
    + assert ((now - next) / step < 0) by (apply Z.div_lt_upper_bound; lia).
      rewrite Z.max_l by lia. f_equal. lia.
  - destruct (Z.leb_spec next now) as [Hle|Hgt].
    + assert ((now - next) / step = (now - (next + step)) / step + 1) as Hd.
      { rewrite <-Z.div_add by lia. f_equal. lia. }
      assert (0 ≤ (now - next) / step) by (apply Z.div_pos; lia).
      rewrite IH by lia. f_equal. rewrite !Z.max_r by lia. rewrite Hd. lia.
    + assert ((now - next) / step < 0) by (apply Z.div_lt_upper_bound; lia).
      rewrite Z.max_l by lia. f_equal. lia.
Qed.

Lemma next_tick_after d step now : 0 < step → now < next_tick d step now.
Proof.
  intros Hs. unfold next_tick. pose proof (Z.div_mod (now - d) step).
  pose proof (Z.mod_pos_bound (now - d) step). nia.
Qed.

Lemma nextDeadline_spec e now :
  0 < interval e → deadline e ≤ now →
  nextDeadline e now = Some (next_tick (deadline e) (ms (interval e)) now).
Proof.
  intros Hi Hd. unfold nextDeadline, next_tick. set (step := ms (interval e)).
  assert (0 < step) as Hs by (unfold step, ms; lia).
  assert (0 ≤ (now - deadline e) / step) by (apply Z.div_pos; lia).
  assert ((now - (deadline e + step)) / step = (now - deadline e) / step - 1) as Hq.
  { replace (now - (deadline e + step)) with (now - deadline e + (-1) * step) by lia.
    rewrite Z.div_add by lia. lia. }
  rewrite catchUp_spec by lia. f_equal. rewrite Hq. lia.
Qed.

(** ** The due loop *)

(** A timer after the pass at [now]. *)
Definition advance (now : Z) (e : TimerEntry) : option TimerEntry :=
  if now <? deadline e then Some e
  else if repeating e
  then Some (e <| deadline := next_tick (deadline e) (ms (interval e)) now |>
               <| generation ::= λ g, g ⊕ 1 |>)
  else None.

Definition fire_map (now : Z) (e : TimerEntry) (m : gmap Z TimerEntry) : gmap Z TimerEntry :=
  match advance now e with Some e' => <[id e := e']> m | None => delete (id e) m end.

(** [fires now m due m']: at time [now] the timers [m] fire [due], always the
    earliest due one, until none is due, and become [m']. *)
Inductive fires (now : Z) : gmap Z TimerEntry → list TimerEntry → gmap Z TimerEntry → Prop :=
  | fires_nil m :
      (∀ e, m !! id e = Some e → now < deadline e) → fires now m [] m
  | fires_cons m e due m' :
      m !! id e = Some e → deadline e ≤ now →
      (∀ e', m !! id e' = Some e' → key_le (entry_key e) (entry_key e')) →
      fires now (fire_map now e m) due m' → fires now m (e :: due) m'.

Definition due_at (now : Z) (m : gmap Z TimerEntry) (e : TimerEntry) : Prop :=
  m !! id e = Some e ∧ deadline e ≤ now.

Definition entry_lt (a b : TimerEntry) : Prop := key_lt (entry_key a) (entry_key b).

(** The items the loop may still have to pop. *)
Definition pending (now : Z) (h : list HeapItem) : nat :=
  length (filter (λ x, item_deadline x ≤ now) h).

Lemma pending_app now h k : pending now (h ++ k) = (pending now h + pending now k)%nat.
Proof. unfold pending. by rewrite filter_app, length_app. Qed.

Lemma pending_discard m now h : (pending now (discardStale m h) ≤ pending now h)%nat.
Proof.
  destruct (discardStale_suffix m h) as (k & Hk & _). rewrite Hk at 2. rewrite pending_app. lia.
Qed.

Lemma pending_push now x h :
  now < item_deadline x → pending now (push x h) = pending now h.
Proof.
  intros Hx. unfold pending. rewrite (push_perm x h), filter_cons_False by lia. done.
Qed.

(** Firing touches nothing but the timers, the heap and the count. *)
Definition same_rest (st st' : State) : Prop :=
  (callback_threads st', shutting_down st', next_id st', ready_callbacks st',
   callback_stopping st', scheduled st', cancelled st')
  = (callback_threads st, shutting_down st, next_id st, ready_callbacks st,
     callback_stopping st, scheduled st, cancelled st).

(** Firing the earliest due timer. *)
Lemma fireTimer_spec st e now :
  timers st !! id e = Some e → (repeating e = true → 0 < interval e) → deadline e ≤ now →
  ∃ st', fireTimer st e now = Some st'
    ∧ timers st' = fire_map now e (timers st)
    ∧ heap st' = match advance now e with
                 | Some e' => push (item_of e') (heap st)
                 | None => heap st
                 end
    ∧ fired st' = fired st ⊕ 1 ∧ same_rest st st'.
Proof.
  intros He Hi Hd. unfold fireTimer, fire_map, advance.
  rewrite (proj2 (Z.ltb_ge now (deadline e))) by lia.
  destruct (repeating e) eqn:Hr.
  - rewrite nextDeadline_spec by auto. simpl. eexists. by split_and!.
  - eexists. by split_and!.
Qed.

Lemma advance_later now e e' :
  (repeating e = true → 0 < interval e) → advance now e = Some e' →
  now < deadline e' ∧ id e' = id e ∧ repeating e' = repeating e ∧ interval e' = interval e.
Proof.
  unfold advance. intros Hi. destruct (Z.ltb_spec now (deadline e)); [by intros [= <-]|].
  destruct (repeating e) eqn:Hr; [|done]. intros [= <-]. simpl. split_and!; try done.
  apply next_tick_after. unfold ms. specialize (Hi eq_refl). lia.
Qed.

Lemma advance_idle now e : now < deadline e → advance now e = Some e.
Proof. intros. unfold advance. by rewrite (proj2 (Z.ltb_lt _ _)). Qed.

(** The heap after the current item [x] of [e] has been popped and [e] fired. *)
Lemma heap_ok_fired m h x rest e now :
  heap_ok m h → h = x :: rest → x = item_of e → m !! id e = Some e → deadline e ≤ now →
  heap_ok (fire_map now e m)
    (match advance now e with Some e' => push (item_of e') rest | None => rest end).
Proof.
  intros H -> -> He Hd. unfold fire_map. destruct H as [Hs Hent Hint]. apply StronglySorted_cons in Hs as [_ Hs].
  assert (∀ i e', i ≠ id e → m !! i = Some e' → id e' = i ∧ item_of e' ∈ rest) as Hother.
  { intros i e' Hne Hi. destruct (Hent i e' Hi) as [Hid Hin]. split; [done|].
    apply elem_of_cons in Hin as [Heq|]; [|done]. exfalso. apply Hne. rewrite <-Hid.
    unfold item_of in Heq. by simplify_eq. }
  destruct (advance now e) as [e1|] eqn:Ha.
  - apply advance_later in Ha as (Hlate & Hid & Hr & Hiv); [|by eapply Hint].
    split; [by apply push_sorted|..].
    + intros i e' Hi. rewrite push_perm, elem_of_cons.
      apply lookup_insert_Some in Hi as [[<- <-]|[Hne Hi]]; [by split; [|left]|].
      destruct (Hother i e' (not_eq_sym Hne) Hi). by split; [|right].
    + intros i e' Hi Hrep.
      apply lookup_insert_Some in Hi as [[<- <-]|[Hne Hi]]; [|by eapply Hint].
      rewrite Hiv. eapply Hint; [done|congruence].
  - split; [done|..].
    + intros i e' Hi. apply lookup_delete_Some in Hi as [Hne Hi]. auto.
    + intros i e' Hi Hrep. apply lookup_delete_Some in Hi as [Hne Hi]. by eapply Hint.
Qed.

(** The active timers come no earlier than the top of the heap. *)
Lemma heap_top_least m x rest e :
  heap_ok m (x :: rest) → m !! id e = Some e → key_le (item_key x) (entry_key e).
Proof.
  intros [Hs Hent _] He. destruct (Hent _ _ He) as [_ Hin].
  apply StronglySorted_inv in Hs as [_ Hx]. apply elem_of_cons in Hin as [<-|Hin].
  - unfold key_le, item_key, entry_key, item_of. simpl. lia.
  - rewrite Forall_forall in Hx. exact (Hx _ Hin).
Qed.

Definition map_ok (m : gmap Z TimerEntry) : Prop :=
  ∀ i e, m !! i = Some e → id e = i ∧ (repeating e = true → 0 < interval e).

Lemma heap_map_ok m h : heap_ok m h → map_ok m.
Proof.
  intros H i e He. split; [by eapply h_entry|]. intros. by eapply h_interval.
Qed.

Lemma dueLoop_stop fuel st now :
  (∀ x rest, discardStale (timers st) (heap st) = x :: rest → now < item_deadline x) →
  dueLoop fuel st now = Some (st <| heap := discardStale (timers st) (heap st) |>, []).
Proof.
  intros Htop. destruct (heap st) as [|y h] eqn:Hh.
  - assert (st = st <| heap := discardStale (timers st) [] |>) as Hst
      by (destruct st; simpl in *; by subst).
    rewrite <-Hst. destruct fuel; simpl; by rewrite Hh.
  - destruct (discardStale (timers st) (y :: h)) as [|x rest] eqn:Hd.
    + destruct fuel; simpl; rewrite Hh, Hd; done.
    + specialize (Htop x rest eq_refl). apply Z.ltb_lt in Htop.
      destruct fuel; simpl; rewrite Hh, Hd, Htop; done.
Qed.

Lemma dueLoop_go fuel st now x rest e :
  discardStale (timers st) (heap st) = x :: rest → item_deadline x ≤ now →
  timers st !! id e = Some e → x = item_of e →
  dueLoop (S fuel) st now =
    (st ← fireTimer (st <| heap := rest |>) e now;
     '(st, due) ← dueLoop fuel st now; Some (st, e :: due)).
Proof.
  intros Hd Hle He ->. apply Z.ltb_ge in Hle. cbn [dueLoop].
  destruct (heap st) as [|y h] eqn:Hh; [done|]. rewrite Hd, Hle. simpl.
  by rewrite He, !Z.eqb_refl.
Qed.

(** The loop terminates and fires the due timers, earliest first. *)
Definition loop_result (fuel : nat) (st : State) (now : Z) : Prop :=
  ∃ st' due, dueLoop fuel st now = Some (st', due)
    ∧ heap_ok (timers st') (heap st') ∧ fires now (timers st) due (timers st')
    ∧ fired st' = fired st ⊕ Z.of_nat (length due) ∧ same_rest st st'.

Lemma dueLoop_idle fuel st now :
  heap_ok (timers st) (heap st) → in_u64 (fired st) →
  (∀ x rest, discardStale (timers st) (heap st) = x :: rest → now < item_deadline x) →
  loop_result fuel st now.
Proof.
  intros H Hf Htop. pose proof (heap_ok_discard _ _ H) as Hdis. eexists _, [].
  split; [by apply dueLoop_stop|]. split_and!; [done|..].
  - constructor. intros e He. destruct (discardStale _ _) as [|x rest] eqn:Hd.
    + destruct (h_entry _ _ Hdis _ _ He) as [_ Hin]. by apply elem_of_nil in Hin.
    + specialize (Htop x rest eq_refl). pose proof (heap_top_least _ _ _ _ Hdis He) as Hk.
      unfold key_le, item_key, entry_key in Hk. simpl in Hk. lia.
  - simpl. by rewrite Z.add_0_r, u64_small.
  - done.
Qed.

Lemma dueLoop_fires fuel st now :
  heap_ok (timers st) (heap st) → in_u64 (fired st) → (pending now (heap st) ≤ fuel)%nat →
  loop_result fuel st now.
Proof.
  revert st. induction fuel as [|fuel IH]; intros st H Hf Hp;
    pose proof (pending_discard (timers st) now (heap st)) as Hpd;
    pose proof (heap_ok_discard _ _ H) as Hdis;
    (destruct (discardStale (timers st) (heap st)) as [|x rest] eqn:Hd;
      [by apply dueLoop_idle; [..|rewrite Hd]|]);
    (destruct (decide (now < item_deadline x)) as [Hlt|Hge];
      [by apply dueLoop_idle; [..|rewrite Hd; intros ? ? [= <- <-]]|]);
    unfold pending in Hpd; rewrite filter_cons_True in Hpd by lia; simpl in Hpd;
    fold (pending now rest) in Hpd; fold (pending now (heap st)) in Hpd; [lia|].
  destruct (isCurrent_entry _ _ _ Hdis (discardStale_head _ _ _ _ Hd)) as (e & He & ->).
  simpl in He, Hge.
  destruct (fireTimer_spec (st <| heap := rest |>) e now) as (st1 & Hfire & Ht1 & Hh1 & Hf1 & Hr1);
    [done|by eapply h_interval|lia|]. simpl in Ht1, Hh1.
  pose proof (heap_ok_fired _ _ _ _ e now Hdis eq_refl eq_refl He ltac:(lia)) as H1.
  rewrite <-Ht1, <-Hh1 in H1.
  destruct (IH st1) as (st' & due & Hloop & H' & Hfs & Hf' & Hr').
  { done. }
  { rewrite Hf1. apply in_u64_range. }
  { rewrite Hh1. destruct (advance now e) as [e1|] eqn:Ha; [|lia].
    apply advance_later in Ha as (? & _); [|by apply (h_interval _ _ Hdis _ _ He)].
    rewrite pending_push by done. lia. }
  exists st', (e :: due). split_and!; [|done|..].
  - rewrite (dueLoop_go fuel st now (item_of e) rest e Hd ltac:(simpl; lia) He eq_refl), Hfire. simpl.
    by rewrite Hloop.
  - econstructor; [done|lia| |by rewrite <-Ht1].
    intros e' He'. exact (heap_top_least _ _ _ _ Hdis He').
  - rewrite Hf', Hf1, u64_add_l. f_equal. simpl. lia.
  - unfold same_rest in *. simpl in Hr1. congruence.
Qed.

(** ** What [fires] means *)

Lemma fire_map_lookup now m e i :
  map_ok m → m !! id e = Some e →
  fire_map now e m !! i = if decide (i = id e) then advance now e else m !! i.
Proof.
  intros Hm He. unfold fire_map. destruct (advance now e) as [e'|] eqn:Ha; case_decide as Hi.
  - subst. by rewrite lookup_insert_eq.
  - by rewrite lookup_insert_ne.
  - subst. by rewrite lookup_delete_eq.
  - by rewrite lookup_delete_ne.
Qed.

Lemma fire_map_ok now m e : map_ok m → m !! id e = Some e → map_ok (fire_map now e m).
Proof.
  intros Hm He i e' Hi. rewrite fire_map_lookup in Hi by done. case_decide as Hie; [|by apply Hm].
  destruct (Hm _ _ He) as [_ Hr]. destruct (advance_later _ _ _ Hr Hi) as (_ & Hid & Hrep & Hiv).
  split; [congruence|]. rewrite Hrep, Hiv. done.
Qed.

Lemma advance_idem now e : (repeating e = true → 0 < interval e) →
  advance now e ≫= advance now = advance now e.
Proof.
  intros Hr. destruct (advance now e) as [e'|] eqn:Ha; [|done]. simpl.
  apply advance_later in Ha as (Hlt & _); [|done]. by apply advance_idle.
Qed.

(** One pass fires every due timer exactly once, in the order of deadlines and
    ids, erases the one-shots, moves the repeating timers past [now] by whole
    periods and leaves the others alone. *)
Lemma fires_spec now m due m' :
  fires now m due m' → map_ok m →
  map_ok m' ∧ (∀ i, m' !! i = m !! i ≫= advance now)
  ∧ StronglySorted entry_lt due ∧ (∀ e, e ∈ due ↔ due_at now m e).
Proof.
  induction 1 as [m Hn|m e due m' He Hd Hmin Hf IH]; intros Hm.
  - split_and!; [done| |constructor|].
    + intros i. destruct (m !! i) as [e|] eqn:Hi; simpl; [|done].
      destruct (Hm _ _ Hi) as [<- _]. rewrite advance_idle; auto.
    + intros e. rewrite elem_of_nil. split; [done|]. intros [He Hd]. specialize (Hn _ He). lia.
  - destruct IH as (Hm' & Hl & Hs & Hin); [by apply fire_map_ok|].
    destruct (Hm _ _ He) as [_ Hrep].
    assert (∀ e', due_at now (fire_map now e m) e' ↔ due_at now m e' ∧ id e' ≠ id e) as Hdue.
    { intros e'. unfold due_at. rewrite fire_map_lookup by done. case_decide as Hid.
      - split; [|by intros [_ ?]]. intros [Ha Hd'].
        apply advance_later in Ha as (? & _); [|done]. lia.
      - split; [by intros []|]. by intros [[] _]. }
    split_and!; [done|..].
    + intros i. rewrite Hl, fire_map_lookup by done. case_decide as Hi; [|done].
      subst. by rewrite He, advance_idem.
    + constructor; [done|]. apply Forall_forall. intros e' [[He' _] Hne]%Hin%Hdue.
      specialize (Hmin _ He'). unfold entry_lt, key_lt, key_le, entry_key in *. simpl in *. lia.
    + intros e'. rewrite elem_of_cons, Hin, Hdue. split.
      * by intros [->|[? _]].
      * intros [He' Hd']. destruct (decide (id e' = id e)) as [Heq|]; [left|by right].
        rewrite Heq in He'. congruence.
Qed.

(** ** Threads *)

(** A client inside a call of the timer. *)
Inductive client :=
  | Outside
  | Adding (deadline interval : Z) (repeating : bool) (callback : Z)
  | Notifying                   (* about to notify [timer_changed] *)
  | ShutNotify                  (* the same, inside [shutdown] *)
  | ShutJoin                    (* joining the scheduler *)
  | ShutStop                    (* about to stop the callbacks *)
  | ShutWake                    (* about to notify [callback_available] *)
  | ShutWait.                   (* joining the workers *)

Inductive scheduler :=
  | SchedRound                  (* about to lock *)
  | SchedSleep (d : option Z)   (* asleep on [timer_changed], until [d] *)
  | SchedDue (due : list Z)     (* about to enqueue the callbacks *)
  | SchedNotify                 (* about to notify [callback_available] *)
  | SchedDone.

Inductive worker :=
  | WorkerTop
  | WorkerAsleep
  | WorkerRun (cb : Z)          (* running a callback, outside the lock *)
  | WorkerDone.

Record system := mkSystem {
  state : State;
  now : Z;
  sched : scheduler;
  workers : list worker;
  clients : list client;
}.

Inductive event :=
  | Add (e : TimerEntry)
  | AddRefused
  | Cancelled (i : Z)
  | NotFound (i : Z)
  | CancelledAll (n : Z)
  | Fire (t : Z) (e : TimerEntry)
  | Start (cb : Z)
  | Stop
  | Stopped.

Definition wake_sched (s : scheduler) : scheduler :=
  match s with SchedSleep _ => SchedRound | _ => s end.
Definition wake_worker (w : worker) : worker :=
  match w with WorkerAsleep => WorkerTop | _ => w end.

#[export] Instance worker_eq_dec : EqDecision worker.
Proof. solve_decision. Defined.

(** The next step of a client; the scheduler and the workers it wakes. *)
Definition client_step (st : State) (s : scheduler) (ws : list worker) (c : client)
    : option (State * scheduler * list worker * client * list event) :=
  match c with
  | Outside => None
  | Adding d iv r cb =>
      let '(st', i) := addTimer_locked st d iv r cb in
      if i =? invalid_timer_id then Some (st', s, ws, Outside, [AddRefused])
      else Some (st', s, ws, Notifying, [Add (mkEntry i d iv r 1 cb)])
  | Notifying => Some (st, wake_sched s, ws, Outside, [])
  | ShutNotify => Some (st, wake_sched s, ws, ShutJoin, [])
  | ShutJoin =>
      match s with SchedDone => Some (st, s, ws, ShutStop, []) | _ => None end
  | ShutStop => Some (shutdownCallbacks st, s, ws, ShutWake, [])
  | ShutWake => Some (st, s, wake_worker <$> ws, ShutWait, [])
  | ShutWait =>
      if bool_decide (Forall (λ w, w = WorkerDone) ws)
      then Some (st, s, ws, Outside, [Stopped]) else None
  end.

(** The next step of the scheduler; [t] and [t'] are its clock readings. *)
Definition sched_step (st : State) (s : scheduler) (ws : list worker) (t t' : Z)
    : option (State * scheduler * list worker * list event) :=
  match s with
  | SchedRound =>
      '(st, v) ← schedulerRound (length (heap st)) st t t';
      match v with
      | Finish => Some (st, SchedDone, ws, [])
      | SleepUntil d => Some (st, SchedSleep d, ws, [])
      | Dispatch due => Some (st, SchedDue (callback <$> due), ws, Fire t' <$> due)
      end
  | SchedSleep _ => Some (st, SchedRound, ws, [])
  | SchedDue [] => Some (st, SchedRound, ws, [])
  | SchedDue due => Some (enqueueCallbacks st due, SchedNotify, ws, [])
  | SchedNotify => Some (st, SchedRound, wake_worker <$> ws, [])
  | SchedDone => None
  end.

Definition worker_step (st : State) (w : worker) : option (State * worker * list event) :=
  match w with
  | WorkerTop =>
      let '(st, task) := callbackSection st in
      match task with
      | RunCallback cb => Some (st, WorkerRun cb, [Start cb])
      | Leave => Some (st, WorkerDone, [])
      | Sleep => Some (st, WorkerAsleep, [])
      end
  | WorkerAsleep | WorkerRun _ => Some (st, WorkerTop, [])
  | WorkerDone => None
  end.

Inductive timer_step : system → list event → system → Prop :=
  | step_client i c st t s ws cs st' s' ws' c' es :
      cs !! i = Some c → client_step st s ws c = Some (st', s', ws', c', es) →
      timer_step (mkSystem st t s ws cs) es (mkSystem st' t s' ws' (<[i := c']> cs))
  | step_sched t' st t s ws cs st' s' ws' es :
      t ≤ t' → sched_step st s ws t t' = Some (st', s', ws', es) →
      timer_step (mkSystem st t s ws cs) es (mkSystem st' t' s' ws' cs)
  | step_worker i w st t s ws cs st' w' es :
      ws !! i = Some w → worker_step st w = Some (st', w', es) →
      timer_step (mkSystem st t s ws cs) es (mkSystem st' t s (<[i := w']> ws) cs)
  | step_schedule i d iv r cb d' cb' st t s ws cs :
      cs !! i = Some Outside → addTimer_check t d iv r cb = Returns (d', cb') →
      timer_step (mkSystem st t s ws cs) []
        (mkSystem st t s ws (<[i := Adding d' iv r cb']> cs))
  | step_cancel i k st t s ws cs st' b :
      cs !! i = Some Outside → cancel st k = (st', b) →
      timer_step (mkSystem st t s ws cs) [if b then Cancelled k else NotFound k]
        (mkSystem st' t s ws (<[i := if b : bool then Notifying else Outside]> cs))
  | step_cancelAll i st t s ws cs st' n :
      cs !! i = Some Outside → cancelAll st = (st', n) →
      timer_step (mkSystem st t s ws cs) [CancelledAll n]
        (mkSystem st' t s ws (<[i := Notifying]> cs))
  | step_shutdown i st t s ws cs :
      cs !! i = Some Outside →
      timer_step (mkSystem st t s ws cs) [Stop]
        (mkSystem (shutdownTimers st) t s ws (<[i := ShutNotify]> cs))
  | step_tick t' st t s ws cs :
      t ≤ t' → timer_step (mkSystem st t s ws cs) [] (mkSystem st t' s ws cs).

Definition timer_init (n : Z) (s : system) : Prop :=
  make n = Returns (state s) ∧ sched s = SchedRound
  ∧ workers s = replicate (Z.to_nat n) WorkerTop ∧ Forall (λ c, c = Outside) (clients s).

(** Runs that schedule fewer than [2^64 - 2] timers, so that no id is reused. *)
Definition in_range (s : system) : Prop := next_id (state s) < two64 - 1.

Definition timer_lts (n : Z) : lts system event :=
  Lts (timer_init n) (λ s es s', timer_step s es s' ∧ in_range s').

(** ** Specification: timers by id and a queue of callbacks *)

Record atimers := mkATimers {
  active : gmap Z TimerEntry;
  queue : list Z;               (* fired, not yet started *)
  stopped : bool;
}.

Inductive atimer_step : atimers → list event → atimers → Prop :=
  | a_add e m q :
      m !! id e = None → id e ≠ invalid_timer_id →
      atimer_step (mkATimers m q false) [Add e] (mkATimers (<[id e := e]> m) q false)
  | a_refused m q :
      atimer_step (mkATimers m q true) [AddRefused] (mkATimers m q true)
  | a_cancel i e m q b :
      m !! i = Some e →
      atimer_step (mkATimers m q b) [Cancelled i] (mkATimers (delete i m) q b)
  | a_not_found i m q b :
      m !! i = None →
      atimer_step (mkATimers m q b) [NotFound i] (mkATimers m q b)
  | a_cancel_all m q b :
      atimer_step (mkATimers m q b) [CancelledAll (Z.of_nat (size m))] (mkATimers ∅ q b)
  | a_fire t e m q :
      m !! id e = Some e → deadline e ≤ t →
      (∀ e', m !! id e' = Some e' → key_le (entry_key e) (entry_key e')) →
      atimer_step (mkATimers m q false) [Fire t e]
        (mkATimers (fire_map t e m) (q ++ [callback e]) false)
  | a_start cb m q b :
      atimer_step (mkATimers m (cb :: q) b) [Start cb] (mkATimers m q b)
  | a_stop m q b :
      atimer_step (mkATimers m q b) [Stop] (mkATimers ∅ q true)
  | a_stopped m :
      atimer_step (mkATimers m [] true) [Stopped] (mkATimers m [] true).

Definition atimer_lts : lts atimers event :=
  Lts (λ a, a = mkATimers ∅ [] false) atimer_step.

(** ** The invariant of the system *)

Definition notifying_of (c : client) : Z :=
  match c with Notifying | ShutNotify => 1 | _ => 0 end.
Definition waking_of (c : client) : Z := match c with ShutWake => 1 | _ => 0 end.

Definition client_ok (st : State) (s : scheduler) (c : client) : Prop :=
  match c with
  | ShutNotify | ShutJoin => shutting_down st = true
  | ShutStop => s = SchedDone
  | ShutWake | ShutWait => s = SchedDone ∧ callback_stopping st = true
  | Adding _ iv r _ => r = true → 0 < iv
  | _ => True
  end.

Definition worker_ok (st : State) (s : scheduler) (waking : Z) (w : worker) : Prop :=
  match w with
  | WorkerAsleep =>
      s = SchedNotify ∨ 0 < waking ∨ ready_callbacks st = [] ∧ callback_stopping st = false
  | WorkerDone => ready_callbacks st = [] ∧ callback_stopping st = true
  | _ => True
  end.

Record sys_inv (s : system) : Prop := {
  v_heap : heap_ok (timers (state s)) (heap (state s));
  v_fired : in_u64 (fired (state s));
  v_next : 1 ≤ next_id (state s) < two64 - 1;
  v_ids i e : timers (state s) !! i = Some e → 1 ≤ i < next_id (state s);
  v_down : shutting_down (state s) = true → timers (state s) = ∅;
  v_done : sched s = SchedDone → shutting_down (state s) = true;
  v_stopping : callback_stopping (state s) = true → sched s = SchedDone;
  v_sleep d : sched s = SchedSleep d →
    0 < sum_of notifying_of (clients s)
    ∨ shutting_down (state s) = false
      ∧ ∀ i e, timers (state s) !! i = Some e → ∃ t, d = Some t ∧ t ≤ deadline e;
  v_clients c : c ∈ clients s → client_ok (state s) (sched s) c;
  v_workers w : w ∈ workers s →
    worker_ok (state s) (sched s) (sum_of waking_of (clients s)) w;
}.

Lemma heap_ok_submap m m' h : m' ⊆ m → heap_ok m h → heap_ok m' h.
Proof.
  intros Hs [H1 H2 H3]. split; [done|..].
  - intros i e Hi. apply H2. by eapply lookup_weaken.
  - intros i e Hi. apply (H3 i). by eapply lookup_weaken.
Qed.

Lemma heap_ok_add m h e :
  m !! id e = None → (repeating e = true → 0 < interval e) → heap_ok m h →
  heap_ok (<[id e := e]> m) (push (item_of e) h).
Proof.
  intros Hn Hr [H1 H2 H3]. split; [by apply push_sorted|..].
  - intros i e' Hi. rewrite push_perm, elem_of_cons.
    apply lookup_insert_Some in Hi as [[<- <-]|[_ Hi]]; [by split; [|left]|].
    destruct (H2 _ _ Hi). by split; [|right].
  - intros i e' Hi. apply lookup_insert_Some in Hi as [[<- <-]|[_ Hi]]; [done|by eapply H3].
Qed.

Lemma client_ok_mono st st' s s' c :
  (shutting_down st = true → shutting_down st' = true) →
  (callback_stopping st = true → callback_stopping st' = true) →
  (s = SchedDone → s' = SchedDone) → client_ok st s c → client_ok st' s' c.
Proof. destruct c; simpl; intuition. Qed.

Section fresh_id.
Context (st : State) (Hn : 1 ≤ next_id st < two64 - 1)
  (Hids : ∀ i e, timers st !! i = Some e → 1 ≤ i < next_id st).

Lemma fresh_id : timers st !! next_id st = None.
Proof.
  destruct (timers st !! next_id st) as [e|] eqn:He; [|done]. specialize (Hids _ _ He). lia.
Qed.

Lemma bump_small : bump (next_id st) = next_id st + 1.
Proof.
  unfold bump, invalid_timer_id. rewrite u64_small by lia.
  destruct (Z.eqb_spec (next_id st + 1) 0); lia.
Qed.

(** [addTimer] under the lock: refused after a shutdown, a fresh id before. *)
Lemma addTimer_locked_spec d iv r cb :
  addTimer_locked st d iv r cb =
    if shutting_down st then (st, invalid_timer_id)
    else let e := mkEntry (next_id st) d iv r 1 cb in
      (st <| next_id := next_id st + 1 |> <| timers ::= <[id e := e]> |>
          <| heap ::= push (item_of e) |> <| scheduled ::= λ n, n ⊕ 1 |>, next_id st).
Proof.
  unfold addTimer_locked. destruct (shutting_down st); [done|].
  rewrite bump_small. pose proof fresh_id as Hf.
  destruct st; unfold set_field; simpl in *. by rewrite Hf.
Qed.
End fresh_id.

(** What a round of the scheduler does to the state. *)
Lemma schedulerRound_spec st t t' :
  t ≤ t' → heap_ok (timers st) (heap st) → in_u64 (fired st) →
  ∃ st' v, schedulerRound (length (heap st)) st t t' = Some (st', v)
    ∧ heap_ok (timers st') (heap st') ∧ same_rest st st'
    ∧ match v with
      | Finish => shutting_down st = true ∧ st' = st
      | SleepUntil d =>
          shutting_down st = false ∧ timers st' = timers st ∧ fired st' = fired st
          ∧ ∀ i e, timers st !! i = Some e → ∃ w, d = Some w ∧ w ≤ deadline e
      | Dispatch due =>
          shutting_down st = false ∧ fires t' (timers st) due (timers st')
          ∧ fired st' = fired st ⊕ Z.of_nat (length due)
      end.
Proof.
  intros Ht H Hf. unfold schedulerRound. destruct (shutting_down st) eqn:Hd.
  { by eexists _, _. }
  pose proof (heap_ok_discard _ _ H) as Hdis. cbn [heap set_field timers].
  destruct (discardStale (timers st) (heap st)) as [|x rest] eqn:Hds.
  - eexists _, _. split; [done|]. split_and!; try done.
    intros i e He. destruct (h_entry _ _ Hdis _ _ He) as [_ Hin]. by apply elem_of_nil in Hin.
  - destruct (Z.ltb_spec t (item_deadline x)) as [Hlt|Hge].
    + eexists _, _. split; [done|]. split_and!; try done.
      intros i e He. eexists. split; [done|]. destruct (h_entry _ _ Hdis _ _ He) as [<- _].
      pose proof (heap_top_least _ _ _ _ Hdis He) as Hk.
      unfold key_le, item_key, entry_key in Hk. simpl in Hk. lia.
    + destruct (dueLoop_fires (length (heap st)) (st <| heap := x :: rest |>) t')
        as (st' & due & -> & H' & Hfs & Hf' & Hr); [done|done| |].
      { simpl. rewrite <-Hds. etransitivity; [apply pending_discard|].
        unfold pending. apply length_filter. }
      eexists _, _. split; [done|]. by split_and!.
Qed.

Lemma fires_ids now m due m' i e :
  fires now m due m' → map_ok m → m' !! i = Some e → ∃ e0, m !! i = Some e0.
Proof.
  intros Hf Hm He. destruct (fires_spec _ _ _ _ Hf Hm) as (_ & Hl & _). rewrite Hl in He.
  destruct (m !! i); [eauto|done].
Qed.

Lemma sum_nonneg_client cs : 0 ≤ sum_of notifying_of cs ∧ 0 ≤ sum_of waking_of cs.
Proof. split; apply sum_of_nonneg; by intros []. Qed.

(** A client other than the ones that notify leaves the sleepers' reasons. *)
Lemma inv_sched s st' sc' ws' cs' t' :
  sys_inv s →
  heap_ok (timers st') (heap st') → in_u64 (fired st') →
  1 ≤ next_id st' < two64 - 1 →
  (∀ i e, timers st' !! i = Some e → 1 ≤ i < next_id st') →
  (shutting_down st' = true → timers st' = ∅) →
  (sc' = SchedDone → shutting_down st' = true) →
  (callback_stopping st' = true → sc' = SchedDone) →
  (∀ d, sc' = SchedSleep d → 0 < sum_of notifying_of cs'
    ∨ shutting_down st' = false
      ∧ ∀ i e, timers st' !! i = Some e → ∃ t, d = Some t ∧ t ≤ deadline e) →
  (∀ c, c ∈ cs' → client_ok st' sc' c) →
  (∀ w, w ∈ ws' → worker_ok st' sc' (sum_of waking_of cs') w) →
  sys_inv (mkSystem st' t' sc' ws' cs').
Proof. intros. by split. Qed.

Lemma sys_inv_init n s : timer_init n s → sys_inv s.
Proof.
  intros (Hm & Hs & Hw & Hc). unfold make in Hm. case_match; [done|]. injection Hm as Hst.
  destruct s as [st t sc ws cs]. simpl in *. subst. split; simpl; try done.
  - split; [constructor|..]; intros i e He; by apply lookup_empty_Some in He.
  - intros c Hin. rewrite Forall_forall in Hc. by rewrite (Hc c Hin).
  - intros w Hin. apply elem_of_replicate in Hin as [-> _]. done.
Qed.

(** A round of the scheduler. *)
Lemma sys_inv_round st t t' ws cs st' sc' ws' es :
  sys_inv (mkSystem st t SchedRound ws cs) → t ≤ t' →
  sched_step st SchedRound ws t t' = Some (st', sc', ws', es) →
  sys_inv (mkSystem st' t' sc' ws' cs).
Proof.
  intros H Ht Hs. pose proof H as [Hh Hf Hn Hids Hdown Hdone Hstp Hsl Hcl Hwk]. simpl in *.
  destruct (schedulerRound_spec st t t' Ht Hh Hf) as (st1 & v & Hround & H1 & Hr & Hv).
  rewrite Hround in Hs. simpl in Hs. pose proof Hr as Hr'. unfold same_rest in Hr'. simplify_eq Hr'.
  intros E1 E2 E3 E4 E5 E6 E7.
  assert (∀ c sc1, (SchedRound = SchedDone → sc1 = SchedDone) → c ∈ cs →
    client_ok st1 sc1 c) as Hcl1.
  { intros c sc1 Hd Hc. apply (client_ok_mono st st1 SchedRound); [..|by apply Hcl]; congruence. }
  assert (∀ w sc1, w ∈ ws → worker_ok st1 sc1 (sum_of waking_of cs) w) as Hwk1.
  { intros w sc1 Hw. specialize (Hwk w Hw). destruct w; simpl in *; try done.
    - rewrite E4, E5. destruct Hwk as [?|]; [done|by right].
    - by rewrite E4, E5. }
  destruct v as [|d|due]; simplify_eq.
  - destruct Hv as [Hd ->]. apply (inv_sched _ _ _ _ _ _ H); try done; auto.
  - destruct Hv as (Hd & Htm & Hfd & Hsleep). rewrite Htm in H1.
    apply (inv_sched _ _ _ _ _ _ H); rewrite ?Htm, ?Hfd, ?E3, ?E2, ?E5; try done; auto.
    + intros Hx. by specialize (Hstp Hx).
    + intros d0 [= <-]. by right.
    + intros c Hc. by apply Hcl1.
  - destruct Hv as (Hd & Hfs & Hfd). pose proof (heap_map_ok _ _ Hh) as Hmo.
    apply (inv_sched _ _ _ _ _ _ H); rewrite ?Hfd, ?E3, ?E2, ?E5; try done; auto with comp.
    + intros i e He. destruct (fires_ids _ _ _ _ _ _ Hfs Hmo He) as [e0 He0]. eauto.
    + congruence.
    + intros Hx. by specialize (Hstp Hx).
    + intros c Hc. by apply Hcl1.
Qed.

(** A step of the scheduler that leaves the timers keeps the threads' shape. *)
Ltac sched_threads clients_ok workers_ok :=
  try done; auto;
  try (let c := fresh in let Hc := fresh in
       intros c Hc; specialize (clients_ok _ Hc); destruct c; simpl in *; by intuition);
  try (let w := fresh in let Hw := fresh in
       intros w Hw; specialize (workers_ok _ Hw); destruct w; simpl in *; by intuition).

Lemma sys_inv_sched st t t' sc ws cs st' sc' ws' es :
  sys_inv (mkSystem st t sc ws cs) → t ≤ t' →
  sched_step st sc ws t t' = Some (st', sc', ws', es) →
  sys_inv (mkSystem st' t' sc' ws' cs).
Proof.
  intros H Ht Hs. pose proof H as [Hh Hf Hn Hids Hdown Hdone Hstp Hsl Hcl Hwk]. simpl in *.
  assert (∀ w, w ∈ wake_worker <$> ws → worker_ok st SchedRound (sum_of waking_of cs) w)
    as Hwoken.
  { intros w (w0 & -> & Hw0)%list_elem_of_fmap. specialize (Hwk _ Hw0). by destruct w0. }
  assert (callback_stopping st = true → sc = SchedDone) as Hend by done.
  destruct sc as [|d|[|cb due]| |]; [by eapply sys_inv_round|..]; simpl in Hs;
    simplify_eq; apply (inv_sched _ _ _ _ _ _ H); sched_threads Hcl Hwk;
    try (intros Hx; by specialize (Hend Hx)).
Qed.

Lemma sys_inv_worker st t sc ws cs i w st' w' es :
  sys_inv (mkSystem st t sc ws cs) → ws !! i = Some w →
  worker_step st w = Some (st', w', es) →
  sys_inv (mkSystem st' t sc (<[i:=w']> ws) cs).
Proof.
  intros H Hi Hs. pose proof H as [Hh Hf Hn Hids Hdown Hdone Hstp Hsl Hcl Hwk]. simpl in *.
  assert (w ∈ ws) as Hw by by eapply list_elem_of_lookup_2.
  destruct w as [| |cb|]; simpl in Hs; [| | |done].
  - unfold callbackSection in Hs. destruct (ready_callbacks st) as [|cb q] eqn:Hr.
    + destruct (callback_stopping st) eqn:Hst; simplify_eq;
        apply (inv_sched _ _ _ _ _ _ H); rewrite ?Hst; try done; auto;
        intros w [->|Hin]%elem_of_list_insert; simpl; auto.
    + simplify_eq. apply (inv_sched _ _ _ _ _ _ H); try done; auto.
      intros w [->|Hin]%elem_of_list_insert; [done|]. specialize (Hwk _ Hin).
      destruct w; simpl in *; try done; rewrite Hr in Hwk; [|by destruct Hwk].
      destruct Hwk as [?|[?|[? _]]]; [by left|by right; left|done].
  - simplify_eq. apply (inv_sched _ _ _ _ _ _ H); try done; auto.
    intros w [->|Hin]%elem_of_list_insert; [done|auto].
  - simplify_eq. apply (inv_sched _ _ _ _ _ _ H); try done; auto.
    intros w [->|Hin]%elem_of_list_insert; [done|auto].
Qed.

(** A client moves and neither the threads asleep nor the timers change. *)
Lemma sys_inv_client st t sc ws cs i c c' :
  sys_inv (mkSystem st t sc ws cs) → cs !! i = Some c → client_ok st sc c' →
  notifying_of c ≤ notifying_of c' → waking_of c = waking_of c' →
  sys_inv (mkSystem st t sc ws (<[i:=c']> cs)).
Proof.
  intros H Hi Hok Hn1 Hw1. pose proof H as [Hh Hf Hn Hids Hdown Hdone Hstp Hsl Hcl Hwk].
  simpl in *. apply (inv_sched _ _ _ _ _ _ H); try done.
  - intros d Hd. rewrite (sum_of_insert _ _ _ _ _ Hi).
    destruct (Hsl d Hd) as [?|[? ?]]; [left; lia|by right].
  - intros c1 [->|Hin]%elem_of_list_insert; auto.
  - intros w Hin. rewrite (sum_of_insert _ _ _ _ _ Hi), Hw1.
    replace (sum_of waking_of cs - waking_of c' + waking_of c') with (sum_of waking_of cs) by lia.
    auto.
Qed.

(** A client removes timers, or adds one, and is about to notify. *)
Lemma sys_inv_timers st t sc ws cs i c st' :
  sys_inv (mkSystem st t sc ws cs) → cs !! i = Some c → notifying_of c = 0 → waking_of c = 0 →
  heap_ok (timers st') (heap st') → fired st' = fired st →
  1 ≤ next_id st' < two64 - 1 →
  (∀ k e, timers st' !! k = Some e → 1 ≤ k < next_id st') →
  (shutting_down st = true → shutting_down st' = true) →
  (shutting_down st' = true → timers st' = ∅) →
  ready_callbacks st' = ready_callbacks st → callback_stopping st' = callback_stopping st →
  ∀ c', notifying_of c' = 1 → client_ok st' sc c' →
  sys_inv (mkSystem st' t sc ws (<[i:=c']> cs)).
Proof.
  intros H Hi Hc0 Hw0 Hheap Hfired Hnext Hids' Hmono Hdown' Hready Hstop c' Hc1 Hok.
  pose proof H as [Hh Hf Hn Hids Hdown Hdone Hstp Hsl Hcl Hwk]. simpl in *.
  assert (waking_of c' = 0) as Hw1 by (by destruct c').
  pose proof (sum_nonneg_client cs) as [Hnn _].
  apply (inv_sched _ _ _ _ _ _ H); rewrite ?Hfired, ?Hstop; try done; auto.
  - intros d Hd. left. rewrite (sum_of_insert _ _ _ _ _ Hi). lia.
  - intros c1 [->|Hin]%elem_of_list_insert; [done|].
    apply (client_ok_mono st st' sc); auto. congruence.
  - intros w Hin. rewrite (sum_of_insert _ _ _ _ _ Hi).
    replace (sum_of waking_of cs - waking_of c + waking_of c') with (sum_of waking_of cs) by lia.
    specialize (Hwk _ Hin). destruct w; simpl in *; by rewrite ?Hready, ?Hstop.
Qed.

Lemma sys_inv_notify st t sc ws cs i c c' :
  sys_inv (mkSystem st t sc ws cs) → cs !! i = Some c → client_ok st (wake_sched sc) c' →
  waking_of c = 0 → waking_of c' = 0 →
  sys_inv (mkSystem st t (wake_sched sc) ws (<[i:=c']> cs)).
Proof.
  intros H Hi Hok Hc0 Hc1. pose proof H as [Hh Hf Hn Hids Hdown Hdone Hstp Hsl Hcl Hwk].
  simpl in *.
  assert (∀ x, wake_sched sc = x → (∀ d, x ≠ SchedSleep d) ∧ (x = SchedDone ↔ sc = SchedDone)
    ∧ (x = SchedNotify ↔ sc = SchedNotify)) as Hws.
  { intros x <-. destruct sc; simpl; split_and!; try done; by split. }
  destruct (Hws _ eq_refl) as (Hns & Hd & Hnot).
  apply (inv_sched _ _ _ _ _ _ H); try done.
  - intros Hx. apply Hdone. by apply Hd.
  - intros Hx. apply Hd. auto.
  - intros d Hx. by destruct (Hns d).
  - intros c1 [->|Hin]%elem_of_list_insert; [done|].
    apply (client_ok_mono st st sc); auto. by intros ?%Hd.
  - intros w Hin. rewrite (sum_of_insert _ _ _ _ _ Hi).
    replace (sum_of waking_of cs - waking_of c + waking_of c') with (sum_of waking_of cs) by lia.
    specialize (Hwk _ Hin). destruct w; simpl in *; try done. by rewrite Hnot.
Qed.

Lemma sys_inv_client_step st t sc ws cs i c st' sc' ws' c' es :
  sys_inv (mkSystem st t sc ws cs) → cs !! i = Some c →
  client_step st sc ws c = Some (st', sc', ws', c', es) → next_id st' < two64 - 1 →
  sys_inv (mkSystem st' t sc' ws' (<[i:=c']> cs)).
Proof.
  intros H Hi Hs Hnx. pose proof H as [Hh Hf Hn Hids Hdown Hdone Hstp Hsl Hcl Hwk]. simpl in *.
  pose proof (Hcl c ltac:(by eapply list_elem_of_lookup_2)) as Hok.
  destruct c as [|d iv r cb| | | | | |]; simpl in Hs; [done|..].
  - rewrite (addTimer_locked_spec st Hn Hids) in Hs. destruct (shutting_down st) eqn:Hd.
    + simpl in Hs. simplify_eq. by apply (sys_inv_client _ _ _ _ _ _ _ _ H Hi).
    + destruct (next_id st =? invalid_timer_id) eqn:He;
        [apply Z.eqb_eq in He; unfold invalid_timer_id in He; lia|].
      simpl in Hs. rewrite He in Hs. simplify_eq/=. pose proof (fresh_id st Hids) as Hfr.
      apply (sys_inv_timers _ _ _ _ _ _ _ _ H Hi); try done; simpl in *; try lia.
      * by apply (heap_ok_add _ _ (mkEntry (next_id st) d iv r 1 cb)).
      * intros k e [[<- _]|[_ Hke]]%lookup_insert_Some; [lia|].
        specialize (Hids _ _ Hke). lia.
      * congruence.
  - simplify_eq. by apply (sys_inv_notify _ _ _ _ _ _ _ _ H Hi).
  - simplify_eq. by apply (sys_inv_notify _ _ _ _ _ _ _ _ H Hi).
  - destruct sc; simplify_eq. by apply (sys_inv_client _ _ _ _ _ _ _ _ H Hi).
  - simplify_eq. simpl in Hok. pose proof (sum_nonneg_client cs) as [_ Hnn].
    apply (inv_sched _ _ _ _ _ _ H); try done.
    + intros d Hd. rewrite (sum_of_insert _ _ _ _ _ Hi).
      destruct (Hsl d Hd) as [?|[? ?]]; [left; simpl; lia|by right].
    + intros c1 [->|Hin]%elem_of_list_insert; [done|].
      apply (client_ok_mono st _ sc'); auto.
    + intros w Hin. rewrite (sum_of_insert _ _ _ _ _ Hi). simpl. specialize (Hwk _ Hin).
      destruct w; simpl in *; try done; [right; left; lia|]. by destruct Hwk.
  - simplify_eq. simpl in Hok. destruct Hok as [-> Hstop].
    apply (inv_sched _ _ _ _ _ _ H); try done.
    + intros c1 [->|Hin]%elem_of_list_insert; [done|auto].
    + intros w (w0 & -> & Hw0)%list_elem_of_fmap. specialize (Hwk _ Hw0). by destruct w0.
  - case_bool_decide; simplify_eq. by apply (sys_inv_client _ _ _ _ _ _ _ _ H Hi).
Qed.

Lemma addTimer_check_spec t d iv r cb d' cb' :
  addTimer_check t d iv r cb = Returns (d', cb') →
  d' = Z.max d t ∧ cb = Some cb' ∧ (r = true → 0 < iv).
Proof.
  unfold addTimer_check. destruct cb as [cb|]; [|done].
  destruct (r && (iv <=? 0)) eqn:Hr; [done|]. intros [= <- <-]. split_and!; [|done|].
  - destruct (Z.ltb_spec d t); lia.
  - intros ->. simpl in Hr. apply Z.leb_gt in Hr. done.
Qed.

Lemma sys_inv_step s es s' :
  sys_inv s → timer_step s es s' → in_range s' → sys_inv s'.
Proof.
  intros H Hs Hr. unfold in_range in Hr.
  destruct Hs as [i c st t sc ws cs st' sc' ws' c' es Hi Hst|t' st t sc ws cs st' sc' ws' es Ht Hst
    |i w st t sc ws cs st' w' es Hi Hst|i d iv r cb d' cb' st t sc ws cs Hi Hc
    |i k st t sc ws cs st' b Hi Hc|i st t sc ws cs st' n Hi Hc|i st t sc ws cs Hi
    |t' st t sc ws cs Ht]; simpl in Hr.
  - by eapply sys_inv_client_step.
  - by eapply sys_inv_sched.
  - by eapply sys_inv_worker.
  - eapply sys_inv_client; try done. by apply addTimer_check_spec in Hc as (_ & _ & ?).
  - destruct H as [Hh Hf Hn Hids Hdown Hdone Hstp Hsl Hcl Hwk] eqn:HH; clear HH; simpl in *.
    unfold cancel in Hc. case_match; [|case_match]; simplify_eq;
      [by apply (sys_inv_client _ _ _ _ _ _ _ _ H Hi)| |by apply (sys_inv_client _ _ _ _ _ _ _ _ H Hi)].
    apply (sys_inv_timers _ _ _ _ _ _ _ _ H Hi); try done; simpl.
    + eapply heap_ok_submap; [apply delete_subseteq|done].
    + intros j e [_ He]%lookup_delete_Some. eauto.
    + intros Hd. by rewrite Hdown, delete_empty.
  - destruct H as [Hh Hf Hn Hids Hdown Hdone Hstp Hsl Hcl Hwk] eqn:HH; clear HH; simpl in *.
    unfold cancelAll in Hc. simplify_eq.
    apply (sys_inv_timers _ _ _ _ _ _ _ _ H Hi); try done; simpl.
    + eapply heap_ok_submap; [apply map_empty_subseteq|done].
  - destruct H as [Hh Hf Hn Hids Hdown Hdone Hstp Hsl Hcl Hwk] eqn:HH; clear HH; simpl in *.
    apply (sys_inv_timers _ _ _ _ _ _ _ _ H Hi); try done; simpl.
    + eapply heap_ok_submap; [apply map_empty_subseteq|done].
  - by destruct H.
Qed.

(** ** Refinement *)

Definition in_hand (s : scheduler) : list Z :=
  match s with SchedDue due => due | _ => [] end.

Record timer_rel (s : system) (a : atimers) : Prop := {
  t_inv : sys_inv s;
  t_workers : workers s ≠ [];
  t_active : active a = timers (state s);
  t_queue : queue a = ready_callbacks (state s) ++ in_hand (sched s);
  t_stopped : stopped a = shutting_down (state s);
}.

Lemma fires_run t m due m' q :
  fires t m due m' →
  run atimer_lts (mkATimers m q false) (Fire t <$> due)
    (mkATimers m' (q ++ (callback <$> due)) false).
Proof.
  intros Hf. revert q. induction Hf as [m Hn|m e due m' He Hd Hmin Hf IH]; intros q.
  - csimpl. rewrite app_nil_r. constructor.
  - csimpl. eapply (run_step _ _ [Fire t e]); [by apply a_fire|].
    specialize (IH (q ++ [callback e])). by rewrite <-app_assoc in IH.
Qed.

Lemma workers_step s es s' : timer_step s es s' → workers s ≠ [] → workers s' ≠ [].
Proof.
  assert (∀ ws : list worker, ws ≠ [] → wake_worker <$> ws ≠ []) as Hw by (by intros []).
  assert (∀ i w (ws : list worker), ws ≠ [] → <[i:=w]> ws ≠ []) as Hi by (by intros [] ? []).
  destruct 1 as [i c st t sc ws cs st' sc' ws' c' es Hc Hst|t' st t sc ws cs st' sc' ws' es Ht Hst
    |i w st t sc ws cs st' w' es Hi' Hst| | | | |]; simpl; intros Hne; try done; auto.
  - destruct c; simpl in Hst; simplify_eq; auto; repeat case_match; simplify_eq; auto.
  - destruct sc as [|d|[|cb due]| |]; simpl in Hst; simplify_eq; auto.
    destruct (schedulerRound _ _ _ _) as [[st1 []]|]; simplify_eq/=; auto.
Qed.

Lemma timer_rel_init n s :
  0 < n → timer_init n s → timer_rel s (mkATimers ∅ [] false).
Proof.
  intros Hn H. pose proof (sys_inv_init _ _ H) as Hinv. destruct H as (Hm & Hs & Hw & _).
  unfold make in Hm. case_match; [done|]. injection Hm as Hst.
  destruct s as [st t sc ws cs]. simpl in *. subst. split; try done. simpl.
  destruct (Z.to_nat n) eqn:He; [lia|done].
Qed.

(** [a] follows the events [es] into a specification state related to [s]. *)
Definition follows (a : atimers) (es : list event) (s : system) : Prop :=
  ∃ a', run atimer_lts a es a' ∧ timer_rel s a'.

Lemma follows_quiet s a :
  sys_inv s → workers s ≠ [] →
  active a = timers (state s) → queue a = ready_callbacks (state s) ++ in_hand (sched s) →
  stopped a = shutting_down (state s) → follows a [] s.
Proof. intros. exists a. split; [constructor|by split]. Qed.

Lemma follows_one a e a' s :
  atimer_step a [e] a' → sys_inv s → workers s ≠ [] →
  active a' = timers (state s) → queue a' = ready_callbacks (state s) ++ in_hand (sched s) →
  stopped a' = shutting_down (state s) → follows a [e] s.
Proof. intros. exists a'. split; [by apply run_one|by split]. Qed.

(** The client's calls: adding, waking the scheduler, stopping. *)
Lemma timer_rel_client st t sc ws cs c st' sc' ws' c' es cs' :
  sys_inv (mkSystem st t sc ws cs) → c ∈ cs →
  client_step st sc ws c = Some (st', sc', ws', c', es) →
  sys_inv (mkSystem st' t sc' ws' cs') → ws' ≠ [] →
  follows (mkATimers (timers st) (ready_callbacks st ++ in_hand sc) (shutting_down st)) es
    (mkSystem st' t sc' ws' cs').
Proof.
  intros [Hh Hf Hn Hids Hdown Hdone Hstp Hsl Hcl Hwk] Hc Hst Hinv' Hws'. simpl in *.
  pose proof (Hcl c Hc) as Hok.
  destruct c as [|d iv r cb| | | | | |]; simpl in Hst; [done|..].
  - rewrite (addTimer_locked_spec st Hn Hids) in Hst. destruct (shutting_down st) eqn:Hd.
    + simpl in Hst. simplify_eq. by eapply follows_one; [apply a_refused|..].
    + destruct (next_id st =? invalid_timer_id) eqn:He;
        [apply Z.eqb_eq in He; unfold invalid_timer_id in He; lia|].
      simpl in Hst. rewrite He in Hst. simplify_eq/=.
      eapply follows_one; [apply a_add; simpl|done..]; [by apply fresh_id|by apply Z.eqb_neq].
  - simplify_eq. apply follows_quiet; try done. by destruct sc.
  - simplify_eq. apply follows_quiet; try done. by destruct sc.
  - destruct sc; simplify_eq. by apply follows_quiet.
  - simplify_eq. by apply follows_quiet.
  - simplify_eq. by apply follows_quiet.
  - case_bool_decide as Hall; simplify_eq. destruct Hok as [-> Hstop].
    destruct ws' as [|w ws]; [done|]. apply Forall_cons in Hall as [-> _].
    destruct (Hwk WorkerDone ltac:(left)) as [Hrd _]. rewrite Hrd, Hdone by done. simpl.
    eapply follows_one; [by apply a_stopped|..]; try done; simpl.
    + by rewrite Hrd.
    + by rewrite Hdone.
Qed.

(** The scheduler's rounds and the hand-over of what it took. *)
Lemma timer_rel_sched st t t' sc ws cs st' sc' ws' es :
  sys_inv (mkSystem st t sc ws cs) → t ≤ t' →
  sched_step st sc ws t t' = Some (st', sc', ws', es) →
  sys_inv (mkSystem st' t' sc' ws' cs) → ws' ≠ [] →
  follows (mkATimers (timers st) (ready_callbacks st ++ in_hand sc) (shutting_down st)) es
    (mkSystem st' t' sc' ws' cs).
Proof.
  intros [Hh Hf _ _ _ _ _ _ _ _] Ht Hst Hinv' Hws'. simpl in *.
  destruct sc as [|d|[|cb due]| |]; simpl in Hst; simplify_eq; try by apply follows_quiet.
  - destruct (schedulerRound_spec st t t' Ht Hh Hf) as (st1 & v & Hround & H1 & Hrs & Hv).
    rewrite Hround in Hst. simpl in Hst. unfold same_rest in Hrs. simplify_eq Hrs.
    intros E1 E2 E3 E4 E5 E6 E7. destruct v as [|d|due]; simplify_eq.
    + destruct Hv as [Hd ->]. by apply follows_quiet.
    + destruct Hv as (Hd & Htm & _). apply follows_quiet; try done; simpl; congruence.
    + destruct Hv as (Hd & Hfs & _). rewrite Hd, app_nil_r.
      eexists. split; [by apply fires_run|]. split; try done; simpl; congruence.
  - apply follows_quiet; try done. simpl. by rewrite app_nil_r.
Qed.

(** The workers, which take a callback and run it. *)
Lemma timer_rel_worker st t sc cs w st' w' es ws' :
  worker_step st w = Some (st', w', es) →
  sys_inv (mkSystem st' t sc ws' cs) → ws' ≠ [] →
  follows (mkATimers (timers st) (ready_callbacks st ++ in_hand sc) (shutting_down st)) es
    (mkSystem st' t sc ws' cs).
Proof.
  intros Hst Hinv' Hws'. destruct w as [| |cb|]; simpl in Hst; simplify_eq;
    try by apply follows_quiet.
  unfold callbackSection in Hst. destruct (ready_callbacks st) as [|cb q] eqn:Hrd.
  - destruct (callback_stopping st); simplify_eq; apply follows_quiet; try done;
      simpl; by rewrite Hrd.
  - simplify_eq. simpl. by eapply follows_one; [apply a_start|..].
Qed.

Lemma timer_rel_cancel st t sc ws cs k st' b cs' :
  sys_inv (mkSystem st t sc ws cs) → cancel st k = (st', b) →
  sys_inv (mkSystem st' t sc ws cs') → ws ≠ [] →
  follows (mkATimers (timers st) (ready_callbacks st ++ in_hand sc) (shutting_down st))
    [if b then Cancelled k else NotFound k] (mkSystem st' t sc ws cs').
Proof.
  intros Hinv Hc Hinv' Hws. pose proof (v_ids _ Hinv) as Hids. simpl in Hids.
  unfold cancel in Hc. destruct (Z.eqb_spec k invalid_timer_id) as [->|Hk];
    [|destruct (timers st !! k) as [e|] eqn:He]; simplify_eq.
  - eapply follows_one; [apply a_not_found|done..].
    destruct (timers st' !! invalid_timer_id) as [e|] eqn:He; [|done].
    specialize (Hids _ _ He). unfold invalid_timer_id in Hids. lia.
  - by eapply follows_one; [eapply a_cancel|..].
  - by eapply follows_one; [apply a_not_found|..].
Qed.

Lemma timer_rel_step s a es s' :
  timer_rel s a → timer_step s es s' → in_range s' →
  ∃ a', run atimer_lts a es a' ∧ timer_rel s' a'.
Proof.
  intros [Hinv Hws Ha Hq Hst] Hs Hr. pose proof (sys_inv_step _ _ _ Hinv Hs Hr) as Hinv'.
  pose proof (workers_step _ _ _ Hs Hws) as Hws'. destruct a as [m q b]. simpl in *. subst.
  change (follows (mkATimers (timers (state s)) (ready_callbacks (state s) ++ in_hand (sched s))
    (shutting_down (state s))) es s').
  destruct Hs as [i c st t sc ws cs st' sc' ws' c' es Hi Hst|t' st t sc ws cs st' sc' ws' es Ht Hst
    |i w st t sc ws cs st' w' es Hi Hst|i d iv r cb d' cb' st t sc ws cs Hi Hc
    |i k st t sc ws cs st' b Hi Hc|i st t sc ws cs st' n Hi Hc|i st t sc ws cs Hi
    |t' st t sc ws cs Ht]; simpl in *.
  - eapply timer_rel_client; eauto using list_elem_of_lookup_2.
  - eapply timer_rel_sched; eauto.
  - eapply timer_rel_worker; eauto.
  - by apply follows_quiet.
  - eapply timer_rel_cancel; eauto.
  - unfold cancelAll in Hc. simplify_eq. by eapply follows_one; [apply a_cancel_all|..].
  - by eapply follows_one; [apply a_stop|..].
  - by apply follows_quiet.
Qed.

(** ** Traces *)

Definition adds (es : list event) : Z :=
  sum_of (λ e, match e with Add _ => 1 | _ => 0 end) es.
Definition removals (es : list event) : Z :=
  sum_of (λ e, match e with Cancelled _ => 1 | CancelledAll n => n | _ => 0 end) es.
Definition firings (es : list event) : Z :=
  sum_of (λ e, match e with Fire _ _ => 1 | _ => 0 end) es.
Definition one_shots (es : list event) : Z :=
  sum_of (λ e, match e with Fire _ e => if repeating e then 0 else 1 | _ => 0 end) es.
Definition fired_callbacks (es : list event) : list Z :=
  omap (λ e, match e with Fire _ e => Some (callback e) | _ => None end) es.
Definition started_callbacks (es : list event) : list Z :=
  omap (λ e, match e with Start cb => Some cb | _ => None end) es.

Lemma fire_map_size t e m :
  m !! id e = Some e → deadline e ≤ t →
  Z.of_nat (size (fire_map t e m)) = Z.of_nat (size m) - (if repeating e then 0 else 1).
Proof.
  intros He Hd. unfold fire_map, advance. rewrite (proj2 (Z.ltb_ge t (deadline e))) by lia.
  destruct (repeating e).
  - rewrite map_size_insert_Some by eauto. lia.
  - rewrite map_size_delete_Some by eauto.
    assert (size m ≠ 0%nat); [|lia]. intros Hz%map_size_empty_inv. by rewrite Hz in He.
Qed.

Lemma atimer_run_balance a es a' :
  run atimer_lts a es a' → (Stop ∉ es) →
  Z.of_nat (size (active a)) + adds es
  = Z.of_nat (size (active a')) + removals es + one_shots es.
Proof.
  unfold adds, removals, one_shots.
  induction 1 as [a|a e a1 es a2 Hs Hr IH]; intros Hn; [simpl; lia|].
  rewrite not_elem_of_app in Hn. destruct Hn as [Hn1 Hn2]. specialize (IH Hn2).
  rewrite !sum_of_app. destruct Hs as [e m q Hf|m q|i e m q b He|i m q b|m q b|t e m q He Hd Hm
    |cb m q b|m q b|m]; simpl in *; try lia.
  - rewrite map_size_insert_None in IH by done. lia.
  - rewrite map_size_delete_Some in IH by eauto.
    assert (size m ≠ 0%nat); [|lia]. intros Hz%map_size_empty_inv. by rewrite Hz in He.
  - rewrite map_size_empty in IH. lia.
  - rewrite fire_map_size in IH by done. destruct (repeating e); lia.
  - by destruct Hn1; left.
Qed.

Lemma atimer_run_fifo a es a' :
  run atimer_lts a es a' →
  queue a ++ fired_callbacks es = started_callbacks es ++ queue a'
  ∧ (stopped a = true ∧ queue a = [] ∨ Stopped ∈ es →
     stopped a' = true ∧ queue a' = []).
Proof.
  unfold fired_callbacks, started_callbacks.
  induction 1 as [a|a e a1 es a2 Hs Hr (IH1 & IH2)].
  { simpl. rewrite app_nil_r. split; [done|]. intros [?|Hin]; [done|].
    by apply elem_of_nil in Hin. }
  rewrite !omap_app, elem_of_app. split.
  - destruct Hs; simpl in *; try done; [|congruence]. by rewrite <-IH1, <-app_assoc.
  - destruct Hs; simpl in *; rewrite ?list_elem_of_singleton; intros Hq; apply IH2;
      try (by left); destruct Hq as [[? ?]|[?|?]]; simplify_eq; auto.
Qed.

(** The statistics after a step. *)
Definition tallied (st st' : State) (es : list event) : Prop :=
  scheduled st' = u64 (scheduled st + adds es)
  ∧ cancelled st' = u64 (cancelled st + removals es)
  ∧ fired st' = u64 (fired st + firings es).

Lemma tallied_none st st' es :
  in_u64 (scheduled st) → in_u64 (cancelled st) → in_u64 (fired st) →
  scheduled st' = scheduled st → cancelled st' = cancelled st → fired st' = fired st →
  adds es = 0 → removals es = 0 → firings es = 0 → tallied st st' es.
Proof. unfold tallied. intros ? ? ? -> -> -> -> -> ->. rewrite !Z.add_0_r, !u64_small; done. Qed.

Lemma fires_events t due :
  adds (Fire t <$> due) = 0 ∧ removals (Fire t <$> due) = 0
  ∧ firings (Fire t <$> due) = Z.of_nat (length due).
Proof.
  unfold adds, removals, firings. induction due as [|e due (H1 & H2 & H3)]; csimpl; [done|].
  rewrite H1, H2, H3. lia.
Qed.

Lemma timer_step_tallied s es s' :
  sys_inv s → timer_step s es s' → in_u64 (scheduled (state s)) → in_u64 (cancelled (state s)) →
  tallied (state s) (state s') es.
Proof.
  intros [Hh Hf Hn Hids _ _ _ _ _ _] Hs Hsc Hca.
  destruct Hs as [i c st t sc ws cs st' sc' ws' c' es Hi Hst|t' st t sc ws cs st' sc' ws' es Ht Hst
    |i w st t sc ws cs st' w' es Hi Hst|i d iv r cb d' cb' st t sc ws cs Hi Hc
    |i k st t sc ws cs st' b Hi Hc|i st t sc ws cs st' n Hi Hc|i st t sc ws cs Hi
    |t' st t sc ws cs Ht]; simpl in *; try (by apply tallied_none).
  - destruct c as [|d iv r cb| | | | | |]; simpl in Hst; [done|..];
      try (repeat case_match; simplify_eq; by apply tallied_none).
    rewrite (addTimer_locked_spec st Hn Hids) in Hst. destruct (shutting_down st).
    + simpl in Hst. simplify_eq. by apply tallied_none.
    + destruct (next_id st =? invalid_timer_id) eqn:He;
        [apply Z.eqb_eq in He; unfold invalid_timer_id in He; lia|].
      simpl in Hst. rewrite He in Hst. simplify_eq/=. unfold tallied, removals, firings; simpl.
      by rewrite !Z.add_0_r, !(u64_small (cancelled _)), !(u64_small (fired _)).
  - destruct sc as [|d|[|cb due]| |]; simpl in Hst; simplify_eq; try (by apply tallied_none).
    destruct (schedulerRound_spec st t t' Ht Hh Hf) as (st1 & v & Hround & H1 & Hrs & Hv).
    rewrite Hround in Hst. simpl in Hst. unfold same_rest in Hrs. simplify_eq Hrs.
    intros E1 E2 E3 E4 E5 E6 E7. destruct v as [|d|due]; simplify_eq.
    + destruct Hv as [_ ->]. by apply tallied_none.
    + destruct Hv as (_ & _ & Hfd & _). by apply tallied_none.
    + destruct Hv as (_ & _ & Hfd). destruct (fires_events t' due) as (Ea & Er & Ef).
      unfold tallied. rewrite E6, E7, Hfd, Ea, Er, Ef, !Z.add_0_r.
      by rewrite (u64_small (scheduled _)), (u64_small (cancelled _)).
  - destruct w as [| |cb|]; simpl in Hst; simplify_eq; try (by apply tallied_none).
    unfold callbackSection in Hst. destruct (ready_callbacks st) as [|cb q];
      [destruct (callback_stopping st)|]; simplify_eq; by apply tallied_none.
  - unfold cancel in Hc. destruct (k =? invalid_timer_id);
      [|destruct (timers st !! k) as [e|]]; simplify_eq; try (by apply tallied_none).
    unfold tallied, adds, removals, firings; simpl. rewrite !Z.add_0_r.
    by rewrite (u64_small (scheduled _)), (u64_small (fired _)).
  - unfold cancelAll in Hc. simplify_eq. unfold tallied, adds, removals, firings; simpl.
    rewrite !Z.add_0_r. by rewrite (u64_small (scheduled _)), (u64_small (fired _)).
Qed.

Lemma tallied_range st st' es :
  tallied st st' es → in_u64 (scheduled st') ∧ in_u64 (cancelled st') ∧ in_u64 (fired st').
Proof. intros (-> & -> & ->). auto with comp. Qed.

(** ** Properties *)

Section properties.
Context (n : Z) (Hn : 0 < n).

Lemma timer_run_rel s0 es s :
  timer_init n s0 → run (timer_lts n) s0 es s →
  ∃ a, run atimer_lts (mkATimers ∅ [] false) es a ∧ timer_rel s a.
Proof.
  intros H0 Hr. eapply (simulation_run _ _ timer_rel); [|done|by eapply timer_rel_init].
  intros s1 a o s2 H [Hs Hin]. by eapply timer_rel_step.
Qed.


(** C15: whatever the interleaving of clients, scheduler and workers, the timer
    behaves as a set of timers by id: a fresh id per scheduled timer, a
    cancelled or fired one-shot timer never fires again, a timer fires only
    after its deadline and before every later one, nothing fires once
    [shutdown] has begun, and the callbacks start in the order in which their
    timers fired, each once, all of them before [shutdown] returns. *)
Theorem timer_refines : refines (timer_lts n) atimer_lts.
Proof.
  apply (simulation_refines _ _ timer_rel).
  - intros s Hs. eexists. split; [done|]. by eapply timer_rel_init.
  - intros s a es s' H [Hs Hin]. by eapply timer_rel_step.
Qed.



(** The statistics account for every timer.  In any run [scheduled],
    [cancelled] and [fired] count, modulo [2^64], the timers accepted, removed
    by [cancel] or [cancelAll], and fired; and before any shutdown a timer that
    was accepted is cancelled, was a one-shot that has fired, or is active. *)
Theorem timer_stats_account s0 es s
    (H0 : timer_init n s0) (Hr : run (timer_lts n) s0 es s) :
  stats_scheduled (stats (state s)) = u64 (adds es)
  ∧ stats_cancelled (stats (state s)) = u64 (removals es)
  ∧ stats_fired (stats (state s)) = u64 (firings es)
  ∧ ((Stop ∉ es) →
     adds es = removals es + one_shots es + stats_active (stats (state s))).
Proof.
  destruct (timer_run_rel _ _ _ H0 Hr) as (a & Ha & [_ _ Hact _ _]).
  assert (tallied (state s0) (state s) es) as (T1 & T2 & T3).
  { assert (in_u64 (scheduled (state s0)) ∧ in_u64 (cancelled (state s0))) as [Hsc Hca].
    { destruct H0 as (Hm & _). unfold make in Hm. case_match; [done|]. by injection Hm as <-. }
    pose proof (sys_inv_init _ _ H0) as Hinv. clear H0 Ha Hact. revert Hinv Hsc Hca.
    induction Hr as [s|s o s' os s'' [Hs Hin] Hr IH]; intros Hinv Hsc Hca.
    - apply tallied_none; try done. by destruct Hinv.
    - pose proof (timer_step_tallied _ _ _ Hinv Hs Hsc Hca) as Ht.
      destruct (tallied_range _ _ _ Ht) as (? & ? & ?). destruct Ht as (T1 & T2 & T3).
      destruct IH as (I1 & I2 & I3); [by eapply sys_inv_step|done|done|].
      unfold tallied, adds, removals, firings in *. rewrite !sum_of_app.
      rewrite I1, I2, I3, T1, T2, T3, !u64_add_l, !Z.add_assoc. done. }
  unfold make, stats in *. destruct H0 as (Hm & _). simpl. unfold make in Hm.
  case_match; [done|]. injection Hm as Hst. rewrite <-Hst in *. simpl in *.
  split_and!; [done..|]. intros Hstop. pose proof (atimer_run_balance _ _ _ Ha Hstop) as Hb.
  rewrite Hact in Hb. simpl in Hb. rewrite map_size_empty in Hb. lia.
Qed.

(** Callbacks are neither lost, duplicated nor reordered: in any run those
    started are the first of those fired, in order, the others are queued or in
    the scheduler's hands, and once [shutdown] has returned all have started. *)
Theorem timer_callbacks_fifo s0 es s
    (H0 : timer_init n s0) (Hr : run (timer_lts n) s0 es s) :
  fired_callbacks es
    = started_callbacks es ++ ready_callbacks (state s) ++ in_hand (sched s)
  ∧ (Stopped ∈ es → fired_callbacks es = started_callbacks es).
Proof.
  destruct (timer_run_rel _ _ _ H0 Hr) as (a & Ha & [_ _ _ Hq _]).
  destruct (atimer_run_fifo _ _ _ Ha) as [Hf Hst]. simpl in Hf. rewrite <-Hq. split; [done|].
  intros Hin. destruct Hst as [_ He]; [by right|]. by rewrite Hf, He, app_nil_r.
Qed.
End properties.

(** Rescheduling terminates and neither drifts nor bursts: a repeating
    timer that fires at [now], however late, is next due at the first time
    after [now] that is a whole number of periods after its deadline. *)
Theorem timer_next_deadline e now (Hi : 0 < interval e) (Hd : deadline e ≤ now) :
  ∃ next k, nextDeadline e now = Some next
    ∧ next = deadline e + k * ms (interval e) ∧ 0 < k
    ∧ now < next ≤ now + ms (interval e).
Proof.
  rewrite nextDeadline_spec by done. eexists _, _. split; [done|].
  assert (0 < ms (interval e)) as Hs by (unfold ms; lia).
  pose proof (Z.div_pos (now - deadline e) (ms (interval e))) as Hq.
  split_and!; [unfold next_tick; by rewrite Z.mul_comm|lia|by apply next_tick_after|].
  unfold next_tick. rewrite Z.max_r by lia.
  pose proof (Z.div_mod (now - deadline e) (ms (interval e))).
  pose proof (Z.mod_pos_bound (now - deadline e) (ms (interval e))). lia.
Qed.

(** ** Witnesses *)

Definition fresh_state : State := mkState 1 [] ∅ false 1 [] false 0 0 0.
Definition start : system := mkSystem fresh_state 0 SchedRound [WorkerTop] [Outside].
Definition once : TimerEntry := mkEntry 1 5 0 false 1 7.
Definition one_timer : system :=
  mkSystem (addTimer_locked fresh_state 5 0 false 7).1 0 SchedRound [WorkerTop] [Notifying].

Lemma start_init : timer_init 1 start.
Proof. split_and!; try reflexivity. by repeat constructor. Qed.

Lemma one_timer_run : run (timer_lts 1) start [Add once] one_timer.
Proof.
  eapply (run_step _ _ []).
  - split; [by apply (step_schedule 0 5 0 false (Some 7) 5 7)|reflexivity].
  - apply run_one. split; [|reflexivity].
    exact (step_client 0 (Adding 5 0 false 7) fresh_state 0 SchedRound [WorkerTop]
      [Adding 5 0 false 7] (addTimer_locked fresh_state 5 0 false 7).1 SchedRound [WorkerTop]
      Notifying [Add once] eq_refl eq_refl).
Qed.


Lemma timer_refines_witness : refines (timer_lts 1) atimer_lts.
Proof. apply (timer_refines 1). reflexivity. Defined.



Lemma timer_stats_account_witness : adds [Add once] = 1.
Proof.
  destruct (timer_stats_account 1 ltac:(reflexivity) _ _ _ start_init one_timer_run)
    as (_ & _ & _ & H).
  rewrite H; [reflexivity|]. intros [?|Hin]%elem_of_cons; [done|]. by apply elem_of_nil in Hin.
Defined.

Lemma timer_callbacks_fifo_witness : ready_callbacks (state one_timer) = [].
Proof.
  destruct (timer_callbacks_fifo 1 ltac:(reflexivity) _ _ _ start_init one_timer_run) as [H _].
  simpl in H. reflexivity.
Defined.

Lemma timer_next_deadline_witness :
  ∃ next k, nextDeadline (mkEntry 1 0 2 true 1 7) 9000000 = Some next
    ∧ next = 0 + k * ms 2 ∧ 0 < k ∧ 9000000 < next ≤ 9000000 + ms 2.
Proof. apply (timer_next_deadline (mkEntry 1 0 2 true 1 7) 9000000); done. Defined.
