(* ===== verification/LeakDetector.v ===== *)
(** * memory_leak_detector: the registry behind the global new and delete

    [foundation::MemoryLeakDetector]
    (memory_leak_detector/src/memory_leak_detector.cpp): the registry of live
    allocations under its mutex, the global [operator new] and [operator delete]
    overloads that feed it, the reports, and [ScopedMemoryLeakCheck].  The C
    library's allocator is outside the program: it is a parameter that answers
    each request, of which the theorems only use that it never hands out the
    null pointer or a block that is still allocated.  Pointers are numbers and
    0 is the null pointer. *)

From S2P Require Import Prelude.
Open Scope Z_scope.

Record MemoryAllocationRecord := mkRecord {
  address : Z;
  size : Z;
  file : string;
  line : Z;
  array_allocation : bool;
  aligned_allocation : bool;
  alignment : Z;
  sequence : Z;
  thread_id : Z;
}.

Record MemoryLeakStats := mkStats {
  live_allocations : Z;
  live_bytes : Z;
  total_allocations : Z;
  total_bytes : Z;
  total_frees : Z;
  peak_live_bytes : Z;
  mismatched_deletes : Z;
}.
#[export] Instance eta_MemoryLeakStats : Eta MemoryLeakStats := λ s,
  mkStats (live_allocations s) (live_bytes s) (total_allocations s) (total_bytes s)
    (total_frees s) (peak_live_bytes s) (mismatched_deletes s).
#[export] Instance record_eq_dec : EqDecision MemoryAllocationRecord.
Proof. solve_decision. Defined.

Record MemoryLeakSnapshot := mkSnapshot {
  snapshot_stats : MemoryLeakStats;
  snapshot_sequence : Z;
}.

(** The registry; [live] is the field [live_allocations] of the source. *)
Record State := mkState {
  live : gmap Z MemoryAllocationRecord;
  stats_ : MemoryLeakStats;
  next_sequence : Z;
  enabled_ : bool;
}.
#[export] Instance eta_State : Eta State := λ s,
  mkState (live s) (stats_ s) (next_sequence s) (enabled_ s).

(** ** The registry *)

Definition no_stats : MemoryLeakStats := mkStats 0 0 0 0 0 0 0.
Definition initial : State := mkState ∅ no_stats 1 false.

Definition setEnabled (st : State) (b : bool) : State := st <| enabled_ := b |>.
Definition enabled (st : State) : bool := enabled_ st.
Definition stats (st : State) : MemoryLeakStats := stats_ st.
Definition snapshot (st : State) : MemoryLeakSnapshot :=
  mkSnapshot (stats_ st) (next_sequence st).
Definition hasLeaks (st : State) : bool := 0 <? live_allocations (stats st).

(** [live_bytes] after removing an allocation of [n] bytes. *)
Definition drop_bytes (live_bytes n : Z) : Z :=
  if n <=? live_bytes then live_bytes ⊖ n else 0.

Definition hasLeaksSince (st : State) (snap : MemoryLeakSnapshot) : bool :=
  existsb (λ e, snapshot_sequence snap <=? sequence e.2) (map_to_list (live st)).

(** [std::sort] by sequence number. *)
Definition by_sequence (a b : MemoryAllocationRecord) : Prop := sequence a ≤ sequence b.
#[export] Instance by_sequence_dec a b : Decision (by_sequence a b).
Proof. unfold by_sequence. apply _. Defined.
#[export] Instance by_sequence_total : Total by_sequence.
Proof. intros a b. unfold by_sequence. lia. Qed.
#[export] Instance by_sequence_trans : Transitive by_sequence.
Proof. intros a b c. unfold by_sequence. lia. Qed.

Definition liveAllocations (st : State) : list MemoryAllocationRecord :=
  merge_sort by_sequence (map_to_list (live st)).*2.

Definition leaksSince (st : State) (snap : MemoryLeakSnapshot) : list MemoryAllocationRecord :=
  merge_sort by_sequence
    (filter (λ r, snapshot_sequence snap ≤ sequence r) (map_to_list (live st)).*2).

(** What a report prints: nothing to say, or its figures, the first records and
    how many more there are. *)
Inductive report_text :=
  | NoLeaks
  | Leaks (s : MemoryLeakStats) (shown : list MemoryAllocationRecord) (more : Z)
  | LeaksSince (count bytes : Z) (shown : list MemoryAllocationRecord) (more : Z).

Definition report (st : State) (max_records : Z) : report_text :=
  let records := liveAllocations st in
  match records with
  | [] => NoLeaks
  | _ =>
      let shown := Z.min max_records (Z.of_nat (length records)) in
      Leaks (stats st) (take (Z.to_nat shown) records) (Z.of_nat (length records) - shown)
  end.

Definition reportSince (st : State) (snap : MemoryLeakSnapshot) (max_records : Z)
    : report_text :=
  let records := leaksSince st snap in
  let bytes := foldl (λ n r, n ⊕ size r) 0 records in
  match records with
  | [] => NoLeaks
  | _ =>
      let shown := Z.min max_records (Z.of_nat (length records)) in
      LeaksSince (Z.of_nat (length records)) bytes (take (Z.to_nat shown) records)
        (Z.of_nat (length records) - shown)
  end.

Definition allocationKind (r : MemoryAllocationRecord) : string :=
  if array_allocation r && aligned_allocation r then "new[] aligned"
  else if array_allocation r then "new[]"
  else if aligned_allocation r then "new aligned"
  else "new".

Definition reset (st : State) : State :=
  st <| live := ∅ |> <| stats_ := no_stats |> <| next_sequence := 1 |>.

(** Requests to the C library. *)
Inductive request := Malloc (n : Z) | PosixMemalign (al n : Z).

(** The blocks the C library has handed out, and the registry. *)
Record Memory := mkMemory {
  blocks : gmap Z request;
  detector : State;
}.
#[export] Instance eta_Memory : Eta Memory := λ m, mkMemory (blocks m) (detector m).

Section detector.
(** [__STDCPP_DEFAULT_NEW_ALIGNMENT__]. *)
Context (kDefaultNewAlignment : Z).

(** [oom]: inserting the record runs out of memory, which is caught. *)
Definition recordAllocation (st : State) (oom : bool) (addr n : Z) (f : option string)
    (ln : Z) (array : bool) (al thread : Z) : State :=
  if (addr =? 0) || negb (enabled st) then st
  else
    let record := mkRecord addr n (default "unknown" f) ln array
      (kDefaultNewAlignment <? al) al (next_sequence st) thread in
    let st := st <| next_sequence ::= λ s, s ⊕ 1 |> in
    let s := stats_ st in
    let counted (s : MemoryLeakStats) :=
      let bytes := live_bytes s ⊕ n in
      s <| live_bytes := bytes |> <| total_allocations ::= λ k, k ⊕ 1 |>
        <| total_bytes ::= λ k, k ⊕ n |>
        <| peak_live_bytes ::= λ p, Z.max p bytes |> in
    match live st !! addr with
    | Some old =>
        st <| live ::= <[addr := record]> |>
           <| stats_ := counted (s <| live_bytes ::= λ b, drop_bytes b (size old) |>) |>
    | None =>
        if oom then st
        else st <| live ::= <[addr := record]> |>
                <| stats_ := counted (s <| live_allocations ::= λ k, k ⊕ 1 |>) |>
    end.

(** The alignment to free with. *)
Definition recordDeallocation (st : State) (addr : Z) (array : bool) (fallback : Z)
    : State * Z :=
  if addr =? 0 then (st, fallback)
  else match live st !! addr with
  | None => (st, fallback)
  | Some record =>
      let rest := delete addr (live st) in
      let s := stats_ st in
      let s := s <| mismatched_deletes ::=
        λ k, if bool_decide (array_allocation record = array) then k else k ⊕ 1 |> in
      (st <| live := rest |>
          <| stats_ := s <| live_bytes ::= λ b, drop_bytes b (size record) |>
                         <| live_allocations := u64 (Z.of_nat (base.size rest)) |>
                         <| total_frees ::= λ k, k ⊕ 1 |> |>,
       if alignment record =? 0 then fallback else alignment record)
  end.

(** ** The global operators *)

Definition request_of (n al : Z) : request :=
  let n := if n =? 0 then 1 else n in
  if kDefaultNewAlignment <? al then PosixMemalign al n else Malloc n.

Definition allocateRaw (os : request → option Z) (m : Memory) (n al : Z)
    : outcome (Memory * Z) :=
  let r := request_of n al in
  match os r with
  | None => Throws BadAlloc
  | Some p => Returns (m <| blocks ::= <[p := r]> |>, p)
  end.

(** Both branches call [std::free] on POSIX. *)
Definition freeRaw (m : Memory) (p al : Z) : Memory :=
  if p =? 0 then m else m <| blocks ::= delete p |>.

(** [depth] is the thread's [g_detector_depth]. *)
Definition insideDetector (depth : Z) : bool := 0 <? depth.

Definition allocateMemory (os : request → option Z) (oom : bool) (depth thread : Z)
    (m : Memory) (n : Z) (f : option string) (ln : Z) (array : bool) (al : Z)
    : outcome (Memory * Z) :=
  '(m, p) ← allocateRaw os m n al;
  Returns (if insideDetector depth then m
           else m <| detector := recordAllocation (detector m) oom p n f ln array al thread |>, p).

Definition deallocateMemory (depth : Z) (m : Memory) (p : Z) (array : bool) (fallback : Z)
    : Memory :=
  if p =? 0 then m
  else if insideDetector depth then freeRaw m p fallback
  else let '(det, al) := recordDeallocation (detector m) p array fallback in
       freeRaw (m <| detector := det |>) p al.

(** The overloads: [al] is 0 without an alignment, [f] the file of the
    debugging forms, [nothrow] the forms that return null on failure. *)
Definition operator_new (os : request → option Z) (oom : bool) (thread : Z) (m : Memory)
    (n : Z) (array : bool) (al : Z) (f : option string) (ln : Z) (nothrow : bool)
    : outcome (Memory * Z) :=
  match allocateMemory os oom 0 thread m n f ln array al with
  | Throws e => if nothrow then Returns (m, 0) else Throws e
  | Returns r => Returns r
  end.

Definition operator_delete (m : Memory) (p : Z) (array : bool) (al : Z) : Memory :=
  deallocateMemory 0 m p array al.

(** ** ScopedMemoryLeakCheck *)

Record ScopedMemoryLeakCheck := mkCheck {
  previous_enabled_ : bool;
  baseline_ : MemoryLeakSnapshot;
}.

Definition openCheck (st : State) (enable_detector : bool) : State * ScopedMemoryLeakCheck :=
  let st' := if enable_detector then setEnabled st true else st in
  (st', mkCheck (enabled st) (snapshot st')).

Definition closeCheck (st : State) (c : ScopedMemoryLeakCheck) : State :=
  setEnabled st (previous_enabled_ c).

Definition checkHasLeaks (st : State) (c : ScopedMemoryLeakCheck) : bool :=
  hasLeaksSince st (baseline_ c).

(** ** Programs *)

(** What a program does with its memory outside the detector; [os] and [oom]
    are the environment's answers to that call. *)
Inductive call :=
  | New (os : request → option Z) (oom : bool) (thread n : Z) (array : bool) (al : Z)
      (f : option string) (ln : Z) (nothrow : bool)
  | Delete (p : Z) (array : bool) (al : Z)
  | Enable (b : bool)
  | ResetAll.

Definition perform (m : Memory) (c : call) : Memory :=
  match c with
  | New os oom thread n array al f ln nothrow =>
      match operator_new os oom thread m n array al f ln nothrow with
      | Returns (m, _) => m
      | Throws _ => m
      end
  | Delete p array al => operator_delete m p array al
  | Enable b => m <| detector ::= λ st, setEnabled st b |>
  | ResetAll => m <| detector ::= reset |>
  end.

(** The answers of the C library are fresh blocks. *)
Definition answers_fresh (m : Memory) (c : call) : Prop :=
  match c with
  | New os _ _ n _ al _ _ _ =>
      0 ≤ n ∧ ∀ p, os (request_of n al) = Some p → p ≠ 0 ∧ blocks m !! p = None
  | _ => True
  end.

Inductive executes : Memory → list call → Memory → Prop :=
  | executes_nil m : executes m [] m
  | executes_cons m c cs m' :
      answers_fresh m c → executes (perform m c) cs m' → executes m (c :: cs) m'.

(** ** Specification: a ledger of the tracked blocks, in allocation order *)

Record ledger := mkLedger {
  entries : list MemoryAllocationRecord;
  number : Z;                     (* sequence number of the next entry *)
  tracking : bool;
  allocations : Z;
  allocated_bytes : Z;
  frees : Z;
  mismatched : Z;
  peak : Z;
}.

Definition bytes_of (l : list MemoryAllocationRecord) : Z := sum_of size l.

Definition ledger_stats (l : ledger) : MemoryLeakStats :=
  mkStats (Z.of_nat (length (entries l))) (bytes_of (entries l)) (allocations l)
    (allocated_bytes l) (frees l) (peak l) (mismatched l).

Definition book (l : ledger) (c : call) : ledger :=
  match c with
  | New os oom thread n array al f ln _ =>
      match os (request_of n al) with
      | Some p =>
          if negb (tracking l) then l
          else if oom
          then mkLedger (entries l) (number l + 1) true (allocations l) (allocated_bytes l)
                 (frees l) (mismatched l) (peak l)
          else
            let es := entries l ++ [mkRecord p n (default "unknown" f) ln array
              (kDefaultNewAlignment <? al) al (number l) thread] in
            mkLedger es (number l + 1) true (allocations l + 1) (allocated_bytes l + n)
              (frees l) (mismatched l) (Z.max (peak l) (bytes_of es))
      | None => l
      end
  | Delete p array _ =>
      let gone := filter (λ r, address r = p) (entries l) in
      mkLedger (filter (λ r, address r ≠ p) (entries l)) (number l) (tracking l)
        (allocations l) (allocated_bytes l) (frees l + Z.of_nat (length gone))
        (mismatched l
         + Z.of_nat (length (filter (λ r, array_allocation r ≠ array) gone)))
        (peak l)
  | Enable b =>
      mkLedger (entries l) (number l) b (allocations l) (allocated_bytes l) (frees l)
        (mismatched l) (peak l)
  | ResetAll => mkLedger [] 1 (tracking l) 0 0 0 0 0
  end.

Definition blank_ledger : ledger := mkLedger [] 1 false 0 0 0 0 0.

(** The memory agrees with the ledger after at most [k] calls for [t] bytes. *)
Record agrees (m : Memory) (l : ledger) (k t : Z) : Prop := {
  a_live a r : live (detector m) !! a = Some r ↔ r ∈ entries l ∧ address r = a;
  a_sorted : StronglySorted (λ a b, sequence a < sequence b) (entries l);
  a_number r : r ∈ entries l → sequence r < number l;
  a_next : next_sequence (detector m) = number l;
  a_enabled : enabled (detector m) = tracking l;
  a_stats : stats (detector m) = ledger_stats l;
  a_blocks r : r ∈ entries l → address r ≠ 0 ∧ is_Some (blocks m !! address r) ∧ 0 ≤ size r;
  a_count : allocations l = Z.of_nat (length (entries l)) + frees l;
  a_bytes : bytes_of (entries l) ≤ allocated_bytes l ∧ 0 ≤ allocated_bytes l ≤ t
    ∧ bytes_of (entries l) ≤ peak l;
  a_range : 1 ≤ number l ≤ k + 1 ∧ 0 ≤ allocations l ≤ k ∧ 0 ≤ mismatched l ≤ frees l;
}.
End detector.

(** ** The ledger lemmas *)

Section ledger.
Implicit Types (es : list MemoryAllocationRecord) (r : MemoryAllocationRecord).

Lemma sorted_NoDup es : StronglySorted (λ a b, sequence a < sequence b) es → NoDup es.
Proof.
  induction 1 as [|r es Hs IH Hr]; constructor; [|done]. intros Hin.
  rewrite Forall_forall in Hr. specialize (Hr _ Hin). lia.
Qed.

Lemma sorted_by_sequence es :
  StronglySorted (λ a b, sequence a < sequence b) es → StronglySorted by_sequence es.
Proof.
  induction 1 as [|r es Hs IH Hr]; constructor; [done|].
  eapply Forall_impl; [done|]. unfold by_sequence. simpl. lia.
Qed.

(** Entries of the ledger have distinct sequence numbers. *)
Lemma sorted_inj es r r' :
  StronglySorted (λ a b, sequence a < sequence b) es → r ∈ es → r' ∈ es →
  sequence r = sequence r' → r = r'.
Proof.
  induction 1 as [|x es Hs IH Hx]; intros Hr Hr' Heq; [by apply elem_of_nil in Hr|].
  rewrite Forall_forall in Hx.
  apply elem_of_cons in Hr as [->|Hr], Hr' as [->|Hr']; auto.
  - specialize (Hx _ Hr'). lia.
  - specialize (Hx _ Hr). lia.
Qed.

(** Sorting the values of the map recovers the ledger. *)
Lemma merge_sort_ledger es l :
  StronglySorted (λ a b, sequence a < sequence b) es → l ≡ₚ es →
  merge_sort by_sequence l = es.
Proof.
  intros Hs Hp. apply (StronglySorted_unique_strong by_sequence).
  - intros x y Hx Hy Hxy Hyx. rewrite merge_sort_Permutation, Hp in Hx.
    apply (sorted_inj es); try done. unfold by_sequence in *. lia.
  - apply StronglySorted_merge_sort; apply _.
  - by apply sorted_by_sequence.
  - by rewrite merge_sort_Permutation.
Qed.

Lemma map_values_ledger (m : gmap Z MemoryAllocationRecord) es :
  NoDup es → (∀ a r, m !! a = Some r ↔ r ∈ es ∧ address r = a) →
  (map_to_list m).*2 ≡ₚ es.
Proof.
  intros Hn Hm. apply NoDup_Permutation; [|done|].
  - apply NoDup_fmap_2_strong; [|apply NoDup_map_to_list].
    intros [a r] [b r'] Ha%elem_of_map_to_list Hb%elem_of_map_to_list Heq. simpl in *. subst.
    apply Hm in Ha as [_ <-]. by apply Hm in Hb as [_ <-].
  - intros r. rewrite list_elem_of_fmap. split.
    + intros ([a r'] & -> & Ha%elem_of_map_to_list). by apply Hm in Ha as [? _].
    + intros Hr. exists (address r, r). split; [done|]. by apply elem_of_map_to_list, Hm.
Qed.

Lemma sorted_filter es (P : MemoryAllocationRecord → Prop) `{∀ r, Decision (P r)} :
  StronglySorted (λ a b, sequence a < sequence b) es →
  StronglySorted (λ a b, sequence a < sequence b) (filter P es).
Proof.
  induction 1 as [|r es Hs IH Hr]; [constructor|]. rewrite filter_cons.
  case_decide; [|done]. constructor; [done|]. apply Forall_forall. intros x Hx.
  apply list_elem_of_filter in Hx as [_ Hx]. rewrite Forall_forall in Hr. auto.
Qed.

Lemma sorted_snoc es r :
  StronglySorted (λ a b, sequence a < sequence b) es → (∀ x, x ∈ es → sequence x < sequence r) →
  StronglySorted (λ a b, sequence a < sequence b) (es ++ [r]).
Proof.
  intros Hs Hr. apply StronglySorted_app_2; [|done|repeat constructor].
  intros x y Hx ->%list_elem_of_singleton. auto.
Qed.

Lemma filter_absent es a : (∀ r, r ∈ es → address r ≠ a) →
  filter (λ r, address r = a) es = [] ∧ filter (λ r, address r ≠ a) es = es.
Proof.
  induction es as [|x es IH]; intros H; [done|].
  destruct IH as [H1 H2]; [intros r Hr; apply H; by right|].
  assert (address x ≠ a) by (apply H; left).
  by rewrite filter_cons_False, filter_cons_True, H1, H2.
Qed.

Lemma filter_iff_elem es (P Q : MemoryAllocationRecord → Prop)
    `{∀ r, Decision (P r), ∀ r, Decision (Q r)} :
  (∀ r, r ∈ es → P r ↔ Q r) → filter P es = filter Q es.
Proof.
  induction es as [|x es IH]; intros HPQ; [done|]. rewrite !filter_cons, IH.
  - pose proof (HPQ x ltac:(left)). do 2 case_decide; tauto.
  - intros r Hr. apply HPQ. by right.
Qed.

(** The entry of a block is the only one with its address. *)
Lemma filter_present es r :
  NoDup es → (∀ x, x ∈ es → address x = address r → x = r) → r ∈ es →
  filter (λ x, address x = address r) es = [r]
  ∧ bytes_of (filter (λ x, address x ≠ address r) es) = bytes_of es - size r
  ∧ Z.of_nat (length (filter (λ x, address x ≠ address r) es)) = Z.of_nat (length es) - 1.
Proof.
  induction es as [|x es IH]; intros Hn Hu Hr; [by apply elem_of_nil in Hr|].
  apply NoDup_cons in Hn as [Hx Hn]. destruct (decide (x = r)) as [->|Hne].
  - destruct (filter_absent es (address r)) as [H1 H2].
    { intros y Hy Ha. assert (y = r) as -> by (apply Hu; [by right|done]). done. }
    rewrite filter_cons_True, H1 by done. rewrite !filter_cons_False by tauto. rewrite H2.
    unfold bytes_of. simpl. split_and!; [done|lia|lia].
  - assert (address x ≠ address r) as Ha by (intros Ha; apply Hne, Hu; [left|done]).
    apply elem_of_cons in Hr as [|Hr]; [congruence|].
    destruct IH as (H1 & H2 & H3); [done|intros y Hy; apply Hu; by right|done|].
    rewrite filter_cons_False, !filter_cons_True by done. rewrite H1.
    unfold bytes_of in *. simpl. split_and!; [done|lia|lia].
Qed.
End ledger.

Section agreement.
Context (kDefaultNewAlignment : Z).
Local Abbreviation perform := (perform kDefaultNewAlignment).
Local Abbreviation book := (book kDefaultNewAlignment).
Local Abbreviation request_of := (request_of kDefaultNewAlignment).

(** The bytes a call asks for. *)
Definition asked (c : call) : Z := match c with New _ _ _ n _ _ _ _ _ => n | _ => 0 end.

Lemma drop_bytes_exact a b : 0 ≤ b ≤ a → a < two64 → drop_bytes a b = a - b.
Proof. intros. unfold drop_bytes. rewrite (proj2 (Z.leb_le b a)) by lia. apply u64_small. lia. Qed.

Lemma bytes_of_nonneg (es : list MemoryAllocationRecord) :
  (∀ r, r ∈ es → 0 ≤ size r) → 0 ≤ bytes_of es.
Proof.
  unfold bytes_of. induction es as [|r es IH]; intros H; simpl; [done|].
  pose proof (H r ltac:(left)). specialize (IH ltac:(intros x Hx; apply H; by right)). lia.
Qed.

Lemma agrees_initial : agrees (mkMemory ∅ initial) blank_ledger 0 0.
Proof.
  split; simpl; try done; try lia.
  - intros a r. rewrite lookup_empty, elem_of_nil. split; [done|by intros []].
  - constructor.
  - intros r Hr. by apply elem_of_nil in Hr.
  - intros r Hr. by apply elem_of_nil in Hr.
Qed.

Lemma agrees_weaken m l k t k' t' : agrees m l k t → k ≤ k' → t ≤ t' → agrees m l k' t'.
Proof. intros [H1 H2 H3 H4 H5 H6 H7 H8 H9 H10] ? ?. split; try done; lia. Qed.

Lemma agrees_blocks m l k t b :
  agrees m l k t → (∀ r, r ∈ entries l → is_Some (b !! address r)) →
  agrees (m <| blocks := b |>) l k t.
Proof.
  intros [H1 H2 H3 H4 H5 H6 H7 H8 H9 H10] Hb. split; try done.
  intros r Hr. destruct (H7 r Hr) as (? & ? & ?). by split_and!; [|apply Hb|].
Qed.

(** A tracked allocation at a fresh address. *)
Lemma agrees_record m l k t p n f ln array al thread q :
  agrees m l k t → tracking l = true → p ≠ 0 → 0 ≤ n → k + 1 < two64 - 1 → t + n < two64 →
  blocks m !! p = None →
  let r := mkRecord p n (default "unknown" f) ln array (kDefaultNewAlignment <? al) al
    (number l) thread in
  let es := entries l ++ [r] in
  agrees
    (m <| blocks ::= <[p := q]> |>
       <| detector := recordAllocation kDefaultNewAlignment (detector m) false p n f ln array al
            thread |>)
    (mkLedger es (number l + 1) true (allocations l + 1) (allocated_bytes l + n) (frees l)
      (mismatched l) (Z.max (peak l) (bytes_of es)))
    (k + 1) (t + n).
Proof.
  intros [H1 H2 H3 H4 H5 H6 H7 H8 H9 H10] Htr Hp Hn Hk Ht Hb r es.
  assert (live (detector m) !! p = None) as Hnone.
  { destruct (live (detector m) !! p) as [x|] eqn:Hx; [|done]. apply H1 in Hx as [Hx Ha].
    destruct (H7 _ Hx) as (_ & [y Hy] & _). congruence. }
  assert (bytes_of es = bytes_of (entries l) + n) as Hbytes.
  { unfold bytes_of, es. rewrite sum_of_app. simpl. lia. }
  assert (0 ≤ bytes_of (entries l)) as Hb0 by (apply bytes_of_nonneg; apply H7).
  unfold recordAllocation. rewrite (proj2 (Z.eqb_neq p 0) Hp), H5, Htr. cbn [orb negb].
  cbn [live stats_ next_sequence enabled_ set_field].
  rewrite Hnone. unfold stats in H6. rewrite H6, H4.
  split; cbn [detector blocks live stats stats_ next_sequence enabled enabled_ set_field
    entries number tracking allocations allocated_bytes frees mismatched peak].
  - intros a x. fold r. unfold es. rewrite elem_of_app, list_elem_of_singleton.
    destruct (decide (a = p)) as [->|Hne].
    + rewrite lookup_insert_eq. split; [intros [= <-]; by split; [right|]|].
      intros [[Hx| ->] Ha]; [|done]. exfalso.
      assert (live (detector m) !! p = Some x) by (by apply H1). congruence.
    + rewrite lookup_insert_ne by done. rewrite H1. split; [intros []; auto|].
      intros [[?| ->] Ha]; [done|]. by destruct Hne.
  - by apply sorted_snoc.
  - intros x [Hx| ->%list_elem_of_singleton]%elem_of_app; [specialize (H3 _ Hx); lia|simpl; lia].
  - rewrite H4. apply u64_small. lia.
  - unfold enabled in H5. by rewrite H5.
  - unfold ledger_stats; unfold set_field; simpl. rewrite Hbytes.
    unfold es. rewrite length_app. simpl. rewrite !u64_small by lia. f_equal. lia.
  - intros x [Hx| ->%list_elem_of_singleton]%elem_of_app.
    + destruct (H7 x Hx) as (? & Hs & ?). split_and!; [done| |done].
      destruct (decide (address x = p)) as [->|]; [by rewrite lookup_insert_eq|].
      by rewrite lookup_insert_ne.
    + by rewrite lookup_insert_eq.
  - unfold es. rewrite length_app. simpl. lia.
  - lia.
  - lia.
Qed.

(** An allocation whose record does not fit in memory: untracked. *)
Lemma agrees_oom m l k t p n f ln array al thread q :
  agrees m l k t → tracking l = true → p ≠ 0 → k + 1 < two64 - 1 → blocks m !! p = None →
  agrees
    (m <| blocks ::= <[p := q]> |>
       <| detector := recordAllocation kDefaultNewAlignment (detector m) true p n f ln array al
            thread |>)
    (mkLedger (entries l) (number l + 1) true (allocations l) (allocated_bytes l) (frees l)
      (mismatched l) (peak l))
    (k + 1) t.
Proof.
  intros [H1 H2 H3 H4 H5 H6 H7 H8 H9 H10] Htr Hp Hk Hb.
  assert (live (detector m) !! p = None) as Hnone.
  { destruct (live (detector m) !! p) as [x|] eqn:Hx; [|done]. apply H1 in Hx as [Hx Ha].
    destruct (H7 _ Hx) as (_ & [y Hy] & _). congruence. }
  unfold recordAllocation. rewrite (proj2 (Z.eqb_neq p 0) Hp), H5, Htr. cbn [orb negb].
  cbn [live set_field]. rewrite Hnone. split; simpl; try done; try lia.
  - intros r Hr. specialize (H3 r Hr). lia.
  - rewrite H4. apply u64_small. lia.
  - by rewrite <-Htr.
  - intros r Hr. destruct (H7 r Hr) as (? & Hs & ?). split_and!; [done| |done].
    destruct (decide (address r = p)) as [->|]; [by rewrite lookup_insert_eq|].
    by rewrite lookup_insert_ne.
Qed.

(** A block the registry does not know leaves the ledger alone. *)
Lemma book_unknown l p array al :
  (∀ r, r ∈ entries l → address r ≠ p) →
  book l (Delete p array al) = l.
Proof.
  intros H. destruct (filter_absent (entries l) p H) as [H1 H2]. destruct l; simpl in *.
  rewrite H1, H2. simpl. f_equal; lia.
Qed.

Lemma agrees_unknown m l k t p array al :
  agrees m l k t → live (detector m) !! p = None →
  agrees (operator_delete m p array al) (book l (Delete p array al)) k t.
Proof.
  intros H Hp. assert (∀ r, r ∈ entries l → address r ≠ p) as Hne.
  { intros r Hr Ha. assert (live (detector m) !! p = Some r) by (by apply (a_live _ _ _ _ H)).
    congruence. }
  rewrite book_unknown by done. unfold operator_delete, deallocateMemory.
  destruct (p =? 0) eqn:Hz; [done|]. unfold insideDetector. simpl.
  unfold recordDeallocation. rewrite Hz, Hp. unfold freeRaw. rewrite Hz.
  apply (agrees_blocks _ _ _ _ (delete p (blocks m))) in H.
  - destruct m. exact H.
  - intros r Hr. rewrite lookup_delete_ne by (by apply not_eq_sym, Hne).
    by apply (a_blocks _ _ _ _ H).
Qed.

Lemma agrees_known m l k t p r array al :
  agrees m l k t → live (detector m) !! p = Some r → k < two64 - 1 → t < two64 →
  agrees (operator_delete m p array al) (book l (Delete p array al)) k t.
Proof.
  intros [H1 H2 H3 H4 H5 H6 H7 H8 H9 H10] Hp Hk Ht.
  apply H1 in Hp as Hr. destruct Hr as [Hr Ha]. destruct (H7 _ Hr) as (Hp0 & _ & Hsz).
  rewrite Ha in Hp0.
  destruct (filter_present (entries l) r (sorted_NoDup _ H2)) as (F1 & F2 & F3); [|done|].
  { intros x Hx Hxa. assert (live (detector m) !! p = Some x) by (apply H1; split; congruence).
    congruence. }
  rewrite Ha in F1, F2, F3.
  assert (0 ≤ bytes_of (filter (λ x, address x ≠ p) (entries l))) as Hb0.
  { apply bytes_of_nonneg. intros x [_ Hx]%list_elem_of_filter. by apply H7. }
  assert (Z.of_nat (base.size (delete p (live (detector m))))
    = Z.of_nat (length (filter (λ x, address x ≠ p) (entries l)))) as Hsize.
  { rewrite <-length_map_to_list, <-(length_fmap snd). f_equal.
    apply Permutation_length, map_values_ledger.
    - apply sorted_NoDup, sorted_filter, H2.
    - intros a x. rewrite lookup_delete_Some, H1, list_elem_of_filter. split.
      + intros (Hpa & Hx & <-). done.
      + intros ((Hxp & Hx) & <-). done. }
  unfold operator_delete, deallocateMemory, insideDetector.
  rewrite (proj2 (Z.eqb_neq p 0) Hp0). simpl.
  unfold recordDeallocation. rewrite (proj2 (Z.eqb_neq p 0) Hp0), Hp.
  unfold freeRaw. rewrite (proj2 (Z.eqb_neq p 0) Hp0). unfold stats in H6.
  split; cbn [detector blocks live stats stats_ next_sequence enabled enabled_ set_field
    entries number tracking allocations allocated_bytes frees mismatched peak book]; try done.
  - intros a x. rewrite lookup_delete_Some, H1, list_elem_of_filter. split.
    + by intros (Hpa & Hx & <-).
    + by intros ((Hxp & Hx) & <-).
  - by apply sorted_filter.
  - intros x [_ Hx]%list_elem_of_filter. auto.
  - rewrite H6, Hsize. unfold ledger_stats, set_field; simpl. rewrite F1, F2. simpl.
    rewrite drop_bytes_exact, !u64_small by lia.
    f_equal. rewrite filter_cons. case_bool_decide as Hb.
    + rewrite decide_False by tauto. simpl. lia.
    + rewrite decide_True by done. simpl. lia.
  - intros x [Hxp Hx]%list_elem_of_filter. destruct (H7 x Hx) as (? & ? & ?).
    split_and!; [done| |done]. by rewrite lookup_delete_ne by done.
  - rewrite F1. simpl length. lia.
  - rewrite F2. lia.
  - rewrite F1. split; [lia|]. split; [lia|]. rewrite filter_cons.
    case_decide; simpl; lia.
Qed.

(** Every call keeps the memory and the ledger in agreement. *)
Lemma agrees_perform m l k t c :
  agrees m l k t → answers_fresh kDefaultNewAlignment m c →
  k + 1 < two64 - 1 → t + asked c < two64 →
  agrees (perform m c) (book l c) (k + 1) (t + asked c).
Proof.
  intros H Hf Hk Ht. destruct c as [os oom th n array al f ln nothrow|p array al|b|].
  - destruct Hf as [Hn Hfresh]. cbn [asked] in *. unfold LeakDetector.perform, operator_new,
      allocateMemory, allocateRaw, LeakDetector.book.
    destruct (os (request_of n al)) as [p|] eqn:Hos; cycle 1.
    { simpl. destruct nothrow; simpl; apply (agrees_weaken _ _ _ _ _ _ H); lia. }
    destruct (Hfresh p eq_refl) as [Hp Hb]. simpl.
    destruct (tracking l) eqn:Htr; simpl.
    + destruct oom.
      * apply (agrees_weaken _ _ (k + 1) t); [by apply agrees_oom|lia|lia].
      * by apply agrees_record.
    + unfold recordAllocation. rewrite (a_enabled _ _ _ _ H), Htr, orb_true_r.
      apply (agrees_weaken _ _ k t); [|lia|lia].
      apply (agrees_blocks _ _ _ _ (<[p := request_of n al]> (blocks m))) in H;
        [by destruct m|].
      intros r Hr. destruct (decide (address r = p)) as [->|];
        [by rewrite lookup_insert_eq|].
      rewrite lookup_insert_ne by done. by apply (a_blocks _ _ _ _ H).
  - simpl asked in *. apply (agrees_weaken _ _ k t); [|lia|lia].
    destruct (live (detector m) !! p) as [r|] eqn:Hp.
    + apply (agrees_known _ _ _ _ _ _ _ _ H Hp); lia.
    + by apply agrees_unknown.
  - destruct H as [H1 H2 H3 H4 H5 H6 H7 H8 H9 H10]. simpl. split; simpl; try done; lia.
  - destruct H as [H1 H2 H3 H4 H5 H6 H7 H8 H9 H10].
    split; simpl; try done; try lia; try (intros r Hr; by apply elem_of_nil in Hr).
    + intros a r. rewrite lookup_empty, elem_of_nil. split; [done|by intros []].
    + constructor.
Qed.

Lemma executes_asked m cs m' : executes kDefaultNewAlignment m cs m' → 0 ≤ sum_of asked cs.
Proof.
  induction 1 as [m|m c cs m' Hf He IH]; simpl; [done|]. destruct c; simpl in *; lia.
Qed.

Lemma agrees_executes m l k t cs m' :
  agrees m l k t → executes kDefaultNewAlignment m cs m' →
  k + Z.of_nat (length cs) < two64 - 1 → t + sum_of asked cs < two64 →
  agrees m' (foldl book l cs) (k + Z.of_nat (length cs)) (t + sum_of asked cs).
Proof.
  intros H He. revert l k t H.
  induction He as [m|m c cs m' Hf He IH]; intros l k t H Hk Ht; simpl in *.
  - apply (agrees_weaken _ _ _ _ _ _ H); lia.
  - pose proof (executes_asked _ _ _ He) as Hs.
    assert (0 ≤ asked c) by (destruct c; simpl in *; lia).
    replace (k + Z.of_nat (S (length cs))) with (k + 1 + Z.of_nat (length cs)) by lia.
    rewrite Z.add_assoc. apply IH; [|lia|lia]. apply agrees_perform; try done; lia.
Qed.

(** ** What the queries answer *)

Lemma agrees_values m l k t :
  agrees m l k t → (map_to_list (live (detector m))).*2 ≡ₚ entries l.
Proof. intros [H1 H2 _ _ _ _ _ _ _ _]. by apply map_values_ledger; [apply sorted_NoDup|]. Qed.

Lemma agrees_liveAllocations m l k t :
  agrees m l k t → liveAllocations (detector m) = entries l.
Proof.
  intros H. unfold liveAllocations. apply merge_sort_ledger; [by eapply a_sorted|].
  by eapply agrees_values.
Qed.

Lemma agrees_leaksSince m l k t snap :
  agrees m l k t →
  leaksSince (detector m) snap = filter (λ r, snapshot_sequence snap ≤ sequence r) (entries l).
Proof.
  intros H. unfold leaksSince. apply merge_sort_ledger; [by eapply sorted_filter, a_sorted|].
  by rewrite (agrees_values _ _ _ _ H).
Qed.

Lemma agrees_hasLeaksSince m l k t snap :
  agrees m l k t →
  hasLeaksSince (detector m) snap = true
  ↔ ∃ r, r ∈ entries l ∧ snapshot_sequence snap ≤ sequence r.
Proof.
  intros H. unfold hasLeaksSince. rewrite existsb_exists. split.
  - intros ([a r] & Hin & Hle%Z.leb_le). simpl in Hle. exists r. split; [|done].
    apply list_elem_of_In, elem_of_map_to_list in Hin. by apply (a_live _ _ _ _ H) in Hin as [? _].
  - intros (r & Hr & Hle). exists (address r, r). split; [|by apply Z.leb_le].
    apply list_elem_of_In, elem_of_map_to_list. by apply (a_live _ _ _ _ H).
Qed.

(** The ledger grows at its end: older entries keep their numbers. *)
Lemma book_older l c r : c ≠ ResetAll →
  (r ∈ entries (book l c) → r ∈ entries l ∨ number l ≤ sequence r)
  ∧ number l ≤ number (book l c).
Proof.
  intros Hc.
  destruct c as [os oom th n array al f ln nothrow|p array al|b|]; simpl;
    [|split; [|lia]| |done].
  - destruct (os (request_of n al)); [|split; [by left|lia]].
    destruct (tracking l); simpl; [|split; [by left|lia]].
    destruct oom; simpl; (split; [|lia]); [by left|].
    intros [?| ->%list_elem_of_singleton]%elem_of_app; [by left|right; simpl; lia].
  - intros [_ ?]%list_elem_of_filter. by left.
  - split; [by left|lia].
Qed.

Lemma books_older l cs r : ResetAll ∉ cs →
  (r ∈ entries (foldl book l cs) → r ∈ entries l ∨ number l ≤ sequence r)
  ∧ number l ≤ number (foldl book l cs).
Proof.
  revert l. induction cs as [|c cs IH]; intros l Hc; simpl; [split; [by left|lia]|].
  apply not_elem_of_cons in Hc as [Hc Hcs].
  destruct (IH (book l c) Hcs) as [H1 H2]. destruct (book_older l c r (not_eq_sym Hc)) as [H3 H4].
  split; [|lia]. intros Hr. destruct (H1 Hr) as [?|?]; [auto|right; lia].
Qed.

(** What [operator new] does, by the C library's answer. *)
Lemma operator_new_cases os oom th m n array al f ln nothrow :
  (os (request_of n al) = None ∧
   operator_new kDefaultNewAlignment os oom th m n array al f ln nothrow
   = if nothrow then Returns (m, 0) else Throws BadAlloc)
  ∨ ∃ p m1, os (request_of n al) = Some p
    ∧ operator_new kDefaultNewAlignment os oom th m n array al f ln nothrow = Returns (m1, p)
    ∧ blocks m1 = <[p := request_of n al]> (blocks m).
Proof.
  unfold operator_new, allocateMemory, allocateRaw.
  destruct (os (request_of n al)) as [p|]; [right|by left; destruct nothrow].
  exists p. eexists. by split_and!.
Qed.

Lemma operator_delete_blocks m p array al :
  p ≠ 0 → blocks (operator_delete m p array al) = delete p (blocks m).
Proof.
  intros Hp%Z.eqb_neq. unfold operator_delete, deallocateMemory, insideDetector.
  rewrite Hp. simpl. destruct (recordDeallocation _ _ _ _) as [d a].
  unfold freeRaw. by rewrite Hp.
Qed.

(** A fresh block leaves the ledger as it entered it. *)
Lemma book_new_delete l c p array' al' m k t :
  agrees m l k t → answers_fresh kDefaultNewAlignment m c →
  match c with
  | New os oom th n array al f ln nothrow =>
      os (request_of n al) = Some p →
      let l2 := book (book l c) (Delete p array' al') in
      entries l2 = entries l ∧ number l ≤ number l2
      ∧ mismatched l2 = mismatched l
        + (if tracking l && negb oom && negb (bool_decide (array = array')) then 1 else 0)
  | _ => True
  end.
Proof.
  intros A Hf. destruct c as [os oom th n array al f ln nothrow| | |]; try done.
  intros Hos. destruct (proj2 Hf p Hos) as [Hp Hb].
  assert (∀ r, r ∈ entries l → address r ≠ p) as Hne.
  { intros r Hr Ha. destruct (a_blocks _ _ _ _ A r Hr) as (_ & [x Hx] & _). congruence. }
  destruct (filter_absent (entries l) p Hne) as [F1 F2].
  simpl. rewrite Hos. destruct (tracking l); simpl; [destruct oom; simpl|].
  - rewrite F1, F2. split_and!; [done|lia|simpl; lia].
  - rewrite !filter_app, F1, F2. simpl.
    rewrite filter_cons_False by (simpl; tauto).
    rewrite (filter_cons_True (λ r, address r = p)) by done.
    rewrite !filter_nil, app_nil_r. split_and!; [done|lia|].
    rewrite filter_cons. simpl. repeat case_decide; case_bool_decide; simpl; try done; lia.
  - rewrite F1, F2. split_and!; [done|lia|simpl; lia].
Qed.

(** ** Properties *)

(** C18: the registry reports exactly the leaks.  After any program of [new],
    [delete], [setEnabled] and [reset] calls, whatever the C library answers, the live
    allocations are, in allocation order, the blocks allocated while tracking
    was on and not deleted since; the reports, [hasLeaks], [hasLeaksSince] and
    all seven statistics agree with that ledger, every allocation counted is
    live or freed, and the peak bounds the live bytes. *)
Theorem leak_detector_exact cs m snap
    (He : executes kDefaultNewAlignment (mkMemory ∅ initial) cs m)
    (Hn : Z.of_nat (length cs) < two64 - 1) (Hb : sum_of asked cs < two64) :
  let l := foldl book blank_ledger cs in
  let st := detector m in
  liveAllocations st = entries l
  ∧ leaksSince st snap = filter (λ r, snapshot_sequence snap ≤ sequence r) (entries l)
  ∧ hasLeaks st = bool_decide (entries l ≠ [])
  ∧ hasLeaksSince st snap = bool_decide (leaksSince st snap ≠ [])
  ∧ stats st = ledger_stats l
  ∧ total_allocations (stats st) = live_allocations (stats st) + total_frees (stats st)
  ∧ live_bytes (stats st) ≤ peak_live_bytes (stats st).
Proof.
  intros l st. pose proof (agrees_executes _ _ _ _ _ _ agrees_initial He Hn Hb) as H.
  fold l in H. pose proof (a_stats _ _ _ _ H) as Hs. subst st.
  rewrite (agrees_leaksSince _ _ _ _ snap H).
  split_and!; [by eapply agrees_liveAllocations|done| | |done| |].
  - unfold hasLeaks. rewrite Hs. simpl. destruct (entries l); [done|].
    rewrite bool_decide_true by done. apply Z.ltb_lt. simpl. lia.
  - apply eq_true_iff_eq. rewrite (agrees_hasLeaksSince _ _ _ _ snap H), bool_decide_eq_true.
    split.
    + intros (r & Hr & Hle) Hnil. apply (filter_nil_not_elem_of _ _ _ Hnil Hle Hr).
    + intros Hne. destruct (filter _ _) as [|r rs] eqn:Hf; [done|].
      assert (r ∈ filter (λ r, snapshot_sequence snap ≤ sequence r) (entries l)) as Hin
        by (rewrite Hf; left). apply list_elem_of_filter in Hin as [? ?]. eauto.
  - rewrite Hs. exact (a_count _ _ _ _ H).
  - rewrite Hs. by apply (a_bytes _ _ _ _ H).
Qed.

(** C19: the registry never reports freed memory.  Every reported leak is a
    block the C library has handed out and not taken back, no two leaks share
    an address, and deleting an address removes it from the report. *)
Theorem leak_detector_safe cs m p array al
    (He : executes kDefaultNewAlignment (mkMemory ∅ initial) cs m)
    (Hn : Z.of_nat (length cs) < two64 - 1) (Hb : sum_of asked cs < two64) :
  (∀ r, r ∈ liveAllocations (detector m) → address r ≠ 0 ∧ is_Some (blocks m !! address r))
  ∧ NoDup (address <$> liveAllocations (detector m))
  ∧ (∀ r, r ∈ liveAllocations (detector (operator_delete m p array al)) →
       r ∈ liveAllocations (detector m) ∧ address r ≠ p).
Proof.
  pose proof (agrees_executes _ _ _ _ _ _ agrees_initial He Hn Hb) as H.
  rewrite (agrees_liveAllocations _ _ _ _ H).
  set (l := foldl book blank_ledger cs) in *. split_and!.
  - intros r Hr. destruct (a_blocks _ _ _ _ H r Hr) as (? & ? & ?). done.
  - apply NoDup_fmap_2_strong; [|by eapply sorted_NoDup, a_sorted].
    intros x y Hx Hy Heq. assert (live (detector m) !! address x = Some x) as H1
      by (by apply (a_live _ _ _ _ H)).
    assert (live (detector m) !! address x = Some y) as H2 by (by apply (a_live _ _ _ _ H)).
    congruence.
  - intros r. assert (agrees (operator_delete m p array al) (book l (Delete p array al))
      (0 + Z.of_nat (length cs)) (0 + sum_of asked cs)) as H'.
    { destruct (live (detector m) !! p) as [x|] eqn:Hp.
      - apply (agrees_known _ _ _ _ _ _ _ _ H Hp); lia.
      - by apply agrees_unknown. }
    rewrite (agrees_liveAllocations _ _ _ _ H'). by intros [? ?]%list_elem_of_filter.
Qed.

(** A scoped check is exact.  The leaks it reports are, in order, the
    allocations that are live and were not live when the scope was entered, it
    has leaks exactly when there are some, and leaving the scope restores the
    tracking flag, provided the program does not [reset] the detector inside. *)
Theorem leak_scope_exact cs0 m0 enable st check cs1 m1
    (H0 : executes kDefaultNewAlignment (mkMemory ∅ initial) cs0 m0)
    (Hc : openCheck (detector m0) enable = (st, check))
    (H1 : executes kDefaultNewAlignment (m0 <| detector := st |>) cs1 m1)
    (Hr : ResetAll ∉ cs1)
    (Hn : Z.of_nat (length cs0) + 1 + Z.of_nat (length cs1) < two64 - 1)
    (Hb : sum_of asked cs0 + sum_of asked cs1 < two64) :
  leaksSince (detector m1) (baseline_ check)
    = filter (λ r, r ∉ liveAllocations (detector m0)) (liveAllocations (detector m1))
  ∧ (checkHasLeaks (detector m1) check = true ↔
     ∃ r, r ∈ liveAllocations (detector m1) ∧ r ∉ liveAllocations (detector m0))
  ∧ enabled (closeCheck (detector m1) check) = enabled (detector m0).
Proof.
  pose proof (executes_asked _ _ _ H0). pose proof (executes_asked _ _ _ H1).
  pose proof (agrees_executes _ _ _ _ _ _ agrees_initial H0 ltac:(lia) ltac:(lia)) as A0.
  set (l0 := foldl book blank_ledger cs0) in *.
  assert (∃ l, entries l = entries l0 ∧ number l = number l0
    ∧ agrees (m0 <| detector := st |>) l (Z.of_nat (length cs0) + 1) (sum_of asked cs0)
    ∧ baseline_ check = snapshot (detector m0)) as (l & El & Nl & A & Hsnap).
  { unfold openCheck in Hc. injection Hc as <- <-. simpl. destruct enable.
    - exists (book l0 (Enable true)). split_and!; try done.
      apply (agrees_weaken _ _ (Z.of_nat (length cs0) + 1) (sum_of asked cs0 + 0)); [|lia|lia].
      by apply (agrees_perform m0 l0 _ _ (Enable true) A0); simpl; [|lia|lia].
    - exists l0. split_and!; try done.
      replace (m0 <| detector := detector m0 |>) with m0 by (by destruct m0).
      apply (agrees_weaken _ _ _ _ _ _ A0); lia. }
  pose proof (agrees_executes _ _ _ _ _ _ A H1 Hn Hb) as A1.
  set (l1 := foldl book l cs1) in *.
  assert (∀ r, r ∈ entries l1 →
    snapshot_sequence (baseline_ check) ≤ sequence r ↔ r ∉ entries l0) as Hnew.
  { intros r Hin1. rewrite Hsnap. simpl. rewrite (a_next _ _ _ _ A0). split.
    - intros Hle Hin. pose proof (a_number _ _ _ _ A0 _ Hin). lia.
    - intros Hni. destruct (proj1 (books_older l cs1 r Hr) Hin1) as [?|?]; [congruence|lia]. }
  rewrite (agrees_leaksSince _ _ _ _ _ A1), !(agrees_liveAllocations _ _ _ _ A1),
    !(agrees_liveAllocations _ _ _ _ A0).
  split_and!.
  - by apply filter_iff_elem.
  - unfold checkHasLeaks. rewrite (agrees_hasLeaksSince _ _ _ _ _ A1).
    split; intros (r & Hin & Hx); exists r; (split; [done|]); by apply Hnew.
  - unfold openCheck in Hc. by injection Hc as _ <-.
Qed.
(** C20: allocating and deleting again is a no-op on the registry.  After any
    program, a [new] that the C library cannot serve throws [std::bad_alloc], or
    returns null in the nothrow form, and changes nothing; one that it serves
    returns the block, and deleting that block restores the C library's blocks,
    the live allocations and the live figures, and counts a mismatch exactly
    when the block was tracked and the array forms of [new] and [delete]
    differ. *)
Theorem leak_new_delete_roundtrip cs m os oom th n array al f ln nothrow array' al'
    (He : executes kDefaultNewAlignment (mkMemory ∅ initial) cs m)
    (Hf : answers_fresh kDefaultNewAlignment m (New os oom th n array al f ln nothrow))
    (Hn : Z.of_nat (length cs) + 2 < two64 - 1) (Hb : sum_of asked cs + n < two64) :
  match operator_new kDefaultNewAlignment os oom th m n array al f ln nothrow with
  | Throws e => os (request_of n al) = None ∧ nothrow = false ∧ e = BadAlloc
  | Returns (m1, p) =>
      if bool_decide (p = 0) then os (request_of n al) = None ∧ nothrow = true ∧ m1 = m
      else
        let m2 := operator_delete m1 p array' al' in
        os (request_of n al) = Some p
        ∧ blocks m1 !! p = Some (request_of n al) ∧ blocks m2 = blocks m
        ∧ liveAllocations (detector m2) = liveAllocations (detector m)
        ∧ live_allocations (stats (detector m2)) = live_allocations (stats (detector m))
        ∧ live_bytes (stats (detector m2)) = live_bytes (stats (detector m))
        ∧ mismatched_deletes (stats (detector m2))
          = mismatched_deletes (stats (detector m))
            + (if enabled (detector m) && negb oom && negb (bool_decide (array = array'))
               then 1 else 0)
  end.
Proof.
  pose proof (proj1 Hf) as Hn0.
  pose proof (agrees_executes _ _ _ _ _ _ agrees_initial He ltac:(lia) ltac:(lia)) as A.
  set (l := foldl book blank_ledger cs) in *. set (c := New os oom th n array al f ln nothrow) in *.
  pose proof (agrees_perform _ _ _ _ c A Hf ltac:(lia) ltac:(unfold c; simpl; lia)) as A1.
  destruct (operator_new_cases os oom th m n array al f ln nothrow)
    as [(Hos & ->)|(p & m1 & Hos & Heq & Hblocks)].
  { destruct nothrow; [by rewrite bool_decide_true|done]. }
  destruct (proj2 Hf p Hos) as [Hp Hfresh]. rewrite Heq, bool_decide_false by done.
  unfold LeakDetector.perform, c in A1. rewrite Heq in A1.
  pose proof (agrees_perform _ _ _ _ (Delete p array' al') A1 I ltac:(lia)
    ltac:(unfold c; simpl; lia)) as A2. cbn [LeakDetector.perform] in A2.
  destruct (book_new_delete l c p array' al' m _ _ A Hf Hos) as (E & N & M).
  cbn zeta. split_and!; [done|by rewrite Hblocks, lookup_insert_eq| | | | |].
  - rewrite operator_delete_blocks, Hblocks by done. by rewrite delete_insert_id.
  - by rewrite (agrees_liveAllocations _ _ _ _ A2), (agrees_liveAllocations _ _ _ _ A).
  - rewrite (a_stats _ _ _ _ A2), (a_stats _ _ _ _ A).
    exact (f_equal (λ es, Z.of_nat (length es)) E).
  - rewrite (a_stats _ _ _ _ A2), (a_stats _ _ _ _ A).
    exact (f_equal bytes_of E).
  - rewrite (a_stats _ _ _ _ A2), (a_stats _ _ _ _ A), (a_enabled _ _ _ _ A).
    exact M.
Qed.
End agreement.

(** ** Concrete runs *)

(** A C library that answers every request with block [p]. *)
Definition answer (p : Z) : request → option Z := λ _, Some p.
Definition new_at (p n : Z) : call := New (answer p) false 7 n false 0 None 0 false.

Definition scope_program : list call :=
  [Enable true; new_at 64 8; New (answer 128) false 7 24 true 32 (Some "a.cpp") 12 false;
   Delete 64 true 0; Enable false; new_at 192 5].

(** A snapshot does not survive [reset].  Sequence numbers restart at 1,
    so a block allocated after a [reset] gets a number below a snapshot taken
    before it: [hasLeaksSince] and [leaksSince] miss it although it is live. *)
Theorem leak_reset_hides_leaks :
  let m0 := foldl (perform 16) (mkMemory ∅ initial) [Enable true; new_at 64 8; new_at 96 8] in
  let m1 := foldl (perform 16) m0 [ResetAll; new_at 128 40] in
  let snap := snapshot (detector m0) in
  address <$> liveAllocations (detector m1) = [128]
  ∧ hasLeaks (detector m1) = true
  ∧ leaksSince (detector m1) snap = []
  ∧ hasLeaksSince (detector m1) snap = false.
Proof. by vm_compute. Qed.

Ltac run_executes :=
  repeat first [apply executes_nil | eapply executes_cons];
  try (split; [done|]; intros p [= <-]; by split); try done.

Lemma leak_detector_exact_witness :
  ∃ m, executes 16 (mkMemory ∅ initial) scope_program m
  ∧ (address <$> liveAllocations (detector m)) = [128]
  ∧ liveAllocations (detector m) = entries (foldl (book 16) blank_ledger scope_program).
Proof.
  eexists. split; [unfold scope_program; run_executes|]. split; [by vm_compute|].
  refine (proj1 (leak_detector_exact 16 scope_program _ (mkSnapshot no_stats 1) _ _ _));
    [unfold scope_program; run_executes|done|done].
Defined.

Lemma leak_detector_safe_witness :
  ∃ m, executes 16 (mkMemory ∅ initial) scope_program m
  ∧ NoDup (address <$> liveAllocations (detector m))
  ∧ ∀ r, r ∈ liveAllocations (detector (operator_delete m 128 true 32)) → address r ≠ 128.
Proof.
  exists (foldl (perform 16) (mkMemory ∅ initial) scope_program).
  assert (executes 16 (mkMemory ∅ initial) scope_program
    (foldl (perform 16) (mkMemory ∅ initial) scope_program)) as He
    by (unfold scope_program; run_executes).
  destruct (leak_detector_safe 16 scope_program _ 128 true 32 He eq_refl eq_refl) as (_ & H & Hd).
  split; [done|]. split; [done|]. intros r Hr. exact (proj2 (Hd r Hr)).
Defined.

Definition scope_inside : list call := [new_at 320 100; Delete 128 true 0; new_at 352 1].

(** Two blocks leak inside the scope, one allocated before it is freed. *)
Lemma leak_scope_exact_witness :
  let m0 := foldl (perform 16) (mkMemory ∅ initial) scope_program in
  let '(st, check) := openCheck (detector m0) true in
  let m1 := foldl (perform 16) (m0 <| detector := st |>) scope_inside in
  (address <$> leaksSince (detector m1) (baseline_ check)) = [320; 352]
  ∧ leaksSince (detector m1) (baseline_ check)
    = filter (λ r, r ∉ liveAllocations (detector m0)) (liveAllocations (detector m1))
  ∧ enabled (closeCheck (detector m1) check) = false.
Proof.
  split; [by vm_compute|].
  refine (let H := leak_scope_exact 16 scope_program _ true _ _ scope_inside _ _ eq_refl _ _ _ _
    in conj (proj1 H) (proj2 (proj2 H))); [| | |done|done].
  - unfold scope_program. run_executes.
  - unfold scope_inside. run_executes.
  - repeat (apply not_elem_of_cons; split; [done|]). apply not_elem_of_nil.
Defined.

Lemma leak_new_delete_roundtrip_witness :
  let m := foldl (perform 16) (mkMemory ∅ initial) [Enable true; new_at 64 8] in
  match operator_new 16 (answer 128) false 7 m 40 true 0 None 0 true with
  | Returns (m1, p) =>
      blocks (operator_delete m1 p false 0) = blocks m
      ∧ mismatched_deletes (stats (detector (operator_delete m1 p false 0))) = 1
  | Throws _ => False
  end.
Proof.
  refine (let H := leak_new_delete_roundtrip 16 [Enable true; new_at 64 8] _ (answer 128) false 7
    40 true 0 None 0 true false 0 _ _ _ _ in
    conj (proj1 (proj2 (proj2 H))) (proj2 (proj2 (proj2 (proj2 (proj2 (proj2 H)))))));
    [| |done|done].
  - run_executes.
  - split; [done|]. intros p [= <-]. by split.
Defined.
