(* ===== verification/Kernel.v ===== *)
(** * The epoll interface of the operating system

    The reactors call [epoll_create1], [epoll_ctl], [epoll_wait], [eventfd],
    [read], [write] and [close], and allocate the buffer they give [epoll_wait].
    This file is what they rely on: a class of kernels with these calls, the
    documented laws of the calls (descriptors are not duplicated, so a closed
    one leaves every interest list), and one
    executable kernel that satisfies the laws, on which concrete runs are
    evaluated.  A descriptor is a number; an errno value is a constructor. *)

From S2P Require Import Prelude.
From stdpp Require Import fin_maps.
Open Scope Z_scope.

Definition EPOLLIN : Z := 1.
Definition EPOLLOUT : Z := 4.
Definition EPOLLERR : Z := 8.
Definition EPOLLHUP : Z := 16.
Definition EPOLLRDHUP : Z := 8192.
Definition EPOLLONESHOT : Z := 1073741824.
Definition EPOLLET : Z := 2147483648.

Inductive errno :=
  | EINTR | ENOENT | EEXIST | EBADF | EMFILE | EINVAL
  | EAGAIN | ECONNABORTED | ECONNRESET.
#[export] Instance errno_eq_dec : EqDecision errno.
Proof. solve_decision. Defined.

Inductive ctl_op := CtlAdd | CtlMod | CtlDel.
#[export] Instance ctl_op_eq_dec : EqDecision ctl_op.
Proof. solve_decision. Defined.

(** [epoll_wait]: the reported descriptors with their event bits, an error, or
    the caller sleeps because nothing is ready yet. *)
Inductive wait_result := Ready (l : list (Z * Z)) | WaitError (e : errno) | Blocks.

Class Kernel (K : Type) := {
  open_fds : K → gset Z;
  is_eventfd : K → Z → bool;
  interest : K → Z → gmap Z Z;      (* of an epoll instance: descriptor ↦ events *)
  counter : K → Z → Z;              (* of an eventfd *)
  epoll_create1 : K → K * (Z + errno);
  eventfd : K → K * (Z + errno);
  close_fd : K → Z → K;
  epoll_ctl : K → Z → ctl_op → Z → Z → K * option errno;
  epoll_wait : K → Z → Z → Z → K * wait_result;   (* instance, maxevents, timeout *)
  write_one : K → Z → K;            (* write of the 8-byte value 1 *)
  read_eight : K → Z → K * bool;    (* were 8 bytes read? *)
  allocates : K → Z → bool;         (* has the heap room for so many [epoll_event]s? *)
}.

(** Calls that neither open nor close descriptors. *)
Definition same_files `{Kernel K} (k k' : K) : Prop :=
  open_fds k' = open_fds k ∧ ∀ fd, is_eventfd k' fd = is_eventfd k fd.

(** Calls on eventfd [fd], or on none, leave the rest of the kernel alone. *)
Definition only_counter `{Kernel K} (k k' : K) (fd : Z) : Prop :=
  same_files k k' ∧ (∀ ep, interest k' ep = interest k ep)
  ∧ ∀ fd', fd' ≠ fd → counter k' fd' = counter k fd'.

(** A new descriptor, and nothing else. *)
Definition only_new `{Kernel K} (k k' : K) (fd : Z) : Prop :=
  0 ≤ fd ∧ (fd ∉ open_fds k) ∧ open_fds k' = {[fd]} ∪ open_fds k
  ∧ ∀ fd', fd' ≠ fd → interest k' fd' = interest k fd' ∧ counter k' fd' = counter k fd'
      ∧ is_eventfd k' fd' = is_eventfd k fd'.

(** The documented behaviour the reactors rely on.  [EPOLL_CTL_DEL] fails only
    for a descriptor that is not in the interest list; a descriptor that is
    closed leaves every interest list; a registration is kept by [epoll_wait] also when it disables a one-shot descriptor; a registered
    level-triggered eventfd with a positive counter is ready. *)
Class KernelLaws (K : Type) `{Kernel K} : Prop := {
  law_create k k' fd : epoll_create1 k = (k', inl fd) →
    only_new k k' fd ∧ interest k' fd = ∅;
  law_create_error k k' e : epoll_create1 k = (k', inr e) → open_fds k' = open_fds k;
  law_eventfd k k' fd : eventfd k = (k', inl fd) →
    only_new k k' fd ∧ is_eventfd k' fd = true;
  law_eventfd_error k k' e : eventfd k = (k', inr e) → open_fds k' = open_fds k;
  law_close k fd : open_fds (close_fd k fd) = open_fds k ∖ {[fd]};
  law_close_frame k fd fd' : fd' ≠ fd →
    counter (close_fd k fd) fd' = counter k fd'
    ∧ is_eventfd (close_fd k fd) fd' = is_eventfd k fd'
    ∧ interest (close_fd k fd) fd' = delete fd (interest k fd');
  law_ctl_frame k ep op fd ev :
    let k' := (epoll_ctl k ep op fd ev).1 in
    same_files k k' ∧ (∀ fd', counter k' fd' = counter k fd')
    ∧ ∀ ep', ep' ≠ ep → interest k' ep' = interest k ep';
  law_ctl_error k ep op fd ev k' e :
    epoll_ctl k ep op fd ev = (k', Some e) → interest k' ep = interest k ep;
  law_add k ep fd ev k' : epoll_ctl k ep CtlAdd fd ev = (k', None) →
    interest k ep !! fd = None ∧ interest k' ep = <[fd := ev]> (interest k ep);
  law_mod k ep fd ev k' : epoll_ctl k ep CtlMod fd ev = (k', None) →
    is_Some (interest k ep !! fd) ∧ interest k' ep = <[fd := ev]> (interest k ep);
  law_del k ep fd ev : interest (epoll_ctl k ep CtlDel fd ev).1 ep = delete fd (interest k ep);
  law_wait k ep n t :
    let k' := (epoll_wait k ep n t).1 in
    same_files k k' ∧ (∀ ep, interest k' ep = interest k ep)
    ∧ ∀ fd, counter k' fd = counter k fd;
  law_wait_ready k ep n t k' l : epoll_wait k ep n t = (k', Ready l) →
    Z.of_nat (length l) ≤ n ∧ NoDup l.*1 ∧ ∀ fd, fd ∈ l.*1 → is_Some (interest k ep !! fd);
  law_wait_blocks k ep n t k' fd : epoll_wait k ep n t = (k', Blocks) →
    interest k ep !! fd = Some EPOLLIN → is_eventfd k fd = true → counter k fd ≤ 0;
  law_write k fd : is_eventfd k fd = true →
    only_counter k (write_one k fd) fd ∧ 0 < counter (write_one k fd) fd;
  law_read k fd : is_eventfd k fd = true →
    only_counter k (read_eight k fd).1 fd ∧ counter (read_eight k fd).1 fd ≤ 0
    ∧ (read_eight k fd).2 = bool_decide (0 < counter k fd);
}.

(** ** An executable kernel *)

(** [activity]: the event bits of each descriptor that is ready; [interrupts]:
    how many calls of [epoll_wait] a signal interrupts; descriptors are given
    out in order up to [fd_limit]. *)
Record kernel := mkKernel {
  files : gset Z;
  next_fd : Z;
  fd_limit : Z;
  registered : gmap Z (gmap Z Z);
  eventfds : gmap Z Z;
  activity : gmap Z Z;
  interrupts : nat;
}.
#[export] Instance eta_kernel : Eta kernel := λ k,
  mkKernel (files k) (next_fd k) (fd_limit k) (registered k) (eventfds k) (activity k)
    (interrupts k).

Module Sim.
Definition list_of (k : kernel) (ep : Z) : gmap Z Z := default ∅ (registered k !! ep).
Definition count (k : kernel) (fd : Z) : Z := Z.max 0 (default 0 (eventfds k !! fd)).

Definition new_fd (k : kernel) : option Z :=
  if (0 <=? next_fd k) && (next_fd k <? fd_limit k) && bool_decide (next_fd k ∉ files k)
  then Some (next_fd k) else None.
Definition opened (k : kernel) (fd : Z) : kernel :=
  k <| files ::= λ s, {[fd]} ∪ s |> <| next_fd := fd + 1 |>.

Definition create (k : kernel) : kernel * (Z + errno) :=
  match new_fd k with
  | Some fd => ((opened k fd) <| registered ::= <[fd := ∅]> |>, inl fd)
  | None => (k, inr EMFILE)
  end.
Definition new_eventfd (k : kernel) : kernel * (Z + errno) :=
  match new_fd k with
  | Some fd => ((opened k fd) <| eventfds ::= <[fd := 0]> |>, inl fd)
  | None => (k, inr EMFILE)
  end.
Definition close (k : kernel) (fd : Z) : kernel :=
  k <| files ::= λ s, s ∖ {[fd]} |> <| registered ::= fmap (delete fd) |>
    <| eventfds ::= delete fd |>.

Definition ctl (k : kernel) (ep : Z) (op : ctl_op) (fd ev : Z) : kernel * option errno :=
  let set l := k <| registered ::= <[ep := l]> |> in
  match op, list_of k ep !! fd with
  | CtlAdd, None =>
      if bool_decide (fd ∈ files k) then (set (<[fd := ev]> (list_of k ep)), None)
      else (k, Some EBADF)
  | CtlAdd, Some _ => (k, Some EEXIST)
  | CtlMod, Some _ => (set (<[fd := ev]> (list_of k ep)), None)
  | CtlDel, Some _ => (set (delete fd (list_of k ep)), None)
  | _, None => (k, Some ENOENT)
  end.

(** What a registered descriptor has to report. *)
Definition bits (k : kernel) (fd ev : Z) : Z :=
  match eventfds k !! fd with
  | Some _ => if 0 <? count k fd then Z.land ev EPOLLIN else 0
  | None =>
      Z.land (default 0 (activity k !! fd)) (Z.lor ev (Z.lor EPOLLERR EPOLLHUP))
  end.
Definition report (k : kernel) (ep : Z) : list (Z * Z) :=
  filter (λ e, e.2 ≠ 0) ((λ e, (e.1, bits k e.1 e.2)) <$> map_to_list (list_of k ep)).

Definition wait (k : kernel) (ep n t : Z) : kernel * wait_result :=
  match interrupts k with
  | S i => (k <| interrupts := i |>, WaitError EINTR)
  | O =>
      if n <=? 0 then (k, WaitError EINVAL)
      else match report k ep with
      | [] => (k, if t <? 0 then Blocks else Ready [])
      | l => (k, Ready (take (Z.to_nat n) l))
      end
  end.

Definition write (k : kernel) (fd : Z) : kernel :=
  match eventfds k !! fd with
  | Some c =>
      if count k fd <? two64 - 2 then k <| eventfds ::= <[fd := count k fd + 1]> |> else k
  | None => k
  end.
Definition read (k : kernel) (fd : Z) : kernel * bool :=
  match eventfds k !! fd with
  | Some c => if 0 <? count k fd then (k <| eventfds ::= <[fd := 0]> |>, true) else (k, false)
  | None => (k, false)
  end.
End Sim.

#[export] Instance sim_kernel : Kernel kernel := {
  open_fds := files;
  is_eventfd k fd := bool_decide (is_Some (eventfds k !! fd));
  interest := Sim.list_of;
  counter := Sim.count;
  epoll_create1 := Sim.create;
  eventfd := Sim.new_eventfd;
  close_fd := Sim.close;
  epoll_ctl := Sim.ctl;
  epoll_wait := Sim.wait;
  write_one := Sim.write;
  read_eight := Sim.read;
  allocates _ n := n <=? 1048576;
}.

(** ** It satisfies the laws *)

Lemma new_fd_fresh k fd : Sim.new_fd k = Some fd → 0 ≤ fd ∧ (fd ∉ files k) ∧ fd = next_fd k.
Proof.
  unfold Sim.new_fd. destruct (0 <=? next_fd k) eqn:H0, (next_fd k <? fd_limit k);
    simpl; try done.
  case_bool_decide; [|done]. intros [= <-]. apply Z.leb_le in H0. done.
Qed.

Lemma create_ok k k' fd :
  Sim.create k = (k', inl fd) → only_new k k' fd ∧ Sim.list_of k' fd = ∅.
Proof.
  unfold Sim.create. destruct (Sim.new_fd k) as [f|] eqn:Hf; [|done].
  apply new_fd_fresh in Hf as (? & ? & _). intros [= <- <-].
  split; [split_and!; [done|done|done|]|].
  - intros fd' Hne. split_and!; try done. cbn. unfold Sim.list_of. simpl.
    by rewrite lookup_insert_ne by congruence.
  - unfold Sim.list_of. simpl. by rewrite lookup_insert_eq.
Qed.

Lemma eventfd_ok k k' fd :
  Sim.new_eventfd k = (k', inl fd) →
  only_new k k' fd ∧ bool_decide (is_Some (eventfds k' !! fd)) = true.
Proof.
  unfold Sim.new_eventfd. destruct (Sim.new_fd k) as [f|] eqn:Hf; [|done].
  apply new_fd_fresh in Hf as (? & ? & _). intros [= <- <-].
  split; [split_and!; [done|done|done|]|].
  - intros fd' Hne. cbn. unfold Sim.count. simpl.
    by rewrite lookup_insert_ne by congruence.
  - simpl. rewrite lookup_insert_eq. by apply bool_decide_eq_true.
Qed.

Lemma report_spec k ep fd b :
  (fd, b) ∈ Sim.report k ep ↔
  b ≠ 0 ∧ ∃ ev, Sim.list_of k ep !! fd = Some ev ∧ b = Sim.bits k fd ev.
Proof.
  unfold Sim.report. rewrite list_elem_of_filter, list_elem_of_fmap. simpl. split.
  - intros [Hb ([fd' ev] & [= -> ->] & Hin%elem_of_map_to_list)]. eauto.
  - intros [Hb (ev & Hev & ->)]. split; [done|]. exists (fd, ev). split; [done|].
    by apply elem_of_map_to_list.
Qed.

Lemma report_NoDup k ep : NoDup (Sim.report k ep).*1.
Proof.
  unfold Sim.report.
  assert (((λ e, (e.1, Sim.bits k e.1 e.2)) <$> map_to_list (Sim.list_of k ep)).*1
    = (map_to_list (Sim.list_of k ep)).*1) as Hfst.
  { rewrite <-list_fmap_compose. by apply list_fmap_ext. }
  eapply sublist_NoDup; [|exact (fmap_sublist _ _ _ (sublist_filter _ _))].
  rewrite Hfst. apply NoDup_fst_map_to_list.
Qed.

Lemma same_files_refl (k : kernel) : same_files k k.
Proof. done. Qed.

Lemma set_registered k ep l ep' :
  Sim.list_of (k <| registered ::= <[ep := l]> |>) ep'
  = if bool_decide (ep' = ep) then l else Sim.list_of k ep'.
Proof.
  unfold Sim.list_of. simpl. case_bool_decide as H.
  - subst. by rewrite lookup_insert_eq.
  - by rewrite lookup_insert_ne by congruence.
Qed.

(** The new interest list, when there is one. *)
Lemma ctl_cases k ep op fd ev :
  (∃ e, Sim.ctl k ep op fd ev = (k, Some e) ∧ (op = CtlDel → Sim.list_of k ep !! fd = None))
  ∨ ∃ l, Sim.ctl k ep op fd ev = (k <| registered ::= <[ep := l]> |>, None)
    ∧ match op with
      | CtlAdd => Sim.list_of k ep !! fd = None ∧ l = <[fd := ev]> (Sim.list_of k ep)
      | CtlMod => is_Some (Sim.list_of k ep !! fd) ∧ l = <[fd := ev]> (Sim.list_of k ep)
      | CtlDel => l = delete fd (Sim.list_of k ep)
      end.
Proof.
  unfold Sim.ctl. destruct op, (Sim.list_of k ep !! fd) eqn:Hl; try case_bool_decide;
    solve [left; eexists; split; [done|]; done | right; eexists; split; [done|]; eauto].
Qed.

Lemma ctl_frame k ep op fd ev :
  same_files k (Sim.ctl k ep op fd ev).1
  ∧ (∀ fd', Sim.count (Sim.ctl k ep op fd ev).1 fd' = Sim.count k fd')
  ∧ ∀ ep', ep' ≠ ep → Sim.list_of (Sim.ctl k ep op fd ev).1 ep' = Sim.list_of k ep'.
Proof.
  destruct (ctl_cases k ep op fd ev) as [(e & -> & _)|(l & -> & _)]; [done|].
  split_and!; try done. intros ep' Hne. simpl. by rewrite set_registered, bool_decide_false.
Qed.

Lemma ctl_error k ep op fd ev k' e :
  Sim.ctl k ep op fd ev = (k', Some e) → Sim.list_of k' ep = Sim.list_of k ep.
Proof. by destruct (ctl_cases k ep op fd ev) as [(? & -> & _)|(? & -> & _)]; intros [= <- <-]. Qed.

Lemma ctl_add k ep fd ev k' : Sim.ctl k ep CtlAdd fd ev = (k', None) →
  Sim.list_of k ep !! fd = None ∧ Sim.list_of k' ep = <[fd := ev]> (Sim.list_of k ep).
Proof.
  destruct (ctl_cases k ep CtlAdd fd ev) as [(? & -> & _)|(l & -> & ? & ->)]; intros [= <-].
  by rewrite set_registered, bool_decide_true.
Qed.

Lemma ctl_mod k ep fd ev k' : Sim.ctl k ep CtlMod fd ev = (k', None) →
  is_Some (Sim.list_of k ep !! fd) ∧ Sim.list_of k' ep = <[fd := ev]> (Sim.list_of k ep).
Proof.
  destruct (ctl_cases k ep CtlMod fd ev) as [(? & -> & _)|(l & -> & ? & ->)]; intros [= <-].
  by rewrite set_registered, bool_decide_true.
Qed.

Lemma ctl_del k ep fd ev :
  Sim.list_of (Sim.ctl k ep CtlDel fd ev).1 ep = delete fd (Sim.list_of k ep).
Proof.
  destruct (ctl_cases k ep CtlDel fd ev) as [(e & -> & Hn)|(l & -> & ->)]; simpl.
  - symmetry. by apply delete_id, Hn.
  - by rewrite set_registered, bool_decide_true.
Qed.

Lemma wait_frame k ep n t :
  same_files k (Sim.wait k ep n t).1
  ∧ (∀ ep', Sim.list_of (Sim.wait k ep n t).1 ep' = Sim.list_of k ep')
  ∧ ∀ fd, Sim.count (Sim.wait k ep n t).1 fd = Sim.count k fd.
Proof. unfold Sim.wait. destruct (interrupts k), (n <=? 0), (Sim.report k ep); done. Qed.

Lemma wait_ready k ep n t k' l : Sim.wait k ep n t = (k', Ready l) →
  Z.of_nat (length l) ≤ n ∧ NoDup l.*1 ∧ ∀ fd, fd ∈ l.*1 → is_Some (Sim.list_of k ep !! fd).
Proof.
  unfold Sim.wait. destruct (interrupts k); [|done].
  destruct (Z.leb_spec n 0); [done|].
  assert (Forall (λ r, is_Some (Sim.list_of k ep !! r.1)) (Sim.report k ep)) as Hf.
  { apply Forall_forall. intros [fd b] (_ & ev & Hev & _)%report_spec. by exists ev. }
  assert (∀ r, r = take (Z.to_nat n) (Sim.report k ep) → Z.of_nat (length r) ≤ n ∧ NoDup r.*1 ∧
    ∀ fd, fd ∈ r.*1 → is_Some (Sim.list_of k ep !! fd)) as Hr.
  { intros r ->. split_and!.
    - rewrite length_take. lia.
    - eapply sublist_NoDup; [apply report_NoDup|]. exact (fmap_sublist _ _ _ (sublist_take _ _)).
    - intros fd ([fd' b] & -> & Hin)%list_elem_of_fmap. rewrite Forall_forall in Hf.
      apply (Hf (fd', b)). apply list_elem_of_lookup in Hin as [i Hi].
      apply lookup_take_Some in Hi as [Hi _]. by apply list_elem_of_lookup_2 in Hi. }
  destruct (Sim.report k ep) as [|r rs] eqn:E.
  - destruct (t <? 0); [done|]. intros [= <- <-]. apply Hr. by destruct (Z.to_nat n).
  - intros [= <- <-]. by apply Hr.
Qed.

Lemma wait_blocks k ep n t k' fd : Sim.wait k ep n t = (k', Blocks) →
  Sim.list_of k ep !! fd = Some EPOLLIN → bool_decide (is_Some (eventfds k !! fd)) = true →
  Sim.count k fd ≤ 0.
Proof.
  unfold Sim.wait. destruct (interrupts k); [|done]. destruct (n <=? 0); [done|].
  destruct (Sim.report k ep) as [|r rs] eqn:E; [|done]. intros _ Hin He%bool_decide_eq_true.
  destruct (Z.leb_spec (Sim.count k fd) 0); [done|]. exfalso.
  assert ((fd, 1) ∈ Sim.report k ep) as Hr; [|rewrite E in Hr; by apply elem_of_nil in Hr].
  apply report_spec. split; [done|]. eexists. split; [done|]. unfold Sim.bits.
  destruct He as [c ->]. by rewrite (proj2 (Z.ltb_lt 0 _)) by lia.
Qed.

Lemma close_frame k fd fd' : fd' ≠ fd →
  Sim.count (Sim.close k fd) fd' = Sim.count k fd'
  ∧ bool_decide (is_Some (eventfds (Sim.close k fd) !! fd'))
    = bool_decide (is_Some (eventfds k !! fd'))
  ∧ Sim.list_of (Sim.close k fd) fd' = delete fd (Sim.list_of k fd').
Proof.
  intros Hne. unfold Sim.count, Sim.list_of. simpl. rewrite lookup_delete_ne by congruence.
  split_and!; [done|done|]. rewrite lookup_fmap.
  destruct (registered k !! fd'); simpl; [done|]. by rewrite delete_empty.
Qed.

Lemma set_counter k fd c c' : is_Some (eventfds k !! fd) →
  c' = Z.max 0 c →
  only_counter k (k <| eventfds ::= <[fd := c]> |>) fd
  ∧ Sim.count (k <| eventfds ::= <[fd := c]> |>) fd = c'.
Proof.
  intros He ->. split; [split; [split; [done|]|split; [done|]]|]; simpl.
  - intros fd'. apply bool_decide_ext. destruct (decide (fd' = fd)) as [->|].
    + rewrite lookup_insert_eq. by split; [intros _|eauto].
    + by rewrite lookup_insert_ne by congruence.
  - intros fd' Hne. unfold Sim.count. simpl. by rewrite lookup_insert_ne by congruence.
  - unfold Sim.count. simpl. by rewrite lookup_insert_eq.
Qed.

Lemma write_ok k fd : bool_decide (is_Some (eventfds k !! fd)) = true →
  only_counter k (Sim.write k fd) fd ∧ 0 < Sim.count (Sim.write k fd) fd.
Proof.
  intros He%bool_decide_eq_true. unfold Sim.write. destruct He as [c Hc]. rewrite Hc.
  assert (0 ≤ Sim.count k fd) by (unfold Sim.count; lia).
  destruct (Z.ltb_spec (Sim.count k fd) (two64 - 2)).
  - destruct (set_counter k fd (Sim.count k fd + 1) _ ltac:(eauto) eq_refl) as [? ->].
    split; [done|lia].
  - split; [done|]. rewrite two64_val in *. lia.
Qed.

Lemma read_ok k fd : bool_decide (is_Some (eventfds k !! fd)) = true →
  only_counter k (Sim.read k fd).1 fd ∧ Sim.count (Sim.read k fd).1 fd ≤ 0
  ∧ (Sim.read k fd).2 = bool_decide (0 < Sim.count k fd).
Proof.
  intros He%bool_decide_eq_true. unfold Sim.read. destruct He as [c Hc]. rewrite Hc.
  destruct (Z.ltb_spec 0 (Sim.count k fd)); simpl.
  - destruct (set_counter k fd 0 _ ltac:(eauto) eq_refl) as [? ->].
    by rewrite bool_decide_true.
  - by rewrite bool_decide_false by lia.
Qed.

#[export] Instance sim_laws : KernelLaws kernel.
Proof.
  split; cbn.
  - apply create_ok.
  - unfold Sim.create. intros k k' e. destruct (Sim.new_fd k); [done|]. by intros [= <- <-].
  - apply eventfd_ok.
  - unfold Sim.new_eventfd. intros k k' e. destruct (Sim.new_fd k); [done|]. by intros [= <- <-].
  - done.
  - apply close_frame.
  - apply ctl_frame.
  - apply ctl_error.
  - apply ctl_add.
  - apply ctl_mod.
  - apply ctl_del.
  - apply wait_frame.
  - apply wait_ready.
  - apply wait_blocks.
  - apply write_ok.
  - apply read_ok.
Qed.
