(* ===== verification/EpollReactor.v ===== *)
(** * epoll: an event loop over one epoll instance

    [foundation::EpollReactor] (epoll/src/epoll_reactor.cpp): the watchers under
    their mutex, the calls that change them together with the kernel's interest
    list, [runOnce], [run], and [stop] with its eventfd.  The first part models
    the construction, whose calls of the kernel and whose allocation may fail, and
    the calls as functions on the kernel and the reactor; the second interleaves
    the thread that runs the loop with the threads that call the reactor.  The
    class [foundation::EventLoop] of multi_thread_reactor is the same code with
    the differences of [flavour]. *)

From S2P Require Import Prelude Kernel.
Open Scope Z_scope.

(** [EpollEvents]. *)
Definition Event_None : Z := 0.
Definition Event_Read : Z := Z.shiftl 1 0.
Definition Event_Write : Z := Z.shiftl 1 1.
Definition Event_EdgeTriggered : Z := Z.shiftl 1 2.
Definition Event_OneShot : Z := Z.shiftl 1 3.
Definition Event_Error : Z := Z.shiftl 1 4.
Definition Event_HangUp : Z := Z.shiftl 1 5.
Definition Event_PeerClosed : Z := Z.shiftl 1 6.

(** Callbacks are known by their identity; what one does to the reactor while
    it runs are calls of its own. *)
Definition Callback := Z.

(** [EpollEvent], and [ReactorEvent] with its loop. *)
Record EpollEvent := mkEvent {
  fd : Z;
  events : Z;
  loop_index : Z;
}.
#[export] Instance EpollEvent_eq_dec : EqDecision EpollEvent.
Proof. solve_decision. Defined.

Definition has (bits mask : Z) : bool := negb (Z.land bits mask =? 0).
Definition readable (e : EpollEvent) : bool := has (events e) Event_Read.
Definition writable (e : EpollEvent) : bool := has (events e) Event_Write.
Definition error (e : EpollEvent) : bool := has (events e) Event_Error.
Definition hangUp (e : EpollEvent) : bool := has (events e) Event_HangUp.
Definition peerClosed (e : EpollEvent) : bool := has (events e) Event_PeerClosed.

(** [if ((bits & mask) != 0) acc |= to]. *)
Definition or_if (bits mask to acc : Z) : Z := if has bits mask then Z.lor acc to else acc.

Definition toNativeEvents (events : Z) : Z :=
  or_if events Event_OneShot EPOLLONESHOT
    (or_if events Event_EdgeTriggered EPOLLET
      (or_if events Event_Write EPOLLOUT
        (or_if events Event_Read EPOLLIN EPOLLRDHUP))).

Definition fromNativeEvents (events : Z) : Z :=
  or_if events EPOLLRDHUP Event_PeerClosed
    (or_if events EPOLLHUP Event_HangUp
      (or_if events EPOLLERR Event_Error
        (or_if events EPOLLOUT Event_Write
          (or_if events EPOLLIN Event_Read Event_None)))).

Definition int_max : Z := 2147483647.

Definition timeoutToMilliseconds (timeout : Z) : Z :=
  if timeout <? 0 then -1
  else if int_max <? timeout then int_max
  else timeout.

(** [static_cast<int>] of a 64-bit size. *)
Definition to_int (n : Z) : Z :=
  let m := n mod 4294967296 in if m <=? int_max then m else m - 4294967296.

Definition O_NONBLOCK : Z := 2048.

(** [setNonBlocking], with the two commands of [fcntl] it gives. *)
Section fcntl.
Context {K : Type} (getfl : K → Z → K * Z) (setfl : K → Z → Z → K * Z).

Definition setNonBlocking (k : K) (d : Z) : K * bool :=
  let '(k, flags) := getfl k d in
  if flags <? 0 then (k, false)
  else let '(k, rc) := setfl k d (Z.lor flags O_NONBLOCK) in (k, rc =? 0).

(** When it returns true the descriptor does not block, and its other flags are
    as they were. *)
Lemma setNonBlocking_exact (flags_of : K → Z → Z) k d k'
    (Hget : ∀ k d, (getfl k d).1 = k ∧ (0 ≤ (getfl k d).2 → (getfl k d).2 = flags_of k d))
    (Hset : ∀ k d f, (setfl k d f).2 = 0 → flags_of (setfl k d f).1 d = f) :
  setNonBlocking k d = (k', true) →
  ∀ i, 0 ≤ i → Z.testbit (flags_of k' d) i = Z.testbit (flags_of k d) i || (i =? 11).
Proof.
  unfold setNonBlocking. destruct (Hget k d) as [Hk Hf].
  destruct (getfl k d) as [k1 flags]. cbn [fst snd] in Hk, Hf. subst k1.
  destruct (Z.ltb_spec flags 0); [done|]. pose proof (Hset k d (Z.lor flags O_NONBLOCK)) as Hs.
  destruct (setfl k d _) as [k2 rc]. cbn [fst snd] in Hs. intros [= <- ->%Z.eqb_eq] i Hi.
  rewrite Hs, Z.lor_spec, Hf by done. f_equal. change O_NONBLOCK with (2 ^ 11).
  rewrite Z.pow2_bits_eqb by done. apply Z.eqb_sym.
Qed.
End fcntl.

Record Watcher := mkWatcher {
  watched : Z;
  callback : Callback;
}.

Record State := mkState {
  index : Z;
  epoll_fd : Z;
  wake_fd : Z;
  ready_size : Z;               (* size of the buffer given to epoll_wait *)
  watchers : gmap Z Watcher;
  stopping : bool;
}.
#[export] Instance eta_State : Eta State := λ r,
  mkState (index r) (epoll_fd r) (wake_fd r) (ready_size r) (watchers r) (stopping r).

(** What differs between the two classes: their name in messages, whether
    [run] starts by clearing [stopping], and whether changing a watcher wakes
    the loop. *)
Record flavour := mkFlavour {
  class_name : string;
  run_clears_stopping : bool;
  changes_wake : bool;
}.
Definition epollReactor : flavour := mkFlavour "EpollReactor" true false.
Definition eventLoop : flavour := mkFlavour "EventLoop" false true.

Section reactor.
Context `{Kernel K} (strerror : errno → string) (f : flavour).

Definition systemError (operation : string) (e : errno) : exn :=
  RuntimeError (operation +:+ " failed: " +:+ strerror e).
Definition invalid (what : string) : exn := InvalidArgument (class_name f +:+ what).

(** ** Construction *)

(** [ready.resize(max_events)] throws when the vector cannot be that long (an
    [epoll_event] has 12 bytes) or the heap has no room for it. *)
Definition ready_max_size : Z := (two63 - 1) / 12.
Definition resize_ready (k : K) (n : Z) : option exn :=
  if ready_max_size <? n then Some (LengthError "vector::_M_default_append")
  else if allocates k n then None
  else Some BadAlloc.

(** When a call of the kernel fails the descriptors opened so far are closed;
    when [resize] throws they stay open, since the destructor does not run for
    an object whose constructor has not ended. *)
Definition make (k : K) (max_events idx : Z) : K * outcome State :=
  if max_events =? 0 then (k, Throws (invalid " max_events must be positive"))
  else match epoll_create1 k with
  | (k, inr e) => (k, Throws (systemError "epoll_create1" e))
  | (k, inl ep) =>
      match eventfd k with
      | (k, inr e) => (close_fd k ep, Throws (systemError "eventfd" e))
      | (k, inl wfd) =>
          match epoll_ctl k ep CtlAdd wfd EPOLLIN with
          | (k, Some e) =>
              (close_fd (close_fd k wfd) ep, Throws (systemError "epoll_ctl wake_fd add" e))
          | (k, None) =>
              match resize_ready k max_events with
              | Some e => (k, Throws e)
              | None => (k, Returns (mkState idx ep wfd max_events ∅ false))
              end
          end
      end
  end.

Definition destroy (k : K) (r : State) : K :=
  let k := if 0 <=? wake_fd r then close_fd k (wake_fd r) else k in
  if 0 <=? epoll_fd r then close_fd k (epoll_fd r) else k.

Definition wake (k : K) (r : State) : K :=
  if wake_fd r <? 0 then k else write_one k (wake_fd r).

(** ** The calls, under the mutex *)

Definition add_locked (k : K) (r : State) (d ev : Z) (cb : option Callback)
    : K * State * outcome bool :=
  if d <? 0 then (k, r, Throws (invalid " cannot add a negative fd"))
  else match cb with
  | None => (k, r, Throws (invalid " callback cannot be empty"))
  | Some cb =>
      if d =? wake_fd r then (k, r, Throws (invalid " wake fd is reserved"))
      else match watchers r !! d with
      | Some _ => (k, r, Throws (invalid " fd is already registered"))
      | None =>
          let r := r <| watchers ::= <[d := mkWatcher ev cb]> |> in
          match epoll_ctl k (epoll_fd r) CtlAdd d (toNativeEvents ev) with
          | (k, Some e) =>
              (k, r <| watchers ::= delete d |>, Throws (systemError "epoll_ctl add" e))
          | (k, None) => (k, r, Returns true)
          end
      end
  end.

Definition modify_locked (k : K) (r : State) (d ev : Z) : K * State * outcome bool :=
  match watchers r !! d with
  | None => (k, r, Throws (invalid " fd is not registered"))
  | Some w =>
      match epoll_ctl k (epoll_fd r) CtlMod d (toNativeEvents ev) with
      | (k, Some e) => (k, r, Throws (systemError "epoll_ctl modify" e))
      | (k, None) =>
          (k, r <| watchers ::= <[d := mkWatcher ev (callback w)]> |>, Returns true)
      end
  end.

Definition remove_locked (k : K) (r : State) (d : Z) : K * State * outcome bool :=
  match watchers r !! d with
  | None => (k, r, Returns false)
  | Some _ =>
      let '(k, rc) := epoll_ctl k (epoll_fd r) CtlDel d 0 in
      let r := r <| watchers ::= delete d |> in
      match rc with
      | Some e =>
          if negb (bool_decide (e = ENOENT)) && negb (bool_decide (e = EBADF))
          then (k, r, Throws (systemError "epoll_ctl remove" e))
          else (k, r, Returns true)
      | None => (k, r, Returns true)
      end
  end.

(** The calls that go through the mutex, [add], [modify] and [remove]. *)
Inductive call :=
  | Add (d ev : Z) (cb : option Callback)
  | Modify (d ev : Z)
  | Remove (d : Z).

Definition locked (k : K) (r : State) (c : call) : K * State * outcome bool :=
  match c with
  | Add d ev cb => add_locked k r d ev cb
  | Modify d ev => modify_locked k r d ev
  | Remove d => remove_locked k r d
  end.

(** Does a call that ended this way go on to wake the loop? *)
Definition wakes_after (o : outcome bool) : bool :=
  changes_wake f && match o with Returns b => b | Throws _ => false end.

(** The whole call. *)
Definition call_alone (k : K) (r : State) (c : call) : K * State * outcome bool :=
  let '(k, r, o) := locked k r c in
  (if wakes_after o then wake k r else k, r, o).

Definition contains (r : State) (d : Z) : bool := bool_decide (is_Some (watchers r !! d)).
Definition size (r : State) : Z := Z.of_nat (base.size (watchers r)).

(** ** The loop, one access at a time *)

(** Where the thread that runs the loop is; [b]: inside [run].  [Collect] and
    [Drain] hold the mutex: [rest] is still to be looked up, [acc] is the
    vector of callbacks, of which [Dispatch] has [todo] left to call. *)
Inductive loop_pc :=
  | Outside
  | RunCheck
  | Wait (b : bool) (timeout_ms : Z)
  | Collect (b : bool) (rest : list (Z * Z)) (acc : list (EpollEvent * Callback))
  | Drain (b : bool) (rest : list (Z * Z)) (acc : list (EpollEvent * Callback))
  | Dispatch (b : bool) (todo : list (EpollEvent * Callback)) (n : Z)
  | InCallback (b : bool) (todo : list (EpollEvent * Callback)) (n : Z).

Inductive event :=
  | Called (c : call) (o : outcome bool)
  | Invoked (e : EpollEvent) (cb : Callback)
  | RunOnceReturned (n : Z)
  | RunReturned
  | LoopThrew (e : exn)
  | StopCalled.

(** [None]: the thread sleeps in [epoll_wait], or is not in the loop. *)
Definition loop_step (k : K) (r : State) (pc : loop_pc) : option (K * loop_pc * list event) :=
  match pc with
  | Outside => None
  | RunCheck =>
      if stopping r then Some (k, Outside, [RunReturned])
      else Some (k, Wait true (timeoutToMilliseconds (-1)), [])
  | Wait b t =>
      match epoll_wait k (epoll_fd r) (to_int (ready_size r)) t with
      | (_, Blocks) => None
      | (k, WaitError e) =>
          if bool_decide (e = EINTR) then Some (k, Wait b t, [])
          else Some (k, Outside, [LoopThrew (systemError "epoll_wait" e)])
      | (k, Ready l) => Some (k, Collect b l [], [])
      end
  | Collect b ((d, bits) :: rest) acc =>
      if d =? wake_fd r then Some (k, Drain b rest acc, [])
      else match watchers r !! d with
      | None => Some (k, Collect b rest acc, [])
      | Some w =>
          let e := mkEvent d (fromNativeEvents bits) (index r) in
          Some (k, Collect b rest (acc ++ [(e, callback w)]), [])
      end
  | Collect b [] acc => Some (k, Dispatch b acc (Z.of_nat (length acc)), [])
  | Drain b rest acc =>
      let '(k, full) := read_eight k (wake_fd r) in
      Some (k, if full : bool then Drain b rest acc else Collect b rest acc, [])
  | Dispatch b ((e, cb) :: todo) n => Some (k, InCallback b todo n, [Invoked e cb])
  | Dispatch b [] n =>
      if b then Some (k, RunCheck, []) else Some (k, Outside, [RunOnceReturned n])
  | InCallback b todo n => Some (k, Dispatch b todo n, [])
  end.

(** The loop thread alone, for at most [fuel] accesses. *)
Fixpoint loop_alone (fuel : nat) (k : K) (r : State) (pc : loop_pc)
    : K * loop_pc * list event :=
  match fuel with
  | O => (k, pc, [])
  | S fuel =>
      match loop_step k r pc with
      | None => (k, pc, [])
      | Some (k, pc, es) =>
          let '(k, pc, es') := loop_alone fuel k r pc in (k, pc, es ++ es')
      end
  end.

Definition run_entry (r : State) : State :=
  if run_clears_stopping f then r <| stopping := false |> else r.
Definition runOnce_entry (timeout : Z) : loop_pc := Wait false (timeoutToMilliseconds timeout).

(** ** The interleaving *)

(** [wakers]: threads that have left the mutex, or stored [stopping], and have
    not yet written to the eventfd. *)
Record system := mkSystem {
  kern : K;
  reactor : State;
  pc : loop_pc;
  wakers : nat;
}.

Definition holds_mutex (p : loop_pc) : bool :=
  match p with Collect _ _ _ | Drain _ _ _ => true | _ => false end.

(** What the rest of the process does to the kernel: it may close descriptors
    it watches, and does not use the reactor's own. *)
Definition elsewhere (k k' : K) (r : State) : Prop :=
  interest k' (epoll_fd r) ⊆ interest k (epoll_fd r)
  ∧ interest k' (epoll_fd r) !! wake_fd r = interest k (epoll_fd r) !! wake_fd r
  ∧ counter k' (wake_fd r) = counter k (wake_fd r)
  ∧ is_eventfd k' (wake_fd r) = is_eventfd k (wake_fd r).

Inductive reactor_step : system → list event → system → Prop :=
  | step_call c k r p n k' r' o :
      holds_mutex p = false → locked k r c = (k', r', o) →
      reactor_step (mkSystem k r p n) [Called c o]
        (mkSystem k' r' p (if wakes_after o then S n else n))
  | step_stop k r p n :
      reactor_step (mkSystem k r p n) [StopCalled]
        (mkSystem k (r <| stopping := true |>) p (S n))
  | step_wake k r p n :
      reactor_step (mkSystem k r p (S n)) [] (mkSystem (wake k r) r p n)
  | step_loop k r p n k' p' es :
      loop_step k r p = Some (k', p', es) →
      reactor_step (mkSystem k r p n) es (mkSystem k' r p' n)
  | step_callback_throws k r b todo m n e :
      reactor_step (mkSystem k r (InCallback b todo m) n) [LoopThrew e] (mkSystem k r Outside n)
  | step_run k r n :
      reactor_step (mkSystem k r Outside n) [] (mkSystem k (run_entry r) RunCheck n)
  | step_runOnce t k r n :
      reactor_step (mkSystem k r Outside n) [] (mkSystem k r (runOnce_entry t) n)
  | step_elsewhere k r p n k' :
      elsewhere k k' r →
      reactor_step (mkSystem k r p n) [] (mkSystem k' r p n).

Definition reactor_init (s : system) : Prop :=
  ∃ k max_events idx, make k max_events idx = (kern s, Returns (reactor s))
  ∧ pc s = Outside ∧ wakers s = 0%nat.

Definition reactor_lts : lts system event := Lts reactor_init reactor_step.

(** Runs in which the rest of the process closes no registered descriptor. *)
Definition steady_step (s : system) (es : list event) (s' : system) : Prop :=
  reactor_step s es s'
  ∧ (es = [] → interest (kern s') (epoll_fd (reactor s)) = interest (kern s) (epoll_fd (reactor s))).
Definition steady_lts : lts system event := Lts reactor_init steady_step.

(** ** Specification: a table of callbacks, dispatched in batches *)

(** [batch]: the callbacks still to be called by the batch in progress, and how
    many it had. *)
Record registry := mkRegistry {
  table : gmap Z Watcher;
  batch : option (list (EpollEvent * Callback) * Z);
}.

(** The callbacks a report of the kernel gives rise to, in its order. *)
Definition batch_of (idx wfd : Z) (t : gmap Z Watcher) (l : list (Z * Z))
    : list (EpollEvent * Callback) :=
  omap (λ e, if e.1 =? wfd then None
             else (λ w, (mkEvent e.1 (fromNativeEvents e.2) idx, callback w)) <$> t !! e.1) l.

(** What a call may answer, and the table after it. *)
Definition answers (wfd : Z) (t : gmap Z Watcher) (c : call) (o : outcome bool)
    (t' : gmap Z Watcher) : Prop :=
  match c, o with
  | Add d ev cb, Returns b =>
      b = true ∧ 0 ≤ d ∧ d ≠ wfd ∧ t !! d = None
      ∧ ∃ cb', cb = Some cb' ∧ t' = <[d := mkWatcher ev cb']> t
  | Add d ev cb, Throws (InvalidArgument _) =>
      (d < 0 ∨ cb = None ∨ d = wfd ∨ is_Some (t !! d)) ∧ t' = t
  | Modify d ev, Returns b =>
      b = true ∧ ∃ w, t !! d = Some w ∧ t' = <[d := mkWatcher ev (callback w)]> t
  | Modify d ev, Throws (InvalidArgument _) => t !! d = None ∧ t' = t
  | Remove d, Returns b => b = bool_decide (is_Some (t !! d)) ∧ t' = delete d t
  | Add d _ _, Throws (RuntimeError _) => t !! d = None ∧ t' = t
  | Modify d _, Throws (RuntimeError _) => is_Some (t !! d) ∧ t' = t
  | Remove d, Throws (RuntimeError _) => is_Some (t !! d) ∧ t' = delete d t
  | _, _ => False
  end.

Inductive registry_step (idx wfd : Z) : registry → list event → registry → Prop :=
  | r_call c o t t' b :
      answers wfd t c o t' →
      registry_step idx wfd (mkRegistry t b) [Called c o] (mkRegistry t' b)
  | r_stop t b : registry_step idx wfd (mkRegistry t b) [StopCalled] (mkRegistry t b)
  | r_collect t l :
      registry_step idx wfd (mkRegistry t None) []
        (mkRegistry t (Some (batch_of idx wfd t l, Z.of_nat (length (batch_of idx wfd t l)))))
  | r_invoke t e cb todo n :
      registry_step idx wfd (mkRegistry t (Some ((e, cb) :: todo, n))) [Invoked e cb]
        (mkRegistry t (Some (todo, n)))
  | r_once t n :
      registry_step idx wfd (mkRegistry t (Some ([], n))) [RunOnceReturned n] (mkRegistry t None)
  | r_next t n : registry_step idx wfd (mkRegistry t (Some ([], n))) [] (mkRegistry t None)
  | r_returned t : registry_step idx wfd (mkRegistry t None) [RunReturned] (mkRegistry t None)
  | r_threw t b e :
      registry_step idx wfd (mkRegistry t b) [LoopThrew e] (mkRegistry t None).

Definition registry_init (a : registry) : Prop := a = mkRegistry ∅ None.
Definition registry_lts (idx wfd : Z) : lts registry event :=
  Lts registry_init (registry_step idx wfd).
End reactor.

(** ** The calls *)

Section theory.
Context `{KernelLaws K} (strerror : errno → string) (f : flavour).
Local Abbreviation locked := (locked strerror f).
Local Abbreviation make := (make strerror f).
Local Abbreviation loop_step := (loop_step strerror).
Local Abbreviation loop_alone := (loop_alone strerror).
Local Abbreviation system := (@EpollReactor.system K).

(** A call answers as the table says. *)
Lemma locked_answers k r c k' r' o :
  locked k r c = (k', r', o) →
  answers (wake_fd r) (watchers r) c o (watchers r')
  ∧ index r' = index r ∧ epoll_fd r' = epoll_fd r ∧ wake_fd r' = wake_fd r
  ∧ stopping r' = stopping r ∧ ready_size r' = ready_size r.
Proof.
  destruct c as [d ev cb|d ev|d]; unfold EpollReactor.locked.
  - unfold add_locked. destruct (Z.ltb_spec d 0); [intros [= <- <- <-]; simpl; tauto|].
    destruct cb as [cb|]; [|intros [= <- <- <-]; simpl; tauto].
    destruct (Z.eqb_spec d (wake_fd r)); [intros [= <- <- <-]; simpl; tauto|].
    destruct (watchers r !! d) eqn:Hd.
    { intros [= <- <- <-]. simpl. rewrite Hd. eauto 10. }
    destruct (epoll_ctl _ _ _ _ _) as [k1 [e|]]; intros [= <- <- <-]; simpl.
    + by rewrite delete_insert_id.
    + eauto 20.
  - unfold modify_locked. destruct (watchers r !! d) as [w|] eqn:Hd;
      [|intros [= <- <- <-]; simpl; tauto].
    destruct (epoll_ctl _ _ _ _ _) as [k1 [e|]]; intros [= <- <- <-]; simpl.
    + rewrite Hd. eauto 10.
    + eauto 20.
  - unfold remove_locked. destruct (watchers r !! d) as [w|] eqn:Hd; cycle 1.
    { intros [= <- <- <-]. simpl. rewrite Hd, delete_id by done. done. }
    destruct (epoll_ctl _ _ _ _ _) as [k1 [e|]];
      [destruct (negb _ && negb _)|]; intros [= <- <- <-]; simpl; rewrite Hd; eauto 10.
Qed.

(** A call answers for its own descriptor. *)
Lemma answers_other wfd t c o t' x :
  answers wfd t c o t' → x ≠ match c with Add d _ _ | Modify d _ | Remove d => d end →
  t' !! x = t !! x.
Proof.
  intros Ha Hne. destruct c as [d ev cb|d ev|d], o as [b|[]]; simpl in Ha; try done.
  - destruct Ha as (_ & _ & _ & _ & cb' & _ & ->). by rewrite lookup_insert_ne.
  - by destruct Ha as (_ & ->).
  - by destruct Ha as (_ & ->).
  - destruct Ha as (_ & w & _ & ->). by rewrite lookup_insert_ne.
  - by destruct Ha as (_ & ->).
  - by destruct Ha as (_ & ->).
  - destruct Ha as (_ & ->). by rewrite lookup_delete_ne.
  - destruct Ha as (_ & ->). by rewrite lookup_delete_ne.
Qed.

(** The kernel's interest list is that of the watchers and the eventfd. *)
Record registered_ok (k : K) (r : State) : Prop := {
  reg_wake : interest k (epoll_fd r) !! wake_fd r = Some EPOLLIN;
  reg_eventfd : is_eventfd k (wake_fd r) = true;
  reg_fds : 0 ≤ epoll_fd r ∧ 0 ≤ wake_fd r;
  reg_watchers d w : watchers r !! d = Some w → 0 ≤ d ∧ d ≠ wake_fd r;
  reg_interest d ev : interest k (epoll_fd r) !! d = Some ev → d ≠ wake_fd r →
    ∃ w, watchers r !! d = Some w ∧ ev = toNativeEvents (watched w);
}.

(** Changes of the kernel that keep the reactor's descriptors. *)
Lemma registered_frame k k' r :
  interest k' (epoll_fd r) ⊆ interest k (epoll_fd r) →
  interest k' (epoll_fd r) !! wake_fd r = interest k (epoll_fd r) !! wake_fd r →
  is_eventfd k' (wake_fd r) = is_eventfd k (wake_fd r) →
  registered_ok k r → registered_ok k' r.
Proof.
  intros Hsub Hw He [H1 H2 H3 H4 H5]. split; try done; [congruence|congruence|].
  intros d ev Hd. apply H5. by eapply lookup_weaken.
Qed.

Lemma registered_same k k' r :
  same_files k k' → (∀ ep, interest k' ep = interest k ep) →
  registered_ok k r → registered_ok k' r.
Proof. intros [_ He] Hi. apply registered_frame; by rewrite ?Hi, ?He. Qed.

(** A call changes the watchers and the interest list alike. *)
Inductive changes (k : K) (r : State) (k' : K) (r' : State) : Prop :=
  | changes_nothing :
      watchers r' = watchers r → interest k' (epoll_fd r) = interest k (epoll_fd r) →
      changes k r k' r'
  | changes_set d w :
      0 ≤ d → d ≠ wake_fd r → watchers r' = <[d := w]> (watchers r) →
      interest k' (epoll_fd r) = <[d := toNativeEvents (watched w)]> (interest k (epoll_fd r)) →
      changes k r k' r'
  | changes_delete d :
      d ≠ wake_fd r → watchers r' = delete d (watchers r) →
      interest k' (epoll_fd r) = delete d (interest k (epoll_fd r)) →
      changes k r k' r'.

Lemma changes_refl k r :
  changes k r k r ∧ same_files k k ∧ ∀ d, counter k d = counter k d.
Proof. split; [by apply changes_nothing|done]. Qed.

Lemma locked_changes k r c k' r' o :
  locked k r c = (k', r', o) → registered_ok k r →
  changes k r k' r' ∧ same_files k k' ∧ ∀ d, counter k' d = counter k d.
Proof.
  intros Hl Hr. destruct c as [d ev cb|d ev|d]; unfold EpollReactor.locked in Hl.
  - unfold add_locked in Hl. destruct (Z.ltb_spec d 0); [simplify_eq; by apply changes_refl|].
    destruct cb as [cb|]; [|simplify_eq; apply changes_refl].
    destruct (Z.eqb_spec d (wake_fd r)); [simplify_eq; by apply changes_refl|].
    destruct (watchers r !! d) eqn:Hd; [simplify_eq; by apply changes_refl|].
    cbn [epoll_fd set_field] in Hl.
    pose proof (law_ctl_frame k (epoll_fd r) CtlAdd d (toNativeEvents ev)) as (Hfr & Hfc & _).
    destruct (epoll_ctl _ _ _ _ _) as [k1 [e|]] eqn:Hc; simplify_eq/=; (split; [|done]).
    + apply law_ctl_error in Hc. apply changes_nothing; simpl; [by rewrite delete_insert_id|done].
    + apply law_add in Hc as [_ Hc]. by apply (changes_set _ _ _ _ d (mkWatcher ev cb)).
  - unfold modify_locked in Hl. destruct (watchers r !! d) as [w|] eqn:Hd;
      [|simplify_eq; apply changes_refl].
    destruct (reg_watchers _ _ Hr _ _ Hd).
    pose proof (law_ctl_frame k (epoll_fd r) CtlMod d (toNativeEvents ev)) as (Hfr & Hfc & _).
    destruct (epoll_ctl _ _ _ _ _) as [k1 [e|]] eqn:Hc; simplify_eq/=; (split; [|done]).
    + apply law_ctl_error in Hc. by apply changes_nothing.
    + apply law_mod in Hc as [_ Hc].
      by apply (changes_set _ _ _ _ d (mkWatcher ev (callback w))).
  - unfold remove_locked in Hl. destruct (watchers r !! d) as [w|] eqn:Hd;
      [|simplify_eq; apply changes_refl].
    destruct (reg_watchers _ _ Hr _ _ Hd).
    pose proof (law_ctl_frame k (epoll_fd r) CtlDel d 0) as (Hfr & Hfc & _).
    pose proof (law_del k (epoll_fd r) d 0) as Hdel.
    destruct (epoll_ctl _ _ _ _ _) as [k1 rc] eqn:Hc.
    assert (k' = k1 ∧ watchers r' = delete d (watchers r)) as [-> Hw].
    { destruct rc; [destruct (negb _ && negb _)|]; by simplify_eq. }
    split; [|done]. by apply (changes_delete _ _ _ _ d).
Qed.

Lemma locked_registered k r c k' r' o :
  locked k r c = (k', r', o) → registered_ok k r → registered_ok k' r'.
Proof.
  intros Hl Hr. destruct (locked_answers _ _ _ _ _ _ Hl) as (_ & _ & Hep & Hwf & _).
  destruct (locked_changes _ _ _ _ _ _ Hl Hr) as (Hch & [_ He] & _).
  destruct Hr as [H1 H2 H3 H4 H5].
  destruct Hch as [Hw Hi|d w Hd Hdw Hw Hi|d Hdw Hw Hi];
    split; rewrite ?Hep, ?Hwf, ?He, ?Hw, ?Hi; try done.
  - by rewrite lookup_insert_ne.
  - intros x y. rewrite lookup_insert_Some. intros [[<- _]|[_ ?]]; eauto.
  - intros x ev. rewrite lookup_insert_Some. intros [[<- <-]|[Hne Hin]] Hx.
    + exists w. by rewrite lookup_insert_eq.
    + rewrite lookup_insert_ne by done. eauto.
  - by rewrite lookup_delete_ne.
  - intros x y. rewrite lookup_delete_Some. intros [_ ?]. eauto.
  - intros x ev. rewrite lookup_delete_Some. intros [Hne Hin] Hx.
    rewrite lookup_delete_ne by done. eauto.
Qed.

(** A call that throws leaves the interest list alone. *)
Lemma locked_throws k r c k' r' e :
  locked k r c = (k', r', Throws e) → interest k' (epoll_fd r) = interest k (epoll_fd r).
Proof.
  destruct c as [d ev cb|d ev|d]; unfold EpollReactor.locked, add_locked, modify_locked,
    remove_locked; intros Hl; branch; eauto using law_ctl_error.
Qed.

(** ** Construction *)

(** The exceptions of the vector. *)
Definition allocation_failure (e : exn) : bool :=
  match e with LengthError _ | BadAlloc => true | _ => false end.

Lemma resize_ready_fails (k : K) n e : resize_ready k n = Some e → allocation_failure e = true.
Proof. unfold resize_ready. intros Hr. repeat case_match; by simplify_eq. Qed.

Lemma make_ok k k' max_events idx r :
  make k max_events idx = (k', Returns r) →
  registered_ok k' r ∧ watchers r = ∅ ∧ stopping r = false ∧ index r = idx
  ∧ ready_size r = max_events ∧ max_events ≠ 0
  ∧ open_fds k' = {[epoll_fd r; wake_fd r]} ∪ open_fds k
  ∧ (epoll_fd r ∉ open_fds k) ∧ (wake_fd r ∉ open_fds k)
  ∧ interest k' (epoll_fd r) = {[wake_fd r := EPOLLIN]}.
Proof.
  unfold EpollReactor.make. destruct (Z.eqb_spec max_events 0); [done|].
  destruct (epoll_create1 k) as [k1 [ep|]] eqn:Hep; [|done].
  destruct (eventfd k1) as [k2 [wfd|]] eqn:Hwfd; [|done].
  pose proof (law_ctl_frame k2 ep CtlAdd wfd EPOLLIN) as ((Ho & He) & _).
  destruct (epoll_ctl k2 ep CtlAdd wfd EPOLLIN) as [k3 [e|]] eqn:Hc; [done|].
  destruct (resize_ready k3 max_events); [done|].
  intros [= <- <-]. simpl in *.
  apply law_create in Hep as ((? & Hfresh & Ho1 & _) & Hi1).
  apply law_eventfd in Hwfd as ((? & Hfresh2 & Ho2 & Hi2) & He2).
  apply law_add in Hc as [_ Hi3].
  rewrite Ho1, not_elem_of_union, not_elem_of_singleton in Hfresh2.
  destruct Hfresh2 as [Hne Hfresh2]. rewrite (proj1 (Hi2 ep (not_eq_sym Hne))), Hi1 in Hi3.
  split_and!; try done; [|by rewrite Ho, Ho2, Ho1, (assoc_L (∪)), (comm_L (∪) {[wfd]})].
  split; simpl; try done.
  - by rewrite Hi3, lookup_insert_eq.
  - by rewrite He.
  - intros d ev. rewrite Hi3, lookup_insert_Some, lookup_empty. intros [[<- <-]|[_ ?]]; done.
Qed.

Lemma make_distinct k k' max_events idx r :
  make k max_events idx = (k', Returns r) → epoll_fd r ≠ wake_fd r.
Proof.
  unfold EpollReactor.make. destruct (max_events =? 0); [done|].
  destruct (epoll_create1 k) as [k1 [ep|]] eqn:Hep; [|done].
  destruct (eventfd k1) as [k2 [wfd|]] eqn:Hwfd; [|done].
  destruct (epoll_ctl _ _ _ _ _) as [k3 [e|]]; [done|].
  destruct (resize_ready k3 max_events); [done|]. intros [= <- <-]. simpl. intros ->.
  apply law_create in Hep as ((_ & _ & Ho & _) & _).
  apply law_eventfd in Hwfd as ((_ & Hn & _) & _).
  apply Hn. rewrite Ho. apply elem_of_union_l. by apply elem_of_singleton.
Qed.

Lemma make_resized k k' max_events idx r :
  make k max_events idx = (k', Returns r) → resize_ready k' max_events = None.
Proof.
  unfold EpollReactor.make. intros Hm. repeat case_match; by simplify_eq.
Qed.

(** How a construction fails: an allocation failure leaves the two new
    descriptors open, and every other failure closes what it opened. *)
Definition failed_from (k k' : K) (max_events : Z) (e : exn) : Prop :=
  if allocation_failure e
  then max_events ≠ 0 ∧ resize_ready k' max_events = Some e
    ∧ ∃ ep wfd, ep ≠ wfd ∧ (ep ∉ open_fds k) ∧ (wfd ∉ open_fds k)
        ∧ open_fds k' = {[ep; wfd]} ∪ open_fds k
  else open_fds k' = open_fds k
    ∧ if max_events =? 0 then e = invalid f " max_events must be positive"
      else ∃ what, e = RuntimeError what.

Lemma make_throws k k' max_events idx e :
  make k max_events idx = (k', Throws e) → failed_from k k' max_events e.
Proof.
  unfold EpollReactor.make, failed_from.
  destruct (Z.eqb_spec max_events 0); [by intros [= <- <-]|].
  destruct (epoll_create1 k) as [k1 [ep|]] eqn:Hep; cycle 1.
  { intros [= <- <-]. apply law_create_error in Hep. simpl. by split; [|eexists]. }
  apply law_create in Hep as ((_ & Hfresh & Ho1 & _) & _).
  destruct (eventfd k1) as [k2 [wfd|]] eqn:Hwfd; cycle 1.
  { intros [= <- <-]. apply law_eventfd_error in Hwfd. simpl. split; [|by eexists].
    rewrite law_close, Hwfd, Ho1. set_solver. }
  apply law_eventfd in Hwfd as ((_ & Hfresh2 & Ho2 & _) & _). rewrite Ho1 in Hfresh2, Ho2.
  pose proof (law_ctl_frame k2 ep CtlAdd wfd EPOLLIN) as ((Ho & _) & _).
  destruct (epoll_ctl k2 ep CtlAdd wfd EPOLLIN) as [k3 [e'|]]; simpl in Ho.
  { intros [= <- <-]. simpl. split; [|by eexists].
    rewrite !law_close, Ho, Ho2. set_solver. }
  destruct (resize_ready k3 max_events) as [e'|] eqn:Hr; [|done]. intros [= <- <-].
  rewrite (resize_ready_fails _ _ _ Hr). split_and!; [done..|].
  exists ep, wfd. rewrite Ho, Ho2. split_and!; set_solver.
Qed.

(** ** What the rest of the kernel sees *)

(** Descriptors that were open before see nothing of a construction. *)
Lemma make_frame k k' max_events idx r d :
  make k max_events idx = (k', Returns r) → d ∈ open_fds k →
  interest k' d = interest k d ∧ counter k' d = counter k d ∧ is_eventfd k' d = is_eventfd k d.
Proof.
  unfold EpollReactor.make. destruct (max_events =? 0); [done|].
  destruct (epoll_create1 k) as [k1 [ep|]] eqn:Hep; [|done].
  destruct (eventfd k1) as [k2 [wfd|]] eqn:Hwfd; [|done].
  pose proof (law_ctl_frame k2 ep CtlAdd wfd EPOLLIN) as ((_ & He) & Hc & Hi).
  destruct (epoll_ctl _ _ _ _ _) as [k3 [e|]]; [done|].
  destruct (resize_ready k3 max_events); [done|]. intros [= <- _] Hd. cbn [fst] in *.
  apply law_create in Hep as ((_ & Hn1 & Ho1 & Hf1) & _).
  apply law_eventfd in Hwfd as ((_ & Hn2 & _ & Hf2) & _).
  assert (d ≠ ep) as Hde by (by intros ->).
  assert (d ≠ wfd) as Hdw.
  { intros ->. apply Hn2. rewrite Ho1. by apply elem_of_union_r. }
  destruct (Hf1 d Hde) as (<- & <- & <-). destruct (Hf2 d Hdw) as (<- & <- & <-).
  rewrite Hi by done. by rewrite Hc, He.
Qed.

(** A call changes the interest list of its own instance only. *)
Lemma locked_frame k r c k' r' o :
  locked k r c = (k', r', o) →
  same_files k k' ∧ (∀ d, counter k' d = counter k d)
  ∧ ∀ ep, ep ≠ epoll_fd r → interest k' ep = interest k ep.
Proof.
  destruct c as [d ev cb|d ev|d]; unfold EpollReactor.locked, add_locked, modify_locked,
    remove_locked; intros Hl; [| |].
  - pose proof (law_ctl_frame k (epoll_fd r) CtlAdd d (toNativeEvents ev)) as Hf.
    cbn [epoll_fd set_field] in Hl. destruct (epoll_ctl _ _ _ _ _). by branch.
  - pose proof (law_ctl_frame k (epoll_fd r) CtlMod d (toNativeEvents ev)) as Hf.
    destruct (epoll_ctl _ _ _ _ _). by branch.
  - pose proof (law_ctl_frame k (epoll_fd r) CtlDel d 0) as Hf.
    destruct (epoll_ctl _ _ _ _ _). by branch.
Qed.

(** The loop empties its own eventfd and changes nothing else. *)
Lemma loop_frame k r p k' p' es :
  loop_step k r p = Some (k', p', es) → is_eventfd k (wake_fd r) = true →
  only_counter k k' (wake_fd r).
Proof.
  intros Hs He. assert (only_counter k k (wake_fd r)) as Hrefl by done.
  destruct p as [| |b t|b [|[d bits] rest] acc|b rest acc|b [|[e cb] todo] n|b todo n];
    simpl in Hs.
  - done.
  - by destruct (stopping r); simplify_eq.
  - pose proof (law_wait k (epoll_fd r) (to_int (ready_size r)) t) as (Hf & Hi & Hc).
    destruct (epoll_wait _ _ _ _) as [k1 [l|e|]]; try case_bool_decide; simplify_eq/=; by split.
  - by simplify_eq.
  - by destruct (d =? wake_fd r); [|destruct (watchers r !! d)]; simplify_eq.
  - pose proof (law_read k (wake_fd r) He) as (Hf & _).
    by destruct (read_eight _ _) as [k1 full]; simplify_eq/=.
  - by destruct b; simplify_eq.
  - by simplify_eq.
  - by simplify_eq.
Qed.

(** ** Reachable states *)

(** A loop that is asked to stop while it sleeps inside [run] will be woken. *)
Definition stop_ok (s : system) : Prop :=
  ∀ t, pc s = Wait true t → stopping (reactor s) = true →
    0 < counter (kern s) (wake_fd (reactor s)) ∨ (0 < wakers s)%nat.

Definition system_ok (s : system) : Prop :=
  registered_ok (kern s) (reactor s) ∧ stop_ok s.

Lemma init_ok s : reactor_init strerror f s → system_ok s.
Proof.
  intros (k & n & i & Hm & Hpc & _). apply make_ok in Hm as [Hr _]. split; [done|].
  intros t. by rewrite Hpc.
Qed.

Lemma loop_registered k r p k' p' es :
  loop_step k r p = Some (k', p', es) → registered_ok k r → registered_ok k' r.
Proof.
  intros Hs Hr. destruct p as [| |b t|b [|[d bits] rest] acc|b rest acc|b [|[e cb] todo] n|b todo n];
    simpl in Hs.
  - done.
  - by destruct (stopping r); simplify_eq.
  - pose proof (law_wait k (epoll_fd r) (to_int (ready_size r)) t) as (Hf & Hi & _).
    destruct (epoll_wait _ _ _ _) as [k1 [l|e|]]; try case_bool_decide; simplify_eq/=;
      by apply (registered_same k).
  - by simplify_eq.
  - by destruct (d =? wake_fd r); [|destruct (watchers r !! d)]; simplify_eq.
  - pose proof (law_read k (wake_fd r) (reg_eventfd _ _ Hr)) as ((Hf & Hi & _) & _).
    destruct (read_eight _ _) as [k1 full]; simplify_eq/=; by apply (registered_same k).
  - by destruct b; simplify_eq.
  - by simplify_eq.
  - by simplify_eq.
Qed.

Lemma loop_stop_ok k r p n k' p' es :
  loop_step k r p = Some (k', p', es) → stop_ok (mkSystem k r p n) →
  stop_ok (mkSystem k' r p' n).
Proof.
  unfold stop_ok. simpl. intros Hs Hok t -> Hst.
  destruct p as [| |b t'|b [|[d bits] rest] acc|b rest acc|b [|[e cb] todo] m|b todo m];
    simpl in Hs; try done.
  - rewrite Hst in Hs. done.
  - pose proof (law_wait k (epoll_fd r) (to_int (ready_size r)) t') as (_ & _ & Hc).
    destruct (epoll_wait _ _ _ _) as [k1 [l|e|]]; try case_bool_decide; simplify_eq/=.
    rewrite Hc. eauto.
  - destruct (d =? wake_fd r); [|destruct (watchers r !! d)]; by simplify_eq.
  - destruct (read_eight _ _) as [k1 [|]]; by simplify_eq.
  - by destruct b; simplify_eq.
Qed.

Lemma step_ok s es s' : reactor_step strerror f s es s' → system_ok s → system_ok s'.
Proof.
  intros Hs [Hr Hst].
  destruct Hs as [c k r p n k' r' o Hm Hl|k r p n|k r p n|k r p n k' p' es Hl|k r b todo m n e
    |k r n|t k r n|k r p n k' He]; unfold system_ok, stop_ok in *; simpl in *.
  - split; simpl; [by eapply locked_registered|]. intros t ->.
    destruct (locked_answers _ _ _ _ _ _ Hl) as (_ & _ & _ & -> & -> & _).
    destruct (locked_changes _ _ _ _ _ _ Hl Hr) as (_ & _ & ->). intros Hs'.
    destruct (Hst t eq_refl Hs'); [by left|]. right. case_match; simpl; lia.
  - split; simpl; [destruct Hr; by split|]. right. lia.
  - pose proof (law_write k (wake_fd r) (reg_eventfd _ _ Hr)) as ((Hf & Hi & _) & Hc).
    unfold wake. rewrite (proj2 (Z.ltb_ge (wake_fd r) 0)) by apply Hr.
    split; simpl; [by apply (registered_same k)|]. by left.
  - split; simpl; [by eapply loop_registered|]. by eapply loop_stop_ok.
  - split; done.
  - split; [|done]. simpl. unfold run_entry. destruct (run_clears_stopping f); [|done].
    destruct Hr. by split.
  - split; [done|]. by unfold runOnce_entry.
  - destruct He as (Hi & Hw & Hc & He). split; simpl; [by apply (registered_frame k)|].
    intros t Ht Hs'. rewrite Hc. eauto.
Qed.

Lemma reachable_ok s : reachable (reactor_lts strerror f) s → system_ok s.
Proof.
  apply reachable_invariant; [apply init_ok|]. intros; by eapply step_ok.
Qed.

(** *** Without closes from outside the registrations are exactly the watchers *)

(** What the watchers ask of the kernel, and the eventfd. *)
Definition asked (r : State) : gmap Z Z :=
  <[wake_fd r := EPOLLIN]> (toNativeEvents ∘ watched <$> watchers r).

Definition steady_ok (s : system) : Prop :=
  system_ok s ∧ interest (kern s) (epoll_fd (reactor s)) = asked (reactor s).

Lemma changes_asked k r k' r' :
  changes k r k' r' → epoll_fd r' = epoll_fd r → wake_fd r' = wake_fd r →
  interest k (epoll_fd r) = asked r → interest k' (epoll_fd r') = asked r'.
Proof.
  unfold asked. intros Hch -> -> Hi.
  destruct Hch as [Hw Hi'|d w Hd Hdw Hw Hi'|d Hdw Hw Hi']; rewrite Hw, Hi', Hi; [done| |].
  - rewrite fmap_insert, insert_insert_ne by done. done.
  - by rewrite fmap_delete, delete_insert_ne by done.
Qed.

Lemma steady_step_ok s es s' : steady_step strerror f s es s' → steady_ok s → steady_ok s'.
Proof.
  intros [Hs Hkeep] [Hok Hi]. split; [by eapply step_ok|]. destruct Hok as [Hr _].
  destruct Hs as [c k r p n k' r' o Hm Hl|k r p n|k r p n|k r p n k' p' es Hl|k r b todo m n e
    |k r n|t k r n|k r p n k' He]; simpl in *; try done.
  - destruct (locked_answers _ _ _ _ _ _ Hl) as (_ & _ & He & Hw & _).
    destruct (locked_changes _ _ _ _ _ _ Hl Hr) as (Hch & _). by eapply changes_asked.
  - by rewrite Hkeep.
  - destruct (loop_frame _ _ _ _ _ _ Hl (reg_eventfd _ _ Hr)) as (_ & Hi' & _). by rewrite Hi'.
  - unfold run_entry. by destruct (run_clears_stopping f).
  - by rewrite Hkeep.
Qed.

Lemma steady_reachable s : reachable (steady_lts strerror f) s → steady_ok s.
Proof.
  apply reachable_invariant; [|intros s1 o s2 Hs1 Hst; exact (steady_step_ok _ _ _ Hst Hs1)].
  intros s0 Hs0. split; [by apply init_ok|]. destruct Hs0 as (k & n & i & Hm & _ & _).
  apply make_ok in Hm as (_ & Hw & _ & _ & _ & _ & _ & _ & _ & Hi).
  unfold asked. by rewrite Hw, fmap_empty, insert_empty.
Qed.

(** ** The loop thread alone *)

Lemma loop_alone_step fuel k r p k' p' es :
  loop_step k r p = Some (k', p', es) →
  loop_alone (S fuel) k r p
  = let '(k2, p2, es2) := loop_alone fuel k' r p' in (k2, p2, es ++ es2).
Proof. intros Hs. simpl. by rewrite Hs. Qed.

Lemma loop_alone_outside fuel k r : loop_alone fuel k r Outside = (k, Outside, []).
Proof. by destruct fuel. Qed.

(** How the loop ends after a batch of [n] callbacks. *)
Definition ending (b : bool) (n : Z) : list event :=
  if b then [RunReturned] else [RunOnceReturned n].

Lemma dispatch_alone b r todo n fuel k :
  (b = true → stopping r = true) → (2 * length todo + 2 ≤ fuel)%nat →
  loop_alone fuel k r (Dispatch b todo n)
  = (k, Outside, (uncurry Invoked <$> todo) ++ ending b n).
Proof.
  intros Hb. revert fuel. induction todo as [|[e cb] todo IH]; intros fuel Hf; simpl in Hf.
  - destruct fuel as [|[|fuel]]; [lia|lia|].
    destruct b; simpl; [by rewrite Hb, loop_alone_outside|done].
  - destruct fuel as [|[|fuel]]; [lia|lia|].
    erewrite loop_alone_step by done. erewrite loop_alone_step by done.
    by rewrite IH by lia.
Qed.

(** Draining the eventfd takes at most two reads. *)
Lemma drain_alone b r rest acc fuel k :
  is_eventfd k (wake_fd r) = true → (2 ≤ fuel)%nat →
  ∃ k' fuel', (fuel ≤ fuel' + 2)%nat ∧ (fuel' ≤ fuel)%nat
    ∧ loop_alone fuel k r (Drain b rest acc) = loop_alone fuel' k' r (Collect b rest acc)
    ∧ is_eventfd k' (wake_fd r) = true ∧ counter k' (wake_fd r) ≤ 0.
Proof.
  intros He Hf. destruct fuel as [|[|fuel]]; [lia|lia|].
  destruct (law_read k (wake_fd r) He) as (((_ & Hk) & _) & Hc & Hb).
  destruct (read_eight k (wake_fd r)) as [k1 full] eqn:E. cbn [fst snd] in *. subst full.
  assert (is_eventfd k1 (wake_fd r) = true) as He1 by (by rewrite Hk).
  case_bool_decide; cycle 1.
  { exists k1, (S fuel). split_and!; try done; [lia|lia|].
    erewrite (loop_alone_step (S fuel) k) by (simpl; by rewrite E).
    by destruct (loop_alone (S fuel) k1 r (Collect b rest acc)) as [[? ?] ?]. }
  destruct (law_read k1 (wake_fd r) He1) as (((_ & Hk2) & _) & Hc2 & Hb2).
  destruct (read_eight k1 (wake_fd r)) as [k2 full] eqn:E2. cbn [fst snd] in *. subst full.
  exists k2, fuel. split_and!; [lia|lia| |by rewrite Hk2|done].
  erewrite (loop_alone_step (S fuel) k) by (simpl; by rewrite E).
  erewrite (loop_alone_step fuel k1) by (simpl; by rewrite E2). rewrite bool_decide_false by lia.
  by destruct (loop_alone fuel k2 r (Collect b rest acc)) as [[? ?] ?].
Qed.

Lemma batch_of_cons idx wfd t d bits l :
  batch_of idx wfd t ((d, bits) :: l)
  = match (if d =? wfd then None
           else (λ w, (mkEvent d (fromNativeEvents bits) idx, callback w)) <$> t !! d) with
    | Some e => e :: batch_of idx wfd t l
    | None => batch_of idx wfd t l
    end.
Proof. done. Qed.

Lemma batch_of_snoc idx wfd t d bits l :
  batch_of idx wfd t (l ++ [(d, bits)])
  = batch_of idx wfd t l ++ batch_of idx wfd t [(d, bits)].
Proof. apply omap_app. Qed.

Lemma batch_of_bounds idx wfd t l :
  (fd ∘ fst <$> batch_of idx wfd t l) `sublist_of` l.*1
  ∧ (length (batch_of idx wfd t l) ≤ length l)%nat.
Proof.
  induction l as [|[d bits] l [IH1 IH2]]; [done|]. rewrite batch_of_cons.
  destruct (d =? wfd); [|destruct (t !! d)]; simpl; (split; [by constructor|lia]).
Qed.

(** The rest of a batch: everything still to be looked up is called back, in
    order, and the eventfd is left empty when the kernel reported it. *)
Lemma collect_alone b r l : (b = true → stopping r = true) → ∀ fuel k acc,
  is_eventfd k (wake_fd r) = true → (3 * length l + 2 * length acc + 3 ≤ fuel)%nat →
  let todo := acc ++ batch_of (index r) (wake_fd r) (watchers r) l in
  ∃ k', loop_alone fuel k r (Collect b l acc)
    = (k', Outside, (uncurry Invoked <$> todo) ++ ending b (Z.of_nat (length todo)))
  ∧ (wake_fd r ∈ l.*1 → counter k' (wake_fd r) ≤ 0)
  ∧ (counter k (wake_fd r) ≤ 0 → counter k' (wake_fd r) ≤ 0).
Proof.
  intros Hb. induction l as [|[d bits] l IH]; intros fuel k acc He Hf; simpl in Hf;
    (destruct fuel as [|fuel]; [lia|]).
  - exists k. erewrite loop_alone_step by done. simpl. rewrite app_nil_r, dispatch_alone by (done || lia).
    split_and!; [done| |done]. intros Hin%elem_of_nil. done.
  - cbn zeta. rewrite batch_of_cons. destruct (Z.eqb_spec d (wake_fd r)) as [->|Hne].
    + erewrite loop_alone_step by (simpl; by rewrite Z.eqb_refl).
      destruct (drain_alone b r l acc fuel k He) as (k1 & fuel' & H1 & H2 & -> & He1 & Hc);
        [lia|].
      destruct (IH fuel' k1 acc He1) as (k' & -> & Hw & Hk); [lia|]. exists k'. split_and!; auto.
    + assert (wake_fd r ∈ d :: l.*1 → wake_fd r ∈ l.*1) as Hin.
      { intros [Heq|?]%elem_of_cons; [by destruct Hne|done]. }
      destruct (watchers r !! d) as [w|] eqn:Hw.
      * erewrite loop_alone_step by (simpl; by rewrite (proj2 (Z.eqb_neq _ _) Hne), Hw).
        edestruct (IH fuel k (acc ++ [(mkEvent d (fromNativeEvents bits) (index r), callback w)])
          He) as (k' & -> & Hk1 & Hk2); [rewrite length_app; simpl; lia|].
        rewrite <-app_assoc. exists k'. simpl. split_and!; eauto.
      * erewrite loop_alone_step by (simpl; by rewrite (proj2 (Z.eqb_neq _ _) Hne), Hw).
        destruct (IH fuel k acc He) as (k' & -> & Hk1 & Hk2); [lia|].
        exists k'. simpl. split_and!; eauto.
Qed.

(** A loop that is asked to stop, and whose wake-ups are done, does not sleep. *)
Lemma stopping_awake s t :
  system_ok s → stopping (reactor s) = true → wakers s = 0%nat → pc s = Wait true t →
  loop_step (kern s) (reactor s) (pc s) ≠ None.
Proof.
  intros [Hr Hst] Hstop Hw Hp. rewrite Hp. simpl. destruct (Hst t Hp Hstop); [|lia].
  destruct (epoll_wait _ _ _ _) as [k1 [l|e|]] eqn:Hwt; [done|by case_bool_decide|].
  pose proof (law_wait_blocks _ _ _ _ _ _ Hwt (reg_wake _ _ Hr) (reg_eventfd _ _ Hr)). lia.
Qed.

(** ** Simulation by the registry *)

(** [acc] are the callbacks of a part of the kernel's report. *)
Definition collected (r : State) (acc : list (EpollEvent * Callback)) : Prop :=
  ∃ l, acc = batch_of (index r) (wake_fd r) (watchers r) l.

Definition batch_at (r : State) (p : loop_pc)
    (b : option (list (EpollEvent * Callback) * Z)) : Prop :=
  match p with
  | Outside | RunCheck | Wait _ _ => b = None
  | Collect _ _ acc | Drain _ _ acc => b = None ∧ collected r acc
  | Dispatch _ todo n | InCallback _ todo n => b = Some (todo, n)
  end.

Definition simulates (i w : Z) (s : system) (a : registry) : Prop :=
  index (reactor s) = i ∧ wake_fd (reactor s) = w ∧ table a = watchers (reactor s)
  ∧ batch_at (reactor s) (pc s) (batch a).

Lemma simulates_loop i w k r p n a k' p' es :
  simulates i w (mkSystem k r p n) a → loop_step k r p = Some (k', p', es) →
  ∃ a', run (registry_lts i w) a es a' ∧ simulates i w (mkSystem k' r p' n) a'.
Proof.
  intros (Hi & Hw & Ht & Hb) Hs. destruct a as [t b0]. simpl in *. subst t i w.
  assert (∀ b', batch_at r p' b' → registry_step (index r) (wake_fd r)
      (mkRegistry (watchers r) b0) es (mkRegistry (watchers r) b') →
    ∃ a', run (registry_lts (index r) (wake_fd r)) (mkRegistry (watchers r) b0) es a'
      ∧ simulates (index r) (wake_fd r) (mkSystem k' r p' n) a') as Hone.
  { intros b' Hb' Hst. exists (mkRegistry (watchers r) b'). split; [by apply run_one|done]. }
  assert (es = [] → batch_at r p' b0 →
    ∃ a', run (registry_lts (index r) (wake_fd r)) (mkRegistry (watchers r) b0) es a'
      ∧ simulates (index r) (wake_fd r) (mkSystem k' r p' n) a') as Hstay.
  { intros -> Hb'. exists (mkRegistry (watchers r) b0). split; [constructor|done]. }
  destruct p as [| |b t|b [|[d bits] rest] acc|b rest acc|b [|[e cb] todo] m|b todo m];
    simpl in Hs, Hb.
  - done.
  - subst b0. destruct (stopping r); simplify_eq; [|by apply Hstay].
    apply (Hone None); [done|constructor].
  - subst b0. destruct (epoll_wait _ _ _ _) as [k1 [l|e|]]; try case_bool_decide; simplify_eq.
    + apply Hstay; [done|]. split; [done|]. by exists [].
    + by apply Hstay.
    + apply (Hone None); [done|constructor].
  - destruct Hb as [-> [l ->]]. simplify_eq.
    eapply (Hone (Some _)); [done|constructor].
  - destruct Hb as [-> [l Hl]]. destruct (Z.eqb_spec d (wake_fd r)) as [->|Hne].
    { simplify_eq. apply Hstay; [done|]. split; [done|]. by exists l. }
    destruct (watchers r !! d) as [wt|] eqn:Hd; simplify_eq; apply Hstay; try done;
      (split; [done|]); exists (l ++ [(d, bits)]); rewrite batch_of_snoc, batch_of_cons;
      rewrite (proj2 (Z.eqb_neq _ _) Hne), Hd; simpl; [done|by rewrite app_nil_r].
  - destruct Hb as [-> Hl]. destruct (read_eight _ _) as [k1 full]. simplify_eq.
    apply Hstay; [done|]. by destruct full.
  - subst b0. destruct b; simplify_eq; apply (Hone None); by constructor.
  - subst b0. simplify_eq. apply (Hone (Some (todo, m))); by constructor.
  - subst b0. simplify_eq. by apply Hstay.
Qed.

Lemma simulates_step i w s a es s' :
  simulates i w s a → reactor_step strerror f s es s' →
  ∃ a', run (registry_lts i w) a es a' ∧ simulates i w s' a'.
Proof.
  intros Hsim Hs. destruct Hs as [c k r p n k' r' o Hm Hl|k r p n|k r p n|k r p n k' p' es Hl
    |k r b todo m n e|k r n|t k r n|k r p n k' He];
    [| | |by eapply simulates_loop| | | |];
    destruct a as [t0 b0], Hsim as (Hi & Hw & Ht & Hb); simpl in *; subst t0.
  - destruct (locked_answers _ _ _ _ _ _ Hl) as (Ha & Hi' & _ & Hw' & _).
    exists (mkRegistry (watchers r') b0). split; [apply run_one; constructor; congruence|].
    split_and!; simpl; try congruence.
    destruct p; simpl in *; try done.
  - exists (mkRegistry (watchers r) b0). split; [apply run_one; constructor|]. done.
  - exists (mkRegistry (watchers r) b0). split; [constructor|done].
  - exists (mkRegistry (watchers r) None). split; [apply run_one; constructor|done].
  - exists (mkRegistry (watchers r) b0). split; [constructor|].
    unfold run_entry. by destruct (run_clears_stopping f).
  - exists (mkRegistry (watchers r) b0). split; [constructor|done].
  - exists (mkRegistry (watchers r) b0). split; [constructor|done].
Qed.

(** ** Properties *)

(** C21: the reactor is a table of callbacks.  Every interleaving of [add],
    [modify], [remove], [runOnce], [run] and [stop] calls, whatever the kernel
    answers, is one of a table from descriptors to watchers: each call succeeds
    or throws as the table says (a failed [add] or [modify] leaves it alone),
    and the callbacks invoked are, batch by batch and in the kernel's order,
    those that were registered for the reported descriptors at one instant. *)
Theorem epoll_refines_registry s0 es s
    (Hinit : reactor_init strerror f s0) (Hrun : run (reactor_lts strerror f) s0 es s) :
  ∃ a, run (registry_lts (index (reactor s0)) (wake_fd (reactor s0))) (mkRegistry ∅ None) es a
    ∧ table a = watchers (reactor s).
Proof.
  assert (simulates (index (reactor s0)) (wake_fd (reactor s0)) s0 (mkRegistry ∅ None)) as Hsim.
  { destruct Hinit as (k & n & i & Hm & Hpc & _). apply make_ok in Hm as (_ & Hw & _).
    split_and!; simpl; [done|done|done|by rewrite Hpc]. }
  destruct (simulation_run (reactor_lts strerror f)
    (registry_lts (index (reactor s0)) (wake_fd (reactor s0))) (simulates _ _)
    (λ s a o s', simulates_step _ _ s a o s') _ _ _ Hrun _ Hsim) as (a & Hr & (_ & _ & Ha & _)).
  eauto.
Qed.

(** C22: the kernel watches what the table says.  As long as the rest of the
    process closes no registered descriptor, the interest list of the epoll
    instance is, in every reachable state, {e exactly} the eventfd for reading
    and every watcher with its events translated: none missing, none left over,
    none out of date.  Whatever the rest of the process closes, nothing is left
    over or out of date, the eventfd stays registered and no watcher is on a
    negative descriptor or on the eventfd; and a call that throws leaves the
    interest list as it was. *)
Theorem epoll_kernel_agrees s (Hs : reachable (reactor_lts strerror f) s) :
  let k := kern s in
  let r := reactor s in
  interest k (epoll_fd r) !! wake_fd r = Some EPOLLIN
  ∧ (∀ d ev, interest k (epoll_fd r) !! d = Some ev → d ≠ wake_fd r →
       ∃ w, watchers r !! d = Some w ∧ ev = toNativeEvents (watched w))
  ∧ (∀ d w, watchers r !! d = Some w → 0 ≤ d ∧ d ≠ wake_fd r)
  ∧ (∀ c k' r' e, locked k r c = (k', r', Throws e) →
       interest k' (epoll_fd r) = interest k (epoll_fd r))
  ∧ (reachable (steady_lts strerror f) s →
       interest k (epoll_fd r)
       = <[wake_fd r := EPOLLIN]> (toNativeEvents ∘ watched <$> watchers r)).
Proof.
  apply reachable_ok in Hs as [[H1 H2 H3 H4 H5] _].
  split_and!; [done|done|done|intros c k' r' e; apply locked_throws|].
  by intros [_ Hi]%steady_reachable.
Qed.

(** [stop] ends [run].  Once [stop] has been called and its write to the
    eventfd is done, the loop inside [run] does not sleep in [epoll_wait], and
    from any other point of [run], or when [epoll_wait] reports, the loop thread
    alone makes its remaining callbacks and returns. *)
Theorem epoll_stop_ends_run s (Hs : reachable (reactor_lts strerror f) s)
    (Hstop : stopping (reactor s) = true) (Hw : wakers s = 0%nat) :
  (∀ t, pc s = Wait true t → loop_step (kern s) (reactor s) (pc s) ≠ None)
  ∧ (match pc s with
     | RunCheck | Collect true _ _ | Drain true _ _ | Dispatch true _ _ | InCallback true _ _ => True
     | Wait true t => ∃ k l, epoll_wait (kern s) (epoll_fd (reactor s))
         (to_int (ready_size (reactor s))) t = (k, Ready l)
     | _ => False
     end → ∃ fuel k es, loop_alone fuel (kern s) (reactor s) (pc s)
                        = (k, Outside, es ++ [RunReturned])).
Proof.
  apply reachable_ok in Hs. split; [by intros t; apply stopping_awake|].
  destruct Hs as [Hr _], s as [k r p n]. simpl in *. pose proof (reg_eventfd _ _ Hr) as He.
  destruct p as [| |[] t|[] rest acc|[] rest acc|[] todo m|[] todo m]; try done.
  - intros _. exists 1%nat, k, []. simpl. by rewrite Hstop.
  - intros (k1 & l & Hwt).
    assert (is_eventfd k1 (wake_fd r) = true) as He1.
    { pose proof (law_wait k (epoll_fd r) (to_int (ready_size r)) t) as ((_ & Hk) & _).
      rewrite Hwt in Hk. simpl in Hk. by rewrite Hk. }
    destruct (collect_alone true r l (λ _, Hstop) _ k1 [] He1 (reflexivity _)) as (k' & Hl & _).
    eexists (S _), k', _. erewrite loop_alone_step by (simpl; by rewrite Hwt).
    by rewrite Hl.
  - intros _. destruct (collect_alone true r rest (λ _, Hstop) _ k acc He (reflexivity _))
      as (k' & Hl & _). eexists _, k', _. exact Hl.
  - intros _. destruct (drain_alone true r rest acc (3 * length rest + 2 * length acc + 5) k He)
      as (k1 & fuel & ? & ? & Hl & He1 & _); [lia|].
    destruct (collect_alone true r rest (λ _, Hstop) fuel k1 acc He1) as (k' & Hc & _); [lia|].
    eexists _, k', _. by rewrite Hl, Hc.
  - intros _. eexists _, k, _. by rewrite dispatch_alone by (done || reflexivity).
  - intros _. eexists (S _), k, _. erewrite loop_alone_step by done.
    by rewrite dispatch_alone by (done || reflexivity).
Qed.

(** C23: what one [runOnce] does.  When [epoll_wait] reports, the thread alone
    invokes exactly the watchers of the reported descriptors, in the kernel's
    order, each descriptor at most once and at most as many as the buffer
    holds, returns their number, and has emptied the eventfd if it was
    reported; when nothing is ready it sleeps, when a signal interrupts the
    wait it waits again, and any other error is thrown. *)
Theorem epoll_runOnce_exact k r timeout (Hr : registered_ok k r) :
  let start := runOnce_entry timeout in
  match epoll_wait k (epoll_fd r) (to_int (ready_size r)) (timeoutToMilliseconds timeout) with
  | (k1, Ready l) =>
      let todo := batch_of (index r) (wake_fd r) (watchers r) l in
      (∃ fuel k', loop_alone fuel k r start
         = (k', Outside, (uncurry Invoked <$> todo) ++ [RunOnceReturned (Z.of_nat (length todo))])
         ∧ (wake_fd r ∈ l.*1 → counter k' (wake_fd r) ≤ 0))
      ∧ NoDup (fd ∘ fst <$> todo) ∧ Z.of_nat (length todo) ≤ to_int (ready_size r)
  | (_, Blocks) => loop_step k r start = None
  | (k1, WaitError e) =>
      if decide (e = EINTR) then loop_step k r start = Some (k1, start, [])
      else loop_step k r start = Some (k1, Outside, [LoopThrew (systemError strerror "epoll_wait" e)])
  end.
Proof.
  intros start. unfold start, runOnce_entry. set (t := timeoutToMilliseconds timeout).
  destruct (epoll_wait _ _ _ _) as [k1 [l|e|]] eqn:Hwt.
  - set (todo := batch_of (index r) (wake_fd r) (watchers r) l).
    pose proof (law_wait k (epoll_fd r) (to_int (ready_size r)) t) as ((_ & Hk) & _).
    rewrite Hwt in Hk. simpl in Hk.
    assert (is_eventfd k1 (wake_fd r) = true) as He1 by (rewrite Hk; apply Hr).
    destruct (law_wait_ready _ _ _ _ _ _ Hwt) as (Hlen & Hnd & _).
    destruct (batch_of_bounds (index r) (wake_fd r) (watchers r) l) as (Hsub & Hle).
    split_and!; [|by eapply sublist_NoDup|fold todo in Hle; lia].
    assert (false = true → stopping r = true) as Hf by done.
    destruct (collect_alone false r l Hf _ k1 [] He1 (reflexivity _)) as (k' & Hl & Hc & _).
    eexists (S _), k'. split; [|done]. erewrite loop_alone_step by (simpl; by rewrite Hwt).
    by rewrite Hl.
  - simpl. rewrite Hwt. case_bool_decide; by case_decide.
  - simpl. by rewrite Hwt.
Qed.

(** C24: what a construction leaves behind.  A reactor that is built owns two
    new descriptors, watches only its eventfd and has no watchers, and destroying
    it gives both descriptors back.  A construction that fails on its argument
    or on a call of the kernel has closed every descriptor it opened, and blames
    the argument exactly when it is zero.  A construction that fails because the
    buffer for [epoll_wait] cannot be allocated leaves its two new descriptors,
    and nothing else, open for good. *)
Theorem epoll_make_exact k max_events idx :
  match make k max_events idx with
  | (k', Returns r) =>
      max_events ≠ 0 ∧ resize_ready k' max_events = None
      ∧ index r = idx ∧ ready_size r = max_events ∧ watchers r = ∅
      ∧ stopping r = false ∧ epoll_fd r ≠ wake_fd r
      ∧ (epoll_fd r ∉ open_fds k) ∧ (wake_fd r ∉ open_fds k)
      ∧ interest k' (epoll_fd r) = {[wake_fd r := EPOLLIN]}
      ∧ open_fds k' = {[epoll_fd r; wake_fd r]} ∪ open_fds k
      ∧ open_fds (destroy k' r) = open_fds k
  | (k', Throws e) => failed_from k k' max_events e
  end.
Proof.
  destruct (make k max_events idx) as [k' [r|e]] eqn:Hm; [|by eapply make_throws].
  pose proof (make_distinct _ _ _ _ _ Hm) as Hd. pose proof (make_resized _ _ _ _ _ Hm) as Hz.
  apply make_ok in Hm as (Hr & Hw & Hst & Hi & Hn & Hne & Ho & He & Hwk & Hint).
  destruct (reg_fds _ _ Hr) as [He0 Hw0]. split_and!; try done.
  unfold destroy. rewrite (proj2 (Z.leb_le 0 (wake_fd r))), (proj2 (Z.leb_le 0 (epoll_fd r)))
    by done. rewrite !law_close, Ho. set_solver.
Qed.
End theory.

(** Both translations are a choice for every flag. *)
Lemma from_native_exact bits :
  let e := mkEvent 3 (fromNativeEvents bits) 0 in
  readable e = has bits EPOLLIN ∧ writable e = has bits EPOLLOUT
  ∧ error e = has bits EPOLLERR ∧ hangUp e = has bits EPOLLHUP
  ∧ peerClosed e = has bits EPOLLRDHUP ∧ 0 ≤ events e < 128.
Proof.
  unfold readable, writable, error, hangUp, peerClosed, fromNativeEvents, or_if.
  destruct (has bits EPOLLIN), (has bits EPOLLOUT), (has bits EPOLLERR), (has bits EPOLLHUP),
    (has bits EPOLLRDHUP); by vm_compute.
Qed.

Lemma to_native_exact ev :
  let native := toNativeEvents ev in
  let back := mkEvent 3 (fromNativeEvents native) 0 in
  has native EPOLLIN = has ev Event_Read ∧ has native EPOLLOUT = has ev Event_Write
  ∧ has native EPOLLET = has ev Event_EdgeTriggered
  ∧ has native EPOLLONESHOT = has ev Event_OneShot ∧ has native EPOLLRDHUP = true
  ∧ has native EPOLLERR = false ∧ has native EPOLLHUP = false
  ∧ readable back = has ev Event_Read ∧ writable back = has ev Event_Write
  ∧ error back = false ∧ hangUp back = false ∧ peerClosed back = true.
Proof.
  unfold toNativeEvents, or_if.
  destruct (has ev Event_Read), (has ev Event_Write), (has ev Event_EdgeTriggered),
    (has ev Event_OneShot); by vm_compute.
Qed.

(** The translation of events and timeouts.  What the kernel is told asks
    for exactly the events the caller asked for, and always for the closing of
    the peer; what the callback is told about an event is exactly what the
    kernel reported; the round trip keeps read and write interest; a timeout is
    -1 when it is negative and otherwise the largest [int] not above it. *)
Theorem epoll_translation_exact ev bits t :
  let native := toNativeEvents ev in
  let e := mkEvent 3 (fromNativeEvents bits) 0 in
  let back := mkEvent 3 (fromNativeEvents native) 0 in
  has native EPOLLIN = has ev Event_Read ∧ has native EPOLLOUT = has ev Event_Write
  ∧ has native EPOLLET = has ev Event_EdgeTriggered
  ∧ has native EPOLLONESHOT = has ev Event_OneShot ∧ has native EPOLLRDHUP = true
  ∧ has native EPOLLERR = false ∧ has native EPOLLHUP = false
  ∧ readable e = has bits EPOLLIN ∧ writable e = has bits EPOLLOUT
  ∧ error e = has bits EPOLLERR ∧ hangUp e = has bits EPOLLHUP
  ∧ peerClosed e = has bits EPOLLRDHUP ∧ 0 ≤ events e < 128
  ∧ readable back = has ev Event_Read ∧ writable back = has ev Event_Write
  ∧ error back = false ∧ hangUp back = false ∧ peerClosed back = true
  ∧ -1 ≤ timeoutToMilliseconds t ≤ int_max
  ∧ timeoutToMilliseconds t = Z.max (-1) (Z.min t int_max).
Proof.
  intros native e back.
  assert (-1 ≤ timeoutToMilliseconds t ≤ int_max
    ∧ timeoutToMilliseconds t = Z.max (-1) (Z.min t int_max)) as Ht.
  { unfold timeoutToMilliseconds, int_max. destruct (Z.ltb_spec t 0); [lia|].
    destruct (Z.ltb_spec 2147483647 t); lia. }
  pose proof (from_native_exact bits) as Hfrom.
  pose proof (to_native_exact ev) as Hto.
  subst native e back. cbn zeta in *. destruct_and?. by split_and!.
Qed.

(** ** Concrete runs *)

(** A schedule is a list of actions; [play] performs one on a system. *)
Inductive action :=
  | PlayCall (c : call)
  | PlayStop
  | PlayWake
  | PlayLoop
  | PlayRun
  | PlayRunOnce (t : Z)
  | PlayReady (d bits : Z).

Section play.
Context (f : flavour).
Let strerror : errno → string := λ _, "error"%string.

Definition play (a : action) (s : system (K:=kernel))
    : option (system (K:=kernel) * list event) :=
  let '(mkSystem k r p n) := s in
  match a with
  | PlayCall c =>
      if holds_mutex p then None
      else let '(k', r', o) := locked strerror f k r c in
           Some (mkSystem k' r' p (if wakes_after f o then S n else n), [Called c o])
  | PlayStop => Some (mkSystem k (r <| stopping := true |>) p (S n), [StopCalled])
  | PlayWake => match n with O => None | S n => Some (mkSystem (wake k r) r p n, []) end
  | PlayLoop =>
      match loop_step strerror k r p with
      | Some (k', p', es) => Some (mkSystem k' r p' n, es)
      | None => None
      end
  | PlayRun =>
      match p with Outside => Some (mkSystem k (run_entry f r) RunCheck n, []) | _ => None end
  | PlayRunOnce t =>
      match p with Outside => Some (mkSystem k r (runOnce_entry t) n, []) | _ => None end
  | PlayReady d bits => Some (mkSystem (k <| activity ::= <[d := bits]> |>) r p n, [])
  end.

Fixpoint plays (l : list action) (s : system (K:=kernel))
    : option (system (K:=kernel) * list event) :=
  match l with
  | [] => Some (s, [])
  | a :: l =>
      match play a s with
      | Some (s, es) =>
          match plays l s with Some (s, es') => Some (s, es ++ es') | None => None end
      | None => None
      end
  end.

Lemma play_step a s s' es : play a s = Some (s', es) → reactor_step strerror f s es s'.
Proof.
  destruct s as [k r p n]. destruct a as [c| | | | |t|d bits]; simpl; intros Hp.
  - destruct (holds_mutex p) eqn:Hm; [done|].
    destruct (locked strerror f k r c) as [[k' r'] o] eqn:Hl. simplify_eq. by apply step_call.
  - simplify_eq. apply step_stop.
  - destruct n; simplify_eq. apply step_wake.
  - destruct (loop_step _ _ _ _) as [[[k' p'] es']|] eqn:Hl; simplify_eq. by apply step_loop.
  - destruct p; simplify_eq. apply step_run.
  - destruct p; simplify_eq. apply step_runOnce.
  - simplify_eq. by apply step_elsewhere.
Qed.

Lemma plays_run l s s' es :
  plays l s = Some (s', es) → run (reactor_lts strerror f) s es s'.
Proof.
  revert s es. induction l as [|a l IH]; simpl; intros s es Hp; [simplify_eq; constructor|].
  destruct (play a s) as [[s1 es1]|] eqn:Ha; [|done].
  destruct (plays l s1) as [[s2 es2]|] eqn:Hl; simplify_eq.
  econstructor; [by eapply play_step|eauto].
Qed.

(** Does a schedule close no registered descriptor behind the reactor's back? *)
Fixpoint plays_steady (l : list action) (s : system (K:=kernel)) : bool :=
  match l with
  | [] => true
  | a :: l =>
      match play a s with
      | Some (s', es) =>
          match es with
          | [] => bool_decide (interest (kern s') (epoll_fd (reactor s))
                               = interest (kern s) (epoll_fd (reactor s)))
          | _ => true
          end && plays_steady l s'
      | None => true
      end
  end.

Lemma plays_steady_run l s s' es :
  plays l s = Some (s', es) → plays_steady l s = true → run (steady_lts strerror f) s es s'.
Proof.
  revert s es. induction l as [|a l IH]; simpl; intros s es Hp Hs; [simplify_eq; constructor|].
  destruct (play a s) as [[s1 es1]|] eqn:Ha; [|done].
  destruct (plays l s1) as [[s2 es2]|] eqn:Hl; simplify_eq.
  apply andb_true_iff in Hs as [Hk Hs]. econstructor; [|by eauto].
  split; [by eapply play_step|]. intros ->. by apply bool_decide_eq_true in Hk.
Qed.

Definition fresh_system : option (system (K:=kernel)) :=
  match make strerror f (mkKernel {[0; 1; 2; 7; 8]} 3 100 ∅ ∅ ∅ 1) 16 0 with
  | (k, Returns r) => Some (mkSystem k r Outside 0)
  | _ => None
  end.

(** The events of a schedule on a fresh reactor. *)
Definition scenario (l : list action) : option (system (K:=kernel) * list event) :=
  s ← fresh_system; plays l s.

Lemma scenario_run l s es :
  scenario l = Some (s, es) →
  ∃ s0, reactor_init strerror f s0 ∧ run (reactor_lts strerror f) s0 es s.
Proof.
  unfold scenario, fresh_system.
  destruct (make _ _ _ _ _) as [k [r|e]] eqn:Hm; simpl; [|done].
  intros Hp%plays_run. eexists. split; [|exact Hp]. by eexists _, _, _.
Qed.
End play.

Lemma scenario_events f l es :
  snd <$> scenario f l = Some es →
  ∃ s0 s, reactor_init (λ _, "error"%string) f s0
    ∧ run (reactor_lts (λ _, "error"%string) f) s0 es s.
Proof.
  destruct (scenario f l) as [[s es']|] eqn:E; simpl; intros [= <-].
  apply scenario_run in E as (s0 & ? & ?). eauto.
Qed.

Lemma scenario_state {A} f l (φ : system (K:=kernel) → A) v :
  φ ∘ fst <$> scenario f l = Some v →
  ∃ s, reachable (reactor_lts (λ _, "error"%string) f) s ∧ φ s = v.
Proof.
  destruct (scenario f l) as [[s es]|] eqn:E; simpl; intros [= <-].
  apply scenario_run in E as (s0 & ? & ?). exists s. split; [|done]. by exists s0, es.
Qed.

(** Two descriptors are ready at once; [run] starts on their batch. *)
Definition two_ready : list action :=
  [PlayCall (Add 7 5 (Some 70)); PlayCall (Add 8 1 (Some 80)); PlayCall (Add 9 1 (Some 90));
   PlayReady 7 1; PlayReady 8 16; PlayRun] ++ replicate 7 PlayLoop.

(** The kernel interrupts the first wait; descriptor 9 is not open. *)
Lemma epoll_refines_registry_witness :
  ∃ s0 s a, reactor_init (λ _, "error"%string) epollReactor s0
  ∧ run (reactor_lts (λ _, "error"%string) epollReactor) s0
      [Called (Add 7 5 (Some 70)) (Returns true); Called (Add 8 1 (Some 80)) (Returns true);
       Called (Add 9 1 (Some 90)) (Throws (RuntimeError "epoll_ctl add failed: error"));
       Invoked (mkEvent 7 1 0) 70] s
  ∧ table a = watchers (reactor s).
Proof.
  destruct (scenario_events epollReactor two_ready _ eq_refl) as (s0 & s & Hi & Hr).
  destruct (epoll_refines_registry (λ _, "error"%string) epollReactor s0 _ s Hi Hr)
    as (a & _ & Ha).
  by exists s0, s, a.
Defined.

Lemma scenario_steady f l s es :
  scenario f l = Some (s, es) →
  (s0 ← fresh_system f; Some (plays_steady f l s0)) = Some true →
  reachable (steady_lts (λ _, "error"%string) f) s ∧ reachable (reactor_lts (λ _, "error"%string) f) s.
Proof.
  unfold scenario, fresh_system. destruct (make _ _ _ _ _) as [k [r|e]] eqn:Hm; simpl; [|done].
  intros Hp [= Hs]. pose proof (plays_run _ _ _ _ _ Hp) as Hr.
  apply plays_steady_run in Hp; [|done].
  split; eexists _, es; (split; [|done]); by eexists _, _, _.
Qed.

(** Two watchers and the eventfd, no registration for descriptor 9, which is
    not open; the registration of 7 follows [modify]. *)
Lemma epoll_kernel_agrees_witness :
  ∃ s, reachable (reactor_lts (λ _, "error"%string) epollReactor) s
  ∧ interest (kern s) (epoll_fd (reactor s))
    = {[wake_fd (reactor s) := EPOLLIN; 7 := Z.lor EPOLLOUT EPOLLRDHUP;
        8 := Z.lor EPOLLIN EPOLLRDHUP]}.
Proof.
  destruct (scenario epollReactor (two_ready ++ [PlayCall (Modify 7 2)])) as [[s es]|] eqn:E;
    [|vm_compute in E; discriminate].
  destruct (scenario_steady _ _ _ _ E ltac:(by vm_compute)) as [Hst Hs].
  exists s. split; [done|].
  destruct (epoll_kernel_agrees (λ _, "error"%string) epollReactor s Hs) as (_ & _ & _ & _ & Heq).
  rewrite (Heq Hst). vm_compute in E. injection E as <- _. by vm_compute.
Defined.

Lemma epoll_stop_ends_run_witness :
  ∃ s, reachable (reactor_lts (λ _, "error"%string) epollReactor) s
  ∧ pc s = InCallback true [(mkEvent 8 32 0, 80)] 2
  ∧ ∃ fuel k es, loop_alone (λ _, "error"%string) fuel (kern s) (reactor s) (pc s)
      = (k, Outside, es ++ [RunReturned]).
Proof.
  destruct (scenario_state epollReactor (two_ready ++ [PlayStop; PlayWake])
    (λ s, (pc s, stopping (reactor s), wakers s)) (InCallback true [(mkEvent 8 32 0, 80)] 2, true, 0%nat)
    ltac:(by vm_compute)) as (s & Hs & [= Hpc Hst Hw]).
  exists s. split; [done|]. split; [done|].
  apply (epoll_stop_ends_run (λ _, "error"%string) epollReactor s Hs Hst Hw). by rewrite Hpc.
Defined.

Lemma epoll_runOnce_exact_witness :
  ∃ s, reachable (reactor_lts (λ _, "error"%string) epollReactor) s
  ∧ match epoll_wait (kern s) (epoll_fd (reactor s)) (to_int (ready_size (reactor s)))
      (timeoutToMilliseconds 5) with
    | (_, Ready l) =>
        NoDup (fd ∘ fst <$> batch_of 0 (wake_fd (reactor s)) (watchers (reactor s)) l)
        ∧ length l = 2%nat
    | _ => False
    end.
Proof.
  destruct (scenario_state epollReactor two_ready
    (λ s, (index (reactor s),
           match (epoll_wait (kern s) (epoll_fd (reactor s)) (to_int (ready_size (reactor s)))
             (timeoutToMilliseconds 5)).2 with Ready l => length l | _ => 0%nat end)) (0, 2%nat) ltac:(by vm_compute))
    as (s & Hs & Hv).
  pose proof (f_equal fst Hv) as Hi. pose proof (f_equal snd Hv) as Hl. cbn [fst snd] in Hi, Hl.
  exists s. split; [done|].
  pose proof (epoll_runOnce_exact (λ _, "error"%string) (kern s) (reactor s) 5
    (proj1 (reachable_ok _ _ s Hs))) as H. cbn zeta in H. rewrite Hi in H.
  revert H Hl. destruct (epoll_wait _ _ _ _) as [k1 [l|e|]]; intros H Hl; [|done|done].
  split; [apply H|exact Hl].
Defined.

(** No descriptor left for the eventfd: the epoll instance is closed again.  No
    room for two million events: both descriptors stay open. *)
Lemma epoll_make_exact_witness :
  match make (λ _, "error"%string) epollReactor (mkKernel {[0; 1]} 3 4 ∅ ∅ ∅ 0) 16 0,
    make (λ _, "error"%string) epollReactor (mkKernel {[0; 1]} 3 100 ∅ ∅ ∅ 0) 2097152 0 with
  | (k, Throws e), (k', Throws e') =>
      open_fds k = {[0; 1]} ∧ e = RuntimeError "eventfd failed: error"
      ∧ e' = BadAlloc ∧ ∃ ep wfd, ep ≠ wfd ∧ open_fds k' = {[ep; wfd]} ∪ {[0; 1]}
  | _, _ => False
  end.
Proof.
  pose proof (epoll_make_exact (λ _, "error"%string) epollReactor
    (mkKernel {[0; 1]} 3 4 ∅ ∅ ∅ 0) 16 0) as H1.
  pose proof (epoll_make_exact (λ _, "error"%string) epollReactor
    (mkKernel {[0; 1]} 3 100 ∅ ∅ ∅ 0) 2097152 0) as H2.
  revert H1 H2. destruct (make _ _ _ 16 0) as [k [r|e]] eqn:Hm; [vm_compute in Hm; discriminate|].
  destruct (make _ _ _ 2097152 0) as [k' [r|e']] eqn:Hm'; [vm_compute in Hm'; discriminate|].
  assert (e = RuntimeError "eventfd failed: error") as -> by (vm_compute in Hm; by injection Hm).
  assert (e' = BadAlloc) as -> by (vm_compute in Hm'; by injection Hm').
  intros [Ho _] (_ & _ & ep & wfd & Hne & _ & _ & Ho'). split_and!; [done..|]. by exists ep, wfd.
Defined.

(** An allocation failure leaks both descriptors of the construction. *)
Theorem epoll_make_leaks :
  (λ x, (bool_decide (open_fds x.1 = {[0; 1; 3; 4]}), match x.2 with Throws e => Some e | _ => None end))
    <$> [make (λ _, "error"%string) epollReactor (mkKernel {[0; 1]} 3 100 ∅ ∅ ∅ 0) 2097152 0;
         make (λ _, "error"%string) epollReactor (mkKernel {[0; 1]} 3 100 ∅ ∅ ∅ 0) (2 ^ 60) 0]
  = [(true, Some BadAlloc);
     (true, Some (LengthError "vector::_M_default_append"))].
Proof. by vm_compute. Qed.

(** A [stop] that comes before [run] is lost: [run] clears the flag, drains the
    eventfd and sleeps.  The event loop of multi_thread_reactor, which does not
    clear the flag, returns at once. *)
Theorem epoll_stop_before_run_lost :
  (λ x, (pc x.1, stopping (reactor x.1), play epollReactor PlayLoop x.1)) <$>
    scenario epollReactor ([PlayStop; PlayWake; PlayRun] ++ replicate 9 PlayLoop)
  = Some (Wait true (-1), false, None)
  ∧ snd <$> scenario eventLoop [PlayStop; PlayWake; PlayRun; PlayLoop]
    = Some [StopCalled; RunReturned].
Proof. by vm_compute. Qed.

(** A callback can still be invoked after [remove] has returned: the batch was
    copied before. *)
Theorem epoll_stale_callback :
  snd <$> scenario epollReactor (two_ready ++ [PlayCall (Remove 8); PlayLoop; PlayLoop])
  = Some [Called (Add 7 5 (Some 70)) (Returns true); Called (Add 8 1 (Some 80)) (Returns true);
          Called (Add 9 1 (Some 90)) (Throws (RuntimeError "epoll_ctl add failed: error"));
          Invoked (mkEvent 7 1 0) 70; Called (Remove 8) (Returns true);
          Invoked (mkEvent 8 32 0) 80].
Proof. by vm_compute. Qed.
