(* ===== verification/MultiReactor.v ===== *)
(** * multi_thread_reactor: one event loop per thread

    [foundation::EventLoop] and [foundation::MultiThreadReactor]
    (multi_thread_reactor/src/multi_thread_reactor.cpp).  [EventLoop] is the
    reactor of EpollReactor.v in the flavour [eventLoop].  The first part of
    [MultiThreadReactor] models the calls as functions, run by one thread; the
    second interleaves any number of clients with the worker threads, one
    critical section or atomic access at a time, and with thread creation that
    may fail.  A client may be the calls that the callbacks of one loop make
    ([Callers]): it moves only while that loop's thread is inside a callback,
    which does not return before its call.  An exception that escapes a callback or the loop of a worker
    terminates the process; the runs modelled end there. *)

From S2P Require Import Prelude Kernel EpollReactor.
Open Scope Z_scope.

(** ** EventLoop *)

Module EventLoop.

(** [ReactorEvents] are the bits of [EpollEvents]; the helpers are those of the
    reactor, line by line. *)
Definition toNativeEvents (events : Z) : Z := EpollReactor.toNativeEvents events.
Definition fromNativeEvents (events : Z) : Z := EpollReactor.fromNativeEvents events.
Definition timeoutToMilliseconds (timeout : Z) : Z := EpollReactor.timeoutToMilliseconds timeout.
Definition setNonBlocking {K} getfl setfl (k : K) (d : Z) : K * bool :=
  EpollReactor.setNonBlocking getfl setfl k d.

Section event_loop.
Context `{Kernel K} (strerror : errno → string).

Definition systemError (operation : string) (e : errno) : exn :=
  EpollReactor.systemError strerror operation e.

Definition make (k : K) (max_events index : Z) : K * outcome State :=
  EpollReactor.make strerror eventLoop k max_events index.
Definition destroy (k : K) (r : State) : K := EpollReactor.destroy k r.

Definition add (k : K) (r : State) (fd events : Z) (cb : option Callback)
    : K * State * outcome bool :=
  call_alone strerror eventLoop k r (Add fd events cb).
Definition modify (k : K) (r : State) (fd events : Z) : K * State * outcome bool :=
  call_alone strerror eventLoop k r (Modify fd events).
Definition remove (k : K) (r : State) (fd : Z) : K * State * outcome bool :=
  call_alone strerror eventLoop k r (Remove fd).

(** One access of [runOnce] or of [run], which does not clear [stopping]. *)
Definition run_start (r : State) : State * loop_pc := (run_entry eventLoop r, RunCheck).
Definition runOnce_start (timeout : Z) : loop_pc := runOnce_entry timeout.
Definition loop (k : K) (r : State) (p : loop_pc) : option (K * loop_pc * list event) :=
  loop_step strerror k r p.

(** [stop] before its [wake]. *)
Definition request_stop (r : State) : State := r <| stopping := true |>.
Definition wake (k : K) (r : State) : K := EpollReactor.wake k r.

Definition contains (r : State) (fd : Z) : bool := EpollReactor.contains r fd.
Definition size (r : State) : Z := EpollReactor.size r.
Definition index (r : State) : Z := EpollReactor.index r.
End event_loop.
End EventLoop.

(** ** MultiThreadReactor *)

Record Config := mkConfig {
  worker_threads : Z;
  max_events_per_loop : Z;
}.
#[export] Instance eta_Config : Eta Config := λ c,
  mkConfig (worker_threads c) (max_events_per_loop c).

(** [threads]: for each thread the loop it runs. *)
Record Reactor := mkReactor {
  config : Config;
  loops : list State;
  threads : list nat;
  owners : gmap Z nat;
  is_running : bool;
  stopped_after_start : bool;
  next_loop : Z;
}.
#[export] Instance eta_Reactor : Eta Reactor := λ m,
  mkReactor (config m) (loops m) (threads m) (owners m) (is_running m)
    (stopped_after_start m) (next_loop m).

(** [hardware]: [std::thread::hardware_concurrency()]. *)
Definition normalizeWorkerCount (hardware configured : Z) : Z :=
  if 0 <? configured then configured else if hardware =? 0 then 2 else hardware.

Section reactor.
Context `{Kernel K} (strerror : errno → string).

Definition refuse (what : string) : exn := InvalidArgument ("MultiThreadReactor" +:+ what).

(** *** Construction *)

(** The loops made so far are destroyed when one cannot be made. *)
Fixpoint make_loops (count : nat) (k : K) (max_events i : Z) : K * outcome (list State) :=
  match count with
  | O => (k, Returns [])
  | S count =>
      match EventLoop.make strerror k max_events i with
      | (k, Throws e) => (k, Throws e)
      | (k, Returns r) =>
          match make_loops count k max_events (i + 1) with
          | (k, Throws e) => (EventLoop.destroy k r, Throws e)
          | (k, Returns rs) => (k, Returns (r :: rs))
          end
      end
  end.

Definition make (hardware : Z) (k : K) (cfg : Config) : K * outcome Reactor :=
  let cfg := cfg <| worker_threads ::= normalizeWorkerCount hardware |> in
  if max_events_per_loop cfg =? 0
  then (k, Throws (refuse " max_events_per_loop must be positive"))
  else match make_loops (Z.to_nat (worker_threads cfg)) k (max_events_per_loop cfg) 0 with
  | (k, Throws e) => (k, Throws e)
  | (k, Returns rs) => (k, Returns (mkReactor cfg rs [] ∅ false false 0))
  end.

(** *** The calls, piece by piece *)

Definition running (m : Reactor) : bool := is_running m.
Definition workerCount (m : Reactor) : Z := Z.of_nat (length (loops m)).
Definition size (m : Reactor) : Z := Z.of_nat (base.size (owners m)).

(** The checks of [add]; the callback it goes on with. *)
Definition add_check (m : Reactor) (fd : Z) (cb : option Callback) : outcome Callback :=
  if fd <? 0 then Throws (refuse " cannot add a negative fd")
  else match cb with
  | None => Throws (refuse " callback cannot be empty")
  | Some cb =>
      if negb (running m)
      then Throws (RuntimeError "MultiThreadReactor must be started before add")
      else Returns cb
  end.

(** [next_loop.fetch_add(1) % loops.size()]. *)
Definition next_index (m : Reactor) : nat := Z.to_nat (next_loop m mod workerCount m).
Definition take_index (m : Reactor) : Reactor := m <| next_loop ::= λ n, n ⊕ 1 |>.

Definition add_owner (m : Reactor) (fd : Z) (i : nat) : outcome Reactor :=
  match owners m !! fd with
  | Some _ => Throws (refuse " fd is already registered")
  | None => Returns (m <| owners ::= <[fd := i]> |>)
  end.
Definition drop_owner (m : Reactor) (fd : Z) : Reactor := m <| owners ::= delete fd |>.

(** *** The calls, run by one thread *)

Definition on_loop (m : Reactor) (i : nat) (r : State) : Reactor := m <| loops ::= <[i := r]> |>.

Definition add (k : K) (m : Reactor) (fd events : Z) (cb : option Callback)
    : K * Reactor * outcome nat :=
  match add_check m fd cb with
  | Throws e => (k, m, Throws e)
  | Returns cb =>
      let i := next_index m in
      let m := take_index m in
      match add_owner m fd i, loops m !! i with
      | Throws e, _ => (k, m, Throws e)
      | Returns m, None => (k, m, Returns i)
      | Returns m, Some r =>
          let '(k, r, o) := EventLoop.add strerror k r fd events (Some cb) in
          let m := on_loop m i r in
          match o with
          | Throws e => (k, drop_owner m fd, Throws e)
          | Returns _ => (k, m, Returns i)
          end
      end
  end.

Definition modify (k : K) (m : Reactor) (fd events : Z) : K * Reactor * outcome bool :=
  match owners m !! fd with
  | None => (k, m, Throws (refuse " fd is not registered"))
  | Some i =>
      match loops m !! i with
      | None => (k, m, Returns false)
      | Some r =>
          let '(k, r, o) := EventLoop.modify strerror k r fd events in (k, on_loop m i r, o)
      end
  end.

Definition remove (k : K) (m : Reactor) (fd : Z) : K * Reactor * outcome bool :=
  match owners m !! fd with
  | None => (k, m, Returns false)
  | Some i =>
      let m := drop_owner m fd in
      match loops m !! i with
      | None => (k, m, Returns false)
      | Some r => let '(k, r, o) := EventLoop.remove strerror k r fd in (k, on_loop m i r, o)
      end
  end.
End reactor.

(** ** The interleaving *)

(** Where a client is.  [AddOwner] to [RemoveLoop] are between the critical
    sections of one call; [StartWaiting] and [StopWaiting] are at the lock of
    the lifecycle mutex; [Starting], [Unwinding], [UnwindJoining], [Stopping]
    and [Joining] hold it and are at thread or loop [j]. *)
Inductive client :=
  | Idle
  | AddOwner (fd ev : Z) (cb : Callback) (i : nat)
  | AddLoop (fd ev : Z) (cb : Callback) (i : nat)
  | AddRollback (fd : Z) (e : exn)
  | ModifyLoop (fd ev : Z) (i : nat)
  | RemoveLoop (fd : Z) (i : nat)
  | StartWaiting
  | Starting (j : nat)
  | Unwinding (j : nat) (e : exn)
  | UnwindJoining (j : nat) (e : exn)
  | StopWaiting
  | Stopping (j : nat)
  | Joining (j : nat).

Definition is_idle (c : client) : bool := match c with Idle => true | _ => false end.

(** Which clients are callbacks: [loop_of j] is the loop whose thread runs the
    callbacks that make the calls of client [j]. *)
Class Callers := loop_of : nat → option nat.

Inductive mevent :=
  | OnLoop (i : nat) (e : event)
  | Added (fd : Z) (o : outcome nat)
  | Modified (fd : Z) (o : outcome bool)
  | Removed (fd : Z) (o : outcome bool)
  | Started (o : outcome unit)
  | StoppedAll.

Record msystem {K : Type} := mkMSystem {
  kernel_ : K;
  multi : Reactor;
  pcs : list loop_pc;           (* of the thread of each loop *)
  pending : list nat;           (* wake-ups of each loop still to be written *)
  detached : list nat;          (* loops whose thread stop has detached *)
  lifecycle : bool;             (* is the lifecycle mutex held? *)
  clients : list client;
}.
Arguments msystem : clear implicits.
#[export] Instance eta_msystem K : Eta (msystem K) := λ s,
  mkMSystem K (kernel_ s) (multi s) (pcs s) (pending s) (detached s) (lifecycle s) (clients s).

Section interleaving.
Context `{Kernel K} {callers : Callers} (strerror : errno → string).
Local Abbreviation msystem := (msystem K).

(** A call on loop [i], under its mutex; the wake-up is left pending. *)
Definition loop_call (s : msystem) (i : nat) (c : call) : option (msystem * outcome bool) :=
  match loops (multi s) !! i, pcs s !! i with
  | Some r, Some p =>
      if holds_mutex p then None
      else let '(k, r, o) := locked strerror eventLoop (kernel_ s) r c in
           Some (s <| kernel_ := k |> <| multi ::= λ m, on_loop m i r |>
                   <| pending ::= if wakes_after eventLoop o then alter S i else id |>, o)
  | _, _ => None
  end.

(** [loops[j]->stop()], its wake-up left pending. *)
Definition stop_loop (s : msystem) (j : nat) : msystem :=
  s <| multi ::= λ m, m <| loops ::= alter EventLoop.request_stop j |> |>
    <| pending ::= alter S j |>.

Definition count (s : msystem) : nat := length (loops (multi s)).

(** One step of a client; [spawn] is the exception that creating a thread
    throws, if it does; [self] is the loop of the calling thread. *)
Definition client_step (spawn : option exn) (self : option nat) (s : msystem) (c : client)
    : option (msystem * client * list mevent) :=
  match c with
  | Idle => None
  | AddOwner fd ev cb i =>
      match add_owner (multi s) fd i with
      | Throws e => Some (s, Idle, [Added fd (Throws e)])
      | Returns m => Some (s <| multi := m |>, AddLoop fd ev cb i, [])
      end
  | AddLoop fd ev cb i =>
      '(s, o) ← loop_call s i (Add fd ev (Some cb));
      match o with
      | Returns _ => Some (s, Idle, [Added fd (Returns i)])
      | Throws e => Some (s, AddRollback fd e, [])
      end
  | AddRollback fd e =>
      Some (s <| multi ::= λ m, drop_owner m fd |>, Idle, [Added fd (Throws e)])
  | ModifyLoop fd ev i =>
      '(s, o) ← loop_call s i (Modify fd ev); Some (s, Idle, [Modified fd o])
  | RemoveLoop fd i =>
      '(s, o) ← loop_call s i (Remove fd); Some (s, Idle, [Removed fd o])
  | StartWaiting =>
      let m := multi s in
      if lifecycle s then None
      else if is_running m then Some (s, Idle, [Started (Returns tt)])
      else if stopped_after_start m then
        Some (s, Idle, [Started (Throws
          (RuntimeError "MultiThreadReactor cannot be restarted after stop"))])
      else Some (s <| multi := m <| is_running := true |> |> <| lifecycle := true |>,
                 Starting 0, [])
  | Starting j =>
      if (j <? count s)%nat then
        match spawn with
        | None =>
            Some (s <| multi ::= λ m, m <| threads ::= λ l, l ++ [j] |> |>
                    <| pcs ::= <[j := RunCheck]> |>, Starting (S j), [])
        | Some e => Some (s, Unwinding 0 e, [])
        end
      else Some (s <| lifecycle := false |>, Idle, [Started (Returns tt)])
  | Unwinding j e =>
      if (j <? count s)%nat then Some (stop_loop s j, Unwinding (S j) e, [])
      else Some (s, UnwindJoining 0 e, [])
  | UnwindJoining j e =>
      match threads (multi s) !! j with
      | Some i =>
          match pcs s !! i with
          | Some Outside => Some (s, UnwindJoining (S j) e, [])
          | _ => None
          end
      | None =>
          Some (s <| multi ::= λ m, m <| threads := [] |> <| is_running := false |>
                                       <| stopped_after_start := true |> |>
                  <| lifecycle := false |>, Idle, [Started (Throws e)])
      end
  | StopWaiting =>
      let m := multi s in
      if lifecycle s then None
      else if negb (is_running m) then Some (s, Idle, [StoppedAll])
      else Some (s <| multi := m <| is_running := false |> <| stopped_after_start := true |> |>
                   <| lifecycle := true |>, Stopping 0, [])
  | Stopping j =>
      if (j <? count s)%nat then Some (stop_loop s j, Stopping (S j), [])
      else Some (s, Joining 0, [])
  | Joining j =>
      match threads (multi s) !! j with
      | Some i =>
          if bool_decide (self = Some i)
          then Some (s <| detached ::= cons i |>, Joining (S j), [])
          else match pcs s !! i with
               | Some Outside => Some (s, Joining (S j), [])
               | _ => None
               end
      | None =>
          Some (s <| multi ::= λ m, m <| threads := [] |> |> <| lifecycle := false |>,
                Idle, [StoppedAll])
      end
  end.

(** A client enters a call. *)
Inductive entry :=
  | CallAdd (fd ev : Z) (cb : option Callback)
  | CallModify (fd ev : Z)
  | CallRemove (fd : Z)
  | CallStart
  | CallStop.

(** Up to the end of its first critical section, or its first atomic access;
    [start] and [stop] come to the lock of the lifecycle mutex. *)
Definition enter (s : msystem) (c : entry) : option (msystem * client * list mevent) :=
  let m := multi s in
  match c with
  | CallAdd fd ev cb =>
      match add_check m fd cb with
      | Throws e => Some (s, Idle, [Added fd (Throws e)])
      | Returns cb => Some (s <| multi := take_index m |>, AddOwner fd ev cb (next_index m), [])
      end
  | CallModify fd ev =>
      match owners m !! fd with
      | None => Some (s, Idle, [Modified fd (Throws (refuse " fd is not registered"))])
      | Some i => Some (s, ModifyLoop fd ev i, [])
      end
  | CallRemove fd =>
      match owners m !! fd with
      | None => Some (s, Idle, [Removed fd (Returns false)])
      | Some i => Some (s <| multi := drop_owner m fd |>, RemoveLoop fd i, [])
      end
  | CallStart => Some (s, StartWaiting, [])
  | CallStop => Some (s, StopWaiting, [])
  end.

Definition escapes (e : event) : bool := match e with LoopThrew _ => true | _ => false end.

(** What the rest of the process does to the kernel, seen from every loop. *)
Definition elsewhere_all (k k' : K) (m : Reactor) : Prop :=
  ∀ i r, loops m !! i = Some r → elsewhere k k' r.

Definition is_callback (p : loop_pc) : bool :=
  match p with InCallback _ _ _ => true | _ => false end.
Definition in_callback (s : msystem) (i : nat) : Prop :=
  ∃ p, pcs s !! i = Some p ∧ is_callback p = true.

(** Has the callback of loop [i] no call of the reactor under way? *)
Definition calls_over (s : msystem) (i : nat) : bool :=
  forallb (λ x, negb (bool_decide (loop_of x.1 = Some i)) || is_idle x.2) (imap pair (clients s)).

(** A callback makes its calls while its loop is in it, one at a time, and the
    loop goes on when they have returned. *)
Inductive multi_step : msystem → list mevent → msystem → Prop :=
  | multi_client spawn j s c s' c' es :
      clients s !! j = Some c → client_step spawn (loop_of j) s c = Some (s', c', es) →
      multi_step s es (s' <| clients := <[j := c']> (clients s) |>)
  | multi_enter e j s s' c' es :
      clients s !! j = Some Idle → (∀ i, loop_of j = Some i → in_callback s i) →
      enter s e = Some (s', c', es) →
      multi_step s es (s' <| clients := <[j := c']> (clients s) |>)
  | multi_loop i s r p k' p' es :
      loops (multi s) !! i = Some r → pcs s !! i = Some p →
      (is_callback p = true → calls_over s i = true) →
      loop_step strerror (kernel_ s) r p = Some (k', p', es) → existsb escapes es = false →
      multi_step s (OnLoop i <$> es) (s <| kernel_ := k' |> <| pcs := <[i := p']> (pcs s) |>)
  | multi_wake i s r n :
      loops (multi s) !! i = Some r → pending s !! i = Some (S n) →
      multi_step s [] (s <| kernel_ := EventLoop.wake (kernel_ s) r |>
                         <| pending := <[i := n]> (pending s) |>)
  | multi_elsewhere k' s :
      elsewhere_all (kernel_ s) k' (multi s) →
      multi_step s [] (s <| kernel_ := k' |>).

Definition multi_init (hardware : Z) (s : msystem) : Prop :=
  ∃ k cfg, 0 ≤ hardware ∧ 0 ≤ worker_threads cfg
  ∧ make strerror hardware k cfg = (kernel_ s, Returns (multi s))
  ∧ pcs s = replicate (count s) Outside ∧ pending s = replicate (count s) 0%nat
  ∧ detached s = [] ∧ lifecycle s = false ∧ Forall (λ c, c = Idle) (clients s).

Definition multi_lts (hardware : Z) : lts msystem mevent :=
  Lts (multi_init hardware) multi_step.

(** Clients that do not use one descriptor at the same time. *)
Definition busy_with (c : client) : option Z :=
  match c with
  | AddOwner fd _ _ _ | AddLoop fd _ _ _ | AddRollback fd _ | ModifyLoop fd _ _
  | RemoveLoop fd _ => Some fd
  | _ => None
  end.
Definition disciplined (s : msystem) : Prop :=
  ∀ j1 j2 c1 c2 fd, clients s !! j1 = Some c1 → clients s !! j2 = Some c2 →
    busy_with c1 = Some fd → busy_with c2 = Some fd → j1 = j2.
Definition disciplined_lts (hardware : Z) : lts msystem mevent :=
  Lts (multi_init hardware) (λ s es s', multi_step s es s' ∧ disciplined s').

(** The state of one loop, as EpollReactor.v sees it. *)
Definition project (s : msystem) (i : nat) : option (system (K:=K)) :=
  match loops (multi s) !! i, pcs s !! i, pending s !! i with
  | Some r, Some p, Some n => Some (mkSystem (kernel_ s) r p n)
  | _, _, _ => None
  end.
End interleaving.

(** ** Every loop is a reactor *)

Section composition.
Context `{KernelLaws K} {callers : Callers} (strerror : errno → string).
Local Abbreviation msystem := (msystem K).
Local Abbreviation reach := (reachable (reactor_lts strerror eventLoop)).
Implicit Types (s : msystem).

(** *** Construction *)

Lemma make_loops_open n k k' max i rs :
  make_loops strerror n k max i = (k', Returns rs) →
  length rs = n ∧ open_fds k ⊆ open_fds k'
  ∧ (∀ r, r ∈ rs → (epoll_fd r ∈ open_fds k') ∧ (wake_fd r ∈ open_fds k')
      ∧ (epoll_fd r ∉ open_fds k) ∧ (wake_fd r ∉ open_fds k))
  ∧ (∀ d, d ∈ open_fds k → interest k' d = interest k d ∧ counter k' d = counter k d
      ∧ is_eventfd k' d = is_eventfd k d).
Proof.
  revert k i rs. induction n as [|n IH]; intros k i rs; simpl.
  { intros [= <- <-]. split_and!; try done. intros r Hr. by apply elem_of_nil in Hr. }
  destruct (EventLoop.make strerror k max i) as [k1 [r|e]] eqn:Hm; [|done].
  destruct (make_loops strerror n k1 max (i + 1)) as [k2 [rs'|e]] eqn:Hms; [|done].
  intros [= <- <-]. destruct (IH _ _ _ Hms) as (Hlen & Hsub & Hfds & Hframe).
  pose proof (λ d, make_frame strerror eventLoop k k1 max i r d Hm) as Hf.
  apply make_ok in Hm as (_ & _ & _ & _ & _ & _ & Ho & He & Hw & _).
  assert (open_fds k ⊆ open_fds k1) as Hk1 by (rewrite Ho; apply union_subseteq_r).
  assert (epoll_fd r ∈ open_fds k1 ∧ wake_fd r ∈ open_fds k1) as [He1 Hw1].
  { rewrite Ho, !elem_of_union, !elem_of_singleton. tauto. }
  split_and!; [simpl; by rewrite Hlen|by etrans| |].
  - intros x [->|Hx]%elem_of_cons; [by split_and!; auto|].
    destruct (Hfds x Hx) as (? & ? & Hn1 & Hn2). split_and!; [done|done| |].
    + intros Hin. by apply Hn1, Hk1.
    + intros Hin. by apply Hn2, Hk1.
  - intros d Hd. destruct (Hf d Hd) as (<- & <- & <-). by apply Hframe, Hk1.
Qed.

(** Loops have descriptors of their own. *)
Definition apart (l : list State) : Prop :=
  ∀ i j r r', l !! i = Some r → l !! j = Some r' → i ≠ j →
    epoll_fd r ≠ epoll_fd r' ∧ wake_fd r ≠ wake_fd r'.

Lemma make_loops_ok n k k' max i rs :
  make_loops strerror n k max i = (k', Returns rs) →
  apart rs ∧ ∀ j r, rs !! j = Some r →
    reach (mkSystem k' r Outside 0) ∧ watchers r = ∅ ∧ stopping r = false.
Proof.
  revert k i rs. induction n as [|n IH]; intros k i rs; simpl.
  { intros [= <- <-]. split; intros j; intros; by rewrite lookup_nil in *. }
  destruct (EventLoop.make strerror k max i) as [k1 [r|e]] eqn:Hm; [|done].
  destruct (make_loops strerror n k1 max (i + 1)) as [k2 [rs'|e]] eqn:Hms; [|done].
  intros [= <- <-]. destruct (IH _ _ _ Hms) as (Hap & Hreach).
  destruct (make_loops_open _ _ _ _ _ _ Hms) as (_ & _ & Hfds & Hframe).
  pose proof Hm as Hok. apply make_ok in Hok as (_ & Hw & Hst & _ & _ & _ & Ho & _).
  assert (epoll_fd r ∈ open_fds k1 ∧ wake_fd r ∈ open_fds k1) as [He1 Hw1].
  { rewrite Ho, !elem_of_union, !elem_of_singleton. tauto. }
  assert (∀ r', r' ∈ rs' → epoll_fd r ≠ epoll_fd r' ∧ wake_fd r ≠ wake_fd r') as Hne.
  { intros r' Hr'. destruct (Hfds r' Hr') as (_ & _ & Hn1 & Hn2).
    split; intros Heq; [apply Hn1|apply Hn2]; by rewrite <-Heq. }
  split.
  - intros a b x y Ha Hb Hab. destruct a as [|a], b as [|b]; simplify_eq/=.
    + apply Hne. by eapply list_elem_of_lookup_2.
    + destruct (Hne x) as [? ?]; [by eapply list_elem_of_lookup_2|]. by split; apply not_eq_sym.
    + eapply Hap; [done|done|congruence].
  - intros [|j] x Hx; [|by eapply Hreach]. simplify_eq/=. split; [|done].
    eapply (reachable_step _ (mkSystem k1 x Outside 0)).
    + apply reachable_initial. by exists k, max, i.
    + apply step_elsewhere. destruct (Hframe _ He1) as (Hi & _ & _).
      destruct (Hframe _ Hw1) as (_ & Hc & Hev). unfold elsewhere. by rewrite Hi.
Qed.

(** *** Runs *)

Record lanes_ok (s : msystem) : Prop := {
  lanes_pcs : length (pcs s) = count s;
  lanes_pending : length (pending s) = count s;
  lanes_apart : apart (loops (multi s));
  lanes_reach i t : project s i = Some t → reach t;
}.

Lemma project_Some s i t :
  project s i = Some t ↔
  kern t = kernel_ s ∧ loops (multi s) !! i = Some (reactor t) ∧ pcs s !! i = Some (pc t)
  ∧ pending s !! i = Some (wakers t).
Proof.
  unfold project. destruct t as [k r p n]. simpl.
  destruct (loops (multi s) !! i), (pcs s !! i), (pending s !! i); naive_solver.
Qed.

Lemma lane_at s i r :
  lanes_ok s → loops (multi s) !! i = Some r →
  ∃ p n, pcs s !! i = Some p ∧ pending s !! i = Some n
  ∧ reach (mkSystem (kernel_ s) r p n).
Proof.
  intros [Hp Hn _ Hr] Hi. apply lookup_lt_Some in Hi as Hlt. unfold count in *.
  destruct (lookup_lt_is_Some_2 (pcs s) i ltac:(lia)) as [p Hpi].
  destruct (lookup_lt_is_Some_2 (pending s) i ltac:(lia)) as [n Hni].
  exists p, n. split_and!; [done|done|]. apply (Hr i). by apply project_Some.
Qed.

Lemma lane_registered s i r :
  lanes_ok s → loops (multi s) !! i = Some r → registered_ok (kernel_ s) r.
Proof.
  intros Hs Hi. destruct (lane_at _ _ _ Hs Hi) as (p & n & _ & _ & Hr).
  by apply reachable_ok in Hr as [Hr _].
Qed.

(** One loop takes a step, which the others see as one of the rest of the
    process. *)
Lemma lane_step s s' i r p n r' p' n' es :
  lanes_ok s → loops (multi s) !! i = Some r → pcs s !! i = Some p → pending s !! i = Some n →
  loops (multi s') = <[i := r']> (loops (multi s)) →
  pcs s' = <[i := p']> (pcs s) → pending s' = <[i := n']> (pending s) →
  epoll_fd r' = epoll_fd r → wake_fd r' = wake_fd r →
  (∀ j rj, j ≠ i → loops (multi s) !! j = Some rj → elsewhere (kernel_ s) (kernel_ s') rj) →
  reactor_step strerror eventLoop (mkSystem (kernel_ s) r p n) es
    (mkSystem (kernel_ s') r' p' n') →
  lanes_ok s'.
Proof.
  intros Hs Hr Hp Hn Hl' Hp' Hn' He Hw Hother Hstep.
  destruct (lane_at _ _ _ Hs Hr) as (p0 & n0 & Hp0 & Hn0 & Hreach). simplify_eq.
  destruct Hs as [Hlp Hln Hap Hre]. unfold count in *.
  split; unfold count; rewrite ?Hl', ?Hp', ?Hn', ?length_insert; try done.
  - intros a b x y Ha Hb Hab. rewrite list_lookup_insert_Some in Ha, Hb.
    destruct Ha as [(-> & -> & _)|[Hia Ha]], Hb as [(-> & -> & _)|[Hib Hb]];
      rewrite ?He, ?Hw; eauto; done.
  - intros j t (Hk & Htr & Htp & Htn)%project_Some. rewrite Hl' in Htr. rewrite Hp' in Htp.
    rewrite Hn' in Htn. destruct t as [k rt pt nt]; simpl in *. subst k.
    destruct (decide (j = i)) as [->|Hne].
    + apply lookup_lt_Some in Hr, Hp, Hn.
      rewrite list_lookup_insert_eq in Htr by done. rewrite list_lookup_insert_eq in Htp by done.
      rewrite list_lookup_insert_eq in Htn by done.
      simplify_eq. by eapply reachable_step.
    + rewrite list_lookup_insert_ne in Htr by done. rewrite list_lookup_insert_ne in Htp by done.
      rewrite list_lookup_insert_ne in Htn by done.
      eapply (reachable_step _ (mkSystem (kernel_ s) rt pt nt)).
      * apply (Hre j). by apply project_Some.
      * apply step_elsewhere. eauto.
Qed.

(** A step that leaves the loops alone. *)
Lemma lanes_same s s' :
  lanes_ok s → kernel_ s' = kernel_ s → loops (multi s') = loops (multi s) → pcs s' = pcs s →
  pending s' = pending s → lanes_ok s'.
Proof.
  intros [H1 H2 H3 H4] Hk Hl Hp Hn. unfold count in *.
  split; unfold count; rewrite ?Hl, ?Hp, ?Hn; try done.
  intros i t (Ha & Hb & Hc & Hd)%project_Some. apply (H4 i), project_Some. by rewrite <-Hk, <-Hl, <-Hp, <-Hn.
Qed.

Lemma elsewhere_counter k k' i j r rj l :
  apart l → l !! i = Some r → l !! j = Some rj → j ≠ i →
  only_counter k k' (wake_fd r) → elsewhere k k' rj.
Proof.
  intros Hap Hi Hj Hne ((_ & He) & Hin & Hc).
  destruct (Hap _ _ _ _ Hi Hj (not_eq_sym Hne)) as [_ Hw].
  unfold elsewhere. rewrite Hin, He, Hc by congruence. done.
Qed.

Lemma alter_insert {A} (g : A → A) (l : list A) i x :
  l !! i = Some x → alter g i l = <[i := g x]> l.
Proof.
  intros Hi. apply list_eq. intros j. destruct (decide (j = i)) as [->|].
  - rewrite list_lookup_alter_eq, Hi, list_lookup_insert_eq; [done|]. by eapply lookup_lt_Some.
  - by rewrite list_lookup_alter_ne, list_lookup_insert_ne.
Qed.

Lemma lanes_loop_call s i c s' o :
  loop_call strerror s i c = Some (s', o) → lanes_ok s → lanes_ok s'.
Proof.
  unfold loop_call. intros Hc Hs.
  destruct (loops (multi s) !! i) as [r|] eqn:Hr; [|done].
  destruct (pcs s !! i) as [p|] eqn:Hp; [|done].
  destruct (holds_mutex p) eqn:Hm; [done|].
  destruct (locked strerror eventLoop (kernel_ s) r c) as [[k' r'] o'] eqn:Hl. simplify_eq.
  destruct (lane_at _ _ _ Hs Hr) as (p0 & n & Hp0 & Hn & _).
  rewrite Hp in Hp0. injection Hp0 as <-.
  destruct (locked_answers _ _ _ _ _ _ _ _ Hl) as (_ & _ & He & Hw & _).
  destruct (locked_frame _ _ _ _ _ _ _ _ Hl) as ((_ & Hev) & Hcnt & Hint).
  eapply (lane_step s _ i r p n r' p (if wakes_after eventLoop o then S n else n)); try done.
  - simpl. by rewrite list_insert_id.
  - simpl. destruct (wakes_after eventLoop o); [by apply alter_insert|].
    by rewrite list_insert_id.
  - intros j rj Hne Hj. simpl.
    destruct (lanes_apart _ Hs _ _ _ _ Hr Hj (not_eq_sym Hne)) as [Hep _].
    unfold elsewhere. rewrite Hint, Hcnt, Hev by congruence. done.
  - simpl. by apply step_call.
Qed.

(** *** The life cycle *)

(** The calls that hold the lifecycle mutex. *)
Definition in_life (c : client) : bool :=
  match c with
  | Starting _ | Unwinding _ _ | UnwindJoining _ _ | Stopping _ | Joining _ => true
  | _ => false
  end.

(** From loop [m] on no thread runs; below [m] every thread has ended, or was
    detached; below [m] every loop was asked to stop. *)
Definition idle_from s (m : nat) : Prop :=
  ∀ i p, (m ≤ i)%nat → pcs s !! i = Some p → p = Outside.
Definition halted s (m : nat) : Prop :=
  ∀ i p, (i < m)%nat → pcs s !! i = Some p → p = Outside ∨ i ∈ detached s.
Definition asked_to_stop s (m : nat) : Prop :=
  ∀ i r, (i < m)%nat → loops (multi s) !! i = Some r → stopping r = true.

(** The state of the life cycle, by the call that holds the mutex. *)
Definition phase s (c : option client) : Prop :=
  let m := multi s in
  let n := count s in
  match c with
  | None =>
      if is_running m then stopped_after_start m = false ∧ threads m = seq 0 n
      else threads m = []
           ∧ (if stopped_after_start m then asked_to_stop s n ∧ halted s n else idle_from s 0)
  | Some (Starting j) =>
      is_running m = true ∧ stopped_after_start m = false ∧ threads m = seq 0 j ∧ (j ≤ n)%nat
      ∧ idle_from s j
  | Some (Unwinding j _) =>
      is_running m = true ∧ stopped_after_start m = false ∧ asked_to_stop s j
      ∧ ∃ k, (k ≤ n)%nat ∧ threads m = seq 0 k ∧ idle_from s k
  | Some (UnwindJoining j _) =>
      is_running m = true ∧ stopped_after_start m = false ∧ asked_to_stop s n
      ∧ ∃ k, (k ≤ n)%nat ∧ threads m = seq 0 k ∧ idle_from s k ∧ halted s j
  | Some (Stopping j) =>
      is_running m = false ∧ stopped_after_start m = true ∧ threads m = seq 0 n
      ∧ asked_to_stop s j
  | Some (Joining j) =>
      is_running m = false ∧ stopped_after_start m = true ∧ threads m = seq 0 n
      ∧ asked_to_stop s n ∧ halted s j
  | Some _ => True
  end.

Record life_ok s : Prop := {
  life_free : lifecycle s = false → phase s None;
  life_held j c : clients s !! j = Some c → in_life c = true → lifecycle s = true ∧ phase s (Some c);
  life_one j1 j2 c1 c2 : clients s !! j1 = Some c1 → clients s !! j2 = Some c2 →
    in_life c1 = true → in_life c2 = true → j1 = j2;
}.

(** Steps that are not of the life cycle: no thread starts, no stop request is
    withdrawn. *)
Record keeps s s' : Prop := {
  keeps_threads : threads (multi s') = threads (multi s);
  keeps_running : is_running (multi s') = is_running (multi s);
  keeps_stopped : stopped_after_start (multi s') = stopped_after_start (multi s);
  keeps_detached : detached s' = detached s;
  keeps_lifecycle : lifecycle s' = lifecycle s;
  keeps_count : count s' = count s;
  keeps_pcs i p' : pcs s' !! i = Some p' → ∃ p, pcs s !! i = Some p ∧ (p = Outside → p' = Outside);
  keeps_stopping i r' : loops (multi s') !! i = Some r' →
    ∃ r, loops (multi s) !! i = Some r ∧ (stopping r = true → stopping r' = true);
}.

Lemma keeps_idle_from s s' m : keeps s s' → idle_from s m → idle_from s' m.
Proof. intros Hk Hi i p' Hm Hp'. destruct (keeps_pcs _ _ Hk _ _ Hp') as (p & Hp & Ho). eauto. Qed.
Lemma keeps_halted s s' m : keeps s s' → halted s m → halted s' m.
Proof.
  intros Hk Hi i p' Hm Hp'. destruct (keeps_pcs _ _ Hk _ _ Hp') as (p & Hp & Ho).
  rewrite (keeps_detached _ _ Hk). destruct (Hi _ _ Hm Hp); auto.
Qed.
Lemma keeps_asked s s' m : keeps s s' → asked_to_stop s m → asked_to_stop s' m.
Proof.
  intros Hk Hi i r' Hm Hr'. destruct (keeps_stopping _ _ Hk _ _ Hr') as (r & Hr & Ho). eauto.
Qed.

Lemma phase_keeps s s' c : keeps s s' → phase s c → phase s' c.
Proof.
  intros Hk. pose proof (keeps_idle_from _ _ 0%nat Hk). pose proof (λ m, keeps_idle_from _ _ m Hk).
  pose proof (λ m, keeps_halted _ _ m Hk). pose proof (λ m, keeps_asked _ _ m Hk).
  unfold phase. rewrite (keeps_threads _ _ Hk), (keeps_running _ _ Hk), (keeps_stopped _ _ Hk),
    (keeps_count _ _ Hk).
  destruct c as [[]|]; try done; try naive_solver.
  repeat case_match; naive_solver.
Qed.

Lemma keeps_refl s : keeps s s.
Proof. split; eauto. Qed.

(** A client that does not take part in the life cycle moves on. *)
Lemma life_keeps s s' j c c' :
  life_ok s → keeps s s' → clients s' = clients s → clients s !! j = Some c →
  in_life c = false → in_life c' = false → life_ok (s' <| clients := <[j := c']> (clients s) |>).
Proof.
  intros [Hf Hh Ho] Hk Hc Hj Hl Hl'.
  set (s1 := s' <| clients := <[j := c']> (clients s) |>).
  assert (keeps s s1) as Hk1 by (destruct Hk; by split).
  assert (∀ i x, clients s1 !! i = Some x → in_life x = true → clients s !! i = Some x) as Hold.
  { intros i x Hi Hx. simpl in Hi. apply list_lookup_insert_Some in Hi as [(-> & -> & _)|[_ ?]];
      [congruence|done]. }
  split.
  - rewrite (keeps_lifecycle _ _ Hk1). intros Hlf. by eapply phase_keeps, Hf.
  - intros i x Hi Hx. rewrite (keeps_lifecycle _ _ Hk1).
    destruct (Hh i x (Hold _ _ Hi Hx) Hx). split; [done|]. by eapply phase_keeps.
  - intros i1 i2 c1 c2 H1 H2 L1 L2. by apply (Ho i1 i2 c1 c2); [apply Hold|apply Hold| |].
Qed.

(** No client moves. *)
Lemma life_same s s' : life_ok s → keeps s s' → clients s' = clients s → life_ok s'.
Proof.
  intros [Hf Hh Ho] Hk Hc. split; rewrite ?Hc; try done.
  - rewrite (keeps_lifecycle _ _ Hk). intros Hlf. by eapply phase_keeps, Hf.
  - intros i x Hi Hx. rewrite (keeps_lifecycle _ _ Hk).
    destruct (Hh i x Hi Hx). split; [done|]. by eapply phase_keeps.
Qed.

(** The holder of the mutex moves on within its call. *)
Lemma life_move s s' j c c' :
  life_ok s → clients s !! j = Some c → in_life c = true → in_life c' = true →
  lifecycle s' = true → phase s' (Some c') →
  life_ok (s' <| clients := <[j := c']> (clients s) |>).
Proof.
  intros [Hf Hh Ho] Hj Hl Hl' Hlock Hph. split; simpl.
  - by rewrite Hlock.
  - intros i x Hi Hx. split; [done|]. apply list_lookup_insert_Some in Hi as [(-> & -> & _)|[Hne Hi]].
    + exact Hph.
    + destruct Hne. by eapply Ho.
  - intros i1 i2 c1 c2 H1 H2 L1 L2.
    apply list_lookup_insert_Some in H1 as [(-> & -> & _)|[N1 H1]],
      H2 as [(-> & -> & _)|[N2 H2]]; eauto.
Qed.

(** The holder leaves its call. *)
Lemma life_leave s s' j c :
  life_ok s → clients s !! j = Some c → in_life c = true → lifecycle s' = false →
  phase s' None → life_ok (s' <| clients := <[j := Idle]> (clients s) |>).
Proof.
  intros [Hf Hh Ho] Hj Hl Hlock Hph.
  assert (∀ i x, <[j := Idle]> (clients s) !! i = Some x → in_life x = true → False) as Hno.
  { intros i x Hi Hx. apply list_lookup_insert_Some in Hi as [(-> & <- & _)|[Hne Hi]]; [done|].
    destruct Hne. by eapply Ho. }
  split; simpl; [done| |].
  - intros i x Hi Hx. destruct (Hno i x Hi Hx).
  - intros i1 i2 c1 c2 H1 H2 L1 L2. destruct (Hno _ _ H1 L1).
Qed.

(** A client enters a call of the life cycle. *)
Lemma life_enter s s' j c' :
  life_ok s → lifecycle s = false → in_life c' = true → lifecycle s' = true →
  phase s' (Some c') → life_ok (s' <| clients := <[j := c']> (clients s) |>).
Proof.
  intros [Hf Hh Ho] Hfree Hl Hlock Hph.
  assert (∀ i x, clients s !! i = Some x → in_life x = true → False) as Hno.
  { intros i x Hi Hx. destruct (Hh i x Hi Hx). congruence. }
  split; simpl; [by rewrite Hlock| |].
  - intros i x Hi Hx. split; [done|].
    apply list_lookup_insert_Some in Hi as [(-> & <- & _)|[Hne Hi]]; [exact Hph|].
    destruct (Hno i x Hi Hx).
  - intros i1 i2 c1 c2 H1 H2 L1 L2.
    apply list_lookup_insert_Some in H1 as [(-> & _ & _)|[_ H1]]; [|destruct (Hno _ _ H1 L1)].
    apply list_lookup_insert_Some in H2 as [(-> & _ & _)|[_ H2]]; [done|].
    destruct (Hno _ _ H2 L2).
Qed.

(** *** What the steps keep *)

Lemma keeps_on_loop s s' i r r' :
  loops (multi s) !! i = Some r → multi s' = on_loop (multi s) i r' → pcs s' = pcs s →
  detached s' = detached s → lifecycle s' = lifecycle s →
  (stopping r = true → stopping r' = true) → keeps s s'.
Proof.
  intros Hr Hm Hp Hd Hl Hst. split; unfold count; rewrite ?Hm, ?Hp, ?Hd, ?Hl; try done; eauto.
  - simpl. by rewrite length_insert.
  - intros j x Hj. simpl in Hj. apply list_lookup_insert_Some in Hj as [(-> & -> & _)|[_ Hj]]; eauto.
Qed.

Lemma keeps_loop_call s i c s' o : loop_call strerror s i c = Some (s', o) → keeps s s'.
Proof.
  unfold loop_call. destruct (loops (multi s) !! i) as [r|] eqn:Hr; [|done].
  destruct (pcs s !! i) as [p|]; [|done]. destruct (holds_mutex p); [done|].
  destruct (locked strerror eventLoop (kernel_ s) r c) as [[k' r'] o'] eqn:Hl.
  intros [= <- _]. destruct (locked_answers _ _ _ _ _ _ _ _ Hl) as (_ & _ & _ & _ & Hst & _).
  eapply (keeps_on_loop s _ i r r'); try done. by rewrite Hst.
Qed.

Lemma loop_call_clients s i c s' o : loop_call strerror s i c = Some (s', o) → clients s' = clients s.
Proof.
  unfold loop_call. destruct (loops (multi s) !! i) as [r|]; [|done].
  destruct (pcs s !! i) as [p|]; [|done]. destruct (holds_mutex p); [done|].
  destruct (locked strerror eventLoop (kernel_ s) r c) as [[k' r'] o']. by intros [= <- _].
Qed.

(** Records that differ in fields the life cycle does not use. *)
Lemma keeps_fields s s' :
  threads (multi s') = threads (multi s) → is_running (multi s') = is_running (multi s) →
  stopped_after_start (multi s') = stopped_after_start (multi s) →
  loops (multi s') = loops (multi s) → pcs s' = pcs s → detached s' = detached s →
  lifecycle s' = lifecycle s → keeps s s'.
Proof.
  intros H1 H2 H3 H4 H5 H6 H7. split; unfold count; rewrite ?H1, ?H2, ?H3, ?H4, ?H5, ?H6, ?H7; eauto.
Qed.

Lemma keeps_loop_step s i r p k' p' es :
  loops (multi s) !! i = Some r → pcs s !! i = Some p →
  loop_step strerror (kernel_ s) r p = Some (k', p', es) →
  keeps s (s <| kernel_ := k' |> <| pcs := <[i := p']> (pcs s) |>).
Proof.
  intros Hr Hp Hs. split; try done; simpl; eauto.
  intros j x Hj. apply list_lookup_insert_Some in Hj as [(-> & -> & _)|[_ Hj]]; [|eauto].
  exists p. split; [done|]. by intros ->.
Qed.

Lemma keeps_stop_loop s j : keeps s (stop_loop s j).
Proof.
  split; try done; unfold count; simpl; eauto.
  - by rewrite length_alter.
  - intros i x Hi. rewrite list_lookup_alter in Hi. destruct (decide (j = i)) as [->|]; [|eauto].
    destruct (loops (multi s) !! i) as [r|]; simplify_eq/=. eauto.
Qed.

Lemma asked_stop_loop s j m :
  asked_to_stop s j → (m ≤ S j)%nat → asked_to_stop (stop_loop s j) m.
Proof.
  intros Ha Hm i r Hi Hr. simpl in Hr. rewrite list_lookup_alter in Hr.
  destruct (decide (j = i)) as [->|Hne].
  - destruct (loops (multi s) !! i); by simplify_eq/=.
  - apply (Ha i); [lia|done].
Qed.

Lemma asked_all s m n : asked_to_stop s m → (count s ≤ m)%nat → asked_to_stop s n.
Proof. intros Ha Hm i r _ Hr. apply (Ha i); [|done]. apply lookup_lt_Some in Hr. unfold count in *. lia. Qed.

(** One more thread has ended, or was detached. *)
Lemma halted_next s s' j p :
  halted s j → pcs s !! j = Some p → pcs s' = pcs s →
  (∀ i, i ∈ detached s → i ∈ detached s') → p = Outside ∨ j ∈ detached s' → halted s' (S j).
Proof.
  intros Hh Hp Hpcs Hd Ho i x Hi Hx. rewrite Hpcs in Hx.
  destruct (decide (i = j)) as [->|Hne]; [by simplify_eq|].
  destruct (Hh i x ltac:(lia) Hx); auto.
Qed.

(** *** Every step keeps the life cycle *)

Lemma seq_at k j i : seq 0 k !! j = Some i → i = j ∧ (j < k)%nat.
Proof. intros Hi. apply lookup_seq in Hi as [-> ?]. split; [lia|done]. Qed.
Lemma seq_end k j : seq 0 k !! j = None → (k ≤ j)%nat.
Proof. intros Hn%lookup_ge_None. by rewrite length_seq in Hn. Qed.

Lemma life_starting s self j s' c' es spawn i :
  life_ok s → clients s !! i = Some (Starting j) →
  client_step strerror spawn self s (Starting j) = Some (s', c', es) →
  life_ok (s' <| clients := <[i := c']> (clients s) |>).
Proof.
  intros Hok Hi Hs. destruct (life_held _ Hok _ _ Hi eq_refl) as [Hlock Hph].
  destruct Hph as (Hrun & Hstop & Hth & Hj & Hidle). simpl in Hs.
  destruct (Nat.ltb_spec j (count s)) as [Hlt|Hge].
  - destruct spawn as [e|]; injection Hs as <- <- _; apply (life_move _ _ _ _ _ Hok Hi); try done.
    + split_and!; try done; [intros ? ? ?; lia|]. by exists j.
    + split_and!; try done; simpl.
      * rewrite Hth. symmetry. apply seq_S.
      * intros a p Ha Hp. simpl in Hp. rewrite list_lookup_insert_ne in Hp by lia.
        by apply (Hidle a); [lia|].
  - injection Hs as <- <- _. apply (life_leave _ _ _ _ Hok Hi); try done.
    simpl. rewrite Hrun. split; [done|]. rewrite Hth. f_equal. unfold count in *. simpl. lia.
Qed.

Lemma life_unwinding s self j e s' c' es spawn i :
  life_ok s → clients s !! i = Some (Unwinding j e) →
  client_step strerror spawn self s (Unwinding j e) = Some (s', c', es) →
  life_ok (s' <| clients := <[i := c']> (clients s) |>).
Proof.
  intros Hok Hi Hs. destruct (life_held _ Hok _ _ Hi eq_refl) as [Hlock Hph].
  destruct Hph as (Hrun & Hstop & Hask & k & Hk & Hth & Hidle). simpl in Hs.
  destruct (Nat.ltb_spec j (count s)) as [Hlt|Hge]; injection Hs as <- <- _;
    apply (life_move _ _ _ _ _ Hok Hi); try done.
  - pose proof (keeps_stop_loop s j) as Hkeep.
    split_and!; try done; [by apply asked_stop_loop|].
    exists k. split_and!; [by rewrite (keeps_count _ _ Hkeep)|done|by eapply keeps_idle_from].
  - split_and!; try done; [by eapply asked_all|]. exists k. split_and!; try done. intros ? ? ?; lia.
Qed.

Lemma life_unwind_joining s self j e s' c' es spawn i :
  life_ok s → clients s !! i = Some (UnwindJoining j e) →
  client_step strerror spawn self s (UnwindJoining j e) = Some (s', c', es) →
  life_ok (s' <| clients := <[i := c']> (clients s) |>).
Proof.
  intros Hok Hi Hs. destruct (life_held _ Hok _ _ Hi eq_refl) as [Hlock Hph].
  destruct Hph as (Hrun & Hstop & Hask & k & Hk & Hth & Hidle & Hhalt). simpl in Hs.
  rewrite Hth in Hs. destruct (seq 0 k !! j) as [x|] eqn:Hx.
  - apply seq_at in Hx as [-> Hjk]. destruct (pcs s !! j) as [[]|] eqn:Hp; try done.
    injection Hs as <- <- _. apply (life_move _ _ _ _ _ Hok Hi); try done.
    split_and!; try done. exists k. split_and!; try done.
    by eapply (halted_next s); [| | | |left].
  - apply seq_end in Hx. injection Hs as <- <- _. apply (life_leave _ _ _ _ Hok Hi); try done.
    simpl. split; [done|]. split; [done|]. intros a p Ha Hp. simpl in Hp.
    destruct (decide (a < k)%nat); [apply (Hhalt a); [lia|done]|].
    left. apply (Hidle a); [lia|done].
Qed.

Lemma life_stopping s self j s' c' es spawn i :
  life_ok s → clients s !! i = Some (Stopping j) →
  client_step strerror spawn self s (Stopping j) = Some (s', c', es) →
  life_ok (s' <| clients := <[i := c']> (clients s) |>).
Proof.
  intros Hok Hi Hs. destruct (life_held _ Hok _ _ Hi eq_refl) as [Hlock Hph].
  destruct Hph as (Hrun & Hstop & Hth & Hask). simpl in Hs.
  destruct (Nat.ltb_spec j (count s)) as [Hlt|Hge]; injection Hs as <- <- _;
    apply (life_move _ _ _ _ _ Hok Hi); try done.
  - pose proof (keeps_stop_loop s j) as Hkeep.
    split_and!; try done; [by rewrite (keeps_count _ _ Hkeep)|by apply asked_stop_loop].
  - split_and!; try done; [by eapply asked_all|]. intros ? ? ?; lia.
Qed.

Lemma life_joining s self j s' c' es spawn i :
  life_ok s → clients s !! i = Some (Joining j) → lanes_ok s →
  client_step strerror spawn self s (Joining j) = Some (s', c', es) →
  life_ok (s' <| clients := <[i := c']> (clients s) |>).
Proof.
  intros Hok Hi Hla Hs. destruct (life_held _ Hok _ _ Hi eq_refl) as [Hlock Hph].
  destruct Hph as (Hrun & Hstop & Hth & Hask & Hhalt). simpl in Hs.
  rewrite Hth in Hs. destruct (seq 0 (count s) !! j) as [x|] eqn:Hx.
  - apply seq_at in Hx as [-> Hjk].
    destruct (lookup_lt_is_Some_2 (pcs s) j) as [p Hp]; [by rewrite (lanes_pcs _ Hla)|].
    case_bool_decide as Hself.
    + injection Hs as <- <- _. apply (life_move _ _ _ _ _ Hok Hi); try done.
      split_and!; try done. eapply (halted_next s); [done|done|done| |]; simpl.
      * intros a. by right.
      * right. left.
    + rewrite Hp in Hs. destruct p; try done. injection Hs as <- <- _.
      apply (life_move _ _ _ _ _ Hok Hi); try done. split_and!; try done.
      by eapply (halted_next s); [| | | |left].
  - apply seq_end in Hx. injection Hs as <- <- _. apply (life_leave _ _ _ _ Hok Hi); try done.
    simpl. rewrite Hrun, Hstop. split_and!; try done.
    intros a p Ha Hp. apply (Hhalt a); [unfold count in *; simpl in *; lia|done].
Qed.

(** A client gets the lifecycle mutex, or leaves at once. *)
Lemma life_start_waiting s self s' c' es spawn i :
  life_ok s → clients s !! i = Some StartWaiting →
  client_step strerror spawn self s StartWaiting = Some (s', c', es) →
  life_ok (s' <| clients := <[i := c']> (clients s) |>).
Proof.
  intros Hok Hi Hs. simpl in Hs. destruct (lifecycle s) eqn:Hl; [done|].
  pose proof (life_free _ Hok Hl) as Hph. simpl in Hph.
  assert (life_ok (s <| clients := <[i := Idle]> (clients s) |>)) as Hleave
    by (eapply life_keeps; [exact Hok|apply keeps_refl|done|exact Hi|done|done]).
  destruct (is_running (multi s)); [by injection Hs as <- <- _|].
  destruct (stopped_after_start (multi s)) eqn:Hst; [by injection Hs as <- <- _|].
  injection Hs as <- <- _. destruct Hph as [Hth Hidle]. apply life_enter; try done.
  split_and!; simpl; try done. lia.
Qed.

Lemma life_stop_waiting s self s' c' es spawn i :
  life_ok s → clients s !! i = Some StopWaiting →
  client_step strerror spawn self s StopWaiting = Some (s', c', es) →
  life_ok (s' <| clients := <[i := c']> (clients s) |>).
Proof.
  intros Hok Hi Hs. simpl in Hs. destruct (lifecycle s) eqn:Hl; [done|].
  pose proof (life_free _ Hok Hl) as Hph. simpl in Hph.
  assert (life_ok (s <| clients := <[i := Idle]> (clients s) |>)) as Hleave
    by (eapply life_keeps; [exact Hok|apply keeps_refl|done|exact Hi|done|done]).
  destruct (is_running (multi s)); [|by injection Hs as <- <- _]. destruct Hph as [Hst Hth].
  injection Hs as <- <- _. apply life_enter; try done. split_and!; simpl; try done.
  intros ? ? ?; lia.
Qed.

Lemma life_client spawn self s j c s' c' es :
  life_ok s → lanes_ok s → clients s !! j = Some c →
  client_step strerror spawn self s c = Some (s', c', es) →
  life_ok (s' <| clients := <[j := c']> (clients s) |>).
Proof.
  intros Hok Hla Hj Hs.
  destruct c; [done| | | | | |by eapply life_start_waiting|by eapply life_starting
    |by eapply life_unwinding|by eapply life_unwind_joining|by eapply life_stop_waiting
    |by eapply life_stopping|by eapply life_joining]; simpl in Hs.
  - unfold add_owner in Hs. destruct (owners (multi s) !! fd); injection Hs as <- <- _;
      (eapply life_keeps; [exact Hok| |done|exact Hj|done|done]);
      [apply keeps_refl|by apply keeps_fields].
  - destruct (loop_call _ _ _ _) as [[s1 o]|] eqn:Hc; [|done].
    pose proof (loop_call_clients _ _ _ _ _ Hc). apply keeps_loop_call in Hc.
    destruct o; injection Hs as <- <- _; (eapply life_keeps; [exact Hok|done|done|exact Hj|done|done]).
  - injection Hs as <- <- _. eapply life_keeps; [exact Hok|by apply keeps_fields|done|exact Hj|done|done].
  - destruct (loop_call _ _ _ _) as [[s1 o]|] eqn:Hc; [|done].
    pose proof (loop_call_clients _ _ _ _ _ Hc). apply keeps_loop_call in Hc.
    injection Hs as <- <- _. eapply life_keeps; [exact Hok|done|done|exact Hj|done|done].
  - destruct (loop_call _ _ _ _) as [[s1 o]|] eqn:Hc; [|done].
    pose proof (loop_call_clients _ _ _ _ _ Hc). apply keeps_loop_call in Hc.
    injection Hs as <- <- _. eapply life_keeps; [exact Hok|done|done|exact Hj|done|done].
Qed.

Lemma life_entry s j e s' c' es :
  life_ok s → clients s !! j = Some Idle → enter s e = Some (s', c', es) →
  life_ok (s' <| clients := <[j := c']> (clients s) |>).
Proof.
  intros Hok Hj He.
  assert (life_ok (s <| clients := <[j := Idle]> (clients s) |>)) as Hstay
    by (eapply life_keeps; [exact Hok|apply keeps_refl|done|exact Hj|done|done]).
  destruct e as [fd ev cb|fd ev|fd| |]; simpl in He.
  - destruct (add_check (multi s) fd cb); injection He as <- <- _; [|done].
    eapply life_keeps; [exact Hok|by apply keeps_fields|done|exact Hj|done|done].
  - destruct (owners (multi s) !! fd); injection He as <- <- _; [|done].
    eapply life_keeps; [exact Hok|apply keeps_refl|done|exact Hj|done|done].
  - destruct (owners (multi s) !! fd); injection He as <- <- _; [|done].
    eapply life_keeps; [exact Hok|by apply keeps_fields|done|exact Hj|done|done].
  - injection He as <- <- _. eapply life_keeps; [exact Hok|apply keeps_refl|done|exact Hj|done|done].
  - injection He as <- <- _. eapply life_keeps; [exact Hok|apply keeps_refl|done|exact Hj|done|done].
Qed.

(** *** Every step keeps the loops *)

Lemma lanes_clients s cs : lanes_ok s → lanes_ok (s <| clients := cs |>).
Proof. intros Hs. by apply (lanes_same s). Qed.

Lemma lanes_stop_loop s j : lanes_ok s → (j < count s)%nat → lanes_ok (stop_loop s j).
Proof.
  intros Hs Hj. destruct (lookup_lt_is_Some_2 _ _ Hj) as [r Hr].
  destruct (lane_at _ _ _ Hs Hr) as (p & n & Hp & Hn & _).
  eapply (lane_step s _ j r p n (EventLoop.request_stop r) p (S n)); try done; simpl.
  - by apply alter_insert.
  - by rewrite list_insert_id.
  - by apply alter_insert.
  - apply step_stop.
Qed.

Lemma lanes_spawn s j m :
  lanes_ok s → loops m = loops (multi s) → (j < count s)%nat → pcs s !! j = Some Outside →
  lanes_ok (s <| multi := m |> <| pcs ::= <[j := RunCheck]> |>).
Proof.
  intros Hs Hm Hj Hp. destruct (lookup_lt_is_Some_2 _ _ Hj) as [r Hr].
  destruct (lane_at _ _ _ Hs Hr) as (p & n & Hp' & Hn & _).
  rewrite Hp in Hp'. injection Hp' as <-.
  eapply (lane_step s _ j r Outside n r RunCheck n); try done; simpl.
  - by rewrite Hm, list_insert_id.
  - by rewrite list_insert_id.
  - apply (step_run strerror eventLoop).
Qed.

Lemma lanes_client spawn self s j c s' c' es :
  lanes_ok s → life_ok s → clients s !! j = Some c →
  client_step strerror spawn self s c = Some (s', c', es) → lanes_ok s'.
Proof.
  intros Hla Hok Hj Hs. destruct c as [|fd ev cb i|fd ev cb i|fd e|fd ev i|fd i| |i|i e|i e| |i|i];
    simpl in Hs.
  - done.
  - unfold add_owner in Hs. destruct (owners (multi s) !! fd); injection Hs as <- _ _; [done|].
    by apply (lanes_same s).
  - destruct (loop_call _ _ _ _) as [[s1 o]|] eqn:Hc; [|done].
    apply lanes_loop_call in Hc; [|done]. by destruct o; injection Hs as <- _ _.
  - injection Hs as <- _ _. by apply (lanes_same s).
  - destruct (loop_call _ _ _ _) as [[s1 o]|] eqn:Hc; [|done].
    apply lanes_loop_call in Hc; [|done]. by injection Hs as <- _ _.
  - destruct (loop_call _ _ _ _) as [[s1 o]|] eqn:Hc; [|done].
    apply lanes_loop_call in Hc; [|done]. by injection Hs as <- _ _.
  - apply (lanes_same s); [done|..]; branch.
  - destruct (life_held _ Hok _ _ Hj eq_refl) as [_ (_ & _ & _ & _ & Hidle)].
    destruct (Nat.ltb_spec i (count s)) as [Hlt|Hge]; cycle 1.
    { injection Hs as <- _ _. by apply (lanes_same s). }
    destruct spawn; injection Hs as <- _ _; [done|].
    destruct (lookup_lt_is_Some_2 (pcs s) i) as [p Hp]; [by rewrite (lanes_pcs _ Hla)|].
    apply lanes_spawn; try done. rewrite Hp. f_equal. by eapply Hidle.
  - destruct (Nat.ltb_spec i (count s)); injection Hs as <- _ _; [by apply lanes_stop_loop|done].
  - destruct (threads (multi s) !! i) as [x|]; [destruct (pcs s !! x) as [[]|]|]; try done;
      injection Hs as <- _ _; [done|by apply (lanes_same s)].
  - apply (lanes_same s); [done|..]; branch.
  - destruct (Nat.ltb_spec i (count s)); injection Hs as <- _ _; [by apply lanes_stop_loop|done].
  - destruct (threads (multi s) !! i) as [x|]; [case_bool_decide; [|destruct (pcs s !! x) as [[]|]]|];
      try done; injection Hs as <- _ _; try done; by apply (lanes_same s).
Qed.

Lemma lanes_entry s e s' c' es :
  lanes_ok s → enter s e = Some (s', c', es) → lanes_ok s'.
Proof.
  intros Hla He. apply (lanes_same s); [done|..]; destruct e; simpl in He; branch.
Qed.

Definition multi_ok s : Prop := lanes_ok s ∧ life_ok s.

Lemma multi_step_ok s es s' : multi_ok s → multi_step strerror s es s' → multi_ok s'.
Proof.
  intros [Hla Hok] Hs.
  destruct Hs as [spawn j s c s1 c' es Hj Hc|e j s s1 c' es Hj Hin He|i s r p k' p' es Hr Hp Hcall Hl Hx
    |i s r n Hr Hn|k' s He].
  - split; [|by eapply life_client]. apply lanes_clients. by eapply lanes_client.
  - split; [|by eapply life_entry]. apply lanes_clients. by eapply lanes_entry.
  - destruct (lane_at _ _ _ Hla Hr) as (p0 & n & Hp0 & Hn & _).
    rewrite Hp in Hp0. injection Hp0 as <-. split.
    + pose proof (lane_registered _ _ _ Hla Hr) as Hreg.
      eapply (lane_step s _ i r p n r p' n es); try done; simpl; [by rewrite list_insert_id| | |].
      * by rewrite list_insert_id.
      * intros j rj Hne Hj. apply (elsewhere_counter _ _ i j r rj (loops (multi s))); [by apply lanes_apart|done|done|done|].
        eapply loop_frame; [done|apply Hreg].
      * by apply step_loop.
    + eapply life_same; [done|by eapply keeps_loop_step|done].
  - destruct (lane_at _ _ _ Hla Hr) as (p & n0 & Hp & Hn0 & _).
    rewrite Hn in Hn0. injection Hn0 as <-. split.
    + pose proof (lane_registered _ _ _ Hla Hr) as Hreg.
      eapply (lane_step s _ i r p (S n) r p n []); try done; simpl; [by rewrite list_insert_id| | |].
      * by rewrite list_insert_id.
      * intros j rj Hne Hj. apply (elsewhere_counter _ _ i j r rj (loops (multi s))); [by apply lanes_apart|done|done|done|].
        unfold EventLoop.wake, EpollReactor.wake.
        rewrite (proj2 (Z.ltb_ge (wake_fd r) 0)) by apply Hreg. apply law_write, Hreg.
      * apply step_wake.
    + eapply life_same; [done|by apply keeps_fields|done].
  - split; [|eapply life_same; [done|by apply keeps_fields|done]].
    destruct Hla as [H1 H2 H3 H4]. split; try done.
    intros i t (Hk & Hr & Hp & Hn)%project_Some. destruct t as [k r p n]. simpl in *. subst k.
    eapply (reachable_step _ (mkSystem (kernel_ s) r p n)).
    + apply (H4 i). by apply project_Some.
    + apply step_elsewhere. by eapply He.
Qed.

Lemma multi_init_ok hardware s : multi_init strerror hardware s → multi_ok s.
Proof.
  intros (k & cfg & _ & _ & Hm & Hp & Hn & Hd & Hl & Hc). unfold make in Hm.
  destruct (max_events_per_loop _ =? 0); [done|].
  destruct (make_loops _ _ _ _ _) as [k' [rs|e]] eqn:Hml; [|done].
  injection Hm as -> Hm. apply make_loops_ok in Hml as (Hap & Hrs).
  assert (loops (multi s) = rs) as Hloops by (by rewrite <-Hm).
  assert (∀ i p, pcs s !! i = Some p → p = Outside) as Hout.
  { intros i p Hi. rewrite Hp in Hi. by apply lookup_replicate in Hi as [-> _]. }
  split; split.
  - by rewrite Hp, length_replicate.
  - by rewrite Hn, length_replicate.
  - by rewrite Hloops.
  - intros i t (Hk & Hr & Ht & Hw)%project_Some. destruct t as [kt r p n]. simpl in *.
    apply Hout in Ht as ->. rewrite Hn in Hw. apply lookup_replicate in Hw as [-> _].
    rewrite Hloops in Hr. destruct (Hrs _ _ Hr) as [? _]. by subst.
  - intros _. unfold phase. rewrite <-Hm. simpl. split; [done|]. intros i p _. apply Hout.
  - intros j c Hj Hin. rewrite Forall_forall in Hc.
    rewrite (Hc c) in Hin; [done|]. by eapply list_elem_of_lookup_2.
  - intros j1 j2 c1 c2 H1 _ L1 _. rewrite Forall_forall in Hc.
    rewrite (Hc c1) in L1; [done|]. by eapply list_elem_of_lookup_2.
Qed.

Lemma multi_reachable_ok hardware s : reachable (multi_lts strerror hardware) s → multi_ok s.
Proof.
  apply reachable_invariant; [apply multi_init_ok|]. intros x o y Hx Hst. by eapply multi_step_ok.
Qed.

(** ** Who owns a descriptor *)

(** The owner table has [fd] at [o], and the loop that watches it is [l]. *)
Definition placed s (fd : Z) (o l : option nat) : Prop :=
  owners (multi s) !! fd = o
  ∧ (∀ i r, loops (multi s) !! i = Some r → is_Some (watchers r !! fd) ↔ l = Some i)
  ∧ ∀ i, l = Some i ∨ o = Some i → (i < count s)%nat.

(** Where [fd] is while client [c] is at work on it. *)
Definition where_at s (fd : Z) (c : client) : Prop :=
  match c with
  | AddOwner _ _ _ i => (i < count s)%nat ∧ ∃ o, placed s fd o o
  | AddLoop _ _ _ i => placed s fd (Some i) None
  | AddRollback _ _ => ∃ i, placed s fd (Some i) None
  | ModifyLoop _ _ i => placed s fd (Some i) (Some i)
  | RemoveLoop _ i => placed s fd None (Some i)
  | _ => ∃ o, placed s fd o o
  end.

Definition unused s (fd : Z) : Prop :=
  ∀ j c, clients s !! j = Some c → busy_with c ≠ Some fd.

Record owners_ok s : Prop := {
  owners_busy j c fd : clients s !! j = Some c → busy_with c = Some fd → where_at s fd c;
  owners_unused fd : unused s fd → where_at s fd Idle;
}.

Lemma placed_same s s' fd o l :
  placed s fd o l → owners (multi s') !! fd = owners (multi s) !! fd → count s' = count s →
  (∀ i r', loops (multi s') !! i = Some r' →
     ∃ r, loops (multi s) !! i = Some r ∧ watchers r' !! fd = watchers r !! fd) →
  placed s' fd o l.
Proof.
  intros (H1 & H2 & H3) Ho Hc Hl. split_and!; [by rewrite Ho| |by rewrite Hc].
  intros i r' Hi. destruct (Hl _ _ Hi) as (r & Hr & ->). auto.
Qed.

Lemma where_same s s' fd c :
  where_at s fd c → count s' = count s → (∀ o l, placed s fd o l → placed s' fd o l) →
  where_at s' fd c.
Proof. intros Hw Hc Hp. destruct c; simpl in *; rewrite ?Hc; naive_solver. Qed.

(** A step that leaves the tables alone. *)
Lemma owners_same s s' :
  owners_ok s → owners (multi s') = owners (multi s) → count s' = count s →
  (∀ i r', loops (multi s') !! i = Some r' →
     ∃ r, loops (multi s) !! i = Some r ∧ watchers r' = watchers r) →
  (∀ fd j c, clients s !! j = Some c → busy_with c = Some fd → clients s' !! j = Some c) →
  (∀ fd j c, clients s' !! j = Some c → busy_with c = Some fd → clients s !! j = Some c) →
  owners_ok s'.
Proof.
  intros [Hb Hu] Ho Hc Hl Hcl Hcl'.
  assert (∀ fd o l, placed s fd o l → placed s' fd o l) as Hp.
  { intros fd o l Hpl. apply (placed_same s); [done|by rewrite Ho|done|].
    intros i r' Hi. destruct (Hl _ _ Hi) as (r & ? & ->). eauto. }
  split.
  - intros j c fd Hj Hbusy. apply (where_same s); [|done|apply Hp]. eapply Hb; [|done]. eauto.
  - intros fd Hun. apply (where_same s); [|done|apply Hp]. apply Hu.
    intros j c Hj Hbusy. eapply Hun; [|done]. eauto.
Qed.

(** Client [j] works on [fd], before or after the step. *)
Lemma owners_move s s' j c c' fd :
  owners_ok s → disciplined s → clients s !! j = Some c → clients s' = clients s →
  disciplined (s' <| clients := <[j := c']> (clients s) |>) →
  (busy_with c = Some fd ∨ busy_with c = None ∧ busy_with c' = Some fd) →
  (busy_with c' = Some fd ∨ busy_with c' = None ∧ where_at s' fd c' = where_at s' fd Idle) →
  count s' = count s → (∀ fd' o l, fd' ≠ fd → placed s fd' o l → placed s' fd' o l) →
  (where_at s fd (match busy_with c with Some _ => c | None => Idle end) → where_at s' fd c') →
  owners_ok (s' <| clients := <[j := c']> (clients s) |>).
Proof.
  intros Hok Hd Hj Hcl Hd' Hc Hc' Hcount Hframe Hwhere.
  set (s1 := s' <| clients := <[j := c']> (clients s) |>) in *.
  assert (clients s1 !! j = Some c') as Hj1.
  { simpl. apply list_lookup_insert_eq. by eapply lookup_lt_Some. }
  assert (∀ i x, i ≠ j → clients s1 !! i = Some x ↔ clients s !! i = Some x) as Hother.
  { intros i x Hne. simpl. by rewrite list_lookup_insert_ne. }
  assert (∀ i x, i ≠ j → clients s !! i = Some x → busy_with x ≠ Some fd) as Halone.
  { intros i x Hne Hx Hbusy. destruct Hc as [Hb|[_ Hb]].
    - apply Hne. by eapply (Hd i j).
    - apply Hne. eapply (Hd' i j); [by apply Hother|exact Hj1|done|done]. }
  assert (where_at s' fd c') as Hw.
  { apply Hwhere. destruct (busy_with c) as [fd0|] eqn:Hb.
    - destruct Hc as [[= ->]|[? _]]; [|done]. by eapply owners_busy.
    - apply (owners_unused _ Hok). intros i x Hx. destruct (decide (i = j)) as [->|Hne].
      + simplify_eq. by rewrite Hb.
      + by apply (Halone i). }
  split.
  - intros i x fd0 Hi Hx. destruct (decide (i = j)) as [->|Hne].
    + rewrite Hj1 in Hi. injection Hi as <-. destruct Hc' as [Hb|[Hb _]]; [|congruence].
      rewrite Hb in Hx. by injection Hx as <-.
    + apply Hother in Hi; [|done]. apply (where_same s); [by eapply owners_busy|done|].
      intros o l. apply Hframe. intros ->. by apply (Halone i x).
  - intros fd0 Hun. destruct (decide (fd0 = fd)) as [->|Hne].
    + destruct Hc' as [Hb|[Hb Hidle]]; [by destruct (Hun _ _ Hj1)|].
      rewrite Hidle in Hw. exact Hw.
    + apply (where_same s); [|done|by intros o l; apply Hframe].
      apply (owners_unused _ Hok). intros i x Hx. destruct (decide (i = j)) as [->|Hij].
      * simplify_eq. destruct Hc as [Hb|[Hb _]]; congruence.
      * apply (Hun i). by apply Hother.
Qed.

(** A call on a loop, as its watchers see it. *)
Lemma loop_call_answers s i c s' o :
  loop_call strerror s i c = Some (s', o) →
  ∃ r r', loops (multi s) !! i = Some r ∧ multi s' = on_loop (multi s) i r'
    ∧ answers (wake_fd r) (watchers r) c o (watchers r').
Proof.
  unfold loop_call. destruct (loops (multi s) !! i) as [r|] eqn:Hr; [|done].
  destruct (pcs s !! i) as [p|]; [|done]. destruct (holds_mutex p); [done|].
  destruct (locked strerror eventLoop (kernel_ s) r c) as [[k' r'] o'] eqn:Hl.
  intros [= <- <-]. exists r, r'. by apply locked_answers in Hl as [? _].
Qed.

Lemma loop_call_placed s i c s' o :
  loop_call strerror s i c = Some (s', o) →
  owners (multi s') = owners (multi s) ∧ count s' = count s
  ∧ ∀ fd o' l, fd ≠ match c with Add d _ _ | Modify d _ | Remove d => d end →
      placed s fd o' l → placed s' fd o' l.
Proof.
  intros Hc. destruct (loop_call_answers _ _ _ _ _ Hc) as (r & r' & Hr & Hm & Ha).
  assert (count s' = count s) as Hcount.
  { unfold count. rewrite Hm. simpl. apply length_insert. }
  split_and!; [by rewrite Hm|done|].
  intros fd o' l Hne Hp. apply (placed_same s); [done|by rewrite Hm|done|].
  intros j x Hj. rewrite Hm in Hj. simpl in Hj.
  apply list_lookup_insert_Some in Hj as [(-> & -> & _)|[_ Hj]]; [|eauto].
  exists r. split; [done|].
  by eapply answers_other.
Qed.

(** The loop that was called has its new watchers, the others their old. *)
Lemma placed_on_loop s s' i r' fd o l l' :
  placed s fd o l → multi s' = on_loop (multi s) i r' → (i < count s)%nat →
  (is_Some (watchers r' !! fd) ↔ l' = Some i) → (∀ j, j ≠ i → l = Some j ↔ l' = Some j) →
  placed s' fd o l'.
Proof.
  intros (H1 & H2 & H3) Hm Hlt Hi Ho.
  assert (count s' = count s) as Hcount by (unfold count; rewrite Hm; apply length_insert).
  split_and!; [by rewrite Hm| |].
  - intros j x Hj. rewrite Hm in Hj. simpl in Hj.
    apply list_lookup_insert_Some in Hj as [(-> & -> & _)|[Hne Hj]]; [done|].
    rewrite (H2 _ _ Hj). apply Ho. by apply not_eq_sym.
  - intros j Hj. rewrite Hcount. destruct (decide (j = i)) as [->|Hne]; [done|].
    apply H3. destruct Hj as [Hj|?]; [left; by apply Ho|by right].
Qed.

Lemma owners_frame s m fd :
  loops m = loops (multi s) → (∀ d, d ≠ fd → owners m !! d = owners (multi s) !! d) →
  ∀ d o l, d ≠ fd → placed s d o l → placed (s <| multi := m |>) d o l.
Proof.
  intros Hl Ho d o l Hne Hp. apply (placed_same s); simpl; [done|by apply Ho| |].
  - unfold count. simpl. by rewrite Hl.
  - intros i r Hi. simpl in Hi. rewrite Hl in Hi. eauto.
Qed.

Lemma placed_owner s fd o l o' m :
  placed s fd o l → loops m = loops (multi s) → owners m !! fd = o' →
  (∀ i, o' = Some i → (i < count s)%nat) → placed (s <| multi := m |>) fd o' l.
Proof.
  intros (H1 & H2 & H3) Hl Ho Hc. split_and!; simpl; [done|by rewrite Hl|].
  intros i Hi. unfold count. simpl. rewrite Hl. destruct Hi; [apply H3; by left|by apply Hc].
Qed.

(** What a call to one loop leaves, gathered for the steps of the clients. *)
Lemma loop_call_facts s i c s' o :
  loop_call strerror s i c = Some (s', o) →
  ∃ r r', loops (multi s) !! i = Some r ∧ (i < length (loops (multi s)))%nat
    ∧ multi s' = on_loop (multi s) i r'
    ∧ answers (wake_fd r) (watchers r) c o (watchers r')
    ∧ count s' = count s ∧ clients s' = clients s
    ∧ ∀ fd o' l, fd ≠ match c with Add d _ _ | Modify d _ | Remove d => d end →
        placed s fd o' l → placed s' fd o' l.
Proof.
  intros Hc. destruct (loop_call_placed _ _ _ _ _ Hc) as (_ & Hcount & Hframe).
  destruct (loop_call_answers _ _ _ _ _ Hc) as (r & r' & Hr & Hm & Ha).
  exists r, r'. split_and!; eauto using lookup_lt_Some, loop_call_clients.
Qed.

(** What each step of a call does to the descriptor it works on. *)
Lemma where_client spawn self s c s' c' es fd :
  client_step strerror spawn self s c = Some (s', c', es) → busy_with c = Some fd →
  where_at s fd c →
  where_at s' fd c' ∧ count s' = count s
  ∧ (∀ d o l, d ≠ fd → placed s d o l → placed s' d o l)
  ∧ (busy_with c' = Some fd ∨ c' = Idle) ∧ clients s' = clients s.
Proof.
  intros Hs Hb Hw.
  destruct c as [|d ev cb i|d ev cb i|d e|d ev i|d i| |i|i e|i e| |i|i]; simpl in Hb; try done;
    injection Hb as ->; simpl in Hs, Hw.
  - destruct Hw as [Hi [o Hp]]. unfold add_owner in Hs.
    destruct (owners (multi s) !! fd) eqn:Ho; injection Hs as <- <- _.
    { split; [by exists o|split_and!; try done; by right]. }
    split_and!; try done; [|apply owners_frame; [done|]|by left].
    + destruct (proj1 Hp). rewrite Ho in Hp. eapply placed_owner; [exact Hp|done| |].
      * simpl. by rewrite lookup_insert_eq.
      * by intros x [= ->].
    + intros d Hd. simpl. by rewrite lookup_insert_ne.
  - destruct (loop_call _ _ _ _) as [[s1 o]|] eqn:Hc; [|done].
    destruct (loop_call_facts _ _ _ _ _ Hc) as (r & r' & Hr & Hlt & Hm & Ha & Hcount & Hcl & Hframe). pose proof (proj1 (proj2 Hw) _ _ Hr) as Hnone.
    destruct o as [b|e]; injection Hs as <- <- _; split_and!; auto.
    + exists (Some i). eapply placed_on_loop; [exact Hw|exact Hm|exact Hlt| |].
      * simpl in Ha. destruct Ha as (_ & _ & _ & _ & cb' & _ & ->).
        rewrite lookup_insert_eq. split; [done|eauto].
      * intros j Hne. split; [done|congruence].
    + exists i. eapply placed_on_loop; [exact Hw|exact Hm|exact Hlt| |done].
      assert (watchers r' = watchers r) as -> by (simpl in Ha; destruct e; tauto). done.
  - destruct Hw as [i Hp]. injection Hs as <- <- _.
    split_and!; auto; [|apply owners_frame; [done|]].
    + exists None. eapply placed_owner; [exact Hp|done| |done].
      simpl. by rewrite lookup_delete_eq.
    + intros d Hd. simpl. by rewrite lookup_delete_ne.
  - destruct (loop_call _ _ _ _) as [[s1 o]|] eqn:Hc; [|done].
    destruct (loop_call_facts _ _ _ _ _ Hc) as (r & r' & Hr & Hlt & Hm & Ha & Hcount & Hcl & Hframe). pose proof (proj1 (proj2 Hw) _ _ Hr) as Hsome.
    injection Hs as <- <- _. split_and!; auto.
    exists (Some i). eapply placed_on_loop; [exact Hw|exact Hm|exact Hlt| |done].
    split; [done|]. intros _. destruct (proj2 Hsome eq_refl) as [w Hwt].
    simpl in Ha. destruct o as [b|[]]; try done.
    + destruct Ha as (_ & w' & _ & ->). rewrite lookup_insert_eq. eauto.
    + destruct Ha as [_ ->]. eauto.
    + destruct Ha as [_ ->]. eauto.
  - destruct (loop_call _ _ _ _) as [[s1 o]|] eqn:Hc; [|done].
    destruct (loop_call_facts _ _ _ _ _ Hc) as (r & r' & Hr & Hlt & Hm & Ha & Hcount & Hcl & Hframe).
    injection Hs as <- <- _. split_and!; auto.
    exists None. eapply placed_on_loop; [exact Hw|exact Hm|exact Hlt| |].
    + assert (watchers r' = delete fd (watchers r)) as ->.
      { simpl in Ha. destruct o as [b|[]]; tauto. }
      rewrite lookup_delete_eq. split; [by intros []|done].
    + intros j Hne. split; [congruence|done].
Qed.

(** The same for the first step of a call. *)
Definition entry_fd (e : entry) : option Z :=
  match e with
  | CallAdd fd _ _ | CallModify fd _ | CallRemove fd => Some fd
  | _ => None
  end.

Lemma next_index_lt m : loops m ≠ [] → (next_index m < length (loops m))%nat.
Proof.
  intros Hne. unfold next_index, workerCount.
  assert (0 < length (loops m))%nat by (destruct (loops m); simpl; [done|lia]).
  pose proof (Z.mod_pos_bound (next_loop m) (Z.of_nat (length (loops m))) ltac:(lia)). lia.
Qed.

Lemma where_entry s e s' c' es fd :
  enter s e = Some (s', c', es) → entry_fd e = Some fd → (0 < count s)%nat →
  where_at s fd Idle →
  where_at s' fd c' ∧ count s' = count s
  ∧ (∀ d o l, d ≠ fd → placed s d o l → placed s' d o l)
  ∧ (busy_with c' = Some fd ∨ c' = Idle) ∧ clients s' = clients s.
Proof.
  intros He Hfd Hn [o Hp].
  destruct e as [d ev cb|d ev|d| |]; simpl in Hfd; try done; injection Hfd as ->; simpl in He.
  - destruct (add_check (multi s) fd cb); injection He as <- <- _; cycle 1.
    { split; [by exists o|split_and!; try done; by right]. }
    split; [split|split_and!; [done|by apply owners_frame|by left|done]].
    + apply next_index_lt. unfold count in Hn. intros Hnil. rewrite Hnil in Hn. simpl in Hn. lia.
    + exists o. eapply placed_owner; [exact Hp|done|exact (proj1 Hp)|]. intros i Hi.
      apply (proj2 (proj2 Hp)). by right.
  - destruct (owners (multi s) !! fd) as [i|] eqn:Ho; injection He as <- <- _.
    + split; [|split_and!; try done; by left]. destruct (proj1 Hp). by rewrite Ho in Hp.
    + split; [by exists o|split_and!; try done; by right].
  - destruct (owners (multi s) !! fd) as [i|] eqn:Ho; injection He as <- <- _.
    + split; [|split_and!; [done|apply owners_frame; [done|]|by left|done]].
      * destruct (proj1 Hp). rewrite Ho in Hp.
        eapply placed_owner; [exact Hp|done| |done]. simpl. by rewrite lookup_delete_eq.
      * intros d Hd. simpl. by rewrite lookup_delete_ne.
    + split; [by exists o|split_and!; try done; by right].
Qed.

(** The life cycle does not touch the tables. *)
Lemma tables_life spawn self s c s' c' es :
  client_step strerror spawn self s c = Some (s', c', es) → busy_with c = None →
  owners (multi s') = owners (multi s) ∧ count s' = count s ∧ clients s' = clients s
  ∧ busy_with c' = None
  ∧ ∀ i r', loops (multi s') !! i = Some r' →
      ∃ r, loops (multi s) !! i = Some r ∧ watchers r' = watchers r.
Proof.
  intros Hs Hin.
  assert (∀ j, owners (multi (stop_loop s j)) = owners (multi s)
    ∧ count (stop_loop s j) = count s ∧ clients (stop_loop s j) = clients s
    ∧ ∀ i r', loops (multi (stop_loop s j)) !! i = Some r' →
      ∃ r, loops (multi s) !! i = Some r ∧ watchers r' = watchers r) as Hstop.
  { intros j. split_and!; try done; [apply length_alter|]. intros i r' Hr. simpl in Hr.
    rewrite list_lookup_alter in Hr. destruct (decide (j = i)) as [->|]; [|eauto].
    destruct (loops (multi s) !! i); simplify_eq/=. eauto. }
  destruct c as [|d ev cb i|d ev cb i|d e|d ev i|d i| |i|i e|i e| |i|i]; try done;
    simpl in Hs.
  - branch; split_and!; eauto.
  - destruct (i <? count s)%nat; [destruct spawn|]; injection Hs as <- <- _; split_and!; eauto.
  - destruct (i <? count s)%nat; injection Hs as <- <- _; split_and!; eauto; apply Hstop.
  - destruct (threads (multi s) !! i) as [x|]; [destruct (pcs s !! x) as [[]|]|]; try done;
      injection Hs as <- <- _; split_and!; eauto.
  - branch; split_and!; eauto.
  - destruct (i <? count s)%nat; injection Hs as <- <- _; split_and!; eauto; apply Hstop.
  - destruct (threads (multi s) !! i) as [x|]; [case_bool_decide; [|destruct (pcs s !! x) as [[]|]]|];
      try done; injection Hs as <- <- _; split_and!; eauto.
Qed.

Lemma clients_idle s j c c' :
  clients s !! j = Some c → busy_with c = None → busy_with c' = None →
  (∀ fd i x, clients s !! i = Some x → busy_with x = Some fd → <[j := c']> (clients s) !! i = Some x)
  ∧ ∀ fd i x, <[j := c']> (clients s) !! i = Some x → busy_with x = Some fd → clients s !! i = Some x.
Proof.
  intros Hj Hc Hc'. split; intros fd i x Hi Hx.
  - destruct (decide (i = j)) as [->|]; [congruence|]. by rewrite list_lookup_insert_ne.
  - apply list_lookup_insert_Some in Hi as [(-> & <- & _)|[_ ?]]; [congruence|done].
Qed.

Definition owners_inv s : Prop := owners_ok s ∧ disciplined s ∧ (0 < count s)%nat.

(** A client that works on no descriptor moves on. *)
Lemma owners_bystander s s' j c c' :
  owners_ok s → clients s !! j = Some c → busy_with c = None → busy_with c' = None →
  owners (multi s') = owners (multi s) → count s' = count s →
  (∀ i r', loops (multi s') !! i = Some r' →
     ∃ r, loops (multi s) !! i = Some r ∧ watchers r' = watchers r) →
  owners_ok (s' <| clients := <[j := c']> (clients s) |>).
Proof.
  intros Hok Hj Hc Hc' Ho Hn Hl. destruct (clients_idle s j c c' Hj Hc Hc') as [H1 H2].
  by apply (owners_same s).
Qed.

Lemma owners_client spawn self s j c s' c' es :
  owners_inv s → clients s !! j = Some c → client_step strerror spawn self s c = Some (s', c', es) →
  disciplined (s' <| clients := <[j := c']> (clients s) |>) →
  owners_ok (s' <| clients := <[j := c']> (clients s) |>) ∧ count s' = count s.
Proof.
  intros (Hok & Hd & Hn) Hj Hs Hd'. destruct (busy_with c) as [fd|] eqn:Hb.
  - pose proof (owners_busy _ Hok _ _ _ Hj Hb) as Hw.
    destruct (where_client _ _ _ _ _ _ _ _ Hs Hb Hw) as (Hw' & Hc & Hf & Hbc & Hcl).
    split; [|done]. apply (owners_move s s' j c c' fd); auto.
    destruct Hbc as [?| ->]; auto.
  - destruct (tables_life _ _ _ _ _ _ _ Hs Hb) as (Ho & Hc & Hcl & Hb' & Hlo).
    split; [|done]. by apply (owners_bystander s s' j c c').
Qed.

Lemma owners_entry s j e s' c' es :
  owners_inv s → clients s !! j = Some Idle → enter s e = Some (s', c', es) →
  disciplined (s' <| clients := <[j := c']> (clients s) |>) →
  owners_ok (s' <| clients := <[j := c']> (clients s) |>) ∧ count s' = count s.
Proof.
  intros (Hok & Hd & Hn) Hj He Hd'. destruct (entry_fd e) as [fd|] eqn:Hfd.
  - assert (where_at s fd Idle → where_at s' fd c' ∧ count s' = count s
      ∧ (∀ d o l, d ≠ fd → placed s d o l → placed s' d o l)
      ∧ (busy_with c' = Some fd ∨ c' = Idle) ∧ clients s' = clients s) as Hw
      by (intros Hw; by eapply where_entry).
    destruct (decide (busy_with c' = Some fd)) as [Hb|Hb].
    + assert (where_at s fd Idle) as Hi.
      { apply (owners_unused _ Hok). intros i x Hi Hx.
        destruct (decide (i = j)) as [->|Hne]; [by simplify_eq|].
        apply Hne. eapply (Hd' i j x c' fd); simpl; [by rewrite list_lookup_insert_ne| |done|done].
        apply list_lookup_insert_eq. by eapply lookup_lt_Some. }
      destruct (Hw Hi) as (Hw' & Hc & Hf & _ & Hcl).
      split; [|done]. apply (owners_move s s' j Idle c' fd); auto.
    + assert (s' = s ∧ c' = Idle) as [-> ->].
      { destruct e; simpl in He, Hfd; try done; injection Hfd as ->; branch; by destruct Hb. }
      split; [|done]. apply (owners_bystander s s j Idle Idle); try done. eauto.
  - assert (owners (multi s') = owners (multi s) ∧ loops (multi s') = loops (multi s)
      ∧ busy_with c' = None) as (Ho & Hl & Hb).
    { destruct e; simpl in He, Hfd; try done; branch. }
    split; [|unfold count; by rewrite Hl].
    apply (owners_bystander s s' j Idle c'); try done; [unfold count; by rewrite Hl|].
    intros i r. rewrite Hl. eauto.
Qed.

Lemma owners_step s es s' :
  owners_inv s → multi_step strerror s es s' → disciplined s' → owners_inv s'.
Proof.
  intros Hinv Hs Hd. pose proof Hinv as (Hok & _ & Hn).
  destruct Hs as [spawn j s c s1 c' es Hj Hc|e j s s1 c' es Hj Hin He|i s r p k' p' es Hr Hp Hcall Hl Hx
    |i s r n Hr Hpn|k' s He].
  - destruct (owners_client _ _ _ _ _ _ _ _ Hinv Hj Hc Hd) as [? Hcount].
    split_and!; [done|done|]. unfold count in *. simpl. lia.
  - destruct (owners_entry _ _ _ _ _ _ Hinv Hj He Hd) as [? Hcount].
    split_and!; [done|done|]. unfold count in *. simpl. lia.
  - split_and!; [|done|done]. apply (owners_same s); simpl; eauto.
  - split_and!; [|done|done]. apply (owners_same s); simpl; eauto.
  - split_and!; [|done|done]. apply (owners_same s); simpl; eauto.
Qed.

(** *** The initial tables *)

Lemma normalize_positive hardware configured :
  0 ≤ hardware → 0 ≤ configured → 0 < normalizeWorkerCount hardware configured.
Proof.
  intros Hh Hc. unfold normalizeWorkerCount. destruct (Z.ltb_spec 0 configured); [done|].
  destruct (Z.eqb_spec hardware 0); lia.
Qed.

Lemma idle_client s c j : Forall (λ c, c = Idle) (clients s) → clients s !! j = Some c → c = Idle.
Proof. intros Hc Hj. rewrite Forall_forall in Hc. apply Hc. by eapply list_elem_of_lookup_2. Qed.

Lemma owners_init hardware s : multi_init strerror hardware s → owners_inv s.
Proof.
  intros (k & cfg & Hh & Hw & Hm & _ & _ & _ & _ & Hc). unfold make in Hm.
  destruct (max_events_per_loop _ =? 0); [done|].
  destruct (make_loops _ _ _ _ _) as [k' [rs|e]] eqn:Hml; [|done].
  injection Hm as -> Hm. pose proof Hml as Hlen. apply make_loops_open in Hlen as (Hlen & _).
  apply make_loops_ok in Hml as (_ & Hrs).
  assert (∀ j c, clients s !! j = Some c → busy_with c = None) as Hidle.
  { intros j c Hj. by rewrite (idle_client s c j Hc Hj). }
  split_and!.
  - split; [intros j c fd Hj Hb; by rewrite (Hidle _ _ Hj) in Hb|].
    intros fd _. exists None. split_and!; simpl; [by rewrite <-Hm| |].
    + intros i r Hi. rewrite <-Hm in Hi. destruct (Hrs _ _ Hi) as (_ & -> & _).
      rewrite lookup_empty. split; [by intros []|done].
    + intros i [?|?]; done.
  - intros j1 j2 c1 c2 fd H1 _ B1 _. by rewrite (Hidle _ _ H1) in B1.
  - unfold count. rewrite <-Hm. simpl. rewrite Hlen. simpl.
    pose proof (normalize_positive _ _ Hh Hw). lia.
Qed.

Lemma owners_reachable hardware s : reachable (disciplined_lts strerror hardware) s → owners_inv s.
Proof.
  apply reachable_invariant; [apply owners_init|].
  intros x o y Hx [Hst Hd]. by eapply owners_step.
Qed.

(** Wherever a descriptor is, at most one loop watches it. *)
Lemma where_unique s fd c i1 i2 r1 r2 :
  where_at s fd c → loops (multi s) !! i1 = Some r1 → loops (multi s) !! i2 = Some r2 →
  is_Some (watchers r1 !! fd) → is_Some (watchers r2 !! fd) → i1 = i2.
Proof.
  intros Hw H1 H2 W1 W2. assert (∃ o l, placed s fd o l) as (o & l & _ & Hl & _).
  { destruct c; simpl in Hw; naive_solver. }
  apply (Hl _ _ H1) in W1. apply (Hl _ _ H2) in W2. congruence.
Qed.

Lemma watched_once s fd i1 i2 r1 r2 :
  owners_ok s → loops (multi s) !! i1 = Some r1 → loops (multi s) !! i2 = Some r2 →
  is_Some (watchers r1 !! fd) → is_Some (watchers r2 !! fd) → i1 = i2.
Proof.
  intros Hok. destruct (decide (Exists (λ c, busy_with c = Some fd) (clients s))) as [He|He].
  - apply list.Exists_exists in He as (c & Hc & Hb). apply list_elem_of_lookup in Hc as [j Hj].
    apply (where_unique s fd c). by eapply owners_busy.
  - apply (where_unique s fd Idle), (owners_unused _ Hok). intros j c Hj Hb. apply He.
    apply list.Exists_exists. exists c. split; [by eapply list_elem_of_lookup_2|done].
Qed.

(** *** The threads of the loops are inside [run] *)

Definition in_run (p : loop_pc) : bool :=
  match p with
  | Outside | RunCheck => true
  | Wait b _ | Collect b _ _ | Drain b _ _ | Dispatch b _ _ | InCallback b _ _ => b
  end.

Lemma loop_in_run k r p k' p' es :
  loop_step strerror k r p = Some (k', p', es) → in_run p = true → in_run p' = true.
Proof.
  intros Hs Hp.
  destruct p as [| |b t|b [|[d bits] rest] acc|b rest acc|b [|[e cb] todo] n|b todo n];
    simpl in Hs, Hp; try subst b.
  - done.
  - by destruct (stopping r); simplify_eq.
  - by destruct (epoll_wait _ _ _ _) as [k1 [l|e|]]; try case_bool_decide; simplify_eq.
  - by simplify_eq.
  - by destruct (d =? wake_fd r); [|destruct (watchers r !! d)]; simplify_eq.
  - by destruct (read_eight _ _) as [k1 []]; simplify_eq.
  - by simplify_eq.
  - by simplify_eq.
  - by simplify_eq.
Qed.

(** A loop that was asked to stop has ended, can move, or is about to be woken. *)
Lemma joined_awake k r p n :
  system_ok (mkSystem k r p n) → in_run p = true → stopping r = true →
  p = Outside ∨ loop_step strerror k r p ≠ None ∨ (0 < n)%nat.
Proof.
  intros Hok Hp Hst. destruct n as [|n]; [|right; right; lia].
  destruct p as [| |b t|b [|[d bits] rest] acc|b rest acc|b [|[e cb] todo] n|b todo n];
    [by left|right; left..]; simpl in Hp; try subst b.
  - simpl. by rewrite Hst.
  - by eapply (stopping_awake strerror (mkSystem k r (Wait true t) 0)).
  - done.
  - simpl. by destruct (d =? wake_fd r); [|destruct (watchers r !! d)].
  - simpl. by destruct (read_eight _ _) as [k1 []].
  - done.
  - done.
  - done.
Qed.

Definition all_in_run s : Prop := ∀ i p, pcs s !! i = Some p → in_run p = true.

Lemma pcs_loop_call s i c s' o : loop_call strerror s i c = Some (s', o) → pcs s' = pcs s.
Proof. unfold loop_call. intros Hc. branch. Qed.

Lemma pcs_client spawn self s c s' c' es :
  client_step strerror spawn self s c = Some (s', c', es) →
  pcs s' = pcs s ∨ ∃ j, pcs s' = <[j := RunCheck]> (pcs s).
Proof.
  intros Hs. destruct c; simpl in Hs; [done| | | | | | | | | | | |].
  - branch; by left.
  - destruct (loop_call _ _ _ _) as [[s1 o]|] eqn:Hc; [|done]. apply pcs_loop_call in Hc.
    destruct o; injection Hs as <- _ _; by left.
  - branch; by left.
  - destruct (loop_call _ _ _ _) as [[s1 o]|] eqn:Hc; [|done]. apply pcs_loop_call in Hc.
    injection Hs as <- _ _; by left.
  - destruct (loop_call _ _ _ _) as [[s1 o]|] eqn:Hc; [|done]. apply pcs_loop_call in Hc.
    injection Hs as <- _ _; by left.
  - branch; by left.
  - destruct (j <? count s)%nat; [destruct spawn|]; injection Hs as <- _ _;
      [by left|right; by exists j|by left].
  - branch; by left.
  - branch; by left.
  - branch; by left.
  - branch; by left.
  - branch; by left.
Qed.

Lemma in_run_reachable hardware s : reachable (multi_lts strerror hardware) s → all_in_run s.
Proof.
  apply reachable_invariant.
  - intros x (k & cfg & _ & _ & _ & Hp & _) i p Hi. rewrite Hp in Hi.
    by apply lookup_replicate in Hi as [-> _].
  - intros x o y Hx Hs. destruct Hs as [spawn j s0 c s1 c' es Hj Hc|e j s0 s1 c' es Hj _ He
      |a s0 r q k' q' es Hr Hq _ Hl _|a s0 r n Hr Hpn|k' s0 He]; intros i p Hi; simpl in Hi; eauto.
    + destruct (pcs_client _ _ _ _ _ _ _ Hc) as [Heq|[b Heq]]; rewrite Heq in Hi; [eauto|].
      apply list_lookup_insert_Some in Hi as [(-> & <- & _)|[_ ?]]; [done|eauto].
    + assert (pcs s1 = pcs s0) as Heq by (destruct e; simpl in He; branch).
      rewrite Heq in Hi. eauto.
    + apply list_lookup_insert_Some in Hi as [(-> & -> & _)|[_ ?]]; [|eauto].
      eapply loop_in_run; [done|eauto].
Qed.

(** *** Calls of callbacks *)

(** The loop whose mutex a call is about to take. *)
Definition at_loop (c : client) : option nat :=
  match c with
  | AddOwner _ _ _ i | AddLoop _ _ _ i | ModifyLoop _ _ i | RemoveLoop _ i => Some i
  | _ => None
  end.

(** The loops that the owner table and the calls name exist. *)
Definition ranged s : Prop :=
  (0 < count s)%nat
  ∧ (∀ fd i, owners (multi s) !! fd = Some i → (i < count s)%nat)
  ∧ ∀ j c i, clients s !! j = Some c → at_loop c = Some i → (i < count s)%nat.

Lemma ranged_client spawn self s c s' c' es :
  client_step strerror spawn self s c = Some (s', c', es) →
  count s' = count s
  ∧ (∀ fd i, owners (multi s') !! fd = Some i →
       owners (multi s) !! fd = Some i ∨ at_loop c = Some i)
  ∧ ∀ i, at_loop c' = Some i → at_loop c = Some i.
Proof.
  intros Hs. destruct (busy_with c) eqn:Hb; cycle 1.
  { destruct (tables_life _ _ _ _ _ _ _ Hs Hb) as (Ho & Hn & _ & Hb' & _).
    split_and!; [done|by rewrite Ho; left|]. intros i Hi. by destruct c'. }
  destruct c; try done; simpl in Hs.
  - unfold add_owner in Hs. destruct (owners (multi s) !! fd) eqn:Ho; injection Hs as <- <- _;
      (split_and!; [done| |done]); simpl; [by left|].
    intros d x [[_ <-]|[_ ?]]%lookup_insert_Some; [by right|by left].
  - destruct (loop_call _ _ _ _) as [[s1 o]|] eqn:Hc; [|done].
    destruct (loop_call_facts _ _ _ _ _ Hc) as (r & r' & _ & _ & Hm & _ & Hn & _).
    destruct o; injection Hs as <- <- _; (split_and!; [done|rewrite Hm; by left|done]).
  - injection Hs as <- <- _. split_and!; [done| |done]. simpl.
    intros d x [_ ?]%lookup_delete_Some. by left.
  - destruct (loop_call _ _ _ _) as [[s1 o]|] eqn:Hc; [|done].
    destruct (loop_call_facts _ _ _ _ _ Hc) as (r & r' & _ & _ & Hm & _ & Hn & _).
    injection Hs as <- <- _. split_and!; [done|rewrite Hm; by left|done].
  - destruct (loop_call _ _ _ _) as [[s1 o]|] eqn:Hc; [|done].
    destruct (loop_call_facts _ _ _ _ _ Hc) as (r & r' & _ & _ & Hm & _ & Hn & _).
    injection Hs as <- <- _. split_and!; [done|rewrite Hm; by left|done].
Qed.

Lemma ranged_entry s e s' c' es :
  ranged s → enter s e = Some (s', c', es) →
  count s' = count s
  ∧ (∀ fd i, owners (multi s') !! fd = Some i → (i < count s)%nat)
  ∧ ∀ i, at_loop c' = Some i → (i < count s)%nat.
Proof.
  intros (Hn & Ho & _) He. destruct e as [fd ev cb|fd ev|fd| |]; simpl in He.
  - destruct (add_check (multi s) fd cb); injection He as <- <- _; (split_and!; [done|done|]); [|done].
    intros i [= <-]. apply next_index_lt. intros Hnil. unfold count in Hn. rewrite Hnil in Hn. simpl in Hn. lia.
  - destruct (owners (multi s) !! fd) eqn:Hfd; injection He as <- <- _; (split_and!; [done|done|]);
      [|done]. intros i [= <-]. eauto.
  - destruct (owners (multi s) !! fd) eqn:Hfd; injection He as <- <- _; (split_and!; [done| |]);
      [|by intros i [= <-]; eauto|done|done]. simpl. intros d i [_ ?]%lookup_delete_Some. eauto.
  - by injection He as <- <- _.
  - by injection He as <- <- _.
Qed.

Lemma ranged_step s es s' : multi_step strerror s es s' → ranged s → ranged s'.
Proof.
  intros Hs Hrg. pose proof Hrg as (Hn & Ho & Hc).
  assert (∀ s1 j c', count s1 = count s →
    (∀ fd i, owners (multi s1) !! fd = Some i → (i < count s)%nat) →
    (∀ i, at_loop c' = Some i → (i < count s)%nat) →
    ranged (s1 <| clients := <[j := c']> (clients s) |>)) as Hmove.
  { intros s1 j c' H1 H2 H3. unfold ranged, count in *. simpl. rewrite H1. split_and!; [done|done|].
    intros x y i [(-> & <- & _)|[_ Hx]]%list_lookup_insert_Some; eauto. }
  destruct Hs as [spawn j s c s1 c' es Hj Hst|e j s s1 c' es Hj Hin He
    |i s r p k' p' es Hr Hp Hcall Hl Hx|i s r n Hr Hpn|k' s He]; [| |done..].
  - destruct (ranged_client _ _ _ _ _ _ _ Hst) as (H1 & H2 & H3). apply Hmove; [done| |eauto].
    intros fd i Hi. destruct (H2 _ _ Hi); eauto.
  - destruct (ranged_entry _ _ _ _ _ Hrg He) as (H1 & H2 & H3). by apply Hmove.
Qed.

Lemma ranged_reachable hardware s : reachable (multi_lts strerror hardware) s → ranged s.
Proof.
  apply reachable_invariant; [|intros x o y Hx Hst; by eapply ranged_step].
  intros x Hx. destruct (owners_init _ _ Hx) as (_ & _ & Hn).
  destruct Hx as (k & cfg & _ & _ & Hm & _ & _ & _ & _ & Hc). split_and!; [done| |].
  - unfold make in Hm. destruct (max_events_per_loop _ =? 0); [done|].
    destruct (make_loops _ _ _ _ _) as [k' [rs|e]]; [|done]. injection Hm as _ Hm.
    rewrite <-Hm. intros fd i. simpl. by rewrite lookup_empty.
  - intros j c i Hj. by rewrite (idle_client _ _ _ Hc Hj).
Qed.

Lemma calls_under_way s i :
  calls_over s i = false → ∃ j c, loop_of j = Some i ∧ clients s !! j = Some c ∧ c ≠ Idle.
Proof.
  unfold calls_over. intros Hf.
  destruct (decide (Exists (λ x, loop_of x.1 = Some i ∧ is_idle x.2 = false)
    (imap pair (clients s))))
    as [He|He].
  - apply list.Exists_exists in He as ([j c] & Hin & Hl & Hne).
    apply list_elem_of_lookup in Hin as [x Hx]. rewrite list_lookup_imap in Hx.
    destruct (clients s !! x) as [c'|] eqn:Hc; simplify_eq/=.
    exists j, c. split_and!; [done|done|]. by intros ->.
  - apply not_Exists_Forall in He; [|apply _]. exfalso. revert Hf. apply not_false_iff_true.
    apply forallb_forall. intros [j c] Hin%list_elem_of_In. rewrite Forall_forall in He.
    specialize (He _ Hin). simpl in *. case_bool_decide; [|done]. simpl. destruct c; naive_solver.
Qed.

(** A call at the lock of the lifecycle mutex. *)
Definition at_lifecycle (c : client) : bool :=
  match c with StartWaiting | StopWaiting => true | _ => false end.

(** A call can take its next step, or waits for the mutex of a loop whose
    thread can. *)
Definition call_moves s (c : client) : Prop :=
  (∀ spawn self, client_step strerror spawn self s c ≠ None)
  ∨ ∃ i r p, at_loop c = Some i ∧ loops (multi s) !! i = Some r ∧ pcs s !! i = Some p
      ∧ holds_mutex p = true ∧ loop_step strerror (kernel_ s) r p ≠ None.

Lemma holder_moves k r p : holds_mutex p = true → loop_step strerror k r p ≠ None.
Proof.
  destruct p as [| |b t|b [|[d bits] rest] acc|b rest acc|b todo n|b todo n]; try done; intros _;
    simpl.
  - by destruct (d =? wake_fd r); [|destruct (watchers r !! d)].
  - by destruct (read_eight _ _).
Qed.

Lemma call_goes_on s jc c :
  multi_ok s → ranged s → clients s !! jc = Some c → c ≠ Idle → in_life c = false →
  at_lifecycle c = true ∨ call_moves s c.
Proof.
  intros [Hla _] (_ & _ & Hrg) Hc Hne Hin.
  assert (∀ i, at_loop c = Some i → (∃ r p, loops (multi s) !! i = Some r ∧ pcs s !! i = Some p
    ∧ holds_mutex p = true) ∨ ∀ call, is_Some (loop_call strerror s i call)) as Hcall.
  { intros i Hi. destruct (lookup_lt_is_Some_2 _ _ (Hrg _ _ _ Hc Hi)) as [r Hr].
    destruct (lane_at _ _ _ Hla Hr) as (p & n & Hp & _).
    destruct (holds_mutex p) eqn:Hm; [left; eauto|right]. intros call.
    unfold loop_call. rewrite Hr, Hp, Hm.
    destruct (locked _ _ _ _ _) as [[k' r'] o]. by eexists. }
  unfold call_moves.
  destruct c; try done; try (by left); right; try (by left; intros ? ?; simpl; repeat case_match);
    (destruct (Hcall _ eq_refl) as [(r & p & ? & ? & ?)|Hs];
      [right; eexists _, r, p; split_and!; [reflexivity|done|done|done|by apply holder_moves]|left; intros ? ?; simpl]).
  - destruct (Hs (Add fd ev (Some cb))) as [[s1 o] ->]. simpl. by destruct o.
  - destruct (Hs (Modify fd ev)) as [[s1 o] ->]. done.
  - destruct (Hs (Remove fd)) as [[s1 o] ->]. done.
Qed.

(** *** Two threads that wait for each other *)

(** The [stop] of client [j] joins the thread of loop [i], whose callback has
    called [start] or [stop] as client [jc]. *)
Record deadlocked s (j jc i : nat) : Prop := {
  d_join : clients s !! j = Some (Joining i);
  d_other : loop_of j ≠ Some i;
  d_thread : threads (multi s) !! i = Some i;
  d_callback : in_callback s i;
  d_self : loop_of jc = Some i;
  d_call : ∃ c, clients s !! jc = Some c ∧ at_lifecycle c = true;
}.

Lemma deadlocked_step s es s' j jc i :
  multi_ok s → deadlocked s j jc i → multi_step strerror s es s' → deadlocked s' j jc i.
Proof.
  intros [Hla Hok] Hd Hs. pose proof Hd as [Hj Hself Hth (p & Hp & Hcb) Hjc (c & Hc & Hat)].
  destruct (life_held _ Hok _ _ Hj eq_refl) as [Hlock _].
  assert (∀ s1 x c', x ≠ j → x ≠ jc → threads (multi s1) = threads (multi s) → pcs s1 = pcs s →
    deadlocked (s1 <| clients := <[x := c']> (clients s) |>) j jc i) as Hmove.
  { intros s1 x c' H1 H2 Ht Hpc. split; simpl; rewrite ?list_lookup_insert_ne by done; eauto;
      [by rewrite Ht|]. exists p. simpl. by rewrite Hpc. }
  destruct Hs as [spawn x s cx s1 c' es Hx Hst|e x s s1 c' es Hx Hin He
    |a s r q k' q' es Hr Hq Hcall Hl Hesc|a s r n Hr Hpn|k' s He].
  - assert (x ≠ j) as Hxj.
    { intros ->. simplify_eq. simpl in Hst. rewrite Hth, bool_decide_false, Hp in Hst by done.
      by destruct p. }
    assert (x ≠ jc) as Hxc.
    { intros ->. rewrite Hc in Hx. injection Hx as <-.
      destruct c; try done; simpl in Hst; by rewrite Hlock in Hst. }
    assert (in_life cx = false) as Hcx.
    { destruct (in_life cx) eqn:E; [|done]. destruct Hxj. exact (life_one _ Hok _ _ _ _ Hx Hj E eq_refl). }
    assert (at_lifecycle cx = false) as Hcl.
    { destruct cx; try done; simpl in Hst; by rewrite Hlock in Hst. }
    apply Hmove; [done|done|..]; destruct cx; try done; simpl in Hst; unfold add_owner, loop_call in Hst;
      branch.
  - apply Hmove; [intros ->; by simplify_eq|intros ->; simplify_eq; by destruct c| |];
      destruct e; simpl in He; branch.
  - destruct (decide (a = i)) as [->|Hne].
    + simplify_eq. specialize (Hcall Hcb). unfold calls_over in Hcall.
      rewrite forallb_forall in Hcall. specialize (Hcall (jc, c)). simpl in Hcall.
      rewrite bool_decide_true in Hcall by done. simpl in Hcall.
      assert (is_idle c = true) as Hi; [|by destruct c].
      apply Hcall, list_elem_of_In, list_elem_of_lookup. exists jc.
      by rewrite list_lookup_imap, Hc.
    + split; eauto. exists p. simpl. by rewrite list_lookup_insert_ne.
  - split; eauto. by exists p.
  - split; eauto. by exists p.
Qed.

Lemma deadlocked_for_ever hardware s es s' j jc i :
  reachable (multi_lts strerror hardware) s → deadlocked s j jc i →
  run (multi_lts strerror hardware) s es s' → deadlocked s' j jc i.
Proof.
  intros Hs Hd Hr. revert Hs Hd. induction Hr as [s|s o s1 os s2 Hst _ IH]; intros Hs Hd; [done|].
  apply IH; [by eapply reachable_step|]. eapply deadlocked_step; [|done|exact Hst].
  by eapply multi_reachable_ok.
Qed.

(** ** Properties *)

(** C25: every loop is a reactor.  In every reachable state of any interleaving
    of clients and worker threads, each of the loops has its own thread point
    and its own descriptors, and its state is a reachable state of the event
    loop of EpollReactor.v: what is proved there of one reactor (its interest
    list agrees with its watchers, [stop] ends [run]) holds of every loop. *)
Theorem multi_loops_are_reactors hardware s
    (Hs : reachable (multi_lts strerror hardware) s) :
  (∀ i, (i < count s)%nat → is_Some (project s i))
  ∧ (∀ i t, project s i = Some t → reachable (reactor_lts strerror eventLoop) t)
  ∧ (∀ i j r r', loops (multi s) !! i = Some r → loops (multi s) !! j = Some r' → i ≠ j →
       epoll_fd r ≠ epoll_fd r' ∧ wake_fd r ≠ wake_fd r')
  ∧ (∀ i r d ev, loops (multi s) !! i = Some r →
       interest (kernel_ s) (epoll_fd r) !! d = Some ev → d ≠ wake_fd r →
       ∃ w, watchers r !! d = Some w ∧ ev = toNativeEvents (watched w)).
Proof.
  apply multi_reachable_ok in Hs as [Hla _]. split_and!.
  - intros i Hi. destruct (lookup_lt_is_Some_2 _ _ Hi) as [r Hr].
    destruct (lane_at _ _ _ Hla Hr) as (p & n & Hp & Hn & _).
    unfold project. rewrite Hr, Hp, Hn. eauto.
  - apply Hla.
  - apply Hla.
  - intros i r d ev Hi. apply (reg_interest _ _ (lane_registered _ _ _ Hla Hi)).
Qed.

(** C26: a descriptor belongs to one loop.  As long as clients do not use one
    descriptor at the same time, however their calls interleave and whichever
    of them fail, at most one loop watches a descriptor, and a descriptor that
    no call is working on is watched by exactly the loop the table of owners
    names. *)
Theorem multi_owners_exact hardware s fd
    (Hs : reachable (disciplined_lts strerror hardware) s) :
  (∀ i1 i2 r1 r2, loops (multi s) !! i1 = Some r1 → loops (multi s) !! i2 = Some r2 →
     is_Some (watchers r1 !! fd) → is_Some (watchers r2 !! fd) → i1 = i2)
  ∧ (unused s fd → ∀ i, owners (multi s) !! fd = Some i ↔
       ∃ r, loops (multi s) !! i = Some r ∧ is_Some (watchers r !! fd)).
Proof.
  apply owners_reachable in Hs as (Hok & _ & _). split.
  - intros i1 i2 r1 r2. by apply watched_once.
  - intros Hun. destruct (owners_unused _ Hok fd Hun) as (o & Ho & Hl & Hlt).
    intros i. rewrite Ho. split.
    + intros ->. destruct (lookup_lt_is_Some_2 (loops (multi s)) i) as [r Hr];
        [apply Hlt; by left|].
      exists r. split; [done|]. by apply (Hl i r).
    + intros (r & Hr & Hw). by apply (Hl i r) in Hw.
Qed.

(** C27: starting and stopping.  Whenever the lifecycle mutex is free, a
    running reactor has one thread per loop and has not been stopped, and one
    that was stopped has no thread left to join, has asked every loop to stop,
    and every loop's thread has ended, except one whose own callback called
    [stop]: that thread is detached.  A [stop] that waits for another thread
    waits for one that has ended, that can take its next step (it is not asleep
    in [epoll_wait], and not inside a callback that still has a call under way),
    or that is about to be woken; or the thread is inside a callback whose own
    call of the reactor is under way, and then that call can take its next step,
    or waits for a loop mutex whose holder can, or it is itself a [start] or
    [stop] at the lifecycle mutex, which the joining [stop] holds.  In that last
    case, which does occur ([multi_stop_deadlock]), both wait for ever. *)
Theorem multi_lifecycle_exact hardware s
    (Hs : reachable (multi_lts strerror hardware) s) :
  (lifecycle s = false →
     if is_running (multi s)
     then stopped_after_start (multi s) = false ∧ threads (multi s) = seq 0 (count s)
     else threads (multi s) = []
          ∧ (stopped_after_start (multi s) = true →
             (∀ i r, loops (multi s) !! i = Some r → stopping r = true)
             ∧ ∀ i p, pcs s !! i = Some p → p = Outside ∨ i ∈ detached s))
  ∧ (∀ j i r p n, clients s !! j = Some (Joining i) → loop_of j ≠ Some i →
       loops (multi s) !! i = Some r → pcs s !! i = Some p → pending s !! i = Some n →
       p = Outside
       ∨ (loop_step strerror (kernel_ s) r p ≠ None
          ∧ (is_callback p = true → calls_over s i = true))
       ∨ (0 < n)%nat
       ∨ is_callback p = true
         ∧ ∃ jc c, loop_of jc = Some i ∧ clients s !! jc = Some c ∧ c ≠ Idle
           ∧ (at_lifecycle c = true ∨ call_moves s c))
  ∧ (∀ j jc i es s', deadlocked s j jc i → run (multi_lts strerror hardware) s es s' →
       deadlocked s' j jc i).
Proof.
  pose proof (in_run_reachable _ _ Hs) as Hrun. pose proof (ranged_reachable _ _ Hs) as Hrg.
  pose proof (multi_reachable_ok _ _ Hs) as [Hla Hok]. split_and!.
  - intros Hl. pose proof (life_free _ Hok Hl) as Hph. unfold phase in Hph.
    destruct (is_running (multi s)); [done|]. destruct Hph as [Hth Hph]. split; [done|].
    intros Hst. rewrite Hst in Hph. destruct Hph as [Hask Hhalt]. split.
    + intros i r Hr. apply (Hask i); [|done]. by eapply lookup_lt_Some.
    + intros i p Hp. apply (Hhalt i); [|done]. rewrite <-(lanes_pcs _ Hla).
      by eapply lookup_lt_Some.
  - intros j i r p n Hj Hself Hr Hp Hn.
    destruct (life_held _ Hok _ _ Hj eq_refl) as [_ (_ & _ & _ & Hask & _)].
    assert (stopping r = true) as Hst by (apply (Hask i); [by eapply lookup_lt_Some|done]).
    destruct (lane_at _ _ _ Hla Hr) as (p' & n' & Hp' & Hn' & Hreach). simplify_eq.
    apply reachable_ok in Hreach. destruct (joined_awake _ _ _ _ Hreach) as [?|[Hm|?]]; eauto.
    destruct (is_callback p) eqn:Hcb; [|by right; left].
    destruct (calls_over s i) eqn:Hov; [by right; left|]. right. right. right. split; [done|].
    apply calls_under_way in Hov as (jc & c & Hjc & Hc & Hne). exists jc, c.
    split_and!; [done..|]. destruct (in_life c) eqn:Hin.
    { pose proof (life_one _ Hok _ _ _ _ Hc Hj Hin eq_refl). congruence. }
    by eapply call_goes_on.
  - intros j jc i es s' Hd Hr. eapply deadlocked_for_ever; eauto.
Qed.
End composition.

(** ** Round robin *)

Section round_robin.
Context `{KernelLaws K} (strerror : errno → string).

(** How many of the numbers below [x] are [i] modulo [n]. *)
Definition turns (n i x : Z) : Z := (x + n - 1 - i) / n.

Lemma turns_step n i x :
  0 ≤ i < n → 0 ≤ x → turns n i (x + 1) = turns n i x + (if x mod n =? i then 1 else 0).
Proof.
  intros Hi Hx. unfold turns.
  pose proof (Z.div_mod x n ltac:(lia)) as Hdm. pose proof (Z.mod_pos_bound x n ltac:(lia)) as Hb.
  set (q := x / n) in *. set (m := x mod n) in *. rewrite Hdm.
  destruct (Z.eqb_spec m i) as [->|Hne].
  - rewrite <-(Z.div_unique (n * q + i + 1 + n - 1 - i) n (q + 1) 0) by lia.
    rewrite <-(Z.div_unique (n * q + i + n - 1 - i) n q (n - 1)) by lia. lia.
  - destruct (Z.lt_ge_cases m i).
    + rewrite <-(Z.div_unique (n * q + m + 1 + n - 1 - i) n q (m + n - i)) by lia.
      rewrite <-(Z.div_unique (n * q + m + n - 1 - i) n q (m + n - 1 - i)) by lia. lia.
    + rewrite <-(Z.div_unique (n * q + m + 1 + n - 1 - i) n (q + 1) (m - i)) by lia.
      rewrite <-(Z.div_unique (n * q + m + n - 1 - i) n (q + 1) (m - 1 - i)) by lia. lia.
Qed.

Lemma turns_zero n i : 0 ≤ i < n → turns n i 0 = 0.
Proof. intros Hi. unfold turns. apply Z.div_small. lia. Qed.

(** A list of [add] calls made one after the other. *)
Fixpoint add_all (k : K) (m : Reactor) (l : list (Z * Z * Callback))
    : K * Reactor * list (outcome nat) :=
  match l with
  | [] => (k, m, [])
  | (fd, ev, cb) :: l =>
      let '(k, m, o) := add strerror k m fd ev (Some cb) in
      let '(k, m, os) := add_all k m l in (k, m, o :: os)
  end.

(** An [add] that succeeds puts one watcher on the next loop. *)
Lemma add_ok k m fd ev cb k' m' i :
  add strerror k m fd ev (Some cb) = (k', m', Returns i) → loops m ≠ [] →
  i = next_index m ∧ next_loop m' = next_loop m ⊕ 1
  ∧ ∃ r r', loops m !! i = Some r ∧ loops m' = <[i := r']> (loops m)
    ∧ EpollReactor.size r' = EpollReactor.size r + 1.
Proof.
  unfold add. intros Ha Hne. destruct (add_check m fd (Some cb)) as [cb'|e]; [|done].
  unfold add_owner in Ha. destruct (owners (take_index m) !! fd); [done|].
  destruct (lookup_lt_is_Some_2 (loops m) (next_index m)) as [r Hr]; [by apply next_index_lt|].
  cbn [loops take_index set_field] in Ha. rewrite Hr in Ha.
  unfold EventLoop.add, call_alone, EpollReactor.locked in Ha.
  destruct (locked strerror eventLoop k r (Add fd ev (Some cb'))) as [[k1 r1] o] eqn:Hl.
  pose proof Hl as Hans. apply locked_answers in Hans as (Hans & _).
  unfold locked in Hl. rewrite Hl in Ha. destruct o as [b|e]; [|done].
  injection Ha as <- <- <-. split_and!; [done|done|]. exists r, r1. split_and!; [done|done|].
  unfold EpollReactor.size. simpl in Hans. destruct Hans as (_ & _ & _ & Hnone & cb2 & _ & ->).
  rewrite map_size_insert_None by done. lia.
Qed.

Lemma turns_balanced n i j x :
  0 ≤ i < n → 0 ≤ j < n → 0 ≤ x →
  0 + turns n i x - 0 ≤ 0 + turns n j x - 0 + 1.
Proof.
  intros Hi Hj Hx. unfold turns.
  assert ((x + n - 1 - i) / n ≤ (x + n - 1 - j + 1 * n) / n) by (apply Z.div_le_mono; lia).
  rewrite Z.div_add in * by lia. lia.
Qed.

Lemma round_robin_step k m fd ev cb k' m' i :
  add strerror k m fd ev (Some cb) = (k', m', Returns i) → loops m ≠ [] →
  0 ≤ next_loop m → next_loop m + 1 < two64 →
  next_loop m' = next_loop m + 1 ∧ length (loops m') = length (loops m)
  ∧ Z.of_nat i = next_loop m mod Z.of_nat (length (loops m))
  ∧ ∀ j r r', loops m !! j = Some r → loops m' !! j = Some r' →
      EpollReactor.size r' = EpollReactor.size r
        + (if next_loop m mod Z.of_nat (length (loops m)) =? Z.of_nat j then 1 else 0).
Proof.
  intros Ha Hne Hlow Hhigh. apply add_ok in Ha as (-> & Hnext & r0 & r1 & Hr0 & Hl & Hsize); [|done].
  assert (Z.of_nat (next_index m) = next_loop m mod Z.of_nat (length (loops m))) as Hi.
  { unfold next_index, workerCount.
    assert (0 < length (loops m))%nat by (by eapply Nat.le_lt_trans, lookup_lt_Some; [lia|]).
    pose proof (Z.mod_pos_bound (next_loop m) (Z.of_nat (length (loops m))) ltac:(lia)). lia. }
  rewrite Hl, length_insert, <-Hi. split_and!; [rewrite Hnext; apply u64_small; lia|done|done|].
  intros j r r' Hr Hr'. apply list_lookup_insert_Some in Hr' as [(<- & <- & _)|[Hij Hr']].
  - simplify_eq. by rewrite Z.eqb_refl.
  - simplify_eq. rewrite (proj2 (Z.eqb_neq _ _)) by lia. lia.
Qed.

(** The four figures after any number of calls, by induction on them. *)
Lemma round_robin_run k m l k' m' (idx : list nat)
    (Hall : add_all k m l = (k', m', Returns <$> idx)) (Hne : loops m ≠ [])
    (Hlow : 0 ≤ next_loop m) (Hhigh : next_loop m + Z.of_nat (length l) < two64) :
  next_loop m' = next_loop m + Z.of_nat (length l) ∧ length (loops m') = length (loops m)
  ∧ (∀ j i, idx !! j = Some i →
       Z.of_nat i = (next_loop m + Z.of_nat j) mod Z.of_nat (length (loops m)))
  ∧ (∀ i r r', loops m !! i = Some r → loops m' !! i = Some r' →
       EpollReactor.size r' = EpollReactor.size r
         + turns (Z.of_nat (length (loops m))) (Z.of_nat i) (next_loop m + Z.of_nat (length l))
         - turns (Z.of_nat (length (loops m))) (Z.of_nat i) (next_loop m)).
Proof.
  revert k m idx Hall Hne Hlow Hhigh.
  induction l as [|[[fd ev] cb] l IH]; intros k m idx Hall Hne Hlow Hhigh.
  - simpl in Hall. injection Hall as -> -> Hidx. destruct idx; [|done].
    split_and!; [simpl; lia|done|done|]. intros i r r' Hr Hr'. simplify_eq.
    simpl. rewrite Z.add_0_r. lia.
  - assert (Z.of_nat (length ((fd, ev, cb) :: l)) = Z.of_nat (length l) + 1) as Hlenl
      by (simpl length; lia).
    rewrite Hlenl in *. cbn [add_all] in Hall. destruct (add strerror k m fd ev (Some cb)) as [[k1 m1] o] eqn:Ha.
    destruct (add_all k1 m1 l) as [[k2 m2] os] eqn:Hl. injection Hall as -> -> Hos.
    destruct idx as [|i idx]; [done|]. injection Hos as -> ->.
    apply round_robin_step in Ha as (Hnext & Hlen & Hi & Hsize); [|done|done|lia].
    assert (loops m1 ≠ []) as Hne1.
    { intros Hnil. rewrite Hnil in Hlen. by destruct (loops m). }
    destruct (IH k1 m1 idx Hl Hne1) as (I1 & I2 & I3 & I4);
      [lia|lia|].
    rewrite Hlen, Hnext in *. split_and!.
    + lia.
    + done.
    + intros [|j] i' Hj; simplify_eq/=; [by rewrite Hi, Z.add_0_r|].
      rewrite (I3 _ _ Hj). f_equal. lia.
    + intros a r r' Hr Hr'. destruct (lookup_lt_is_Some_2 (loops m1) a) as [r1 Hr1].
      { rewrite Hlen. by eapply lookup_lt_Some. }
      rewrite (I4 _ _ _ Hr1 Hr'), (Hsize _ _ _ Hr Hr1).
      rewrite turns_step by (apply lookup_lt_Some in Hr; lia).
      rewrite (Z.add_comm (Z.of_nat (length l)) 1), Z.add_assoc. lia.
Qed.

(** Connections are dealt out in turn.  When [add] calls succeed one after
    the other, the [x]-th of them goes to loop [x] modulo the number of loops,
    counting from the first [add] of the reactor's life, and each loop's load
    grows by exactly its turns; on a fresh reactor the loads of two loops never
    differ by more than one.  (At [2^64] calls the counter wraps and the order
    jumps.) *)
Theorem multi_round_robin k m l k' m' (idx : list nat)
    (Hall : add_all k m l = (k', m', Returns <$> idx)) (Hne : loops m ≠ [])
    (Hlow : 0 ≤ next_loop m) (Hhigh : next_loop m + Z.of_nat (length l) < two64) :
  let n := Z.of_nat (length (loops m)) in
  let x := next_loop m + Z.of_nat (length l) in
  next_loop m' = x ∧ length (loops m') = length (loops m)
  ∧ (∀ j i, idx !! j = Some i → Z.of_nat i = (next_loop m + Z.of_nat j) mod n)
  ∧ (∀ i r r', loops m !! i = Some r → loops m' !! i = Some r' →
       EpollReactor.size r' = EpollReactor.size r + turns n (Z.of_nat i) x
                              - turns n (Z.of_nat i) (next_loop m))
  ∧ (next_loop m = 0 → (∀ i r, loops m !! i = Some r → EpollReactor.size r = 0) →
     ∀ i j r r', loops m' !! i = Some r → loops m' !! j = Some r' →
       EpollReactor.size r ≤ EpollReactor.size r' + 1).
Proof.
  cbn zeta. destruct (round_robin_run _ _ _ _ _ _ Hall Hne Hlow Hhigh) as (H1 & H2 & H3 & H4).
  split_and!; [done|done|done|done|]. intros Hzero Hempty i j r r' Hr Hr'.
  apply lookup_lt_Some in Hr as Hi. apply lookup_lt_Some in Hr' as Hj. rewrite H2 in Hi, Hj.
  destruct (lookup_lt_is_Some_2 _ _ Hi) as [ri Hri]. destruct (lookup_lt_is_Some_2 _ _ Hj) as [rj Hrj].
  rewrite (H4 _ _ _ Hri Hr), (H4 _ _ _ Hrj Hr'), (Hempty _ _ Hri), (Hempty _ _ Hrj), Hzero.
  rewrite !turns_zero by lia. apply turns_balanced; lia.
Qed.
End round_robin.

(** ** Concrete runs *)

Inductive maction :=
  | MStep (j : nat) (spawn : option exn)
  | MEnter (j : nat) (e : entry)
  | MLoop (i : nat)
  | MWake (i : nat)
  | MReady (d bits : Z).

(** Client 2 stands for the callbacks of loop 0; the others for other threads. *)
#[local] Instance scenario_callers : Callers := λ j, if (j =? 2)%nat then Some 0%nat else None.

Section play.
Let strerror : errno → string := λ _, "error"%string.

Definition in_callbackb (s : msystem kernel) (i : nat) : bool :=
  match pcs s !! i with Some p => is_callback p | None => false end.

Definition mplay (a : maction) (s : msystem kernel) : option (msystem kernel * list mevent) :=
  match a with
  | MStep j spawn =>
      match clients s !! j with
      | Some c =>
          match client_step strerror spawn (loop_of j) s c with
          | Some (s', c', es) => Some (s' <| clients := <[j := c']> (clients s) |>, es)
          | None => None
          end
      | None => None
      end
  | MEnter j e =>
      match clients s !! j with
      | Some Idle =>
          if match loop_of j with Some i => in_callbackb s i | None => true end then
            match enter s e with
            | Some (s', c', es) => Some (s' <| clients := <[j := c']> (clients s) |>, es)
            | None => None
            end
          else None
      | _ => None
      end
  | MLoop i =>
      match loops (multi s) !! i, pcs s !! i with
      | Some r, Some p =>
          match loop_step strerror (kernel_ s) r p with
          | Some (k', p', es) =>
              if existsb escapes es || is_callback p && negb (calls_over s i) then None
              else Some (s <| kernel_ := k' |> <| pcs := <[i := p']> (pcs s) |>, OnLoop i <$> es)
          | None => None
          end
      | _, _ => None
      end
  | MWake i =>
      match loops (multi s) !! i, pending s !! i with
      | Some r, Some (S n) =>
          Some (s <| kernel_ := EventLoop.wake (kernel_ s) r |> <| pending := <[i := n]> (pending s) |>, [])
      | _, _ => None
      end
  | MReady d bits => Some (s <| kernel_ := (kernel_ s) <| activity ::= <[d := bits]> |> |>, [])
  end.

Lemma mplay_step a s s' es : mplay a s = Some (s', es) → multi_step strerror s es s'.
Proof.
  destruct a as [j spawn|j e|i|i|d bits]; cbn [mplay]; intros Hp.
  - destruct (clients s !! j) as [c|] eqn:Hj; [|done].
    destruct (client_step _ _ _ _) as [[[s1 c'] es1]|] eqn:Hc; [|done].
    injection Hp as <- <-. by eapply multi_client.
  - destruct (clients s !! j) as [[]|] eqn:Hj; try done.
    destruct (match loop_of j with Some i => _ | None => _ end) eqn:Hin; [|done].
    destruct (enter _ _) as [[[s1 c'] es1]|] eqn:Hc; [|done].
    injection Hp as <- <-. eapply multi_enter; [done| |done].
    intros i Hi. rewrite Hi in Hin. unfold in_callbackb in Hin.
    destruct (pcs s !! i) as [p|] eqn:Hpc; [|done]. by exists p.
  - destruct (loops (multi s) !! i) as [r|] eqn:Hr; [|done].
    destruct (pcs s !! i) as [p|] eqn:Hpc; [|done].
    destruct (loop_step _ _ _ _) as [[[k' p'] es1]|] eqn:Hl; [|done].
    destruct (existsb escapes es1) eqn:Hx; [done|]. simpl in Hp.
    destruct (is_callback p && negb (calls_over s i)) eqn:Hcall; [done|].
    injection Hp as <- <-. eapply multi_loop; try done. intros Hcb.
    rewrite Hcb in Hcall. by apply negb_false_iff in Hcall.
  - destruct (loops (multi s) !! i) as [r|] eqn:Hr; [|done].
    destruct (pending s !! i) as [[|n]|] eqn:Hn; try done.
    injection Hp as <- <-. by eapply multi_wake.
  - injection Hp as <- <-. apply multi_elsewhere. by intros i r Hr.
Qed.

Fixpoint mplays (l : list maction) (s : msystem kernel) : option (msystem kernel * list mevent) :=
  match l with
  | [] => Some (s, [])
  | a :: l =>
      match mplay a s with
      | Some (s, es) =>
          match mplays l s with Some (s, es') => Some (s, es ++ es') | None => None end
      | None => None
      end
  end.

(** Schedules whose states are all disciplined, and schedules in general. *)
Lemma mplays_run l s s' es : mplays l s = Some (s', es) → run (multi_lts strerror 4) s es s'.
Proof.
  revert s es. induction l as [|a l IH]; simpl; intros s es Hp; [simplify_eq; constructor|].
  destruct (mplay a s) as [[s1 es1]|] eqn:Ha; [|done].
  destruct (mplays l s1) as [[s2 es2]|] eqn:Hl; simplify_eq.
  econstructor; [by eapply mplay_step|eauto].
Qed.

(** One client is always disciplined. *)
Lemma mplays_alone l s s' es :
  length (clients s) = 1%nat → mplays l s = Some (s', es) →
  run (disciplined_lts strerror 4) s es s'.
Proof.
  revert s es. induction l as [|a l IH]; simpl; intros s es Hlen Hp; [simplify_eq; constructor|].
  destruct (mplay a s) as [[s1 es1]|] eqn:Ha; [|done].
  destruct (mplays l s1) as [[s2 es2]|] eqn:Hl; simplify_eq.
  assert (length (clients s1) = 1%nat) as Hlen1.
  { destruct a; cbn [mplay] in Ha; branch; simpl; by rewrite ?length_insert. }
  econstructor; [split; [by eapply mplay_step|]|eauto].
  intros j1 j2 c1 c2 fd H1%lookup_lt_Some H2%lookup_lt_Some _ _. lia.
Qed.

Definition base_kernel : kernel := mkKernel {[0; 1; 2; 7; 8; 9]} 20 100 ∅ ∅ ∅ 0.

(** Two loops, [n] clients. *)
Definition two_loops (n : nat) : option (msystem kernel) :=
  match make strerror 4 base_kernel (mkConfig 2 16) with
  | (k, Returns m) =>
      Some (mkMSystem kernel k m [Outside; Outside] [0%nat; 0%nat] [] false (replicate n Idle))
  | _ => None
  end.

Definition mscenario (n : nat) (l : list maction) : option (msystem kernel * list mevent) :=
  s ← two_loops n; mplays l s.

Lemma two_loops_init n s : two_loops n = Some s → multi_init strerror 4 s.
Proof.
  unfold two_loops. destruct (make strerror 4 base_kernel (mkConfig 2 16)) as [k [m|e]] eqn:Hm; [|done].
  intros [= <-]. exists base_kernel, (mkConfig 2 16).
  assert (length (loops m) = 2%nat) as Hl.
  { assert ((λ o, match o with Returns m => length (loops m) | _ => 0%nat end)
      (make strerror 4 base_kernel (mkConfig 2 16)).2 = 2%nat) as Hv by (by vm_compute).
    by rewrite Hm in Hv. }
  unfold count. cbn [pcs pending multi detached lifecycle clients kernel_]. rewrite Hl.
  split_and!; try done. apply Forall_forall. by intros c [-> _]%elem_of_replicate.
Qed.

Lemma mscenario_state {A} n l (φ : msystem kernel → A) v :
  φ ∘ fst <$> mscenario n l = Some v →
  ∃ s, reachable (multi_lts strerror 4) s ∧ φ s = v.
Proof.
  unfold mscenario. destruct (two_loops n) as [s0|] eqn:E; simpl; [|done].
  destruct (mplays l s0) as [[s es]|] eqn:Hp; simpl; intros [= <-].
  exists s. split; [|done]. exists s0, es. split; [by eapply two_loops_init|by eapply mplays_run].
Qed.

Lemma mscenario_alone {A} l (φ : msystem kernel → A) v :
  φ ∘ fst <$> mscenario 1 l = Some v →
  ∃ s, reachable (disciplined_lts strerror 4) s ∧ φ s = v.
Proof.
  unfold mscenario. destruct (two_loops 1) as [s0|] eqn:E; simpl; [|done].
  destruct (mplays l s0) as [[s es]|] eqn:Hp; simpl; intros [= <-].
  exists s. split; [|done]. exists s0, es. split; [by eapply two_loops_init|].
  eapply mplays_alone; [|done]. unfold two_loops in E.
  destruct (make _ _ _ _) as [k [m|e]]; [|done]. by injection E as <-.
Qed.
End play.

Definition start_two (j : nat) : list maction :=
  MEnter j CallStart :: replicate 4 (MStep j None).

(** Two clients add descriptors, one is ready, and a client stops the reactor. *)
Definition two_clients : list maction :=
  start_two 0 ++
  [MEnter 0 (CallAdd 7 1 (Some 70)); MEnter 1 (CallAdd 8 1 (Some 80)); MStep 1 None; MStep 0 None;
   MStep 1 None; MStep 0 None; MLoop 0; MReady 7 1; MLoop 0; MLoop 0; MLoop 0; MLoop 0;
   MEnter 1 CallStop] ++ replicate 4 (MStep 1 None).

Lemma multi_loops_are_reactors_witness :
  ∃ s t, reachable (multi_lts (λ _, "error"%string) 4) s ∧ project s 0%nat = Some t
  ∧ pc t = InCallback true [] 1 ∧ reachable (reactor_lts (λ _, "error"%string) eventLoop) t.
Proof.
  assert ((λ s : msystem kernel, pc <$> project s 0%nat) ∘ fst <$> mscenario 2%nat two_clients
    = Some (Some (InCallback true [] 1))) as Hv by (by vm_compute).
  apply mscenario_state in Hv as (s & Hs & Hp).
  destruct (project s 0%nat) as [t|] eqn:Ht; [|done]. exists s, t.
  split; [done|]. split; [done|]. split; [by injection Hp|].
  exact (proj1 (proj2 (multi_loops_are_reactors (λ _, "error"%string) 4 s Hs)) _ _ Ht).
Defined.

(** [remove] has erased the owner of 7 and not yet called its loop. *)
Definition one_client : list maction :=
  start_two 0 ++
  [MEnter 0 (CallAdd 7 1 (Some 70)); MStep 0 None; MStep 0 None;
   MEnter 0 (CallAdd 8 1 (Some 80)); MStep 0 None; MStep 0 None;
   MEnter 0 (CallAdd 9 1 (Some 90)); MStep 0 None; MStep 0 None;
   MEnter 0 (CallRemove 7)].

Lemma multi_owners_exact_witness :
  ∃ s, reachable (disciplined_lts (λ _, "error"%string) 4) s
  ∧ clients s = [RemoveLoop 7 0%nat] ∧ (owners (multi s) !! 8) = Some 1%nat
  ∧ ∃ r, loops (multi s) !! 1%nat = Some r ∧ is_Some (watchers r !! 8).
Proof.
  assert ((λ s : msystem kernel, (clients s, owners (multi s) !! 8)) ∘ fst <$> mscenario 1%nat one_client
    = Some ([RemoveLoop 7 0%nat], Some 1%nat)) as Hv by (by vm_compute).
  apply mscenario_alone in Hv as (s & Hs & [= Hc Ho]).
  exists s. split; [done|]. split; [done|]. split; [done|].
  refine (proj1 (proj2 (multi_owners_exact (λ _, "error"%string) 4 s 8 Hs) _ 1%nat) Ho).
  intros j c Hj. rewrite Hc in Hj. by destruct j; simplify_eq/=.
Defined.

(** The callback of loop 0 has called [stop] and waits for the lifecycle mutex,
    which client 1 holds while it joins the thread of loop 0. *)
Definition callback_stops : list maction := two_clients ++ [MEnter 2 CallStop; MWake 0; MWake 0].

Lemma callback_stops_state :
  ∃ s, reachable (multi_lts (λ _, "error"%string) 4) s ∧ deadlocked s 1 2 0
    ∧ pcs s !! 0%nat = Some (InCallback true [] 1) ∧ pending s !! 0%nat = Some 0%nat
    ∧ is_Some (loops (multi s) !! 0%nat).
Proof.
  assert ((λ s : msystem kernel, (clients s !! 1%nat, clients s !! 2%nat, threads (multi s) !! 0%nat,
      pcs s !! 0%nat, pending s !! 0%nat, bool_decide (is_Some (loops (multi s) !! 0%nat))))
      ∘ fst <$> mscenario 3%nat callback_stops
    = Some (Some (Joining 0), Some StopWaiting, Some 0%nat, Some (InCallback true [] 1), Some 0%nat,
        true)) as Hv by (by vm_compute).
  apply mscenario_state in Hv as (s & Hs & [= H1 H2 H3 H4 H5 H6]).
  apply bool_decide_eq_true in H6. exists s. split_and!; try done.
  split; try done; [by eexists|by eexists].
Qed.

Lemma multi_lifecycle_exact_witness :
  ∃ s, reachable (multi_lts (λ _, "error"%string) 4) s
  ∧ clients s !! 1%nat = Some (Joining 0) ∧ pcs s !! 0%nat = Some (InCallback true [] 1)
  ∧ (∃ r, loops (multi s) !! 0%nat = Some r ∧
       (InCallback true [] 1 = Outside
        ∨ (loop_step (λ _, "error"%string) (kernel_ s) r (InCallback true [] 1) ≠ None
           ∧ (is_callback (InCallback true [] 1) = true → calls_over s 0 = true))
        ∨ (0 < 0)%nat
        ∨ is_callback (InCallback true [] 1) = true
          ∧ ∃ jc c, loop_of jc = Some 0%nat ∧ clients s !! jc = Some c ∧ c ≠ Idle
            ∧ (at_lifecycle c = true ∨ call_moves (λ _, "error"%string) s c)))
  ∧ ∀ es s', run (multi_lts (λ _, "error"%string) 4) s es s' → clients s' !! 1%nat = Some (Joining 0).
Proof.
  destruct callback_stops_state as (s & Hs & Hd & Hp & Hn & [r Hl]). exists s.
  split; [done|]. split; [apply Hd|]. split; [done|]. split.
  { exists r. split; [done|].
    exact (proj1 (proj2 (multi_lifecycle_exact (λ _, "error"%string) 4 s Hs))
      _ _ _ _ _ (d_join _ _ _ _ Hd) (d_other _ _ _ _ Hd) Hl Hp Hn). }
  intros es s' Hr.
  exact (d_join _ _ _ _ (proj2 (proj2 (multi_lifecycle_exact (λ _, "error"%string) 4 s Hs))
    _ _ _ _ _ Hd Hr)).
Defined.

(** Deadlock: a callback that calls [stop] while another thread's [stop] joins
    the callback's own thread waits for the lifecycle mutex, and neither call
    ever returns. *)
Theorem multi_stop_deadlock :
  ∃ s, reachable (multi_lts (λ _, "error"%string) 4) s
  ∧ ∀ es s', run (multi_lts (λ _, "error"%string) 4) s es s' →
      clients s' !! 1%nat = Some (Joining 0) ∧ in_callback s' 0
      ∧ ∃ c, clients s' !! 2%nat = Some c ∧ at_lifecycle c = true.
Proof.
  destruct callback_stops_state as (s & Hs & Hd & _). exists s. split; [done|]. intros es s' Hr.
  destruct (deadlocked_for_ever _ _ _ _ _ _ _ _ Hs Hd Hr) as [H1 _ _ H2 _ H3]. done.
Qed.

(** Five connections on two loops. *)
Definition five : list (Z * Z * Callback) :=
  [(1, 1, 10); (2, 1, 20); (7, 1, 70); (8, 5, 80); (9, 1, 90)].

Lemma multi_round_robin_witness :
  match make (λ _, "error"%string) 4 base_kernel (mkConfig 2 16) with
  | (k, Returns m) =>
      let '(_, m', os) := add_all (λ _, "error"%string) k (m <| is_running := true |>) five in
      os = Returns <$> [0; 1; 0; 1; 0]%nat ∧ next_loop m' = 5
  | _ => False
  end.
Proof.
  destruct (make _ _ _ _) as [k [m|e]] eqn:Hm; [|by vm_compute in Hm].
  destruct (add_all _ k (m <| is_running := true |>) five) as [[k' m'] os] eqn:Ha.
  assert (match make (λ _, "error"%string) 4 base_kernel (mkConfig 2 16) with
    | (k, Returns m) => ((add_all (λ _, "error"%string) k (m <| is_running := true |>) five).2,
        next_loop m, length (loops m))
    | _ => ([], 0, 0%nat) end = (Returns <$> [0; 1; 0; 1; 0]%nat, 0, 2%nat)) as Hv by (by vm_compute).
  rewrite Hm, Ha in Hv. injection Hv as -> Hnext Hlen. split; [done|].
  destruct (multi_round_robin (λ _, "error"%string) k (m <| is_running := true |>) five k' m'
    [0; 1; 0; 1; 0]%nat Ha) as [H _]; simpl.
  - intros Hnil. by rewrite Hnil in Hlen.
  - by rewrite Hnext.
  - by rewrite Hnext.
  - rewrite H. simpl. by rewrite Hnext.
Defined.

(** Two clients that use one descriptor at the same time can split it.  The
    [remove] runs between the two critical sections of the [add]: it erases the
    owner, finds nothing in the loop and returns false; the [add] then succeeds
    without an owner, and the next [add] puts the descriptor on a second loop. *)
Theorem multi_add_remove_race :
  (λ x, (x.2, (λ r, EpollReactor.contains r 7) <$> loops (multi x.1), owners (multi x.1) !! 7)) <$>
    mscenario 2%nat (start_two 0%nat ++
      [MEnter 0 (CallAdd 7 1 (Some 70)); MStep 0 None; MEnter 1 (CallRemove 7); MStep 1 None;
       MStep 0 None; MEnter 1 (CallAdd 7 1 (Some 71)); MStep 1 None; MStep 1 None])
  = Some ([Started (Returns tt); Removed 7 (Returns false); Added 7 (Returns 0%nat);
           Added 7 (Returns 1%nat)], [true; true], Some 1%nat).
Proof. by vm_compute. Qed.
