(* ===== verification/Sockets.v ===== *)
(** * Sockets beside epoll

    What the echo server relies on besides the calls of Kernel.v: non-blocking
    stream sockets, when they are ready, and when an edge-triggered epoll
    instance reports that they are.  As in Kernel.v: a class with the calls, the
    documented laws, and one executable network that satisfies them. *)

From S2P Require Import Prelude Kernel.
From Stdlib Require Import Init.Byte.
Open Scope Z_scope.

(** Is one of the events [bit] asked for in [ev]? *)
Definition asks (ev bit : Z) : bool := negb (Z.land ev bit =? 0).

(** [can_read]: there are bytes, an end of the stream, an error or a waiting
    connection, so that [recv] or [accept4] would not answer [EAGAIN];
    [can_send] likewise for [send]; [edge ep d]: the instance [ep] has a change
    of [d] to report that it has not reported yet. *)
Class Sockets (K : Type) := {
  new_socket : K → K * (Z + errno);
  set_reuseaddr : K → Z → K * option errno;
  bind_port : K → Z → Z → K * option errno;
  listen_on : K → Z → K * option errno;
  local_port : K → Z → K * (Z + errno);
  accept4 : K → Z → K * (Z + errno);
  recv : K → Z → Z → K * (list byte + errno);      (* socket, size of the buffer *)
  send : K → Z → list byte → K * (Z + errno);
  can_read : K → Z → bool;
  can_send : K → Z → bool;
  edge : K → Z → Z → bool;
}.

Definition ready `{Sockets K} (k : K) (d ev : Z) : bool :=
  (asks ev EPOLLIN && can_read k d) || (asks ev EPOLLOUT && can_send k d).

(** Calls that leave the descriptors and what epoll knows of them alone. *)
Definition inner `{Kernel K} (k k' : K) : Prop :=
  same_files k k' ∧ (∀ ep, interest k' ep = interest k ep) ∧ ∀ d, counter k' d = counter k d.

(** Calls after which nothing is ready that was not, and every report is still
    due, for the descriptors of [P]. *)
Definition calm `{Sockets K} (P : Z → Prop) (k k' : K) : Prop :=
  ∀ d, P d →
    (can_read k' d = true → can_read k d = true)
    ∧ (can_send k' d = true → can_send k d = true)
    ∧ ∀ ep, edge k ep d = true → edge k' ep d = true.

Definition any (d : Z) : Prop := True.

(** [EAGAIN] is answered by a socket that is not ready; a socket that is ready
    when it is registered, or when its registration is changed, is reported;
    a report is lost only when it is made or no longer true; [epoll_wait] does
    not sleep while one is due.  What becomes ready does so between calls. *)
Class SocketLaws (K : Type) `{Kernel K} `{!Sockets K} : Prop := {
  law_socket k k' d : new_socket k = (k', inl d) → only_new k k' d;
  law_socket_error k k' e : new_socket k = (k', inr e) → inner k k';
  law_reuseaddr k d : inner k (set_reuseaddr k d).1;
  law_bind k d port : inner k (bind_port k d port).1;
  law_listen k d : inner k (listen_on k d).1;
  law_local_port k d : inner k (local_port k d).1;
  law_accept k l k' d : accept4 k l = (k', inl d) →
    only_new k k' d ∧ calm (λ x, x ≠ d) k k';
  law_accept_error k l k' e : accept4 k l = (k', inr e) →
    inner k k' ∧ calm any k k' ∧ (e = EAGAIN → can_read k' l = false);
  law_recv k d n k' res : recv k d n = (k', res) → 0 < n →
    inner k k' ∧ calm any k k'
    ∧ match res with
      | inl bs => Z.of_nat (length bs) ≤ n
      | inr e => e = EAGAIN → can_read k' d = false
      end;
  law_send k d bs k' res : send k d bs = (k', res) →
    inner k k' ∧ calm any k k'
    ∧ match res with
      | inl n => 0 ≤ n ≤ Z.of_nat (length bs)
      | inr e => e = EAGAIN → can_send k' d = false
      end;
  law_ctl_calm k ep op d ev :
    calm (λ x, x ≠ d ∨ op ≠ CtlDel) k (epoll_ctl k ep op d ev).1;
  law_ctl_ready k ep op d ev k' :
    epoll_ctl k ep op d ev = (k', None) → op ≠ CtlDel → ready k' d ev = true →
    edge k' ep d = true;
  law_wait_edges k ep n t k' res d ev :
    epoll_wait k ep n t = (k', res) → interest k ep !! d = Some ev →
    (ready k' d ev = true → ready k d ev = true)
    ∧ (edge k ep d = true →
       edge k' ep d = true ∨ ∃ l, res = Ready l ∧ d ∈ l.*1);
  law_wait_asleep k ep n t k' d ev :
    epoll_wait k ep n t = (k', Blocks) → interest k ep !! d = Some ev →
    edge k ep d = true → ready k d ev = false;
  law_read_calm k w : is_eventfd k w = true → calm any k (read_eight k w).1;
  law_close_calm k d : calm (λ x, x ≠ d) k (close_fd k d);
}.

Section theory.
Context `{Sockets K} `{Kernel K}.

Lemma ready_calm P k k' d ev :
  calm P k k' → P d → ready k' d ev = true → ready k d ev = true.
Proof.
  intros Hc Hd. destruct (Hc d Hd) as (Hr & Hs & _). unfold ready.
  rewrite !orb_true_iff, !andb_true_iff. naive_solver.
Qed.

Lemma inner_refl k : inner k k.
Proof. done. Qed.
End theory.

(** ** An executable network *)

(** What waits in the queue of a listening socket. *)
Inductive arrival := Connection | Aborted.
#[export] Instance arrival_eq_dec : EqDecision arrival.
Proof. solve_decision. Defined.

(** [inbox]: the bytes that have arrived for a socket; [ended]: sockets whose
    peer has stopped sending; [room]: how many bytes a socket can take;
    [waiting]: what a listening socket has for [accept4]; [edges]: the reports
    that are due. *)
Record net := mkNet {
  base : kernel;
  inbox : gmap Z (list byte);
  ended : gset Z;
  room : gmap Z Z;
  waiting : gmap Z (list arrival);
  edges : gset (Z * Z);
}.
#[export] Instance eta_net : Eta net := λ n,
  mkNet (base n) (inbox n) (ended n) (room n) (waiting n) (edges n).

Module Net.
(** How much a fresh connection can take. *)
Definition sndbuf : Z := 5.

Definition is_event (n : net) (d : Z) : bool := bool_decide (is_Some (eventfds (base n) !! d)).
Definition read_ready (n : net) (d : Z) : bool :=
  negb (is_event n d)
  && (bool_decide (default [] (inbox n !! d) ≠ []) || bool_decide (d ∈ ended n)
      || bool_decide (default [] (waiting n !! d) ≠ [])).
Definition send_ready (n : net) (d : Z) : bool :=
  negb (is_event n d) && (0 <? default 0 (room n !! d)).

Definition opened {A} (n : net) (p : kernel * A) : net * A := (n <| base := p.1 |>, p.2).

Definition fresh (n : net) : net * (Z + errno) :=
  match Sim.new_fd (base n) with
  | Some d =>
      ((n <| base ::= λ b, Sim.opened b d |> <| inbox ::= delete d |> <| ended ::= λ s, s ∖ {[d]} |>
        <| room ::= <[d := sndbuf]> |> <| waiting ::= delete d |>), inl d)
  | None => (n, inr EMFILE)
  end.

Definition accept (n : net) (l : Z) : net * (Z + errno) :=
  match default [] (waiting n !! l) with
  | [] => (n, inr (if read_ready n l then EINVAL else EAGAIN))
  | Aborted :: q => (n <| waiting ::= <[l := q]> |>, inr ECONNABORTED)
  | Connection :: q =>
      match fresh n with
      | (n', inl d) => (n' <| waiting ::= <[l := q]> |>, inl d)
      | (_, inr e) => (n, inr e)
      end
  end.

Definition receive (n : net) (d size : Z) : net * (list byte + errno) :=
  match default [] (inbox n !! d) with
  | [] => (n, if bool_decide (d ∈ ended n) then inl []
              else inr (if read_ready n d then EINVAL else EAGAIN))
  | bs => (n <| inbox ::= <[d := drop (Z.to_nat size) bs]> |>, inl (take (Z.to_nat size) bs))
  end.

Definition transmit (n : net) (d : Z) (bs : list byte) : net * (Z + errno) :=
  let r := default 0 (room n !! d) in
  if 0 <? r
  then let m := Z.min r (Z.of_nat (length bs)) in (n <| room ::= <[d := r - m]> |>, inl m)
  else (n, inr EAGAIN).

(** A changed registration is reported again if it is ready. *)
Definition ctl (n : net) (ep : Z) (op : ctl_op) (d ev : Z) : net * option errno :=
  let '(b, rc) := Sim.ctl (base n) ep op d ev in
  (n <| base := b |> <| edges ::= match op with
     | CtlDel => λ s, s ∖ {[(ep, d)]}
     | _ => λ s, {[(ep, d)]} ∪ s
     end |>, rc).

(** The event bits of the sockets that [ep] has to report: those that are level
    triggered, and those whose report is due. *)
Definition bits (n : net) (d : Z) : Z :=
  Z.lor (if read_ready n d then EPOLLIN else 0) (if send_ready n d then EPOLLOUT else 0).
Definition reports (n : net) (ep : Z) : gmap Z Z :=
  map_imap (λ d ev, if asks ev EPOLLET && bool_decide ((ep, d) ∉ edges n)
                    then None else Some (bits n d))
    (Sim.list_of (base n) ep).

Definition wait (n : net) (ep m t : Z) : net * wait_result :=
  let '(b, res) := Sim.wait ((base n) <| activity := reports n ep |>) ep m t in
  (n <| base := b |> <| edges ::= λ s,
     match res with Ready l => s ∖ list_to_set ((ep,.) <$> l.*1) | _ => s end |>, res).

Definition close (n : net) (d : Z) : net :=
  n <| base ::= λ b, Sim.close b d |> <| edges ::= filter (λ e, e.2 ≠ d) |>.
End Net.

#[export] Instance net_kernel : Kernel net := {
  open_fds n := files (base n);
  is_eventfd n := is_eventfd (base n);
  interest n := Sim.list_of (base n);
  counter n := Sim.count (base n);
  epoll_create1 n := Net.opened n (Sim.create (base n));
  eventfd n := Net.opened n (Sim.new_eventfd (base n));
  close_fd := Net.close;
  epoll_ctl := Net.ctl;
  epoll_wait := Net.wait;
  write_one n d := n <| base ::= λ b, Sim.write b d |>;
  read_eight n d := Net.opened n (Sim.read (base n) d);
  allocates n := allocates (base n);
}.

#[export] Instance net_sockets : Sockets net := {
  new_socket := Net.fresh;
  set_reuseaddr n _ := (n, None);
  bind_port n _ _ := (n, None);
  listen_on n _ := (n, None);
  local_port n _ := (n, inl 9090);
  accept4 := Net.accept;
  recv := Net.receive;
  send := Net.transmit;
  can_read := Net.read_ready;
  can_send := Net.send_ready;
  edge n ep d := bool_decide ((ep, d) ∈ edges n);
}.

(** ** It satisfies the laws *)

Lemma ctl_base n ep op d ev n' rc :
  Net.ctl n ep op d ev = (n', rc) → Sim.ctl (base n) ep op d ev = (base n', rc).
Proof. unfold Net.ctl. destruct (Sim.ctl _ _ _ _ _). by intros [= <- <-]. Qed.

Lemma wait_base n ep m t n' res :
  Net.wait n ep m t = (n', res) →
  Sim.wait ((base n) <| activity := Net.reports n ep |>) ep m t = (base n', res).
Proof. unfold Net.wait. destruct (Sim.wait _ _ _ _). by intros [= <- <-]. Qed.

#[export] Instance net_laws : KernelLaws net.
Proof.
  split; cbn.
  - intros n n' d Hc. destruct (Sim.create (base n)) as [b v] eqn:E. unfold Net.opened in Hc.
    simplify_eq/=. by apply create_ok in E.
  - intros n n' e Hc. pose proof (law_create_error (K:=kernel) (base n)) as Hl. cbn in Hl.
    destruct (Sim.create (base n)) as [b v]. unfold Net.opened in Hc. simplify_eq/=. eauto.
  - intros n n' d Hc. destruct (Sim.new_eventfd (base n)) as [b v] eqn:E.
    unfold Net.opened in Hc. simplify_eq/=. by apply eventfd_ok in E.
  - intros n n' e Hc. pose proof (law_eventfd_error (K:=kernel) (base n)) as Hl. cbn in Hl.
    destruct (Sim.new_eventfd (base n)) as [b v]. unfold Net.opened in Hc. simplify_eq/=. eauto.
  - done.
  - intros n. apply close_frame.
  - intros n ep op d ev. pose proof (ctl_frame (base n) ep op d ev) as Hf.
    destruct (Net.ctl n ep op d ev) as [n' rc] eqn:Hc. apply ctl_base in Hc.
    rewrite Hc in Hf. exact Hf.
  - intros n ep op d ev n' e Hc%ctl_base. by eapply ctl_error.
  - intros n ep d ev n' Hc%ctl_base. by eapply ctl_add.
  - intros n ep d ev n' Hc%ctl_base. by eapply ctl_mod.
  - intros n ep d ev. pose proof (ctl_del (base n) ep d ev) as Hf.
    destruct (Net.ctl n ep CtlDel d ev) as [n' rc] eqn:Hc. apply ctl_base in Hc.
    rewrite Hc in Hf. exact Hf.
  - intros n ep m t.
    pose proof (wait_frame ((base n) <| activity := Net.reports n ep |>) ep m t) as Hf.
    destruct (Net.wait n ep m t) as [n' res] eqn:Hc. apply wait_base in Hc.
    rewrite Hc in Hf. exact Hf.
  - intros n ep m t n' l Hc%wait_base. exact (wait_ready _ _ _ _ _ _ Hc).
  - intros n ep m t n' d Hc%wait_base. exact (wait_blocks _ _ _ _ _ _ Hc).
  - intros n d Hd. exact (write_ok (base n) d Hd).
  - intros n d Hd. exact (read_ok (base n) d Hd).
Qed.

Lemma fresh_ok n n' d :
  Net.fresh n = (n', inl d) → only_new n n' d ∧ calm (λ x, x ≠ d) n n'.
Proof.
  unfold Net.fresh. destruct (Sim.new_fd (base n)) as [x|] eqn:Hd; [|done].
  apply new_fd_fresh in Hd as (? & ? & _). intros [= <- <-].
  split; [by split_and!|]. intros y Hy. cbn.
  assert (x ≠ y) as Hne by done.
  unfold Net.read_ready, Net.send_ready, Net.is_event. cbn.
  rewrite !lookup_delete_ne, lookup_insert_ne by done.
  split_and!; [|done|done].
  rewrite (bool_decide_ext (y ∈ ended n ∖ {[x]}) (y ∈ ended n)); [done|].
  rewrite elem_of_difference, elem_of_singleton. naive_solver.
Qed.

Lemma fresh_error n n' e : Net.fresh n = (n', inr e) → inner n n'.
Proof. unfold Net.fresh. destruct (Sim.new_fd (base n)); [done|]. by intros [= <- _]. Qed.

Lemma read_ready_true n d :
  Net.read_ready n d = true ↔
  Net.is_event n d = false
  ∧ (default [] (inbox n !! d) ≠ [] ∨ d ∈ ended n ∨ default [] (waiting n !! d) ≠ []).
Proof.
  unfold Net.read_ready. rewrite andb_true_iff, !orb_true_iff, !bool_decide_eq_true, negb_true_iff.
  tauto.
Qed.

(** Taking bytes or connections away makes nothing ready. *)
Lemma shorter_calm n n' :
  base n' = base n → edges n' = edges n → ended n' = ended n →
  (∀ d, default [] (inbox n' !! d) ≠ [] → default [] (inbox n !! d) ≠ []) →
  (∀ d, default 0 (room n' !! d) ≤ default 0 (room n !! d)) →
  (∀ d, default [] (waiting n' !! d) ≠ [] → default [] (waiting n !! d) ≠ []) →
  inner n n' ∧ calm any n n'.
Proof.
  intros Hb He Hd Hi Hr Hw. split.
  { split; [split|]; cbn; by rewrite Hb. }
  intros d _. cbn. rewrite !read_ready_true. unfold Net.send_ready, Net.is_event.
  rewrite Hb, He, Hd. specialize (Hr d). specialize (Hi d). specialize (Hw d).
  split_and!; [tauto| |done].
  rewrite !andb_true_iff, !Z.ltb_lt. intros [? ?]. split; [done|lia].
Qed.

Lemma shorter_waiting n l x q d :
  default [] (waiting n !! l) = x :: q →
  default [] (<[l := q]> (waiting n) !! d) ≠ [] → default [] (waiting n !! d) ≠ [].
Proof.
  intros Hl. destruct (decide (d = l)) as [->|Hne]; [by rewrite Hl|].
  by rewrite lookup_insert_ne by done.
Qed.

Lemma receive_ok n d size n' res :
  Net.receive n d size = (n', res) → 0 < size →
  inner n n' ∧ calm any n n'
  ∧ match res with
    | inl bs => Z.of_nat (length bs) ≤ size
    | inr e => e = EAGAIN → Net.read_ready n' d = false
    end.
Proof.
  unfold Net.receive. intros Hr Hsize. apply and_assoc.
  destruct (default [] (inbox n !! d)) as [|b bs] eqn:Hi; simplify_eq.
  - split; [by apply shorter_calm|]. case_bool_decide; [simpl; lia|].
    by destruct (Net.read_ready n' d).
  - split; [|rewrite length_take; lia]. apply shorter_calm; try done. cbn.
    intros x. destruct (decide (x = d)) as [->|Hne]; [by rewrite Hi|].
    by rewrite lookup_insert_ne by done.
Qed.

Lemma transmit_ok n d bs n' res :
  Net.transmit n d bs = (n', res) →
  inner n n' ∧ calm any n n'
  ∧ match res with
    | inl m => 0 ≤ m ≤ Z.of_nat (length bs)
    | inr e => e = EAGAIN → Net.send_ready n' d = false
    end.
Proof.
  unfold Net.transmit. intros Ht. apply and_assoc.
  destruct (Z.ltb_spec 0 (default 0 (room n !! d))); simplify_eq.
  - split; [|lia]. apply shorter_calm; try done. cbn.
    intros x. destruct (decide (x = d)) as [->|Hne].
    + rewrite lookup_insert_eq. simpl. lia.
    + by rewrite lookup_insert_ne by done.
  - split; [by apply shorter_calm|]. intros _. unfold Net.send_ready.
    apply andb_false_iff. right. by apply Z.ltb_ge.
Qed.

Lemma accept_ok n l n' d :
  Net.accept n l = (n', inl d) → only_new n n' d ∧ calm (λ x, x ≠ d) n n'.
Proof.
  unfold Net.accept. destruct (default [] (waiting n !! l)) as [|[|] q] eqn:Hl; [done| |done].
  destruct (Net.fresh n) as [n1 [x|e]] eqn:Hf; [|done]. intros [= <- <-].
  pose proof (fresh_ok _ _ _ Hf) as [Hn Hc].
  split; [exact Hn|]. intros y Hy. destruct (Hc y Hy) as (Hr & Hs & He).
  split_and!; [|done|done]. revert Hr. cbn. rewrite !read_ready_true. cbn.
  destruct (decide (y = l)) as [->|Hne].
  - unfold Net.fresh in Hf. destruct (Sim.new_fd (base n)); [|done]. simplify_eq/=.
    rewrite Hl. intros _ [He' _]. split; [exact He'|by right; right].
  - rewrite lookup_insert_ne by done. tauto.
Qed.

Lemma accept_fails n l n' e :
  Net.accept n l = (n', inr e) →
  inner n n' ∧ calm any n n' ∧ (e = EAGAIN → Net.read_ready n' l = false).
Proof.
  unfold Net.accept. intros Ha. apply and_assoc.
  destruct (default [] (waiting n !! l)) as [|[|] q] eqn:Hl.
  - simplify_eq. split; [by apply shorter_calm|]. by destruct (Net.read_ready n' l).
  - destruct (Net.fresh n) as [n1 [x|e']] eqn:Hf; simplify_eq.
    split; [by apply shorter_calm|]. revert Hf. unfold Net.fresh.
    destruct (Sim.new_fd (base n')); [done|]. by intros [= _ <-].
  - simplify_eq. split; [|done]. apply shorter_calm; try done. cbn.
    intros x. by apply shorter_waiting with Aborted.
Qed.

Lemma ctl_calm n ep op d ev :
  calm (λ x, x ≠ d ∨ op ≠ CtlDel) n (Net.ctl n ep op d ev).1.
Proof.
  assert (∀ b rc, Sim.ctl (base n) ep op d ev = (b, rc) → eventfds b = eventfds (base n)) as He.
  { intros b rc Hc. destruct (ctl_cases (base n) ep op d ev) as [(? & Hx & _)|(? & Hx & _)];
      rewrite Hc in Hx; by simplify_eq. }
  intros x Hx. unfold Net.ctl. destruct (Sim.ctl _ _ _ _ _) as [b rc] eqn:Hc. cbn.
  unfold Net.read_ready, Net.send_ready, Net.is_event. cbn. rewrite (He _ _ eq_refl).
  split_and!; [done|done|]. intros ep'. rewrite !bool_decide_eq_true.
  destruct op; [set_solver|set_solver|]. intros Hin. apply elem_of_difference.
  split; [done|]. rewrite elem_of_singleton. naive_solver.
Qed.

Lemma ctl_ready n ep op d ev n' :
  Net.ctl n ep op d ev = (n', None) → op ≠ CtlDel → bool_decide ((ep, d) ∈ edges n') = true.
Proof.
  unfold Net.ctl. destruct (Sim.ctl _ _ _ _ _) as [b rc]. intros [= <- _] Hop. cbn.
  apply bool_decide_eq_true. destruct op; set_solver.
Qed.

Lemma wait_edges n ep m t n' res d ev :
  Net.wait n ep m t = (n', res) →
  (ready n' d ev = true → ready n d ev = true)
  ∧ (bool_decide ((ep, d) ∈ edges n) = true →
     bool_decide ((ep, d) ∈ edges n') = true ∨ ∃ l, res = Ready l ∧ d ∈ l.*1).
Proof.
  intros Hw. assert (eventfds (base n') = eventfds (base n)) as He.
  { apply wait_base in Hw. change (base n') with ((base n', res).1). rewrite <-Hw.
    unfold Sim.wait. by repeat case_match. }
  assert (edges n' = match res with
    Ready l => edges n ∖ list_to_set ((ep,.) <$> l.*1) | _ => edges n end
    ∧ inbox n' = inbox n ∧ ended n' = ended n ∧ room n' = room n ∧ waiting n' = waiting n)
    as (Hed & Hi & Hn & Hr & Hwt).
  { revert Hw. unfold Net.wait. destruct (Sim.wait _ _ _ _). by intros [= <- <-]. }
  split.
  - unfold ready. cbn. unfold Net.read_ready, Net.send_ready, Net.is_event.
    by rewrite He, Hi, Hn, Hr, Hwt.
  - rewrite !bool_decide_eq_true, Hed. intros Hin. destruct res as [l|e|]; [|by left|by left].
    destruct (decide (d ∈ l.*1)) as [Hl|Hl]; [right; by exists l|]. left.
    apply elem_of_difference. split; [done|]. rewrite elem_of_list_to_set, list_elem_of_fmap.
    naive_solver.
Qed.

Lemma asks_testbit ev i : 0 ≤ i → asks ev (2 ^ i) = Z.testbit ev i.
Proof.
  intros Hi. unfold asks. destruct (Z.testbit ev i) eqn:Ht.
  - apply negb_true_iff, Z.eqb_neq. intros Hz. apply (f_equal (λ z, Z.testbit z i)) in Hz.
    by rewrite Z.land_spec, Ht, Z.pow2_bits_true, Z.bits_0 in Hz.
  - apply negb_false_iff, Z.eqb_eq, Z.bits_inj_0. intros j. rewrite Z.land_spec.
    destruct (decide (i = j)) as [<-|Hne]; [by rewrite Ht|].
    by rewrite Z.pow2_bits_false, andb_false_r.
Qed.

Lemma land_bit a b i : Z.testbit a i = true → Z.testbit b i = true → Z.land a b ≠ 0.
Proof.
  intros Ha Hb Hz. apply (f_equal (λ z, Z.testbit z i)) in Hz.
  by rewrite Z.land_spec, Ha, Hb, Z.bits_0 in Hz.
Qed.

Lemma bits_ready n d ev :
  ready n d ev = true →
  Net.is_event n d = false ∧ Z.land (Net.bits n d) (Z.lor ev (Z.lor EPOLLERR EPOLLHUP)) ≠ 0.
Proof.
  unfold ready. cbn. intros Hr. split.
  { revert Hr. unfold Net.read_ready, Net.send_ready. destruct (Net.is_event n d); [|done].
    simpl. by rewrite !andb_false_r. }
  rewrite (asks_testbit ev 0 ltac:(done) : asks ev EPOLLIN = _) in Hr.
  rewrite (asks_testbit ev 2 ltac:(done) : asks ev EPOLLOUT = _) in Hr.
  apply orb_true_iff in Hr as [[Ha Hc]%andb_true_iff|[Ha Hc]%andb_true_iff].
  - apply (land_bit _ _ 0); [|by rewrite Z.lor_spec, Ha]. unfold Net.bits. rewrite Hc.
    by rewrite Z.lor_spec.
  - apply (land_bit _ _ 2); [|by rewrite Z.lor_spec, Ha]. unfold Net.bits. rewrite Hc.
    by rewrite Z.lor_spec, orb_true_r.
Qed.

Lemma wait_asleep n ep m t n' d ev :
  Net.wait n ep m t = (n', Blocks) → Sim.list_of (base n) ep !! d = Some ev →
  bool_decide ((ep, d) ∈ edges n) = true → ready n d ev = false.
Proof.
  intros Hw%wait_base Hl Hed. apply not_true_is_false. intros [Hev Hb]%bits_ready.
  set (k := (base n) <| activity := Net.reports n ep |>) in *.
  assert (Sim.report k ep = []) as Hr.
  { revert Hw. unfold Sim.wait. repeat case_match; naive_solver. }
  assert ((d, Sim.bits k d ev) ∈ Sim.report k ep) as Hin;
    [|rewrite Hr in Hin; by apply elem_of_nil in Hin].
  assert (Sim.bits k d ev = Z.land (Net.bits n d) (Z.lor ev (Z.lor EPOLLERR EPOLLHUP))) as Hbits.
  { unfold Sim.bits. change (eventfds k) with (eventfds (base n)).
    unfold Net.is_event in Hev. apply bool_decide_eq_false, eq_None_not_Some in Hev. rewrite Hev.
    change (activity k) with (Net.reports n ep). unfold Net.reports.
    rewrite map_lookup_imap, Hl. simpl. rewrite bool_decide_false, andb_false_r; [done|].
    apply bool_decide_eq_true in Hed. tauto. }
  apply report_spec. rewrite Hbits. split; [done|]. exists ev. by rewrite <-Hbits.
Qed.

Lemma read_calm n w :
  bool_decide (is_Some (eventfds (base n) !! w)) = true →
  calm any n (Net.opened n (Sim.read (base n) w)).1.
Proof.
  intros Hw d _. assert (bool_decide (is_Some (eventfds (Sim.read (base n) w).1 !! d))
    = bool_decide (is_Some (eventfds (base n) !! d))) as He.
  { destruct (read_ok _ _ Hw) as (((_ & He) & _) & _). apply He. }
  cbn. unfold Net.read_ready, Net.send_ready, Net.is_event. cbn. by rewrite He.
Qed.

Lemma close_calm n d : calm (λ x, x ≠ d) n (Net.close n d).
Proof.
  intros x Hx. cbn. unfold Net.read_ready, Net.send_ready, Net.is_event. cbn.
  rewrite lookup_delete_ne by done. split_and!; [done|done|].
  intros ep. rewrite !bool_decide_eq_true, elem_of_filter. done.
Qed.

#[export] Instance net_socket_laws : SocketLaws net.
Proof.
  split; cbn.
  - intros n n' d Hf. by apply fresh_ok.
  - intros n n' e. apply fresh_error.
  - done.
  - done.
  - done.
  - done.
  - apply accept_ok.
  - apply accept_fails.
  - apply receive_ok.
  - apply transmit_ok.
  - apply ctl_calm.
  - intros n ep op d ev n' Hc Hop _. by eapply ctl_ready.
  - intros n ep m t n' res d ev Hw _. by eapply wait_edges.
  - apply wait_asleep.
  - apply read_calm.
  - apply close_calm.
Qed.
