(* ===== verification/EchoServer.v ===== *)
(** * The echo server: the reactor and its sockets together

    epoll/examples/echo_server.cpp is the client of [EpollReactor]: one thread,
    one reactor, a listening socket and a table of clients with the bytes each
    is still owed.  Here the reactor of EpollReactor.v runs over the sockets of
    Sockets.v, and the callbacks it dispatches are the server's handlers, one
    system call or one call of the reactor at a time; what becomes ready does so
    between the steps. *)

From S2P Require Import Prelude Kernel Sockets EpollReactor.
From Stdlib Require Import Init.Byte.
Open Scope Z_scope.

(** The lambdas given to [reactor_.add]. *)
Definition accept_cb : Callback := 0.
Definition client_cb : Callback := 1.

Definition read_edge : Z := Z.lor Event_Read Event_EdgeTriggered.

Record Client := mkClient {
  out : list byte;
}.
#[export] Instance eta_Client : Eta Client := λ c, mkClient (out c).

(** Where a running handler is: at [accept4]; at [reactor_.add] of a new
    client; at [recv]; at the call of [flushClient] and inside its loop
    ([again]: called from the loop around [recv]); at [clients_.find] and
    [reactor_.modify]; at [reactor_.remove] and at [clients_.erase] of
    [closeClient]. *)
Inductive handler :=
  | Accept
  | AddClient (d : Z)
  | Recv (e : EpollEvent)
  | FlushFind (e : EpollEvent) (again : bool)
  | Flush (e : EpollEvent) (again : bool)
  | SetInterest (d : Z)
  | CloseRemove (d : Z)
  | CloseErase (d : Z).

Inductive next := Continue (h : handler) | Return | Throw (e : exn).

Inductive observation :=
  | Accepted (d : Z)
  | Received (d : Z) (bs : list byte)
  | Sent (d : Z) (bs : list byte)
  | Closed (d : Z)
  | Died (e : exn).

(** The bytes received and not yet sent back, of each open connection; [None]
    after the server has died. *)
Abbreviation owed := (option (gmap Z (list byte))).

(** [UniqueFd::reset] of a descriptor that is dropped. *)
Definition reset `{Kernel K} (k : K) (fd_ : Z) : K := if 0 <=? fd_ then close_fd k fd_ else k.

(** What was received from and sent to [d] since it was accepted. *)
Definition traffic_step (d : Z) (acc : list byte * list byte) (o : observation)
    : list byte * list byte :=
  match o with
  | Accepted x => if x =? d then ([], []) else acc
  | Received x bs => if x =? d then (acc.1 ++ bs, acc.2) else acc
  | Sent x bs => if x =? d then (acc.1, acc.2 ++ bs) else acc
  | _ => acc
  end.
Definition traffic (d : Z) (os : list observation) : list byte * list byte :=
  foldl (traffic_step d) ([], []) os.

Section server.
Context `{Kernel K} `{!Sockets K} (strerror : errno → string).

Definition socketError (operation : string) (e : errno) : exn :=
  RuntimeError (operation +:+ " failed: " +:+ strerror e).

(** The members; [running]: the handler inside the callback that [lpc] is in;
    [dead]: an exception has left [run]. *)
Record server := mkServer {
  kern : K;
  reactor_ : State;
  listen_fd_ : Z;
  port_ : Z;
  clients_ : gmap Z Client;
  lpc : loop_pc;
  running : option handler;
  dead : bool;
}.

(** ** The handlers *)

(** [handleClient], from its first test. *)
Definition after_recv (e : EpollEvent) : handler :=
  if writable e then FlushFind e false else SetInterest (fd e).
Definition handleClient (e : EpollEvent) : handler :=
  if error e || hangUp e then CloseRemove (fd e)
  else if readable e || peerClosed e then Recv e
  else after_recv e.

(** Where [flushClient] returns true to. *)
Definition flushed (e : EpollEvent) (again : bool) : handler :=
  if again then Recv e else SetInterest (fd e).

Definition interest_of (c : Client) : Z :=
  if bool_decide (out c = []) then read_edge else Z.lor read_edge Event_Write.

Abbreviation table := (gmap Z Client).

(** One step of a handler; [None] would be a dangling reference. *)
Definition handler_step (k : K) (r : State) (l : Z) (t : table) (h : handler)
    : option (K * State * table * next * list observation) :=
  match h with
  | Accept =>
      match accept4 k l with
      | (k, inr e) =>
          if bool_decide (e = EAGAIN) then Some (k, r, t, Return, [])
          else if bool_decide (e = EINTR) then Some (k, r, t, Continue Accept, [])
          else Some (k, r, t, Throw (socketError "accept4" e), [])
      | (k, inl d) =>
          let t := match t !! d with Some _ => t | None => <[d := mkClient []]> t end in
          Some (k, r, t, Continue (AddClient d), [Accepted d])
      end
  | AddClient d =>
      let '(k, r, o) := call_alone strerror epollReactor k r (Add d read_edge (Some client_cb)) in
      Some (k, r, t, match o with Returns _ => Continue Accept | Throws e => Throw e end, [])
  | Recv e =>
      let d := fd e in
      match recv k d 4096 with
      | (k, inl []) => Some (k, r, t, Continue (CloseRemove d), [])
      | (k, inl bs) =>
          let c := default (mkClient []) (t !! d) in
          Some (k, r, <[d := c <| out ::= (.++ bs) |>]> t, Continue (FlushFind e true),
                [Received d bs])
      | (k, inr er) =>
          if bool_decide (er = EAGAIN) then Some (k, r, t, Continue (after_recv e), [])
          else if bool_decide (er = EINTR) then Some (k, r, t, Continue (Recv e), [])
          else Some (k, r, t, Continue (CloseRemove d), [])
      end
  | FlushFind e again =>
      match t !! fd e with
      | None => Some (k, r, t, Return, [])
      | Some _ => Some (k, r, t, Continue (Flush e again), [])
      end
  | Flush e again =>
      let d := fd e in
      match t !! d with
      | None => None
      | Some c =>
          if bool_decide (out c = []) then Some (k, r, t, Continue (flushed e again), [])
          else match send k d (out c) with
          | (k, inl n) =>
              if 0 <? n
              then Some (k, r, <[d := c <| out ::= drop (Z.to_nat n) |>]> t,
                         Continue (Flush e again), [Sent d (take (Z.to_nat n) (out c))])
              else Some (k, r, t, Continue (CloseRemove d), [])
          | (k, inr er) =>
              if bool_decide (er = EAGAIN) then Some (k, r, t, Continue (flushed e again), [])
              else if bool_decide (er = EINTR) then Some (k, r, t, Continue (Flush e again), [])
              else Some (k, r, t, Continue (CloseRemove d), [])
          end
      end
  | SetInterest d =>
      match t !! d with
      | None => Some (k, r, t, Return, [])
      | Some c =>
          let '(k, r, o) := call_alone strerror epollReactor k r (Modify d (interest_of c)) in
          Some (k, r, t, match o with Returns _ => Return | Throws e => Throw e end, [])
      end
  | CloseRemove d =>
      let '(k, r, o) := call_alone strerror epollReactor k r (Remove d) in
      Some (k, r, t,
            match o with Returns _ => Continue (CloseErase d) | Throws e => Throw e end, [])
  | CloseErase d => Some (close_fd k d, r, delete d t, Return, [Closed d])
  end.

(** The callbacks: what [add] was given. *)
Definition callback_entry (cb : Callback) (e : EpollEvent) : handler :=
  if cb =? accept_cb then Accept else handleClient e.

(** ** The thread *)

Definition server_step (s : server) : option (server * list observation) :=
  let '(mkServer k r l port t p run dead) := s in
  if dead then None
  else match run with
  | Some h =>
      match handler_step k r l t h with
      | None => None
      | Some (k, r, t, Continue h, os) => Some (mkServer k r l port t p (Some h) false, os)
      | Some (k, r, t, Return, os) => Some (mkServer k r l port t p None false, os)
      | Some (k, r, t, Throw e, os) => Some (mkServer k r l port t Outside None true, os ++ [Died e])
      end
  | None =>
      match loop_step strerror k r p with
      | None => None
      | Some (k, p, es) =>
          match es with
          | [Invoked e cb] =>
              Some (mkServer k r l port t p (Some (callback_entry cb e)) false, [])
          | [LoopThrew e] => Some (mkServer k r l port t p None true, [Died e])
          | _ => Some (mkServer k r l port t p None false, [])
          end
      end
  end.

(** ** Construction, and the call of [run] *)

Definition run_server (k : K) (r : State) (l port : Z) : server :=
  mkServer k (run_entry epollReactor r) l port ∅ RunCheck None false.

(** On failure the members built so far are destroyed; what the reactor's
    constructor leaves open when it throws stays open. *)
Definition EchoServer (k : K) (port : Z) : K * outcome server :=
  match make strerror epollReactor k 256 0 with
  | (k, Throws e) => (k, Throws e)
  | (k, Returns r) =>
      match new_socket k with
      | (k, inr e) => (destroy (reset k (-1)) r, Throws (socketError "socket" e))
      | (k, inl l) =>
          let failed k ex := (destroy (reset k l) r, Throws ex) in
          match set_reuseaddr k l with
          | (k, Some e) => failed k (socketError "setsockopt SO_REUSEADDR" e)
          | (k, None) =>
          match bind_port k l port with
          | (k, Some e) => failed k (socketError "bind" e)
          | (k, None) =>
          match listen_on k l with
          | (k, Some e) => failed k (socketError "listen" e)
          | (k, None) =>
          match local_port k l with
          | (k, inr e) => failed k (socketError "getsockname" e)
          | (k, inl port) =>
          match call_alone strerror epollReactor k r (Add l read_edge (Some accept_cb)) with
          | (k, r, Throws ex) => (destroy (reset k l) r, Throws ex)
          | (k, r, Returns _) => (k, Returns (run_server k r l port))
          end end end end end
      end
  end.

(** [static_cast<std::uint16_t>] of the argument of [main]. *)
Definition port_of (arg : option Z) : Z :=
  match arg with None => 9090 | Some n => n mod 65536 end.

(** ** What happens between the steps: bytes, connections and room arrive *)

Definition arrives (ep : Z) (k k' : K) : Prop :=
  inner k k' ∧ ∀ d ev, interest k ep !! d = Some ev →
    (edge k ep d = true → edge k' ep d = true)
    ∧ (asks ev EPOLLIN = true → can_read k' d = true →
       can_read k d = true ∨ edge k' ep d = true)
    ∧ (asks ev EPOLLOUT = true → can_send k' d = true →
       can_send k d = true ∨ edge k' ep d = true).

Inductive echo_step : server → list observation → server → Prop :=
  | echo_server s s' os : server_step s = Some (s', os) → echo_step s os s'
  | echo_arrives k k' r l port t p run :
      arrives (epoll_fd r) k k' →
      echo_step (mkServer k r l port t p run false) [] (mkServer k' r l port t p run false).

Definition echo_init (s : server) : Prop :=
  ∃ k arg k', EchoServer k (port_of arg) = (k', Returns s).

Definition echo_lts : lts server observation := Lts echo_init echo_step.

(** ** Specification: what each client is owed *)

Inductive debt_step : owed → list observation → owed → Prop :=
  | d_accepted t d : t !! d = None → 0 ≤ d →
      debt_step (Some t) [Accepted d] (Some (<[d := []]> t))
  | d_received t d bs o : t !! d = Some o → bs ≠ [] → Z.of_nat (length bs) ≤ 4096 →
      debt_step (Some t) [Received d bs] (Some (<[d := o ++ bs]> t))
  | d_sent t d bs o : t !! d = Some (bs ++ o) → bs ≠ [] →
      debt_step (Some t) [Sent d bs] (Some (<[d := o]> t))
  | d_closed t d : is_Some (t !! d) →
      debt_step (Some t) [Closed d] (Some (delete d t))
  | d_died t what : debt_step (Some t) [Died (RuntimeError what)] None.

Definition debt_lts : lts owed observation := Lts (λ a, a = Some ∅) debt_step.
End server.

(** ** The invariant *)

Section theory.
Context `{SocketLaws K} `{!KernelLaws K} (strerror : errno → string).
Local Abbreviation call_alone := (call_alone strerror epollReactor).
Local Abbreviation loop_step := (loop_step strerror).
Local Abbreviation handler_step := (handler_step strerror).
Local Abbreviation table := (gmap Z Client).
Local Abbreviation server := (@server K).

(** The descriptor whose event a handler handles. *)
Definition owner (l : Z) (h : handler) : Z :=
  match h with
  | Accept | AddClient _ => l
  | Recv e | FlushFind e _ | Flush e _ => fd e
  | SetInterest d | CloseRemove d | CloseErase d => d
  end.
Definition handles (l : Z) (run : option handler) (d : Z) : Prop :=
  ∃ h, run = Some h ∧ owner l h = d.

(** The callbacks of the batch, and the descriptors still to come in it. *)
Definition entries (p : loop_pc) : list (EpollEvent * Callback) :=
  match p with
  | Collect _ _ acc | Drain _ _ acc => acc
  | Dispatch _ todo _ | InCallback _ todo _ => todo
  | _ => []
  end.
Definition upcoming (p : loop_pc) : list Z :=
  match p with Collect _ rest _ | Drain _ rest _ => rest.*1 | _ => [] end
  ++ (fd ∘ fst <$> entries p).

(** Inside [run]. *)
Definition in_run (p : loop_pc) : Prop :=
  match p with
  | Outside => False
  | RunCheck => True
  | Wait b _ | Collect b _ _ | Drain b _ _ | Dispatch b _ _ | InCallback b _ _ => b = true
  end.

Definition handler_ok (l : Z) (r : State) (t : table) (h : handler) : Prop :=
  match h with
  | Accept => True
  | AddClient d => t !! d = Some (mkClient []) ∧ watchers r !! d = None ∧ 0 ≤ d
  | CloseErase d => is_Some (t !! d) ∧ watchers r !! d = None
  | _ => owner l h ≠ l ∧ is_Some (watchers r !! owner l h)
  end.

(** What is ready is reported, or will be looked at in this batch. *)
Definition looked_after (k : K) (r : State) (l : Z) (p : loop_pc) (run : option handler)
    (d ev : Z) : Prop :=
  (ready k d ev = true → edge k (epoll_fd r) d = true) ∨ d ∈ upcoming p ∨ handles l run d.

Record alive_ok (B : gset Z) (k : K) (r : State) (l : Z) (t : table) (p : loop_pc)
    (run : option handler) : Prop := {
  ok_reg : registered_ok k r;
  ok_stop : stopping r = false;
  ok_pc : in_run p ∧ ∀ h, run = Some h → ∃ todo n, p = InCallback true todo n;
  ok_fds : open_fds k = B ∪ dom t ∧ B ## dom t
    ∧ epoll_fd r ∈ B ∧ wake_fd r ∈ B ∧ l ∈ B;
  ok_listen : watchers r !! l = Some (mkWatcher read_edge accept_cb);
  ok_clients d w : d ≠ l → watchers r !! d = Some w →
    callback w = client_cb ∧ ∃ c, t !! d = Some c
      ∧ (¬ handles l run d → watched w = interest_of c);
  ok_watched d : is_Some (t !! d) →
    is_Some (watchers r !! d) ∨ run = Some (AddClient d) ∨ run = Some (CloseErase d);
  ok_handler h : run = Some h → handler_ok l r t h;
  ok_nodup : NoDup (upcoming p);
  ok_owner d : handles l run d → d ∉ upcoming p;
  ok_entries e cb : (e, cb) ∈ entries p →
    ∃ w, watchers r !! fd e = Some w ∧ cb = callback w;
  ok_armed d ev : interest k (epoll_fd r) !! d = Some ev → d ≠ wake_fd r →
    looked_after k r l p run d ev;
  ok_interest d w : watchers r !! d = Some w →
    interest k (epoll_fd r) !! d = Some (toNativeEvents (watched w));
}.

Lemma handles_none l d : ¬ handles l None d.
Proof. by intros (h & ? & _). Qed.

Lemma handles_some l h d : handles l (Some h) d ↔ owner l h = d.
Proof. unfold handles. naive_solver. Qed.

(** Clients are not the listening socket. *)
Lemma client_ne B k r l t p run d :
  alive_ok B k r l t p run → is_Some (t !! d) → d ∉ B.
Proof.
  intros Hok Hd. destruct (ok_fds _ _ _ _ _ _ _ Hok) as (_ & Hdis & _).
  apply elem_of_dom in Hd. set_solver.
Qed.

(** ** The calls of the reactor *)

Lemma add_call k r d ev cb k' r' o :
  call_alone k r (Add d ev (Some cb)) = (k', r', o) →
  watchers r !! d = None → 0 ≤ d → d ≠ wake_fd r →
  (∃ what, o = Throws (RuntimeError what))
  ∨ o = Returns true ∧ r' = r <| watchers ::= <[d := mkWatcher ev cb]> |>
    ∧ epoll_ctl k (epoll_fd r) CtlAdd d (toNativeEvents ev) = (k', None).
Proof.
  intros Hc Hn Hd Hw. unfold EpollReactor.call_alone, locked, add_locked in Hc.
  rewrite (proj2 (Z.ltb_ge d 0)), (proj2 (Z.eqb_neq d (wake_fd r))), Hn in Hc by done.
  cbn [epoll_fd set_field] in Hc.
  destruct (epoll_ctl _ _ _ _ _) as [k1 [e|]] eqn:E; cbn in Hc; simplify_eq; [by left; eexists|].
  by right.
Qed.

Lemma modify_call k r d ev w k' r' o :
  call_alone k r (Modify d ev) = (k', r', o) → watchers r !! d = Some w →
  (∃ what, o = Throws (RuntimeError what))
  ∨ o = Returns true ∧ r' = r <| watchers ::= <[d := mkWatcher ev (callback w)]> |>
    ∧ epoll_ctl k (epoll_fd r) CtlMod d (toNativeEvents ev) = (k', None).
Proof.
  intros Hc Hw. unfold EpollReactor.call_alone, locked, modify_locked in Hc. rewrite Hw in Hc.
  destruct (epoll_ctl _ _ _ _ _) as [k1 [e|]] eqn:E; cbn in Hc; simplify_eq; [by left; eexists|].
  by right.
Qed.

Lemma remove_call k r d k' r' o :
  call_alone k r (Remove d) = (k', r', o) → is_Some (watchers r !! d) →
  (∃ what, o = Throws (RuntimeError what))
  ∨ o = Returns true ∧ r' = r <| watchers ::= delete d |>
    ∧ k' = (epoll_ctl k (epoll_fd r) CtlDel d 0).1.
Proof.
  intros Hc [w Hw]. unfold EpollReactor.call_alone, locked, remove_locked in Hc.
  rewrite Hw in Hc. destruct (epoll_ctl _ _ _ _ _) as [k1 [e|]] eqn:E; cbn in Hc.
  - destruct (negb _ && negb _); simplify_eq; [by left; eexists|by right].
  - simplify_eq. by right.
Qed.

Lemma call_registered k r c k' r' o :
  call_alone k r c = (k', r', o) → registered_ok k r → registered_ok k' r'.
Proof.
  unfold EpollReactor.call_alone. destruct (locked _ _ _ _ _) as [[k1 r1] o1] eqn:Hl. cbn.
  intros [= <- <- <-]. by eapply locked_registered.
Qed.

Lemma call_frame k r c k' r' o :
  call_alone k r c = (k', r', o) →
  same_files k k' ∧ epoll_fd r' = epoll_fd r ∧ wake_fd r' = wake_fd r.
Proof.
  unfold EpollReactor.call_alone. destruct (locked _ _ _ _ _) as [[k1 r1] o1] eqn:Hl. cbn.
  intros [= <- <- <-].
  destruct (locked_answers _ _ _ _ _ _ _ _ Hl) as (_ & _ & -> & -> & _).
  destruct (locked_frame _ _ _ _ _ _ _ _ Hl) as (Hf & _). done.
Qed.

(** ** The loop *)

Lemma entry_owner B k r l t p run e cb :
  alive_ok B k r l t p run → (e, cb) ∈ entries p →
  owner l (callback_entry cb e) = fd e
  ∧ handler_ok l r t (callback_entry cb e).
Proof.
  intros Hok Hin. destruct (ok_entries _ _ _ _ _ _ _ Hok _ _ Hin) as (w & Hw & ->).
  destruct (decide (fd e = l)) as [Hl|Hl].
  - rewrite Hl, (ok_listen _ _ _ _ _ _ _ Hok) in Hw. injection Hw as <-. by rewrite Hl.
  - destruct (ok_clients _ _ _ _ _ _ _ Hok _ _ Hl Hw) as (-> & _).
    assert (∀ h, owner l h = fd e → is_Some (watchers r !! owner l h) ∧ owner l h ≠ l) as Ho.
    { intros h ->. eauto. }
    unfold callback_entry, handleClient, after_recv. simpl.
    by repeat case_match; simpl; eauto.
Qed.

(** The loop only: the tables are as they were. *)
Lemma alive_moves B k r l t p k' p' :
  alive_ok B k r l t p None → registered_ok k' r → open_fds k' = open_fds k →
  in_run p' → NoDup (upcoming p') →
  (∀ e cb, (e, cb) ∈ entries p' → ∃ w, watchers r !! fd e = Some w ∧ cb = callback w) →
  interest k' (epoll_fd r) = interest k (epoll_fd r) →
  (∀ d ev, interest k' (epoll_fd r) !! d = Some ev → d ≠ wake_fd r →
     looked_after k' r l p' None d ev) →
  alive_ok B k' r l t p' None.
Proof.
  intros [H1 H2 H3 H4 H5 H6 H7 H8 H9 H10 H11 H12 H13] Hreg Hfds Hp Hnd Hen Hi Harm.
  split; try done; [by rewrite Hfds| |by rewrite Hi]. intros d Hd. by apply handles_none in Hd.
Qed.

(** The kernel is calm, and everything still to come is still to come. *)
Lemma looked_after_calm P k k' r r' l p p' run run' d ev :
  looked_after k r l p run d ev → calm P k k' → P d → epoll_fd r' = epoll_fd r →
  (d ∈ upcoming p ∨ handles l run d → d ∈ upcoming p' ∨ handles l run' d) →
  looked_after k' r' l p' run' d ev.
Proof.
  intros [Hr|Hup] Hc Hd Hep Hto; [|right; tauto]. left. rewrite Hep. intros Hk.
  destruct (Hc d Hd) as (_ & _ & He). apply He, Hr. by eapply ready_calm.
Qed.

Lemma calm_refl P (k : K) : calm P k k.
Proof. by intros d _. Qed.
Lemma any_descriptor d : any d.
Proof. done. Qed.
Local Hint Resolve calm_refl any_descriptor : core.

Lemma alive_invoke B k r l t e cb todo n :
  alive_ok B k r l t (Dispatch true ((e, cb) :: todo) n) None →
  alive_ok B k r l t (InCallback true todo n) (Some (callback_entry cb e)).
Proof.
  intros Hok.
  destruct (entry_owner _ _ _ _ _ _ _ e cb Hok) as [Hown Hh]; [by left|].
  destruct Hok as [H1 H2 H3 H4 H5 H6 H7 H8 H9 H10 H11 H12 H13].
  unfold upcoming in H9. simpl in H9. apply NoDup_cons in H9 as [Hni Hnd].
  split; try done.
  - split; [done|eauto].
  - intros d w Hd Hw. destruct (H6 d w Hd Hw) as (Hcb & c & Hc & Hi).
    split; [done|]. exists c. split; [done|]. intros _. apply Hi. apply handles_none.
  - intros d Hd. destruct (H7 d Hd) as [?|[?|?]]; [by left|done|done].
  - by intros h [= <-].
  - intros d Hd. apply handles_some in Hd. rewrite Hown in Hd. by subst d.
  - intros e' cb' Hin. apply H11. by right.
  - intros d ev Hd Hw. apply (looked_after_calm any k _ r _ _ _ _ _ _ _ _ (H12 d ev Hd Hw));
      [auto..|].
    intros [Hin|Hin]; [|by apply handles_none in Hin].
    apply elem_of_cons in Hin as [->|Hin]; [right; by apply handles_some|by left].
Qed.

Lemma alive_advances B k r l t p k' p' :
  alive_ok B k r l t p None →
  same_files k k' → (∀ ep, interest k' ep = interest k ep) → calm any k k' →
  in_run p' → NoDup (upcoming p') →
  (∀ e cb, (e, cb) ∈ entries p' → ∃ w, watchers r !! fd e = Some w ∧ cb = callback w) →
  (∀ d w, watchers r !! d = Some w → d ∈ upcoming p → d ∈ upcoming p') →
  alive_ok B k' r l t p' None.
Proof.
  intros Hok Hf Hi Hc Hp Hnd Hen Hup. pose proof (ok_reg _ _ _ _ _ _ _ Hok) as Hreg.
  apply (alive_moves B k r l t p); try done; [by apply (registered_same k)|apply Hf|].
  intros d ev Hd Hw. rewrite Hi in Hd.
  apply (looked_after_calm any k _ r _ _ _ _ _ _ _ _ (ok_armed _ _ _ _ _ _ _ Hok d ev Hd Hw));
    [auto..|].
  destruct (reg_interest _ _ Hreg _ _ Hd Hw) as (w & Hdw & _).
  intros [Hin|Hin]; [left; eauto|by apply handles_none in Hin].
Qed.

(** [epoll_wait] has reported, or will report, whatever is ready. *)
Lemma alive_wait B k r l t b tm k' res :
  alive_ok B k r l t (Wait b tm) None →
  epoll_wait k (epoll_fd r) (to_int (ready_size r)) tm = (k', res) →
  alive_ok B k' r l t
    match res with Ready l => Collect b l [] | _ => Wait b tm end None.
Proof.
  intros Hok Hwt. pose proof (law_wait k (epoll_fd r) (to_int (ready_size r)) tm) as (Hf & Hi & _).
  rewrite Hwt in Hf, Hi. cbn in Hf, Hi. pose proof (ok_reg _ _ _ _ _ _ _ Hok) as Hreg.
  assert (b = true) as -> by apply (ok_pc _ _ _ _ _ _ _ Hok).
  eapply alive_moves; [exact Hok|by apply (registered_same k)|apply Hf| | | |done|].
  - by destruct res.
  - destruct res as [rep|e|]; unfold upcoming; simpl; [|constructor..].
    rewrite app_nil_r. by apply law_wait_ready in Hwt as (_ & ? & _).
  - destruct res; simpl; intros x cb Hin%elem_of_nil; done.
  - intros d ev Hd Hw. rewrite Hi in Hd.
    destruct (law_wait_edges _ _ _ _ _ _ _ _ Hwt Hd) as [Hr He].
    destruct (ok_armed _ _ _ _ _ _ _ Hok d ev Hd Hw) as [Ha|[Ha%elem_of_nil|Ha%handles_none]];
      [|done|done].
    destruct (decide (ready k' d ev = true)) as [Hk|Hk]; [|by left].
    destruct (He (Ha (Hr Hk))) as [?|(rep & -> & Hin)]; [by left|].
    right; left. unfold upcoming. simpl. by rewrite app_nil_r.
Qed.

Lemma upcoming_collect b d bits rest acc :
  upcoming (Collect b ((d, bits) :: rest) acc) = d :: upcoming (Collect b rest acc).
Proof. done. Qed.

Lemma alive_loop B k r l t p k' p' es :
  alive_ok B k r l t p None → loop_step k r p = Some (k', p', es) →
  (∃ what, es = [LoopThrew (RuntimeError what)])
  ∨ (∃ e cb, es = [Invoked e cb] ∧ alive_ok B k' r l t p' (Some (callback_entry cb e)))
  ∨ es = [] ∧ alive_ok B k' r l t p' None.
Proof.
  intros Hok Hs. pose proof (ok_reg _ _ _ _ _ _ _ Hok) as Hreg.
  pose proof (ok_nodup _ _ _ _ _ _ _ Hok) as Hnd.
  pose proof (ok_entries _ _ _ _ _ _ _ Hok) as Hen.
  destruct (ok_pc _ _ _ _ _ _ _ Hok) as [Hin _].
  destruct p as [| |b tm|b [|[d bits] rest] acc|b rest acc|b [|[e cb] todo] m|b todo m];
    simpl in Hs; [done| | | | | |simpl in Hin; subst b..|].
  - rewrite (ok_stop _ _ _ _ _ _ _ Hok) in Hs. simplify_eq. right; right. split; [done|].
    by apply (alive_advances B k' r l t RunCheck); auto.
  - destruct (epoll_wait _ _ _ _) as [k1 res] eqn:Hwt.
    pose proof (alive_wait _ _ _ _ _ _ _ _ _ Hok Hwt) as Hok'.
    destruct res as [rep|e|]; [| |done].
    + simplify_eq. by right; right.
    + case_bool_decide; simplify_eq; [by right; right|by left; eexists].
  - simplify_eq. right; right. split; [done|].
    by apply (alive_advances B k' r l t (Collect b [] acc)); auto.
  - rewrite upcoming_collect in Hnd. apply NoDup_cons in Hnd as [Hni Hnd].
    right; right. destruct (Z.eqb_spec d (wake_fd r)) as [->|Hne].
    { simplify_eq. split; [done|]. eapply alive_advances; eauto; [done|].
      intros d w Hw. rewrite upcoming_collect. intros [->|?]%elem_of_cons; [|done].
      by apply (reg_watchers _ _ Hreg) in Hw as [_ ?]. }
    destruct (watchers r !! d) as [w|] eqn:Hdw; simplify_eq; (split; [done|]).
    + set (ev := mkEvent d (fromNativeEvents bits) (index r)) in *.
      assert (upcoming (Collect b rest (acc ++ [(ev, callback w)]))
        ≡ₚ d :: upcoming (Collect b rest acc)) as Hperm.
      { unfold upcoming. simpl. rewrite fmap_app, app_assoc. simpl.
        by rewrite <-Permutation_cons_append. }
      eapply alive_advances; eauto; [done| | |].
      * rewrite Hperm. by apply NoDup_cons.
      * simpl. intros e cb [?|Hx]%elem_of_app; [by apply Hen|].
        apply list_elem_of_singleton in Hx as [= -> ->]. eauto.
      * intros x wx _. by rewrite Hperm, upcoming_collect.
    + eapply alive_advances; eauto; [done|]. intros x wx Hx. rewrite upcoming_collect.
      intros [->|?]%elem_of_cons; [congruence|done].
  - right; right. pose proof (law_read k (wake_fd r) (reg_eventfd _ _ Hreg)) as ((Hf & Hi & _) & _).
    pose proof (law_read_calm k (wake_fd r) (reg_eventfd _ _ Hreg)) as Hc.
    destruct (read_eight _ _) as [k1 full]. simplify_eq. split; [done|].
    by destruct full; eapply alive_advances; eauto.
  - simplify_eq. right; right. split; [done|].
    by apply (alive_advances B k' r l t (Dispatch true [] m)); auto.
  - simplify_eq. right; left. eexists _, _. split; [done|]. by apply alive_invoke.
  - simplify_eq. right; right. split; [done|].
    by apply (alive_advances B k' r l t (InCallback b todo m)); auto.
Qed.

(** ** The handlers *)

Definition plain (h : handler) : Prop :=
  match h with AddClient _ | CloseErase _ => False | _ => True end.

(** A handler goes on: the tables keep their shape. *)
Lemma alive_io B k r l t p h k' t' h' :
  alive_ok B k r l t p (Some h) → same_files k k' → (∀ ep, interest k' ep = interest k ep) →
  calm any k k' → plain h → owner l h' = owner l h → handler_ok l r t' h' →
  dom t' = dom t → (∀ d, d ≠ owner l h → t' !! d = t !! d) →
  alive_ok B k' r l t' p (Some h').
Proof.
  intros [H1 H2 [H3 H3'] H4 H5 H6 H7 H8 H9 H10 H11 H12 H13] Hf Hi Hc Hpl How Hh Hdom Ht.
  assert (∀ d, handles l (Some h') d ↔ handles l (Some h) d) as Hhan.
  { intros d. by rewrite !handles_some, How. }
  split; try done.
  - by apply (registered_same k).
  - split; [done|]. intros x _. by apply (H3' h).
  - by rewrite Hdom, (proj1 Hf).
  - intros d w Hd Hw. destruct (H6 d w Hd Hw) as (Hcb & c & Hcl & Hint). split; [done|].
    assert (d ∈ dom t') as [c' Hc']%elem_of_dom by (rewrite Hdom; by apply elem_of_dom).
    exists c'. split; [done|]. rewrite Hhan, handles_some. intros Hno.
    rewrite Ht in Hc' by congruence. rewrite handles_some in Hint. naive_solver.
  - intros d Hd. destruct (H7 d) as [?|[E|E]]; [|by left| |].
    + apply elem_of_dom. rewrite <-Hdom. by apply elem_of_dom.
    + injection E as ->. done.
    + injection E as ->. done.
  - by intros x [= <-].
  - intros d. rewrite Hhan. apply H10.
  - intros d ev. rewrite Hi. intros Hd Hw.
    apply (looked_after_calm any k _ r _ _ _ _ _ _ _ _ (H12 d ev Hd Hw)); [auto..|].
    by rewrite Hhan.
  - intros d w Hw. rewrite Hi. by apply H13.
Qed.

(** A handler returns. *)
Lemma alive_return B k r l t p h :
  alive_ok B k r l t p (Some h) → plain h →
  (∀ w, owner l h ≠ l → watchers r !! owner l h = Some w →
     ∃ c, t !! owner l h = Some c ∧ watched w = interest_of c) →
  (∀ ev, interest k (epoll_fd r) !! owner l h = Some ev →
     ready k (owner l h) ev = true → edge k (epoll_fd r) (owner l h) = true) →
  alive_ok B k r l t p None.
Proof.
  intros [H1 H2 [H3 H3'] H4 H5 H6 H7 H8 H9 H10 H11 H12 H13] Hpl Hw Hedge.
  split; try done.
  - intros d w Hd Hdw. destruct (H6 d w Hd Hdw) as (Hcb & c & Hcl & Hint). split; [done|].
    destruct (decide (d = owner l h)) as [->|Hne].
    + destruct (Hw w Hd Hdw) as (c' & ? & ?). eauto.
    + exists c. split; [done|]. intros _. apply Hint. rewrite handles_some. congruence.
  - intros d Hd. destruct (H7 d Hd) as [?|[E|E]]; [by left| |]; by injection E as ->.
  - intros d Hd. by apply handles_none in Hd.
  - intros d ev Hd Hne. destruct (decide (d = owner l h)) as [->|Hno]; [left; by apply Hedge|].
    destruct (H12 d ev Hd Hne) as [?|[?|Hh%handles_some]]; [by left|by right; left|congruence].
Qed.

(** ** A new client *)

Lemma alive_accepted B k r l t p k' d :
  alive_ok B k r l t p (Some Accept) → accept4 k l = (k', inl d) →
  t !! d = None ∧ 0 ≤ d
  ∧ alive_ok B k' r l (<[d := mkClient []]> t) p (Some (AddClient d)).
Proof.
  intros Hok Ha. apply law_accept in Ha as ((Hd & Hfresh & Ho & Hfr) & Hc).
  pose proof Hok as [H1 H2 [H3 H3'] (Hfds & Hdis & Hep & Hwf & Hl) H5 H6 H7 H8 H9 H10 H11 H12 H13].
  rewrite Hfds, not_elem_of_union, not_elem_of_dom in Hfresh. destruct Hfresh as [HdB Hdt].
  assert (d ≠ l ∧ epoll_fd r ≠ d ∧ wake_fd r ≠ d) as (Hdl & Hde & Hdw).
  { split_and!; intros E; apply HdB; [by rewrite E|by rewrite <-E..]. }
  assert (watchers r !! d = None) as Hnw.
  { destruct (watchers r !! d) as [w|] eqn:Hw; [|done].
    destruct (H6 d w Hdl Hw) as (_ & c & Hx & _). congruence. }
  destruct (Hfr _ Hde) as (Hie & _). destruct (Hfr _ Hdw) as (_ & _ & Hev).
  split; [done|]. split; [done|]. split; try done.
  - apply (registered_frame k); [by rewrite Hie|by rewrite Hie|done|done].
  - split; [done|]. intros h _. by eapply H3'.
  - rewrite Ho, Hfds, dom_insert_L. split_and!; [set_solver|set_solver|done..].
  - intros x w Hx Hw. destruct (H6 x w Hx Hw) as (Hcb & c & Hcl & Hint). split; [done|].
    exists c. rewrite lookup_insert_ne by congruence. split; [done|].
    by rewrite handles_some in *.
  - intros x. destruct (decide (x = d)) as [->|Hne]; [by right; left|].
    rewrite lookup_insert_ne by congruence. intros Hx. destruct (H7 x Hx) as [?|[?|?]]; by left.
  - intros h [= <-]. simpl. by rewrite lookup_insert_eq.
  - intros x Hx. apply H10. by rewrite !handles_some in *.
  - intros x ev. rewrite Hie. intros Hx Hxw.
    destruct (reg_interest _ _ H1 _ _ Hx Hxw) as (w & Hw & _).
    apply (looked_after_calm (λ y, y ≠ d) k _ r _ _ _ _ _ _ _ _ (H12 _ _ Hx Hxw));
      [done|intros ->; congruence|done|]. by rewrite !handles_some.
  - intros x w Hw. rewrite Hie. by apply H13.
Qed.

(** Only the rest of the reactor's registrations is told apart by a call on
    [d]. *)
Lemma alive_added B k r l t p k' d :
  alive_ok B k r l t p (Some (AddClient d)) →
  let r' := r <| watchers ::= <[d := mkWatcher read_edge client_cb]> |> in
  registered_ok k' r' →
  epoll_ctl k (epoll_fd r) CtlAdd d (toNativeEvents read_edge) = (k', None) →
  alive_ok B k' r' l t p (Some Accept).
Proof.
  intros [H1 H2 [H3 H3'] H4 H5 H6 H7 H8 H9 H10 H11 H12 H13] r' Hreg Hctl.
  pose proof (law_ctl_frame k (epoll_fd r) CtlAdd d (toNativeEvents read_edge)) as ((Ho & _) & _).
  pose proof (law_ctl_calm k (epoll_fd r) CtlAdd d (toNativeEvents read_edge)) as Hc.
  rewrite Hctl in Ho, Hc. cbn in Ho, Hc.
  pose proof (law_add _ _ _ _ _ Hctl) as [Hnone Hint].
  destruct (H8 _ eq_refl) as (Hcl & Hnw & Hd). simpl in Hnw.
  assert (d ≠ l) as Hdl by (intros ->; congruence).
  split; try done.
  - split; [done|]. intros h _. by eapply H3'.
  - by rewrite Ho.
  - simpl. by rewrite lookup_insert_ne.
  - intros x w Hx. simpl. rewrite lookup_insert_Some. intros [[<- <-]|[Hne Hw]].
    + split; [done|]. exists (mkClient []). by rewrite Hcl.
    + destruct (H6 x w Hx Hw) as (Hcb & c & Hxc & Hi). split; [done|]. exists c.
      by rewrite handles_some in *.
  - intros x Hx. simpl. left. destruct (decide (x = d)) as [->|Hne].
    + rewrite lookup_insert_eq. by eexists.
    + rewrite lookup_insert_ne by done. destruct (H7 x Hx) as [?|[[= ->]|?]]; done.
  - by intros h [= <-].
  - intros x Hx. apply H10. by rewrite !handles_some in *.
  - intros e cb Hin. destruct (H11 e cb Hin) as (w & Hw & ->). exists w. simpl.
    rewrite lookup_insert_ne by congruence. done.
  - intros x ev. simpl. rewrite Hint, lookup_insert_Some. intros [[<- <-]|[Hne Hx]] Hxw.
    + left. by eapply law_ctl_ready.
    + apply (looked_after_calm (λ y, y ≠ d ∨ CtlAdd ≠ CtlDel) k _ r _ _ _ _ _ _ _ _
        (H12 _ _ Hx Hxw)); [done|by right|done|]. by rewrite !handles_some.
  - intros x w. simpl. rewrite Hint, lookup_insert_Some. intros [[<- <-]|[Hne Hw]].
    + by rewrite lookup_insert_eq.
    + rewrite lookup_insert_ne by done. by apply H13.
Qed.

Lemma alive_modified B k r l t p k' d c w :
  alive_ok B k r l t p (Some (SetInterest d)) → t !! d = Some c → watchers r !! d = Some w →
  let r' := r <| watchers ::= <[d := mkWatcher (interest_of c) (callback w)]> |> in
  registered_ok k' r' →
  epoll_ctl k (epoll_fd r) CtlMod d (toNativeEvents (interest_of c)) = (k', None) →
  alive_ok B k' r' l t p None.
Proof.
  intros [H1 H2 [H3 H3'] H4 H5 H6 H7 H8 H9 H10 H11 H12 H13] Hcl Hdw r' Hreg Hctl.
  pose proof (law_ctl_frame k (epoll_fd r) CtlMod d (toNativeEvents (interest_of c)))
    as ((Ho & _) & _).
  pose proof (law_ctl_calm k (epoll_fd r) CtlMod d (toNativeEvents (interest_of c))) as Hc.
  rewrite Hctl in Ho, Hc. cbn in Ho, Hc.
  pose proof (law_mod _ _ _ _ _ Hctl) as [_ Hint].
  destruct (H8 _ eq_refl) as (Hdl & _). simpl in Hdl.
  split; try done.
  - by rewrite Ho.
  - simpl. by rewrite lookup_insert_ne.
  - intros x wx Hx. simpl. rewrite lookup_insert_Some. intros [[<- <-]|[Hne Hw]].
    + destruct (H6 _ _ Hx Hdw) as (Hcb & _). split; [done|]. eauto.
    + destruct (H6 x wx Hx Hw) as (Hcb & cx & Hxc & Hi). split; [done|]. exists cx.
      split; [done|]. intros _. apply Hi. rewrite handles_some. done.
  - intros x Hx. simpl. left. destruct (decide (x = d)) as [->|Hne].
    + rewrite lookup_insert_eq. by eexists.
    + rewrite lookup_insert_ne by done. destruct (H7 x Hx) as [?|[?|?]]; done.
  - intros x Hx. by apply handles_none in Hx.
  - intros e cb Hin. destruct (H11 e cb Hin) as (wx & Hw & ->). simpl.
    destruct (decide (fd e = d)) as [Hed|Hne].
    + rewrite Hed, lookup_insert_eq. rewrite Hed in Hw. eexists. split; [done|]. simpl. congruence.
    + rewrite lookup_insert_ne by done. eauto.
  - intros x ev. simpl. rewrite Hint, lookup_insert_Some. intros [[<- <-]|[Hne Hx]] Hxw.
    + left. by eapply law_ctl_ready.
    + apply (looked_after_calm (λ y, y ≠ d ∨ CtlMod ≠ CtlDel) k _ r _ _ _ _ _ _ _ _
        (H12 _ _ Hx Hxw)); [done|by right|done|]. rewrite handles_some.
      intros [?|?]; [by left|done].
  - intros x wx. simpl. rewrite Hint, lookup_insert_Some. intros [[<- <-]|[Hne Hx]].
    + by rewrite lookup_insert_eq.
    + rewrite lookup_insert_ne by done. by apply H13.
Qed.

(** ** A client is closed *)

Lemma alive_removed B k r l t p d :
  alive_ok B k r l t p (Some (CloseRemove d)) →
  let r' := r <| watchers ::= delete d |> in
  let k' := (epoll_ctl k (epoll_fd r) CtlDel d 0).1 in
  registered_ok k' r' →
  alive_ok B k' r' l t p (Some (CloseErase d)).
Proof.
  intros [H1 H2 [H3 H3'] H4 H5 H6 H7 H8 H9 H10 H11 H12 H13] r' k' Hreg.
  pose proof (law_ctl_frame k (epoll_fd r) CtlDel d 0) as ((Ho & _) & _).
  pose proof (law_ctl_calm k (epoll_fd r) CtlDel d 0) as Hc.
  pose proof (law_del k (epoll_fd r) d 0) as Hint. fold k' in Ho, Hc, Hint.
  destruct (H8 _ eq_refl) as (Hdl & [w Hw]). simpl in Hdl, Hw.
  destruct (H6 d w Hdl Hw) as (_ & c & Hcl & _).
  split; try done.
  - split; [done|]. intros h _. by eapply H3'.
  - by rewrite Ho.
  - simpl. by rewrite lookup_delete_ne.
  - intros x wx Hx. simpl. rewrite lookup_delete_Some. intros [Hne Hxw].
    destruct (H6 x wx Hx Hxw) as (Hcb & cx & Hxc & Hi). split; [done|]. exists cx.
    by rewrite handles_some in *.
  - intros x Hx. simpl. destruct (decide (x = d)) as [->|Hne]; [by right; right|].
    left. rewrite lookup_delete_ne by done. destruct (H7 x Hx) as [?|[?|?]]; done.
  - intros h [= <-]. simpl. rewrite lookup_delete_eq. split; [by eexists|done].
  - intros x Hx. apply H10. by rewrite !handles_some in *.
  - intros e cb Hin. destruct (H11 e cb Hin) as (wx & Hwx & ->). exists wx. simpl.
    rewrite lookup_delete_ne; [done|]. intros ->. apply (H10 (fd e)); [by apply handles_some|].
    unfold upcoming. apply elem_of_app. right. apply list_elem_of_fmap. by exists (e, callback wx).
  - intros x ev. simpl. rewrite Hint, lookup_delete_Some. intros [Hne Hx] Hxw.
    apply (looked_after_calm (λ y, y ≠ d ∨ CtlDel ≠ CtlDel) k _ r _ _ _ _ _ _ _ _
        (H12 _ _ Hx Hxw)); [done|by left|done|]. by rewrite !handles_some.
  - intros x wx. simpl. rewrite Hint, lookup_delete_Some. intros [Hne Hx].
    rewrite lookup_delete_ne by done. by apply H13.
Qed.

Lemma alive_closed B k r l t p d :
  alive_ok B k r l t p (Some (CloseErase d)) →
  alive_ok B (close_fd k d) r l (delete d t) p None.
Proof.
  intros Hok. pose proof Hok
    as [H1 H2 [H3 H3'] (Hfds & Hdis & Hep & Hwf & Hl) H5 H6 H7 H8 H9 H10 H11 H12 H13].
  destruct (H8 _ eq_refl) as [Hcl Hnw]. simpl in Hcl, Hnw.
  pose proof (client_ne _ _ _ _ _ _ _ _ Hok Hcl) as HdB.
  assert (epoll_fd r ≠ d ∧ wake_fd r ≠ d) as [Hde Hdw].
  { split; intros E; apply HdB; by rewrite <-E. }
  destruct (law_close_frame k d _ Hde) as (_ & _ & Hint).
  destruct (law_close_frame k d _ Hdw) as (_ & Hev & _).
  pose proof (law_close_calm k d) as Hc.
  split; try done.
  - apply (registered_frame k); try done; rewrite Hint; [apply delete_subseteq|].
    by rewrite lookup_delete_ne.
  - rewrite law_close, Hfds, dom_delete_L. split_and!; [set_solver|set_solver|done..].
  - intros x w Hx Hw. destruct (H6 x w Hx Hw) as (Hcb & c & Hxc & Hi). split; [done|]. exists c.
    rewrite lookup_delete_ne by congruence. split; [done|]. intros _. apply Hi.
    rewrite handles_some. simpl. congruence.
  - intros x. rewrite lookup_delete_is_Some. intros [Hne Hx].
    destruct (H7 x Hx) as [?|[?|[= ?]]]; [by left|done|done].
  - intros x Hx. by apply handles_none in Hx.
  - intros x ev. rewrite Hint, lookup_delete_Some. intros [Hne Hx] Hxw.
    apply (looked_after_calm (λ y, y ≠ d) k _ r _ _ _ _ _ _ _ _ (H12 _ _ Hx Hxw));
      [done|done|done|]. rewrite handles_some. intros [?|?]; [by left|by destruct Hne].
  - intros x w Hx. rewrite Hint, lookup_delete_ne by congruence. by apply H13.
Qed.

(** ** Every step of a handler *)

Definition debts (t : table) : owed := Some (out <$> t).

(** A step of a handler succeeds, is a step of the specification, and keeps the
    invariant unless it throws. *)
Definition good (B : gset Z) (l : Z) (t : table) (p : loop_pc)
    (res : option (K * State * table * next * list observation)) : Prop :=
  ∃ k' r' t' nx os, res = Some (k', r', t', nx, os)
  ∧ run debt_lts (debts t) os (debts t')
  ∧ match nx with
    | Continue h => alive_ok B k' r' l t' p (Some h)
    | Return => alive_ok B k' r' l t' p None
    | Throw e => ∃ what, e = RuntimeError what
    end.

Lemma good_silent B l t p k' r' nx :
  match nx with
  | Continue h => alive_ok B k' r' l t p (Some h)
  | Return => alive_ok B k' r' l t p None
  | Throw e => ∃ what, e = RuntimeError what
  end →
  good B l t p (Some (k', r', t, nx, [])).
Proof. intros Hn. eexists _, _, _, _, _. split; [done|]. split; [constructor|done]. Qed.

Lemma good_step B l t p k' r' t' nx o :
  debt_step (debts t) [o] (debts t') →
  match nx with
  | Continue h => alive_ok B k' r' l t' p (Some h)
  | Return => alive_ok B k' r' l t' p None
  | Throw e => ∃ what, e = RuntimeError what
  end →
  good B l t p (Some (k', r', t', nx, [o])).
Proof. intros Hd Hn. eexists _, _, _, _, _. split; [done|]. split; [by apply run_one|done]. Qed.

Lemma toNative_read_edge :
  asks (toNativeEvents read_edge) EPOLLIN = true
  ∧ asks (toNativeEvents read_edge) EPOLLOUT = false.
Proof. done. Qed.

Lemma good_accept B k r l t p :
  alive_ok B k r l t p (Some Accept) → good B l t p (handler_step k r l t Accept).
Proof.
  intros Hok. simpl. destruct (accept4 k l) as [k1 [d|e]] eqn:Ha.
  - destruct (alive_accepted _ _ _ _ _ _ _ _ Hok Ha) as (Hd & Hd0 & Hok'). rewrite Hd.
    apply good_step; [|done]. unfold debts. rewrite fmap_insert.
    constructor; [by rewrite lookup_fmap, Hd|done].
  - destruct (law_accept_error _ _ _ _ Ha) as ((Hf & Hi & _) & Hc & Hag).
    assert (alive_ok B k1 r l t p (Some Accept)) as Hok1.
    { by apply (alive_io B k r l t p Accept). }
    case_bool_decide as He; [|case_bool_decide]; apply good_silent; [|done|by eexists].
    apply (alive_return _ _ _ _ _ _ Accept); try done. intros ev Hev.
    pose proof (ok_reg _ _ _ _ _ _ _ Hok1) as Hreg. simpl in Hev |- *.
    pose proof (ok_listen _ _ _ _ _ _ _ Hok1) as Hl.
    destruct (reg_watchers _ _ Hreg _ _ Hl) as [_ Hlw].
    destruct (reg_interest _ _ Hreg _ _ Hev Hlw) as (w & Hw & ->).
    rewrite Hl in Hw. injection Hw as <-. unfold ready. cbn [watched].
    destruct toNative_read_edge as [-> ->]. by rewrite Hag.
Qed.

Lemma client_at B k r l t p run d w :
  alive_ok B k r l t p run → d ≠ l → watchers r !! d = Some w → ∃ c, t !! d = Some c.
Proof.
  intros Hok Hd Hw. destruct (ok_clients _ _ _ _ _ _ _ Hok _ _ Hd Hw) as (_ & c & Hc & _). eauto.
Qed.

Lemma good_calls B k r l t p h :
  alive_ok B k r l t p (Some h) →
  match h with AddClient _ | SetInterest _ | CloseRemove _ => True | _ => False end →
  good B l t p (handler_step k r l t h).
Proof.
  intros Hok Hh. pose proof (ok_reg _ _ _ _ _ _ _ Hok) as Hreg.
  pose proof (ok_handler _ _ _ _ _ _ _ Hok _ eq_refl) as Hho.
  destruct h as [|d| | | |d|d|]; try done; simpl in Hho |- *.
  - destruct Hho as (Hcl & Hnw & Hd). pose proof (client_ne _ _ _ _ _ _ _ d Hok) as HdB.
    assert (d ≠ wake_fd r) as Hdw.
    { intros ->. apply HdB; [by eexists|]. apply (ok_fds _ _ _ _ _ _ _ Hok). }
    destruct (call_alone k r _) as [[k1 r1] o] eqn:Hc.
    pose proof (call_registered _ _ _ _ _ _ Hc Hreg) as Hreg1. apply good_silent.
    destruct (add_call _ _ _ _ _ _ _ _ Hc Hnw Hd Hdw) as [[what ->]|(-> & -> & Hctl)];
      [by eexists|]. by apply (alive_added B k r l t p k1 d).
  - destruct Hho as (Hdl & w & Hw). destruct (client_at _ _ _ _ _ _ _ _ _ Hok Hdl Hw) as [c Hcl].
    rewrite Hcl. destruct (call_alone k r _) as [[k1 r1] o] eqn:Hc.
    pose proof (call_registered _ _ _ _ _ _ Hc Hreg) as Hreg1. apply good_silent.
    destruct (modify_call _ _ _ _ _ _ _ _ Hc Hw) as [[what ->]|(-> & -> & Hctl)];
      [by eexists|]. by apply (alive_modified B k r l t p k1 d c w).
  - destruct Hho as (Hdl & Hw). destruct (call_alone k r _) as [[k1 r1] o] eqn:Hc.
    pose proof (call_registered _ _ _ _ _ _ Hc Hreg) as Hreg1. apply good_silent.
    destruct (remove_call _ _ _ _ _ _ Hc Hw) as [[what ->]|(-> & -> & ->)]; [by eexists|].
    by apply (alive_removed B k r l t p d).
Qed.

Lemma after_recv_ok e l :
  owner l (after_recv e) = fd e ∧ plain (after_recv e)
  ∧ ∀ r t, fd e ≠ l → is_Some (watchers r !! fd e) → handler_ok l r t (after_recv e).
Proof. unfold after_recv. by destruct (writable e). Qed.

Lemma flushed_ok e again l :
  owner l (flushed e again) = fd e
  ∧ ∀ r t, fd e ≠ l → is_Some (watchers r !! fd e) → handler_ok l r t (flushed e again).
Proof. by destruct again. Qed.

Lemma good_recv B k r l t p e :
  alive_ok B k r l t p (Some (Recv e)) → good B l t p (handler_step k r l t (Recv e)).
Proof.
  intros Hok. destruct (ok_handler _ _ _ _ _ _ _ Hok _ eq_refl) as (Hdl & w & Hw).
  simpl in Hdl, Hw. destruct (client_at _ _ _ _ _ _ _ _ _ Hok Hdl Hw) as [c Hcl].
  simpl. destruct (recv k (fd e) 4096) as [k1 res] eqn:Hr.
  destruct (law_recv _ _ _ _ _ Hr ltac:(lia)) as ((Hf & Hi & _) & Hc & Hres).
  assert (∀ h, owner l h = fd e → handler_ok l r t h → alive_ok B k1 r l t p (Some h)) as Hgo.
  { intros h Ho Hh. by apply (alive_io B k r l t p (Recv e)). }
  destruct (after_recv_ok e l) as (Ha & _ & Hah).
  destruct res as [bs|er].
  - destruct bs as [|b bs]; [by apply good_silent, Hgo|]. rewrite Hcl. simpl.
    apply good_step.
    + unfold debts. rewrite fmap_insert. constructor; [by rewrite lookup_fmap, Hcl|done|done].
    + apply (alive_io B k r l t p (Recv e)); try done; simpl.
      * rewrite dom_insert_lookup_L; [done|by eexists].
      * intros d Hd. by rewrite lookup_insert_ne.
  - repeat case_bool_decide; by apply good_silent, Hgo; eauto.
Qed.

Lemma good_flush B k r l t p e again :
  alive_ok B k r l t p (Some (Flush e again)) →
  good B l t p (handler_step k r l t (Flush e again)).
Proof.
  intros Hok. destruct (ok_handler _ _ _ _ _ _ _ Hok _ eq_refl) as (Hdl & w & Hw).
  simpl in Hdl, Hw. destruct (client_at _ _ _ _ _ _ _ _ _ Hok Hdl Hw) as [c Hcl].
  simpl. rewrite Hcl. destruct (flushed_ok e again l) as (Ho & Hho).
  case_bool_decide as Hout.
  { apply good_silent. apply (alive_io B k r l t p (Flush e again)); try done. by eauto. }
  destruct (send k (fd e) (out c)) as [k1 res] eqn:Hs.
  destruct (law_send _ _ _ _ _ Hs) as ((Hf & Hi & _) & Hc & Hres).
  assert (∀ h, owner l h = fd e → handler_ok l r t h → alive_ok B k1 r l t p (Some h)) as Hgo.
  { intros h Hh Hh'. by apply (alive_io B k r l t p (Flush e again)). }
  destruct res as [n|er]; [|repeat case_bool_decide; by apply good_silent, Hgo; eauto].
  destruct (Z.ltb_spec 0 n); [|by apply good_silent, Hgo].
  apply good_step.
  - unfold debts. rewrite fmap_insert. constructor.
    + rewrite lookup_fmap, Hcl. simpl. by rewrite take_drop.
    + intros Hnil. apply (f_equal length) in Hnil. rewrite length_take in Hnil. simpl in Hnil. lia.
  - apply (alive_io B k r l t p (Flush e again)); try done; simpl.
    + rewrite dom_insert_lookup_L; [done|by eexists].
    + intros d Hd. by rewrite lookup_insert_ne.
Qed.

Lemma alive_handler B k r l t p h :
  alive_ok B k r l t p (Some h) → good B l t p (handler_step k r l t h).
Proof.
  intros Hok. destruct h as [|d|e|e again|e again|d|d|d]; try by apply good_calls.
  - by apply good_accept.
  - by apply good_recv.
  - destruct (ok_handler _ _ _ _ _ _ _ Hok _ eq_refl) as (Hdl & w & Hw). simpl in Hdl, Hw.
    destruct (client_at _ _ _ _ _ _ _ _ _ Hok Hdl Hw) as [c Hcl]. simpl. rewrite Hcl.
    apply good_silent. by apply (alive_io B k r l t p (FlushFind e again)).
  - by apply good_flush.
  - destruct (ok_handler _ _ _ _ _ _ _ Hok _ eq_refl) as [Hcl _]. simpl.
    apply good_step; [|by apply alive_closed]. unfold debts. rewrite fmap_delete. constructor.
    by rewrite lookup_fmap, fmap_is_Some.
Qed.

(** ** Construction *)

(** A failed construction has closed every descriptor, unless the buffer of the
    reactor could not be allocated: then the two of the reactor stay open. *)
Definition construct_failed (k k' : K) (e : exn) : Prop :=
  open_fds k' = open_fds k ∧ (∃ what, e = RuntimeError what)
  ∨ e = BadAlloc ∧ ∃ ep wfd, ep ≠ wfd ∧ (ep ∉ open_fds k) ∧ (wfd ∉ open_fds k)
      ∧ open_fds k' = {[ep; wfd]} ∪ open_fds k.

Lemma make_failed k i k' e :
  make strerror epollReactor k 256 i = (k', Throws e) → construct_failed k k' e.
Proof.
  intros Hm%make_throws. unfold failed_from, construct_failed in *.
  destruct (allocation_failure e); [|by left].
  destruct Hm as (_ & Hr & ?). right. split; [|done]. unfold resize_ready in Hr.
  change (ready_max_size <? 256) with false in Hr. simpl in Hr. case_match; congruence.
Qed.

(** What the constructor has opened when it registers the listening socket. *)
Definition opened (k0 k : K) (r : State) (l : Z) : Prop :=
  registered_ok k r ∧ watchers r = ∅ ∧ stopping r = false
  ∧ interest k (epoll_fd r) = {[wake_fd r := EPOLLIN]}
  ∧ open_fds k = {[epoll_fd r; wake_fd r; l]} ∪ open_fds k0
  ∧ {[epoll_fd r; wake_fd r; l]} ## open_fds k0
  ∧ epoll_fd r ≠ l ∧ wake_fd r ≠ l ∧ 0 ≤ l.

Lemma opened_inner k0 k k' r l : inner k k' → opened k0 k r l → opened k0 k' r l.
Proof.
  intros ((Ho & He) & Hi & Hc) (Hreg & Hw & Hst & Hint & Hfds & Hrest).
  unfold opened. rewrite Hi, Ho. split_and!; try done; try apply Hrest.
  by apply (registered_same k).
Qed.

Lemma opened_destroy k0 k r l :
  opened k0 k r l → open_fds (destroy (reset k l) r) = open_fds k0.
Proof.
  intros (Hreg & _ & _ & _ & Hfds & Hdis & _ & _ & Hl). destruct (reg_fds _ _ Hreg).
  unfold destroy, reset. rewrite !(proj2 (Z.leb_le 0 _)) by done.
  rewrite !law_close, Hfds. set_solver.
Qed.

Lemma opened_socket k0 k r k' l :
  make strerror epollReactor k0 256 0 = (k, Returns r) → new_socket k = (k', inl l) →
  opened k0 k' r l.
Proof.
  intros Hm Hs. apply make_ok in Hm as (Hreg & Hw & Hst & _ & _ & _ & Hfds & He & Hwf & Hint).
  apply law_socket in Hs as (Hl & Hfresh & Ho & Hfr).
  assert (epoll_fd r ≠ l ∧ wake_fd r ≠ l ∧ l ∉ open_fds k0) as (Hel & Hwl & Hl0) by set_solver.
  destruct (Hfr _ Hel) as (Hie & _). destruct (Hfr _ Hwl) as (_ & _ & Hev).
  unfold opened. rewrite Hie, Ho, Hfds. split_and!; try done; [|set_solver|set_solver].
  apply (registered_frame k); by rewrite ?Hie.
Qed.

Lemma opened_alive k0 k r l k' r' ob :
  opened k0 k r l →
  call_alone k r (Add l read_edge (Some accept_cb)) = (k', r', ob) →
  (∃ what, ob = Throws (RuntimeError what) ∧ open_fds (destroy (reset k' l) r') = open_fds k0)
  ∨ ∃ b, ob = Returns b ∧ open_fds k' = {[epoll_fd r'; wake_fd r'; l]} ∪ open_fds k0
    ∧ {[epoll_fd r'; wake_fd r'; l]} ## open_fds k0
    ∧ alive_ok (open_fds k') k' (run_entry epollReactor r') l ∅ RunCheck None.
Proof.
  intros Hop Hc. pose proof Hop as (Hreg & Hw & Hst & Hint & Hfds & Hdis & Hel & Hwl & Hl).
  pose proof (call_registered _ _ _ _ _ _ Hc Hreg) as Hreg'.
  destruct (add_call _ _ _ _ _ _ _ _ Hc) as [[what ->]|(-> & -> & Hctl)];
    [by rewrite Hw|done|done| |].
  - left. exists what. split; [done|].
    destruct (call_frame _ _ _ _ _ _ Hc) as ((Ho & _) & He & Hwf).
    destruct (reg_fds _ _ Hreg'). unfold destroy, reset.
    rewrite !(proj2 (Z.leb_le 0 _)) by done. rewrite !law_close, Ho, Hfds, He, Hwf. set_solver.
  - right. exists true. split; [done|].
    pose proof (law_ctl_frame k (epoll_fd r) CtlAdd l (toNativeEvents read_edge)) as ((Ho & _) & _).
    rewrite Hctl in Ho. cbn in Ho. rewrite Ho. split; [done|]. split; [done|].
    apply law_add in Hctl as Hadd. destruct Hadd as [_ Hi].
    split; simpl; try done.
    + destruct Hreg'. by split.
    + rewrite Ho, Hfds, dom_empty_L. set_solver.
    + by rewrite lookup_insert_eq.
    + intros d w Hd. rewrite lookup_insert_ne, Hw by done. done.
    + intros d [? ?]. done.
    + constructor.
    + intros d _. apply not_elem_of_nil.
    + intros e cb Hin%elem_of_nil. done.
    + intros d ev. rewrite Hi, Hint, lookup_insert_Some, lookup_singleton_Some.
      intros [[<- <-]|[_ [<- _]]] Hne; [|done]. left. by eapply law_ctl_ready.
    + intros d w. rewrite Hi, Hw, lookup_insert_Some, lookup_empty. intros [[<- <-]|[_ ?]]; [|done].
      by rewrite lookup_insert_eq.
Qed.

(** How the constructor ends. *)
Lemma construct_ok k port k' o :
  EchoServer strerror k port = (k', o) →
  match o with
  | Throws e => construct_failed k k' e
  | Returns s =>
      kern s = k' ∧ dead s = false ∧ clients_ s = ∅ ∧ lpc s = RunCheck ∧ running s = None
      ∧ let own := {[epoll_fd (reactor_ s); wake_fd (reactor_ s); listen_fd_ s]} in
        open_fds k' = own ∪ open_fds k ∧ own ## open_fds k
        ∧ alive_ok (open_fds k') k' (reactor_ s) (listen_fd_ s) ∅ RunCheck None
  end.
Proof.
  unfold EchoServer. destruct (make _ _ _ _ _) as [k1 [r|e]] eqn:Hm; cycle 1.
  { intros [= <- <-]. by eapply make_failed. }
  destruct (new_socket k1) as [k2 [l|e]] eqn:Hs; cycle 1.
  { intros [= <- <-]. left. split; [|by eexists]. apply law_socket_error in Hs as ((Ho & _) & _).
    destruct (make_ok _ _ _ _ _ _ _ Hm) as (Hreg & _ & _ & _ & _ & _ & Hfds & He & Hwf & _).
    destruct (reg_fds _ _ Hreg). unfold destroy, reset. simpl.
    rewrite !(proj2 (Z.leb_le 0 _)) by done. rewrite !law_close, Ho, Hfds. set_solver. }
  pose proof (opened_socket _ _ _ _ _ Hm Hs) as Hop.
  assert (∀ k3 what, opened k k3 r l →
    construct_failed k (destroy (reset k3 l) r) (RuntimeError what)) as Hfail.
  { intros k3 what Hk3. left. split; [by apply opened_destroy|by eexists]. }
  pose proof (law_reuseaddr k2 l) as Hi.
  destruct (set_reuseaddr k2 l) as [k3 [e|]]; pose proof (opened_inner _ _ _ _ _ Hi Hop) as Hop3;
    [by intros [= <- <-]; apply Hfail|]. clear Hi. cbn in Hop3.
  pose proof (law_bind k3 l port) as Hi.
  destruct (bind_port k3 l port) as [k4 [e|]]; pose proof (opened_inner _ _ _ _ _ Hi Hop3) as Hop4;
    [by intros [= <- <-]; apply Hfail|]. clear Hi. cbn in Hop4.
  pose proof (law_listen k4 l) as Hi.
  destruct (listen_on k4 l) as [k5 [e|]]; pose proof (opened_inner _ _ _ _ _ Hi Hop4) as Hop5;
    [by intros [= <- <-]; apply Hfail|]. clear Hi. cbn in Hop5.
  pose proof (law_local_port k5 l) as Hi.
  destruct (local_port k5 l) as [k6 [pt|e]]; pose proof (opened_inner _ _ _ _ _ Hi Hop5) as Hop6;
    [|by intros [= <- <-]; apply Hfail]. clear Hi. cbn in Hop6.
  destruct (call_alone k6 r _) as [[k7 r7] ob] eqn:Hc.
  destruct (opened_alive _ _ _ _ _ _ _ Hop6 Hc) as [(what & -> & Hfds)|(b & -> & Hfds & Hdis & Hok)];
    intros [= <- <-]; [by left; split; [|eexists]|done].
Qed.

(** ** Between the steps *)

Lemma ready_arrives ep k k' d ev :
  arrives ep k k' → interest k ep !! d = Some ev → ready k' d ev = true →
  ready k d ev = true ∨ edge k' ep d = true.
Proof.
  intros [_ Ha] Hd. destruct (Ha d ev Hd) as (_ & Hr & Hs). unfold ready.
  rewrite !orb_true_iff, !andb_true_iff.
  intros [[H1 H2]|[H1 H2]]; [destruct (Hr H1 H2)|destruct (Hs H1 H2)]; tauto.
Qed.

Lemma alive_arrives B k r l t p run k' :
  alive_ok B k r l t p run → arrives (epoll_fd r) k k' → alive_ok B k' r l t p run.
Proof.
  intros [H1 H2 H3 H4 H5 H6 H7 H8 H9 H10 H11 H12 H13] Harr. pose proof Harr as [(Hf & Hi & _) Ha].
  split; try done.
  - by apply (registered_same k).
  - by rewrite (proj1 Hf).
  - intros d ev. rewrite Hi. intros Hd Hw. destruct (H12 d ev Hd Hw) as [Hl|Hl]; [|by right].
    left. intros Hr. destruct (ready_arrives _ _ _ _ _ Harr Hd Hr) as [Hr'|?]; [|done].
    destruct (Ha d ev Hd) as (He & _). auto.
  - intros d w Hw. rewrite Hi. by apply H13.
Qed.

(** ** The server *)

Definition server_ok (B : gset Z) (s : server) : Prop :=
  dead s = false → alive_ok B (kern s) (reactor_ s) (listen_fd_ s) (clients_ s) (lpc s) (running s).
Definition view (s : server) : owed := if dead s then None else debts (clients_ s).

Lemma server_step_ok B s s' os :
  server_ok B s → server_step strerror s = Some (s', os) →
  run debt_lts (view s) os (view s') ∧ server_ok B s'.
Proof.
  destruct s as [k r l port t p run dd]. unfold server_ok, view. simpl. intros Hok.
  destruct dd; [done|]. specialize (Hok eq_refl). destruct run as [h|].
  - destruct (alive_handler _ _ _ _ _ _ _ Hok) as (k1 & r1 & t1 & nx & os1 & -> & Hrun & Hnx).
    destruct nx as [h'| |e]; intros [= <- <-]; simpl; [done..|].
    destruct Hnx as [what ->]. split; [|done]. eapply run_app; [exact Hrun|].
    apply run_one. constructor.
  - destruct (loop_step k r p) as [[[k1 p1] es]|] eqn:Hs; [|done].
    destruct (alive_loop _ _ _ _ _ _ _ _ _ Hok Hs)
      as [[what ->]|[(e & cb & -> & Hok')|[-> Hok']]]; intros [= <- <-]; simpl.
    + split; [apply run_one; constructor|done].
    + split; [constructor|done].
    + split; [constructor|done].
Qed.

Lemma echo_step_ok B s s' os :
  server_ok B s → echo_step strerror s os s' →
  run debt_lts (view s) os (view s') ∧ server_ok B s'.
Proof.
  intros Hok Hs. destruct Hs as [s1 s2 os1 Hs|k k' r l port t p run Ha]; [by eapply server_step_ok|].
  split; [constructor|]. intros _. simpl. eapply alive_arrives; [by apply Hok|done].
Qed.

Lemma echo_init_ok s :
  echo_init strerror s → view s = Some ∅ ∧ server_ok (open_fds (kern s)) s.
Proof.
  intros (k & arg & k' & Hc). apply construct_ok in Hc as (<- & Hd & Hcl & Hp & Hr & _ & _ & Hok).
  unfold view, server_ok. rewrite Hd, Hcl, Hp, Hr. split; [|done]. unfold debts.
  by rewrite fmap_empty.
Qed.

Lemma echo_run_ok B s os s' :
  run (echo_lts strerror) s os s' → server_ok B s →
  run debt_lts (view s) os (view s') ∧ server_ok B s'.
Proof.
  induction 1 as [s|s o s' os s'' Hs Hr IH]; intros Hok; [split; [constructor|done]|].
  destruct (echo_step_ok _ _ _ _ Hok Hs) as [Ho Hok']. destruct (IH Hok') as [Hos Hok''].
  split; [by eapply run_app|done].
Qed.

Lemma reachable_server_ok s :
  reachable (echo_lts strerror) s → ∃ B, server_ok B s.
Proof.
  intros (s0 & os & Hi & Hr). destruct (echo_init_ok _ Hi) as [_ Hok].
  exists (open_fds (kern s0)). by apply (echo_run_ok _ _ _ _ Hr Hok).
Qed.

(** ** What the specification says of one connection *)

Definition paid (d : Z) (a : owed) (acc : list byte * list byte) : Prop :=
  acc.2 `prefix_of` acc.1 ∧ ∀ t o, a = Some t → t !! d = Some o → acc.1 = acc.2 ++ o.

Lemma debt_step_paid d a os a' acc :
  debt_step a os a' → paid d a acc → paid d a' (foldl (traffic_step d) acc os).
Proof.
  intros Hs [Hp Hacc]. unfold paid.
  destruct Hs as [t x Hx Hx0|t x bs o Hx Hne Hlen|t x bs o Hx Hne|t x Hx|t what]; simpl;
    try destruct (Z.eqb_spec x d) as [->|Hxd]; simpl.
  - split; [done|]. intros t' o [= <-]. rewrite lookup_insert_eq. by intros [= <-].
  - split; [done|]. intros t' o [= <-]. rewrite lookup_insert_ne by done. eauto.
  - rewrite (Hacc _ _ eq_refl Hx). split; [rewrite <-(assoc_L (++)); by apply prefix_app_r|].
    intros t' o' [= <-]. rewrite lookup_insert_eq. intros [= <-]. by rewrite (assoc_L (++)).
  - split; [done|]. intros t' o' [= <-]. rewrite lookup_insert_ne by done. eauto.
  - rewrite (Hacc _ _ eq_refl Hx), (assoc_L (++)). split; [by apply prefix_app_r|].
    intros t' o' [= <-]. rewrite lookup_insert_eq. by intros [= <-].
  - split; [done|]. intros t' o' [= <-]. rewrite lookup_insert_ne by done. eauto.
  - split; [done|]. intros t' o [= <-]. by rewrite lookup_delete_eq.
  - split; [done|]. intros t' o [= <-]. rewrite lookup_delete_ne by done. eauto.
  - done.
Qed.

Lemma debt_run_paid d a os a' :
  run debt_lts a os a' → ∀ acc, paid d a acc → paid d a' (foldl (traffic_step d) acc os).
Proof.
  induction 1 as [a|a o a' os a'' Hs Hr IH]; intros acc Hacc; [done|].
  rewrite foldl_app. by apply IH, debt_step_paid with a.
Qed.

(** ** Properties *)

(** C28: the server echoes.  Whatever the kernel answers and whenever bytes,
    connections and room arrive, a run of the server is a run of a table of
    connections with the bytes each is owed: a connection is accepted once,
    bytes are received at most 4096 at a time and only on open connections, what
    is sent is a prefix of what is owed, each connection is closed once, the
    table is [clients_], and when the server dies it is with a system error. *)
Theorem echo_refines_debts s0 os s
    (Hinit : echo_init strerror s0) (Hrun : run (echo_lts strerror) s0 os s) :
  run debt_lts (Some ∅) os (if dead s then None else Some (out <$> clients_ s)).
Proof.
  destruct (echo_init_ok _ Hinit) as [Hv Hok].
  destruct (echo_run_ok _ _ _ _ Hrun Hok) as [Hr _]. by rewrite Hv in Hr.
Qed.

(** Every byte comes back, in order.  In every run the bytes sent to a
    connection are a prefix of those received from it, and what is missing is
    exactly the [out] of its client. *)
Theorem echo_bytes_exact s0 os s d
    (Hinit : echo_init strerror s0) (Hrun : run (echo_lts strerror) s0 os s) :
  let '(received, sent) := traffic d os in
  sent `prefix_of` received
  ∧ (dead s = false → ∀ c, clients_ s !! d = Some c → received = sent ++ out c).
Proof.
  destruct (echo_init_ok _ Hinit) as [Hv Hok].
  destruct (echo_run_ok _ _ _ _ Hrun Hok) as [Hr _]. rewrite Hv in Hr.
  destruct (debt_run_paid d _ _ _ Hr ([], [])) as [Hp Ho].
  { split; [done|]. intros t o [= <-]. by rewrite lookup_empty. }
  fold (traffic d os) in Hp, Ho. destruct (traffic d os) as [rcv snt]. simpl in Hp, Ho.
  split; [done|]. intros Hd c Hc. apply (Ho (out <$> clients_ s)).
  - unfold view. by rewrite Hd.
  - by rewrite lookup_fmap, Hc.
Qed.

(** The tables of the server, of the reactor and of the kernel agree.  The
    open descriptors are those of the constructor and one for each client;
    between two handlers the reactor watches the listening socket and the
    clients, a client for writing exactly when it is owed bytes, and that is
    what the kernel watches, besides the eventfd. *)
Theorem echo_tables_agree s0 os s
    (Hinit : echo_init strerror s0) (Hrun : run (echo_lts strerror) s0 os s)
    (Halive : dead s = false) :
  open_fds (kern s) = open_fds (kern s0) ∪ dom (clients_ s)
  ∧ open_fds (kern s0) ## dom (clients_ s)
  ∧ (running s = None →
     watchers (reactor_ s)
     = <[listen_fd_ s := mkWatcher read_edge accept_cb]>
         ((λ c, mkWatcher (interest_of c) client_cb) <$> clients_ s)
     ∧ interest (kern s) (epoll_fd (reactor_ s))
       = <[wake_fd (reactor_ s) := EPOLLIN]>
           (toNativeEvents ∘ watched <$> watchers (reactor_ s))).
Proof.
  destruct (echo_init_ok _ Hinit) as [_ Hok0].
  destruct (echo_run_ok _ _ _ _ Hrun Hok0) as [_ Hok]. specialize (Hok Halive).
  destruct Hok as [H1 H2 H3 (Hf & Hdis & _) H5 H6 H7 H8 H9 H10 H11 H12 H13].
  split; [done|]. split; [done|]. intros Hrn. rewrite Hrn in *. split.
  - apply map_eq. intros d. rewrite lookup_insert. case_decide as Hd; [by subst d|].
    rewrite lookup_fmap. destruct (clients_ s !! d) as [c|] eqn:Hc; simpl.
    + destruct (H7 d) as [[w Hw]|[?|?]]; [by eexists| |done..].
      destruct (H6 d w) as (Hcb & c' & Hc' & Hi); [congruence|done|]. rewrite Hw. simplify_eq.
      rewrite <-(Hi (handles_none _ _)). destruct w. simpl in *. by subst.
    + destruct (watchers (reactor_ s) !! d) as [w|] eqn:Hw; [|done].
      destruct (H6 d w) as (_ & c' & Hc' & _); congruence.
  - apply map_eq. intros d. rewrite lookup_insert. case_decide as Hd; [subst d; apply H1|].
    rewrite lookup_fmap. destruct (watchers (reactor_ s) !! d) as [w|] eqn:Hw; simpl; [by apply H13|].
    destruct (interest _ _ !! d) as [ev|] eqn:Hev; [|done].
    destruct (reg_interest _ _ H1 _ _ Hev) as (w & ? & _); congruence.
Qed.

(** A server that sleeps has looked at everything that is ready. *)
Lemma asleep_not_ready B k r l t b tm k' d w :
  alive_ok B k r l t (Wait b tm) None →
  epoll_wait k (epoll_fd r) (to_int (ready_size r)) tm = (k', Blocks) →
  watchers r !! d = Some w → ready k d (toNativeEvents (watched w)) = false.
Proof.
  intros Hok Hwt Hw. pose proof (ok_interest _ _ _ _ _ _ _ Hok _ _ Hw) as Hi.
  destruct (reg_watchers _ _ (ok_reg _ _ _ _ _ _ _ Hok) _ _ Hw) as [_ Hne].
  destruct (ready k d _) eqn:Hr; [|done].
  destruct (ok_armed _ _ _ _ _ _ _ Hok _ _ Hi Hne) as [Ha|[Ha%elem_of_nil|Ha%handles_none]];
    [|done..].
  by rewrite (law_wait_asleep _ _ _ _ _ _ _ Hwt Hi (Ha Hr)) in Hr.
Qed.

(** C29: the server sleeps only when there is nothing to do.  In every reachable
    state a server that lives either takes a step, or it is inside
    [epoll_wait], no connection waits to be accepted, no client has sent
    anything that was not read, and no client that is owed bytes could take
    one, although all sockets are edge triggered. *)
Theorem echo_sleeps_only_idle s (Hs : reachable (echo_lts strerror) s)
    (Halive : dead s = false) (Hstep : server_step strerror s = None) :
  running s = None ∧ (∃ t, lpc s = Wait true t)
  ∧ can_read (kern s) (listen_fd_ s) = false
  ∧ ∀ d c, clients_ s !! d = Some c →
      can_read (kern s) d = false ∧ (out c ≠ [] → can_send (kern s) d = false).
Proof.
  destruct (reachable_server_ok _ Hs) as [B Hok]. specialize (Hok Halive).
  destruct s as [k r l port t p run dd]. simpl in *. subst dd. destruct run as [h|].
  { destruct (alive_handler _ _ _ _ _ _ _ Hok) as (k1 & r1 & t1 & nx & os1 & E & _).
    rewrite E in Hstep. by destruct nx. }
  split; [done|]. destruct (loop_step k r p) as [[[k1 p1] es]|] eqn:Hl;
    [repeat case_match; done|].
  destruct (ok_pc _ _ _ _ _ _ _ Hok) as [Hp _].
  assert (∃ tm k', p = Wait true tm
    ∧ epoll_wait k (epoll_fd r) (to_int (ready_size r)) tm = (k', Blocks)) as (tm & k' & -> & Hwt).
  { destruct p as [| |b tm|b [|[d bits] rest] acc|b rest acc|b [|[e cb] todo] m|b todo m];
      simpl in Hl, Hp; subst; try done.
    - by destruct (stopping r).
    - destruct (epoll_wait _ _ _ _) as [k' [rep|e|]] eqn:Hwt; [done|by case_bool_decide|eauto].
    - by destruct (d =? wake_fd r); [|destruct (watchers r !! d)].
    - by destruct (read_eight k (wake_fd r)). }
  split; [eauto|]. split.
  - pose proof (asleep_not_ready _ _ _ _ _ _ _ _ _ _ Hok Hwt (ok_listen _ _ _ _ _ _ _ Hok)) as Hr.
    cbn [watched] in Hr. unfold ready in Hr. destruct toNative_read_edge as [E1 E2].
    by rewrite E1, E2, orb_false_r in Hr.
  - intros d c Hc. assert (is_Some (t !! d)) as Hd by eauto.
    destruct (ok_watched _ _ _ _ _ _ _ Hok _ Hd) as [[w Hw]|[?|?]]; [|done..].
    assert (d ≠ l) as Hdl.
    { intros ->. apply (client_ne _ _ _ _ _ _ _ _ Hok Hd). apply (ok_fds _ _ _ _ _ _ _ Hok). }
    destruct (ok_clients _ _ _ _ _ _ _ Hok _ _ Hdl Hw) as (_ & c' & Hc' & Hi). simplify_eq.
    pose proof (asleep_not_ready _ _ _ _ _ _ _ _ _ _ Hok Hwt Hw) as Hr.
    rewrite (Hi (handles_none _ _)) in Hr. unfold ready, interest_of in Hr.
    case_bool_decide; revert Hr; [destruct toNative_read_edge as [-> ->]|cbn];
      destruct (can_read k d), (can_send k d); naive_solver.
Qed.

(** What the constructor leaves behind.  A server that is built owns three new
    descriptors, watches its listening socket for edges and has no clients; a
    construction that fails at a call of the kernel has closed every descriptor
    it opened and throws a system error; one that fails because the reactor's
    buffer cannot be allocated leaves the reactor's two descriptors open. *)
Theorem echo_construct_exact k port :
  match EchoServer strerror k port with
  | (k', Returns s) =>
      kern s = k' ∧ clients_ s = ∅
      ∧ watchers (reactor_ s) = {[listen_fd_ s := mkWatcher read_edge accept_cb]}
      ∧ open_fds k' = {[epoll_fd (reactor_ s); wake_fd (reactor_ s); listen_fd_ s]} ∪ open_fds k
      ∧ {[epoll_fd (reactor_ s); wake_fd (reactor_ s); listen_fd_ s]} ## open_fds k
  | (k', Throws e) => construct_failed k k' e
  end.
Proof.
  destruct (EchoServer strerror k port) as [k' [s|e]] eqn:Hc; apply construct_ok in Hc; [|done].
  destruct Hc as (-> & _ & -> & _ & _ & Hfds & Hdis & Hok). split_and!; try done.
  apply map_eq. intros d. destruct (decide (d = listen_fd_ s)) as [->|Hne].
  - by rewrite lookup_singleton_eq, (ok_listen _ _ _ _ _ _ _ Hok).
  - rewrite lookup_singleton_ne by done. destruct (watchers _ !! d) as [w|] eqn:Hw; [|done].
    by destruct (ok_clients _ _ _ _ _ _ _ Hok _ _ Hne Hw) as (_ & c & ? & _).
Qed.
End theory.

(** ** Concrete runs *)

(** What happens to a network between the steps. *)
Inductive happening :=
  | Arrive (l : Z) (a : arrival)
  | Bytes (d : Z) (bs : list byte)
  | Ends (d : Z)
  | Room (d : Z) (m : Z).

Definition happen (n : net) (ep : Z) (h : happening) : net :=
  match h with
  | Arrive l a =>
      (n <| waiting ::= <[l := default [] (waiting n !! l) ++ [a]]> |>)
        <| edges ::= λ s, {[(ep, l)]} ∪ s |>
  | Bytes d bs =>
      (n <| inbox ::= <[d := default [] (inbox n !! d) ++ bs]> |>)
        <| edges ::= λ s, {[(ep, d)]} ∪ s |>
  | Ends d => (n <| ended ::= λ s, {[d]} ∪ s |>) <| edges ::= λ s, {[(ep, d)]} ∪ s |>
  | Room d m => (n <| room ::= <[d := m]> |>) <| edges ::= λ s, {[(ep, d)]} ∪ s |>
  end.


(** The server alone, until it sleeps. *)
Fixpoint serve (fuel : nat) (s : server (K:=net)) : server (K:=net) * list observation :=
  match fuel with
  | O => (s, [])
  | S fuel =>
      match server_step (λ _, "error"%string) s with
      | None => (s, [])
      | Some (s, os) => let '(s, os') := serve fuel s in (s, os ++ os')
      end
  end.

Definition happens (s : server (K:=net)) (h : happening) : server (K:=net) :=
  let '(mkServer k r l port t p run dd) := s in
  if dd then s else mkServer (happen k (epoll_fd r) h) r l port t p run dd.

Fixpoint story (hs : list happening) (s : server (K:=net))
    : server (K:=net) * list observation :=
  match hs with
  | [] => (s, [])
  | h :: hs =>
      let '(s, os) := serve 100 (happens s h) in
      let '(s, os') := story hs s in (s, os ++ os')
  end.

Definition new_server : net * outcome (server (K:=net)) :=
  EchoServer (λ _, "error"%string)
    (mkNet (mkKernel {[0; 1; 2]} 3 100 ∅ ∅ ∅ 1) ∅ ∅ ∅ ∅ ∅) (port_of (Some 65616)).

Definition server_after (hs : list happening) : option (server (K:=net) * list observation) :=
  match new_server with (_, Returns s) => Some (story hs s) | _ => None end.

(** One socket has news, and its report is due. *)
Lemma news_arrives n n' ep d :
  base n' = base n → edges n' = {[(ep, d)]} ∪ edges n →
  (∀ x, x ≠ d → Net.read_ready n' x = Net.read_ready n x
                ∧ Net.send_ready n' x = Net.send_ready n x) →
  arrives ep n n'.
Proof.
  intros Hb He Hx. split; [split; [split|]; cbn; by rewrite Hb|]. intros x ev _. cbn.
  rewrite He, !bool_decide_eq_true. split; [set_solver|].
  destruct (decide (x = d)) as [->|Hne]; [set_solver|]. destruct (Hx x Hne) as [-> ->]. tauto.
Qed.

Lemma happen_arrives n ep h : arrives ep n (happen n ep h).
Proof.
  destruct h as [d a|d bs|d|d m]; (apply news_arrives with d; [done|done|]); intros x Hx;
    unfold Net.read_ready, Net.send_ready, Net.is_event; cbn.
  - by rewrite lookup_insert_ne.
  - by rewrite lookup_insert_ne.
  - split; [|done]. rewrite (bool_decide_ext (x ∈ {[d]} ∪ ended n) (x ∈ ended n)); [done|].
    rewrite elem_of_union, elem_of_singleton. naive_solver.
  - by rewrite lookup_insert_ne.
Qed.

Local Abbreviation net_lts := (echo_lts (K:=net) (λ _, "error"%string)).

Lemma serve_run fuel : ∀ s s' os, serve fuel s = (s', os) → run net_lts s os s'.
Proof.
  induction fuel as [|fuel IH]; simpl; intros s s' os Hs; [simplify_eq; constructor|].
  destruct (server_step _ s) as [[s1 os1]|] eqn:Hst; [|simplify_eq; constructor].
  destruct (serve fuel s1) as [s2 os2] eqn:Hr. simplify_eq.
  econstructor; [by apply echo_server|eauto].
Qed.

Lemma happens_run s h : run net_lts s [] (happens s h).
Proof.
  destruct s as [k r l port t p run dd]. simpl. destruct dd; [constructor|].
  apply run_one, echo_arrives, happen_arrives.
Qed.

Lemma story_run hs : ∀ s s' os, story hs s = (s', os) → run net_lts s os s'.
Proof.
  induction hs as [|h hs IH]; intros s s' os Hs; cbn [story] in Hs; [simplify_eq; constructor|].
  destruct (serve 100 (happens s h)) as [s1 os1] eqn:H1, (story hs s1) as [s2 os2] eqn:H2.
  simplify_eq. apply (run_app _ s [] (happens s h)); [apply happens_run|].
  eapply run_app; [by eapply serve_run|eauto].
Qed.

Lemma server_after_run hs s os :
  server_after hs = Some (s, os) →
  ∃ s0, echo_init (λ _, "error"%string) s0 ∧ run net_lts s0 os s.
Proof.
  unfold server_after. destruct new_server as [k [s0|e]] eqn:Hn; [|done]. intros [= Hs].
  exists s0. split; [|by eapply story_run].
  by exists (mkNet (mkKernel {[0; 1; 2]} 3 100 ∅ ∅ ∅ 1) ∅ ∅ ∅ ∅ ∅), (Some 65616), k.
Qed.

Lemma server_after_state {A} hs (φ : server (K:=net) * list observation → A) v :
  φ <$> server_after hs = Some v →
  ∃ s0 s os, echo_init (λ _, "error"%string) s0 ∧ run net_lts s0 os s ∧ φ (s, os) = v.
Proof.
  destruct (server_after hs) as [[s os]|] eqn:E; simpl; intros [= <-].
  apply server_after_run in E as (s0 & ? & ?). eauto 10.
Qed.

(** A client sends eight bytes to a server whose sockets take five at first. *)
Definition message : list byte := ["e"; "c"; "h"; "o"; " "; "m"; "e"; "!"]%byte.
Definition partial : list happening := [Arrive 5 Connection; Bytes 6 message].

Lemma echo_refines_debts_witness :
  run debt_lts (Some ∅)
    [Accepted 6; Received 6 message; Sent 6 (take 5 message); Sent 6 (drop 5 message); Closed 6]
    (Some ∅).
Proof.
  destruct (server_after_state (partial ++ [Room 6 20; Ends 6])
    (λ x, (x.2, dead x.1, out <$> clients_ x.1))
    ([Accepted 6; Received 6 message; Sent 6 (take 5 message); Sent 6 (drop 5 message); Closed 6],
     false, ∅))
    as (s0 & s & os & Hi & Hr & Hv); [vm_compute; reflexivity|].
  apply pair_equal_spec in Hv as [[Hos Hd]%pair_equal_spec Hc]. cbn [fst snd] in Hos, Hd, Hc. subst os.
  pose proof (echo_refines_debts (λ _, "error"%string) s0 _ s Hi Hr) as Hx.
  by rewrite Hd, Hc in Hx.
Defined.

Lemma echo_bytes_exact_witness :
  ∃ s0 s os, run net_lts s0 os s ∧ traffic 6 os = (message, take 5 message)
  ∧ clients_ s = {[6 := mkClient (drop 5 message)]}
  ∧ message = take 5 message ++ out (mkClient (drop 5 message)).
Proof.
  destruct (server_after_state partial (λ x, (traffic 6 x.2, dead x.1, clients_ x.1))
    ((message, take 5 message), false, {[6 := mkClient (drop 5 message)]}))
    as (s0 & s & os & Hi & Hr & Hv); [vm_compute; reflexivity|].
  apply pair_equal_spec in Hv as [[Ht Hd]%pair_equal_spec Hc]. cbn [fst snd] in Ht, Hd, Hc.
  exists s0, s, os. split; [done|]. split; [done|]. split; [done|].
  pose proof (echo_bytes_exact (λ _, "error"%string) s0 os s 6 Hi Hr) as Hx.
  rewrite Ht in Hx. apply (proj2 Hx Hd). by rewrite Hc.
Defined.

Lemma echo_tables_agree_witness :
  ∃ s, watchers (reactor_ s)
    = {[5 := mkWatcher 5 0; 6 := mkWatcher 7 1]}
  ∧ watchers (reactor_ s)
    = <[listen_fd_ s := mkWatcher read_edge accept_cb]>
        ((λ c, mkWatcher (interest_of c) client_cb) <$> clients_ (K:=net) s).
Proof.
  destruct (server_after_state partial
    (λ x, (dead x.1, running x.1, watchers (reactor_ x.1)))
    (false, None, {[5 := mkWatcher 5 0; 6 := mkWatcher 7 1]}))
    as (s0 & s & os & Hi & Hr & Hv); [vm_compute; reflexivity|].
  apply pair_equal_spec in Hv as [[Hd Hrn]%pair_equal_spec Hw]. cbn [fst snd] in Hd, Hrn, Hw.
  exists s. split; [done|].
  apply (echo_tables_agree (λ _, "error"%string) s0 os s Hi Hr Hd). done.
Defined.

(** The server sleeps although its client is owed three bytes: the socket is
    full. *)
Lemma echo_sleeps_only_idle_witness :
  ∃ s, reachable net_lts s ∧ clients_ s !! 6 = Some (mkClient (drop 5 message))
  ∧ can_read (kern s) 6 = false ∧ can_send (kern s) 6 = false.
Proof.
  destruct (server_after_state partial
    (λ x, (dead x.1, match server_step (λ _, "error"%string) x.1 with None => true | _ => false end,
           clients_ x.1 !! 6))
    (false, true, Some (mkClient (drop 5 message))))
    as (s0 & s & os & Hi & Hr & Hv); [vm_compute; reflexivity|].
  apply pair_equal_spec in Hv as [[Hd Hst]%pair_equal_spec Hc]. cbn [fst snd] in Hd, Hst, Hc.
  assert (server_step (λ _, "error"%string) s = None) as Hn.
  { destruct (server_step (λ _, "error"%string) s); done. }
  exists s. assert (reachable net_lts s) as Hs by (by exists s0, os). split; [done|]. split; [done|].
  destruct (echo_sleeps_only_idle (λ _, "error"%string) s Hs Hd Hn) as (_ & _ & _ & Hx).
  destruct (Hx 6 _ Hc) as [H1 H2]. split; [done|]. by apply H2.
Defined.

Lemma echo_construct_exact_witness :
  match EchoServer (λ _, "error"%string)
    (mkNet (mkKernel {[0; 1; 2]} 3 5 ∅ ∅ ∅ 0) ∅ ∅ ∅ ∅ ∅) 80 with
  | (k', Throws e) => open_fds k' = {[0; 1; 2]} ∧ e = RuntimeError "socket failed: error"
  | _ => False
  end.
Proof.
  pose proof (echo_construct_exact (λ _, "error"%string)
    (mkNet (mkKernel {[0; 1; 2]} 3 5 ∅ ∅ ∅ 0) ∅ ∅ ∅ ∅ ∅) 80) as Hx. revert Hx.
  destruct (EchoServer _ _ _) as [k' [s|e]] eqn:Hm; [vm_compute in Hm; discriminate|].
  assert (e = RuntimeError "socket failed: error") as -> by (vm_compute in Hm; by injection Hm).
  by intros [[Ho _]|[? _]].
Defined.

(** A client that has finished sending loses what it is still owed: the server
    closes at the end of the stream, with bytes in [out]. *)
Theorem echo_half_close_truncates :
  snd <$> server_after (partial ++ [Ends 6; Room 6 20])
  = Some [Accepted 6; Received 6 message; Sent 6 (take 5 message); Closed 6].
Proof. by vm_compute. Qed.

(** A connection that is aborted before it is accepted ends the server, with
    its other clients. *)
Theorem echo_dies_of_aborted_connection :
  snd <$> server_after (partial ++ [Arrive 5 Aborted; Arrive 5 Connection])
  = Some [Accepted 6; Received 6 message; Sent 6 (take 5 message);
          Died (RuntimeError "accept4 failed: error")].
Proof. by vm_compute. Qed.
