(* ===== verification/MtEcho.v ===== *)
(** * The multi-threaded echo server

    multi_thread_reactor/examples/echo_server.cpp: the main thread accepts
    connections on an [EventLoop] of its own and hands each to a
    [MultiThreadReactor], whose worker threads echo.  A connection is a shared
    object that the callbacks name.  The server runs over [msystem] of
    MultiReactor.v, as one of the clients of its interleaving: client 0 is the
    main thread, client [i + 1] the thread of loop [i] when it is inside a
    callback.  One step is one system call, one critical section of the reactor
    or one atomic access; [main] throwing, an exception leaving a worker, and
    with it the end of the process, end the run. *)

From S2P Require Import Prelude Kernel Sockets EpollReactor MultiReactor EchoServer.
From Stdlib Require Import Init.Byte.
Open Scope Z_scope.

Module Mt.

(** ** Connections *)

Record Connection := mkConnection {
  conn_fd : Z;
  output : list byte;
  closed : bool;
}.
#[export] Instance eta_Connection : Eta Connection := λ c,
  mkConnection (conn_fd c) (output c) (closed c).

(** Where a callback of a connection is: inside the loop around [recv]; inside
    the loop of [flushOutput]; at [reactor.modify]; in [closeConnection] at
    [closed.exchange], at [reactor.remove] and at [close]. *)
Inductive handler :=
  | Recv (e : EpollEvent) (o : nat)
  | FlushOutput (o : nat)
  | SetInterest (o : nat)
  | CloseFlag (o : nat)
  | CloseRemove (o : nat)
  | CloseFd (o : nat).

Definition object (h : handler) : nat :=
  match h with
  | Recv _ o | FlushOutput o | SetInterest o | CloseFlag o | CloseRemove o | CloseFd o => o
  end.

(** Where the callback of the listening socket is: at [accept4]; in
    [workers.add]; past it with an exception, where the last reference to the
    new connection goes. *)
Inductive acceptor :=
  | Accept
  | AddConnection (o : nat)
  | Unwind (o : nat) (e : exn).

(** Where [main] is: in [workers.start], at the construction of [accept_loop],
    at [accept_loop.add], in [accept_loop.run]. *)
Inductive main_pc :=
  | Start
  | MakeLoop
  | AddListen (r : State)
  | Serve (r : State) (p : loop_pc) (run : option acceptor).

Inductive next (H : Type) := Continue (h : H) | Return | Throw (e : exn).
Arguments Continue {H} h.
Arguments Return {H}.
Arguments Throw {H} e.

Definition worker_config : Config := mkConfig 4 128.

(** What a call that ended with [es] threw. *)
Definition thrown (es : list mevent) : option exn :=
  match es with
  | [Added _ (Throws e)] | [Modified _ (Throws e)] | [Removed _ (Throws e)]
  | [Started (Throws e)] => Some e
  | _ => None
  end.

(** Client 0 of the workers' reactor is the main thread, client [S i] stands for
    the callbacks of loop [i]. *)
#[local] Instance mt_callers : Callers := λ j, match j with O => None | S i => Some i end.

Section server.
Context `{Kernel K} `{!Sockets K} (strerror : errno → string).

(** ** UniqueFd and the listening socket *)

Definition release (fd_ : Z) : Z * Z := (fd_, -1).
Definition reset (k : K) (fd_ fd : Z) : K * Z := (if 0 <=? fd_ then close_fd k fd_ else k, fd).
Definition destroy_fd (k : K) (fd_ : Z) : K := (reset k fd_ (-1)).1.

Definition createListenSocket (k : K) (port : Z) : K * outcome Z :=
  match new_socket k with
  | (k, inr _) => (destroy_fd k (-1), Throws (RuntimeError "socket failed"))
  | (k, inl l) =>
      match set_reuseaddr k l with
      | (k, Some _) => (destroy_fd k l, Throws (RuntimeError "setsockopt SO_REUSEADDR failed"))
      | (k, None) =>
      match bind_port k l (port mod 65536) with
      | (k, Some _) => (destroy_fd k l, Throws (RuntimeError "bind failed"))
      | (k, None) =>
      match listen_on k l with
      | (k, Some _) => (destroy_fd k l, Throws (RuntimeError "listen failed"))
      | (k, None) => let '(fd, l) := release l in (destroy_fd k l, Returns fd)
      end end end
  end.

(** [~Connection]. *)
Definition destroy_connection (k : K) (c : Connection) : K :=
  if negb (closed c) && (0 <=? conn_fd c) then close_fd k (conn_fd c) else k.

(** ** The server *)

(** [objects]: every connection ever made, in order; [runs]: for each loop the
    callback its thread is inside; [dead]: the process is at its end. *)
Record server := mkServer {
  sys : msystem K;
  listen_fd : Z;
  main : main_pc;
  objects : list Connection;
  runs : list (option handler);
  dead : bool;
}.
#[export] Instance eta_server : Eta server := λ s,
  mkServer (sys s) (listen_fd s) (main s) (objects s) (runs s) (dead s).

Definition kern (s : server) : K := kernel_ (sys s).
Definition in_kernel (k : K) (s : server) : server :=
  s <| sys ::= λ m, m <| kernel_ := k |> |>.
Definition on_object (o : nat) (f : Connection → Connection) (s : server) : server :=
  s <| objects ::= alter f o |>.

(** ** Calls of the reactor *)

(** One critical section of client [j]'s call [e], entering it first; the
    events of the call once it is over. *)
Definition call_step (spawn : option exn) (j : nat) (e : entry) (m : msystem K)
    : option (msystem K * option (list mevent)) :=
  c ← clients m !! j;
  '(m', c', es) ← match c with
                  | Idle => enter m e
                  | _ => client_step strerror spawn (loop_of j) m c
                  end;
  Some (m' <| clients := <[j := c']> (clients m) |>,
        match c' with Idle => Some es | _ => None end).

(** ** The callback of a connection *)

Definition interests (c : Connection) : Z :=
  if bool_decide (output c = []) then read_edge else Z.lor read_edge Event_Write.

(** [handleConnection] after its reading, and from its start. *)
Definition after_read (e : EpollEvent) (o : nat) (c : Connection) : handler :=
  if writable e || negb (bool_decide (output c = [])) then FlushOutput o else SetInterest o.
Definition handleConnection (e : EpollEvent) (o : nat) (c : Connection) : handler :=
  if error e || hangUp e || peerClosed e then CloseFlag o
  else if readable e then Recv e o
  else after_read e o c.

(** One step of the callback on the thread of loop [i]; [None]: it waits for
    the mutex of a loop, or follows a dangling pointer. *)
Definition handler_step (i : nat) (h : handler) (s : server)
    : option (server * next handler * list observation) :=
  let k := kern s in
  match h with
  | Recv e o =>
      c ← objects s !! o;
      match recv k (conn_fd c) 4096 with
      | (k, inl []) => Some (in_kernel k s, Continue (CloseFlag o), [])
      | (k, inl bs) =>
          Some (on_object o (λ c, c <| output ::= (.++ bs) |>) (in_kernel k s),
                Continue (Recv e o), [Received (conn_fd c) bs])
      | (k, inr er) =>
          if bool_decide (er = EAGAIN)
          then Some (in_kernel k s, Continue (after_read e o c), [])
          else Some (in_kernel k s, Continue (CloseFlag o), [])
      end
  | FlushOutput o =>
      c ← objects s !! o;
      if bool_decide (output c = []) then Some (s, Continue (SetInterest o), [])
      else match send k (conn_fd c) (output c) with
      | (k, inl n) =>
          if 0 <? n
          then Some (on_object o (λ c, c <| output ::= drop (Z.to_nat n) |>) (in_kernel k s),
                     Continue (FlushOutput o), [Sent (conn_fd c) (take (Z.to_nat n) (output c))])
          else Some (in_kernel k s, Continue (CloseFlag o), [])
      | (k, inr er) =>
          if bool_decide (er = EAGAIN) then Some (in_kernel k s, Continue (SetInterest o), [])
          else Some (in_kernel k s, Continue (CloseFlag o), [])
      end
  | SetInterest o =>
      c ← objects s !! o;
      '(m, r) ← call_step None (S i) (CallModify (conn_fd c) (interests c)) (sys s);
      Some (s <| sys := m |>,
            match r with
            | None => Continue h
            | Some es => match thrown es with Some e => Throw e | None => Return end
            end, [])
  | CloseFlag o =>
      c ← objects s !! o;
      Some (on_object o (λ c, c <| closed := true |>) s,
            if closed c then Return else Continue (CloseRemove o), [])
  | CloseRemove o =>
      c ← objects s !! o;
      '(m, r) ← call_step None (S i) (CallRemove (conn_fd c)) (sys s);
      Some (s <| sys := m |>,
            match r with
            | None => Continue h
            | Some es =>
                match thrown es with Some e => Throw e | None => Continue (CloseFd o) end
            end, [])
  | CloseFd o =>
      c ← objects s !! o;
      Some (in_kernel (close_fd k (conn_fd c)) s, Return, [Closed (conn_fd c)])
  end.

(** ** The threads *)

Definition die (e : exn) (s : server) : server * list observation :=
  (s <| dead := true |>, [Died e]).

(** The thread of loop [i]. *)
Definition worker_step (i : nat) (s : server) : option (server * list observation) :=
  match runs s !! i with
  | None => None
  | Some (Some h) =>
      '(s, n, os) ← handler_step i h s;
      Some (match n with
            | Continue h => (s <| runs ::= <[i := Some h]> |>, os)
            | Return => (s <| runs ::= <[i := None]> |>, os)
            | Throw e => let '(s, os') := die e s in (s, os ++ os')
            end)
  | Some None =>
      r ← loops (multi (sys s)) !! i; p ← pcs (sys s) !! i;
      '(k, p, es) ← loop_step strerror (kern s) r p;
      let moved := in_kernel k s <| sys ::= λ m, m <| pcs ::= <[i := p]> |> |> in
      match es with
      | [LoopThrew e] => Some (die e s)
      | [Invoked e cb] =>
          c ← objects s !! Z.to_nat cb;
          Some (moved <| runs ::= <[i := Some (handleConnection e (Z.to_nat cb) c)]> |>, [])
      | _ => Some (moved, [])
      end
  end.

(** One step of the callback of the listening socket. *)
Definition acceptor_step (a : acceptor) (s : server)
    : option (server * next acceptor * list observation) :=
  match a with
  | Accept =>
      match accept4 (kern s) (listen_fd s) with
      | (k, inr e) =>
          Some (in_kernel k s, if bool_decide (e = EAGAIN) then Return else Continue Accept, [])
      | (k, inl d) =>
          Some (in_kernel k s <| objects ::= λ l, l ++ [mkConnection d [] false] |>,
                Continue (AddConnection (length (objects s))), [Accepted d])
      end
  | AddConnection o =>
      c ← objects s !! o;
      '(m, r) ← call_step None 0 (CallAdd (conn_fd c) read_edge (Some (Z.of_nat o))) (sys s);
      Some (s <| sys := m |>,
            match r with
            | None => Continue a
            | Some es => match thrown es with
                         | Some e => Continue (Unwind o e)
                         | None => Continue Accept
                         end
            end, [])
  | Unwind o e =>
      c ← objects s !! o;
      Some (in_kernel (destroy_connection (kern s) c) s, Throw e,
            if closed c then [] else [Closed (conn_fd c)])
  end.

(** The main thread; [spawn]: what creating a thread throws, if it does. *)
Definition main_step (spawn : option string) (s : server) : option (server * list observation) :=
  match main s with
  | Start =>
      '(m, r) ← call_step (RuntimeError <$> spawn) 0 CallStart (sys s);
      let s := s <| sys := m |> in
      Some match r with
           | None => (s, [])
           | Some es =>
               match thrown es with Some e => die e s | None => (s <| main := MakeLoop |>, []) end
           end
  | MakeLoop =>
      Some match EventLoop.make strerror (kern s) 128 0 with
           | (k, Throws e) => die e s
           | (k, Returns r) => (in_kernel k s <| main := AddListen r |>, [])
           end
  | AddListen r =>
      Some match EventLoop.add strerror (kern s) r (listen_fd s) read_edge (Some accept_cb) with
           | (k, _, Throws e) => die e s
           | (k, r, Returns _) =>
               let '(r, p) := EventLoop.run_start r in
               (in_kernel k s <| main := Serve r p None |>, [])
           end
  | Serve r p (Some a) =>
      '(s, n, os) ← acceptor_step a s;
      Some (match n with
            | Continue a => (s <| main := Serve r p (Some a) |>, os)
            | Return => (s <| main := Serve r p None |>, os)
            | Throw e => let '(s, os') := die e s in (s, os ++ os')
            end)
  | Serve r p None =>
      '(k, p, es) ← EventLoop.loop strerror (kern s) r p;
      Some match es with
           | [LoopThrew e] => die e s
           | [Invoked _ _] => (in_kernel k s <| main := Serve r p (Some Accept) |>, [])
           | _ => (in_kernel k s <| main := Serve r p None |>, [])
           end
  end.

(** ** Construction *)

Definition mt_main (hardware : Z) (k : K) (arg : option Z) : K * outcome server :=
  match createListenSocket k (default 9090 arg) with
  | (k, Throws e) => (k, Throws e)
  | (k, Returns l) =>
      match MultiReactor.make strerror hardware k worker_config with
      | (k, Throws e) => (destroy_fd k l, Throws e)
      | (k, Returns m) =>
          let n := length (loops m) in
          (k, Returns (mkServer
            (mkMSystem K k m (replicate n Outside) (replicate n 0%nat) [] false
               (replicate (S n) Idle))
            l Start [] (replicate n None) false))
      end
  end.

(** ** The interleaving *)

Inductive mt_step : server → list observation → server → Prop :=
  | mt_main_thread spawn s s' os :
      dead s = false → main_step spawn s = Some (s', os) → mt_step s os s'
  | mt_worker i s s' os :
      dead s = false → worker_step i s = Some (s', os) → mt_step s os s'
  | mt_wake i s r n :
      dead s = false → loops (multi (sys s)) !! i = Some r → pending (sys s) !! i = Some (S n) →
      mt_step s [] (s <| sys ::= λ m, m <| kernel_ := EventLoop.wake (kernel_ m) r |>
                                        <| pending := <[i := n]> (pending m) |> |>)
  | mt_arrives k' s :
      dead s = false → inner (kern s) k' → mt_step s [] (in_kernel k' s).

Definition mt_init (hardware : Z) (s : server) : Prop :=
  0 ≤ hardware ∧ ∃ k arg k', mt_main hardware k arg = (k', Returns s).

Definition mt_lts (hardware : Z) : lts server observation := Lts (mt_init hardware) mt_step.

(** The debts of the single-threaded server; this one builds its main loop when
    it is already running, and may find no memory for it then. *)
Inductive mt_debt_step : owed → list observation → owed → Prop :=
  | mt_debt a os a' : debt_step a os a' → mt_debt_step a os a'
  | mt_no_memory : mt_debt_step (Some ∅) [Died BadAlloc] None.

Definition mt_debt_lts : lts owed observation := Lts (λ a, a = Some ∅) mt_debt_step.
End server.

(** ** The calls, as the tables see them *)

Section theory.
Context `{SocketLaws K} `{!KernelLaws K} (strerror : errno → string).
Local Abbreviation msystem := (msystem K).
Local Abbreviation server := (@server K).
Local Abbreviation call_step := (call_step strerror).
Implicit Types (m : msystem) (s : server).

(** Loop [i] watches [d] for connection [o]; nobody watches [d]. *)
Definition watched_by m (i : nat) (d : Z) (o : nat) : Prop :=
  ∃ r w, loops (multi m) !! i = Some r ∧ watchers r !! d = Some w ∧ callback w = Z.of_nat o.
Definition unwatched m (d : Z) : Prop :=
  ∀ i r, loops (multi m) !! i = Some r → watchers r !! d = None.

(** A call on [d] leaves the rest of the process alone. *)
Record moved m m' (d : Z) : Prop := {
  mv_files : same_files (kernel_ m) (kernel_ m');
  mv_pcs : pcs m' = pcs m;
  mv_count : count m' = count m;
  mv_loops i r' : loops (multi m') !! i = Some r' →
    ∃ r, loops (multi m) !! i = Some r ∧ epoll_fd r' = epoll_fd r ∧ wake_fd r' = wake_fd r
      ∧ ∀ x, x ≠ d → watchers r' !! x = watchers r !! x;
}.

Definition runtime (e : exn) : Prop := ∃ what, e = RuntimeError what.

Lemma watched_once_by m d i1 i2 o1 o2 :
  owners_ok m → watched_by m i1 d o1 → watched_by m i2 d o2 → i1 = i2 ∧ o1 = o2.
Proof.
  intros Hok (r1 & w1 & L1 & W1 & C1) (r2 & w2 & L2 & W2 & C2).
  assert (i1 = i2) as -> by (eapply watched_once; eauto). simplify_eq. split; [done|]. lia.
Qed.

Lemma watched_loop m d i1 i2 o1 o2 :
  owners_inv m → watched_by m i1 d o1 → watched_by m i2 d o2 → i1 = i2.
Proof. intros [Hok _] H1 H2. by destruct (watched_once_by _ _ _ _ _ _ Hok H1 H2). Qed.

Lemma watched_unwatched m i d o : watched_by m i d o → unwatched m d → False.
Proof. intros (r & w & L & W & _) Hu. specialize (Hu _ _ L). congruence. Qed.

Lemma unwatched_placed m d o l : placed m d o l → unwatched m d → l = None.
Proof.
  intros (_ & Hl & Hlt) Hu. destruct l as [i|]; [|done].
  destruct (lookup_lt_is_Some_2 (loops (multi m)) i) as [r Hr]; [apply Hlt; by left|].
  specialize (Hu _ _ Hr). destruct (proj2 (Hl _ _ Hr) eq_refl). congruence.
Qed.

Lemma placed_unwatched m d o : placed m d o None → unwatched m d.
Proof. intros (_ & Hl & _) i r Hr. apply eq_None_not_Some. by intros ?%(Hl _ _ Hr). Qed.

Lemma watched_placed m i d o own l : placed m d own l → watched_by m i d o → l = Some i.
Proof. intros (_ & Hl & _) (r & w & Hr & Hw & _). apply (Hl _ _ Hr). eauto. Qed.

(** Every step of a call is one of the reactor's interleaving. *)
Lemma call_step_multi spawn j e m m' r :
  call_step spawn j e m = Some (m', r) → (∀ i, loop_of j = Some i → in_callback m i) →
  ∃ c c' es, clients m !! j = Some c ∧ multi_step strerror m es m'
    ∧ clients m' = <[j := c']> (clients m) ∧ r = match c' with Idle => Some es | _ => None end.
Proof.
  unfold Mt.call_step. intros Hc Hin. destruct (clients m !! j) as [c|] eqn:Hj; [|done].
  simpl in Hc. assert (c = Idle ∨ c ≠ Idle) as [->|Hne] by (destruct c; auto).
  - destruct (enter m e) as [[[m1 c'] es]|] eqn:He; [|done]. injection Hc as <- <-.
    exists Idle, c', es. split_and!; try done. by eapply multi_enter.
  - assert (match c with Idle => enter m e | _ => client_step strerror spawn (loop_of j) m c end
      = client_step strerror spawn (loop_of j) m c) as Heq by (by destruct c).
    rewrite Heq in Hc.
    destruct (client_step strerror spawn (loop_of j) m c) as [[[m1 c'] es]|] eqn:He; [|done].
    injection Hc as <- <-. exists c, c', es. split_and!; try done. by eapply multi_client.
Qed.

Lemma moved_refl m m' d :
  kernel_ m' = kernel_ m → pcs m' = pcs m → loops (multi m') = loops (multi m) → moved m m' d.
Proof. intros Hk Hp Hl. split; unfold count; rewrite ?Hk, ?Hl; [done|done|done|]. eauto 10. Qed.

(** A call on loop [i], made by the one who is at work on [d]. *)
Lemma loop_call_moved m i c m' o :
  loop_call strerror m i c = Some (m', o) →
  ∃ r r', loops (multi m) !! i = Some r ∧ loops (multi m') = <[i := r']> (loops (multi m))
    ∧ owners (multi m') = owners (multi m) ∧ clients m' = clients m
    ∧ answers (wake_fd r) (watchers r) c o (watchers r')
    ∧ moved m m' match c with Add d _ _ | Modify d _ | Remove d => d end.
Proof.
  intros Hc. unfold loop_call in Hc.
  destruct (loops (multi m) !! i) as [r|] eqn:Hr; [|done].
  destruct (pcs m !! i) as [p|]; [|done]. destruct (holds_mutex p); [done|].
  destruct (locked strerror eventLoop (kernel_ m) r c) as [[k1 r1] o1] eqn:Hl.
  injection Hc as <- <-.
  pose proof (locked_answers _ _ _ _ _ _ _ _ Hl) as (Hw & _ & He & Hwf & _).
  pose proof (locked_frame _ _ _ _ _ _ _ _ Hl) as (Hf & _).
  exists r, r1. split_and!; try done. split; simpl; try done; [apply length_insert|].
  intros j x Hj. apply list_lookup_insert_Some in Hj as [(<- & <- & _)|[Hne Hj]]; [|eauto 10].
  exists r. split_and!; try done. intros x Hx. by eapply answers_other.
Qed.


(** *** [remove], [modify] and [add], one critical section at a time *)

Definition call_at (j : nat) m (c : client) : Prop := clients m !! j = Some c.

Lemma on_loop_lookup m m' i r r' j x :
  loops (multi m) !! i = Some r → loops (multi m') = <[i := r']> (loops (multi m)) →
  loops (multi m') !! j = Some x → x = r' ∧ j = i ∨ loops (multi m) !! j = Some x ∧ j ≠ i.
Proof. intros Hr -> [(<- & <- & _)|[? ?]]%list_lookup_insert_Some; auto. Qed.

Lemma call_remove m j i d m' res :
  call_step None j (CallRemove d) m = Some (m', res) →
  (clients m !! j = Some Idle ∧ placed m d (Some i) (Some i)
   ∨ clients m !! j = Some (RemoveLoop d i) ∧ placed m d None (Some i)) →
  moved m m' d ∧ ∃ c', clients m' = <[j := c']> (clients m)
    ∧ match res with
      | None => c' = RemoveLoop d i ∧ loops (multi m') = loops (multi m)
      | Some es => c' = Idle ∧ unwatched m' d ∧ ∀ e, thrown es = Some e → runtime e
      end.
Proof.
  unfold Mt.call_step. intros Hc [[Hj Hp]|[Hj Hp]]; rewrite Hj in Hc; simpl in Hc.
  - rewrite (proj1 Hp) in Hc. simplify_eq/=. split; [by apply moved_refl|]. eauto.
  - destruct (loop_call _ _ _ _) as [[m1 o]|] eqn:Hl; [|done]. simplify_eq/=.
    apply loop_call_moved in Hl as (r & r' & Hr & Hl & Ho & Hcl & Ha & [M1 M2 M3 M4]).
    split; [by split|]. eexists. split; [done|]. split; [done|].
    destruct (proj2 (proj1 (proj2 Hp) _ _ Hr) eq_refl) as [w Hw]. simpl in Ha.
    assert (watchers r' !! d = None ∧ ∀ e, o = Throws e → runtime e) as [Hd He].
    { destruct o as [b|[what|what|what|]]; try done;
        destruct Ha as [? ->]; rewrite lookup_delete_eq; split; try done;
        intros e [= <-]; by exists what. }
    split.
    + intros x rx Hx.
      destruct (on_loop_lookup _ _ _ _ _ _ _ Hr Hl Hx) as [[-> ->]|[Hx' Hne]]; [done|].
      apply eq_None_not_Some. intros Hs%(proj1 (proj2 Hp) _ _ Hx'). congruence.
    + intros x. destruct o; simpl; [done|]. intros [= ->]. by apply He.
Qed.

Lemma call_modify m j i d ev m' res :
  call_step None j (CallModify d ev) m = Some (m', res) →
  (clients m !! j = Some Idle ∨ ∃ ev', clients m !! j = Some (ModifyLoop d ev' i)) →
  placed m d (Some i) (Some i) →
  moved m m' d ∧ (∀ k o, watched_by m k d o → watched_by m' k d o)
  ∧ (∀ k r' w', loops (multi m') !! k = Some r' → watchers r' !! d = Some w' →
       ∃ r w, loops (multi m) !! k = Some r ∧ watchers r !! d = Some w ∧ callback w = callback w')
  ∧ ∃ c', clients m' = <[j := c']> (clients m)
    ∧ match res with
      | None => ∃ ev', c' = ModifyLoop d ev' i
      | Some es => c' = Idle ∧ ∀ e, thrown es = Some e → runtime e
      end.
Proof.
  unfold Mt.call_step. intros Hc Hj Hp. destruct Hj as [Hj|[ev' Hj]]; rewrite Hj in Hc; simpl in Hc.
  - rewrite (proj1 Hp) in Hc. simplify_eq/=. split; [by apply moved_refl|].
    split; [done|]. split; [eauto 6|]. eauto.
  - destruct (loop_call _ _ _ _) as [[m1 o]|] eqn:Hl; [|done]. simplify_eq/=.
    apply loop_call_moved in Hl as (r & r' & Hr & Hl & Ho & Hcl & Ha & [M1 M2 M3 M4]).
    split; [by split|].
    destruct (proj2 (proj1 (proj2 Hp) _ _ Hr) eq_refl) as [w Hw]. simpl in Ha.
    assert ((∃ w', watchers r' !! d = Some w' ∧ callback w' = callback w)
      ∧ ∀ e, o = Throws e → runtime e) as [(w' & Hd & Hcb) He].
    { destruct o as [b|[what|what|what|]]; try done.
      - destruct Ha as (_ & w0 & Hw0 & ->). rewrite lookup_insert_eq. simplify_eq. by split; [eexists|].
      - destruct Ha as [Ha _]. congruence.
      - destruct Ha as [_ ->]. split; [eauto|]. intros e [= <-]. by exists what. }
    split_and!.
    + intros k x (rx & wx & Hx & Hwx & Hcx). destruct (decide (k = i)) as [->|Hne].
      * simplify_eq. exists r', w'. simpl. rewrite Hl, list_lookup_insert_eq by (by eapply lookup_lt_Some).
        split_and!; [done|done|congruence].
      * exists rx, wx. simpl. by rewrite Hl, list_lookup_insert_ne.
    + intros k rx wx Hx Hwx.
      destruct (on_loop_lookup _ _ _ _ _ _ _ Hr Hl Hx) as [[-> ->]|[Hx' Hne]]; [|eauto].
      simplify_eq. eauto.
    + eexists. split; [done|]. split; [done|]. destruct o; simpl; [done|].
      intros x [= ->]. by apply He.
Qed.

(** Where client [j] is in a call [add] of [d] that is under way. *)
Definition adding m (d ev : Z) (cb : Callback) (c : client) : Prop :=
  unwatched m d
  ∧ match c with
    | Idle => True
    | AddOwner d' ev' cb' i | AddLoop d' ev' cb' i => d' = d ∧ ev' = ev ∧ cb' = cb
    | AddRollback d' e => d' = d ∧ runtime e
    | _ => False
    end.

Lemma call_add m j d ev cb m' res c :
  call_step None j (CallAdd d ev (Some cb)) m = Some (m', res) →
  clients m !! j = Some c → adding m d ev cb c → 0 ≤ d → owners_ok m →
  (∀ i r, loops (multi m) !! i = Some r → wake_fd r ≠ d) →
  moved m m' d ∧ ∃ c', clients m' = <[j := c']> (clients m)
    ∧ match res with
      | None => adding m' d ev cb c' ∧ c' ≠ Idle
      | Some es => c' = Idle
        ∧ match thrown es with
          | Some e => runtime e ∧ unwatched m' d
          | None => ∃ i, (∃ r', loops (multi m') !! i = Some r'
                          ∧ watchers r' !! d = Some (mkWatcher ev cb))
              ∧ ∀ k r', k ≠ i → loops (multi m') !! k = Some r' → watchers r' !! d = None
          end
      end.
Proof.
  unfold Mt.call_step. intros Hc Hj [Hun Ha] Hd Hok Hwf. rewrite Hj in Hc. simpl in Hc.
  destruct c as [|d' ev' cb' i|d' ev' cb' i|d' e| | | | | | | | |]; try done.
  - simpl in Hc. unfold add_check in Hc. rewrite (proj2 (Z.ltb_ge d 0)) in Hc by done.
    destruct (MultiReactor.running (multi m)); simplify_eq/=.
    + split; [by apply moved_refl|]. eexists. split; [done|]. done.
    + split; [by apply moved_refl|]. eexists. split; [done|]. split; [done|]. split; [by eexists|done].
  - destruct Ha as (-> & -> & ->). simpl in Hc.
    destruct (owners_busy _ Hok _ _ d Hj eq_refl) as (_ & o & Hp).
    pose proof (unwatched_placed _ _ _ _ Hp Hun) as ->. destruct Hp as [Ho _].
    unfold add_owner in Hc. rewrite Ho in Hc.
    simplify_eq/=. split; [by apply moved_refl|]. eexists. split; [done|]. done.
  - destruct Ha as (-> & -> & ->). simpl in Hc.
    destruct (loop_call _ _ _ _) as [[m1 o]|] eqn:Hl; [|done].
    apply loop_call_moved in Hl as (r & r' & Hr & Hl & Ho & Hcl & Ha & [M1 M2 M3 M4]).
    pose proof (Hun _ _ Hr) as Hn. pose proof (Hwf _ _ Hr) as Hne. simpl in Ha.
    destruct o as [b|[what|what|what|]]; simplify_eq/=; try done.
    + split; [by split|]. eexists. split; [done|]. split; [done|]. exists i. split.
      * exists r'. rewrite Hl, list_lookup_insert_eq by (by eapply lookup_lt_Some).
        destruct Ha as (_ & _ & _ & _ & x & [= <-] & ->). by rewrite lookup_insert_eq.
      * intros k x Hk Hx. destruct (on_loop_lookup m m1 _ _ _ _ _ Hr Hl Hx) as [[-> ->]|[? _]]; [done|].
        by eapply Hun.
    + destruct Ha as [[?|[?|[?|[? ?]]]] _]; exfalso; try lia; congruence.
    + split; [by split|]. eexists. split; [done|]. split; [|done]. split; [|split; [done|by eexists]].
      intros k x Hx. destruct (on_loop_lookup m m1 _ _ _ _ _ Hr Hl Hx) as [[-> ->]|[? _]].
      * destruct Ha as [_ ->]. done.
      * by eapply Hun.
  - destruct Ha as (-> & He). simplify_eq/=. split; [by apply moved_refl|].
    eexists. split; [done|]. done.
Qed.

(** *** [start] *)

(** The main thread is in [start]. *)
Definition starting (c : client) : Prop :=
  match c with
  | Idle | StartWaiting | MultiReactor.Starting _ => True
  | Unwinding _ e | UnwindJoining _ e => runtime e
  | _ => False
  end.

Lemma call_start spawn m j c m' res :
  call_step (RuntimeError <$> spawn) j CallStart m = Some (m', res) →
  clients m !! j = Some c → starting c →
  kernel_ m' = kernel_ m ∧ count m' = count m
  ∧ (∀ i r', loops (multi m') !! i = Some r' → ∃ r, loops (multi m) !! i = Some r
       ∧ epoll_fd r' = epoll_fd r ∧ wake_fd r' = wake_fd r ∧ watchers r' = watchers r)
  ∧ (∀ i p', pcs m' !! i = Some p' → pcs m !! i = Some p' ∨ p' = RunCheck)
  ∧ ∃ c', clients m' = <[j := c']> (clients m) ∧ busy_with c' = None
    ∧ match res with
      | None => starting c'
      | Some es => c' = Idle ∧ ∀ e, thrown es = Some e → runtime e
      end.
Proof.
  unfold Mt.call_step. intros Hc Hj Hst. rewrite Hj in Hc. simpl in Hc.
  assert (∀ i r', loops (multi m) !! i = Some r' → ∃ r, loops (multi m) !! i = Some r
    ∧ epoll_fd r' = epoll_fd r ∧ wake_fd r' = wake_fd r ∧ watchers r' = watchers r) as Hsame by eauto 6.
  destruct c as [| | | | | | |x|x e|x e| | |]; try done; simpl in Hc.
  - simplify_eq/=. split_and!; try done; [by auto|]. by eexists.
  - destruct (lifecycle m); [done|].
    destruct (is_running _); [|destruct (stopped_after_start _)]; simplify_eq/=;
      (split; [done|split; [done|split; [done|split; [by auto|]]]]);
      (eexists; split; [done|split; [done|]]); try done;
      (split; [done|]); intros e [= <-]; by eexists.
  - destruct (x <? count m)%nat; [destruct spawn as [what|]|]; simplify_eq/=; split_and!; eauto;
      try (eexists; split_and!; [done..|]; try done; by eexists).
    intros i p' [(_ & <- & _)|[_ ?]]%list_lookup_insert_Some; auto.
  - destruct (x <? count m)%nat; simplify_eq/=; split_and!; eauto;
      try (by eexists; split_and!).
    + apply length_alter.
    + intros i r'. rewrite list_lookup_alter. destruct (decide (x = i)) as [->|]; [|eauto].
      intros (r & Hr & ->)%fmap_Some. eauto 6.
  - destruct (threads (multi m) !! x) as [i|]; [destruct (pcs m !! i) as [[]|]; try done|];
      simplify_eq/=; (split; [done|split; [done|split; [done|split; [by auto|]]]]);
      (eexists; split; [done|split; [done|]]); try done.
    split; [done|]. by intros e' [= <-].
Qed.

(** ** The invariant *)

(** [live]: the connection that each open descriptor of a client belongs to;
    [B]: the other descriptors. *)
Implicit Types (B : gset Z) (live : gmap Z nat) (objs : list Connection)
  (rs : list (option handler)) (mn : main_pc).

Definition closing (h : handler) : bool :=
  match h with CloseRemove _ | CloseFd _ => true | _ => false end.

(** Where the thread inside callback [h] may be in a call of the reactor. *)
Definition calling (d : Z) (i : nat) (h : handler) (cl : client) : Prop :=
  cl = Idle ∨ match h with
              | SetInterest _ => ∃ ev, cl = ModifyLoop d ev i
              | CloseRemove _ => cl = RemoveLoop d i
              | _ => False
              end.

Record run_ok live m objs (i : nat) (h : handler) (c : Connection) : Prop := {
  r_object : objs !! object h = Some c;
  r_live : live !! conn_fd c = Some (object h);
  r_closed : closed c = closing h;
  r_call : ∃ cl, clients m !! S i = Some cl ∧ calling (conn_fd c) i h cl;
  r_pc : ∃ b todo n, pcs m !! i = Some (InCallback b todo n) ∧ (conn_fd c ∉ fd ∘ fst <$> todo);
  r_watch : match h with
            | CloseFd _ => unwatched m (conn_fd c)
            | _ => watched_by m i (conn_fd c) (object h)
            end;
}.

(** The calls of a callback are made inside it. *)
Lemma run_in_callback live m objs i h c :
  run_ok live m objs i h c → ∀ x, loop_of (S i) = Some x → in_callback m x.
Proof.
  intros [_ _ _ _ (b & todo & n & Hp & _) _] x [= <-]. by exists (InCallback b todo n).
Qed.

Lemma callback_over m i : clients m !! S i = Some Idle → calls_over m i = true.
Proof.
  intros Hi. apply forallb_forall. intros [j c] Hin%list_elem_of_In.
  apply list_elem_of_lookup in Hin as [x Hx]. rewrite list_lookup_imap in Hx.
  destruct (clients m !! x) as [c'|] eqn:Hc; simplify_eq/=. case_bool_decide as Hl; [|done].
  destruct j as [|j]; [done|]. injection Hl as ->. by simplify_eq.
Qed.

Lemma main_no_callback m : ∀ x, loop_of 0 = Some x → in_callback m x.
Proof. done. Qed.

(** The loop that the main thread runs, beside those of the workers. *)
Record loop_ok B m (r : State) : Prop := {
  l_eventfd : is_eventfd (kernel_ m) (wake_fd r) = true;
  l_fds : 0 ≤ wake_fd r ∧ (epoll_fd r ∈ B) ∧ wake_fd r ∈ B;
  l_apart i x : loops (multi m) !! i = Some x → epoll_fd x ≠ epoll_fd r ∧ wake_fd x ≠ wake_fd r;
}.

(** The connection the main thread has in hand. *)
Definition in_hand mn : option nat :=
  match mn with Serve _ _ (Some (AddConnection o | Unwind o _)) => Some o | _ => None end.

Definition main_ok B live m (l : Z) objs mn : Prop :=
  match mn with
  | Start => ∃ cl, clients m !! 0%nat = Some cl ∧ starting cl ∧ live = ∅
  | MakeLoop => clients m !! 0%nat = Some Idle ∧ live = ∅
  | AddListen r => clients m !! 0%nat = Some Idle ∧ live = ∅
      ∧ loop_ok B m r ∧ watchers r = ∅ ∧ l ≠ wake_fd r
  | Serve r _ (Some (AddConnection o)) => loop_ok B m r
      ∧ ∃ cl c, clients m !! 0%nat = Some cl ∧ objs !! o = Some c
        ∧ live !! conn_fd c = Some o ∧ closed c = false
        ∧ adding m (conn_fd c) read_edge (Z.of_nat o) cl
  | Serve r _ (Some (Unwind o e)) => loop_ok B m r ∧ clients m !! 0%nat = Some Idle
      ∧ ∃ c, objs !! o = Some c ∧ live !! conn_fd c = Some o ∧ closed c = false
        ∧ unwatched m (conn_fd c) ∧ runtime e
  | Serve r _ _ => loop_ok B m r ∧ clients m !! 0%nat = Some Idle
  end.

(** The batch of loop [i] at [p] names connections that the loop watches. *)
Definition batch_ok m (i : nat) (p : loop_pc) : Prop :=
  NoDup (upcoming p)
  ∧ ∀ e cb, (e, cb) ∈ entries p → ∃ o, cb = Z.of_nat o ∧ watched_by m i (fd e) o.

Record ok B live m (l : Z) mn objs rs : Prop := {
  k_multi : multi_ok strerror m;
  k_owners : owners_inv m;
  k_len : length (clients m) = S (count m) ∧ length rs = count m;
  k_fds : open_fds (kernel_ m) = B ∪ dom live ∧ B ## dom live ∧ 0 ≤ l ∧ l ∈ B;
  k_loops i r : loops (multi m) !! i = Some r → (epoll_fd r ∈ B) ∧ wake_fd r ∈ B;
  k_live d o : live !! d = Some o → 0 ≤ d ∧ ∃ c, objs !! o = Some c ∧ conn_fd c = d;
  k_watch i r d w : loops (multi m) !! i = Some r → watchers r !! d = Some w →
    ∃ o c, callback w = Z.of_nat o ∧ live !! d = Some o ∧ objs !! o = Some c
      ∧ (closed c = true → rs !! i = Some (Some (CloseRemove o)));
  k_batch i p : pcs m !! i = Some p → batch_ok m i p;
  k_runs i h : rs !! i = Some (Some h) → ∃ c, run_ok live m objs i h c;
  k_once i j h h' : rs !! i = Some (Some h) → rs !! j = Some (Some h') →
    object h = object h' → i = j;
  k_rest i : rs !! i = Some None → clients m !! S i = Some Idle;
  k_main : main_ok B live m l objs mn;
  k_gone o c : objs !! o = Some c → closed c = false → live !! conn_fd c = Some o;
  k_held d o : live !! d = Some o →
    (∃ i, watched_by m i d o) ∨ (∃ i, rs !! i = Some (Some (CloseFd o))) ∨ in_hand mn = Some o;
}.

(** *** Frames *)

Lemma watched_same m m' i d o :
  loops (multi m') = loops (multi m) → watched_by m i d o → watched_by m' i d o.
Proof. unfold watched_by. by intros ->. Qed.
Lemma unwatched_same m m' d :
  loops (multi m') = loops (multi m) → unwatched m d → unwatched m' d.
Proof. unfold unwatched. by intros ->. Qed.

Lemma moved_watched m m' d i x o :
  moved m m' d → x ≠ d → watched_by m i x o → watched_by m' i x o.
Proof.
  intros [_ _ Hc Hl] Hne (r & w & Hr & Hw & Ho).
  destruct (lookup_lt_is_Some_2 (loops (multi m')) i) as [r' Hr'].
  { apply lookup_lt_Some in Hr. unfold count in Hc. lia. }
  destruct (Hl _ _ Hr') as (r0 & Hr0 & _ & _ & Hx). simplify_eq.
  exists r', w. by rewrite Hx.
Qed.

Lemma moved_unwatched m m' d x : moved m m' d → x ≠ d → unwatched m x → unwatched m' x.
Proof.
  intros [_ _ _ Hl] Hne Hu i r' Hr'. destruct (Hl _ _ Hr') as (r & Hr & _ & _ & Hx).
  rewrite Hx by done. by eapply Hu.
Qed.

Definition eventfds_kept B (k k' : K) : Prop :=
  ∀ d, d ∈ B → is_eventfd k' d = is_eventfd k d.

Lemma files_kept B k k' : same_files k k' → eventfds_kept B k k'.
Proof. intros [_ He] d _. apply He. Qed.

Lemma loop_ok_frame B m m' r :
  loop_ok B m r → eventfds_kept B (kernel_ m) (kernel_ m') →
  (∀ i x', loops (multi m') !! i = Some x' → ∃ x, loops (multi m) !! i = Some x
     ∧ epoll_fd x' = epoll_fd x ∧ wake_fd x' = wake_fd x) →
  loop_ok B m' r.
Proof.
  intros [H1 H2 H3] He Hl. split; [by rewrite He by apply H2|done|].
  intros i x' Hx. destruct (Hl _ _ Hx) as (x & Hx' & -> & ->). by apply (H3 i).
Qed.

Lemma run_ok_frame live live' m m' objs objs' i h c :
  run_ok live m objs i h c → objs' !! object h = objs !! object h →
  live' !! conn_fd c = live !! conn_fd c →
  clients m' !! S i = clients m !! S i → pcs m' !! i = pcs m !! i →
  (∀ k o, watched_by m k (conn_fd c) o → watched_by m' k (conn_fd c) o) →
  (unwatched m (conn_fd c) → unwatched m' (conn_fd c)) →
  run_ok live' m' objs' i h c.
Proof.
  intros [H1 H2 H3 H4 H5 H6] Ho Hl Hc Hp Hw Hu.
  split; rewrite ?Ho, ?Hl, ?Hc, ?Hp; try done. destruct h; auto.
Qed.

(** The main thread sees a step of another. *)
Lemma main_ok_frame B live live' m m' l objs objs' mn :
  main_ok B live m l objs mn → eventfds_kept B (kernel_ m) (kernel_ m') →
  clients m' !! 0%nat = clients m !! 0%nat →
  (∀ i x', loops (multi m') !! i = Some x' → ∃ x, loops (multi m) !! i = Some x
     ∧ epoll_fd x' = epoll_fd x ∧ wake_fd x' = wake_fd x) →
  (live = ∅ → live' = ∅) →
  (∀ o c, in_hand mn = Some o → objs !! o = Some c → closed c = false →
     live !! conn_fd c = Some o → unwatched m (conn_fd c) →
     objs' !! o = Some c ∧ live' !! conn_fd c = Some o ∧ unwatched m' (conn_fd c)) →
  main_ok B live' m' l objs' mn.
Proof.
  intros Hmn Hf Hc Hl Hlv Hx.
  destruct mn as [| |r|r p [[|o|o e]|]]; simpl in *; rewrite Hc.
  - destruct Hmn as (cl & ? & ? & ?). eauto.
  - destruct Hmn. auto.
  - destruct Hmn as (? & ? & ? & ? & ?). split_and!; eauto using loop_ok_frame.
  - destruct Hmn. eauto using loop_ok_frame.
  - destruct Hmn as (? & cl & c & ? & Ho & Hlo & Hcl & [Hu Ha]).
    destruct (Hx o c) as (? & ? & ?); try done. split; [by eapply loop_ok_frame|]. exists cl, c.
    by split_and!.
  - destruct Hmn as (? & ? & c & ? & ? & ? & ? & ?).
    destruct (Hx o c) as (? & ? & ?); try done. split_and!; eauto using loop_ok_frame.
    exists c. done.
  - destruct Hmn. eauto using loop_ok_frame.
Qed.

(** The kernel and the points of loops that run no callback change. *)
Lemma ok_quiet B live m l mn objs rs m' mn' :
  ok B live m l mn objs rs → multi_ok strerror m' → owners_inv m' →
  same_files (kernel_ m) (kernel_ m') → clients m' = clients m →
  loops (multi m') = loops (multi m) →
  (∀ i h, rs !! i = Some (Some h) → pcs m' !! i = pcs m !! i) →
  (∀ i p, pcs m' !! i = Some p → batch_ok m i p) →
  main_ok B live m' l objs mn' → in_hand mn' = in_hand mn →
  ok B live m' l mn' objs rs.
Proof.
  intros [H1 H2 H3 H4 H5 H6 H7 H8 H9 H9' H10 H11 H12 H13] Hm Ho Hf Hcl Hl Hp Hb Hmn Hh.
  split; unfold count in *; rewrite ?Hcl, ?Hl, ?Hh; try done.
  - destruct Hf as [-> _]. done.
  - intros i p Hi. destruct (Hb _ _ Hi) as [? Hen]. split; [done|]. intros e cb Hin.
    destruct (Hen _ _ Hin) as (o & ? & ?). eauto using watched_same.
  - intros i h Hi. destruct (H9 _ _ Hi) as [c Hr]. exists c.
    eapply run_ok_frame; [done|done|done|by rewrite Hcl|by eapply Hp|intros k o|];
      [by apply watched_same|by apply unwatched_same].
  - intros d o Hd. destruct (H13 _ _ Hd) as [[i Hi]|?]; [left; eauto using watched_same|by right].
Qed.

(** *** Who is at work on a descriptor *)

Definition mine m (j : nat) (d : Z) : Prop :=
  (∃ i o, j = S i ∧ watched_by m i d o) ∨ j = 0%nat ∧ unwatched m d.

Lemma mine_once m j1 j2 d : owners_ok m → mine m j1 d → mine m j2 d → j1 = j2.
Proof.
  intros Hok [(i1 & o1 & -> & W1)|[-> U1]] [(i2 & o2 & -> & W2)|[-> U2]]; try done.
  - by destruct (watched_once_by _ _ _ _ _ _ Hok W1 W2) as [-> _].
  - by destruct (watched_unwatched _ _ _ _ W1 U2).
  - by destruct (watched_unwatched _ _ _ _ W2 U1).
Qed.

Lemma busy_mine B live m l mn objs rs j c d :
  ok B live m l mn objs rs → clients m !! j = Some c → busy_with c = Some d → mine m j d.
Proof.
  intros Hok Hj Hb. destruct j as [|i].
  - right. split; [done|]. pose proof (k_main _ _ _ _ _ _ _ Hok) as Hmn.
    destruct mn as [| |r|r p [[|o|o e]|]]; simpl in Hmn;
      try (by destruct Hmn as [? ?]; simplify_eq);
      try (by destruct Hmn as (? & ? & ?); simplify_eq).
    + destruct Hmn as (cl & ? & Hst & _). simplify_eq. by destruct c.
    + destruct Hmn as (_ & cl & c0 & ? & _ & _ & _ & Hu & Ha). simplify_eq.
      destruct c; try done; injection Hb as ->; by destruct Ha as [-> _].
  - left. destruct (rs !! i) as [[h|]|] eqn:Hr.
    + destruct (k_runs _ _ _ _ _ _ _ Hok _ _ Hr) as (c0 & [_ _ _ (cl & Hcl & Hca) _ Hw]).
      simplify_eq. destruct Hca as [->|Hca]; [done|].
      destruct h; try done; [destruct Hca as [ev ->]|subst c]; injection Hb as <-; eauto.
    + rewrite (k_rest _ _ _ _ _ _ _ Hok _ Hr) in Hj. by simplify_eq.
    + apply lookup_ge_None in Hr. apply lookup_lt_Some in Hj.
      pose proof (k_len _ _ _ _ _ _ _ Hok). lia.
Qed.

Lemma call_disciplined B live m l mn objs rs m' j c' d :
  ok B live m l mn objs rs → mine m j d → clients m' = <[j := c']> (clients m) →
  busy_with c' = None ∨ busy_with c' = Some d → disciplined m'.
Proof.
  intros Hok Hm Hcl Hc'. destruct (k_owners _ _ _ _ _ _ _ Hok) as (Ho & Hd & _).
  assert (∀ i c x, i ≠ j → clients m !! i = Some c → busy_with c = Some x →
    busy_with c' ≠ Some x) as Hfree.
  { intros i c x Hne Hi Hb Hx. destruct Hc' as [?|Hc']; [congruence|].
    apply Hne. eapply mine_once; [done|by eapply busy_mine|]. congruence. }
  intros j1 j2 c1 c2 x. rewrite Hcl. rewrite !list_lookup_insert_Some.
  intros [(<- & <- & _)|[N1 H1']] [(<- & <- & _)|[N2 H2']] B1 B2; try done.
  - by destruct (Hfree j2 c2 x).
  - by destruct (Hfree j1 c1 x).
  - eauto.
Qed.

Lemma idle_placed B live m l mn objs rs j d :
  ok B live m l mn objs rs → mine m j d → clients m !! j = Some Idle → ∃ o, placed m d o o.
Proof.
  intros Hok Hm Hj. destruct (k_owners _ _ _ _ _ _ _ Hok) as (Ho & _ & _).
  apply (owners_unused _ Ho d). intros i c Hi Hb.
  assert (i = j) as -> by (eapply mine_once; [done|by eapply busy_mine|done]). by simplify_eq.
Qed.

Lemma worker_placed B live m l mn objs rs i d o :
  ok B live m l mn objs rs → watched_by m i d o → clients m !! S i = Some Idle →
  placed m d (Some i) (Some i).
Proof.
  intros Hok Hw Hi. destruct (idle_placed _ _ _ _ _ _ _ (S i) d Hok) as [x Hp]; [by left; eauto|done|].
  by rewrite (watched_placed _ _ _ _ _ _ Hp Hw) in Hp.
Qed.

(** The sockets, the main thread's loop and the rest of the process work beside
    the reactor. *)
Lemma ok_elsewhere B live m l mn objs rs k' :
  ok B live m l mn objs rs → elsewhere_all (kernel_ m) k' (multi m) →
  multi_ok strerror (m <| kernel_ := k' |>) ∧ owners_inv (m <| kernel_ := k' |>).
Proof.
  intros Hok He. pose proof (multi_elsewhere strerror k' m He) as Hst. split.
  - eapply multi_step_ok; [apply Hok|done].
  - eapply owners_step; [apply Hok|done|]. apply (k_owners _ _ _ _ _ _ _ Hok).
Qed.

Lemma inner_elsewhere k k' (m : Reactor) : inner k k' → elsewhere_all k k' m.
Proof. intros ((_ & He) & Hi & Hc) i r _. unfold elsewhere. by rewrite Hi, Hc, He. Qed.

(** *** The callbacks *)

Lemma run_watched live m objs i j h c o :
  owners_ok m → run_ok live m objs j h c → watched_by m i (conn_fd c) o → j = i.
Proof.
  intros Hok [_ _ _ _ _ Hw] Hi.
  destruct h; try (by destruct (watched_once_by _ _ _ _ _ _ Hok Hw Hi)).
  by destruct (watched_unwatched _ _ _ _ Hi Hw).
Qed.

Definition once rs : Prop :=
  ∀ i j h h', rs !! i = Some (Some h) → rs !! j = Some (Some h') → object h = object h' → i = j.

Lemma once_insert rs i h h' :
  once rs → rs !! i = Some (Some h) → object h' = object h → once (<[i := Some h']> rs).
Proof.
  intros Ho Hi Hob a b x y Ha Hb Hxy.
  apply list_lookup_insert_Some in Ha as [(<- & [= <-] & _)|[Na Ha]];
    apply list_lookup_insert_Some in Hb as [(<- & [= <-] & _)|[Nb Hb]]; try done.
  - apply (Ho i b h y); congruence.
  - symmetry. apply (Ho i a h x); congruence.
  - by apply (Ho a b x y).
Qed.

(** The callback of [h] moves on to [h'], with what it did to its socket and to
    its connection. *)
Lemma ok_handles B live m l mn objs rs i h c k' f h' :
  ok B live m l mn objs rs → rs !! i = Some (Some h) → run_ok live m objs i h c →
  inner (kernel_ m) k' → object h' = object h →
  match h with Recv _ _ | FlushOutput _ | CloseFlag _ => True | _ => False end →
  match h' with CloseFd _ => False | _ => True end →
  conn_fd (f c) = conn_fd c → closed (f c) = closing h' →
  ok B live (m <| kernel_ := k' |>) l mn (alter f (object h) objs) (<[i := Some h']> rs).
Proof.
  intros Hok Hi Hrun Hk Hob Hh Hh' Hfd Hcl.
  destruct (ok_elsewhere _ _ _ _ _ _ _ k' Hok) as [Hm Ho]; [by apply inner_elsewhere|].
  destruct Hok as [_ Hown H3 H4 H5 H6 H7 H8 H9 H9' H10 H11 H12 H13].
  destruct Hrun as [R1 R2 R3 (cl & R4 & R4') R5 R6].
  assert (closed c = false ∧ cl = Idle ∧ watched_by m i (conn_fd c) (object h)) as (Hop & -> & Hw).
  { destruct h; try done; by destruct R4' as [?|?]. }
  assert (alter f (object h) objs !! object h = Some (f c)) as Hnew
    by (by rewrite list_lookup_alter_eq, R1).
  assert (∀ o, o ≠ object h → alter f (object h) objs !! o = objs !! o) as Hold
    by (intros o ?; by rewrite list_lookup_alter_ne).
  assert (i < length rs)%nat as Hlt by (by eapply lookup_lt_Some).
  split; try done.
  - by rewrite length_insert.
  - cbn. destruct Hk as ((-> & _) & _). done.
  - intros d o Hd. destruct (H6 _ _ Hd) as (? & x & Hx & <-). split; [done|].
    destruct (decide (o = object h)) as [->|]; [simplify_eq; eauto|]. rewrite Hold by done. eauto.
  - intros j r d w Hr Hdw. destruct (H7 _ _ _ _ Hr Hdw) as (o & x & Hcb & Hlo & Hx & Himp).
    destruct (decide (o = object h)) as [->|Hne].
    + simplify_eq. exists (object h), (f c). split_and!; try done. rewrite Hcl. intros Hc.
      destruct (H6 _ _ Hlo) as (_ & y & Hy & <-). simplify_eq.
      assert (j = i) as ->.
      { eapply (watched_loop m); [done|by exists r, w|done]. }
      rewrite list_lookup_insert_eq by done. destruct h'; try done. simpl in Hob. by subst.
    + exists o, x. rewrite Hold by done. split_and!; try done. intros Hc. specialize (Himp Hc).
      rewrite list_lookup_insert_ne; [done|]. intros <-. rewrite Hi in Himp. injection Himp as ->.
      by simpl in Hne.
  - intros j x [(<- & [= <-] & _)|[Hne Hj]]%list_lookup_insert_Some.
    + exists (f c). split; rewrite ?Hob, ?Hfd; try done.
      * exists Idle. split; [done|by left].
      * by destruct h'.
    + destruct (H9 _ _ Hj) as [y Hy]. exists y. eapply run_ok_frame; try done. apply Hold.
      intros Heq. pose proof (r_object _ _ _ _ _ _ Hy) as Hx. rewrite Heq in Hx. simplify_eq.
      apply Hne. symmetry. eapply run_watched; [apply Hown|done|done].
  - eapply once_insert; eauto.
  - intros j [(_ & ? & _)|[Hne Hj]]%list_lookup_insert_Some; [done|]. by apply H10.
  - eapply main_ok_frame; try done; [by apply files_kept, Hk|eauto|]. intros o x Hm' Hx Hxc Hl' Hu.
    split_and!; try done. rewrite Hold; [done|]. intros ->. simplify_eq.
    by eapply watched_unwatched.
  - intros o x Hx Hxc. destruct (decide (o = object h)) as [->|Hne].
    + simplify_eq. by rewrite Hfd.
    + rewrite Hold in Hx by done. eauto.
  - intros d o Hd. destruct (H13 _ _ Hd) as [?|[[j Hj]|?]]; [by left| |by right; right].
    right; left. exists j. rewrite list_lookup_insert_ne; [done|]. intros <-.
    rewrite Hi in Hj. by simplify_eq.
Qed.

Lemma once_none rs i : once rs → once (<[i := None]> rs).
Proof.
  intros Ho a b x y [(_ & ? & _)|[_ Ha]]%list_lookup_insert_Some
    [(_ & ? & _)|[_ Hb]]%list_lookup_insert_Some; try done. by apply Ho.
Qed.

(** A critical section of the call that callback [h] makes. *)
Section call.
Context B live m (l : Z) mn objs rs (i : nat) (h : handler) (c : Connection) m'
  (c' : client) (run' : option handler)
  (Hok : ok B live m l mn objs rs) (Hi : rs !! i = Some (Some h))
  (Hrun : run_ok live m objs i h c) (Hw : watched_by m i (conn_fd c) (object h))
  (Hmv : moved m m' (conn_fd c)) (Hcl : clients m' = <[S i := c']> (clients m))
  (Hwd : ∀ k r' w', loops (multi m') !! k = Some r' → watchers r' !! conn_fd c = Some w' →
     ∃ r w, loops (multi m) !! k = Some r ∧ watchers r !! conn_fd c = Some w
       ∧ callback w = callback w')
  (Hr' : match run' with
         | Some h' => object h' = object h ∧ run_ok live m' objs i h' c
         | None => c' = Idle ∧ closed c = false ∧ watched_by m' i (conn_fd c) (object h)
         end).

Lemma call_watch k r d w :
  loops (multi m') !! k = Some r → watchers r !! d = Some w →
  ∃ o x, callback w = Z.of_nat o ∧ live !! d = Some o ∧ objs !! o = Some x
    ∧ (closed x = true → <[i := run']> rs !! k = Some (Some (CloseRemove o))).
Proof.
  intros Hk Hd. destruct Hrun as [R1 R2 R3 _ _ _]. destruct (decide (d = conn_fd c)) as [->|Hne].
  - destruct (Hwd _ _ _ Hk Hd) as (r0 & w0 & Hk0 & Hd0 & Hcb).
    destruct (k_watch _ _ _ _ _ _ _ Hok _ _ _ _ Hk0 Hd0) as (o & x & Ho' & Hlo & Hx & Himp).
    simplify_eq. assert (watched_by m k (conn_fd c) (object h)) as Hkw
      by (exists r0, w0; split_and!; [done|done|congruence]).
    assert (k = i) as -> by (exact (watched_loop _ _ _ _ _ _ (k_owners _ _ _ _ _ _ _ Hok) Hkw Hw)).
    exists (object h), c. split_and!; try done; [congruence|]. intros Hc. specialize (Himp Hc).
    rewrite list_lookup_insert_eq by (by eapply lookup_lt_Some).
    destruct run' as [h'|]; [|by destruct Hr' as (_ & ? & _); congruence].
    destruct Hr' as [Hob [_ _ R3' _ _ R6']]. rewrite Hc in R3'.
    destruct h'; try done; simpl in *; [by subst|]. specialize (R6' _ _ Hk). congruence.
  - destruct (mv_loops _ _ _ Hmv _ _ Hk) as (r0 & Hr0 & _ & _ & Hx). rewrite Hx in Hd by done.
    destruct (k_watch _ _ _ _ _ _ _ Hok _ _ _ _ Hr0 Hd) as (o & x & Ho' & Hlo & Hx' & Himp).
    exists o, x. split_and!; try done. intros Hc. specialize (Himp Hc).
    rewrite list_lookup_insert_ne; [done|]. intros <-. rewrite Hi in Himp. injection Himp as ->.
    destruct (k_live _ _ _ _ _ _ _ Hok _ _ Hlo) as (_ & y & Hy & <-). simpl in R1. congruence.
Qed.

Lemma call_batch k p : pcs m' !! k = Some p → batch_ok m' k p.
Proof.
  destruct Hmv as [M1 M2 M3 M4]. rewrite M2. intros Hk.
  destruct (k_batch _ _ _ _ _ _ _ Hok _ _ Hk) as [Hnd Hen]. split; [done|].
  intros e cb Hin. destruct (Hen _ _ Hin) as (o & -> & Hwo). exists o. split; [done|].
  eapply moved_watched; [exact Hmv| |done]. intros Heq. rewrite Heq in Hwo.
  assert (k = i) as -> by (exact (watched_loop _ _ _ _ _ _ (k_owners _ _ _ _ _ _ _ Hok) Hwo Hw)).
  destruct (r_pc _ _ _ _ _ _ Hrun) as (b & todo & n & Hp & Hni). simplify_eq. apply Hni.
  rewrite <-Heq. simpl in Hin. apply list_elem_of_fmap. by exists (e, Z.of_nat o).
Qed.

Lemma call_runs j x :
  <[i := run']> rs !! j = Some (Some x) → ∃ y, run_ok live m' objs j x y.
Proof.
  intros [(<- & [= ->] & _)|[Hne Hj]]%list_lookup_insert_Some; [by exists c; apply Hr'|].
  destruct (k_runs _ _ _ _ _ _ _ Hok _ _ Hj) as [y Hy]. exists y.
  assert (conn_fd y ≠ conn_fd c) as Hyc.
  { intros Heq. apply Hne. symmetry. eapply run_watched; [apply Hok|done|by rewrite Heq]. }
  eapply run_ok_frame; try done.
  - rewrite Hcl, list_lookup_insert_ne; [done|congruence].
  - by destruct Hmv as [_ -> _ _].
  - intros k o. by apply (moved_watched _ _ (conn_fd c)).
  - by apply (moved_unwatched _ _ (conn_fd c)).
Qed.

Lemma call_held d o :
  live !! d = Some o →
  (∃ k, watched_by m' k d o) ∨ (∃ k, <[i := run']> rs !! k = Some (Some (CloseFd o)))
  ∨ in_hand mn = Some o.
Proof.
  destruct Hrun as [R1 R2 _ _ _ _]. intros Hd. destruct (decide (d = conn_fd c)) as [->|Hne].
  - simplify_eq. destruct run' as [h'|]; [|left; exists i; apply Hr'].
    destruct Hr' as [Hob Hrun']. pose proof (r_watch _ _ _ _ _ _ Hrun') as Hw'. rewrite <-Hob.
    destruct h'; try (left; exists i; exact Hw'). right; left. exists i.
    apply list_lookup_insert_eq. by eapply lookup_lt_Some.
  - destruct (k_held _ _ _ _ _ _ _ Hok _ _ Hd) as [[k Hk]|[[k Hk]|?]];
      [left|right; left|by right; right].
    + exists k. by eapply moved_watched.
    + exists k. rewrite list_lookup_insert_ne; [done|]. intros <-. rewrite Hi in Hk.
      simplify_eq. destruct (k_live _ _ _ _ _ _ _ Hok _ _ Hd) as (_ & y & Hy & <-).
      simpl in R1. congruence.
Qed.

Lemma ok_call :
  multi_ok strerror m' → owners_inv m' → ok B live m' l mn objs (<[i := run']> rs).
Proof.
  intros Hm Ho. pose proof Hmv as [M1 M2 M3 M4].
  assert (clients m' !! 0%nat = clients m !! 0%nat) as Hc0 by (by rewrite Hcl, list_lookup_insert_ne).
  destruct Hok as [_ Hown H3 H4 H5 H6 _ _ _ H9' H10 H11 H12 _].
  split; unfold count in *; rewrite ?M3; try done.
  - by rewrite Hcl, !length_insert.
  - by destruct M1 as [-> _].
  - intros k r Hk. destruct (M4 _ _ Hk) as (x & Hx & -> & -> & _). eauto.
  - exact call_watch.
  - exact call_batch.
  - exact call_runs.
  - destruct run' as [h'|]; [|by apply once_none]. by eapply once_insert; [..|apply Hr'].
  - intros j [(<- & -> & _)|[Hne Hj]]%list_lookup_insert_Some; rewrite Hcl.
    + destruct Hr' as (-> & _). apply list_lookup_insert_eq. destruct H3 as [-> ?].
      apply lookup_lt_Some in Hi. lia.
    + rewrite list_lookup_insert_ne by congruence. auto.
  - eapply main_ok_frame; try done; [by apply files_kept| |].
    + intros k x Hx. destruct (M4 _ _ Hx) as (y & ? & ? & ? & _). eauto.
    + intros o x _ Hx _ Hlo Hu. split_and!; try done. eapply moved_unwatched; [done| |done].
      intros Heq. rewrite Heq in Hu. by eapply watched_unwatched.
  - exact call_held.
Qed.
End call.

(** What each call of a callback comes to. *)
Lemma ok_modify B live m l mn objs rs i o c ev m' res :
  ok B live m l mn objs rs → rs !! i = Some (Some (SetInterest o)) →
  run_ok live m objs i (SetInterest o) c →
  call_step None (S i) (CallModify (conn_fd c) ev) m = Some (m', res) →
  match res with
  | None => ok B live m' l mn objs (<[i := Some (SetInterest o)]> rs)
  | Some es => ok B live m' l mn objs (<[i := None]> rs) ∧ ∀ e, thrown es = Some e → runtime e
  end.
Proof.
  intros Hok Hi Hrun Hc.
  pose proof (call_step_multi _ _ _ _ _ _ Hc (run_in_callback _ _ _ _ _ _ Hrun))
    as (_ & _ & es & _ & Hst & _).
  pose proof Hrun as [R1 R2 R3 (cl & R4 & R4') R5 R6]. simpl in R6.
  pose proof (k_owners _ _ _ _ _ _ _ Hok) as (Hown & _).
  assert (placed m (conn_fd c) (Some i) (Some i)
    ∧ (cl = Idle ∨ ∃ ev, cl = ModifyLoop (conn_fd c) ev i)) as [Hp Hcl].
  { destruct R4' as [->|[ev' ->]]; (split; [|by eauto]); [by eapply worker_placed|].
    exact (owners_busy _ Hown _ _ _ R4 eq_refl). }
  destruct (call_modify _ _ i _ _ _ _ Hc) as (Hmv & Hw & Hwd & c' & Hcl' & Hres); [|done|].
  { destruct Hcl as [->|[ev' ->]]; eauto. }
  assert (disciplined m') as Hd.
  { eapply (call_disciplined _ _ _ _ _ _ _ _ (S i) c' (conn_fd c)); [done|left; eauto|done|].
    destruct res; [left; by destruct Hres as [-> _]|right]. by destruct Hres as [? ->]. }
  assert (multi_ok strerror m' ∧ owners_inv m') as [Hm Ho].
  { split; [eapply multi_step_ok; [apply Hok|done]|].
    eapply owners_step; [apply Hok|done|done]. }
  destruct res as [es'|].
  - destruct Hres as [-> He]. split; [|done].
    eapply ok_call; try done. simpl. by split_and!; [| |apply Hw].
  - destruct Hres as [ev' ->]. eapply ok_call; try done. split; [done|].
    split; try done; [| |by apply Hw].
    + eexists. rewrite Hcl', list_lookup_insert_eq by (by eapply lookup_lt_Some).
      split; [done|]. right. eauto.
    + by rewrite (mv_pcs _ _ _ Hmv).
Qed.

Lemma ok_remove B live m l mn objs rs i o c m' res :
  ok B live m l mn objs rs → rs !! i = Some (Some (CloseRemove o)) →
  run_ok live m objs i (CloseRemove o) c →
  call_step None (S i) (CallRemove (conn_fd c)) m = Some (m', res) →
  match res with
  | None => ok B live m' l mn objs (<[i := Some (CloseRemove o)]> rs)
  | Some es => ok B live m' l mn objs (<[i := Some (CloseFd o)]> rs)
      ∧ ∀ e, thrown es = Some e → runtime e
  end.
Proof.
  intros Hok Hi Hrun Hc.
  pose proof (call_step_multi _ _ _ _ _ _ Hc (run_in_callback _ _ _ _ _ _ Hrun))
    as (_ & _ & es & _ & Hst & _).
  pose proof Hrun as [R1 R2 R3 (cl & R4 & R4') R5 R6]. simpl in R6.
  pose proof (k_owners _ _ _ _ _ _ _ Hok) as (Hown & _).
  destruct (call_remove _ _ i _ _ _ Hc) as (Hmv & c' & Hcl' & Hres).
  { destruct R4' as [->| ->]; [left; split; [done|by eapply worker_placed]|right].
    split; [done|]. exact (owners_busy _ Hown _ _ _ R4 eq_refl). }
  assert (disciplined m') as Hd.
  { eapply (call_disciplined _ _ _ _ _ _ _ _ (S i) c' (conn_fd c)); [done|left; eauto|done|].
    destruct res; [left|right]; by destruct Hres as [-> _]. }
  assert (multi_ok strerror m' ∧ owners_inv m') as [Hm Ho].
  { split; [eapply multi_step_ok; [apply Hok|done]|].
    eapply owners_step; [apply Hok|done|done]. }
  assert (clients m' !! S i = Some c') as Hnew.
  { rewrite Hcl'. apply list_lookup_insert_eq. by eapply lookup_lt_Some. }
  destruct res as [es'|].
  - destruct Hres as (-> & Hu & He). split; [|done]. eapply ok_call; try done.
    + intros k r' w' Hk Hw. specialize (Hu _ _ Hk). congruence.
    + split; [done|]. split; try done; [|by rewrite (mv_pcs _ _ _ Hmv)].
      exists Idle. split; [done|by left].
  - destruct Hres as [-> Hl]. eapply ok_call; try done.
    + intros k r' w'. rewrite Hl. eauto.
    + split; [done|]. split; try done.
      * eexists. split; [done|by right].
      * by rewrite (mv_pcs _ _ _ Hmv).
      * by eapply watched_same.
Qed.

(** Other descriptors are closed, opened and created beside the loops. *)
Lemma close_elsewhere B live m l mn objs rs d o :
  ok B live m l mn objs rs → live !! d = Some o →
  elsewhere_all (kernel_ m) (close_fd (kernel_ m) d) (multi m).
Proof.
  intros Hok Hd j r Hj. destruct (k_loops _ _ _ _ _ _ _ Hok _ _ Hj) as [He Hw].
  pose proof (k_fds _ _ _ _ _ _ _ Hok) as (_ & Hdis & _).
  assert (d ∈ dom live) as Hdl by (by apply elem_of_dom; eauto).
  assert (epoll_fd r ≠ d ∧ wake_fd r ≠ d) as [Hne Hnw] by (split; intros <-; set_solver).
  destruct (law_close_frame (kernel_ m) d (epoll_fd r) Hne) as (_ & _ & Hi1).
  destruct (law_close_frame (kernel_ m) d (wake_fd r) Hnw) as (Hc1 & He1 & _).
  unfold elsewhere. rewrite Hi1, Hc1, He1, lookup_delete_ne by auto.
  split_and!; try done. apply delete_subseteq.
Qed.

Lemma kept_elsewhere B live m l mn objs rs k' :
  ok B live m l mn objs rs →
  (∀ d, d ∈ B → interest k' d = interest (kernel_ m) d ∧ counter k' d = counter (kernel_ m) d
     ∧ is_eventfd k' d = is_eventfd (kernel_ m) d) →
  elsewhere_all (kernel_ m) k' (multi m).
Proof.
  intros Hok Hk i x Hx. destruct (k_loops _ _ _ _ _ _ _ Hok _ _ Hx) as [H1 H2].
  destruct (Hk _ H1) as (Hi1 & _ & _). destruct (Hk _ H2) as (_ & Hc2 & He2).
  unfold elsewhere. by rewrite Hi1, Hc2, He2.
Qed.

Lemma make_kept B live m l mn objs rs k' r n x :
  ok B live m l mn objs rs → EventLoop.make strerror (kernel_ m) n x = (k', Returns r) →
  ∀ d, d ∈ B → interest k' d = interest (kernel_ m) d ∧ counter k' d = counter (kernel_ m) d
    ∧ is_eventfd k' d = is_eventfd (kernel_ m) d.
Proof.
  intros Hok Hmk d Hd. pose proof (k_fds _ _ _ _ _ _ _ Hok) as (Hf & _).
  apply (make_frame strerror eventLoop _ _ _ _ _ d Hmk). rewrite Hf. set_solver.
Qed.

Lemma accept_kept B live m l mn objs rs k' d :
  ok B live m l mn objs rs → accept4 (kernel_ m) l = (k', inl d) →
  ∀ x, x ∈ B → interest k' x = interest (kernel_ m) x ∧ counter k' x = counter (kernel_ m) x
    ∧ is_eventfd k' x = is_eventfd (kernel_ m) x.
Proof.
  intros Hok Ha x Hx. apply law_accept in Ha as ((_ & Hnew & _ & Hfr) & _).
  pose proof (k_fds _ _ _ _ _ _ _ Hok) as (Hf & _). apply Hfr. intros ->. set_solver.
Qed.

(** A connection is closed. *)
Lemma ok_close B live m l mn objs rs i o c :
  ok B live m l mn objs rs → rs !! i = Some (Some (CloseFd o)) →
  run_ok live m objs i (CloseFd o) c →
  ok B (delete (conn_fd c) live) (m <| kernel_ ::= λ k, close_fd k (conn_fd c) |>) l mn objs
    (<[i := None]> rs).
Proof.
  intros Hok Hi Hrun. pose proof Hrun as [R1 R2 R3 (cl & R4 & R4') R5 R6]. simpl in *.
  pose proof (k_fds _ _ _ _ _ _ _ Hok) as (Hf & Hdis & Hl0 & Hl).
  assert (conn_fd c ∉ B) as HB.
  { assert (conn_fd c ∈ dom live) by (by apply elem_of_dom; eauto). set_solver. }
  assert (∀ d, d ∈ B → conn_fd c ≠ d) as HBne by congruence.
  destruct (ok_elsewhere _ _ _ _ _ _ _ _ Hok (close_elsewhere _ _ _ _ _ _ _ _ _ Hok R2)) as [Hm Ho].
  assert (∀ j h' c', rs !! j = Some (Some h') → run_ok live m objs j h' c' → j ≠ i →
    conn_fd c' ≠ conn_fd c) as Hother.
  { intros j h' c' Hj Hr' Hne Heq. apply Hne. eapply (k_once _ _ _ _ _ _ _ Hok); [done|done|].
    pose proof (r_live _ _ _ _ _ _ Hr') as Hlv. simpl. congruence. }
  destruct Hok as [_ Hown H3 H4 H5 H6 H7 H8 H9 H9' H10 H11 H12 H13].
  assert (i < length rs)%nat as Hlt by (by eapply lookup_lt_Some).
  split; try done.
  - by rewrite length_insert.
  - cbn [kernel_ set_field]. rewrite law_close, Hf, dom_delete_L. set_solver.
  - intros d x Hd. apply lookup_delete_Some in Hd as [_ Hd]. eauto.
  - intros j r d w Hj Hd. destruct (H7 _ _ _ _ Hj Hd) as (x & y & ? & Hlx & Hx & Himp).
    assert (d ≠ conn_fd c) as Hne by (intros ->; specialize (R6 _ _ Hj); congruence).
    exists x, y. rewrite lookup_delete_ne by done. split_and!; try done.
    intros Hc. specialize (Himp Hc). rewrite list_lookup_insert_ne; [done|].
    intros <-. by rewrite Hi in Himp.
  - intros j h' [(_ & ? & _)|[Hne Hj]]%list_lookup_insert_Some; [done|].
    destruct (H9 _ _ Hj) as [y Hy]. exists y. eapply run_ok_frame; try done.
    apply lookup_delete_ne. apply not_eq_sym. by eapply Hother.
  - by apply once_none.
  - intros j [(<- & _ & _)|[_ Hj]]%list_lookup_insert_Some; [|by apply H10].
    cbn. by destruct R4' as [->|?].
  - eapply main_ok_frame; try done; [|by eauto|by intros ->; rewrite delete_empty|].
    + intros d Hd. apply law_close_frame. by apply not_eq_sym, HBne.
    + intros x y _ Hx Hc Hlx Hu. split_and!; try done.
      rewrite lookup_delete_ne; [done|]. intros Heq. rewrite <-Heq, R2 in Hlx. simplify_eq. congruence.
  - intros x y Hx Hy. rewrite lookup_delete_ne; [by apply H12|].
    intros Heq. pose proof (H12 _ _ Hx Hy) as Hlv. rewrite <-Heq, R2 in Hlv. simplify_eq. congruence.
  - intros d x Hd. apply lookup_delete_Some in Hd as [Hne Hd].
    destruct (H13 _ _ Hd) as [?|[[j Hj]|?]]; [by left|right; left|by right; right].
    exists j. rewrite list_lookup_insert_ne; [done|]. intros <-. rewrite Hi in Hj. simplify_eq.
    destruct (H6 _ _ Hd) as (_ & y & Hy & <-). congruence.
Qed.

(** *** The loops of the workers *)

Lemma batch_same m m' i p : loops (multi m') = loops (multi m) → batch_ok m i p → batch_ok m' i p.
Proof.
  intros Hl [Hnd Hen]. split; [done|]. intros e cb Hin.
  destruct (Hen _ _ Hin) as (o & ? & ?). eauto using watched_same.
Qed.

Definition uneventful (es : list event) : Prop :=
  es = [] ∨ es = [RunReturned] ∨ ∃ n, es = [RunOnceReturned n].

(** A step of a loop keeps its batch, starts a callback of it, or throws. *)
Lemma batch_loop m i r p k' p' es :
  loops (multi m) !! i = Some r →
  (∀ d w, watchers r !! d = Some w → ∃ o, callback w = Z.of_nat o) →
  batch_ok m i p → loop_step strerror (kernel_ m) r p = Some (k', p', es) →
  (∃ what, es = [LoopThrew (RuntimeError what)])
  ∨ batch_ok m i p' ∧ (uneventful es ∨ ∃ e o b todo n, es = [Invoked e (Z.of_nat o)]
       ∧ p' = InCallback b todo n ∧ (fd e ∉ fd ∘ fst <$> todo) ∧ watched_by m i (fd e) o).
Proof.
  intros Hr Hcb [Hnd Hen] Hs. unfold uneventful.
  destruct p as [| |b tm|b [|[d bits] rest] acc|b rest acc|b [|[e cb] todo] n|b todo n];
    simpl in Hs; [done| | | | | | | |].
  - destruct (stopping r); simplify_eq; right; (split; [done|auto]).
  - destruct (epoll_wait _ _ _ _) as [k1 [rep|e|]] eqn:Hwt; [| |done].
    + simplify_eq. right. split; [|auto]. split; [|by intros e cb ?%elem_of_nil].
      unfold upcoming. simpl. rewrite app_nil_r. by apply law_wait_ready in Hwt as (_ & ? & _).
    + case_bool_decide; simplify_eq; [right; split; [done|auto]|left; by eexists].
  - simplify_eq. right. by split; [|auto].
  - rewrite upcoming_collect in Hnd. apply NoDup_cons in Hnd as [Hni Hnd]. right.
    destruct (d =? wake_fd r); [simplify_eq; by split; [|auto]|].
    destruct (watchers r !! d) as [w|] eqn:Hw; simplify_eq; [|by split; [|auto]].
    destruct (Hcb _ _ Hw) as [o Ho]. split; [|auto]. split.
    + assert (upcoming (Collect b rest (acc ++ [(mkEvent d (fromNativeEvents bits) (index r), callback w)]))
        ≡ₚ d :: upcoming (Collect b rest acc)) as ->; [|by apply NoDup_cons].
      unfold upcoming. simpl. rewrite fmap_app, app_assoc. simpl.
      by rewrite <-Permutation_cons_append.
    + simpl. intros e cb [?|[= -> ->]%list_elem_of_singleton]%elem_of_app; [by apply Hen|].
      exists o. split; [done|]. by exists r, w.
  - destruct (read_eight _ _) as [k1 [|]]; simplify_eq; right; by split; [|auto].
  - right. destruct b; simplify_eq; (split; [|by eauto 6]);
      (split; [constructor|by intros e cb ?%elem_of_nil]).
  - simplify_eq. right. unfold upcoming in Hnd. simpl in Hnd. apply NoDup_cons in Hnd as [Hni Hnd].
    destruct (Hen e cb) as (o & -> & Hw); [by left|]. split; [|right].
    + split; [done|]. intros e' cb' Hin. apply Hen. by right.
    + exists e, o, b, todo, n. done.
  - simplify_eq. right. by split; [|auto].
Qed.

Lemma ok_loop B live m l mn objs rs i r p k' p' es :
  ok B live m l mn objs rs → rs !! i = Some None →
  loops (multi m) !! i = Some r → pcs m !! i = Some p →
  loop_step strerror (kernel_ m) r p = Some (k', p', es) →
  let m' := m <| kernel_ := k' |> <| pcs ::= <[i := p']> |> in
  (∃ what, es = [LoopThrew (RuntimeError what)])
  ∨ ok B live m' l mn objs rs
    ∧ (uneventful es ∨ ∃ e o b todo n, es = [Invoked e (Z.of_nat o)]
         ∧ pcs m' !! i = Some (InCallback b todo n) ∧ (fd e ∉ fd ∘ fst <$> todo)
         ∧ watched_by m' i (fd e) o).
Proof.
  intros Hok Hi Hr Hp Hs m'.
  destruct (batch_loop m i r p k' p' es Hr) as [Ht|[Hb Hes]]; try done.
  { intros d w Hw. destruct (k_watch _ _ _ _ _ _ _ Hok _ _ _ _ Hr Hw) as (o & _ & ? & _). eauto. }
  { by apply (k_batch _ _ _ _ _ _ _ Hok). }
  { by left. }
  right. pose proof (k_multi _ _ _ _ _ _ _ Hok) as [Hla _].
  assert (existsb escapes es = false) as Hesc.
  { destruct Hes as [[->|[->|[n ->]]]|(e & o & b & todo & n & -> & _)]; done. }
  pose proof (multi_loop strerror i m r p k' p' es Hr Hp
    (λ _, callback_over _ _ (k_rest _ _ _ _ _ _ _ Hok _ Hi)) Hs Hesc) as Hst.
  pose proof (loop_frame strerror _ _ _ _ _ _ Hs (reg_eventfd _ _ (lane_registered strerror _ _ _ Hla Hr)))
    as (Hf & _).
  assert (pcs m' !! i = Some p') as Hp'.
  { simpl. apply list_lookup_insert_eq. by eapply lookup_lt_Some. }
  split.
  - eapply ok_quiet; try done.
    + eapply multi_step_ok; [apply Hok|exact Hst].
    + eapply owners_step; [apply Hok|exact Hst|]. apply (k_owners _ _ _ _ _ _ _ Hok).
    + intros j h Hj. simpl. rewrite list_lookup_insert_ne; [done|congruence].
    + intros j q [(<- & <- & _)|[_ Hj]]%list_lookup_insert_Some; [done|].
      by apply (k_batch _ _ _ _ _ _ _ Hok).
    + eapply main_ok_frame; [apply Hok|by apply files_kept|done|by eauto|done|done].
  - destruct Hes as [?|(e & o & b & todo & n & -> & -> & ? & ?)]; [by left|right].
    exists e, o, b, todo, n. done.
Qed.

Lemma handle_object e o c :
  let h := handleConnection e o c in
  object h = o ∧ closing h = false ∧ match h with CloseFd _ => False | _ => True end.
Proof. unfold handleConnection, after_read. by repeat case_match. Qed.

(** A callback starts. *)
Lemma ok_invoke B live m l mn objs rs i e o b todo n :
  ok B live m l mn objs rs → rs !! i = Some None →
  pcs m !! i = Some (InCallback b todo n) → (fd e ∉ fd ∘ fst <$> todo) →
  watched_by m i (fd e) o →
  ∃ c, objs !! o = Some c
    ∧ ok B live m l mn objs (<[i := Some (handleConnection e o c)]> rs).
Proof.
  intros Hok Hi Hp Hni Hw. pose proof Hw as (r & w & Hr & Hdw & Hcb).
  destruct (k_watch _ _ _ _ _ _ _ Hok _ _ _ _ Hr Hdw) as (o' & c & Ho' & Hlo & Hc & Himp).
  assert (o' = o) as -> by lia. exists c. split; [done|].
  destruct (k_live _ _ _ _ _ _ _ Hok _ _ Hlo) as (_ & c' & Hc' & Hfd). simplify_eq.
  assert (closed c = false) as Hop.
  { apply not_true_is_false. intros Hcl. specialize (Himp Hcl). congruence. }
  destruct (handle_object e o c) as (Hob & Hclo & Hnc). set (h := handleConnection e o c) in *.
  assert (run_ok live m objs i h c) as Hrun.
  { split; rewrite ?Hob; try congruence.
    - exists Idle. split; [by apply (k_rest _ _ _ _ _ _ _ Hok)|by left].
    - rewrite Hfd. eauto.
    - rewrite Hfd. by destruct h. }
  destruct Hok as [H1 H2 H3 H4 H5 H6 H7 H8 H9 H9' H10 H11 H12 H13].
  assert (i < length rs)%nat as Hlt by (by eapply lookup_lt_Some).
  assert (∀ j h', rs !! j = Some (Some h') → object h' ≠ o) as Hnone.
  { intros j h' Hj Heq. destruct (H9 _ _ Hj) as [y Hy].
    pose proof (r_object _ _ _ _ _ _ Hy) as Hoy. rewrite Heq in Hoy. simplify_eq.
    assert (j = i) as -> by (eapply run_watched; [apply H2|done|by rewrite Hfd]). congruence. }
  split; try done.
  - by rewrite length_insert.
  - intros j rj d wj Hj Hd. destruct (H7 _ _ _ _ Hj Hd) as (x & y & ? & ? & ? & Hx).
    exists x, y. split_and!; try done. intros Hy. specialize (Hx Hy).
    rewrite list_lookup_insert_ne; [done|]. intros <-. congruence.
  - intros j h' [(<- & [= <-] & _)|[_ Hj]]%list_lookup_insert_Some; [by exists c|eauto].
  - intros a a' x y [(<- & [= <-] & _)|[_ Ha]]%list_lookup_insert_Some
      [(<- & [= <-] & _)|[_ Hb]]%list_lookup_insert_Some; try done.
    + rewrite Hob. intros Heq. by destruct (Hnone _ _ Hb).
    + rewrite Hob. intros Heq. by destruct (Hnone _ _ Ha).
    + by apply H9'.
  - intros j [(_ & ? & _)|[_ Hj]]%list_lookup_insert_Some; [done|]. by apply H10.
  - intros d x Hd. destruct (H13 _ _ Hd) as [?|[[j Hj]|?]]; [by left|right; left|by right; right].
    exists j. rewrite list_lookup_insert_ne; [done|]. intros <-. congruence.
Qed.

(** A wake-up is written; bytes and connections arrive. *)
Lemma ok_wake B live m l mn objs rs i r n :
  ok B live m l mn objs rs → loops (multi m) !! i = Some r → pending m !! i = Some (S n) →
  ok B live (m <| kernel_ := EventLoop.wake (kernel_ m) r |> <| pending := <[i := n]> (pending m) |>)
    l mn objs rs.
Proof.
  intros Hok Hr Hn. pose proof (multi_wake strerror i m r n Hr Hn) as Hst.
  pose proof (k_multi _ _ _ _ _ _ _ Hok) as [Hla _].
  pose proof (lane_registered strerror _ _ _ Hla Hr) as Hreg.
  assert (same_files (kernel_ m) (EventLoop.wake (kernel_ m) r)) as Hf.
  { unfold EventLoop.wake, EpollReactor.wake.
    rewrite (proj2 (Z.ltb_ge (wake_fd r) 0)) by apply Hreg. apply law_write, Hreg. }
  eapply ok_quiet; try done.
  - eapply multi_step_ok; [apply Hok|exact Hst].
  - eapply owners_step; [apply Hok|exact Hst|]. apply (k_owners _ _ _ _ _ _ _ Hok).
  - intros j p Hj. eapply (batch_same m); [done|]. by apply (k_batch _ _ _ _ _ _ _ Hok).
  - eapply main_ok_frame; [apply Hok|by apply files_kept|done|by eauto|done|done].
Qed.

(** The main thread's own work in the kernel. *)
Lemma ok_beside B live m l mn mn' objs rs k' :
  ok B live m l mn objs rs → elsewhere_all (kernel_ m) k' (multi m) → same_files (kernel_ m) k' →
  main_ok B live (m <| kernel_ := k' |>) l objs mn' → in_hand mn' = in_hand mn →
  ok B live (m <| kernel_ := k' |>) l mn' objs rs.
Proof.
  intros Hok He Hf Hmn Hh. destruct (ok_elsewhere _ _ _ _ _ _ _ k' Hok He) as [Hm Ho].
  eapply ok_quiet; try done. intros i p Hi. by apply (k_batch _ _ _ _ _ _ _ Hok).
Qed.

Lemma ok_arrives B live m l mn objs rs k' :
  ok B live m l mn objs rs → inner (kernel_ m) k' →
  ok B live (m <| kernel_ := k' |>) l mn objs rs.
Proof.
  intros Hok Hk. eapply ok_beside; [done|by apply inner_elsewhere|apply Hk| |done].
  eapply main_ok_frame; [apply Hok|by apply files_kept, Hk|done|by eauto|done|done].
Qed.

(** *** The main thread *)

Lemma unwatched_dead B live m l mn objs rs d :
  ok B live m l mn objs rs → live !! d = None → unwatched m d.
Proof.
  intros Hok Hd i r Hr. destruct (watchers r !! d) as [w|] eqn:Hw; [|done].
  destruct (k_watch _ _ _ _ _ _ _ Hok _ _ _ _ Hr Hw) as (o & c & _ & ? & _). congruence.
Qed.

Lemma ok_start B live m l objs rs spawn m' res :
  ok B live m l Start objs rs →
  call_step (RuntimeError <$> spawn) 0 CallStart m = Some (m', res) →
  match res with
  | None => ok B live m' l Start objs rs
  | Some es => ok B live m' l MakeLoop objs rs ∧ ∀ e, thrown es = Some e → runtime e
  end.
Proof.
  intros Hok Hc. destruct (k_main _ _ _ _ _ _ _ Hok) as (cl & Hcl & Hst & ->).
  pose proof (call_step_multi _ _ _ _ _ _ Hc (main_no_callback m)) as (_ & _ & es & _ & Hms & _).
  destruct (call_start _ _ _ _ _ _ Hc Hcl Hst) as (Hk & Hn & Hl & Hp & c' & Hcl' & Hb & Hres).
  assert (disciplined m') as Hd.
  { eapply (call_disciplined _ _ _ _ _ _ _ _ 0%nat c' 0); [done| |done|by left].
    right. split; [done|]. by eapply unwatched_dead. }
  assert (multi_ok strerror m' ∧ owners_inv m') as [Hm Ho].
  { split; [eapply multi_step_ok; [apply Hok|done]|].
    eapply owners_step; [apply Hok|done|done]. }
  assert (clients m' !! 0%nat = Some c') as Hnew.
  { rewrite Hcl'. apply list_lookup_insert_eq. by eapply lookup_lt_Some. }
  destruct Hok as [_ _ H3 H4 H5 H6 H7 H8 H9 H9' H10 H11 H12 H13].
  assert (∀ mn', main_ok B ∅ m' l objs mn' → ok B ∅ m' l mn' objs rs) as Hall.
  { intros mn' Hmn. split; rewrite ?Hn, ?Hk, ?Hcl'; try done.
    - by rewrite length_insert.
    - intros i r' Hr. destruct (Hl _ _ Hr) as (r & ? & -> & -> & _). eauto.
    - intros i r' d w Hr. destruct (Hl _ _ Hr) as (r & ? & _ & _ & ->). eauto.
    - intros i p Hi. destruct (Hp _ _ Hi) as [Hi'| ->].
      + destruct (H8 _ _ Hi') as [? Hen]. split; [done|]. intros e cb Hin.
        destruct (Hen _ _ Hin) as (o & _ & r & w & Hr & Hw & _).
        destruct (H7 _ _ _ _ Hr Hw) as (? & ? & _ & ? & _). done.
      + split; [constructor|]. by intros e cb ?%elem_of_nil.
    - intros i h Hi. destruct (H9 _ _ Hi) as [c [_ ? _ _ _ _]]. done.
    - intros i Hi. rewrite list_lookup_insert_ne by done. auto. }
  destruct res as [es'|].
  - destruct Hres as [-> He]. split; [|done]. by apply Hall.
  - apply Hall. simpl. eauto.
Qed.

Lemma ok_make B live m l objs rs k' r :
  ok B live m l MakeLoop objs rs →
  EventLoop.make strerror (kernel_ m) 128 0 = (k', Returns r) →
  ok ({[epoll_fd r; wake_fd r]} ∪ B) live (m <| kernel_ := k' |>) l (AddListen r) objs rs.
Proof.
  intros Hok Hmk. destruct (k_main _ _ _ _ _ _ _ Hok) as [Hcl Hlv].
  pose proof (k_fds _ _ _ _ _ _ _ Hok) as (Hf & Hdis & Hl0 & Hl).
  assert (∀ d, d ∈ B → d ∈ open_fds (kernel_ m)) as HB by (intros d Hd; rewrite Hf; set_solver).
  pose proof Hmk as Hmk0.
  apply make_ok in Hmk as (Hreg & Hw & _ & _ & _ & _ & Ho & He & Hwf & _).
  assert (∀ d, d ∈ B → d ≠ epoll_fd r ∧ d ≠ wake_fd r) as Hne.
  { intros d Hd%HB. split; by intros ->. }
  destruct (ok_elsewhere _ _ _ _ _ _ _ k' Hok) as [Hm Hown];
    [by eapply kept_elsewhere, make_kept|].
  destruct Hok as [_ _ H3 H4 H5 H6 H7 H8 H9 H9' H10 H11 H12 H13].
  split; try done.
  - cbn. rewrite Ho, Hf, Hlv, dom_empty_L. split_and!; [set_solver|set_solver|done|set_solver].
  - intros i x Hx. destruct (H5 _ _ Hx). set_solver.
  - intros i h Hi. destruct (H9 _ _ Hi) as [c Hr]. exists c. by eapply run_ok_frame.
  - simpl. split_and!; try done; [|by apply Hne].
    split; simpl; [apply Hreg| |].
    + split_and!; [apply Hreg|set_solver|set_solver].
    + intros i x Hx. destruct (H5 _ _ Hx) as [H1 H2].
      split; [by apply Hne in H1 as [? _]|by apply Hne in H2 as [_ ?]].
Qed.

Lemma beside_elsewhere B live m l mn objs rs k' r :
  ok B live m l mn objs rs → loop_ok B m r → only_counter (kernel_ m) k' (wake_fd r) →
  elsewhere_all (kernel_ m) k' (multi m).
Proof.
  intros Hok Hr ((_ & He) & Hi & Hc) i x Hx. destruct (l_apart _ _ _ Hr _ _ Hx) as [_ Hne].
  unfold elsewhere. by rewrite Hi, He, Hc.
Qed.

(** The listening socket is added to the main thread's loop. *)
Lemma listen_beside B live m l objs rs k' r r' res :
  ok B live m l (AddListen r) objs rs →
  EventLoop.add strerror (kernel_ m) r l read_edge (Some accept_cb) = (k', r', res) →
  match res with
  | Throws e => runtime e
  | Returns _ => epoll_fd r' = epoll_fd r ∧ wake_fd r' = wake_fd r
      ∧ same_files (kernel_ m) k' ∧ elsewhere_all (kernel_ m) k' (multi m)
  end.
Proof.
  intros Hok Hadd. destruct (k_main _ _ _ _ _ _ _ Hok) as (Hcl & Hlv & Hr & Hw & Hlw).
  pose proof (k_fds _ _ _ _ _ _ _ Hok) as (_ & _ & Hl0 & _).
  unfold EventLoop.add, call_alone in Hadd.
  destruct (locked _ _ _ _ _) as [[k1 r1] o] eqn:Hlk. injection Hadd as <- <- <-.
  pose proof (locked_answers _ _ _ _ _ _ _ _ Hlk) as (Ha & _ & He & Hwf & _).
  pose proof (locked_frame _ _ _ _ _ _ _ _ Hlk) as (Hf & Hc & Hi).
  pose proof Hr as [L1 (L2 & L3 & L4) L5]. simpl in Ha.
  destruct o as [b|[what|what|what|]]; try done; [|destruct Ha as [Ha _]|by eexists].
  2: { destruct Ha as [?|[?|[?|[? Ha]]]]; try done; [lia|]. rewrite Hw in Ha. done. }
  assert (elsewhere_all (kernel_ m) k1 (multi m)) as Hel.
  { intros i x Hx. destruct (L5 _ _ Hx) as [Hne _]. destruct Hf as [_ Hev].
    unfold elsewhere. by rewrite Hi, Hc, Hev. }
  split; [done|]. split; [done|].
  destruct (wakes_after _ _); [|done]. unfold EpollReactor.wake. rewrite Hwf.
  rewrite (proj2 (Z.ltb_ge (wake_fd r) 0)) by done.
  destruct (law_write k1 (wake_fd r)) as (((Ho2 & He2) & Hi2 & Hc2) & _);
    [by rewrite (proj2 Hf)|].
  split; [split; [by rewrite Ho2, (proj1 Hf)|intros x; by rewrite He2, (proj2 Hf)]|].
  intros i x Hx. destruct (L5 _ _ Hx) as [_ Hne]. specialize (Hel _ _ Hx). unfold elsewhere in *.
  by rewrite Hi2, He2, Hc2.
Qed.

Lemma ok_add_listen B live m l objs rs k' r r' res :
  ok B live m l (AddListen r) objs rs →
  EventLoop.add strerror (kernel_ m) r l read_edge (Some accept_cb) = (k', r', res) →
  match res with
  | Throws e => runtime e
  | Returns _ => ok B live (m <| kernel_ := k' |>) l (Serve r' RunCheck None) objs rs
  end.
Proof.
  intros Hok Hadd. pose proof (listen_beside _ _ _ _ _ _ _ _ _ _ Hok Hadd) as Hr.
  destruct res as [b|e]; [|done]. destruct Hr as (He & Hw & Hf & Hel).
  destruct (k_main _ _ _ _ _ _ _ Hok) as (Hcl & _ & [L1 L2 L3] & _).
  eapply ok_beside; [done|done|done| |done]. split; [|done].
  split; simpl; rewrite ?He, ?Hw; try done. by rewrite (proj2 Hf).
Qed.

(** The main thread's loop. *)
Lemma ok_serve B live m l objs rs k' r p p' es :
  ok B live m l (Serve r p None) objs rs →
  loop_step strerror (kernel_ m) r p = Some (k', p', es) →
  (∃ what, es = [LoopThrew (RuntimeError what)])
  ∨ (∀ e, es ≠ [LoopThrew e])
    ∧ ok B live (m <| kernel_ := k' |>) l (Serve r p' None) objs rs
    ∧ ok B live (m <| kernel_ := k' |>) l (Serve r p' (Some Accept)) objs rs.
Proof.
  intros Hok Hs. destruct (k_main _ _ _ _ _ _ _ Hok) as (Hr & Hcl).
  pose proof (loop_frame strerror _ _ _ _ _ _ Hs (l_eventfd _ _ _ Hr)) as Hf.
  pose proof (beside_elsewhere _ _ _ _ _ _ _ _ _ Hok Hr Hf) as Hel.
  assert (loop_ok B (m <| kernel_ := k' |>) r) as Hr'.
  { eapply loop_ok_frame; [done|by apply files_kept, Hf|by eauto]. }
  assert ((∃ what, es = [LoopThrew (RuntimeError what)]) ∨ ∀ e, es ≠ [LoopThrew e]) as [?|Hes].
  { destruct p as [| |b t|b [|[d bits] rest] acc|b rest acc|b [|[e cb] todo] n|b todo n];
      simpl in Hs; repeat case_match; simplify_eq; try (by right); left; by eexists. }
  { by left. }
  right. split; [done|]. split; (eapply ok_beside; [done|done|apply Hf|by split|done]).
Qed.

(** A connection is accepted. *)
Lemma ok_accepted B live m l objs rs r p k' d :
  ok B live m l (Serve r p (Some Accept)) objs rs → accept4 (kernel_ m) l = (k', inl d) →
  live !! d = None ∧ 0 ≤ d
  ∧ ok B (<[d := length objs]> live) (m <| kernel_ := k' |>) l
      (Serve r p (Some (AddConnection (length objs)))) (objs ++ [mkConnection d [] false]) rs.
Proof.
  intros Hok Ha. pose proof Ha as Ha0.
  apply law_accept in Ha as ((Hd & Hnew & Ho & Hfr) & _).
  destruct (k_main _ _ _ _ _ _ _ Hok) as (Hr & Hcl).
  pose proof (k_fds _ _ _ _ _ _ _ Hok) as (Hf & Hdis & Hl0 & Hl).
  assert (d ∉ B ∧ live !! d = None) as [HdB Hdl].
  { rewrite Hf in Hnew. split; [set_solver|]. apply not_elem_of_dom. set_solver. }
  assert (∀ x, x ∈ B → x ≠ d) as HBne by congruence.
  pose proof (unwatched_dead _ _ _ _ _ _ _ d Hok Hdl) as Hu.
  split; [done|]. split; [done|].
  destruct (ok_elsewhere _ _ _ _ _ _ _ k' Hok) as [Hm Hown];
    [by eapply kept_elsewhere, accept_kept|].
  destruct Hok as [_ Hown0 H3 H4 H5 H6 H7 H8 H9 H9' H10 H11 H12 H13].
  assert (∀ o c, objs !! o = Some c → (objs ++ [mkConnection d [] false]) !! o = Some c) as Hold.
  { intros o c Hc. by rewrite lookup_app_l by (by eapply lookup_lt_Some). }
  assert ((objs ++ [mkConnection d [] false]) !! length objs = Some (mkConnection d [] false))
    as Hlast by (by rewrite lookup_app_r, Nat.sub_diag).
  assert (∀ x o, live !! x = Some o → <[d := length objs]> live !! x = Some o) as Hlv.
  { intros x o Hx. rewrite lookup_insert_ne; [done|congruence]. }
  split; try done.
  - cbn [kernel_ set_field]. rewrite Ho, Hf, dom_insert_L. set_solver.
  - intros x o. rewrite lookup_insert_Some. intros [[<- <-]|[_ Hx]]; [split; [done|by eexists]|].
    destruct (H6 _ _ Hx) as (? & c & ? & ?). eauto.
  - intros i y x w Hi Hw. destruct (H7 _ _ _ _ Hi Hw) as (o & c & ? & ? & ? & ?).
    exists o, c. split_and!; auto.
  - intros i h Hi. destruct (H9 _ _ Hi) as [c Hrun]. exists c. destruct Hrun. split; auto.
  - simpl. split.
    + eapply loop_ok_frame; [done| |by eauto]. intros x Hx. by apply Hfr, HBne.
    + exists Idle, (mkConnection d [] false). split_and!; try done. by rewrite lookup_insert_eq.
  - intros o c Hc Hop. apply lookup_app_Some in Hc as [Hc|[Hge Hc]]; [auto|].
    apply list_lookup_singleton_Some in Hc as [He <-]. simpl.
    rewrite lookup_insert_eq. f_equal. lia.
  - intros x o. rewrite lookup_insert_Some. intros [[<- <-]|[_ Hx]]; [by right; right|].
    destruct (H13 _ _ Hx) as [?|[?|?]]; [by left|by right; left|done].
Qed.

(** The main thread moves on with its connection [o]. *)
Lemma ok_added B live m l mn objs rs o c m' c' :
  ok B live m l mn objs rs → objs !! o = Some c → in_hand mn = Some o →
  live !! conn_fd c = Some o → closed c = false → unwatched m (conn_fd c) →
  multi_ok strerror m' → owners_inv m' → moved m m' (conn_fd c) →
  clients m' = <[0%nat := c']> (clients m) →
  ∀ mn', main_ok B live m' l objs mn' →
    (in_hand mn' = Some o ∨ ∃ i, watched_by m' i (conn_fd c) o) →
    (∀ k r' w', loops (multi m') !! k = Some r' → watchers r' !! conn_fd c = Some w' →
       callback w' = Z.of_nat o) →
    ok B live m' l mn' objs rs.
Proof.
  intros Hok Hc Hin Hlo Hop Hu Hm Ho Hmv Hcl mn' Hmn Hin' Hcb.
  destruct Hok as [_ Hown H3 H4 H5 H6 H7 H8 H9 H9' H10 _ H12 H13].
  pose proof Hmv as [M1 M2 M3 M4].
  assert (∀ k x y, watched_by m k x y → x ≠ conn_fd c) as Hne.
  { intros k x y Hw ->. by eapply watched_unwatched. }
  split; unfold count in *; rewrite ?M2, ?M3; try done.
  - by rewrite Hcl, length_insert.
  - by destruct M1 as [-> _].
  - intros k r Hk. destruct (M4 _ _ Hk) as (x & Hx & -> & -> & _). eauto.
  - intros k r d w Hk Hd. destruct (decide (d = conn_fd c)) as [->|Hdc].
    + exists o, c. split_and!; eauto. congruence.
    + destruct (M4 _ _ Hk) as (r0 & Hr0 & _ & _ & Hx). rewrite Hx in Hd by done. eauto.
  - intros k p Hk. destruct (H8 _ _ Hk) as [Hnd Hen]. split; [done|].
    intros e cb Hine. destruct (Hen _ _ Hine) as (x & -> & Hw). exists x. split; [done|].
    eapply moved_watched; eauto.
  - intros k h Hk. destruct (H9 _ _ Hk) as [y Hy]. exists y.
    assert (conn_fd y ≠ conn_fd c) as Hyc.
    { destruct Hy as [Y1 Y2 Y3 _ _ Y6]. intros Heq. rewrite Heq in *.
      assert (object h = o) as Ho' by congruence. rewrite Ho' in *.
      destruct h; try (by eapply watched_unwatched). simpl in *. congruence. }
    eapply run_ok_frame; try done.
    + by rewrite Hcl, list_lookup_insert_ne.
    + by rewrite M2.
    + intros j x. by apply (moved_watched _ _ (conn_fd c)).
    + by apply (moved_unwatched _ _ (conn_fd c)).
  - intros k Hk. rewrite Hcl, list_lookup_insert_ne by done. auto.
  - intros d x Hd. destruct (decide (d = conn_fd c)) as [->|Hdc].
    + simplify_eq. destruct Hin' as [?|?]; [by right; right|by left].
    + destruct (H13 _ _ Hd) as [[k Hk]|[?|Hx]]; [left|by right; left|].
      * exists k. by eapply moved_watched.
      * simplify_eq. destruct (H6 _ _ Hd) as (_ & y & Hy & <-). congruence.
Qed.

(** A critical section of the main thread's [add]. *)
Lemma ok_adding B live m l objs rs r p o c m' res :
  ok B live m l (Serve r p (Some (AddConnection o))) objs rs → objs !! o = Some c →
  call_step None 0 (CallAdd (conn_fd c) read_edge (Some (Z.of_nat o))) m = Some (m', res) →
  match res with
  | None => ok B live m' l (Serve r p (Some (AddConnection o))) objs rs
  | Some es =>
      match thrown es with
      | None => ok B live m' l (Serve r p (Some Accept)) objs rs
      | Some e => runtime e ∧ closed c = false ∧ live !! conn_fd c = Some o
          ∧ ok B live m' l (Serve r p (Some (Unwind o e))) objs rs
      end
  end.
Proof.
  intros Hok Hc Hcall.
  pose proof (call_step_multi _ _ _ _ _ _ Hcall (main_no_callback m)) as (_ & _ & es & _ & Hms & _).
  destruct (k_main _ _ _ _ _ _ _ Hok) as (Hr & cl & c0 & Hcl & Hc0 & Hlo & Hop & Hadd). simplify_eq.
  pose proof (k_live _ _ _ _ _ _ _ Hok _ _ Hlo) as (Hd0 & _).
  pose proof (k_fds _ _ _ _ _ _ _ Hok) as (_ & Hdis & _).
  assert (conn_fd c ∉ B) as HB.
  { assert (conn_fd c ∈ dom live) by (by apply elem_of_dom; eauto). set_solver. }
  pose proof (k_owners _ _ _ _ _ _ _ Hok) as (Hown & _).
  destruct (call_add _ _ _ _ _ _ _ _ Hcall Hcl Hadd Hd0 Hown) as (Hmv & c' & Hcl' & Hres).
  { intros i x Hx Heq. apply HB. rewrite <-Heq. by apply (k_loops _ _ _ _ _ _ _ Hok _ _ Hx). }
  assert (disciplined m') as Hd.
  { eapply (call_disciplined _ _ _ _ _ _ _ _ 0%nat c' (conn_fd c)); [done| |done|].
    - right. split; [done|]. apply Hadd.
    - destruct res; [left; by destruct Hres as [-> _]|right]. destruct Hres as [[_ Ha] Hne].
      destruct c'; try done; by destruct Ha as [-> _]. }
  assert (multi_ok strerror m' ∧ owners_inv m') as [Hm Ho].
  { split; [eapply multi_step_ok; [apply Hok|done]|].
    eapply owners_step; [apply Hok|done|done]. }
  assert (clients m' !! 0%nat = Some c') as Hnew.
  { rewrite Hcl'. apply list_lookup_insert_eq. by eapply lookup_lt_Some. }
  assert (loop_ok B m' r) as Hr'.
  { eapply loop_ok_frame; [done|apply files_kept, Hmv|]. intros i x Hx.
    destruct (mv_loops _ _ _ Hmv _ _ Hx) as (y & ? & ? & ? & _). eauto. }
  pose proof (ok_added B live m l _ objs rs o c m' c' Hok Hc eq_refl Hlo Hop (proj1 Hadd)
    Hm Ho Hmv Hcl') as Hall.
  destruct res as [es'|].
  - destruct Hres as [-> Hres]. destruct (thrown es') as [e|].
    + destruct Hres as [He Hu]. split_and!; try done. apply Hall; [|by left|].
      * simpl. split_and!; eauto 10.
      * intros k r' w' Hk Hw'. specialize (Hu _ _ Hk). congruence.
    + destruct Hres as (i & (r' & Hi & Hw') & Hothers). apply Hall; [done| |].
      * right. exists i, r'. eauto.
      * intros k x w' Hk Hw. destruct (decide (k = i)) as [->|Hne]; [by simplify_eq|].
        specialize (Hothers _ _ Hne Hk). congruence.
  - destruct Hres as [Ha Hne]. apply Hall; [|by left|].
    + simpl. split; [done|]. exists c', c. done.
    + intros k r' w' Hk Hw'. destruct Ha as [Hu _]. specialize (Hu _ _ Hk). congruence.
Qed.

(** ** Refinement of the debts *)

Definition owed_of live objs : gmap Z (list byte) :=
  (λ o, default [] (output <$> objs !! o)) <$> live.

Definition fits B live s : Prop :=
  ok B live (sys s) (listen_fd s) (main s) (objects s) (runs s).

(** What the clients of a server that is alive are owed. *)
Definition owes s (t : gmap Z (list byte)) : Prop :=
  dead s = false ∧ ∃ B live, fits B live s ∧ t = owed_of live (objects s).

Definition mt_rel s (a : owed) : Prop :=
  match a with Some t => owes s t | None => dead s = true ∧ disciplined (sys s) end.

Lemma owed_lookup live objs d o c :
  live !! d = Some o → objs !! o = Some c → owed_of live objs !! d = Some (output c).
Proof. intros Hl Ho. unfold owed_of. by rewrite lookup_fmap, Hl; simpl; rewrite Ho. Qed.

Lemma owed_alter B live m l mn objs rs o c f :
  ok B live m l mn objs rs → live !! conn_fd c = Some o → objs !! o = Some c →
  owed_of live (alter f o objs) = <[conn_fd c := output (f c)]> (owed_of live objs).
Proof.
  intros Hok Hl Ho. apply map_eq. intros d. unfold owed_of. rewrite lookup_fmap.
  destruct (decide (d = conn_fd c)) as [->|Hne].
  - rewrite lookup_insert_eq, Hl. simpl. by rewrite list_lookup_alter_eq, Ho.
  - rewrite lookup_insert_ne, lookup_fmap by done. destruct (live !! d) as [x|] eqn:Hd; [|done].
    simpl. rewrite list_lookup_alter_ne; [done|]. intros <-.
    destruct (k_live _ _ _ _ _ _ _ Hok _ _ Hd) as (_ & y & Hy & <-). congruence.
Qed.

Lemma owed_same B live m l mn objs rs o c f :
  ok B live m l mn objs rs → live !! conn_fd c = Some o → objs !! o = Some c →
  output (f c) = output c → owed_of live (alter f o objs) = owed_of live objs.
Proof.
  intros Hok Hl Ho Hf. rewrite (owed_alter _ _ _ _ _ _ _ _ _ _ Hok Hl Ho), Hf.
  apply insert_id. by apply owed_lookup with o.
Qed.

(** A step of a callback, with what becomes of it. *)
Definition goes_on (i : nat) s (n : next handler) t : Prop :=
  match n with
  | Continue h => owes (s <| runs ::= <[i := Some h]> |>) t
  | Return => owes (s <| runs ::= <[i := None]> |>) t
  | Throw e => runtime e ∧ disciplined (sys s)
  end.

Definition pays (t : gmap Z (list byte)) (os : list observation) (P : gmap Z (list byte) → Prop) : Prop :=
  ∃ t', run mt_debt_lts (Some t) os (Some t') ∧ P t'.

Lemma pays_nothing t (P : gmap Z (list byte) → Prop) : P t → pays t [] P.
Proof. exists t. split; [constructor|done]. Qed.

Lemma pays_one t o t' (P : gmap Z (list byte) → Prop) :
  debt_step (Some t) [o] (Some t') → P t' → pays t [o] P.
Proof. exists t'. split; [by apply run_one, mt_debt|done]. Qed.

Lemma in_kernel_id s : in_kernel (kern s) s = s.
Proof. by destruct s as [[]]. Qed.

Section handler.
Context (B : gset Z) (live : gmap Z nat) (i : nat) (h : handler) (s : server) (c : Connection).
Context (Hdead : dead s = false) (Hok : fits B live s) (Hi : runs s !! i = Some (Some h)).
Context (Hrun : run_ok live (sys s) (objects s) i h c).
Context (Hcalm : match h with Recv _ _ | FlushOutput _ | CloseFlag _ => True | _ => False end).

(** Its own work on the socket and on the connection. *)
Lemma handler_on_object k' f h' :
  inner (kern s) k' → object h' = object h → match h' with CloseFd _ => False | _ => True end →
  conn_fd (f c) = conn_fd c → closed (f c) = closing h' →
  goes_on i (on_object (object h) f (in_kernel k' s)) (Continue h')
    (<[conn_fd c := output (f c)]> (owed_of live (objects s))).
Proof.
  intros Hk Hob Hh' Hfd Hcl. split; [done|]. exists B, live.
  pose proof (ok_handles _ _ _ _ _ _ _ _ _ _ _ _ _ Hok Hi Hrun Hk Hob Hcalm Hh' Hfd Hcl) as Hok'.
  split; [exact Hok'|]. symmetry. eapply owed_alter; [exact Hok|apply Hrun|apply Hrun].
Qed.

Lemma handler_on_socket k' h' :
  inner (kern s) k' → object h' = object h → match h' with CloseFd _ => False | _ => True end →
  closing h' = false →
  goes_on i (in_kernel k' s) (Continue h') (owed_of live (objects s)).
Proof.
  intros Hk Hob Hh' Hcl. split; [done|]. exists B, live. split; [|done].
  assert (closed c = closing h') as Hc.
  { rewrite (r_closed _ _ _ _ _ _ Hrun), Hcl. by destruct h. }
  pose proof (ok_handles _ _ _ _ _ _ _ _ _ _ _ (λ c, c) _ Hok Hi Hrun Hk Hob Hcalm Hh' eq_refl Hc)
    as Hok'. by rewrite list_alter_id in Hok'.
Qed.
End handler.

Lemma recv_sim B live i e o s c s' n os :
  dead s = false → fits B live s → runs s !! i = Some (Some (Recv e o)) →
  run_ok live (sys s) (objects s) i (Recv e o) c →
  handler_step strerror i (Recv e o) s = Some (s', n, os) →
  dead s' = false ∧ pays (owed_of live (objects s)) os (goes_on i s' n).
Proof.
  intros Hd Hok Hi Hrun Hs. pose proof (r_object _ _ _ _ _ _ Hrun) as Ho. simpl in Ho.
  pose proof (owed_lookup _ _ _ _ _ (r_live _ _ _ _ _ _ Hrun) Ho) as Hdebt. simpl in Hs. rewrite Ho in Hs. simpl in Hs.
  destruct (recv (kern s) (conn_fd c) 4096) as [k res] eqn:Hr.
  destruct (law_recv _ _ _ _ _ Hr ltac:(done)) as (Hk & _ & Hlen).
  assert (∀ h', object h' = o → match h' with CloseFd _ => False | _ => True end →
    closing h' = false → goes_on i (in_kernel k s) (Continue h') (owed_of live (objects s))) as Hgo.
  { intros h' ? ? ?. by eapply (handler_on_socket B live i (Recv e o) s c). }
  destruct res as [[|b bs]|er].
  - simplify_eq. split; [done|]. apply pays_nothing. by apply Hgo.
  - simplify_eq. split; [done|]. eapply pays_one; [by apply (d_received _ _ (b :: bs) (output c))|].
    set (f := λ c : Connection, c <| output ::= (.++ b :: bs) |>).
    exact (handler_on_object B live i (Recv e o) s c Hd Hok Hi Hrun I k f (Recv e o) Hk eq_refl I eq_refl
      (r_closed _ _ _ _ _ _ Hrun)).
  - case_bool_decide; simplify_eq; (split; [done|]); apply pays_nothing; [|by apply Hgo].
    unfold after_read. destruct (_ || _); by apply Hgo.
Qed.

Lemma flush_sim B live i o s c s' n os :
  dead s = false → fits B live s → runs s !! i = Some (Some (FlushOutput o)) →
  run_ok live (sys s) (objects s) i (FlushOutput o) c →
  handler_step strerror i (FlushOutput o) s = Some (s', n, os) →
  dead s' = false ∧ pays (owed_of live (objects s)) os (goes_on i s' n).
Proof.
  intros Hd Hok Hi Hrun Hs. pose proof (r_object _ _ _ _ _ _ Hrun) as Ho. simpl in Ho.
  pose proof (owed_lookup _ _ _ _ _ (r_live _ _ _ _ _ _ Hrun) Ho) as Hdebt. simpl in Hs. rewrite Ho in Hs. simpl in Hs.
  case_bool_decide as Hout.
  { simplify_eq. split; [done|]. apply pays_nothing.
    rewrite <-(in_kernel_id s').
    exact (handler_on_socket B live i (FlushOutput o) s' c Hd Hok Hi Hrun I (kern s') (SetInterest o)
      (inner_refl _) eq_refl I eq_refl). }
  destruct (send (kern s) (conn_fd c) (output c)) as [k res] eqn:Hr.
  destruct (law_send _ _ _ _ _ Hr) as (Hk & _ & Hlen).
  assert (∀ h', object h' = o → match h' with CloseFd _ => False | _ => True end →
    closing h' = false → goes_on i (in_kernel k s) (Continue h') (owed_of live (objects s))) as Hgo.
  { intros h' ? ? ?. by eapply (handler_on_socket B live i (FlushOutput o) s c). }
  destruct res as [z|er].
  - destruct (Z.ltb_spec 0 z) as [Hz|Hz]; simplify_eq; (split; [done|]).
    + eapply pays_one.
      * apply (d_sent _ _ _ (drop (Z.to_nat z) (output c))); [by rewrite take_drop|].
        destruct (output c); [done|]. by destruct (Z.to_nat z) eqn:Hzn; [lia|].
      * set (f := λ c : Connection, c <| output ::= drop (Z.to_nat z) |>).
        exact (handler_on_object B live i (FlushOutput o) s c Hd Hok Hi Hrun I k f (FlushOutput o) Hk eq_refl I eq_refl
          (r_closed _ _ _ _ _ _ Hrun)).
    + apply pays_nothing. by apply Hgo.
  - case_bool_decide; simplify_eq; (split; [done|]); apply pays_nothing; by apply Hgo.
Qed.

Lemma owed_delete live objs d : owed_of (delete d live) objs = delete d (owed_of live objs).
Proof. unfold owed_of. by rewrite fmap_delete. Qed.

(** The rest of a callback: its calls of the reactor, and closing. *)
Lemma closing_sim B live i h s c s' n os :
  dead s = false → fits B live s → runs s !! i = Some (Some h) →
  run_ok live (sys s) (objects s) i h c →
  match h with Recv _ _ | FlushOutput _ => False | _ => True end →
  handler_step strerror i h s = Some (s', n, os) →
  dead s' = false ∧ pays (owed_of live (objects s)) os (goes_on i s' n).
Proof.
  intros Hd Hok Hi Hrun Hh Hs. pose proof (r_object _ _ _ _ _ _ Hrun) as Ho.
  pose proof (owed_lookup _ _ _ _ _ (r_live _ _ _ _ _ _ Hrun) Ho) as Hdebt.
  destruct h as [e o|o|o|o|o|o]; try done; simpl in Ho, Hs; rewrite Ho in Hs; simpl in Hs.
  - destruct (call_step _ _ _ _) as [[m r]|] eqn:Hc; [|done]. simplify_eq/=. split; [done|].
    apply pays_nothing. pose proof (ok_modify _ _ _ _ _ _ _ _ _ _ _ _ _ Hok Hi Hrun Hc) as Hr.
    destruct r as [es|]; [destruct Hr as [Hr He]; destruct (thrown es) as [e|];
      [split; [by apply He|apply (k_owners _ _ _ _ _ _ _ Hr)]|]|];
      (split; [done|]); by exists B, live.
  - simplify_eq. rewrite (r_closed _ _ _ _ _ _ Hrun). split; [done|]. apply pays_nothing.
    rewrite <-(insert_id _ _ _ Hdebt). set (t := <[_ := _]> _). rewrite <-(in_kernel_id s).
    set (f := λ c : Connection, c <| closed := true |>).
    exact (handler_on_object B live i (CloseFlag o) s c Hd Hok Hi Hrun I (kern s) f (CloseRemove o)
      (inner_refl _) eq_refl I eq_refl eq_refl).
  - destruct (call_step _ _ _ _) as [[m r]|] eqn:Hc; [|done]. simplify_eq/=. split; [done|].
    apply pays_nothing. pose proof (ok_remove _ _ _ _ _ _ _ _ _ _ _ _ Hok Hi Hrun Hc) as Hr.
    destruct r as [es|]; [destruct Hr as [Hr He]; destruct (thrown es) as [e|];
      [split; [by apply He|apply (k_owners _ _ _ _ _ _ _ Hr)]|]|];
      (split; [done|]); by exists B, live.
  - simplify_eq. split; [done|]. eapply pays_one; [by apply d_closed; eexists|].
    split; [done|]. exists B, (delete (conn_fd c) live). rewrite <-owed_delete. split; [|done].
    exact (ok_close _ _ _ _ _ _ _ _ _ _ Hok Hi Hrun).
Qed.

Lemma handler_sim B live i h s s' n os :
  dead s = false → fits B live s → runs s !! i = Some (Some h) →
  handler_step strerror i h s = Some (s', n, os) →
  dead s' = false ∧ pays (owed_of live (objects s)) os (goes_on i s' n).
Proof.
  intros Hd Hok Hi Hs. destruct (k_runs _ _ _ _ _ _ _ Hok _ _ Hi) as [c Hrun].
  destruct h; [by eapply recv_sim|by eapply flush_sim|by eapply closing_sim..].
Qed.

(** The process ends. *)
Lemma dies t e os s (P : gmap Z (list byte) → Prop) :
  pays t os P → runtime e → dead s = true → disciplined (sys s) →
  ∃ a, run mt_debt_lts (Some t) (os ++ [Died e]) a ∧ mt_rel s a.
Proof.
  intros (t' & Hr & _) [what ->] Hd Hdis. exists None. split; [|done].
  eapply run_app; [exact Hr|]. apply run_one, mt_debt, d_died.
Qed.

Lemma lives t os s (P : gmap Z (list byte) → Prop) :
  pays t os P → (∀ t', P t' → owes s t') → ∃ a, run mt_debt_lts (Some t) os a ∧ mt_rel s a.
Proof. intros (t' & Hr & HP) Himp. exists (Some t'). split; [done|by apply Himp]. Qed.

Lemma worker_sim B live i s s' os :
  dead s = false → fits B live s → worker_step strerror i s = Some (s', os) →
  ∃ a, run mt_debt_lts (Some (owed_of live (objects s))) os a ∧ mt_rel s' a.
Proof.
  intros Hd Hok Hs. unfold worker_step in Hs.
  destruct (runs s !! i) as [[h|]|] eqn:Hi; [| |done].
  - destruct (handler_step _ _ _ _) as [[[s1 n] os1]|] eqn:Hh; [|done].
    destruct (handler_sim _ _ _ _ _ _ _ _ Hd Hok Hi Hh) as [Hd1 Hp]. simpl in Hs.
    destruct n as [h'| |e]; simplify_eq; [by eapply lives|by eapply lives|].
    destruct Hp as (t & Hrun & He & Hdis). simplify_eq/=.
    eapply (dies _ _ _ _ (λ _, True)); [by exists t|done|done|done].
  - destruct (loops (multi (sys s)) !! i) as [r|] eqn:Hr; [|done]. simpl in Hs.
    destruct (pcs (sys s) !! i) as [p|] eqn:Hp; [|done]. simpl in Hs.
    destruct (EpollReactor.loop_step strerror (kern s) r p) as [[[k p'] es]|] eqn:Hl; [|done].
    simpl in Hs. destruct (ok_loop _ _ _ _ _ _ _ _ _ _ _ _ _ Hok Hi Hr Hp Hl)
      as [[what ->]|[Hok' Hes]].
    { unfold die in Hs. simplify_eq. eapply (dies _ _ [] _ (λ _, True)); [by apply pays_nothing|by eexists|done|].
      apply (k_owners _ _ _ _ _ _ _ Hok). }
    destruct Hes as [Hq|(e & o & b & todo & n & -> & Hp' & Hni & Hw)].
    + assert (s' = in_kernel k s <| sys ::= λ m, m <| pcs ::= <[i := p']> |> |> ∧ os = []) as [-> ->].
      { by destruct Hq as [->|[->|[n ->]]]; simplify_eq. }
      exists (Some (owed_of live (objects s))). split; [constructor|]. split; [done|]. by exists B, live.
    + rewrite Nat2Z.id in Hs.
      destruct (ok_invoke _ _ _ _ _ _ _ _ _ _ _ _ _ Hok' Hi Hp' Hni Hw) as (c & Hc & Hok2).
      rewrite Hc in Hs. simpl in Hs. simplify_eq.
      exists (Some (owed_of live (objects s))). split; [constructor|]. split; [done|]. by exists B, live.
Qed.

(** The callback of the listening socket. *)
Lemma acceptor_sim B live r p a s s' n os :
  dead s = false → fits B live s → main s = Serve r p (Some a) →
  acceptor_step strerror a s = Some (s', n, os) →
  dead s' = false ∧ pays (owed_of live (objects s)) os (λ t,
    match n with
    | Continue a => owes (s' <| main := Serve r p (Some a) |>) t
    | Return => owes (s' <| main := Serve r p None |>) t
    | Throw e => runtime e ∧ disciplined (sys s')
    end).
Proof.
  intros Hd Hok Hmn Hs. unfold fits in Hok. rewrite Hmn in Hok.
  destruct a as [|o|o e]; simpl in Hs.
  - destruct (accept4 (kern s) (listen_fd s)) as [k [d|er]] eqn:Ha; simplify_eq; (split; [done|]).
    + destruct (ok_accepted _ _ _ _ _ _ _ _ _ _ Hok Ha) as (Hl & Hd0 & Hok').
      eapply pays_one; [apply d_accepted; [|exact Hd0]; unfold owed_of; by rewrite lookup_fmap, Hl|].
      split; [done|]. exists B, (<[d := length (objects s)]> live). split; [exact Hok'|].
      simpl. unfold owed_of. rewrite fmap_insert. simpl. rewrite lookup_app_r, Nat.sub_diag by done. simpl.
      f_equal. apply map_eq. intros x. rewrite !lookup_fmap.
      destruct (live !! x) as [y|] eqn:Hx; [|done]. simpl.
      destruct (k_live _ _ _ _ _ _ _ Hok _ _ Hx) as (_ & c & Hc & _).
      by rewrite lookup_app_l by (by eapply lookup_lt_Some).
    + apply pays_nothing. destruct (law_accept_error _ _ _ _ Ha) as (Hk & _).
      destruct (k_main _ _ _ _ _ _ _ Hok) as (Hr & Hcl).
      assert (∀ run, run = None ∨ run = Some Accept →
        ok B live ((sys s) <| kernel_ := k |>) (listen_fd s) (Serve r p run) (objects s) (runs s)) as Hall.
      { intros run Hrun. eapply ok_beside; [done|by apply inner_elsewhere|apply Hk| |].
        - assert (loop_ok B ((sys s) <| kernel_ := k |>) r) as Hr'.
          { eapply loop_ok_frame; [done|by apply files_kept, Hk|by eauto]. }
          by destruct Hrun as [->| ->].
        - by destruct Hrun as [->| ->]. }
      case_bool_decide; (split; [done|]); exists B, live; (split; [|done]); apply Hall; auto.
  - destruct (objects s !! o) as [c|] eqn:Ho; [|done]. simpl in Hs.
    destruct (call_step _ _ _ _) as [[m res]|] eqn:Hc; [|done]. simplify_eq/=. split; [done|].
    apply pays_nothing. pose proof (ok_adding _ _ _ _ _ _ _ _ _ _ _ _ Hok Ho Hc) as Hr.
    destruct res as [es|]; [destruct (thrown es) as [e|]; [destruct Hr as (_ & _ & _ & Hr)|]|];
      (split; [done|]); by exists B, live.
  - destruct (objects s !! o) as [c|] eqn:Ho; [|done]. simplify_eq/=. split; [done|].
    destruct (k_main _ _ _ _ _ _ _ Hok) as (_ & _ & c' & Hc' & Hl & Hcl & _ & He). simplify_eq.
    rewrite Hcl. eapply pays_one; [|split; [exact He|apply (k_owners _ _ _ _ _ _ _ Hok)]]. apply d_closed. eexists. by apply owed_lookup with o.
Qed.

(** Why the main loop cannot be made. *)
Lemma make_loop_throws k k' e :
  EventLoop.make strerror k 128 0 = (k', Throws e) → runtime e ∨ e = BadAlloc.
Proof.
  unfold EventLoop.make. intros Hm%make_throws. unfold failed_from in Hm.
  destruct (allocation_failure e); [|left; by destruct Hm]. right.
  destruct Hm as (_ & Hr & _). unfold resize_ready in Hr.
  change (ready_max_size <? 128) with false in Hr. simpl in Hr. case_match; congruence.
Qed.

Lemma main_sim B live spawn s s' os :
  dead s = false → fits B live s → main_step strerror spawn s = Some (s', os) →
  ∃ a, run mt_debt_lts (Some (owed_of live (objects s))) os a ∧ mt_rel s' a.
Proof.
  intros Hd Hok Hs. pose proof Hok as Hok0. unfold fits in Hok. unfold main_step, die in Hs.
  assert (∀ B' s1, dead s1 = false → objects s1 = objects s → fits B' live s1 →
    ∃ a, run mt_debt_lts (Some (owed_of live (objects s))) [] a ∧ mt_rel s1 a) as Hquiet.
  { intros B' s1 H1 H2 H3. exists (Some (owed_of live (objects s))). split; [constructor|].
    split; [done|]. exists B', live. by rewrite H2. }
  assert (∀ e s1, runtime e → dead s1 = true → disciplined (sys s1) →
    ∃ a, run mt_debt_lts (Some (owed_of live (objects s))) [Died e] a ∧ mt_rel s1 a) as Hdie.
  { intros e s1 He H1 H2. by apply (dies _ e [] s1 (λ _, True)); [apply pays_nothing|..]. }
  destruct (main s) as [| |r|r p [a|]] eqn:Hmn.
  - destruct (call_step _ _ _ _) as [[m res]|] eqn:Hc; [|done]. simpl in Hs.
    pose proof (ok_start _ _ _ _ _ _ _ _ _ Hok Hc) as Hr.
    destruct res as [es|]; [destruct Hr as [Hr He]; destruct (thrown es) as [e|]|]; simplify_eq.
    + apply Hdie; [by apply He|done|apply (k_owners _ _ _ _ _ _ _ Hr)].
    + by apply (Hquiet B).
    + apply (Hquiet B); [done..|]. unfold fits. simpl. by rewrite Hmn.
  - destruct (EventLoop.make strerror (kern s) 128 0) as [k [r|e]] eqn:Hm; simplify_eq.
    + eapply Hquiet; [done..|]. exact (ok_make _ _ _ _ _ _ _ _ Hok Hm).
    + pose proof (k_owners _ _ _ _ _ _ _ Hok) as (_ & Hdis & _).
      destruct (make_loop_throws _ _ _ Hm) as [He| ->]; [by apply Hdie|].
      destruct (k_main _ _ _ _ _ _ _ Hok) as [_ ->]. exists None.
      split; [|done]. unfold owed_of. rewrite fmap_empty. apply run_one, mt_no_memory.
  - destruct (EventLoop.add _ _ _ _ _ _) as [[k r'] res] eqn:Ha.
    pose proof (ok_add_listen _ _ _ _ _ _ _ _ _ _ Hok Ha) as Hr.
    destruct res as [b|e]; simpl in Hs; simplify_eq; [by apply (Hquiet B)|].
    apply Hdie; [done|done|apply (k_owners _ _ _ _ _ _ _ Hok)].
  - destruct (acceptor_step _ _ _) as [[[s1 n] os1]|] eqn:Ha; [|done]. simpl in Hs.
    destruct (acceptor_sim _ _ _ _ _ _ _ _ _ Hd Hok0 Hmn Ha) as [Hd1 Hp].
    destruct n as [a'| |e]; simplify_eq; [by eapply lives|by eapply lives|].
    destruct Hp as (t & Hrun & He & Hdis). eapply (dies _ _ _ _ (λ _, True)); [by exists t|done..].
  - destruct (EventLoop.loop _ _ _ _) as [[[k p'] es]|] eqn:Hl; [|done]. simpl in Hs.
    destruct (ok_serve _ _ _ _ _ _ _ _ _ _ _ Hok Hl) as [[what ->]|(Hes & H1 & H2)].
    { simplify_eq. apply Hdie; [by eexists|done|apply (k_owners _ _ _ _ _ _ _ Hok)]. }
    destruct es as [|[] [|]]; simplify_eq; try (by apply (Hquiet B)). by destruct (Hes e).
Qed.

Lemma mt_sim s os s' a :
  mt_rel s a → mt_step strerror s os s' → ∃ a', run mt_debt_lts a os a' ∧ mt_rel s' a'.
Proof.
  intros Hr Hs. destruct a as [t|]; [destruct Hr as (Hd & B & live & Hok & ->)|].
  - destruct Hs as [spawn s s' os _ Hs|i s s' os _ Hs|i s r n _ Hr Hn|k' s _ Hk].
    + by eapply main_sim.
    + by eapply worker_sim.
    + exists (Some (owed_of live (objects s))). split; [constructor|]. split; [done|].
      exists B, live. split; [|done]. exact (ok_wake _ _ _ _ _ _ _ _ _ _ Hok Hr Hn).
    + exists (Some (owed_of live (objects s))). split; [constructor|]. split; [done|].
      exists B, live. split; [|done]. exact (ok_arrives _ _ _ _ _ _ _ _ Hok Hk).
  - destruct Hr as [Hr _]. destruct Hs; congruence.
Qed.

(** *** Construction *)

Lemma createListenSocket_ok k port k' o :
  createListenSocket k port = (k', o) →
  match o with
  | Returns l => 0 ≤ l ∧ l ∈ open_fds k'
  | Throws e => runtime e ∧ open_fds k' = open_fds k
  end.
Proof.
  unfold createListenSocket, destroy_fd, reset, release. intros Hc.
  destruct (new_socket k) as [k1 [l|e]] eqn:Hs; cycle 1.
  { simplify_eq. split; [by eexists|]. by apply law_socket_error in Hs as ((? & _) & _). }
  apply law_socket in Hs as (Hl & Hnew & Ho & _). rewrite (proj2 (Z.leb_le 0 l)) in Hc by done.
  assert (∀ k2, open_fds k2 = open_fds k1 → open_fds (close_fd k2 l) = open_fds k) as Hclose.
  { intros k2 Hk2. rewrite law_close, Hk2, Ho. set_solver. }
  pose proof (law_reuseaddr k1 l) as ((Hf1 & _) & _).
  destruct (set_reuseaddr k1 l) as [k2 [e|]]; cbn in Hf1, Hc; simplify_eq; [split; [by eexists|auto]|].
  pose proof (law_bind k2 l (port mod 65536)) as ((Hf2 & _) & _).
  destruct (bind_port k2 l _) as [k3 [e|]]; cbn in Hf2, Hc; simplify_eq;
    [split; [by eexists|apply Hclose; congruence]|].
  pose proof (law_listen k3 l) as ((Hf3 & _) & _).
  destruct (listen_on k3 l) as [k4 [e|]]; cbn in Hf3, Hc; simplify_eq;
    [split; [by eexists|apply Hclose; congruence]|].
  split; [done|]. rewrite Hf3, Hf2, Hf1, Ho. set_solver.
Qed.

Lemma mt_init_fits hardware s :
  mt_init strerror hardware s → dead s = false ∧ multi_init strerror hardware (sys s)
    ∧ ∃ B, fits B ∅ s ∧ objects s = [].
Proof.
  intros (Hhw & k & arg & k' & Hmain). unfold mt_main in Hmain.
  destruct (createListenSocket k _) as [k1 [l|e]] eqn:Hl; [|done].
  apply createListenSocket_ok in Hl as [Hl0 Hl].
  destruct (MultiReactor.make _ _ _ _) as [k2 [mr|e]] eqn:Hmk; [|done]. simplify_eq.
  set (m := mkMSystem _ _ _ _ _ _ _ _).
  assert (multi_init strerror hardware m) as Hinit.
  { exists k1, worker_config. split_and!; try done. by apply (Forall_replicate (λ c, c = Idle) (S (length (loops mr)))). }
  pose proof (multi_init_ok _ _ _ Hinit) as Hm. pose proof (owners_init _ _ _ Hinit) as Ho.
  split; [done|]. split; [done|]. exists (open_fds k'). split; [|done].
  unfold MultiReactor.make in Hmk. destruct (max_events_per_loop _ =? 0); [done|].
  destruct (make_loops _ _ _ _ _) as [k3 [rs|e]] eqn:Hml; [|done]. simplify_eq.
  pose proof (make_loops_open _ _ _ _ _ _ _ Hml) as (Hlen & Hsub & Hfds & _).
  apply make_loops_ok in Hml as (_ & Hrs).
  assert (∀ i p, replicate (length rs) Outside !! i = Some p → p = Outside) as Hout.
  { intros i p Hi. by apply lookup_replicate in Hi as [-> _]. }
  split; simpl; try done.
  - unfold count. simpl. by rewrite !length_replicate.
  - split_and!; [set_solver|set_solver|done|by apply Hsub].
  - intros i r Hr. destruct (Hfds r) as (? & ? & _); [by eapply list_elem_of_lookup_2|done].
  - intros i r d w Hr. destruct (Hrs _ _ Hr) as (_ & -> & _). by rewrite lookup_empty.
  - intros i p Hp. rewrite (Hout i p Hp). split; [constructor|by intros e cb ?%elem_of_nil].
  - intros i h Hi. by apply lookup_replicate in Hi as [? _].
  - intros i j h h' Hi. by apply lookup_replicate in Hi as [? _].
  - intros i Hi. apply lookup_replicate in Hi as [_ Hi]. by apply lookup_replicate_2.
  - exists Idle. done.
Qed.

Lemma mt_init_rel hardware s : mt_init strerror hardware s → mt_rel s (Some ∅).
Proof.
  intros (Hd & _ & B & Hok & Ho)%mt_init_fits. split; [done|]. exists B, ∅. split; [done|].
  by rewrite Ho.
Qed.

(** *** The server as a client of the reactor *)

Definition reactor_moves m m' : Prop := m' = m ∨ ∃ es, multi_step strerror m es m'.

Lemma moves_beside B live m l mn objs rs k' :
  ok B live m l mn objs rs → elsewhere_all (kernel_ m) k' (multi m) →
  reactor_moves m (m <| kernel_ := k' |>).
Proof. intros _ He. right. exists []. by apply multi_elsewhere. Qed.

Lemma moves_inner B live m l mn objs rs k' :
  ok B live m l mn objs rs → inner (kernel_ m) k' → reactor_moves m (m <| kernel_ := k' |>).
Proof. intros Hok Hk. eapply moves_beside; [done|by apply inner_elsewhere]. Qed.

Lemma moves_call spawn j e m m' r :
  call_step spawn j e m = Some (m', r) → (∀ i, loop_of j = Some i → in_callback m i) →
  reactor_moves m m'.
Proof.
  intros Hc Hin. destruct (call_step_multi _ _ _ _ _ _ Hc Hin) as (c & c' & es & _ & Hs & _).
  right. eauto.
Qed.

Lemma handler_moves B live i h s s' n os :
  fits B live s → runs s !! i = Some (Some h) →
  handler_step strerror i h s = Some (s', n, os) → reactor_moves (sys s) (sys s').
Proof.
  intros Hok Hi Hs. destruct (k_runs _ _ _ _ _ _ _ Hok _ _ Hi) as [c Hrun].
  pose proof (r_object _ _ _ _ _ _ Hrun) as Ho.
  destruct h as [e o|o|o|o|o|o]; simpl in Ho, Hs; rewrite Ho in Hs; simpl in Hs.
  - destruct (recv _ _ _) as [k res] eqn:Hr.
    destruct (law_recv _ _ _ _ _ Hr ltac:(done)) as (Hk & _).
    assert (sys s' = (sys s) <| kernel_ := k |>) as ->; [|by eapply moves_inner].
    destruct res as [[|]|]; [| |case_bool_decide]; by simplify_eq.
  - case_bool_decide; [simplify_eq; by left|].
    destruct (send _ _ _) as [k res] eqn:Hr. destruct (law_send _ _ _ _ _ Hr) as (Hk & _).
    assert (sys s' = (sys s) <| kernel_ := k |>) as ->; [|by eapply moves_inner].
    destruct res as [z|]; [destruct (0 <? z)|case_bool_decide]; by simplify_eq.
  - destruct (call_step _ _ _ _) as [[m r]|] eqn:Hc; [|done]. simplify_eq/=.
    eapply moves_call; [done|by eapply run_in_callback].
  - simplify_eq. by left.
  - destruct (call_step _ _ _ _) as [[m r]|] eqn:Hc; [|done]. simplify_eq/=.
    eapply moves_call; [done|by eapply run_in_callback].
  - simplify_eq. eapply moves_beside; [exact Hok|].
    eapply close_elsewhere; [exact Hok|]. apply (r_live _ _ _ _ _ _ Hrun).
Qed.

Lemma worker_moves B live i s s' os :
  fits B live s → worker_step strerror i s = Some (s', os) → reactor_moves (sys s) (sys s').
Proof.
  intros Hok Hs. unfold worker_step in Hs. destruct (runs s !! i) as [[h|]|] eqn:Hi; [| |done].
  - destruct (handler_step _ _ _ _) as [[[s1 n] os1]|] eqn:Hh; [|done].
    assert (sys s' = sys s1) as -> by (by destruct n; simplify_eq/=). by eapply handler_moves.
  - destruct (loops (multi (sys s)) !! i) as [r|] eqn:Hr; [|done]. simpl in Hs.
    destruct (pcs (sys s) !! i) as [p|] eqn:Hp; [|done]. simpl in Hs.
    destruct (EpollReactor.loop_step strerror (kern s) r p) as [[[k p'] es]|] eqn:Hl; [|done].
    simpl in Hs. destruct (existsb escapes es) eqn:Hesc.
    + assert (es = [] → False) by (by intros ->).
      destruct (ok_loop _ _ _ _ _ _ _ _ _ _ _ _ _ Hok Hi Hr Hp Hl) as [[what ->]|[_ Hes]].
      * unfold die in Hs. simplify_eq. by left.
      * destruct Hes as [[->|[->|[x ->]]]|(? & ? & ? & ? & ? & -> & _)]; done.
    + right. exists (OnLoop i <$> es).
      assert (sys s' = (sys s) <| kernel_ := k |> <| pcs ::= <[i := p']> |>) as ->;
        [|exact (multi_loop strerror i _ r p k p' es Hr Hp
             (λ _, callback_over _ _ (k_rest _ _ _ _ _ _ _ Hok _ Hi)) Hl Hesc)].
      destruct es as [|[] [|]]; simplify_eq; try done.
      destruct (objects s !! Z.to_nat cb); [|done]. by simplify_eq/=.
Qed.

Lemma main_moves B live spawn s s' os :
  fits B live s → main_step strerror spawn s = Some (s', os) → reactor_moves (sys s) (sys s').
Proof.
  intros Hok Hs. unfold fits in Hok. unfold main_step, die in Hs.
  destruct (main s) as [| |r|r p [a|]] eqn:Hmn.
  - destruct (call_step _ _ _ _) as [[m res]|] eqn:Hc; [|done]. simpl in Hs.
    assert (sys s' = m) as ->; [|by eapply moves_call, main_no_callback].
    destruct res as [es|]; [destruct (thrown es)|]; by simplify_eq.
  - destruct (EventLoop.make strerror (kern s) 128 0) as [k [r|e]] eqn:Hm; simplify_eq; [|by left].
    eapply moves_beside; [exact Hok|]. by eapply kept_elsewhere, make_kept.
  - destruct (EventLoop.add _ _ _ _ _ _) as [[k r'] res] eqn:Ha.
    pose proof (listen_beside _ _ _ _ _ _ _ _ _ _ Hok Ha) as Hr.
    destruct res as [b|e]; simpl in Hs; simplify_eq; [|by left].
    eapply moves_beside; [exact Hok|]. by destruct Hr as (_ & _ & _ & ?).
  - destruct a as [|o|o e]; simpl in Hs.
    + destruct (accept4 (kern s) (listen_fd s)) as [k [d|er]] eqn:Ha; simpl in Hs.
      * simplify_eq. eapply moves_beside; [exact Hok|]. by eapply kept_elsewhere, accept_kept.
      * destruct (law_accept_error _ _ _ _ Ha) as (Hk & _).
        assert (sys s' = (sys s) <| kernel_ := k |>) as ->; [|by eapply moves_inner].
        case_bool_decide; by simplify_eq.
    + destruct (objects s !! o) as [c|] eqn:Ho; [|done]. simpl in Hs.
      destruct (call_step _ _ _ _) as [[m res]|] eqn:Hc; [|done]. simpl in Hs.
      assert (sys s' = m) as ->; [|by eapply moves_call, main_no_callback].
      destruct res as [es|]; [destruct (thrown es)|]; by simplify_eq.
    + destruct (k_main _ _ _ _ _ _ _ Hok) as (_ & _ & c & Ho & Hl & Hcl & _). rewrite Ho in Hs.
      simpl in Hs. simplify_eq. eapply moves_beside; [exact Hok|]. unfold destroy_connection.
      destruct (_ && _); [|done]. by eapply close_elsewhere.
  - destruct (EventLoop.loop _ _ _ _) as [[[k p'] es]|] eqn:Hl; [|done]. simpl in Hs.
    destruct (k_main _ _ _ _ _ _ _ Hok) as (Hr & _).
    pose proof (loop_frame strerror _ _ _ _ _ _ Hl (l_eventfd _ _ _ Hr)) as Hf.
    pose proof (moves_beside _ _ _ _ _ _ _ _ Hok (beside_elsewhere _ _ _ _ _ _ _ _ _ Hok Hr Hf))
      as Hmv.
    destruct es as [|[] [|]]; simplify_eq; try exact Hmv. by left.
Qed.

Definition soundly hardware s : Prop :=
  reachable (disciplined_lts strerror hardware) (sys s) ∧ ∃ a, mt_rel s a.

Lemma mt_sound hardware s os s' :
  soundly hardware s → mt_step strerror s os s' → soundly hardware s'.
Proof.
  intros [Hreach [a Ha]] Hs. destruct (mt_sim _ _ _ _ Ha Hs) as (a' & _ & Ha').
  split; [|by exists a'].
  assert (disciplined (sys s')) as Hd.
  { destruct a' as [t|]; [|apply Ha']. destruct Ha' as (_ & B & live & Hok & _).
    apply (k_owners _ _ _ _ _ _ _ Hok). }
  assert (∃ B live, fits B live s) as (B & live & Hok).
  { destruct a as [t|]; [destruct Ha as (_ & B & live & ? & _); eauto|].
    destruct Ha as [Ha _]. destruct Hs; congruence. }
  assert (reactor_moves (sys s) (sys s')) as [->|[es Hst]]; [|done|].
  { destruct Hs as [spawn s s' os _ Hs|i s s' os _ Hs|i s r n _ Hr Hn|k' s _ Hk].
    - by eapply main_moves.
    - by eapply worker_moves.
    - right. exists []. exact (multi_wake strerror i _ r n Hr Hn).
    - by eapply moves_inner. }
  by apply (reachable_step (disciplined_lts strerror hardware) (sys s) es).
Qed.

Lemma mt_init_soundly hardware s : mt_init strerror hardware s → soundly hardware s.
Proof.
  intros Hi. split; [|eexists; by eapply mt_init_rel]. apply reachable_initial.
  by apply (mt_init_fits _ _ Hi).
Qed.

Lemma mt_reachable_sound hardware s :
  reachable (mt_lts strerror hardware) s → soundly hardware s.
Proof.
  apply reachable_invariant; [apply mt_init_soundly|]. intros x o y. apply mt_sound.
Qed.

Lemma mt_reachable_fits hardware s :
  reachable (mt_lts strerror hardware) s → dead s = false → ∃ B live, fits B live s.
Proof.
  intros [_ [[t|] Ha]]%mt_reachable_sound Hd; [|by destruct Ha; congruence].
  destruct Ha as (_ & B & live & ? & _). eauto.
Qed.

(** The mutex that a callback's call needs is that of its own loop, whose
    thread is inside the callback. *)
Lemma loop_call_progress m i b todo n c :
  pcs m !! i = Some (InCallback b todo n) → (i < count m)%nat →
  is_Some (loop_call strerror m i c).
Proof.
  intros Hp Hi. destruct (lookup_lt_is_Some_2 _ _ Hi) as [r Hr].
  unfold loop_call. rewrite Hr, Hp. simpl.
  destruct (locked _ _ _ _ _) as [[k1 r1] o1]. by eexists.
Qed.

Lemma handler_progress B live i h s c :
  fits B live s → runs s !! i = Some (Some h) → run_ok live (sys s) (objects s) i h c →
  is_Some (handler_step strerror i h s).
Proof.
  intros Hok Hi Hrun. pose proof Hrun as [Ho _ _ (cl & Hcl & Hcall) (b & todo & n & Hp & _) _].
  pose proof (k_len _ _ _ _ _ _ _ Hok) as [_ Hlen].
  assert (i < count (sys s))%nat as Hlt by (rewrite <-Hlen; by eapply lookup_lt_Some).
  destruct h as [e o|o|o|o|o|o]; simpl in Ho |- *; rewrite Ho; simpl; try (by eexists).
  - destruct (recv _ _ _) as [k [[|]|]]; [| |case_bool_decide]; by eexists.
  - case_bool_decide; [by eexists|].
    destruct (send _ _ _) as [k [z|]]; [destruct (0 <? z)|case_bool_decide]; by eexists.
  - unfold Mt.call_step. rewrite Hcl. simpl. destruct Hcall as [->|[ev ->]]; simpl.
    + destruct (owners _ !! _); by eexists.
    + destruct (loop_call_progress (sys s) i b todo n (Modify (conn_fd c) ev) Hp Hlt) as [[m x] ->].
      by eexists.
  - unfold Mt.call_step. rewrite Hcl. simpl. destruct Hcall as [->| ->]; simpl.
    + destruct (owners _ !! _); by eexists.
    + destruct (loop_call_progress (sys s) i b todo n (Remove (conn_fd c)) Hp Hlt) as [[m x] ->].
      by eexists.
Qed.

(** ** Properties *)

(** C30: the multi-threaded server echoes.  However the main thread, the four
    workers and the kernel interleave, a run of the server is a run of the same
    table of debts that the single-threaded server implements: every connection
    is accepted once, gets back what it sent, in order, and is closed once, and
    each open connection is owed its [output]; when the process dies it is with
    a system error, never because a descriptor was registered twice or not at
    all, or, before any connection is accepted, because there is no memory for
    the main loop's buffer. *)
Theorem mt_echo_refines_debts hardware s0 os s
    (Hinit : mt_init strerror hardware s0) (Hrun : run (mt_lts strerror hardware) s0 os s) :
  ∃ a, run mt_debt_lts (Some ∅) os a
    ∧ match a with
      | None => dead s = true
      | Some t => dead s = false
          ∧ ∀ o c, objects s !! o = Some c → closed c = false → t !! conn_fd c = Some (output c)
      end.
Proof.
  destruct (simulation_run (mt_lts strerror hardware) mt_debt_lts mt_rel
    (λ x a o y HR Hst, mt_sim x o y a HR Hst) _ _ _ Hrun _ (mt_init_rel _ _ Hinit)) as (a & Hr & Ha).
  exists a. split; [done|]. destruct a as [t|]; [|apply Ha].
  destruct Ha as (Hd & B & live & Hok & ->). split; [done|]. intros o c Ho Hc.
  by apply owed_lookup with o; [apply (k_gone _ _ _ _ _ _ _ Hok)|].
Qed.

(** The server keeps to the reactor's rules.  In every run the calls of
    the threads never work on one descriptor at the same time, so the reactor
    is in a state that its disciplined clients reach, and all that is proved of
    those holds: each loop is a reactor, and a descriptor belongs to one. *)
Theorem mt_echo_drives_reactor hardware s
    (Hs : reachable (mt_lts strerror hardware) s) :
  reachable (disciplined_lts strerror hardware) (sys s).
Proof. by apply mt_reachable_sound in Hs as [? _]. Qed.

(** C31: a callback never gets stuck.  In every reachable state the thread that
    is inside a callback can take its next step: the connection the callback
    names exists, and no mutex it needs is held for good; and two threads are
    never inside callbacks of one connection. *)
Theorem mt_callbacks_never_stuck hardware s i h
    (Hs : reachable (mt_lts strerror hardware) s) (Halive : dead s = false)
    (Hi : runs s !! i = Some (Some h)) :
  is_Some (worker_step strerror i s)
  ∧ is_Some (objects s !! object h)
  ∧ ∀ j h', runs s !! j = Some (Some h') → object h' = object h → j = i.
Proof.
  destruct (mt_reachable_fits _ _ Hs Halive) as (B & live & Hok).
  destruct (k_runs _ _ _ _ _ _ _ Hok _ _ Hi) as [c Hrun].
  pose proof (r_object _ _ _ _ _ _ Hrun) as Ho. split_and!; [|by eexists|].
  - assert (is_Some (handler_step strerror i h s)) as [[[s' n] os] Hst].
    { by eapply handler_progress. }
    unfold worker_step. rewrite Hi, Hst. by eexists.
  - intros j h' Hj Heq. by eapply (k_once _ _ _ _ _ _ _ Hok).
Qed.

(** C32: no descriptor leaks and none is closed twice.  In every reachable
    state a connection that is not marked closed has its descriptor open, is
    the only such connection with that descriptor, and is watched by a loop or
    in the hands of the main thread; so the destructor of a connection that
    nothing refers to any more closes nothing. *)
Theorem mt_connections_owned hardware s o c
    (Hs : reachable (mt_lts strerror hardware) s) (Halive : dead s = false)
    (Ho : objects s !! o = Some c) :
  (closed c = false →
     (conn_fd c ∈ open_fds (kern s))
     ∧ (∀ o' c', objects s !! o' = Some c' → closed c' = false → conn_fd c' = conn_fd c → o' = o)
     ∧ ((∃ i, watched_by (sys s) i (conn_fd c) o) ∨ in_hand (main s) = Some o))
  ∧ ((∀ i, ¬ watched_by (sys s) i (conn_fd c) o) → in_hand (main s) ≠ Some o →
     destroy_connection (kern s) c = kern s).
Proof.
  destruct (mt_reachable_fits _ _ Hs Halive) as (B & live & Hok).
  assert (closed c = false →
    (∃ i, watched_by (sys s) i (conn_fd c) o) ∨ in_hand (main s) = Some o) as Hheld.
  { intros Hc. pose proof (k_gone _ _ _ _ _ _ _ Hok _ _ Ho Hc) as Hl.
    destruct (k_held _ _ _ _ _ _ _ Hok _ _ Hl) as [?|[[i Hi]|?]]; [by left| |by right].
    destruct (k_runs _ _ _ _ _ _ _ Hok _ _ Hi) as [c' Hrun].
    pose proof (r_object _ _ _ _ _ _ Hrun). pose proof (r_closed _ _ _ _ _ _ Hrun).
    simplify_eq/=. congruence. }
  split.
  - intros Hc. pose proof (k_gone _ _ _ _ _ _ _ Hok _ _ Ho Hc) as Hl. split_and!; [| |auto].
    + pose proof (k_fds _ _ _ _ _ _ _ Hok) as (Hf & _). unfold kern. rewrite Hf.
      apply elem_of_union_r, elem_of_dom. eauto.
    + intros o' c' Ho' Hc' Heq. pose proof (k_gone _ _ _ _ _ _ _ Hok _ _ Ho' Hc') as Hl'.
      rewrite Heq in Hl'. congruence.
  - intros Hw Hin. unfold destroy_connection. destruct (closed c); [done|].
    destruct (Hheld eq_refl) as [[i Hi]|?]; [by destruct (Hw i)|done].
Qed.

(** A run that ends alive is one of the single-threaded server's table. *)
Lemma mt_debt_alive a os t : run mt_debt_lts a os (Some t) → run debt_lts a os (Some t).
Proof.
  intros Hr. remember (Some t) as b eqn:Hb. induction Hr as [a|a o a' os b Hst Hr IH]; [constructor|].
  specialize (IH Hb). destruct Hst as [a o a' Hst|].
  - by econstructor.
  - subst b. inversion IH as [|? ? ? ? ? Hst' _]. by inversion Hst'.
Qed.

(** Every byte comes back, in order: what was sent to an open connection and its
    [output] make up what was received from it. *)
Theorem mt_echo_bytes_exact hardware s0 os s o c
    (Hinit : mt_init strerror hardware s0) (Hrun : run (mt_lts strerror hardware) s0 os s)
    (Halive : dead s = false) (Ho : objects s !! o = Some c) (Hc : closed c = false) :
  (traffic (conn_fd c) os).1 = (traffic (conn_fd c) os).2 ++ output c.
Proof.
  destruct (simulation_run (mt_lts strerror hardware) mt_debt_lts mt_rel
    (λ x a o y HR Hst, mt_sim x o y a HR Hst) _ _ _ Hrun _ (mt_init_rel _ _ Hinit)) as (a & Hr & Ha).
  destruct a as [t|]; [|by destruct Ha; congruence]. apply mt_debt_alive in Hr.
  destruct (debt_run_paid (conn_fd c) _ _ _ Hr ([], [])) as [_ Hpaid].
  { split; [done|]. intros t' x [= <-]. by rewrite lookup_empty. }
  destruct Ha as (_ & B & live & Hok & ->). apply (Hpaid _ _ eq_refl).
  apply owed_lookup with o; [by apply (k_gone _ _ _ _ _ _ _ Hok)|done].
Qed.
End theory.

(** ** Played runs *)

Local Abbreviation strerr := (λ _ : errno, "error"%string).
Local Abbreviation net_server := (@server net).
Local Abbreviation net_lts := (mt_lts (K:=net) strerr 4).

(** What is done next: a thread, if it can move; a wake-up; news for the
    instance [ep]. *)
Inductive turn :=
  | MainTurn
  | WorkerTurn (i : nat)
  | WakeTurn (i : nat)
  | News (ep : Z) (h : happening).

Definition take_turn (a : turn) (s : net_server) : net_server * list observation :=
  if dead s then (s, [])
  else match a with
  | MainTurn => default (s, []) (main_step strerr None s)
  | WorkerTurn i => default (s, []) (worker_step strerr i s)
  | WakeTurn i =>
      match loops (multi (sys s)) !! i, pending (sys s) !! i with
      | Some r, Some (S n) =>
          (s <| sys ::= λ m, m <| kernel_ := EventLoop.wake (kernel_ m) r |>
                               <| pending := <[i := n]> (pending m) |> |>, [])
      | _, _ => (s, [])
      end
  | News ep h => (in_kernel (happen (kern s) ep h) s, [])
  end.

Fixpoint take_turns (l : list turn) (s : net_server) : net_server * list observation :=
  match l with
  | [] => (s, [])
  | a :: l =>
      let '(s, os) := take_turn a s in
      let '(s, os') := take_turns l s in (s, os ++ os')
  end.

(** A server on a machine with [limit] descriptors, after the turns [l]. *)
Definition mt_script (limit : Z) (l : list turn) : option (net_server * list observation) :=
  match mt_main strerr 4 (mkNet (mkKernel {[0; 1; 2]} 3 limit ∅ ∅ ∅ 1) ∅ ∅ ∅ ∅ ∅) None with
  | (_, Returns s) => Some (take_turns l s)
  | _ => None
  end.

Lemma take_turn_run a s s' os : take_turn a s = (s', os) → run net_lts s os s'.
Proof.
  unfold take_turn. destruct (dead s) eqn:Hd; [intros [= <- <-]; constructor|].
  destruct a as [|i|i|ep h].
  - destruct (main_step strerr None s) as [[s1 os1]|] eqn:Hm; intros [= <- <-]; [|constructor].
    apply run_one. by eapply mt_main_thread.
  - destruct (worker_step strerr i s) as [[s1 os1]|] eqn:Hm; intros [= <- <-]; [|constructor].
    apply run_one. by eapply mt_worker.
  - destruct (loops (multi (sys s)) !! i) as [r|] eqn:Hr; [|intros [= <- <-]; constructor].
    destruct (pending (sys s) !! i) as [[|n]|] eqn:Hn; intros [= <- <-]; try constructor.
    apply run_one. by eapply mt_wake.
  - intros [= <- <-]. apply run_one, mt_arrives; [done|]. apply happen_arrives.
Qed.

Lemma take_turns_run l : ∀ s s' os, take_turns l s = (s', os) → run net_lts s os s'.
Proof.
  induction l as [|a l IH]; simpl; intros s s' os Ht; [simplify_eq; constructor|].
  destruct (take_turn a s) as [s1 os1] eqn:H1, (take_turns l s1) as [s2 os2] eqn:H2.
  simplify_eq. eapply run_app; [by eapply take_turn_run|eauto].
Qed.

Lemma mt_script_run {A} limit l (φ : net_server * list observation → A) v :
  φ <$> mt_script limit l = Some v →
  ∃ s0 s os, mt_init strerr 4 s0 ∧ run net_lts s0 os s ∧ φ (s, os) = v.
Proof.
  unfold mt_script. destruct (mt_main _ _ _ _) as [k [s0|e]] eqn:Hm; [|done].
  destruct (take_turns l s0) as [s os] eqn:Ht. simpl. intros [= <-].
  exists s0, s, os. split; [by split; [done|eauto]|]. split; [by eapply take_turns_run|done].
Qed.

(** Everybody has [n] turns. *)
Definition rounds (n : nat) : list turn :=
  concat (replicate n
    [MainTurn; WorkerTurn 0; WorkerTurn 1; WorkerTurn 2; WorkerTurn 3;
     WakeTurn 0; WakeTurn 1; WakeTurn 2; WakeTurn 3]).

(** Two connections arrive, and are given to two workers; each sends while the
    sockets take five bytes; the second goes on and ends. *)
Definition hello : list byte := ["h"; "i"]%byte.
Definition two_clients : list turn :=
  rounds 12 ++ [News 12 (Arrive 3 Sockets.Connection); News 12 (Arrive 3 Sockets.Connection)]
  ++ rounds 25 ++ [News 4 (Bytes 14 message); News 6 (Bytes 15 hello)] ++ rounds 25.

Lemma mt_echo_refines_debts_witness :
  ∃ s0 s os, run net_lts s0 os s
  ∧ os = [Accepted 14; Accepted 15; Received 14 message; Received 15 hello;
          Sent 14 (take 5 message); Sent 15 hello; Closed 15]
  ∧ ∃ t, run mt_debt_lts (Some ∅) os (Some t) ∧ t !! 14 = Some (drop 5 message).
Proof.
  destruct (mt_script_run 100 (two_clients ++ [News 6 (Ends 15)] ++ rounds 20)
    (λ x, (x.2, dead x.1, objects x.1))
    ([Accepted 14; Accepted 15; Received 14 message; Received 15 hello;
      Sent 14 (take 5 message); Sent 15 hello; Closed 15], false,
     [mkConnection 14 (drop 5 message) false; mkConnection 15 [] true]))
    as (s0 & s & os & Hi & Hr & Hv); [vm_compute; reflexivity|].
  apply pair_equal_spec in Hv as [[Hos Hd]%pair_equal_spec Hc]. cbn [fst snd] in Hos, Hd, Hc.
  exists s0, s, os. split; [done|]. split; [done|].
  destruct (mt_echo_refines_debts strerr 4 s0 os s Hi Hr) as ([t|] & Ha & Ht); [|congruence].
  exists t. split; [done|]. destruct Ht as [_ Ht].
  apply (Ht 0%nat (mkConnection 14 (drop 5 message) false)); [|done]. by rewrite Hc.
Defined.

Lemma mt_echo_bytes_exact_witness :
  ∃ s0 s os, run net_lts s0 os s ∧ traffic 14 os = (message, take 5 message)
  ∧ message = take 5 message ++ drop 5 message.
Proof.
  destruct (mt_script_run 100 two_clients (λ x, (traffic 14 x.2, dead x.1, objects x.1 !! 0%nat))
    ((message, take 5 message), false, Some (mkConnection 14 (drop 5 message) false)))
    as (s0 & s & os & Hi & Hr & Hv); [vm_compute; reflexivity|].
  apply pair_equal_spec in Hv as [[Ht Hd]%pair_equal_spec Hc]. cbn [fst snd] in Ht, Hd, Hc.
  exists s0, s, os. split; [done|]. split; [done|].
  pose proof (mt_echo_bytes_exact strerr 4 s0 os s _ _ Hi Hr Hd Hc eq_refl) as Hx.
  cbn [conn_fd output] in Hx. by rewrite Ht in Hx.
Defined.

Lemma mt_echo_drives_reactor_witness :
  ∃ s, owners (multi s) = {[14 := 0%nat; 15 := 1%nat]}
  ∧ reachable (disciplined_lts (K:=net) strerr 4) s.
Proof.
  destruct (mt_script_run 100 two_clients (λ x, owners (multi (sys x.1)))
    {[14 := 0%nat; 15 := 1%nat]}) as (s0 & s & os & Hi & Hr & Hv); [vm_compute; reflexivity|].
  exists (sys s). split; [exact Hv|]. apply (mt_echo_drives_reactor strerr 4 s). by exists s0, os.
Defined.

(** One worker is at the [recv] of its connection, the other inside [remove]. *)
Definition in_callbacks : list turn :=
  two_clients ++ [News 4 (Bytes 14 hello); News 6 (Ends 15)]
  ++ replicate 4 (WorkerTurn 0) ++ replicate 7 (WorkerTurn 1).

Lemma mt_callbacks_never_stuck_witness :
  ∃ s, reachable net_lts s ∧ runs s !! 1%nat = Some (Some (CloseRemove 1))
  ∧ clients (sys s) !! 2%nat = Some (RemoveLoop 15 1)
  ∧ is_Some (worker_step strerr 1 s).
Proof.
  destruct (mt_script_run 100 in_callbacks
    (λ x, (dead x.1, runs x.1 !! 1%nat, clients (sys x.1) !! 2%nat))
    (false, Some (Some (CloseRemove 1)), Some (RemoveLoop 15 1)))
    as (s0 & s & os & Hi & Hr & Hv); [vm_compute; reflexivity|].
  apply pair_equal_spec in Hv as [[Hd Hrn]%pair_equal_spec Hc]. cbn [fst snd] in Hd, Hrn, Hc.
  assert (reachable net_lts s) as Hs by (by exists s0, os).
  exists s. split; [done|]. split; [done|]. split; [done|].
  by destruct (mt_callbacks_never_stuck strerr 4 s 1 _ Hs Hd Hrn).
Defined.

Lemma mt_connections_owned_witness :
  ∃ s, reachable net_lts s ∧ objects s !! 0%nat = Some (mkConnection 14 (drop 5 message) false)
  ∧ (14 ∈ open_fds (kern s))
  ∧ objects s !! 1%nat = Some (mkConnection 15 [] true)
  ∧ destroy_connection (kern s) (mkConnection 15 [] true) = kern s.
Proof.
  destruct (mt_script_run 100 (two_clients ++ [News 6 (Ends 15)] ++ rounds 20)
    (λ x, (dead x.1, objects x.1, main x.1, watchers <$> loops (multi (sys x.1))))
    (false, [mkConnection 14 (drop 5 message) false; mkConnection 15 [] true],
     Serve (mkState 0 12 13 128 {[3 := mkWatcher 5 0]} false) (Wait true (-1)) None,
     [{[14 := mkWatcher 7 0]}; ∅; ∅; ∅])) as (s0 & s & os & Hi & Hr & Hv); [vm_compute; reflexivity|].
  apply pair_equal_spec in Hv as [[[Hd Ho]%pair_equal_spec Hm]%pair_equal_spec Hw].
  cbn [fst snd] in Hd, Ho, Hm, Hw.
  assert (reachable net_lts s) as Hs by (by exists s0, os).
  assert (objects s !! 0%nat = Some (mkConnection 14 (drop 5 message) false)
    ∧ objects s !! 1%nat = Some (mkConnection 15 [] true)) as [H0 H1] by (by rewrite Ho).
  exists s. split; [done|]. split; [done|].
  split; [by apply (mt_connections_owned strerr 4 s 0 _ Hs Hd H0)|]. split; [done|].
  apply (mt_connections_owned strerr 4 s 1 _ Hs Hd H1); [|by rewrite Hm].
  intros i (r & w & Hl & Hwr & _). cbn [conn_fd] in Hwr.
  assert ((watchers <$> loops (multi (sys s))) !! i = Some (watchers r)) as Hx
    by (by rewrite list_lookup_fmap, Hl).
  rewrite Hw in Hx. destruct i as [|[|[|[|i]]]]; simpl in Hx; simplify_eq;
    rewrite <-Hx in Hwr; done.
Defined.

(** ** What the runs show *)

(** A peer that has stopped sending is closed at once, whatever it sent before
    and is still to be read or echoed; and every registration asks to be told
    that a peer has stopped sending. *)
Theorem mt_half_close_discards d bits i o c ev :
  has bits EPOLLRDHUP = true →
  handleConnection (mkEvent d (fromNativeEvents bits) i) o c = CloseFlag o
  ∧ has (toNativeEvents ev) EPOLLRDHUP = true.
Proof.
  intros Hb. destruct (from_native_exact bits) as (_ & _ & _ & _ & Hp & _).
  rewrite Hb in Hp. split; [|apply to_native_exact].
  unfold handleConnection, peerClosed in *. cbn [events] in *. by rewrite Hp, orb_true_r.
Qed.

(** An error of [accept4] other than [EAGAIN] is tried again at once: while it
    lasts the main thread does nothing else and does not sleep. *)
Theorem mt_accept_error_spins {K} `{Kernel K} `{!Sockets K} strerror spawn (s : @server K) r p e :
  main s = Serve r p (Some Accept) → accept4 (kern s) (listen_fd s) = (kern s, inr e) →
  e ≠ EAGAIN → main_step strerror spawn s = Some (s, []).
Proof.
  intros Hm Ha He. unfold main_step. rewrite Hm. simpl. rewrite Ha.
  rewrite bool_decide_eq_false_2 by done. simpl. do 2 f_equal.
  destruct s as [[]]. cbn in *. by subst.
Qed.

(** So it does when the process is out of descriptors. *)
Theorem mt_out_of_descriptors_spins :
  ∃ s, reachable net_lts s ∧ main_step strerr None s = Some (s, [])
  ∧ snd <$> mt_script 14 (rounds 12 ++ [News 12 (Arrive 3 Sockets.Connection)] ++ rounds 30)
    = Some [].
Proof.
  set (l := rounds 12 ++ [News 12 (Arrive 3 Sockets.Connection)] ++ rounds 30).
  destruct (mt_script_run 14 l (λ x, (main x.1, (accept4 (kern x.1) (listen_fd x.1)).2))
    (Serve (mkState 0 12 13 128 {[3 := mkWatcher 5 0]} false)
       (InCallback true [] 1) (Some Accept), inr EMFILE))
    as (s0 & s & os & Hi & Hr & Hv); [vm_compute; reflexivity|].
  apply pair_equal_spec in Hv as [Hm Ha]. cbn [fst snd] in Hm, Ha.
  exists s. split; [by exists s0, os|]. split; [|by vm_compute].
  apply (mt_accept_error_spins strerr None s _ _ EMFILE Hm); [|done].
  destruct (accept4 (kern s) (listen_fd s)) as [k res] eqn:Hk. simpl in Ha. subst res.
  f_equal. cbn in Hk. unfold Net.accept in Hk.
  destruct (default [] (waiting (kern s) !! listen_fd s)) as [|[] q]; [|destruct (Net.fresh _) as [? [?|?]]|];
    by simplify_eq.
Qed.
End Mt.
