(* ===== verification/Handwritten.v ===== *)
(** * The handwritten sketch of the multi-threaded reactor

    multi_thread_reactor/handwritten/multi_thread_reactor_handwritten.cpp: a
    shorter [EventLoop] that ignores every error of the kernel and looks up one
    callback at a time, and the [ReactorPool] that deals descriptors to loops
    with an [int].  The first part interleaves the thread of a loop with the
    threads that call it, the second is the arithmetic of [nextLoop]. *)

From S2P Require Import Prelude Kernel EpollReactor.
Open Scope Z_scope.

Module Hand.

(** ** EventLoop *)

Record EventLoop := mkEventLoop {
  epfd_ : Z;
  wakefd_ : Z;
  callbacks_ : gmap Z Callback;
  stop_ : bool;
}.
#[export] Instance eta_EventLoop : Eta EventLoop := λ l,
  mkEventLoop (epfd_ l) (wakefd_ l) (callbacks_ l) (stop_ l).

(** Where the thread inside [loop] is: at the test of [stop_]; at [epoll_wait];
    in the batch; reading the eventfd; with the callback it has looked up; in
    the callback. *)
Inductive pc :=
  | Out
  | Check
  | Wait
  | Events (rest : list (Z * Z))
  | Draining (rest : list (Z * Z))
  | Found (d bits : Z) (cb : Callback) (rest : list (Z * Z))
  | Calling (rest : list (Z * Z)).

Inductive request :=
  | Add (fd ev : Z) (cb : Callback)
  | Mod (fd ev : Z)
  | Del (fd : Z).

Inductive event :=
  | Called (c : request)
  | Invoked (fd bits : Z) (cb : Callback)
  | Returned
  | StopCalled.

Section event_loop.
Context `{Kernel K}.

(** A failed call leaves -1 in the member. *)
Definition fd_or_minus (r : Z + errno) : Z := match r with inl d => d | inr _ => -1 end.

Definition make (k : K) : K * EventLoop :=
  let '(k, ep) := epoll_create1 k in
  let '(k, w) := eventfd k in
  let l := mkEventLoop (fd_or_minus ep) (fd_or_minus w) ∅ false in
  ((epoll_ctl k (epfd_ l) CtlAdd (wakefd_ l) EPOLLIN).1, l).
Definition destroy (k : K) (l : EventLoop) : K := close_fd (close_fd k (wakefd_ l)) (epfd_ l).

Definition wake (k : K) (l : EventLoop) : K := write_one k (wakefd_ l).

(** The calls, each one critical section. *)
Definition add (k : K) (l : EventLoop) (fd events : Z) (cb : Callback) : K * EventLoop :=
  let l := l <| callbacks_ ::= <[fd := cb]> |> in
  let k := (epoll_ctl k (epfd_ l) CtlAdd fd events).1 in
  (wake k l, l).
Definition mod_ (k : K) (l : EventLoop) (fd events : Z) : K * EventLoop :=
  let k := (epoll_ctl k (epfd_ l) CtlMod fd events).1 in
  (wake k l, l).
Definition del (k : K) (l : EventLoop) (fd : Z) : K * EventLoop :=
  let l := l <| callbacks_ ::= delete fd |> in
  let k := (epoll_ctl k (epfd_ l) CtlDel fd 0).1 in
  let k := close_fd k fd in
  (wake k l, l).

Definition request_step (k : K) (l : EventLoop) (c : request) : K * EventLoop :=
  match c with
  | Add fd ev cb => add k l fd ev cb
  | Mod fd ev => mod_ k l fd ev
  | Del fd => del k l fd
  end.
Definition subject (c : request) : Z := match c with Add fd _ _ | Mod fd _ | Del fd => fd end.

(** One access of [loop]; [None]: it sleeps in [epoll_wait], or is not there. *)
Definition loop_step (k : K) (l : EventLoop) (p : pc) : option (K * pc * list event) :=
  match p with
  | Out => None
  | Check => if stop_ l then Some (k, Out, [Returned]) else Some (k, Wait, [])
  | Wait =>
      match epoll_wait k (epfd_ l) 1024 (-1) with
      | (_, Blocks) => None
      | (k, WaitError _) => Some (k, Check, [])
      | (k, Ready rest) => Some (k, Events rest, [])
      end
  | Events [] => Some (k, Check, [])
  | Events ((d, bits) :: rest) =>
      if d =? wakefd_ l then Some (k, Draining rest, [])
      else match callbacks_ l !! d with
      | None => Some (k, Events rest, [])
      | Some cb => Some (k, Found d bits cb rest, [])
      end
  | Draining rest =>
      let '(k, full) := read_eight k (wakefd_ l) in
      Some (k, if full : bool then Draining rest else Events rest, [])
  | Found d bits cb rest => Some (k, Calling rest, [Invoked d bits cb])
  | Calling rest => Some (k, Events rest, [])
  end.

(** The thread alone, for at most [fuel] accesses. *)
Fixpoint loop_alone (fuel : nat) (k : K) (l : EventLoop) (p : pc) : K * pc * list event :=
  match fuel with
  | O => (k, p, [])
  | S fuel =>
      match loop_step k l p with
      | None => (k, p, [])
      | Some (k, p, es) =>
          let '(k, p, es') := loop_alone fuel k l p in (k, p, es ++ es')
      end
  end.

(** ** The interleaving *)

(** [wakers]: threads inside [stop] that have stored [stop_] and not yet
    written to the eventfd. *)
Record system := mkSystem {
  kern : K;
  self : EventLoop;
  at_ : pc;
  wakers : nat;
}.

(** The descriptors handed to the loop are not its own; the rest of the process
    does not use the loop's. *)
Definition foreign (l : EventLoop) (d : Z) : Prop := d ≠ epfd_ l ∧ d ≠ wakefd_ l.
Definition elsewhere (k k' : K) (l : EventLoop) : Prop :=
  interest k' (epfd_ l) !! wakefd_ l = interest k (epfd_ l) !! wakefd_ l
  ∧ counter k' (wakefd_ l) = counter k (wakefd_ l)
  ∧ is_eventfd k' (wakefd_ l) = is_eventfd k (wakefd_ l).

Inductive hand_step : system → list event → system → Prop :=
  | hand_call c k l p n k' l' :
      foreign l (subject c) → request_step k l c = (k', l') →
      hand_step (mkSystem k l p n) [Called c] (mkSystem k' l' p n)
  | hand_stop k l p n :
      hand_step (mkSystem k l p n) [StopCalled] (mkSystem k (l <| stop_ := true |>) p (S n))
  | hand_wake k l p n :
      hand_step (mkSystem k l p (S n)) [] (mkSystem (wake k l) l p n)
  | hand_loop k l p n k' p' es :
      loop_step k l p = Some (k', p', es) →
      hand_step (mkSystem k l p n) es (mkSystem k' l p' n)
  | hand_enter k l n : hand_step (mkSystem k l Out n) [] (mkSystem k l Check n)
  | hand_elsewhere k l p n k' :
      elsewhere k k' l → hand_step (mkSystem k l p n) [] (mkSystem k' l p n).

(** A loop whose construction met no error. *)
Definition hand_init (s : system) : Prop :=
  ∃ k ep k1 w k2 k3,
    epoll_create1 k = (k1, inl ep) ∧ eventfd k1 = (k2, inl w)
    ∧ epoll_ctl k2 ep CtlAdd w EPOLLIN = (k3, None)
    ∧ make k = (kern s, self s) ∧ at_ s = Out ∧ wakers s = 0%nat.

Definition hand_lts : lts system event := Lts hand_init hand_step.

(** ** Specification: a table, looked up before every callback *)

(** [chosen]: the callback that is about to be called. *)
Record registry := mkRegistry {
  table : gmap Z Callback;
  chosen : option (Z * Z * Callback);
}.

Inductive registry_step : registry → list event → registry → Prop :=
  | s_add t c fd ev cb :
      registry_step (mkRegistry t c) [Called (Add fd ev cb)] (mkRegistry (<[fd := cb]> t) c)
  | s_mod t c fd ev :
      registry_step (mkRegistry t c) [Called (Mod fd ev)] (mkRegistry t c)
  | s_del t c fd :
      registry_step (mkRegistry t c) [Called (Del fd)] (mkRegistry (delete fd t) c)
  | s_stop t c : registry_step (mkRegistry t c) [StopCalled] (mkRegistry t c)
  | s_choose t d bits cb :
      t !! d = Some cb →
      registry_step (mkRegistry t None) [] (mkRegistry t (Some (d, bits, cb)))
  | s_invoke t d bits cb :
      registry_step (mkRegistry t (Some (d, bits, cb))) [Invoked d bits cb] (mkRegistry t None)
  | s_returned t : registry_step (mkRegistry t None) [Returned] (mkRegistry t None).

Definition registry_lts : lts registry event :=
  Lts (λ a, a = mkRegistry ∅ None) registry_step.
End event_loop.

(** [setNonBlock], with the two commands of [fcntl] it gives. *)
Definition setNonBlock {K} (getfl : K → Z → K * Z) (setfl : K → Z → Z → K * Z) (k : K) (fd : Z)
    : K * Z :=
  let '(k, flags) := getfl k fd in setfl k fd (Z.lor flags O_NONBLOCK).

(** ** ReactorPool *)

Definition int_min : Z := -2147483648.
(** Two's complement, as [std::atomic<int>] counts. *)
Definition wrap32 (z : Z) : Z := (z - int_min) mod 4294967296 + int_min.

(** [threads_]: for each thread the loop it runs. *)
Record ReactorPool := mkReactorPool {
  loops_ : list EventLoop;
  threads_ : list nat;
  next_ : Z;
}.
#[export] Instance eta_ReactorPool : Eta ReactorPool := λ p,
  mkReactorPool (loops_ p) (threads_ p) (next_ p).

Section pool.
Context `{Kernel K}.

Fixpoint make_loops (n : nat) (k : K) : K * list EventLoop :=
  match n with
  | O => (k, [])
  | S n =>
      let '(k, l) := make k in let '(k, ls) := make_loops n k in (k, l :: ls)
  end.

Definition make_pool (k : K) (thread_num : nat) : K * ReactorPool :=
  let '(k, ls) := make_loops thread_num k in (k, mkReactorPool ls [] 0).

Definition start (p : ReactorPool) : ReactorPool :=
  p <| threads_ ::= (.++ seq 0 (length (loops_ p))) |>.

(** [stop] up to the joins. *)
Fixpoint stop_all (k : K) (ls : list EventLoop) : K * list EventLoop :=
  match ls with
  | [] => (k, [])
  | l :: ls =>
      let l := l <| stop_ := true |> in
      let '(k, ls) := stop_all (wake k l) ls in (k, l :: ls)
  end.
Definition stop (k : K) (p : ReactorPool) : K * ReactorPool :=
  let '(k, ls) := stop_all k (loops_ p) in (k, p <| loops_ := ls |>).

(** The index of the loop; [None]: a division by zero, or an access outside
    [loops_]. *)
Definition nextLoop (p : ReactorPool) : option (nat * ReactorPool) :=
  let size := to_int (Z.of_nat (length (loops_ p))) in
  if size =? 0 then None
  else
    let idx := Z.rem (next_ p) size in
    let p := p <| next_ ::= λ n, wrap32 (n + 1) |> in
    if (0 <=? idx) && (idx <? Z.of_nat (length (loops_ p))) then Some (Z.to_nat idx, p) else None.

(** The loops that [n] calls in a row answer. *)
Fixpoint deal (n : nat) (p : ReactorPool) : option (list nat * ReactorPool) :=
  match n with
  | O => Some ([], p)
  | S n =>
      '(i, p) ← nextLoop p;
      '(js, p) ← deal n p;
      Some (i :: js, p)
  end.
End pool.

(** ** The loop *)

Section theory.
Context `{KernelLaws K}.
Local Abbreviation system := (@system K).

Definition chosen_at (p : pc) : option (Z * Z * Callback) :=
  match p with Found d bits cb _ => Some (d, bits, cb) | _ => None end.
Definition view (s : system) : registry := mkRegistry (callbacks_ (self s)) (chosen_at (at_ s)).

Lemma step_view s es s' :
  hand_step s es s' → run registry_lts (view s) es (view s').
Proof.
  intros Hs. destruct Hs as [c k l p n k' l' Hf Hc|k l p n|k l p n|k l p n k' p' es Hl|k l n|];
    unfold view; simpl.
  - destruct c as [fd ev cb|fd ev|fd]; simpl in Hc; unfold add, mod_, del in Hc; simplify_eq/=;
      apply run_one; constructor.
  - apply run_one. constructor.
  - constructor.
  - destruct p as [| | |[|[d bits] rest]|rest|d bits cb rest|rest]; simpl in *.
    + done.
    + destruct (stop_ l); simplify_eq; [apply run_one|]; constructor.
    + destruct (epoll_wait _ _ _ _) as [k1 [rest|e|]]; simplify_eq; constructor.
    + simplify_eq. constructor.
    + destruct (d =? wakefd_ l); [simplify_eq; constructor|].
      destruct (callbacks_ l !! d) eqn:Hd; simplify_eq; [|constructor].
      apply (run_one registry_lts). by constructor.
    + destruct (read_eight _ _) as [k1 [|]]; simplify_eq; constructor.
    + simplify_eq. apply run_one. constructor.
    + simplify_eq. constructor.
  - constructor.
  - constructor.
Qed.

Lemma run_view s es s' : run hand_lts s es s' → run registry_lts (view s) es (view s').
Proof.
  induction 1 as [s|s o s' os s'' Hs Hr IH]; [constructor|].
  eapply run_app; [by eapply step_view|done].
Qed.

(** What is not in the table, nor chosen, is not called until it is added. *)
Lemma absent_not_invoked d a es a' :
  run registry_lts a es a' →
  table a !! d = None → (∀ bits cb, chosen a ≠ Some (d, bits, cb)) →
  (∀ ev cb, Called (Add d ev cb) ∉ es) → ∀ bits cb, Invoked d bits cb ∉ es.
Proof.
  induction 1 as [a|a o a' os a'' Hs Hr IH]; intros Ht Hc Hadd bits cb.
  { apply not_elem_of_nil. }
  rewrite elem_of_app. intros Hin.
  assert (∀ ev cb', (Called (Add d ev cb') ∉ o) ∧ (Called (Add d ev cb') ∉ os)) as Hno.
  { intros ev cb'. specialize (Hadd ev cb'). rewrite elem_of_app in Hadd. tauto. }
  destruct Hin as [Hin|Hin].
  - destruct Hs; apply list_elem_of_singleton in Hin || apply elem_of_nil in Hin; try done.
    simplify_eq. by eapply Hc.
  - revert Hin. apply IH; [| |intros ev cb'; apply Hno].
    + destruct Hs as [t c fd ev cb'|t c fd ev|t c fd|t c|t x b cb' Hx|t x b cb'|t]; try done;
        simpl in *.
      * rewrite lookup_insert_ne; [done|]. intros ->. apply (proj1 (Hno ev cb')).
        by apply list_elem_of_singleton.
      * rewrite lookup_delete_None. by right.
    + intros b cb'. destruct Hs as [t c fd ev cb2|t c fd ev|t c fd|t c|t x b' cb2 Hx|t x b' cb2|t];
        simpl in *; try apply Hc; [|done]. intros [= -> -> ->]. congruence.
Qed.

(** ** The loop can always be woken *)

Record hand_ok (s : system) : Prop := {
  hand_wake_fd : interest (kern s) (epfd_ (self s)) !! wakefd_ (self s) = Some EPOLLIN;
  hand_eventfd : is_eventfd (kern s) (wakefd_ (self s)) = true;
  hand_asleep : at_ s = Wait → stop_ (self s) = true →
    0 < counter (kern s) (wakefd_ (self s)) ∨ (0 < wakers s)%nat;
}.

Lemma hand_init_ok s : hand_init s → hand_ok s.
Proof.
  destruct s as [ks l p n]. simpl. intros (k & ep & k1 & w & k2 & k3 & Hep & Hw & Hc & Hm & Hat & _).
  simpl in *. unfold make in Hm. rewrite Hep, Hw in Hm. simpl in Hm. rewrite Hc in Hm.
  injection Hm as <- <-. pose proof (law_ctl_frame k2 ep CtlAdd w EPOLLIN) as ((_ & He) & _).
  rewrite Hc in He. simpl in He.
  split; simpl; [| |by rewrite Hat].
  - apply law_add in Hc as [_ ->]. by rewrite lookup_insert_eq.
  - rewrite He. by apply law_eventfd in Hw as [_ ?].
Qed.

(** Waking a loop from a kernel that has its registration. *)
Lemma hand_wake_ok k l :
  interest k (epfd_ l) !! wakefd_ l = Some EPOLLIN → is_eventfd k (wakefd_ l) = true →
  interest (wake k l) (epfd_ l) !! wakefd_ l = Some EPOLLIN
  ∧ is_eventfd (wake k l) (wakefd_ l) = true ∧ 0 < counter (wake k l) (wakefd_ l).
Proof.
  intros Hi He. destruct (law_write k (wakefd_ l) He) as (((_ & Hf) & Hint & _) & Hc).
  unfold wake. by rewrite Hint, Hf.
Qed.

Lemma ctl_keeps_wake k l op fd ev :
  foreign l fd → interest k (epfd_ l) !! wakefd_ l = Some EPOLLIN →
  is_eventfd k (wakefd_ l) = true →
  let k' := (epoll_ctl k (epfd_ l) op fd ev).1 in
  interest k' (epfd_ l) !! wakefd_ l = Some EPOLLIN ∧ is_eventfd k' (wakefd_ l) = true.
Proof.
  intros [_ Hfd] Hi He k'.
  destruct (law_ctl_frame k (epfd_ l) op fd ev) as ((_ & Hf) & _). fold k' in Hf.
  split; [|by rewrite Hf]. destruct op.
  - destruct (epoll_ctl k (epfd_ l) CtlAdd fd ev) as [k1 [e|]] eqn:Hc; subst k'; simpl.
    + by rewrite (law_ctl_error _ _ _ _ _ _ _ Hc).
    + apply law_add in Hc as [_ ->]. by rewrite lookup_insert_ne.
  - destruct (epoll_ctl k (epfd_ l) CtlMod fd ev) as [k1 [e|]] eqn:Hc; subst k'; simpl.
    + by rewrite (law_ctl_error _ _ _ _ _ _ _ Hc).
    + apply law_mod in Hc as [_ ->]. by rewrite lookup_insert_ne.
  - subst k'. pose proof (law_del k (epfd_ l) fd ev) as ->. by rewrite lookup_delete_ne.
Qed.

Lemma request_ok k l c k' l' :
  foreign l (subject c) → request_step k l c = (k', l') →
  interest k (epfd_ l) !! wakefd_ l = Some EPOLLIN → is_eventfd k (wakefd_ l) = true →
  epfd_ l' = epfd_ l ∧ wakefd_ l' = wakefd_ l ∧ stop_ l' = stop_ l
  ∧ interest k' (epfd_ l) !! wakefd_ l = Some EPOLLIN
  ∧ is_eventfd k' (wakefd_ l) = true ∧ 0 < counter k' (wakefd_ l).
Proof.
  intros Hf Hr Hi He. destruct c as [fd ev cb|fd ev|fd]; simpl in Hf, Hr;
    unfold add, mod_, del in Hr; injection Hr as <- <-; (split; [done|]; split; [done|]; split; [done|]).
  - destruct (ctl_keeps_wake k l CtlAdd fd ev Hf Hi He). by apply (hand_wake_ok _ l).
  - destruct (ctl_keeps_wake k l CtlMod fd ev Hf Hi He). by apply (hand_wake_ok _ l).
  - destruct (ctl_keeps_wake k l CtlDel fd 0 Hf Hi He) as [Hi' He']. destruct Hf as [Hf1 Hf2].
    set (k1 := (epoll_ctl k (epfd_ l) CtlDel fd 0).1) in *.
    destruct (law_close_frame k1 fd (epfd_ l)) as (_ & _ & Hc1); [done|].
    destruct (law_close_frame k1 fd (wakefd_ l)) as (_ & Hc2 & _); [done|].
    apply (hand_wake_ok _ l); [rewrite Hc1, lookup_delete_ne; done|by rewrite Hc2].
Qed.

Lemma loop_ok k l p n k' p' es :
  loop_step k l p = Some (k', p', es) → hand_ok (mkSystem k l p n) →
  hand_ok (mkSystem k' l p' n).
Proof.
  intros Hs Hok. pose proof Hok as [Hi He Ha]. simpl in *.
  assert (∀ k1 p1, p1 ≠ Wait → interest k1 (epfd_ l) = interest k (epfd_ l) →
    is_eventfd k1 (wakefd_ l) = is_eventfd k (wakefd_ l) → hand_ok (mkSystem k1 l p1 n)) as Hgo.
  { intros k1 p1 Hp Hi1 He1. by split; simpl; rewrite ?Hi1, ?He1. }
  destruct p as [| | |[|[d bits] rest]|rest|d bits cb rest|rest]; simpl in Hs.
  - done.
  - destruct (stop_ l) eqn:Hst; simplify_eq; [by apply Hgo|]. split; simpl; congruence.
  - pose proof (law_wait k (epfd_ l) 1024 (-1)) as ((_ & Hf) & Hint & _).
    destruct (epoll_wait _ _ _ _) as [k1 [rest|e|]]; simplify_eq/=; by apply Hgo.
  - simplify_eq. by apply Hgo.
  - destruct (d =? wakefd_ l); [|destruct (callbacks_ l !! d)]; simplify_eq; by apply Hgo.
  - pose proof (law_read k (wakefd_ l) He) as (((_ & Hf) & Hint & _) & _).
    destruct (read_eight _ _) as [k1 [|]]; simplify_eq/=; by apply Hgo.
  - simplify_eq. by apply Hgo.
  - simplify_eq. by apply Hgo.
Qed.

Lemma hand_step_ok s es s' : hand_step s es s' → hand_ok s → hand_ok s'.
Proof.
  intros Hs Hok. destruct Hs as [c k l p n k' l' Hf Hc|k l p n|k l p n|k l p n k' p' es Hl|k l n
    |k l p n k' He]; [| | |by eapply loop_ok| |]; destruct Hok as [Hi Hev Ha]; simpl in *.
  - destruct (request_ok _ _ _ _ _ Hf Hc Hi Hev) as (E1 & E2 & E3 & Hi' & He' & Hc').
    split; simpl; rewrite ?E1, ?E2; auto.
  - split; simpl; auto. right. lia.
  - destruct (hand_wake_ok k l Hi Hev) as (Hi' & He' & Hc'). split; simpl; auto.
  - by split.
  - destruct He as (E1 & E2 & E3). split; simpl; rewrite ?E1, ?E2, ?E3; auto.
Qed.

Lemma hand_reachable_ok s : reachable hand_lts s → hand_ok s.
Proof.
  apply reachable_invariant; [apply hand_init_ok|]. intros; by eapply hand_step_ok.
Qed.

(** ** The thread alone, after [stop] *)

Definition ends (k : K) (l : EventLoop) (p : pc) : Prop :=
  ∃ fuel k' es, loop_alone fuel k l p = (k', Out, es ++ [Returned]).

Lemma ends_step k l p k' p' es :
  loop_step k l p = Some (k', p', es) → ends k' l p' → ends k l p.
Proof.
  intros Hs (fuel & k2 & es2 & Ha). exists (S fuel), k2, (es ++ es2). simpl.
  by rewrite Hs, Ha, app_assoc.
Qed.

Lemma ends_check k l : stop_ l = true → ends k l Check.
Proof. intros Hst. exists 1%nat, k, []. simpl. by rewrite Hst. Qed.

Lemma ends_drain k l rest :
  is_eventfd k (wakefd_ l) = true →
  (∀ k', is_eventfd k' (wakefd_ l) = true → ends k' l (Events rest)) →
  ends k l (Draining rest).
Proof.
  intros He Hends. destruct (law_read k (wakefd_ l) He) as (((_ & Hf) & _) & Hc & Hb).
  destruct (read_eight k (wakefd_ l)) as [k1 full] eqn:E. cbn [fst snd] in *. subst full.
  assert (is_eventfd k1 (wakefd_ l) = true) as He1 by (by rewrite Hf).
  destruct (law_read k1 (wakefd_ l) He1) as (((_ & Hf2) & _) & _ & Hb2).
  destruct (read_eight k1 (wakefd_ l)) as [k2 full] eqn:E2. cbn [fst snd] in *. subst full.
  rewrite (bool_decide_false (0 < counter k1 _)) in E2 by lia.
  case_bool_decide.
  - apply (ends_step _ _ _ k1 (Draining rest) []); [simpl; by rewrite E|].
    apply (ends_step _ _ _ k2 (Events rest) []); [simpl; by rewrite E2|].
    apply Hends. by rewrite Hf2.
  - apply (ends_step _ _ _ k1 (Events rest) []); [simpl; by rewrite E|]. by apply Hends.
Qed.

Lemma ends_events l rest : stop_ l = true → ∀ k,
  is_eventfd k (wakefd_ l) = true → ends k l (Events rest).
Proof.
  intros Hst. induction rest as [|[d bits] rest IH]; intros k He.
  { eapply ends_step; [done|]. by apply ends_check. }
  destruct (d =? wakefd_ l) eqn:Hd.
  { eapply ends_step; [simpl; by rewrite Hd|]. by apply ends_drain. }
  destruct (callbacks_ l !! d) as [cb|] eqn:Hcb.
  - eapply ends_step; [simpl; by rewrite Hd, Hcb|]. eapply ends_step; [done|].
    eapply ends_step; [done|]. by apply IH.
  - eapply ends_step; [simpl; by rewrite Hd, Hcb|]. by apply IH.
Qed.

(** ** Properties of the loop *)

(** Every interleaving is one of a table that is looked up before each
    callback. *)
Theorem hand_refines_registry s0 es s
    (Hinit : hand_init s0) (Hrun : run hand_lts s0 es s) :
  run registry_lts (mkRegistry ∅ None) es (view s) ∧ table (view s) = callbacks_ (self s).
Proof.
  split; [|done]. apply run_view in Hrun.
  assert (view s0 = mkRegistry ∅ None) as <-; [|done].
  destruct s0 as [k0 l p n], Hinit as (k & ep & k1 & w & k2 & k3 & Hep & Hw & Hc & Hm & Hat & _).
  simpl in *. unfold make in Hm. rewrite Hep, Hw in Hm. simpl in Hm. injection Hm as _ <-.
  unfold view. simpl. by subst p.
Qed.

(** A callback that is removed is not called again.  From any state in which
    [d] has no callback and the thread has not just looked one up, under any
    interleaving, no event of [d] is dispatched until [d] is added: in
    particular a callback can safely remove another descriptor of its batch. *)
Theorem hand_removed_not_called s es s' d
    (Hrun : run hand_lts s es s') (Hgone : callbacks_ (self s) !! d = None)
    (Hat : chosen_at (at_ s) = None) (Hadd : ∀ ev cb, Called (Add d ev cb) ∉ es) :
  ∀ bits cb, Invoked d bits cb ∉ es.
Proof.
  apply run_view in Hrun. eapply absent_not_invoked; [exact Hrun|done| |done].
  intros bits cb. simpl. by rewrite Hat.
Qed.

(** [stop] ends [loop], whenever it comes.  In every reachable state in
    which [stop] has been called, before or after [loop], and its write is
    done, the thread does not sleep: run alone it makes what remains of its
    batch and returns. *)
Theorem hand_stop_ends_loop s (Hs : reachable hand_lts s)
    (Hstop : stop_ (self s) = true) (Hw : wakers s = 0%nat) (Hin : at_ s ≠ Out) :
  ∃ fuel k es, loop_alone fuel (kern s) (self s) (at_ s) = (k, Out, es ++ [Returned]).
Proof.
  apply hand_reachable_ok in Hs as [Hi He Ha]. destruct s as [k l p n]. simpl in *.
  change (ends k l p). pose proof (λ rest, ends_events l rest Hstop) as Hev.
  destruct p as [| | |rest|rest|d bits cb rest|rest]; [done|by apply ends_check| |auto| | |].
  - destruct (Ha eq_refl Hstop); [|lia].
    pose proof (law_wait k (epfd_ l) 1024 (-1)) as ((_ & Hf) & _).
    destruct (epoll_wait k (epfd_ l) 1024 (-1)) as [k1 [rest|e|]] eqn:Hwt.
    + eapply ends_step; [simpl; by rewrite Hwt|]. apply Hev. by rewrite Hf.
    + eapply ends_step; [simpl; by rewrite Hwt|]. by apply ends_check.
    + pose proof (law_wait_blocks _ _ _ _ _ _ Hwt Hi He). lia.
  - apply ends_drain; auto.
  - eapply ends_step; [done|]. eapply ends_step; [done|]. auto.
  - eapply ends_step; [done|]. auto.
Qed.
End theory.

(** ** The pool *)

Lemma wrap32_id z : int_min ≤ z ≤ int_max → wrap32 z = z.
Proof. unfold wrap32, int_min, int_max. intros. rewrite Z.mod_small by lia. lia. Qed.

Lemma to_int_small n : 0 ≤ n ≤ int_max → to_int n = n.
Proof.
  unfold to_int, int_max. intros. rewrite Z.mod_small by lia.
  by rewrite (proj2 (Z.leb_le _ _)) by lia.
Qed.

Lemma nextLoop_in_range p :
  0 < Z.of_nat (length (loops_ p)) ≤ int_max → 0 ≤ next_ p →
  nextLoop p = Some (Z.to_nat (next_ p mod Z.of_nat (length (loops_ p))),
                     p <| next_ ::= λ n, wrap32 (n + 1) |>).
Proof.
  intros Hlen Hnext. unfold nextLoop. rewrite to_int_small by lia.
  rewrite (proj2 (Z.eqb_neq _ 0)) by lia. rewrite Z.rem_mod_nonneg by lia.
  pose proof (Z.mod_pos_bound (next_ p) (Z.of_nat (length (loops_ p)))).
  cbn [loops_ set_field].
  by rewrite (proj2 (Z.leb_le 0 _)), (proj2 (Z.ltb_lt _ _)) by lia.
Qed.

Lemma deal_app n m p :
  deal (n + m) p = '(js, p) ← deal n p; '(ks, p) ← deal m p; Some (js ++ ks, p).
Proof.
  revert p. induction n as [|n IH]; intros p; simpl.
  - by destruct (deal m p) as [[? ?]|].
  - destruct (nextLoop p) as [[i p1]|]; simpl; [|done]. rewrite IH.
    destruct (deal n p1) as [[js p2]|]; simpl; [|done].
    by destruct (deal m p2) as [[ks p3]|].
Qed.

(** The pool after [n] calls. *)
Definition after (p : ReactorPool) (n : Z) : ReactorPool := p <| next_ := wrap32 n |>.
Definition size_of (p : ReactorPool) : Z := Z.of_nat (length (loops_ p)).

Lemma after_next p n : 0 < size_of p ≤ int_max → 0 ≤ n ≤ int_max →
  nextLoop (after p n) = Some (Z.to_nat (n mod size_of p), after p (n + 1)).
Proof.
  intros Hlen Hn. assert (wrap32 n = n) as Hw by (apply wrap32_id; unfold int_min; lia).
  rewrite nextLoop_in_range; unfold after; cbn [loops_ next_ set_field]; rewrite ?Hw;
    [|done|lia]. by destruct p.
Qed.

Lemma deal_after p : 0 < size_of p ≤ int_max → ∀ n a,
  0 ≤ a → a + Z.of_nat n ≤ int_max + 1 →
  deal n (after p a) = Some ((λ i, Z.to_nat ((a + Z.of_nat i) mod size_of p)) <$> seq 0 n,
                             after p (a + Z.of_nat n)).
Proof.
  intros Hlen. induction n as [|n IH]; intros a Ha Hn.
  { simpl. by rewrite Z.add_0_r. }
  cbn [deal]. rewrite after_next by lia. cbn [mbind option_bind].
  rewrite IH by lia. cbn [mbind option_bind].
  replace (a + 1 + Z.of_nat n) with (a + Z.of_nat (S n)) by lia.
  cbn [seq fmap list_fmap]. rewrite Z.add_0_r. rewrite <-seq_shift, <-list_fmap_compose.
  do 3 f_equal. apply list_fmap_ext. intros i x _. cbn. do 2 f_equal. lia.
Qed.

(** A negative counter that is not a multiple of the size. *)
Lemma nextLoop_negative p : 0 < size_of p ≤ int_max →
  next_ p < 0 → Z.rem (next_ p) (size_of p) ≠ 0 → nextLoop p = None.
Proof.
  intros Hlen Hneg Hrem. unfold nextLoop, size_of in *. rewrite to_int_small by lia.
  rewrite (proj2 (Z.eqb_neq _ 0)) by lia.
  pose proof (Z.rem_nonpos (next_ p) (Z.of_nat (length (loops_ p)))) as Hle.
  rewrite (proj2 (Z.leb_gt 0 _)) by lia. done.
Qed.

(** After 2^31 calls the counter is negative; one of the next two calls leaves
    [loops_]. *)
Lemma deal_wrapped p : 2 ≤ size_of p ≤ int_max → deal 2 (after p (int_max + 1)) = None.
Proof.
  intros Hlen. assert (wrap32 (int_max + 1) = int_min) as Hw by done.
  cbn [deal]. destruct (nextLoop (after p (int_max + 1))) as [[i p1]|] eqn:H1; [|done].
  cbn [mbind option_bind].
  destruct (decide (Z.rem int_min (size_of p) = 0)) as [Hz|Hnz]; cycle 1.
  { rewrite nextLoop_negative in H1; unfold after, size_of in *; cbn [loops_ next_ set_field] in *;
      [done|lia|done|by rewrite Hw]. }
  assert (p1 = after p (int_max + 2)) as ->.
  { unfold nextLoop in H1. repeat case_match; simplify_eq. by destruct p. }
  rewrite nextLoop_negative; [done| | |]; unfold after, size_of in *; cbn [loops_ next_ set_field];
    [lia|done|].
  change (wrap32 (int_max + 2)) with (int_min + 1).
  assert (∀ m q q', 2 ≤ m → q * m + 1 ≠ q' * m) as Hno.
  { intros m q q' Hm Heq. destruct (Z.le_gt_cases (q' - q) 0); nia. }
  assert (Z.of_nat (length (loops_ p)) ≠ 0) as Hn by lia.
  apply Z.rem_divide in Hz as [q Hq]; [|done]. rewrite Hq. rewrite Z.rem_divide by done.
  intros [q' Hq']. eapply Hno; [|exact Hq']. lia.
Qed.

Lemma stop_all_ok `{KernelLaws K} ls : ∀ k k' ls',
  stop_all k ls = (k', ls') → NoDup (wakefd_ <$> ls) →
  (∀ l, l ∈ ls → is_eventfd k (wakefd_ l) = true) →
  ls' = (λ l, l <| stop_ := true |>) <$> ls
  ∧ (∀ d, is_eventfd k' d = is_eventfd k d)
  ∧ (∀ d, d ∉ wakefd_ <$> ls → counter k' d = counter k d)
  ∧ ∀ l, l ∈ ls → 0 < counter k' (wakefd_ l).
Proof.
  induction ls as [|l ls IH]; intros k k' ls' Hs Hnd He; simpl in Hs.
  { simplify_eq. split_and!; try done. intros l Hl. by apply elem_of_nil in Hl. }
  destruct (stop_all _ ls) as [k2 ls2] eqn:Hr. simplify_eq.
  rewrite fmap_cons in Hnd. apply NoDup_cons in Hnd as [Hni Hnd].
  assert (is_eventfd k (wakefd_ l) = true) as Hl by (apply He; left).
  destruct (law_write k (wakefd_ l) Hl) as (((_ & Hf) & _ & Hc) & Hpos).
  destruct (IH _ _ _ Hr Hnd) as (-> & Hf' & Hc' & Hpos').
  { intros x Hx. unfold wake. simpl. rewrite Hf. apply He. by right. }
  unfold wake in *. simpl in *. split_and!.
  - done.
  - intros d. by rewrite Hf'.
  - intros d. rewrite not_elem_of_cons. intros [Hd Hd']. rewrite Hc' by done. by apply Hc.
  - intros x [->|Hx]%elem_of_cons; [|auto]. by rewrite Hc'.
Qed.

(** [ReactorPool::stop] asks every loop to stop and wakes every loop: each of
    the threads it then joins is in the case of [hand_stop_ends_loop]. *)
Theorem hand_pool_stop `{KernelLaws K} k p k' p'
    (Hstop : stop k p = (k', p')) (Hown : NoDup (wakefd_ <$> loops_ p))
    (Hfds : ∀ l, l ∈ loops_ p → is_eventfd k (wakefd_ l) = true) :
  loops_ p' = (λ l, l <| stop_ := true |>) <$> loops_ p ∧ threads_ p' = threads_ p
  ∧ ∀ l, l ∈ loops_ p → 0 < counter k' (wakefd_ l).
Proof.
  unfold stop in Hstop. destruct (stop_all k (loops_ p)) as [k1 ls] eqn:Hs. simplify_eq/=.
  destruct (stop_all_ok _ _ _ _ Hs Hown Hfds) as (? & _ & _ & ?). done.
Qed.

(** C33: the pool deals its loops in turn, for 2^31 calls.  With [n] loops the
    [i]-th call of [nextLoop] answers loop [i mod n]; then the [int] counter
    wraps, and the next call or the one after it indexes [loops_] outside its
    bounds, unless there is one loop. *)
Theorem hand_nextLoop_bounds p n
    (Hsize : 2 ≤ size_of p ≤ int_max) (Hfresh : next_ p = 0) (Hn : Z.of_nat n = int_max + 1) :
  (∀ m, (m ≤ n)%nat → ∃ p',
     deal m p = Some ((λ i, Z.to_nat (Z.of_nat i mod size_of p)) <$> seq 0 m, p'))
  ∧ deal (n + 2) p = None.
Proof.
  assert (p = after p 0) as Hp by (destruct p; simpl in Hfresh; by subst).
  split.
  - intros m Hm. exists (after p (Z.of_nat m)). rewrite Hp at 1. rewrite deal_after by lia.
    by rewrite Z.add_0_l.
  - rewrite deal_app, Hp, deal_after by lia. cbn [mbind option_bind].
    rewrite Z.add_0_l, Hn. by rewrite deal_wrapped.
Qed.

(** ** Concrete runs *)

Inductive action :=
  | PlayRequest (c : request)
  | PlayStop
  | PlayWake
  | PlayLoop
  | PlayEnter
  | PlayReady (d bits : Z).

Local Abbreviation sim := (@system kernel).

Definition play (a : action) (s : sim) : option (sim * list event) :=
  let '(mkSystem k l p n) := s in
  match a with
  | PlayRequest c =>
      if (subject c =? epfd_ l) || (subject c =? wakefd_ l) then None
      else let '(k, l) := request_step k l c in Some (mkSystem k l p n, [Called c])
  | PlayStop => Some (mkSystem k (l <| stop_ := true |>) p (S n), [StopCalled])
  | PlayWake => match n with O => None | S n => Some (mkSystem (wake k l) l p n, []) end
  | PlayLoop =>
      match loop_step k l p with
      | Some (k, p, es) => Some (mkSystem k l p n, es)
      | None => None
      end
  | PlayEnter => match p with Out => Some (mkSystem k l Check n, []) | _ => None end
  | PlayReady d bits => Some (mkSystem (k <| activity ::= <[d := bits]> |>) l p n, [])
  end.

Fixpoint plays (l : list action) (s : sim) : option (sim * list event) :=
  match l with
  | [] => Some (s, [])
  | a :: l =>
      '(s, es) ← play a s;
      '(s, es') ← plays l s;
      Some (s, es ++ es')
  end.

Lemma hand_play_step a s s' es : play a s = Some (s', es) → hand_step s es s'.
Proof.
  destruct s as [k l p n]. destruct a as [c| | | | |d bits]; simpl; intros Hp.
  - destruct (Z.eqb_spec (subject c) (epfd_ l)), (Z.eqb_spec (subject c) (wakefd_ l)); try done.
    simpl in Hp. destruct (request_step k l c) as [k' l'] eqn:Hc. simplify_eq.
    by apply hand_call.
  - simplify_eq. apply hand_stop.
  - destruct n as [|n]; simplify_eq. exact (hand_wake k l p n).
  - destruct (loop_step k l p) as [[[k' p'] es']|] eqn:Hl; simplify_eq. by apply hand_loop.
  - destruct p; simplify_eq. apply hand_enter.
  - simplify_eq. by apply hand_elsewhere.
Qed.

Lemma hand_plays_run l : ∀ s s' es, plays l s = Some (s', es) → run hand_lts s es s'.
Proof.
  induction l as [|a l IH]; intros s s' es Hp; cbn [plays] in Hp; [simplify_eq; constructor|].
  destruct (play a s) as [[s1 es1]|] eqn:Ha; simpl in Hp; [|done].
  destruct (plays l s1) as [[s2 es2]|] eqn:Hl; simplify_eq/=.
  econstructor; [by eapply hand_play_step|eauto].
Qed.

Definition idle_kernel : kernel := mkKernel {[0; 1; 2; 7; 8]} 9 100 ∅ ∅ ∅ 1.
Definition fresh : sim := let '(k, l) := make idle_kernel in mkSystem k l Out 0.

Lemma fresh_init : hand_init fresh.
Proof.
  set (k1 := (epoll_create1 idle_kernel).1). set (k2 := (eventfd k1).1).
  by exists idle_kernel, 9, k1, 10, k2, (epoll_ctl k2 9 CtlAdd 10 EPOLLIN).1.
Qed.

(** Two descriptors are ready; the thread is in the callback of the first. *)
Definition in_first : list action :=
  [PlayRequest (Add 7 1 70); PlayRequest (Add 8 1 80); PlayReady 7 1; PlayReady 8 1; PlayEnter]
  ++ replicate 6 PlayLoop.


(** A schedule, cut in two. *)
Lemma plays_states l l' s s' es es' :
  plays l fresh = Some (s, es) → plays l' s = Some (s', es') →
  reachable hand_lts s ∧ run hand_lts s es' s'.
Proof.
  intros H1%hand_plays_run H2%hand_plays_run. split; [|done].
  exists fresh, es. split; [apply fresh_init|done].
Qed.

(** The callback of 7 deletes 8, which is ready in the same batch; 7 is called
    again, 8 is not. *)
Lemma hand_removed_not_called_witness :
  ∃ s s' es, reachable hand_lts s ∧ run hand_lts s es s'
  ∧ es = [Called (Mod 7 1); Invoked 7 1 70] ∧ (Invoked 8 1 80 ∉ es).
Proof.
  destruct (plays (in_first ++ [PlayRequest (Del 8)]) fresh) as [[s es0]|] eqn:E;
    [|vm_compute in E; discriminate].
  destruct (plays (PlayRequest (Mod 7 1) :: replicate 10 PlayLoop) s) as [[s' es]|] eqn:E';
    [|vm_compute in E; simplify_eq; vm_compute in E'; discriminate].
  destruct (plays_states _ _ _ _ _ _ E E') as [Hs Hr].
  assert (es = [Called (Mod 7 1); Invoked 7 1 70] ∧ callbacks_ (self s) !! 8 = None
    ∧ chosen_at (at_ s) = None) as (-> & Hg & Hc).
  { vm_compute in E. simplify_eq. vm_compute in E'. by simplify_eq. }
  exists s, s', [Called (Mod 7 1); Invoked 7 1 70]. split_and!; [done|done|done|].
  apply (hand_removed_not_called s _ s' 8 Hr Hg Hc). intros ev cb Hin.
  apply elem_of_cons in Hin as [?|Hin]; [done|].
  apply elem_of_cons in Hin as [?|Hin]; [done|by apply elem_of_nil in Hin].
Defined.

(** [stop] comes while the thread is in the first callback of its batch. *)
Lemma hand_stop_ends_loop_witness :
  ∃ s, reachable hand_lts s ∧ at_ s = Calling [(10, 1); (8, 1)]
  ∧ ∃ fuel k es, loop_alone fuel (kern s) (self s) (at_ s) = (k, Out, es ++ [Returned]).
Proof.
  destruct (plays (in_first ++ [PlayStop; PlayWake]) fresh) as [[s es0]|] eqn:E;
    [|vm_compute in E; discriminate].
  destruct (plays_states _ [] _ _ _ [] E eq_refl) as [Hs _].
  assert (at_ s = Calling [(10, 1); (8, 1)] ∧ stop_ (self s) = true ∧ wakers s = 0%nat)
    as (Hat & Hst & Hw) by (vm_compute in E; by simplify_eq).
  exists s. split; [done|]. split; [done|].
  apply (hand_stop_ends_loop s Hs Hst Hw). by rewrite Hat.
Defined.

Lemma hand_nextLoop_bounds_witness :
  deal 3 (make_pool idle_kernel 2).2 = Some ([0; 1; 0]%nat, after (make_pool idle_kernel 2).2 3)
  ∧ deal (Z.to_nat 2147483648 + 2) (make_pool idle_kernel 2).2 = None.
Proof.
  split; [by vm_compute|].
  apply (hand_nextLoop_bounds (make_pool idle_kernel 2).2 (Z.to_nat 2147483648));
    [unfold size_of, int_max; change (length _) with 2%nat; lia|done|].
  rewrite Z2Nat.id by lia. done.
Defined.

(** [add] keeps the callback of a descriptor that the kernel refused, and
    replaces the callback of one that is registered. *)
Theorem hand_add_ignores_errors :
  let '(k, l) := make idle_kernel in
  let '(k1, l1) := add k l 55 1 70 in
  let '(k2, l2) := add k1 l1 7 1 71 in
  let '(k3, l3) := add k2 l2 7 4 72 in
  (epoll_ctl k (epfd_ l) CtlAdd 55 1).2 = Some EBADF ∧ callbacks_ l1 !! 55 = Some 70
  ∧ interest k1 (epfd_ l1) !! 55 = None
  ∧ callbacks_ l3 !! 7 = Some 72 ∧ interest k3 (epfd_ l3) !! 7 = Some 1.
Proof. by vm_compute. Qed.
End Hand.
