(* ===== verification/LruCache.v ===== *)
(** * lru_cache: least recently used cache with counted handles

    [LRUCache] (lru_cache/lrucache.h): the nodes, the lists [not_use] and
    [in_use] that share them, the hash table of list positions, the handles
    [HandleGuard] that keep a node from being evicted, and eviction.  A node is
    known by its identity: an element of a [std::list] keeps its address and
    its iterator when it is spliced, so [list_pos], the iterator and [Node*]
    are all that identity.  [None] is undefined behaviour or a failed
    [assert]. *)

From S2P Require Import Prelude.
Open Scope Z_scope.

(** [int ref]. *)
Definition int_max : Z := 2147483647.

Section lru.
Context {K V : Type} `{Countable K}.

Record Node := mkNode {
  key : K;
  value : V;
  ref : Z;
}.

Record LRUCache := mkCache {
  capacity : Z;
  size : Z;
  not_use : list nat;
  in_use : list nat;
  cache : gmap K nat;
  nodes : gmap nat Node;        (* the elements of both lists *)
  fresh : nat;                  (* the identity of the next node *)
}.

(** [HandleGuard]: is [cache] this cache, or null?  and [node]. *)
Record HandleGuard := mkGuard {
  owner : bool;
  node : option nat;
}.
End lru.
#[export] Instance HandleGuard_eq_dec : EqDecision HandleGuard.
Proof. solve_decision. Defined.
Arguments Node : clear implicits.
Arguments LRUCache K V {_ _}.
#[export] Instance eta_Node {K V} : Eta (Node K V) := λ n, mkNode (key n) (value n) (ref n).
#[export] Instance eta_LRUCache {K V} `{Countable K} : Eta (LRUCache K V) := λ c,
  mkCache (capacity c) (size c) (not_use c) (in_use c) (cache c) (nodes c) (fresh c).

Section operations.
Context {K V : Type} `{Countable K}.
Local Abbreviation LRUCache := (LRUCache K V).
Implicit Types (c : LRUCache) (g : HandleGuard) (k : K) (v : V).

Definition make (cap : Z) : LRUCache := mkCache cap 0 [] [] ∅ ∅ 0.

(** [in_use.splice(in_use.end(), not_use, n)] and the way back: [n] must be in
    the list it is taken from. *)
Definition unlink (n : nat) (l : list nat) : option (list nat) :=
  if bool_decide (n ∈ l) then Some (filter (λ m, m ≠ n) l) else None.
Definition to_in_use c (n : nat) : option LRUCache :=
  rest ← unlink n (not_use c);
  Some (c <| not_use := rest |> <| in_use ::= λ l, l ++ [n] |>).
Definition to_not_use c (n : nat) : option LRUCache :=
  rest ← unlink n (in_use c);
  Some (c <| in_use := rest |> <| not_use ::= λ l, l ++ [n] |>).

(** [node->ref++] overflows at [int_max]. *)
Definition ref_node c (n : nat) : option LRUCache :=
  nd ← nodes c !! n;
  c ← (if ref nd =? 1 then to_in_use c n else Some c);
  if ref nd <? int_max then Some (c <| nodes ::= <[n := nd <| ref ::= λ r, r + 1 |>]> |>) else None.

Definition unref_node c (n : nat) : option LRUCache :=
  nd ← nodes c !! n;
  if 1 <? ref nd then
    let c := c <| nodes ::= <[n := nd <| ref ::= λ r, r - 1 |>]> |> in
    if ref nd - 1 =? 1 then to_not_use c n else Some c
  else None.

(** The body of the loops of [evict] and of the destructor; the value given to
    [value_deleter]. *)
Definition drop_front c : option (LRUCache * V) :=
  match not_use c with
  | [] => None
  | n :: rest =>
      nd ← nodes c !! n;
      Some (c <| cache ::= delete (key nd) |> <| nodes ::= delete n |>
              <| not_use := rest |> <| size ::= λ s, s ⊖ 1 |>, value nd)
  end.

Fixpoint evict_loop (fuel : nat) c : option (LRUCache * list V) :=
  if (capacity c <? size c) && negb (bool_decide (not_use c = [])) then
    match fuel with
    | O => None
    | S fuel =>
        '(c, v) ← drop_front c; '(c, vs) ← evict_loop fuel c; Some (c, v :: vs)
    end
  else Some (c, []).

Definition evict c : option (LRUCache * list V) :=
  if 0 <? capacity c then evict_loop (length (not_use c)) c else Some (c, []).

(** *** Handles *)

Definition null_guard : HandleGuard := mkGuard false None.
Definition valid g : bool := owner g && bool_decide (is_Some (node g)).

(** [HandleGuard(this, n)]. *)
Definition guard c (n : nat) : option (LRUCache * HandleGuard) :=
  c ← ref_node c n; Some (c, mkGuard true (Some n)).

Definition reset c g : option (LRUCache * HandleGuard) :=
  if valid g then n ← node g; c ← unref_node c n; Some (c, null_guard) else Some (c, g).

(** [value()] and an assignment through the reference it returns. *)
Definition guard_value c g : option V :=
  if valid g then n ← node g; value <$> nodes c !! n else None.
Definition set_value c g v : option LRUCache :=
  if valid g then
    n ← node g; nd ← nodes c !! n;
    Some (c <| nodes ::= <[n := nd <| value := v |>]> |>)
  else None.

(** The variables of the client: [i = std::move(j)]. *)
Definition move_assign c (gs : list HandleGuard) (i j : nat)
    : option (LRUCache * list HandleGuard) :=
  if (i =? j)%nat then Some (c, gs)
  else
    g ← gs !! i; other ← gs !! j;
    '(c, _) ← reset c g;
    Some (c, <[j := null_guard]> (<[i := other]> gs)).

(** *** Lookup and insertion *)

Definition get c k : option (LRUCache * HandleGuard) :=
  match cache c !! k with
  | Some n => guard c n
  | None => Some (c, null_guard)
  end.

(** The handle, the values given to [value_deleter], and the value that the
    assignment to an existing entry replaces. *)
Definition put c k v : option (LRUCache * HandleGuard * list V * option V) :=
  match cache c !! k with
  | Some n =>
      nd ← nodes c !! n;
      '(c, g) ← guard (c <| nodes ::= <[n := nd <| value := v |>]> |>) n;
      Some (c, g, [], Some (value nd))
  | None =>
      let n := fresh c in
      let c := c <| nodes ::= <[n := mkNode k v 1]> |> <| fresh ::= S |>
                 <| not_use ::= λ l, l ++ [n] |> <| cache ::= <[k := n]> |>
                 <| size ::= λ s, s ⊕ 1 |> in
      '(c, g) ← guard c n;
      '(c, vs) ← evict c;
      Some (c, g, vs, None)
  end.

(** [~LRUCache]. *)
Fixpoint destroy_loop (fuel : nat) c : option (LRUCache * list V) :=
  if bool_decide (not_use c = []) then Some (c, [])
  else match fuel with
    | O => None
    | S fuel =>
        '(c, v) ← drop_front c; '(c, vs) ← destroy_loop fuel c; Some (c, v :: vs)
    end.

Definition destroy c : option (LRUCache * list V) :=
  if bool_decide (in_use c = []) then destroy_loop (length (not_use c)) c else None.

(** ** Client programs over a fixed number of handle variables *)

Inductive op :=
  | Get (j : nat) k             (* h[j] = cache.get(k) *)
  | Put (j : nat) k v           (* h[j] = cache.put(k, v) *)
  | Reset_ (j : nat)            (* h[j].reset() *)
  | Move (i j : nat)            (* h[i] = std::move(h[j]) *)
  | Read (j : nat)              (* if (h[j]) h[j].value() *)
  | Write (j : nat) v.          (* if (h[j]) h[j].value() = v *)

Inductive out :=
  | Found (b : bool)
  | Value (o : option V)
  | Stored v                    (* the cache takes this value over *)
  | Deleted v                   (* given to value_deleter *)
  | Replaced v.                 (* overwritten by an assignment *)

Definition store c (gs : list HandleGuard) (j : nat) g
    : option (LRUCache * list HandleGuard) :=
  '(c, gs) ← move_assign c (g :: gs) (S j) 0; Some (c, tail gs).

Definition exec (o : op) c (gs : list HandleGuard)
    : option (LRUCache * list HandleGuard * list out) :=
  match o with
  | Get j k =>
      '(c, g) ← get c k; '(c, gs) ← store c gs j g; Some (c, gs, [Found (valid g)])
  | Put j k v =>
      '(c, g, vs, old) ← put c k v;
      '(c, gs) ← store c gs j g;
      Some (c, gs, Stored v :: (Deleted <$> vs) ++ (Replaced <$> option_list old))
  | Reset_ j => g ← gs !! j; '(c, g) ← reset c g; Some (c, <[j := g]> gs, [])
  | Move i j => '(c, gs) ← move_assign c gs i j; Some (c, gs, [])
  | Read j =>
      g ← gs !! j;
      if valid g then v ← guard_value c g; Some (c, gs, [Value (Some v)])
      else Some (c, gs, [Value None])
  | Write j v =>
      g ← gs !! j;
      if valid g
      then old ← guard_value c g; c ← set_value c g v; Some (c, gs, [Stored v; Replaced old])
      else Some (c, gs, [Value None])
  end.

Fixpoint exec_all (l : list op) c (gs : list HandleGuard)
    : option (LRUCache * list HandleGuard * list out) :=
  match l with
  | [] => Some (c, gs, [])
  | o :: l =>
      '(c, gs, os) ← exec o c gs; '(c, gs, os') ← exec_all l c gs; Some (c, gs, os ++ os')
  end.
End operations.
Arguments op : clear implicits.
Arguments out : clear implicits.

(** ** Specification: a table, its unpinned keys by time of release, and pins *)

Record spec {K V : Type} `{Countable K} := mkSpec {
  table : gmap K V;
  order : list K;               (* least recently released first *)
  pins : list (option K);       (* the key each handle variable keeps *)
}.
Arguments spec K V {_ _}.
#[export] Instance eta_spec {K V} `{Countable K} : Eta (spec K V) := λ s,
  mkSpec _ _ _ _ (table s) (order s) (pins s).
Arguments mkSpec {K V _ _} _ _ _.

Section specification.
Context {K V : Type} `{Countable K}.
Local Abbreviation spec := (spec K V).
Implicit Types (st : spec) (k : K) (v : V).

Definition pin k st : spec :=
  st <| order ::= filter (λ k', k' ≠ k) |> <| pins ::= cons (Some k) |>.

(** A key that its last handle lets go of is the most recently released. *)
Definition unpin (i : nat) st : spec :=
  match pins st !! i with
  | Some (Some k) =>
      let st := st <| pins ::= <[i := None]> |> in
      if bool_decide (Some k ∈ pins st) then st else st <| order ::= λ l, l ++ [k] |>
  | _ => st
  end.

Definition transfer (i j : nat) st : spec :=
  if (i =? j)%nat then st
  else (unpin i st) <| pins ::= λ l, <[j := None]> (<[i := mjoin (l !! j)]> l) |>.

(** The result of a lookup, at the head, goes to variable [j]. *)
Definition settle (j : nat) st : spec := (transfer (S j) 0 st) <| pins ::= tail |>.

Definition find k st : spec * bool :=
  match table st !! k with
  | Some _ => (pin k st, true)
  | None => (st <| pins ::= cons None |>, false)
  end.

(** Unpinned entries go, the least recently released first, while there are
    more than [cap] entries. *)
Fixpoint trim (cap : Z) (t : gmap K V) (l : list K) : gmap K V * list K * list V :=
  match l with
  | [] => (t, [], [])
  | k :: l' =>
      if cap <? Z.of_nat (base.size t)
      then let '(t', l'', vs) := trim cap (delete k t) l' in
           (t', l'', option_list (t !! k) ++ vs)
      else (t, l, [])
  end.

Definition offer (cap : Z) k v st : spec * list V * option V :=
  match table st !! k with
  | Some old => (pin k (st <| table ::= <[k := v]> |>), [], Some old)
  | None =>
      let st := pin k (st <| table ::= <[k := v]> |>) in
      let '(t, l, vs) :=
        if 0 <? cap then trim cap (table st) (order st) else (table st, order st, []) in
      (mkSpec t l (pins st), vs, None)
  end.

Definition perform (cap : Z) (o : op K V) st : spec * list (out V) :=
  match o with
  | Get j k => let '(st, b) := find k st in (settle j st, [Found b])
  | Put j k v =>
      let '(st, vs, old) := offer cap k v st in
      (settle j st, Stored v :: (Deleted <$> vs) ++ (Replaced <$> option_list old))
  | Reset_ j => (unpin j st, [])
  | Move i j => (transfer i j st, [])
  | Read j => (st, [Value (k ← mjoin (pins st !! j); table st !! k)])
  | Write j v =>
      match mjoin (pins st !! j) with
      | Some k =>
          (st <| table ::= <[k := v]> |>, Stored v :: (Replaced <$> option_list (table st !! k)))
      | None => (st, [Value None])
      end
  end.

Fixpoint perform_all (cap : Z) (l : list (op K V)) st : spec * list (out V) :=
  match l with
  | [] => (st, [])
  | o :: l =>
      let '(st, os) := perform cap o st in
      let '(st, os') := perform_all cap l st in (st, os ++ os')
  end.

Definition in_range (m : nat) (o : op K V) : Prop :=
  match o with
  | Get j _ | Put j _ _ | Reset_ j | Read j | Write j _ => (j < m)%nat
  | Move i j => (i < m ∧ j < m)%nat
  end.
End specification.

(** ** The representation *)

Section representation.
Context {K V : Type} `{Countable K}.
Local Abbreviation LRUCache := (LRUCache K V).
Local Abbreviation spec := (spec K V).
Implicit Types (c : LRUCache) (g : HandleGuard) (gs : list HandleGuard) (st : spec) (k : K) (v : V).

Definition key_of c (n : nat) : option K := key <$> nodes c !! n.
Definition holds (n : nat) g : Z := if bool_decide (node g = Some n) then 1 else 0.

Definition guard_of c g (p : option K) : Prop :=
  match p with
  | Some k => ∃ n, g = mkGuard true (Some n) ∧ key_of c n = Some k
  | None => g = null_guard
  end.

(** [ref] counts the list's own hold on the node and the handles'. *)
Record agrees c gs st : Prop := {
  a_cache k n : cache c !! k = Some n ↔ key_of c n = Some k;
  a_table k : table st !! k = (n ← cache c !! k; value <$> nodes c !! n);
  a_size : size c = Z.of_nat (base.size (nodes c));
  a_count : base.size (table st) = base.size (nodes c);
  a_ref n nd : nodes c !! n = Some nd → ref nd = 1 + sum_of (holds n) gs;
  a_order : Forall2 (λ n k, key_of c n = Some k) (not_use c) (order st);
  a_idle n : n ∈ not_use c ↔ ∃ nd, nodes c !! n = Some nd ∧ ref nd = 1;
  a_used n : n ∈ in_use c ↔ ∃ nd, nodes c !! n = Some nd ∧ ref nd ≠ 1;
  a_nodup : NoDup (not_use c);
  a_nodup' : NoDup (in_use c);
  a_guards : Forall2 (guard_of c) gs (pins st);
  a_fresh n : is_Some (nodes c !! n) → (n < fresh c)%nat;
}.

Lemma make_agrees cap m : agrees (make cap) (replicate m null_guard) (mkSpec ∅ [] (replicate m None)).
Proof.
  split; unfold key_of; simpl; try done; try constructor.
  1-4: by intros ?%not_elem_of_nil || by intros (? & ? & _).
  - by apply Forall2_replicate.
  - intros n. rewrite lookup_empty. by intros [? ?].
Qed.

(** *** Counting handles *)

Lemma holds_nonneg n g : 0 ≤ holds n g.
Proof. unfold holds. case_bool_decide; lia. Qed.
Lemma holds_null n : holds n null_guard = 0.
Proof. unfold holds. by case_bool_decide. Qed.
Lemma holds_self n : holds n (mkGuard true (Some n)) = 1.
Proof. unfold holds. by rewrite bool_decide_eq_true_2. Qed.
Lemma holds_other n n' b : n ≠ n' → holds n (mkGuard b (Some n')) = 0.
Proof. intros Hn. unfold holds. rewrite bool_decide_eq_false_2; [done|]. simpl. congruence. Qed.

Lemma key_inj c gs st n n' k : agrees c gs st → key_of c n = Some k → key_of c n' = Some k → n = n'.
Proof. intros Ha H1 H2. apply (a_cache _ _ _ Ha) in H1, H2. congruence. Qed.

Lemma holds_pinned c gs st n k :
  agrees c gs st → key_of c n = Some k →
  ∀ gs' ps', Forall2 (guard_of c) gs' ps' → (Some k ∈ ps' ↔ sum_of (holds n) gs' ≠ 0).
Proof.
  intros Ha Hk gs' ps'. induction 1 as [|g p gs' ps' Hg _ IH]; simpl; [set_solver|].
  rewrite elem_of_cons, IH. pose proof (sum_of_nonneg (holds n) gs' (holds_nonneg n)).
  destruct p as [k'|]; simpl in Hg.
  - destruct Hg as (n' & -> & Hk'). destruct (decide (n = n')) as [<-|Hne].
    + rewrite holds_self. assert (k' = k) as -> by congruence. split; [lia|by left].
    + rewrite holds_other by done. assert (k ≠ k').
      { intros ->. apply Hne. by eapply key_inj. }
      split; [intros [?|?]; [congruence|lia]|right; lia].
  - subst g. rewrite holds_null. split; [intros [?|?]; [done|lia]|right; lia].
Qed.

(** *** Taking and releasing a handle *)

Lemma unlink_Some n (l : list nat) : n ∈ l → unlink n l = Some (filter (λ m, m ≠ n) l).
Proof. intros Hn. unfold unlink. by rewrite bool_decide_eq_true_2. Qed.

Lemma filter_fresh {A} `{EqDecision A} (x : A) (l : list A) : x ∉ l → filter (λ y, y ≠ x) l = l.
Proof.
  induction l as [|y l IH]; [done|]. intros [Hy Hl]%not_elem_of_cons.
  rewrite filter_cons_True by congruence. by rewrite IH.
Qed.

Lemma order_filter c gs st n k l ks :
  agrees c gs st → key_of c n = Some k → Forall2 (λ n k, key_of c n = Some k) l ks →
  Forall2 (λ n k, key_of c n = Some k) (filter (λ m, m ≠ n) l) (filter (λ k', k' ≠ k) ks).
Proof.
  intros Ha Hk. induction 1 as [|n' k' l ks Hk' _ IH]; [constructor|].
  destruct (decide (n' = n)) as [->|Hn].
  - assert (k' = k) as -> by congruence. by rewrite !filter_cons_False by tauto.
  - assert (k' ≠ k) by (intros ->; apply Hn; by eapply key_inj).
    rewrite !filter_cons_True by done. by constructor.
Qed.

(** Both directions change one node's count, and perhaps the list it is in. *)
Lemma agrees_count c gs st c' gs' st' n nd r :
  agrees c gs st → nodes c !! n = Some nd →
  nodes c' = <[n := nd <| ref := r |>]> (nodes c) → cache c' = cache c → size c' = size c →
  fresh c' = fresh c → table st' = table st →
  r = 1 + sum_of (holds n) gs' → (∀ m, m ≠ n → sum_of (holds m) gs' = sum_of (holds m) gs) →
  Forall2 (guard_of c) gs' (pins st') →
  Forall2 (λ n k, key_of c n = Some k) (not_use c') (order st') →
  NoDup (not_use c') → NoDup (in_use c') →
  (n ∈ not_use c' ↔ r = 1) → (n ∈ in_use c' ↔ r ≠ 1) →
  (∀ m, m ≠ n → (m ∈ not_use c' ↔ m ∈ not_use c) ∧ (m ∈ in_use c' ↔ m ∈ in_use c)) →
  agrees c' gs' st'.
Proof.
  intros Ha Hn Hnodes Hcache Hsize Hfresh Htable Hr Hsum Hg Ho Hnd Hnd' Hin Hin' Hoth.
  assert (∀ m, key_of c' m = key_of c m) as Hkey.
  { intros m. unfold key_of. rewrite Hnodes. destruct (decide (m = n)) as [->|Hm].
    - by rewrite lookup_insert_eq, Hn.
    - by rewrite lookup_insert_ne by done. }
  assert (∀ m (P : Node K V → Prop) (Q : Prop), (m = n → (Q ↔ P (nd <| ref := r |>))) →
    (m ≠ n → (Q ↔ ∃ nd, nodes c !! m = Some nd ∧ P nd)) →
    (Q ↔ ∃ nd, nodes c' !! m = Some nd ∧ P nd)) as Hex.
  { intros m P Q H1 H2. rewrite Hnodes. destruct (decide (m = n)) as [->|Hm].
    - rewrite lookup_insert_eq, H1 by done. split; [eauto|by intros (? & [= <-] & ?)].
    - rewrite lookup_insert_ne by done. auto. }
  split.
  - intros k m. rewrite Hcache, Hkey. apply Ha.
  - intros k. rewrite Htable, (a_table _ _ _ Ha), Hcache. destruct (cache c !! k) as [m|]; [|done].
    simpl. rewrite Hnodes. destruct (decide (m = n)) as [->|Hm].
    + by rewrite lookup_insert_eq, Hn.
    + by rewrite lookup_insert_ne by done.
  - rewrite Hsize, Hnodes, map_size_insert_Some by eauto. apply Ha.
  - rewrite Htable, Hnodes, map_size_insert_Some by eauto. apply Ha.
  - intros m nd'. rewrite Hnodes. destruct (decide (m = n)) as [->|Hm].
    + rewrite lookup_insert_eq. by intros [= <-].
    + rewrite lookup_insert_ne, Hsum by done. apply Ha.
  - eapply Forall2_impl; [done|]. intros m k. by rewrite Hkey.
  - intros m. apply Hex; [by intros ->|]. intros Hm. rewrite (proj1 (Hoth m Hm)). apply Ha.
  - intros m. apply Hex; [by intros ->|]. intros Hm. rewrite (proj2 (Hoth m Hm)). apply Ha.
  - done.
  - done.
  - eapply Forall2_impl; [done|]. intros g [k|]; [|done]. intros (m & -> & Hm). exists m.
    by rewrite Hkey.
  - intros m. rewrite Hnodes, lookup_insert_is_Some, Hfresh. intros [<-|[_ Hm]]; apply Ha; eauto.
Qed.

Lemma ref_node_agrees c gs st n nd :
  agrees c gs st → nodes c !! n = Some nd → ref nd < int_max →
  ∃ c', ref_node c n = Some c' ∧ capacity c' = capacity c
    ∧ agrees c' (mkGuard true (Some n) :: gs) (pin (key nd) st).
Proof.
  intros Ha Hn Hlt. assert (key_of c n = Some (key nd)) as Hk by (unfold key_of; by rewrite Hn).
  assert (ref nd = 1 + sum_of (holds n) gs) as Hr by (by eapply a_ref).
  pose proof (sum_of_nonneg (holds n) gs (holds_nonneg n)).
  assert (∀ m, n ≠ m → sum_of (holds m) (mkGuard true (Some n) :: gs) = sum_of (holds m) gs) as Hsum.
  { intros m Hm. simpl. by rewrite holds_other. }
  assert (n ∈ not_use c ↔ ref nd = 1) as Hidle.
  { rewrite (a_idle _ _ _ Ha), Hn. split; [by intros (? & [= <-] & ?)|eauto]. }
  assert (n ∈ in_use c ↔ ref nd ≠ 1) as Hused.
  { rewrite (a_used _ _ _ Ha), Hn. split; [by intros (? & [= <-] & ?)|eauto]. }
  pose proof (a_order _ _ _ Ha) as Hord. pose proof (order_filter _ _ _ _ _ _ _ Ha Hk Hord) as Hord'.
  unfold ref_node. rewrite Hn. simpl. rewrite (proj2 (Z.ltb_lt _ _)) by done.
  destruct (Z.eqb_spec (ref nd) 1) as [H1|H1].
  - unfold to_in_use. rewrite unlink_Some by tauto. eexists. split; [done|]. split; [done|].
    eapply (agrees_count c gs st _ _ _ n nd (ref nd + 1)); try done; simpl.
    + rewrite holds_self. lia.
    + intros m Hm. by rewrite holds_other.
    + constructor; [by eexists|apply Ha].
    + apply NoDup_filter, Ha.
    + apply NoDup_app. split; [apply Ha|]. split; [|apply NoDup_singleton].
      intros m Hm ->%list_elem_of_singleton. tauto.
    + rewrite list_elem_of_filter. split; [tauto|lia].
    + rewrite elem_of_app, list_elem_of_singleton. split; [lia|by right].
    + intros m Hm. rewrite list_elem_of_filter, elem_of_app, list_elem_of_singleton. tauto.
  - eexists. split; [done|]. split; [done|].
    rewrite filter_fresh in Hord' by tauto.
    eapply (agrees_count c gs st _ _ _ n nd (ref nd + 1)); try done; simpl.
    + rewrite holds_self. lia.
    + intros m Hm. by rewrite holds_other.
    + constructor; [by eexists|apply Ha].
    + apply Ha.
    + apply Ha.
    + rewrite Hidle. split; [done|lia].
    + rewrite Hused. split; [lia|done].
Qed.

(** Handles may be renamed. *)
Lemma agrees_guards c gs st gs' st' :
  agrees c gs st → Forall2 (guard_of c) gs' (pins st') →
  (∀ n, sum_of (holds n) gs' = sum_of (holds n) gs) →
  table st' = table st → order st' = order st → agrees c gs' st'.
Proof.
  intros Ha Hg Hs Ht Ho. split; rewrite ?Ht, ?Ho; try apply Ha; [|done].
  intros n nd Hn. rewrite Hs. by apply Ha.
Qed.

Lemma unpin_None i st : mjoin (pins st !! i) = None → unpin i st = st.
Proof. unfold unpin. by destruct (pins st !! i) as [[k|]|]. Qed.

Lemma reset_agrees c gs st i g :
  agrees c gs st → gs !! i = Some g →
  ∃ c', reset c g = Some (c', null_guard) ∧ capacity c' = capacity c
    ∧ agrees c' (<[i := null_guard]> gs) (unpin i st).
Proof.
  intros Ha Hi. destruct (Forall2_lookup_l _ _ _ _ _ (a_guards _ _ _ Ha) Hi) as (p & Hp & Hg).
  destruct p as [k|]; simpl in Hg.
  2:{ subst g. exists c. split; [done|]. split; [done|].
      rewrite unpin_None by (by rewrite Hp). by rewrite list_insert_id. }
  destruct Hg as (n & -> & Hk). unfold key_of in Hk.
  destruct (nodes c !! n) as [nd|] eqn:Hn; simplify_eq/=.
  assert (key_of c n = Some (key nd)) as Hk by (unfold key_of; by rewrite Hn).
  set (gs' := <[i := null_guard]> gs).
  assert (∀ m, sum_of (holds m) gs' = sum_of (holds m) gs - holds m (mkGuard true (Some n))) as Hs.
  { intros m. unfold gs'. rewrite (sum_of_insert _ _ _ _ _ Hi), holds_null. lia. }
  assert (ref nd = 1 + sum_of (holds n) gs) as Hr by (by eapply a_ref).
  pose proof (Hs n) as Hsn. rewrite holds_self in Hsn.
  pose proof (sum_of_nonneg (holds n) gs' (holds_nonneg n)).
  assert ((n ∉ not_use c) ∧ n ∈ in_use c) as [Hidle Hused].
  { rewrite (a_idle _ _ _ Ha), (a_used _ _ _ Ha), Hn. split; [intros (? & [= <-] & ?); lia|].
    exists nd. split; [done|lia]. }
  assert (Forall2 (guard_of c) gs' (<[i := None]> (pins st))) as Hg'.
  { apply Forall2_insert; [apply Ha|done]. }
  pose proof (holds_pinned _ _ _ _ _ Ha Hk _ _ Hg') as Hpin.
  unfold reset, valid, unref_node. simpl. rewrite Hn. simpl.
  rewrite (proj2 (Z.ltb_lt 1 _)) by lia. unfold unpin. rewrite Hp. simpl.
  destruct (Z.eqb_spec (ref nd - 1) 1) as [H1|H1].
  - unfold to_not_use. simpl. rewrite unlink_Some by done. eexists. split; [done|]. split; [done|].
    rewrite bool_decide_eq_false_2 by (rewrite Hpin; lia).
    eapply (agrees_count c gs st _ _ _ n nd (ref nd - 1)); try done; simpl.
    + lia.
    + intros m Hm. rewrite Hs, holds_other by done. lia.
    + apply Forall2_app; [apply Ha|]. by repeat constructor.
    + apply NoDup_app. split; [apply Ha|]. split; [|apply NoDup_singleton].
      intros m Hm ->%list_elem_of_singleton. done.
    + apply NoDup_filter, Ha.
    + rewrite elem_of_app, list_elem_of_singleton. split; [done|by right].
    + rewrite list_elem_of_filter. split; [by intros [? _]|done].
    + intros m Hm. rewrite list_elem_of_filter, elem_of_app, list_elem_of_singleton. tauto.
  - eexists. split; [done|]. split; [done|].
    rewrite bool_decide_eq_true_2 by (rewrite Hpin; lia).
    eapply (agrees_count c gs st _ _ _ n nd (ref nd - 1)); try done; simpl.
    + lia.
    + intros m Hm. rewrite Hs, holds_other by done. lia.
    + apply Ha.
    + apply Ha.
    + apply Ha.
Qed.

Lemma move_assign_agrees c gs st i j :
  agrees c gs st → (i < length gs)%nat → (j < length gs)%nat →
  ∃ c' gs', move_assign c gs i j = Some (c', gs') ∧ capacity c' = capacity c
    ∧ length gs' = length gs ∧ agrees c' gs' (transfer i j st)
    ∧ (i ≠ j → gs' !! j = Some null_guard).
Proof.
  intros Ha [g Hg]%lookup_lt_is_Some [other Ho]%lookup_lt_is_Some.
  unfold move_assign, transfer. destruct (Nat.eqb_spec i j) as [->|Hne]; [exists c, gs; by split_and!|].
  rewrite Hg, Ho. simpl. destruct (reset_agrees _ _ _ _ _ Ha Hg) as (c' & -> & Hcap & Ha').
  simpl. do 2 eexists. split; [done|]. split; [done|].
  apply lookup_lt_Some in Hg as Hi. apply lookup_lt_Some in Ho as Hj.
  split; [by rewrite !length_insert|].
  split; [|intros _; by rewrite list_lookup_insert_eq by (by rewrite length_insert)].
  assert (<[i := null_guard]> gs !! j = Some other) as Hoj by (by rewrite list_lookup_insert_ne).
  destruct (Forall2_lookup_l _ _ _ _ _ (a_guards _ _ _ Ha') Hoj) as (p & Hp & Hop).
  assert (mjoin (pins (unpin i st) !! j) = p) as Hm by (by rewrite Hp).
  eapply agrees_guards; [exact Ha'| | |done..].
  - simpl. rewrite <-(list_insert_insert_eq gs i other null_guard), Hm.
    apply Forall2_insert; [|done]. by apply Forall2_insert; [apply Ha'|].
  - intros n. rewrite (sum_of_insert _ _ j other) by (by rewrite list_lookup_insert_ne).
    rewrite (sum_of_insert _ gs i g) by done. rewrite (sum_of_insert _ gs i g) by done. rewrite holds_null. lia.
Qed.

Lemma agrees_tail c gs st : agrees c (null_guard :: gs) st → agrees c gs (st <| pins ::= tail |>).
Proof.
  intros Ha. pose proof (a_guards _ _ _ Ha) as Hg. eapply agrees_guards; [exact Ha| | |done..].
  - simpl. destruct (pins st) as [|p ps]; [by apply Forall2_cons_nil_inv in Hg|].
    by apply Forall2_cons in Hg as [_ Hg].
  - intros n. simpl. by rewrite holds_null.
Qed.

Lemma store_agrees c gs st j g :
  agrees c (g :: gs) st → (j < length gs)%nat →
  ∃ c' gs', store c gs j g = Some (c', gs') ∧ capacity c' = capacity c
    ∧ length gs' = length gs ∧ agrees c' gs' (settle j st).
Proof.
  intros Ha Hj. unfold store, settle.
  destruct (move_assign_agrees _ _ _ (S j) 0 Ha) as (c' & gs' & -> & Hcap & Hlen & Ha' & Hnull);
    [simpl; lia|simpl; lia|]. simpl.
  destruct gs' as [|g' gs']; [done|]. injection (Hnull ltac:(done)) as ->.
  exists c', gs'. split; [done|]. split; [done|]. split; [simpl in Hlen; lia|].
  by apply agrees_tail.
Qed.

(** *** Entries that come, change and go *)

Lemma value_agrees c gs st n nd v :
  agrees c gs st → nodes c !! n = Some nd →
  agrees (c <| nodes ::= <[n := nd <| value := v |>]> |>) gs (st <| table ::= <[key nd := v]> |>).
Proof.
  intros Ha Hn. assert (key_of c n = Some (key nd)) as Hk by (unfold key_of; by rewrite Hn).
  set (c' := c <| nodes ::= <[n := nd <| value := v |>]> |>).
  assert (∀ m, key_of c' m = key_of c m) as Hkey.
  { intros m. unfold key_of. simpl. destruct (decide (m = n)) as [->|Hm].
    - by rewrite lookup_insert_eq, Hn.
    - by rewrite lookup_insert_ne by done. }
  assert (∀ m (P : Z → Prop),
    (∃ nd, nodes c !! m = Some nd ∧ P (ref nd)) ↔ ∃ nd, nodes c' !! m = Some nd ∧ P (ref nd)) as Hex.
  { intros m P. simpl. destruct (decide (m = n)) as [->|Hm].
    - rewrite lookup_insert_eq, Hn. split; intros (? & [= <-] & ?); eauto.
    - by rewrite lookup_insert_ne by done. }
  split.
  - intros k m. rewrite Hkey. apply Ha.
  - intros k. simpl. pose proof (a_table _ _ _ Ha k) as Ht. destruct (decide (k = key nd)) as [->|Hne].
    + rewrite lookup_insert_eq. apply (a_cache _ _ _ Ha) in Hk as ->. simpl.
      by rewrite lookup_insert_eq.
    + rewrite lookup_insert_ne, Ht by done. destruct (cache c !! k) as [m|] eqn:Hm; [|done]. simpl.
      rewrite lookup_insert_ne; [done|]. intros <-. apply (a_cache _ _ _ Ha) in Hm. congruence.
  - simpl. rewrite map_size_insert_Some by eauto. apply Ha.
  - simpl. rewrite !map_size_insert_Some; [apply Ha|by eauto|].
    rewrite (a_table _ _ _ Ha). apply (a_cache _ _ _ Ha) in Hk as ->. simpl. rewrite Hn. by eexists.
  - intros m nd'. simpl. destruct (decide (m = n)) as [->|Hm].
    + rewrite lookup_insert_eq. intros [= <-]. simpl. by apply Ha.
    + rewrite lookup_insert_ne by done. apply Ha.
  - eapply Forall2_impl; [apply Ha|]. intros m k. by rewrite Hkey.
  - intros m. rewrite <-(Hex m (λ r, r = 1)). apply Ha.
  - intros m. rewrite <-(Hex m (λ r, r ≠ 1)). apply Ha.
  - apply Ha.
  - apply Ha.
  - eapply Forall2_impl; [apply Ha|]. intros g [k|]; [|done]. intros (m & -> & Hm). exists m.
    by rewrite Hkey.
  - intros m. simpl. rewrite lookup_insert_is_Some. intros [<-|[_ Hm]]; apply Ha; eauto.
Qed.

(** *** Nodes added and deleted *)

Lemma key_of_None c n : nodes c !! n = None → key_of c n = None.
Proof. unfold key_of. by intros ->. Qed.

Lemma key_of_delete c c' n m :
  nodes c' = delete n (nodes c) → m ≠ n → key_of c' m = key_of c m.
Proof. unfold key_of. intros -> Hm. by rewrite lookup_delete_ne. Qed.

Lemma key_of_insert c c' n nd m :
  nodes c' = <[n := nd]> (nodes c) → m ≠ n → key_of c' m = key_of c m.
Proof. unfold key_of. intros -> Hm. by rewrite lookup_insert_ne. Qed.

Lemma Forall2_elem {A B} (P Q : A → B → Prop) l ks :
  Forall2 P l ks → (∀ x y, x ∈ l → y ∈ ks → P x y → Q x y) → Forall2 Q l ks.
Proof.
  induction 1 as [|x y l ks Hp _ IH]; intros Himp; constructor.
  - apply Himp; [by left|by left|done].
  - apply IH. intros x' y' ??. apply Himp; by right.
Qed.

Lemma cache_delete c c' gs st n k :
  agrees c gs st → key_of c n = Some k →
  nodes c' = delete n (nodes c) → cache c' = delete k (cache c) →
  ∀ k' m, cache c' !! k' = Some m ↔ key_of c' m = Some k'.
Proof.
  intros Ha Hk Hn Hc k' m. rewrite Hc. destruct (decide (m = n)) as [->|Hm].
  - rewrite key_of_None by (rewrite Hn; apply lookup_delete_eq). split; [|done].
    destruct (decide (k' = k)) as [->|]; [by rewrite lookup_delete_eq|].
    rewrite lookup_delete_ne by done. intros Hx%(a_cache _ _ _ Ha). congruence.
  - rewrite (key_of_delete _ _ _ _ Hn Hm). destruct (decide (k' = k)) as [->|].
    + rewrite lookup_delete_eq. split; [done|]. intros Hx. contradict Hm. by eapply key_inj.
    + rewrite lookup_delete_ne by done. apply Ha.
Qed.

Lemma cache_insert c c' gs st n nd :
  agrees c gs st → nodes c !! n = None → cache c !! key nd = None →
  nodes c' = <[n := nd]> (nodes c) → cache c' = <[key nd := n]> (cache c) →
  ∀ k' m, cache c' !! k' = Some m ↔ key_of c' m = Some k'.
Proof.
  intros Ha Hn Hk Hn' Hc k' m. rewrite Hc. destruct (decide (m = n)) as [->|Hm].
  - assert (key_of c' n = Some (key nd)) as ->
      by (unfold key_of; by rewrite Hn', lookup_insert_eq).
    destruct (decide (k' = key nd)) as [->|]; [by rewrite lookup_insert_eq|].
    rewrite lookup_insert_ne by done. split; [|congruence].
    intros Hx%(a_cache _ _ _ Ha). by rewrite key_of_None in Hx.
  - rewrite (key_of_insert _ _ _ _ _ Hn' Hm). destruct (decide (k' = key nd)) as [->|].
    + rewrite lookup_insert_eq. split; [congruence|]. intros Hx%(a_cache _ _ _ Ha). congruence.
    + rewrite lookup_insert_ne by done. apply Ha.
Qed.

(** A node that is not in the map is held by no handle. *)
Lemma holds_new c gs st n :
  agrees c gs st → nodes c !! n = None → sum_of (holds n) gs = 0.
Proof.
  intros Ha Hn. apply sum_of_zero; [apply holds_nonneg|].
  intros g [i Hi]%list_elem_of_lookup.
  destruct (Forall2_lookup_l _ _ _ _ _ (a_guards _ _ _ Ha) Hi) as (p & _ & Hg).
  destruct p as [k'|]; simpl in Hg; [|subst g; by rewrite holds_null].
  destruct Hg as (m & -> & Hm). apply holds_other. intros ->. by rewrite key_of_None in Hm.
Qed.

Lemma insert_agrees c gs st k v :
  agrees c gs st → cache c !! k = None → size c + 1 < two64 →
  agrees (c <| nodes ::= <[fresh c := mkNode k v 1]> |> <| fresh ::= S |>
            <| not_use ::= λ l, l ++ [fresh c] |> <| cache ::= <[k := fresh c]> |>
            <| size ::= λ s, s ⊕ 1 |>) gs
    (st <| table ::= <[k := v]> |> <| order ::= λ l, l ++ [k] |>).
Proof.
  intros Ha Hk Hlt. set (n := fresh c). set (c' := _ <| size ::= _ |>).
  assert (nodes c !! n = None) as Hn.
  { apply eq_None_not_Some. intros Hs%(a_fresh _ _ _ Ha). unfold n in Hs. lia. }
  assert (key_of c' n = Some k) as Hnew by (unfold key_of; simpl; by rewrite lookup_insert_eq).
  assert (∀ m k', key_of c m = Some k' → key_of c' m = Some k') as Hold.
  { intros m k' Hm. rewrite (key_of_insert c c' n _ m eq_refl); [done|].
    intros ->. by rewrite key_of_None in Hm. }
  assert (∀ m, (∃ nd, nodes c !! m = Some nd ∧ ref nd = 1) → m ≠ n) as Hne.
  { intros m (? & Hm & _) ->. by rewrite Hn in Hm. }
  split.
  - by apply (cache_insert c c' gs st n (mkNode k v 1)).
  - intros k'. simpl. destruct (decide (k' = k)) as [->|Hkk].
    + by rewrite !lookup_insert_eq; simpl; rewrite lookup_insert_eq.
    + rewrite !lookup_insert_ne, (a_table _ _ _ Ha) by done.
      destruct (cache c !! k') as [m|] eqn:Hm; [|done]. simpl. rewrite lookup_insert_ne; [done|].
      intros <-. apply (a_cache _ _ _ Ha) in Hm. by rewrite key_of_None in Hm.
  - simpl. rewrite map_size_insert_None by done. pose proof (a_size _ _ _ Ha). u64_lia.
  - simpl. rewrite !map_size_insert_None; [by rewrite (a_count _ _ _ Ha)|done|].
    by rewrite (a_table _ _ _ Ha), Hk.
  - intros m nd. simpl. destruct (decide (m = n)) as [->|Hm].
    + rewrite lookup_insert_eq. intros [= <-]. by rewrite (holds_new c gs st).
    + rewrite lookup_insert_ne by done. apply Ha.
  - simpl. apply Forall2_app; [|by constructor].
    eapply Forall2_impl; [apply Ha|]. auto.
  - intros m. simpl. rewrite elem_of_app, list_elem_of_singleton, (a_idle _ _ _ Ha).
    destruct (decide (m = n)) as [->|Hm].
    + rewrite lookup_insert_eq. split; [by eauto|by right].
    + rewrite lookup_insert_ne by done. tauto.
  - intros m. simpl. rewrite (a_used _ _ _ Ha). destruct (decide (m = n)) as [->|Hm].
    + rewrite lookup_insert_eq, Hn. split; [by intros (? & ? & _)|by intros (? & [= <-] & ?)].
    + by rewrite lookup_insert_ne by done.
  - simpl. apply NoDup_app. split; [apply Ha|]. split; [|apply NoDup_singleton].
    intros m Hm%(a_idle _ _ _ Ha)%Hne ->%list_elem_of_singleton. done.
  - apply Ha.
  - eapply Forall2_impl; [apply Ha|]. intros g [k'|]; [|done]. intros (m & -> & Hm). exists m. auto.
  - intros m. simpl. rewrite lookup_insert_is_Some. intros [<-|[_ Hm]]; [lia|].
    apply (a_fresh _ _ _ Ha) in Hm. unfold n in *. lia.
Qed.

(** The node at the front of the eviction list. *)
Lemma front_node c gs st k ks :
  agrees c gs st → order st = k :: ks →
  ∃ n rest nd, not_use c = n :: rest ∧ n ∉ rest ∧ NoDup rest
    ∧ Forall2 (λ n k, key_of c n = Some k) rest ks
    ∧ nodes c !! n = Some nd ∧ ref nd = 1 ∧ key nd = k ∧ key_of c n = Some k
    ∧ cache c !! k = Some n ∧ table st !! k = Some (value nd).
Proof.
  intros Ha Hks. pose proof (a_order _ _ _ Ha) as Ho. rewrite Hks in Ho.
  apply Forall2_cons_inv_r in Ho as (n & rest & Hk & Ho & Hnu).
  pose proof (a_nodup _ _ _ Ha) as Hnd. rewrite Hnu in Hnd. apply NoDup_cons in Hnd as [Hnr Hnd].
  destruct (proj1 (a_idle _ _ _ Ha n)) as (nd & Hn & Hone); [rewrite Hnu; by left|].
  assert (cache c !! k = Some n) as Hc by (by apply Ha).
  exists n, rest, nd. split_and!; try done.
  - unfold key_of in Hk. rewrite Hn in Hk. by injection Hk.
  - rewrite (a_table _ _ _ Ha), Hc. simpl. by rewrite Hn.
Qed.

Lemma drop_front_agrees c gs st k ks :
  agrees c gs st → order st = k :: ks → size c < two64 →
  ∃ c' v, drop_front c = Some (c', v) ∧ table st !! k = Some v ∧ capacity c' = capacity c
    ∧ in_use c' = in_use c ∧ length (not_use c) = S (length (not_use c'))
    ∧ agrees c' gs (mkSpec (delete k (table st)) ks (pins st)).
Proof.
  intros Ha Hks Hlt. destruct (front_node _ _ _ _ _ Ha Hks)
    as (n & rest & nd & Hnu & Hnr & Hnd & Ho & Hn & Hone & Hkn & Hk & Hc & Ht).
  unfold drop_front. rewrite Hnu. simpl. rewrite Hn. simpl.
  do 2 eexists. split; [done|]. split; [done|]. split; [done|]. split; [done|]. split; [done|].
  rewrite Hkn. set (c' := _ <| size ::= _ |>).
  assert (∀ m, m ≠ n → nodes c' !! m = nodes c !! m) as Hno by (intros m Hm; by apply lookup_delete_ne).
  assert (nodes c' !! n = None) as Hnone by apply lookup_delete_eq.
  assert (∀ m k', k' ≠ k → key_of c m = Some k' → key_of c' m = Some k') as Hold.
  { intros m k' Hkk Hm. rewrite (key_of_delete c c' n m); [done|done|]. intros ->. congruence. }
  assert (∀ m (P : Node K V → Prop), m ≠ n →
    (∃ nd, nodes c !! m = Some nd ∧ P nd) ↔ ∃ nd, nodes c' !! m = Some nd ∧ P nd) as Hex.
  { intros m P Hm. by rewrite Hno. }
  split.
  - by apply (cache_delete c c' gs st n k).
  - intros k'. simpl. destruct (decide (k' = k)) as [->|Hkk]; [by rewrite !lookup_delete_eq|].
    rewrite !lookup_delete_ne, (a_table _ _ _ Ha) by done.
    destruct (cache c !! k') as [m|] eqn:Hm; [|done]. cbn. rewrite lookup_delete_ne; [done|].
    intros <-. apply (a_cache _ _ _ Ha) in Hm. congruence.
  - pose proof (map_size_ne_0_lookup_2 (nodes c) n (mk_is_Some _ _ Hn)).
    pose proof (a_size _ _ _ Ha) as Hs. cbn. rewrite map_size_delete_Some by eauto. u64_lia.
  - simpl. rewrite !map_size_delete_Some by eauto. by rewrite (a_count _ _ _ Ha).
  - intros m nd'. destruct (decide (m = n)) as [->|Hm]; [by rewrite Hnone|].
    rewrite Hno by done. apply Ha.
  - eapply Forall2_elem; [exact Ho|]. intros m k' Hm _ Hmk.
    rewrite (key_of_delete c c' n m); [done|done|]. by intros ->.
  - intros m. change (not_use c') with rest. destruct (decide (m = n)) as [->|Hm].
    + rewrite Hnone. split; [done|by intros (? & ? & _)].
    + rewrite <-Hex, <-(a_idle _ _ _ Ha), Hnu by done. rewrite elem_of_cons. tauto.
  - intros m. change (in_use c') with (in_use c). destruct (decide (m = n)) as [->|Hm].
    + rewrite Hnone, (a_used _ _ _ Ha), Hn.
      split; [by intros (? & [= <-] & ?)|by intros (? & ? & _)].
    + rewrite <-Hex by done. apply Ha.
  - done.
  - apply Ha.
  - simpl. assert (Some k ∉ pins st) as Hnp.
    { rewrite (holds_pinned _ _ _ _ _ Ha Hk _ _ (a_guards _ _ _ Ha)).
      pose proof (a_ref _ _ _ Ha _ _ Hn). lia. }
    eapply Forall2_elem; [apply Ha|]. intros g [k'|] _ Hp; [|done]. intros (m & -> & Hm).
    exists m. split; [done|]. apply Hold; [congruence|done].
  - intros m. destruct (decide (m = n)) as [->|Hm]; [rewrite Hnone; by intros [? ?]|].
    rewrite Hno by done. apply Ha.
Qed.

Lemma order_length c gs st : agrees c gs st → length (not_use c) = length (order st).
Proof. intros Ha. eapply Forall2_length, a_order, Ha. Qed.

Lemma evict_loop_agrees gs fuel : ∀ c st,
  agrees c gs st → (length (not_use c) ≤ fuel)%nat → size c < two64 →
  let '(t, l, vs) := trim (capacity c) (table st) (order st) in
  ∃ c', evict_loop fuel c = Some (c', vs) ∧ capacity c' = capacity c
    ∧ agrees c' gs (mkSpec t l (pins st)).
Proof.
  induction fuel as [|fuel IH]; intros c st Ha Hlen Hlt;
    pose proof (a_order _ _ _ Ha) as Ho; pose proof (a_size _ _ _ Ha) as Hs;
    pose proof (a_count _ _ _ Ha) as Hc; destruct st as [t l ps]; simpl in *.
  - destruct (not_use c) as [|n rest] eqn:Hnu; [|simpl in Hlen; lia].
    apply Forall2_nil_inv_l in Ho as ->. simpl.
    rewrite andb_false_r. by exists c.
  - destruct l as [|k ks].
    + apply Forall2_nil_inv_r in Ho. simpl. rewrite Ho.
      rewrite bool_decide_eq_true_2, andb_false_r by done. by exists c.
    + assert (not_use c ≠ []) as Hnu by (intros Hnil; rewrite Hnil in Ho; by apply Forall2_nil_cons_inv in Ho).
      rewrite bool_decide_eq_false_2 by done. simpl. rewrite Hs, Hc, andb_true_r.
      destruct (Z.ltb_spec (capacity c) (Z.of_nat (base.size (nodes c)))); [|by exists c].
      destruct (drop_front_agrees _ _ _ k ks Ha eq_refl Hlt)
        as (c' & v & -> & Hv & Hcap & _ & Hl & Ha'). simpl in Hv |- *.
      specialize (IH c' _ Ha' ltac:(lia)). simpl in IH. rewrite Hcap in IH.
      rewrite Hv. simpl. destruct (trim (capacity c) (delete k t) ks) as [[t' l'] vs].
      destruct IH as (c2 & -> & Hcap2 & Ha2); [|by exists c2].
      pose proof (a_size _ _ _ Ha'). pose proof (a_count _ _ _ Ha') as Hc'. simpl in Hc'.
      rewrite map_size_delete_Some in Hc' by eauto. lia.
Qed.

(** *** The public operations *)

Lemma holds_count n gs : sum_of (holds n) gs ≤ Z.of_nat (length gs).
Proof.
  induction gs as [|g gs IH]; simpl; [lia|].
  assert (holds n g ≤ 1) by (unfold holds; case_bool_decide; lia). lia.
Qed.

Lemma guard_agrees c gs st n nd :
  agrees c gs st → nodes c !! n = Some nd → Z.of_nat (length gs) + 1 < int_max →
  ∃ c', guard c n = Some (c', mkGuard true (Some n)) ∧ capacity c' = capacity c
    ∧ agrees c' (mkGuard true (Some n) :: gs) (pin (key nd) st).
Proof.
  intros Ha Hn Hlt. pose proof (a_ref _ _ _ Ha _ _ Hn). pose proof (holds_count n gs).
  destruct (ref_node_agrees _ _ _ _ _ Ha Hn ltac:(lia)) as (c' & Hr & Hcap & Ha').
  exists c'. unfold guard. by rewrite Hr.
Qed.

(** An entry's node, and that there is none. *)
Lemma table_node c gs st k :
  agrees c gs st →
  match table st !! k with
  | Some v => ∃ n nd, cache c !! k = Some n ∧ nodes c !! n = Some nd ∧ key nd = k ∧ value nd = v
  | None => cache c !! k = None
  end.
Proof.
  intros Ha. rewrite (a_table _ _ _ Ha). destruct (cache c !! k) as [n|] eqn:Hc; [|done]. simpl.
  apply (a_cache _ _ _ Ha) in Hc as Hk. unfold key_of in Hk.
  destruct (nodes c !! n) as [nd|] eqn:Hn; [|done]. simpl in *. exists n, nd. by injection Hk.
Qed.

Lemma get_agrees c gs st k :
  agrees c gs st → Z.of_nat (length gs) + 1 < int_max →
  let '(st', b) := find k st in
  ∃ c' g, get c k = Some (c', g) ∧ valid g = b ∧ capacity c' = capacity c ∧ agrees c' (g :: gs) st'.
Proof.
  intros Ha Hlt. pose proof (table_node _ _ _ k Ha) as Ht. unfold find, get.
  destruct (table st !! k) as [v|].
  - destruct Ht as (n & nd & -> & Hn & <- & _).
    destruct (guard_agrees _ _ _ _ _ Ha Hn Hlt) as (c' & -> & Hcap & Ha').
    exists c', (mkGuard true (Some n)). split_and!; try done.
  - rewrite Ht. exists c, null_guard. split_and!; try done.
    eapply agrees_guards; [exact Ha| | |done..].
    + constructor; [done|apply Ha].
    + intros n. simpl. by rewrite holds_null.
Qed.

Lemma put_agrees c gs st k v :
  agrees c gs st → Z.of_nat (length gs) + 1 < int_max → size c + 1 < two64 →
  let '(st', vs, old) := offer (capacity c) k v st in
  ∃ c' g, put c k v = Some (c', g, vs, old) ∧ valid g = true ∧ capacity c' = capacity c
    ∧ agrees c' (g :: gs) st'.
Proof.
  intros Ha Hlt Hsize. pose proof (table_node _ _ _ k Ha) as Ht. unfold offer, put.
  destruct (table st !! k) as [old|] eqn:Hold.
  - destruct Ht as (n & nd & -> & Hn & <- & <-). rewrite Hn. simpl.
    destruct (guard_agrees _ _ _ n (nd <| value := v |>) (value_agrees _ _ _ _ _ v Ha Hn))
      as (c' & -> & Hcap & Ha'); [by apply lookup_insert_eq|done|].
    exists c', (mkGuard true (Some n)). by split_and!.
  - rewrite Ht. pose proof (insert_agrees _ _ _ _ v Ha Ht Hsize) as Hi.
    assert (k ∉ order st) as Hko.
    { intros [i Hi']%list_elem_of_lookup.
      destruct (Forall2_lookup_r _ _ _ _ _ (a_order _ _ _ Ha) Hi') as (n & _ & Hk).
      apply (a_cache _ _ _ Ha) in Hk. congruence. }
    destruct (guard_agrees _ _ _ (fresh c) (mkNode k v 1) Hi) as (c1 & -> & Hcap & Ha1);
      [by apply lookup_insert_eq|done|]. simpl in Hcap |- *.
    assert (agrees c1 (mkGuard true (Some (fresh c)) :: gs) (pin k (st <| table ::= <[k := v]> |>))) as Ha2.
    { assert (filter (λ k', k' ≠ k) (order st ++ [k]) = filter (λ k', k' ≠ k) (order st)) as Hf.
      { rewrite filter_app, filter_cons_False by tauto. by rewrite filter_nil, app_nil_r. }
      eapply agrees_guards; [exact Ha1|apply Ha1|done|done|]. simpl. by rewrite Hf. }
    unfold evict. rewrite Hcap. destruct (0 <? capacity c).
    + pose proof (evict_loop_agrees _ (length (not_use c1)) c1 _ Ha2 ltac:(lia)) as He.
      rewrite Hcap in He. simpl in He.
      destruct (trim (capacity c) (<[k := v]> (table st)) (filter (λ k', k' ≠ k) (order st)))
        as [[t l] vs].
      destruct He as (c' & -> & Hcap' & Ha'); [|by exists c', (mkGuard true (Some (fresh c)))].
      pose proof (a_size _ _ _ Ha2) as Hs. pose proof (a_count _ _ _ Ha2) as Hc. simpl in Hc.
      rewrite map_size_insert_None in Hc by done.
      pose proof (a_size _ _ _ Ha). pose proof (a_count _ _ _ Ha). lia.
    + exists c1, (mkGuard true (Some (fresh c))). by split_and!.
Qed.

Lemma pinned_value c gs st j g :
  agrees c gs st → gs !! j = Some g →
  match mjoin (pins st !! j) with
  | Some k => valid g = true ∧ ∃ n nd, node g = Some n ∧ nodes c !! n = Some nd ∧ key nd = k
                ∧ table st !! k = Some (value nd)
  | None => valid g = false
  end.
Proof.
  intros Ha Hg. destruct (Forall2_lookup_l _ _ _ _ _ (a_guards _ _ _ Ha) Hg) as (p & -> & Hp).
  destruct p as [k|]; simpl in *; [|by subst g]. destruct Hp as (n & -> & Hk). split; [done|].
  apply (a_cache _ _ _ Ha) in Hk as Hc. unfold key_of in Hk.
  destruct (nodes c !! n) as [nd|] eqn:Hn; [|done]. injection Hk as <-. exists n, nd.
  rewrite (a_table _ _ _ Ha), Hc. simpl. by rewrite Hn.
Qed.

Lemma exec_agrees o c gs st :
  agrees c gs st → in_range (length gs) o →
  Z.of_nat (length gs) + 1 < int_max → size c + 1 < two64 →
  let '(st', os) := perform (capacity c) o st in
  ∃ c' gs', exec o c gs = Some (c', gs', os) ∧ capacity c' = capacity c
    ∧ length gs' = length gs ∧ agrees c' gs' st'.
Proof.
  intros Ha Hr Hlt Hsize. destruct o as [j k|j k v|j|i j|j|j v]; simpl in *.
  - pose proof (get_agrees _ _ _ k Ha Hlt) as Hg. destruct (find k st) as [st' b].
    destruct Hg as (c1 & g & -> & <- & Hcap & Ha1). simpl.
    destruct (store_agrees _ _ _ j _ Ha1 Hr) as (c2 & gs' & -> & Hcap2 & Hlen & Ha2).
    exists c2, gs'. split_and!; try done. congruence.
  - pose proof (put_agrees _ _ _ k v Ha Hlt Hsize) as Hp. destruct (offer _ k v st) as [[st' vs] old].
    destruct Hp as (c1 & g & -> & _ & Hcap & Ha1). simpl.
    destruct (store_agrees _ _ _ j _ Ha1 Hr) as (c2 & gs' & -> & Hcap2 & Hlen & Ha2).
    exists c2, gs'. split_and!; try done. congruence.
  - apply lookup_lt_is_Some in Hr as [g Hg]. rewrite Hg. simpl.
    destruct (reset_agrees _ _ _ _ _ Ha Hg) as (c' & -> & Hcap & Ha').
    exists c', (<[j := null_guard]> gs). split_and!; try done. by rewrite length_insert.
  - destruct Hr as [Hi Hj].
    destruct (move_assign_agrees _ _ _ _ _ Ha Hi Hj) as (c' & gs' & -> & Hcap & Hlen & Ha' & _).
    by exists c', gs'.
  - apply lookup_lt_is_Some in Hr as [g Hg]. pose proof (pinned_value _ _ _ _ _ Ha Hg) as Hp.
    rewrite Hg. simpl. exists c, gs. split; [|done].
    destruct (mjoin (pins st !! j)) as [k|]; simpl; [|by rewrite Hp].
    destruct Hp as (Hv & n & nd & Hn & Hnd & _ & Ht). unfold guard_value.
    rewrite Hv, Hn. simpl. by rewrite Hnd, Ht.
  - apply lookup_lt_is_Some in Hr as [g Hg]. pose proof (pinned_value _ _ _ _ _ Ha Hg) as Hp.
    rewrite Hg. simpl. destruct (mjoin (pins st !! j)) as [k|]; [|by exists c, gs; rewrite Hp].
    destruct Hp as (Hv & n & nd & Hn & Hnd & <- & Ht). unfold guard_value, set_value.
    rewrite Hv, Hn. simpl. rewrite Hnd, Ht. simpl. do 2 eexists. split; [done|].
    split_and!; try done. by apply value_agrees.
Qed.

(** *** Size *)

Lemma trim_size cap (t : gmap K V) l :
  let '(t', l', _) := trim cap t l in
  (base.size t' ≤ base.size t)%nat ∧ (Z.of_nat (base.size t') ≤ cap ∨ l' = []).
Proof.
  revert t. induction l as [|k l IH]; intros t; simpl; [by auto|].
  destruct (Z.ltb_spec cap (Z.of_nat (base.size t))); [|split; [done|by left]].
  specialize (IH (delete k t)). destruct (trim cap (delete k t) l) as [[t' l'] vs].
  destruct IH as [IH ?]. split; [|done]. etrans; [done|]. apply map_subseteq_size, delete_subseteq.
Qed.

Lemma unpin_table i st : table (unpin i st) = table st.
Proof. unfold unpin. case_match; [|done]. case_match; [|done]. by case_bool_decide. Qed.
Lemma transfer_table i j st : table (transfer i j st) = table st.
Proof. unfold transfer. case_match; [done|]. apply unpin_table. Qed.
Lemma settle_table j st : table (settle j st) = table st.
Proof. apply (transfer_table (S j) 0 st). Qed.
Lemma find_table k st : table (find k st).1 = table st.
Proof. unfold find. by case_match. Qed.

Lemma perform_size cap o st : (base.size (table (perform cap o st).1) ≤ S (base.size (table st)))%nat.
Proof.
  destruct o as [j k|j k v|j|i j|j|j v]; unfold perform.
  - pose proof (find_table k st) as Ht. destruct (find k st) as [st' b]. cbn [fst] in *.
    rewrite settle_table, Ht. lia.
  - unfold offer. destruct (table st !! k) as [old|] eqn:Hk.
    { cbn [fst]. rewrite settle_table. simpl. rewrite map_size_insert_Some by eauto. lia. }
    destruct (0 <? cap).
    + pose proof (trim_size cap (<[k := v]> (table st)) (filter (λ k', k' ≠ k) (order st))) as Ht.
      simpl in *. destruct (trim _ _ _) as [[t l] vs]. cbn [fst]. rewrite settle_table. simpl.
      rewrite map_size_insert_None in Ht by done. lia.
    + cbn [fst]. rewrite settle_table. simpl. by rewrite map_size_insert_None.
  - cbn [fst]. rewrite unpin_table. lia.
  - cbn [fst]. rewrite transfer_table. lia.
  - simpl. lia.
  - destruct (mjoin _); simpl; [|lia]. rewrite map_size_insert. case_match; simpl; lia.
Qed.

Lemma exec_all_agrees l : ∀ c gs st,
  agrees c gs st → Forall (in_range (length gs)) l →
  Z.of_nat (length gs) + 1 < int_max → size c + Z.of_nat (length l) < two64 →
  let '(st', os) := perform_all (capacity c) l st in
  ∃ c' gs', exec_all l c gs = Some (c', gs', os) ∧ capacity c' = capacity c
    ∧ length gs' = length gs ∧ agrees c' gs' st'.
Proof.
  induction l as [|o l IH]; intros c gs st Ha Hr Hlt Hsize; cbn [perform_all exec_all].
  { by exists c, gs. }
  apply Forall_cons in Hr as [Ho Hr]. rewrite length_cons, Nat2Z.inj_succ in Hsize.
  pose proof (exec_agrees o _ _ _ Ha Ho Hlt ltac:(lia)) as He.
  pose proof (perform_size (capacity c) o st) as Hs.
  destruct (perform (capacity c) o st) as [st1 os1]. destruct He as (c1 & gs1 & -> & Hcap & Hlen & Ha1).
  cbn in Hs |- *. rewrite (a_count _ _ _ Ha), (a_count _ _ _ Ha1) in Hs.
  pose proof (a_size _ _ _ Ha). pose proof (a_size _ _ _ Ha1). rewrite <-Hlen in Hr, Hlt.
  specialize (IH c1 gs1 st1 Ha1 Hr Hlt ltac:(lia)). rewrite Hcap in IH.
  destruct (perform_all (capacity c) l st1) as [st2 os2]. destruct IH as (c2 & gs2 & -> & ? & ? & ?).
  exists c2, gs2. split_and!; try done; congruence.
Qed.

(** An entry outside [order] is kept by a handle. *)
Lemma size_pinned c gs st :
  agrees c gs st → (base.size (table st) ≤ length (order st) + length gs)%nat.
Proof.
  intros Ha. rewrite (a_count _ _ _ Ha), <-(order_length _ _ _ Ha).
  assert (length (in_use c) ≤ length gs)%nat as Hin.
  { trans (length (omap node gs)); [|clear; induction gs as [|g gs IH]; [done|];
      csimpl; destruct (node g); simpl; lia].
    apply submseteq_length, NoDup_submseteq; [apply Ha|].
    intros n (nd & Hn & Hr)%(a_used _ _ _ Ha). pose proof (a_ref _ _ _ Ha _ _ Hn) as Hs.
    apply list_elem_of_omap. destruct (decide (Exists (λ g, node g = Some n) gs)) as [He|He].
    - apply list.Exists_exists in He as (g & ? & ?). by exists g.
    - rewrite sum_of_zero in Hs; [lia|apply holds_nonneg|]. intros g Hg. unfold holds.
      rewrite bool_decide_eq_false_2; [done|]. intros Hgn. apply He, list.Exists_exists. eauto. }
  rewrite <-size_dom. trans (length (not_use c ++ in_use c)); [|rewrite length_app; lia].
  rewrite <-(size_list_to_set (C:=gset nat)).
  - apply subseteq_size. intros n [nd Hn]%elem_of_dom. rewrite elem_of_list_to_set, elem_of_app.
    rewrite (a_idle _ _ _ Ha), (a_used _ _ _ Ha). destruct (decide (ref nd = 1)); eauto.
  - apply NoDup_app. split; [apply Ha|]. split; [|apply Ha].
    intros n (nd & Hn & ?)%(a_idle _ _ _ Ha) (nd' & Hn' & ?)%(a_used _ _ _ Ha). congruence.
Qed.

Lemma offer_size cap k v st :
  0 < cap → let '(st', _, _) := offer cap k v st in
  base.size (table st') = base.size (table st) ∨ Z.of_nat (base.size (table st')) ≤ cap ∨ order st' = [].
Proof.
  intros Hcap. unfold offer. destruct (table st !! k) as [old|] eqn:Hk.
  { left. simpl. by rewrite map_size_insert_Some by eauto. }
  rewrite (proj2 (Z.ltb_lt _ _)) by done.
  match goal with |- context [trim cap ?t ?l] => pose proof (trim_size cap t l) as Ht end.
  destruct (trim _ _ _) as [[t l] vs]. simpl. right. tauto.
Qed.

Lemma perform_bound c gs st o :
  agrees c gs st → in_range (length gs) o → Z.of_nat (length gs) + 1 < int_max → size c + 1 < two64 →
  0 < capacity c → size c ≤ Z.max (capacity c) (Z.of_nat (length gs) + 1) →
  Z.of_nat (base.size (table (perform (capacity c) o st).1))
    ≤ Z.max (capacity c) (Z.of_nat (length gs) + 1).
Proof.
  intros Ha Hr Hlt Hsize Hcap Hb. rewrite (a_size _ _ _ Ha), <-(a_count _ _ _ Ha) in Hb.
  destruct o as [j k|j k v|j|i j|j|j v]; unfold perform.
  - pose proof (find_table k st) as Ht. destruct (find k st) as [st' b]. cbn [fst] in *.
    by rewrite settle_table, Ht.
  - pose proof (put_agrees _ _ _ k v Ha Hlt Hsize) as Hp.
    pose proof (offer_size (capacity c) k v st Hcap) as Ho.
    destruct (offer _ k v st) as [[st' vs] old]. destruct Hp as (c' & g & _ & _ & _ & Ha').
    apply size_pinned in Ha'. cbn [fst]. rewrite settle_table.
    destruct Ho as [->|[Ho|Ho]]; [done|lia|]. rewrite Ho in Ha'. simpl in Ha'. lia.
  - cbn [fst]. by rewrite unpin_table.
  - cbn [fst]. by rewrite transfer_table.
  - done.
  - destruct (mjoin (pins st !! j)) as [k|] eqn:Hm; [|done]. cbn [fst].
    apply lookup_lt_is_Some in Hr as [g Hg]. pose proof (pinned_value _ _ _ _ _ Ha Hg) as Hp.
    rewrite Hm in Hp. destruct Hp as (_ & n & nd & _ & _ & _ & Ht).
    simpl. by rewrite map_size_insert_Some by eauto.
Qed.

Lemma exec_all_bound l : ∀ c gs st,
  agrees c gs st → Forall (in_range (length gs)) l →
  Z.of_nat (length gs) + 1 < int_max → size c + Z.of_nat (length l) < two64 →
  0 < capacity c → size c ≤ Z.max (capacity c) (Z.of_nat (length gs) + 1) →
  Z.of_nat (base.size (table (perform_all (capacity c) l st).1))
    ≤ Z.max (capacity c) (Z.of_nat (length gs) + 1).
Proof.
  induction l as [|o l IH]; intros c gs st Ha Hr Hlt Hsize Hcap Hb; cbn [perform_all].
  { simpl. rewrite (a_size _ _ _ Ha), <-(a_count _ _ _ Ha) in Hb. done. }
  apply Forall_cons in Hr as [Ho Hr]. rewrite length_cons, Nat2Z.inj_succ in Hsize.
  pose proof (exec_agrees o _ _ _ Ha Ho Hlt ltac:(lia)) as He.
  pose proof (perform_size (capacity c) o st) as Hs.
  pose proof (perform_bound _ _ _ _ Ha Ho Hlt ltac:(lia) Hcap Hb) as Hb'.
  destruct (perform (capacity c) o st) as [st1 os1]. destruct He as (c1 & gs1 & _ & Hcap1 & Hlen & Ha1).
  cbn [fst] in *. rewrite (a_count _ _ _ Ha), (a_count _ _ _ Ha1) in Hs.
  rewrite (a_count _ _ _ Ha1), <-(a_size _ _ _ Ha1) in Hb'.
  pose proof (a_size _ _ _ Ha). pose proof (a_size _ _ _ Ha1).
  specialize (IH c1 gs1 st1 Ha1). rewrite Hcap1, Hlen in IH.
  destruct (perform_all (capacity c) l st1) as [st2 os2]. cbn [fst] in *.
  apply IH; try done; lia.
Qed.

(** *** Values *)

Definition values (t : gmap K V) : list V := (map_to_list t).*2.

Lemma values_insert (t : gmap K V) k v :
  values (<[k := v]> t) ++ option_list (t !! k) ≡ₚ v :: values t.
Proof.
  unfold values. destruct (t !! k) as [old|] eqn:Hk; simpl.
  - rewrite <-(insert_delete_id t k old Hk) at 2. rewrite <-insert_delete_eq.
    rewrite !map_to_list_insert by apply lookup_delete_eq. simpl.
    apply perm_skip. by rewrite <-Permutation_cons_append.
  - by rewrite app_nil_r, map_to_list_insert by done.
Qed.

Lemma values_delete (t : gmap K V) k :
  option_list (t !! k) ++ values (delete k t) ≡ₚ values t.
Proof.
  unfold values. destruct (t !! k) as [v|] eqn:Hk; simpl.
  - rewrite <-(insert_delete_id t k v Hk) at 2. by rewrite map_to_list_insert by apply lookup_delete_eq.
  - by rewrite delete_id.
Qed.

Definition stored (o : out V) : option V := match o with Stored v => Some v | _ => None end.
Definition deleted (o : out V) : option V := match o with Deleted v => Some v | _ => None end.
Definition replaced (o : out V) : option V := match o with Replaced v => Some v | _ => None end.

Lemma trim_values cap (t : gmap K V) l :
  let '(t', l', vs) := trim cap t l in values t ≡ₚ vs ++ values t'.
Proof.
  revert t. induction l as [|k l IH]; intros t; simpl; [done|].
  destruct (cap <? _); [|done]. specialize (IH (delete k t)).
  destruct (trim cap (delete k t) l) as [[t' l'] vs]. rewrite <-app_assoc, <-IH. symmetry.
  apply values_delete.
Qed.

Lemma omap_deleted (vs : list V) : omap deleted (Deleted <$> vs) = vs.
Proof. induction vs; csimpl; congruence. Qed.
Lemma omap_not_stored {A} (f : A → out V) (l : list A) p :
  (∀ x, p (f x) = None) → omap p (f <$> l) = ([] : list V).
Proof. intros Hf. induction l; csimpl; [done|]. by rewrite Hf. Qed.

(** A value comes in once and leaves once. *)
Definition accounts (t : gmap K V) (os : list (out V)) (t' : gmap K V) : Prop :=
  values t ++ omap stored os ≡ₚ omap deleted os ++ omap replaced os ++ values t'.

Lemma perform_accounts cap o st :
  accounts (table st) (perform cap o st).2 (table (perform cap o st).1).
Proof.
  assert (∀ b t, accounts t [Found b] t) as Hf by (intros; unfold accounts; simpl; by rewrite app_nil_r).
  assert (∀ b t, accounts t [Value b] t) as Hv by (intros; unfold accounts; simpl; by rewrite app_nil_r).
  assert (∀ t, accounts t [] t) as Hn by (intros; unfold accounts; simpl; by rewrite app_nil_r).
  destruct o as [j k|j k v|j|i j|j|j v]; unfold perform.
  - pose proof (find_table k st) as Ht. destruct (find k st) as [st' b]. cbn [fst snd] in *.
    by rewrite settle_table, Ht.
  - unfold offer. destruct (table st !! k) as [old|] eqn:Hk.
    + cbn [fst snd]. rewrite settle_table. unfold accounts. simpl.
      pose proof (values_insert (table st) k v) as Hi. rewrite Hk in Hi. simpl in Hi.
      by rewrite <-Permutation_cons_append, <-Hi, <-Permutation_cons_append.
    + simpl. match goal with |- context [trim cap ?t ?l] => pose proof (trim_values cap t l) as Ht end.
      pose proof (values_insert (table st) k v) as Hi. rewrite Hk, app_nil_r in Hi.
      destruct (0 <? cap); [destruct (trim _ _ _) as [[t l] vs]|]; cbn [fst snd];
        rewrite settle_table; unfold accounts; csimpl; rewrite ?app_nil_r.
      * rewrite omap_deleted, !omap_not_stored by done. simpl.
        by rewrite <-Permutation_cons_append, <-Hi.
      * by rewrite <-Permutation_cons_append, <-Hi.
  - cbn [fst snd]. by rewrite unpin_table.
  - cbn [fst snd]. by rewrite transfer_table.
  - apply Hv.
  - destruct (mjoin _) as [k|]; [|apply Hv]. unfold accounts. csimpl.
    pose proof (values_insert (table st) k v) as Hi.
    destruct (table st !! k) as [old|] eqn:Hk; csimpl; simpl in Hi; rewrite ?app_nil_r in Hi.
    + by rewrite <-Permutation_cons_append, <-Hi, <-Permutation_cons_append.
    + by rewrite <-Permutation_cons_append, <-Hi.
Qed.

Lemma perform_all_accounts cap l : ∀ st,
  accounts (table st) (perform_all cap l st).2 (table (perform_all cap l st).1).
Proof.
  induction l as [|o l IH]; intros st; simpl; [unfold accounts; simpl; by rewrite app_nil_r|].
  pose proof (perform_accounts cap o st) as Hp. destruct (perform cap o st) as [st1 os1].
  specialize (IH st1). destruct (perform_all cap l st1) as [st2 os2]. simpl in *.
  unfold accounts in *. rewrite !omap_app, app_assoc, Hp, <-!app_assoc. f_equiv.
  rewrite (Permutation_app_comm (omap deleted os2)), <-!app_assoc. f_equiv.
  rewrite IH. rewrite (Permutation_app_comm (omap deleted os2)), <-app_assoc. done.
Qed.

(** *** The destructor *)

Lemma order_nodup c gs st : agrees c gs st → NoDup (order st).
Proof.
  intros Ha. pose proof (a_order _ _ _ Ha) as Ho. pose proof (a_nodup _ _ _ Ha) as Hnd.
  assert (∀ n n' k, key_of c n = Some k → key_of c n' = Some k → n = n') as Hinj.
  { intros. by eapply key_inj. }
  clear Ha. induction Ho as [|n k l ks Hk Ho IH]; [constructor|].
  apply NoDup_cons in Hnd as [Hn Hnd]. constructor; [|by apply IH].
  intros [i Hi]%list_elem_of_lookup. destruct (Forall2_lookup_r _ _ _ _ _ Ho Hi) as (n' & Hn' & Hk').
  apply Hn. rewrite (Hinj _ _ _ Hk Hk'). by eapply list_elem_of_lookup_2.
Qed.

Lemma destroy_loop_agrees gs fuel : ∀ c st,
  agrees c gs st → (length (not_use c) ≤ fuel)%nat → size c < two64 →
  ∃ c' vs t, destroy_loop fuel c = Some (c', vs) ∧ values (table st) ≡ₚ vs ++ values t
    ∧ vs = omap (λ k, table st !! k) (order st)
    ∧ in_use c' = in_use c ∧ agrees c' gs (mkSpec t [] (pins st)).
Proof.
  induction fuel as [|fuel IH]; intros c st Ha Hlen Hlt;
    pose proof (a_order _ _ _ Ha) as Ho; destruct st as [t l ps]; simpl in *.
  - destruct (not_use c) as [|n rest] eqn:Hnu; [|simpl in Hlen; lia].
    apply Forall2_nil_inv_l in Ho as ->. rewrite bool_decide_eq_true_2 by done. by exists c, [], t.
  - destruct l as [|k ks].
    + apply Forall2_nil_inv_r in Ho. rewrite bool_decide_eq_true_2 by done. by exists c, [], t.
    + rewrite bool_decide_eq_false_2
        by (intros Hnil; rewrite Hnil in Ho; by apply Forall2_nil_cons_inv in Ho).
      destruct (drop_front_agrees _ _ _ k ks Ha eq_refl Hlt)
        as (c' & v & -> & Hv & Hcap & Hin & Hl & Ha'). simpl in Hv |- *.
      destruct (IH c' _ Ha' ltac:(lia)) as (c2 & vs & t' & -> & Hval & Hvs & Hin2 & Ha2).
      { pose proof (a_size _ _ _ Ha') as Hs. pose proof (a_count _ _ _ Ha') as Hc. simpl in Hc.
        rewrite map_size_delete_Some in Hc by eauto.
        pose proof (a_size _ _ _ Ha). pose proof (a_count _ _ _ Ha) as Hc'. simpl in Hc'. lia. }
      exists c2, (v :: vs), t'. split; [done|].
      pose proof (values_delete t k) as Hd. rewrite Hv in Hd. simpl in *.
      split; [by rewrite <-Hval|]. rewrite Hv. split; [|split; [congruence|done]].
      f_equal. rewrite Hvs. apply order_nodup in Ha as Hnd.
      apply NoDup_cons in Hnd as [Hkk _]. clear -Hkk.
      induction ks as [|k' ks IH]; [done|]. apply not_elem_of_cons in Hkk as [? ?]. csimpl.
      rewrite lookup_delete_ne by done. by rewrite IH.

Qed.

Lemma destroy_agrees c gs st :
  agrees c gs st → size c < two64 →
  if bool_decide (Forall (λ g, g = null_guard) gs) then
    ∃ c' vs, destroy c = Some (c', vs) ∧ nodes c' = ∅
      ∧ values (table st) ≡ₚ vs ∧ vs = omap (λ k, table st !! k) (order st)
  else destroy c = None.
Proof.
  intros Ha Hlt. unfold destroy. case_bool_decide as Hnull.
  - assert (∀ n, sum_of (holds n) gs = 0) as Hs.
    { intros n. apply sum_of_zero; [apply holds_nonneg|]. intros g Hg.
      rewrite (proj1 (Forall_forall _ _) Hnull g Hg). apply holds_null. }
    assert (in_use c = []) as Hin.
    { apply elem_of_nil_inv. intros n (nd & Hn & Hr)%(a_used _ _ _ Ha). apply Hr.
      rewrite (a_ref _ _ _ Ha _ _ Hn), Hs. done. }
    rewrite bool_decide_eq_true_2 by done.
    destruct (destroy_loop_agrees _ _ _ _ Ha (le_n _) Hlt) as (c' & vs & t & Hd & Hv & Hvs & Hin' & Ha').
    exists c', vs. split; [done|]. assert (base.size (nodes c') = 0%nat) as Hz.
    { rewrite <-(a_count _ _ _ Ha'). pose proof (size_pinned _ _ _ Ha') as Hp. simpl in *.
      apply map_size_empty_iff, map_empty. intros k. rewrite (a_table _ _ _ Ha').
      destruct (cache c' !! k) as [n|] eqn:Hk; [|done]. apply (a_cache _ _ _ Ha') in Hk.
      unfold key_of in Hk. simpl. destruct (nodes c' !! n) as [nd|] eqn:Hn; [|done].
      pose proof (a_order _ _ _ Ha') as Ho. apply Forall2_nil_inv_r in Ho.
      destruct (decide (ref nd = 1)) as [Hr|Hr].
      + assert (n ∈ not_use c') as Hni by (apply (a_idle _ _ _ Ha'); eauto).
        rewrite Ho in Hni. by apply not_elem_of_nil in Hni.
      + assert (n ∈ in_use c') as Hni by (apply (a_used _ _ _ Ha'); eauto).
        rewrite Hin', Hin in Hni. by apply not_elem_of_nil in Hni. }
    apply map_size_empty_iff in Hz. split; [done|]. split; [|done].
    rewrite Hv. pose proof (a_count _ _ _ Ha') as Hc. rewrite Hz in Hc. simpl in Hc.
    apply map_size_empty_iff in Hc. rewrite Hc. by rewrite app_nil_r.
  - rewrite bool_decide_eq_false_2; [done|]. intros Hin. apply Hnull, Forall_forall. intros g Hg.
    apply list_elem_of_lookup in Hg as [i Hi].
    destruct (Forall2_lookup_l _ _ _ _ _ (a_guards _ _ _ Ha) Hi) as (p & _ & Hp).
    destruct p as [k|]; [|done]. destruct Hp as (n & -> & Hk). unfold key_of in Hk.
    destruct (nodes c !! n) as [nd|] eqn:Hn; [|done].
    assert (n ∈ in_use c) as Hu.
    { apply (a_used _ _ _ Ha). exists nd. split; [done|].
      rewrite (a_ref _ _ _ Ha _ _ Hn). pose proof (sum_of_lookup _ _ _ _ (holds_nonneg n) Hi) as Hl.
      rewrite holds_self in Hl. lia. }
    rewrite Hin in Hu. by apply not_elem_of_nil in Hu.
Qed.

(** A client program on a new cache: everything the theorems start from. *)
Lemma exec_all_fresh cap m l :
  0 ≤ cap → Z.of_nat m + 1 < int_max → Forall (in_range m) l → Z.of_nat (length l) < two64 →
  let '(st, os) := perform_all cap l (mkSpec ∅ [] (replicate m None)) in
  ∃ c gs, exec_all l (make cap) (replicate m null_guard) = Some (c, gs, os)
    ∧ length gs = m ∧ agrees c gs st ∧ size c < two64
    ∧ (0 < cap → size c ≤ Z.max cap (Z.of_nat m + 1)).
Proof.
  intros Hcap Hm Hl Hlen. pose proof (make_agrees cap m) as Ha.
  assert (length (replicate m null_guard) = m) as Hrep by apply length_replicate.
  pose proof (exec_all_agrees l _ _ _ Ha) as He. rewrite Hrep in He.
  pose proof (exec_all_bound l _ _ _ Ha) as Hb. rewrite Hrep in Hb. simpl in He, Hb.
  assert (∀ l st, base.size (table (perform_all cap l st).1) ≤ length l + base.size (table st))%nat as Hs.
  { clear. induction l as [|o l IH]; intros st; simpl; [lia|].
    pose proof (perform_size cap o st) as Hp. destruct (perform cap o st) as [st1 os1].
    specialize (IH st1). destruct (perform_all cap l st1). simpl in *. lia. }
  specialize (Hs l (mkSpec ∅ [] (replicate m None))). simpl in Hs.
  destruct (perform_all cap l _) as [st os].
  destruct (He Hl Hm Hlen) as (c & gs & Hex & _ & Hlg & Ha').
  exists c, gs. split; [done|]. split; [done|]. split; [done|].
  rewrite (a_size _ _ _ Ha'), <-(a_count _ _ _ Ha'). simpl in *. rewrite map_size_empty in Hs.
  split; [lia|]. intros Hpos. apply Hb; try done; lia.
Qed.
End representation.

(** ** The textbook cache *)

Section classic.
Context {K V : Type} `{Countable K}.
Implicit Types (k : K) (v : V) (l : list (K * V)).

(** Entries, least recently used first. *)
Definition entry k l : option V := snd <$> head (filter (λ e, e.1 = k) l).
Definition others k l : list (K * V) := filter (λ e, e.1 ≠ k) l.

Definition classic_get k l : list (K * V) * option V :=
  match entry k l with
  | Some v => (others k l ++ [(k, v)], Some v)
  | None => (l, None)
  end.

(** The entries that fall out, and the value replaced. *)
Definition classic_put (cap : nat) k v l : list (K * V) * list V * option V :=
  let l' := others k l ++ [(k, v)] in
  (drop (length l' - cap) l', (take (length l' - cap) l').*2, entry k l).

Inductive access :=
  | Fetch k
  | Add k v.

(** A client that drops every handle at once. *)
Definition compile (a : access) : list (op K V) :=
  match a with
  | Fetch k => [Get 0 k; Read 0; Reset_ 0]
  | Add k v => [Put 0 k v; Reset_ 0]
  end.

Definition classic (cap : nat) (a : access) l : list (K * V) * list (out V) :=
  match a with
  | Fetch k =>
      let '(l, o) := classic_get k l in (l, [Found (bool_decide (is_Some o)); Value o])
  | Add k v =>
      let '(l, vs, old) := classic_put cap k v l in
      (l, Stored v :: (Deleted <$> vs) ++ (Replaced <$> option_list old))
  end.

Fixpoint classic_all (cap : nat) (as_ : list access) l : list (K * V) * list (out V) :=
  match as_ with
  | [] => (l, [])
  | a :: as_ =>
      let '(l, os) := classic cap a l in
      let '(l, os') := classic_all cap as_ l in (l, os ++ os')
  end.

(** The specification state of a list of entries when no handle is held. *)
Definition at_rest l : spec K V := mkSpec (list_to_map l) (l.*1) [None].

Lemma entry_lookup k l : (list_to_map l : gmap K V) !! k = entry k l.
Proof.
  unfold entry. induction l as [|[k' v] l IH]; [done|]. simpl. destruct (decide (k' = k)) as [->|Hk].
  - rewrite lookup_insert_eq, filter_cons_True by done. done.
  - by rewrite lookup_insert_ne, filter_cons_False by done.
Qed.

Lemma others_keys k l : (others k l).*1 = filter (λ k', k' ≠ k) l.*1.
Proof.
  unfold others. induction l as [|[k' v] l IH]; [done|]. csimpl. destruct (decide (k' = k)) as [->|Hk].
  - by rewrite !filter_cons_False by tauto.
  - rewrite !filter_cons_True by done. csimpl. by rewrite IH.
Qed.

Lemma others_fresh k l : k ∉ l.*1 → others k l = l.
Proof.
  unfold others. induction l as [|[k' v] l IH]; [done|]. csimpl. intros [? ?]%not_elem_of_cons.
  rewrite filter_cons_True by (simpl; congruence). by rewrite IH.
Qed.

Lemma others_length k v l :
  NoDup l.*1 → entry k l = Some v → length (others k l) = (length l - 1)%nat.
Proof.
  unfold entry, others. induction l as [|[k' v'] l IH]; [done|]. simpl. intros [Hk Hnd]%NoDup_cons.
  destruct (decide (k' = k)) as [->|Hne].
  - rewrite (filter_cons_False (λ e, e.1 ≠ k)) by (simpl; tauto). intros _.
    pose proof (others_fresh k l Hk) as Ho. unfold others in Ho. rewrite Ho. lia.
  - rewrite (filter_cons_False (λ e, e.1 = k)), (filter_cons_True (λ e, e.1 ≠ k)) by done.
    intros He. simpl. rewrite IH by done. destruct l; [done|simpl; lia].
Qed.

Lemma entry_None k l : entry k l = None ↔ k ∉ l.*1.
Proof. rewrite <-entry_lookup. symmetry. apply not_elem_of_list_to_map. Qed.

Lemma renewed_nodup k v l : NoDup l.*1 → NoDup ((others k l ++ [(k, v)]).*1).
Proof.
  intros Hnd. rewrite fmap_app, others_keys. apply NoDup_app. split; [by apply NoDup_filter|].
  split; [|apply NoDup_singleton]. intros k' [? _]%list_elem_of_filter ->%list_elem_of_singleton. done.
Qed.

(** The table after an entry was moved to the back, with a new value. *)
Lemma renewed_table k v l :
  (list_to_map (others k l ++ [(k, v)]) : gmap K V) = <[k := v]> (list_to_map l).
Proof.
  apply map_eq. intros k'. rewrite entry_lookup. unfold entry, others.
  rewrite filter_app, list_filter_filter. destruct (decide (k' = k)) as [->|Hne].
  - rewrite lookup_insert_eq, filter_singleton_True by done.
    assert (filter (λ e : K * V, e.1 = k ∧ e.1 ≠ k) l = []) as ->; [|done].
    induction l as [|e l IH]; [done|]. rewrite filter_cons_False by tauto. done.
  - rewrite lookup_insert_ne, entry_lookup by done. unfold entry.
    rewrite filter_singleton_False, app_nil_r by (simpl; congruence).
    f_equal. f_equal. apply list_filter_iff. intros e. split; [tauto|by intros ->].
Qed.
(** Storing the result of a lookup and dropping the handle. *)
Lemma settle_pinned t ks k :
  settle 0 (mkSpec t ks [Some k; None] : spec K V) = mkSpec t ks [Some k].
Proof. done. Qed.
Lemma unpin_only t ks k :
  unpin 0 (mkSpec t ks [Some k] : spec K V) = mkSpec t (ks ++ [k]) [None].
Proof.
  unfold unpin. cbn [pins lookup list_lookup set_field]. rewrite bool_decide_eq_false_2; [done|].
  by intros [=]%list_elem_of_singleton.
Qed.

Lemma at_rest_renewed k v l :
  at_rest (others k l ++ [(k, v)])
  = mkSpec (<[k := v]> (list_to_map l)) (filter (λ k', k' ≠ k) l.*1 ++ [k]) [None].
Proof. unfold at_rest. by rewrite renewed_table, fmap_app, others_keys. Qed.

Lemma classic_fetch cap k l :
  NoDup l.*1 →
  perform_all cap (compile (Fetch k)) (at_rest l)
  = (at_rest (classic_get k l).1,
     [Found (bool_decide (is_Some (classic_get k l).2)); Value (classic_get k l).2]).
Proof.
  intros Hnd. unfold classic_get. cbn [compile perform_all perform]. unfold find. cbn [at_rest table].
  rewrite entry_lookup. destruct (entry k l) as [v|] eqn:He; [|done].
  cbn [fst snd]. rewrite bool_decide_eq_true_2 by done.
  unfold pin. cbn. rewrite entry_lookup, He.
  rewrite at_rest_renewed, insert_id by (by rewrite entry_lookup).
  rewrite bool_decide_eq_false_2 by (by intros [=]%list_elem_of_singleton). done.
Qed.

Lemma trim_stop cap (t : gmap K V) ks :
  Z.of_nat (base.size t) ≤ cap → trim cap t ks = (t, ks, []).
Proof. intros Hle. destruct ks; simpl; [done|]. by rewrite (proj2 (Z.ltb_ge _ _)). Qed.

Lemma list_to_map_size l : NoDup l.*1 → base.size (list_to_map l : gmap K V) = length l.
Proof. intros Hnd. rewrite <-length_map_to_list. by rewrite map_to_list_to_map. Qed.

(** At most one entry falls out, the oldest. *)
Lemma trim_full (cap : nat) k v k0 v0 l :
  NoDup (k0 :: l.*1) → k ∉ k0 :: l.*1 → length ((k0, v0) :: l) = cap →
  trim (Z.of_nat cap) (<[k := v]> (list_to_map ((k0, v0) :: l) : gmap K V)) (k0 :: l.*1)
  = (<[k := v]> (list_to_map l), l.*1, [v0]).
Proof.
  intros Hnd [Hk0 Hkl]%not_elem_of_cons Hlen. apply NoDup_cons in Hnd as Hnd'.
  destruct Hnd' as [Hk0l Hndl]. cbn [trim].
  assert (∀ m : gmap K V, m !! k = None → base.size (<[k := v]> m) = S (base.size m)) as Hs.
  { intros m. apply map_size_insert_None. }
  rewrite Hs by (rewrite <-not_elem_of_list_to_map; csimpl; by apply not_elem_of_cons).
  rewrite list_to_map_size by done. rewrite (proj2 (Z.ltb_lt _ _)) by lia. csimpl.
  rewrite lookup_insert_ne, lookup_insert_eq by done. rewrite delete_insert_ne by done.
  rewrite delete_insert_id by (by apply not_elem_of_list_to_map).
  rewrite trim_stop; [done|].
  rewrite Hs by (by apply not_elem_of_list_to_map). rewrite list_to_map_size by done.
  simpl in Hlen. lia.
Qed.

Lemma classic_add (cap : nat) k v l :
  NoDup l.*1 → (1 ≤ cap)%nat → (length l ≤ cap)%nat →
  perform_all (Z.of_nat cap) (compile (Add k v)) (at_rest l)
  = let '(l', vs, old) := classic_put cap k v l in
    (at_rest l', Stored v :: (Deleted <$> vs) ++ (Replaced <$> option_list old)).
Proof.
  intros Hnd Hcap Hle. unfold classic_put. cbn [compile perform_all perform]. unfold offer.
  cbn [at_rest table]. rewrite entry_lookup. destruct (entry k l) as [old|] eqn:He.
  - pose proof (others_length k old l Hnd He) as Hlen.
    assert (length l ≠ 0%nat) by (destruct l; [done|simpl; lia]).
    rewrite length_app. replace (_ - cap)%nat with 0%nat by (simpl; lia). rewrite drop_0, take_0.
    rewrite at_rest_renewed. unfold pin. cbn [set_field pins order table].
    by rewrite app_nil_r.
  - assert (Hk := He). apply entry_None in Hk. rewrite others_fresh by done.
    rewrite length_app. cbn [length]. rewrite (proj2 (Z.ltb_lt 0 (Z.of_nat cap))) by lia.
    unfold pin. cbn [table order pins set_field]. cbn.
    rewrite filter_fresh by done. destruct (decide (length l = cap)) as [Heq|Hne].
    + replace (length l + 1 - cap)%nat with 1%nat by lia.
      destruct l as [|[k0 v0] l]; [simpl in Heq; lia|]. csimpl in Hk. csimpl in Hnd.
      rewrite trim_full by done. cbn [app drop take]. rewrite drop_0, take_0.
      apply not_elem_of_cons in Hk as [_ Hk].
      rewrite <-(others_fresh k l) at 3 by done. rewrite at_rest_renewed, filter_fresh by done.
      rewrite settle_pinned. by rewrite unpin_only.
    + replace (length l + 1 - cap)%nat with 0%nat by lia. rewrite drop_0, take_0.
      rewrite trim_stop.
      * rewrite <-(others_fresh k l) at 3 by done. rewrite at_rest_renewed, filter_fresh by done.
        rewrite settle_pinned. by rewrite unpin_only.
      * rewrite map_size_insert_None by (by rewrite entry_lookup).
        rewrite list_to_map_size by done. lia.
Qed.

Lemma classic_wf (cap : nat) a l :
  NoDup l.*1 → (length l ≤ cap)%nat →
  NoDup (classic cap a l).1.*1 ∧ (length (classic cap a l).1 ≤ cap)%nat.
Proof.
  intros Hnd Hle. destruct a as [k|k v]; simpl.
  - unfold classic_get. destruct (entry k l) as [v|] eqn:He; simpl; [|done].
    split; [by apply renewed_nodup|]. rewrite length_app, (others_length k v) by done. simpl.
    destruct l; [done|simpl in *; lia].
  - split; [|rewrite length_drop; lia]. rewrite fmap_drop.
    eapply sublist_NoDup; [by apply (renewed_nodup k v)|]. apply sublist_drop.
Qed.

Lemma classic_all_wf (cap : nat) as_ : ∀ l,
  NoDup l.*1 → (length l ≤ cap)%nat → NoDup (classic_all cap as_ l).1.*1.
Proof.
  induction as_ as [|a as_ IH]; intros l Hnd Hle; [done|]. simpl.
  destruct (classic_wf cap a l Hnd Hle) as [Hnd' Hle']. destruct (classic cap a l) as [l1 os1].
  specialize (IH l1 Hnd' Hle'). by destruct (classic_all cap as_ l1).
Qed.

Lemma perform_all_app cap (l1 l2 : list (op K V)) st :
  perform_all cap (l1 ++ l2) st
  = let '(st, os) := perform_all cap l1 st in
    let '(st, os') := perform_all cap l2 st in (st, os ++ os').
Proof.
  revert st. induction l1 as [|o l1 IH]; intros st; simpl.
  - by destruct (perform_all cap l2 st).
  - destruct (perform cap o st) as [st1 os1]. rewrite IH.
    destruct (perform_all cap l1 st1) as [st2 os2]. destruct (perform_all cap l2 st2) as [st3 os3].
    by rewrite app_assoc.
Qed.

Lemma classic_sim (cap : nat) as_ : ∀ l,
  NoDup l.*1 → (1 ≤ cap)%nat → (length l ≤ cap)%nat →
  perform_all (Z.of_nat cap) (as_ ≫= compile) (at_rest l)
  = (at_rest (classic_all cap as_ l).1, (classic_all cap as_ l).2).
Proof.
  induction as_ as [|a as_ IH]; intros l Hnd Hcap Hle; [done|].
  cbn [mbind list_bind classic_all]. rewrite perform_all_app.
  assert (perform_all (Z.of_nat cap) (compile a) (at_rest l)
    = (at_rest (classic cap a l).1, (classic cap a l).2)) as ->.
  { destruct a as [k|k v].
    - rewrite classic_fetch by done. simpl. by destruct (classic_get k l).
    - rewrite classic_add by done. simpl. by destruct (classic_put cap k v l) as [[? ?] ?]. }
  destruct (classic_wf cap a l Hnd Hle) as [Hnd' Hle'].
  destruct (classic cap a l) as [l1 os1]. simpl in *. rewrite IH by done.
  by destruct (classic_all cap as_ l1).
Qed.
End classic.

(** ** Properties *)

Section properties.
Context {K V : Type} `{Countable K}.
Implicit Types (c : LRUCache K V) (k : K) (v : V).

(** C34: the cache is a table with pins.  A client program with [m] handle
    variables, whatever it looks up, stores, moves and releases, runs without
    undefined behaviour, failed assertion or endless loop, and returns what the
    specification returns: lookups find the last value stored, an entry is
    never evicted while a handle keeps it (reading through the handle always
    succeeds), and [put] evicts exactly the unpinned entries that were released
    least recently, while there are too many.  [size] is the number of entries,
    and with a positive capacity it never exceeds [max cap (m + 1)]. *)
Theorem lru_refines_table cap m (prog : list (op K V))
    (Hcap : 0 ≤ cap) (Hm : Z.of_nat m + 1 < int_max) (Hprog : Forall (in_range m) prog)
    (Hlen : Z.of_nat (length prog) < two64) :
  let '(st, os) := perform_all cap prog (mkSpec ∅ [] (replicate m None)) in
  ∃ c gs, exec_all prog (make cap) (replicate m null_guard) = Some (c, gs, os)
  ∧ size c = Z.of_nat (base.size (table st))
  ∧ (∀ k, table st !! k = (n ← cache c !! k; value <$> nodes c !! n))
  ∧ (0 < cap → size c ≤ Z.max cap (Z.of_nat m + 1)).
Proof.
  pose proof (exec_all_fresh cap m prog Hcap Hm Hprog Hlen) as He.
  destruct (perform_all cap prog _) as [st os]. destruct He as (c & gs & He & _ & Ha & _ & Hb).
  exists c, gs. split; [done|]. split; [|by split; [apply Ha|]].
  by rewrite (a_count _ _ _ Ha), (a_size _ _ _ Ha).
Qed.

(** C35: every value is let go exactly once.  When the client has released all
    its handles the destructor deletes every entry still there and leaves no
    node, and the values the cache took over are, one for one, those given to
    [value_deleter] by eviction or by the destructor and those an assignment to
    an existing entry replaced (which are not given to [value_deleter]).  With
    a handle still held the destructor's assertion fails. *)
Theorem lru_values_once cap m (prog : list (op K V)) c gs os
    (Hcap : 0 ≤ cap) (Hm : Z.of_nat m + 1 < int_max) (Hprog : Forall (in_range m) prog)
    (Hlen : Z.of_nat (length prog) < two64)
    (Hrun : exec_all prog (make cap) (replicate m null_guard) = Some (c, gs, os)) :
  if bool_decide (Forall (λ g, g = null_guard) gs) then
    ∃ c' vs, destroy c = Some (c', vs) ∧ nodes c' = ∅
    ∧ omap stored os ≡ₚ omap deleted os ++ omap replaced os ++ vs
  else destroy c = None.
Proof.
  pose proof (exec_all_fresh cap m prog Hcap Hm Hprog Hlen) as He.
  pose proof (perform_all_accounts cap prog (mkSpec ∅ [] (replicate m None))) as Hacc.
  destruct (perform_all cap prog _) as [st os']. destruct He as (c' & gs' & He & _ & Ha & Hs & _).
  rewrite Hrun in He. injection He as <- <- <-.
  pose proof (destroy_agrees _ _ _ Ha Hs) as Hd. case_bool_decide; [|done].
  destruct Hd as (c' & vs & Hd & Hn & Hv & _). exists c', vs. split; [done|]. split; [done|].
  unfold accounts in Hacc. simpl in Hacc. by rewrite <-Hv.
Qed.

(** C36: without pins it is the textbook cache.  For a client that drops every
    handle at once, a cache of capacity [cap] answers any sequence of lookups
    and insertions as a list of at most [cap] entries does, in which a lookup
    or an insertion moves the entry to the back and entries fall out at the
    front; the destructor deletes the entries in that order. *)
Theorem lru_is_textbook (cap : nat) (as_ : list (access (K:=K) (V:=V)))
    (Hcap : (1 ≤ cap)%nat) (Hlen : 3 * Z.of_nat (length as_) < two64) :
  let '(l, os) := classic_all cap as_ [] in
  ∃ c c', exec_all (as_ ≫= compile) (make (Z.of_nat cap)) [null_guard] = Some (c, [null_guard], os)
  ∧ destroy c = Some (c', l.*2) ∧ nodes c' = ∅.
Proof.
  assert (Forall (in_range 1) (as_ ≫= compile) ∧ (length (as_ ≫= compile) ≤ 3 * length as_)%nat)
    as [Hr Hl].
  { clear. induction as_ as [|a as_ [IH1 IH2]]; [done|]. cbn [mbind list_bind]. rewrite length_app.
    rewrite Forall_app. destruct a; simpl in *; (split; [split; [|done]; repeat constructor|lia]). }
  pose proof (classic_sim cap as_ [] (NoDup_nil_2) Hcap ltac:(simpl; lia)) as Hsim.
  pose proof (classic_all_wf cap as_ [] (NoDup_nil_2) ltac:(simpl; lia)) as Hnd.
  destruct (classic_all cap as_ []) as [l os]. simpl in Hsim, Hnd.
  pose proof (exec_all_fresh (Z.of_nat cap) 1 (as_ ≫= compile) ltac:(lia) ltac:(done) Hr ltac:(lia)) as He.
  change (mkSpec ∅ [] (replicate 1 None)) with (at_rest (K:=K) (V:=V) []) in He.
  rewrite Hsim in He. destruct He as (c & gs & He & Hg & Ha & Hs & _).
  pose proof (a_guards _ _ _ Ha) as Hgs. apply Forall2_cons_inv_r in Hgs as (g & gs' & -> & Hgs & ->).
  apply Forall2_nil_inv_r in Hgs as ->.
  pose proof (destroy_agrees _ _ _ Ha Hs) as Hd. rewrite bool_decide_eq_true_2 in Hd by repeat constructor.
  destruct Hd as (c' & vs & Hd & Hn & _ & Hvs). exists c, c'. split; [done|]. split; [|done].
  rewrite Hd, Hvs. do 2 f_equal. simpl. clear -Hnd.
  assert (∀ l' : list (K * V), (∀ k v, (k, v) ∈ l' → (k, v) ∈ l) →
    omap (λ k, (list_to_map l : gmap K V) !! k) l'.*1 = l'.*2) as Hl; [|by apply Hl].
  induction l' as [|[k v] l' IH]; intros Hin; [done|]. csimpl.
  rewrite (elem_of_list_to_map_1 l k v) by (done || apply Hin; left).
  f_equal. apply IH. intros k' v' ?. apply Hin. by right.
Qed.
End properties.

(** ** Witnesses *)

(** Two variables, capacity two: 3 is added while 1 and 2 are held and the size
    becomes three; the next new entry evicts both entries not held then. *)
Definition demo : list (op Z Z) :=
  [Put 0 1 10; Put 1 2 20; Put 1 3 30; Get 1 2; Get 1 1; Read 1; Write 0 11; Reset_ 0; Reset_ 1;
   Get 0 3; Move 1 0; Reset_ 1; Put 0 1 12; Put 1 4 40; Reset_ 0; Reset_ 1].

Definition demo_outs : list (out Z) :=
  [Stored 10; Stored 20; Stored 30; Found true; Found true; Value (Some 10); Stored 11;
   Replaced 10; Found true; Stored 12; Replaced 11; Stored 40; Deleted 20; Deleted 30].

Lemma lru_refines_table_witness :
  ∃ c gs, exec_all demo (make 2) (replicate 2 null_guard) = Some (c, gs, demo_outs)
  ∧ size c = 2 ∧ cache c !! 1 ≠ None.
Proof.
  pose proof (lru_refines_table 2 2 demo ltac:(lia) ltac:(unfold int_max; lia)) as Ht.
  assert (Forall (in_range 2) demo) as Hr by (repeat constructor; simpl; lia).
  specialize (Ht Hr ltac:(simpl; unfold two64; lia)).
  assert ((λ x, (x.2, base.size (table x.1), table x.1 !! 1))
    (perform_all 2 demo (mkSpec ∅ [] (replicate 2 None))) = (demo_outs, 2%nat, Some 12))
    as Hv by (by vm_compute).
  destruct (perform_all 2 demo _) as [st os]. injection Hv as -> Hsize Hget.
  destruct Ht as (c & gs & He & Hs & Ht & _). exists c, gs. split; [done|]. split; [lia|].
  intros Hn. rewrite Ht, Hn in Hget. done.
Defined.

Lemma lru_values_once_witness :
  ∃ c gs, exec_all demo (make 2) (replicate 2 null_guard) = Some (c, gs, demo_outs)
  ∧ ∃ c' vs, destroy c = Some (c', vs) ∧ nodes c' = ∅
    ∧ [10; 20; 30; 11; 12; 40] ≡ₚ [20; 30] ++ [10; 11] ++ vs.
Proof.
  destruct (exec_all demo (make 2) (replicate 2 null_guard)) as [[[c gs] os]|] eqn:He;
    [|by vm_compute in He].
  pose proof (lru_values_once 2 2 demo c gs os ltac:(lia) ltac:(unfold int_max; lia)
    ltac:(repeat constructor; simpl; lia) ltac:(simpl; unfold two64; lia) He) as Ht.
  assert ((λ x, (x.1.2, x.2)) <$> exec_all demo (make 2) (replicate 2 null_guard)
    = Some (replicate 2 null_guard, demo_outs)) as Hv by (by vm_compute).
  rewrite He in Hv. injection Hv as -> ->. exists c, (replicate 2 null_guard). split; [done|].
  rewrite bool_decide_eq_true_2 in Ht by repeat constructor. exact Ht.
Defined.

Definition accesses : list (access (K:=Z) (V:=Z)) :=
  [Add 1 10; Add 2 20; Fetch 1; Add 3 30; Fetch 2; Add 1 11; Add 4 40].

Lemma lru_is_textbook_witness :
  ∃ c c', exec_all (accesses ≫= compile) (make 2) [null_guard]
    = Some (c, [null_guard],
        [Stored 10; Stored 20; Found true; Value (Some 10); Stored 30; Deleted 20; Found false;
         Value None; Stored 11; Replaced 10; Stored 40; Deleted 30])
  ∧ destroy c = Some (c', [11; 40]) ∧ nodes c' = ∅.
Proof.
  pose proof (lru_is_textbook 2 accesses ltac:(lia) ltac:(simpl; unfold two64; lia)) as Ht.
  assert (classic_all 2 accesses [] = ([(1, 11); (4, 40)],
    [Stored 10; Stored 20; Found true; Value (Some 10); Stored 30; Deleted 20; Found false;
     Value None; Stored 11; Replaced 10; Stored 40; Deleted 30])) as Hv by (by vm_compute).
  rewrite Hv in Ht. exact Ht.
Defined.
