(* ===== verification/MemPool.v ===== *)
(** * memory_pool: fixed-size blocks threaded through one page

    [mempool_t] (memory_pool/main.c): a page from the C library, cut into
    blocks; a free block holds in its first bytes the pointer to the next one.
    The memory is the bytes of the page, by address, and pointers are stored in
    it byte by byte, so that a client may write into the blocks it holds.
    [None] is undefined behaviour: an access outside the page, or a division by
    zero. *)

From S2P Require Import Prelude.
Open Scope Z_scope.

(** ** Pointers in memory *)

Abbreviation memory := (gmap Z Z).
Implicit Types (m : memory) (a v : Z).

(** Little-endian. *)
Fixpoint encode (n : nat) v : list Z :=
  match n with
  | O => []
  | S n => v mod 256 :: encode n (v / 256)
  end.
Definition decode (l : list Z) : Z := foldr (λ b v, b + 256 * v) 0 l.

Fixpoint store_bytes m a (l : list Z) : option memory :=
  match l with
  | [] => Some m
  | b :: l => m !! a ≫= λ _, store_bytes (<[a := b]> m) (a + 1) l
  end.
Fixpoint load_bytes m a (n : nat) : option (list Z) :=
  match n with
  | O => Some []
  | S n => b ← m !! a; l ← load_bytes m (a + 1) n; Some (b :: l)
  end.

(** A pointer stored at an address, and read from one. *)
Definition store_ptr m a v : option memory := store_bytes m a (encode 8 v).
Definition load_ptr m a : option Z := decode <$> load_bytes m a 8.

(** ** The pool *)

Definition MEM_PAGE_SIZE : Z := 4096.

Record mempool_t := mkPool {
  block_size : Z;               (* int *)
  free_count : Z;               (* int *)
  mem : Z;
  ptr : Z;
}.
#[export] Instance eta_mempool_t : Eta mempool_t := λ p,
  mkPool (block_size p) (free_count p) (mem p) (ptr p).

(** Conversion of a [size_t] to [int]. *)
Definition to_int (z : Z) : Z :=
  let w := z mod 4294967296 in if w <? 2147483648 then w else w - 4294967296.

(** The loop of [mempool_init]; the address it ends at. *)
Fixpoint init_loop (count : nat) m a (block_size : Z) : option (memory * Z) :=
  match count with
  | O => Some (m, a)
  | S count => m ← store_ptr m a (a + block_size); init_loop count m (a + block_size) block_size
  end.

(** [page] is the answer of [malloc(MEM_PAGE_SIZE)], 0 for [NULL]; [m] are the
    bytes it points to.  A pool that is [None] is a null pointer. *)
Definition mempool_init m (page : Z) (mp : option mempool_t) (block_size : Z)
    : option (memory * option mempool_t * Z) :=
  match mp with
  | None => Some (m, None, -1)
  | Some _ =>
      if block_size =? 0 then None
      else
        let mp := mkPool (to_int block_size) (to_int (MEM_PAGE_SIZE / block_size)) page 0 in
        if page =? 0 then Some (m, Some mp, -1)
        else
          let mp := mp <| ptr := mem mp |> in
          '(m, a) ← init_loop (Z.to_nat (free_count mp)) m (ptr mp) block_size;
          m ← store_ptr m a 0;
          Some (m, Some mp, 0)
  end.

(** The block, 0 for [NULL].  [mp->block_size < size] compares as [size_t]. *)
Definition malloc_ m (mp : option mempool_t) (size : Z) : option (option mempool_t * Z) :=
  match mp with
  | None => Some (mp, 0)
  | Some p =>
      if (u64 (block_size p) <? size) || (free_count p <=? 0) then Some (mp, 0)
      else
        let a := ptr p in
        next ← load_ptr m a;
        Some (Some (p <| ptr := next |> <| free_count ::= λ n, n - 1 |>), a)
  end.

Definition free_ m (mp : option mempool_t) a : option (memory * option mempool_t) :=
  match mp with
  | None => Some (m, mp)
  | Some p =>
      m ← store_ptr m a (ptr p);
      Some (m, Some (p <| ptr := a |> <| free_count ::= λ n, n + 1 |>))
  end.

(** ** Client programs *)

Inductive op :=
  | Malloc (size : Z)
  | Free a
  | Store a (b : Z).            (* the client writes a byte *)

Definition exec (o : op) m (mp : option mempool_t) : option (memory * option mempool_t * list Z) :=
  match o with
  | Malloc size => '(mp, a) ← malloc_ m mp size; Some (m, mp, [a])
  | Free a => '(m, mp) ← free_ m mp a; Some (m, mp, [])
  | Store a b => m !! a ≫= λ _, Some (<[a := b]> m, mp, [])
  end.

Fixpoint exec_all (l : list op) m (mp : option mempool_t)
    : option (memory * option mempool_t * list Z) :=
  match l with
  | [] => Some (m, mp, [])
  | o :: l =>
      '(m, mp, r) ← exec o m mp; '(m, mp, r') ← exec_all l m mp; Some (m, mp, r ++ r')
  end.

(** [main], which frees what it was given ([p1] to [p5] in order of
    allocation, blocks of 32 bytes from [page]). *)
Definition main (page : Z) : list op :=
  [Malloc 5; Malloc 10; Malloc 15; Malloc 20; Free page; Free (page + 32); Malloc 25;
   Free (page + 64); Free (page + 96)].

(** ** Specification: a stack of free blocks *)

(** [written]: the bytes that the client has written into the blocks it holds. *)
Record blocks := mkBlocks {
  free_list : list Z;
  held : list Z;
  written : gmap Z Z;
}.

(** [None]: the client breaks the rules (it frees or writes to what it does
    not hold). *)
Definition spec (bs : Z) (o : op) (s : blocks) : option (blocks * list Z) :=
  match o with
  | Malloc size =>
      match free_list s with
      | a :: l =>
          if bs <? size then Some (s, [0])
          else Some (mkBlocks l (a :: held s) (written s), [a])
      | [] => Some (s, [0])
      end
  | Free a =>
      if bool_decide (a ∈ held s)
      then Some (mkBlocks (a :: free_list s) (filter (λ b, b ≠ a) (held s))
                   (filter (λ e, ¬ a ≤ e.1 < a + bs) (written s)), [])
      else None
  | Store a b =>
      if bool_decide (Exists (λ p, p ≤ a < p + bs) (held s)) && (0 <=? b) && (b <? 256)
      then Some (mkBlocks (free_list s) (held s) (<[a := b]> (written s)), []) else None
  end.

Fixpoint spec_all (bs : Z) (l : list op) (s : blocks) : option (blocks * list Z) :=
  match l with
  | [] => Some (s, [])
  | o :: l => '(s, r) ← spec bs o s; '(s, r') ← spec_all bs l s; Some (s, r ++ r')
  end.

(** The addresses of [n] blocks of a page, in order. *)
Definition cut (page bs : Z) (n : nat) : list Z := (λ i, page + Z.of_nat i * bs) <$> seq 0 n.

(** ** Stores and loads *)

Lemma length_encode n v : length (encode n v) = n.
Proof. revert v. induction n as [|n IH]; intros v; simpl; [done|]. by rewrite IH. Qed.

Lemma decode_encode n v : decode (encode n v) = v mod 256 ^ Z.of_nat n.
Proof.
  revert v. induction n as [|n IH]; intros v; [simpl; by rewrite Z.mod_1_r|].
  cbn [encode decode foldr]. fold (decode (encode n (v / 256))). rewrite IH.
  rewrite Nat2Z.inj_succ, Z.pow_succ_r by lia. by rewrite Z.rem_mul_r by lia.
Qed.

Lemma decode_pointer v : decode (encode 8 v) = u64 v.
Proof. by rewrite decode_encode. Qed.

(** [page] is the bytes from [lo] up to [hi]. *)
Definition page_of m (lo hi : Z) : Prop := ∀ a, is_Some (m !! a) ↔ lo ≤ a < hi.

Lemma page_insert m lo hi a b : page_of m lo hi → is_Some (m !! a) → page_of (<[a := b]> m) lo hi.
Proof.
  intros Hm Ha x. rewrite lookup_insert_is_Some, <-(Hm x).
  destruct (decide (a = x)) as [->|]; tauto.
Qed.

Lemma store_bytes_ok m lo hi a l :
  page_of m lo hi → lo ≤ a → a + Z.of_nat (length l) ≤ hi →
  ∃ m', store_bytes m a l = Some m' ∧ page_of m' lo hi
    ∧ (∀ x, m' !! x = if bool_decide (a ≤ x < a + Z.of_nat (length l))
                      then l !! Z.to_nat (x - a) else m !! x).
Proof.
  revert m a. induction l as [|b l IH]; intros m a Hm Ha Hle; simpl in *.
  { exists m. split; [done|]. split; [done|]. intros x. rewrite bool_decide_eq_false_2; [done|lia]. }
  assert (is_Some (m !! a)) as Hs by (apply Hm; lia). pose proof Hs as [b0 Hb0]. rewrite Hb0. simpl.
  destruct (IH (<[a := b]> m) (a + 1)) as (m' & -> & Hm' & Hx); [by apply page_insert|lia|lia|].
  exists m'. split; [done|]. split; [done|]. intros x. rewrite Hx.
  repeat case_bool_decide; try lia.
  - replace (Z.to_nat (x - a)) with (S (Z.to_nat (x - (a + 1)))) by lia. done.
  - assert (x = a) as -> by lia. rewrite lookup_insert_eq, Z.sub_diag. done.
  - rewrite lookup_insert_ne by lia. done.
Qed.

Lemma store_bytes_fails m lo hi a l :
  page_of m lo hi → lo ≤ a → l ≠ [] → hi < a + Z.of_nat (length l) → store_bytes m a l = None.
Proof.
  revert m a. induction l as [|b l IH]; intros m a Hm Ha Hl Hlt; [done|]. simpl in *.
  destruct (m !! a) as [b0|] eqn:Hb; [|done]. simpl.
  assert (lo ≤ a < hi) as Hr by (apply Hm; eauto).
  destruct l as [|b' l]; [simpl in Hlt; lia|]. apply IH; [|lia|done|lia].
  apply page_insert; eauto.
Qed.

Lemma load_bytes_Some m a l :
  (∀ i b, l !! i = Some b → m !! (a + Z.of_nat i) = Some b) → load_bytes m a (length l) = Some l.
Proof.
  revert a. induction l as [|b l IH]; intros a Hl; [done|]. simpl.
  assert (m !! a = Some b) as -> by (rewrite <-(Hl 0%nat b) by done; f_equal; simpl; lia). simpl.
  rewrite IH; [done|]. intros i b' Hi. specialize (Hl (S i) b' Hi). rewrite <-Hl. f_equal. lia.
Qed.

Lemma load_bytes_ext m m' a n :
  (∀ x, a ≤ x < a + Z.of_nat n → m' !! x = m !! x) → load_bytes m' a n = load_bytes m a n.
Proof.
  revert a. induction n as [|n IH]; intros a Hx; [done|]. simpl.
  rewrite Hx by lia. rewrite IH; [done|]. intros x ?. apply Hx. lia.
Qed.

Lemma load_ptr_ext m m' a : (∀ x, a ≤ x < a + 8 → m' !! x = m !! x) → load_ptr m' a = load_ptr m a.
Proof. intros Hx. unfold load_ptr. by rewrite (load_bytes_ext m m'). Qed.

(** What storing a pointer does, in one statement. *)
Lemma store_ptr_ok m lo hi a v :
  page_of m lo hi → lo ≤ a → a + 8 ≤ hi →
  ∃ m', store_ptr m a v = Some m' ∧ page_of m' lo hi
    ∧ load_ptr m' a = Some (u64 v)
    ∧ (∀ x, ¬ a ≤ x < a + 8 → m' !! x = m !! x).
Proof.
  intros Hm Ha Hle. pose proof (length_encode 8 v) as Hlen.
  destruct (store_bytes_ok m lo hi a (encode 8 v)) as (m' & Hs & Hm' & Hx); [done|done|lia|].
  exists m'. split; [done|]. split; [done|]. rewrite Hlen in Hx. split.
  - unfold load_ptr. rewrite <-Hlen, load_bytes_Some; [exact (f_equal Some (decode_pointer v))|].
    intros i b Hi. apply lookup_lt_Some in Hi as Hlt. rewrite Hx, bool_decide_eq_true_2 by lia.
    by replace (Z.to_nat (a + Z.of_nat i - a)) with i by lia.
  - intros x Hn. rewrite Hx, bool_decide_eq_false_2; [done|lia].
Qed.

Lemma store_ptr_fails m lo hi a v :
  page_of m lo hi → lo ≤ a → hi < a + 8 → store_ptr m a v = None.
Proof.
  intros Hm Ha Hlt. pose proof (length_encode 8 v) as Hlen.
  eapply store_bytes_fails; [done|done|done|lia].
Qed.

(** ** The free list in memory *)

(** From address [a] the pointers lead through the blocks of [l]. *)
Fixpoint chain m a (l : list Z) : Prop :=
  match l with
  | [] => True
  | p :: l => a = p ∧ ∃ next, load_ptr m p = Some next ∧ chain m next l
  end.

Lemma chain_ext m m' a l :
  (∀ p x, p ∈ l → p ≤ x < p + 8 → m' !! x = m !! x) → chain m a l → chain m' a l.
Proof.
  revert a. induction l as [|p l IH]; intros a Hx; simpl; [done|].
  intros (-> & next & Hp & Hl). split; [done|]. exists next. split.
  - rewrite (load_ptr_ext m m'); [done|]. intros x ?. apply (Hx p); [by left|done].
  - apply IH; [|done]. intros q x ?. apply Hx. by right.
Qed.

Lemma cut_S page bs n : cut page bs (S n) = page :: cut (page + bs) bs n.
Proof.
  unfold cut. simpl. f_equal; [lia|]. rewrite <-fmap_S_seq, <-list_fmap_compose.
  apply list_fmap_ext. intros _ i _. simpl. lia.
Qed.

Lemma elem_of_cut page bs n p : p ∈ cut page bs n ↔ ∃ i, (i < n)%nat ∧ p = page + Z.of_nat i * bs.
Proof.
  unfold cut. rewrite list_elem_of_fmap. split.
  - intros (i & -> & Hi%elem_of_seq). exists i. split; [lia|done].
  - intros (i & Hi & ->). exists i. split; [done|]. apply elem_of_seq. lia.
Qed.

Lemma length_cut page bs n : length (cut page bs n) = n.
Proof. unfold cut. by rewrite length_fmap, length_seq. Qed.

Lemma cut_nodup page bs n : 0 < bs → NoDup (cut page bs n).
Proof. intros Hbs. apply NoDup_fmap_2; [intros i j ?; nia|apply NoDup_seq]. Qed.

(** Different blocks of one page do not overlap. *)
Lemma cut_apart page bs n p q :
  0 < bs → p ∈ cut page bs n → q ∈ cut page bs n → p ≠ q → p + bs ≤ q ∨ q + bs ≤ p.
Proof.
  intros Hbs (i & _ & ->)%elem_of_cut (j & _ & ->)%elem_of_cut Hne.
  destruct (Nat.lt_trichotomy i j) as [?|[->|?]]; [left; nia|done|right; nia].
Qed.

Lemma init_loop_ok lo hi bs n : ∀ m a,
  8 ≤ bs → page_of m lo hi → lo ≤ a → a + Z.of_nat n * bs ≤ hi → 0 ≤ lo → hi < two64 →
  ∃ m', init_loop n m a bs = Some (m', a + Z.of_nat n * bs) ∧ page_of m' lo hi
    ∧ chain m' a (cut a bs n) ∧ (∀ x, x < a → m' !! x = m !! x).
Proof.
  induction n as [|n IH]; intros m a Hbs Hm Ha Hle Hlo Hhi.
  { exists m. split; [simpl; do 2 f_equal; lia|]. split_and!; done. }
  destruct (store_ptr_ok m lo hi a (a + bs)) as (m1 & Hs & Hm1 & Hload & Hx); [done|lia|nia|].
  destruct (IH m1 (a + bs)) as (m2 & Hl & Hm2 & Hc & Hx2); [done|done|lia|nia|done|done|].
  exists m2. cbn [init_loop]. rewrite Hs. cbn [mbind option_bind]. rewrite Hl. split; [do 2 f_equal; lia|].
  split; [done|]. split.
  - rewrite cut_S. split; [done|]. exists (a + bs). split; [|done].
    rewrite (load_ptr_ext m1 m2) by (intros x ?; apply Hx2; lia).
    rewrite Hload, u64_small; [done|nia].
  - intros x ?. rewrite Hx2 by lia. apply Hx. lia.
Qed.

(** An inner store that runs over the end of the page. *)
Lemma init_loop_page lo hi bs n : ∀ m a m' a',
  0 < bs → page_of m lo hi → lo ≤ a → init_loop n m a bs = Some (m', a') →
  page_of m' lo hi ∧ a' = a + Z.of_nat n * bs.
Proof.
  induction n as [|n IH]; intros m a m' a' Hbs Hm Ha; cbn [init_loop].
  { intros [= <- <-]. split; [done|lia]. }
  destruct (Z.le_gt_cases (a + 8) hi).
  - destruct (store_ptr_ok m lo hi a (a + bs)) as (m1 & -> & Hm1 & _); [done|done|done|]. simpl.
    intros Hl. destruct (IH m1 (a + bs) m' a' Hbs Hm1 ltac:(lia) Hl) as [? ->]. split; [done|nia].
  - rewrite (store_ptr_fails m lo hi) by (done || lia). done.
Qed.

Lemma init_loop_total lo hi bs n : ∀ m a,
  0 < bs → page_of m lo hi → lo ≤ a → a + Z.of_nat n * bs + 8 ≤ hi →
  is_Some (init_loop n m a bs).
Proof.
  induction n as [|n IH]; intros m a Hbs Hm Ha Hle; cbn [init_loop]; [by eexists|].
  destruct (store_ptr_ok m lo hi a (a + bs)) as (m1 & -> & Hm1 & _); [done|done|nia|].
  cbn [mbind option_bind]. apply IH; [done|done|lia|nia].
Qed.

Lemma elem_of_Permutation_filter (a : Z) (l : list Z) :
  a ∈ l → NoDup l → l ≡ₚ a :: filter (λ b, b ≠ a) l.
Proof.
  intros Ha Hnd. apply NoDup_Permutation; [done|constructor; [|by apply NoDup_filter]|].
  - rewrite list_elem_of_filter. tauto.
  - intros x. rewrite elem_of_cons, list_elem_of_filter. destruct (decide (x = a)) as [->|]; tauto.
Qed.

(** ** The pool refines the stack *)

Section pool.
Context (lo hi bs : Z) (n : nat).
Hypothesis (Hbs : 8 ≤ bs < two64) (Hlo : 0 < lo) (Hhi : hi < two64).
Hypothesis (Hfit : lo + Z.of_nat n * bs ≤ hi).

Record pool_ok m (p : mempool_t) (s : blocks) : Prop := {
  ok_page : page_of m lo hi;
  ok_size : block_size p = bs;
  ok_count : free_count p = Z.of_nat (length (free_list s));
  ok_chain : chain m (ptr p) (free_list s);
  ok_blocks : free_list s ++ held s ≡ₚ cut lo bs n;
  ok_written x b : written s !! x = Some b →
    m !! x = Some b ∧ ∃ q, q ∈ held s ∧ q ≤ x < q + bs;
}.

Lemma ok_nodup m p s : pool_ok m p s → NoDup (free_list s ++ held s).
Proof. intros Hok. rewrite (ok_blocks _ _ _ Hok). apply cut_nodup. lia. Qed.

Lemma ok_block m p s a : pool_ok m p s → a ∈ free_list s ++ held s → a ∈ cut lo bs n.
Proof. intros Hok. by rewrite (ok_blocks _ _ _ Hok). Qed.

Lemma block_range a : a ∈ cut lo bs n → lo ≤ a ∧ a + bs ≤ hi.
Proof. intros (i & Hi & ->)%elem_of_cut. nia. Qed.

(** What a client holds does not overlap a free block. *)
Lemma ok_apart m p s a b :
  pool_ok m p s → a ∈ held s → b ∈ free_list s → a + bs ≤ b ∨ b + bs ≤ a.
Proof.
  intros Hok Ha Hb. apply (cut_apart lo bs n); [lia|eapply ok_block; [done|apply elem_of_app; tauto]..|].
  intros ->. apply ok_nodup, NoDup_app in Hok as (_ & Hd & _). by apply (Hd b).
Qed.

(** The bytes that one operation leaves alone. *)
Definition untouched (x : Z) (o : op) : Prop :=
  match o with
  | Malloc _ => True
  | Free a => ¬ a ≤ x < a + 8
  | Store a _ => x ≠ a
  end.

(** Blocks of the page are apart, so a byte is in one of them. *)
Lemma one_block a b x :
  a ∈ cut lo bs n → b ∈ cut lo bs n → a ≤ x < a + bs → b ≤ x < b + bs → a = b.
Proof.
  intros Ha Hb Hxa Hxb. destruct (decide (a = b)) as [|Hne]; [done|].
  pose proof (cut_apart lo bs n a b ltac:(lia) Ha Hb Hne). lia.
Qed.

Lemma held_block m p s a : pool_ok m p s → a ∈ held s → a ∈ cut lo bs n.
Proof. intros Hok Ha. eapply ok_block; [done|]. apply elem_of_app. by right. Qed.

Lemma malloc_ok m p s size s' r :
  pool_ok m p s → spec bs (Malloc size) s = Some (s', r) →
  ∃ p', exec (Malloc size) m (Some p) = Some (m, Some p', r) ∧ pool_ok m p' s'.
Proof.
  intros Hok Hs. pose proof (ok_count _ _ _ Hok) as Hc. pose proof (ok_chain _ _ _ Hok) as Hch.
  simpl in *. rewrite (ok_size _ _ _ Hok), u64_small by lia.
  destruct (free_list s) as [|a l] eqn:Hf; simpl in *.
  { rewrite Hc, orb_true_r. simplify_eq. by exists p. }
  rewrite (proj2 (Z.leb_gt (free_count p) 0)) by lia. rewrite orb_false_r.
  destruct (bs <? size); simplify_eq; [by exists p|].
  destruct Hch as (Ha & next & Hload & Hch). rewrite Ha, Hload. simpl. eexists. split; [done|].
  split; simpl; try apply Hok; [lia|done| |].
  - rewrite <-(ok_blocks _ _ _ Hok), Hf. symmetry. apply Permutation_middle.
  - intros x b Hx. destruct (ok_written _ _ _ Hok _ _ Hx) as (? & q & ? & ?). split; [done|].
    exists q. split; [by right|done].
Qed.

Lemma free_ok m p s a s' r :
  pool_ok m p s → spec bs (Free a) s = Some (s', r) →
  ∃ m' p', exec (Free a) m (Some p) = Some (m', Some p', r) ∧ pool_ok m' p' s'
    ∧ ∀ x, untouched x (Free a) → m' !! x = m !! x.
Proof.
  intros Hok Hs. simpl in *. case_bool_decide as Ha; simplify_eq.
  destruct (block_range a) as [Hla Hha]; [eapply ok_block; [done|apply elem_of_app; tauto]|].
  destruct (store_ptr_ok m lo hi a (ptr p)) as (m' & -> & Hm' & Hload & Hx); [apply Hok|lia|lia|].
  cbn [mbind option_bind]. do 2 eexists. split; [done|]. split; [|exact Hx].
  split; cbn; [done|apply Hok|rewrite (ok_count _ _ _ Hok); lia| | |].
  - split; [done|]. pose proof (ok_chain _ _ _ Hok) as Hch.
    assert (chain m' (ptr p) (free_list s)) as Hch'.
    { eapply chain_ext; [|done]. intros q x Hq ?. apply Hx. pose proof (ok_apart _ _ _ _ _ Hok Ha Hq). lia. }
    destruct (free_list s) as [|q l] eqn:Hf.
    + by eexists.
    + exists (ptr p). split; [|done]. destruct Hch as [Hp _].
      destruct (block_range q) as [? ?]; [eapply ok_block; [done|rewrite Hf; by left]|].
      rewrite u64_small in Hload by lia. exact Hload.
  - rewrite <-(ok_blocks _ _ _ Hok). apply ok_nodup, NoDup_app in Hok as (_ & _ & Hnd).
    rewrite (elem_of_Permutation_filter a (held s)) at 2 by done. simpl. apply Permutation_middle.
  - intros x b [Hw Hn]%map_lookup_filter_Some. simpl in Hn.
    destruct (ok_written _ _ _ Hok _ _ Hw) as (Hm & q & Hq & Hr).
    split; [rewrite Hx; [done|simpl; lia]|]. exists q. split; [|done].
    apply list_elem_of_filter. split; [|done]. by intros ->.
Qed.

Lemma store_ok m p s a b s' r :
  pool_ok m p s → spec bs (Store a b) s = Some (s', r) →
  ∃ m', exec (Store a b) m (Some p) = Some (m', Some p, r) ∧ pool_ok m' p s'
    ∧ ∀ x, untouched x (Store a b) → m' !! x = m !! x.
Proof.
  intros Hok Hs. simpl in *.
  case_bool_decide as Ha; [|done]. destruct (_ && _); simplify_eq/=.
  apply list.Exists_exists in Ha as (q & Hq & Hr).
  destruct (block_range q) as [? ?]; [eapply ok_block; [done|apply elem_of_app; tauto]|].
  destruct (proj2 (ok_page _ _ _ Hok a) ltac:(lia)) as [b0 Hb0].
  rewrite Hb0. cbn [mbind option_bind]. eexists. split; [done|].
  split; [|intros x Hx; by apply lookup_insert_ne].
  split; try apply Hok; [apply page_insert; [apply Hok|by eexists]| |].
  - eapply chain_ext; [|apply Hok]. intros q' x Hq' ?. apply lookup_insert_ne.
    pose proof (ok_apart _ _ _ _ _ Hok Hq Hq'). lia.
  - cbn. intros x c [[<- <-]|[Hne Hx]]%lookup_insert_Some.
    + rewrite lookup_insert_eq. eauto.
    + rewrite lookup_insert_ne by done. by apply (ok_written _ _ _ Hok).
Qed.

Lemma exec_ok m p s o s' r :
  pool_ok m p s → spec bs o s = Some (s', r) →
  ∃ m' p', exec o m (Some p) = Some (m', Some p', r) ∧ pool_ok m' p' s'
    ∧ ∀ x, untouched x o → m' !! x = m !! x.
Proof.
  intros Hok Hs. destruct o as [size|a|a b].
  - destruct (malloc_ok _ _ _ _ _ _ Hok Hs) as (p' & ? & ?). eauto 10.
  - by apply (free_ok m p s).
  - destruct (store_ok _ _ _ _ _ _ _ Hok Hs) as (m' & ? & ? & ?). eauto 10.
Qed.

Lemma exec_all_ok l : ∀ m p s s' r,
  pool_ok m p s → spec_all bs l s = Some (s', r) →
  ∃ m' p', exec_all l m (Some p) = Some (m', Some p', r) ∧ pool_ok m' p' s'.
Proof.
  induction l as [|o l IH]; intros m p s s' r Hok Hs; cbn [spec_all exec_all] in *.
  { simplify_eq. by exists m, p. }
  destruct (spec bs o s) as [[s1 r1]|] eqn:Ho; simplify_eq/=.
  destruct (spec_all bs l s1) as [[s2 r2]|] eqn:Hl; simplify_eq/=.
  destruct (exec_ok _ _ _ _ _ _ Hok Ho) as (m1 & p1 & -> & Hok1 & _).
  destruct (IH _ _ _ _ _ Hok1 Hl) as (m2 & p2 & He & Hok2). cbn [mbind option_bind].
  rewrite He. by exists m2, p2.
Qed.

Lemma spec_all_app l1 l2 s s' r :
  spec_all bs (l1 ++ l2) s = Some (s', r) →
  ∃ s1 r1 r2, spec_all bs l1 s = Some (s1, r1) ∧ spec_all bs l2 s1 = Some (s', r2).
Proof.
  revert s r. induction l1 as [|o l1 IH]; intros s r; simpl; [eauto|].
  destruct (spec bs o s) as [[s2 r2]|]; [|done]. simpl.
  destruct (spec_all bs (l1 ++ l2) s2) as [[s3 r3]|] eqn:Hl; [|done]. simpl. intros [= <- <-].
  destruct (IH _ _ Hl) as (s1 & r1 & r4 & -> & H2). simpl. eauto.
Qed.

(** A call in the middle of a program: the bytes of a held block stay, unless
    the call frees that block or writes that byte. *)
Lemma call_keeps m p s l1 o l2 s' r :
  pool_ok m p s → spec_all bs (l1 ++ o :: l2) s = Some (s', r) →
  ∃ m1 p1 s1 r1 m2 p2 r2, spec_all bs l1 s = Some (s1, r1)
    ∧ exec_all l1 m (Some p) = Some (m1, Some p1, r1)
    ∧ exec o m1 (Some p1) = Some (m2, Some p2, r2)
    ∧ ∀ q x, q ∈ held s1 → q ≤ x < q + bs → o ≠ Free q → (∀ b, o ≠ Store x b) →
        m2 !! x = m1 !! x.
Proof.
  intros Hok (s1 & r1 & r2 & H1 & H2)%spec_all_app.
  destruct (exec_all_ok _ _ _ _ _ _ Hok H1) as (m1 & p1 & He1 & Hok1). simpl in H2.
  destruct (spec bs o s1) as [[s2 r3]|] eqn:Ho; [|done].
  destruct (exec_ok _ _ _ _ _ _ Hok1 Ho) as (m2 & p2 & He2 & _ & Hx).
  exists m1, p1, s1, r1, m2, p2, r3. split_and!; [done..|]. intros q x Hq Hr Hf Hw.
  apply Hx. destruct o as [size|a|a b]; simpl; [done| |].
  - intros Ha. simpl in Ho. case_bool_decide as Hin; [|done]. apply Hf. f_equal.
    eapply (one_block a q x); [by eapply held_block|by eapply held_block|lia|done].
  - intros ->. by destruct (Hw b).
Qed.
End pool.

(** ** Initialisation *)

(** Without room for the terminator [mempool_init] leaves the page; with it, the
    blocks are on the free list in order. *)
Lemma init_spec m page usable bs mp
    (Hpage : page_of m page (page + usable)) (Hpos : 0 < page) (Htop : page + usable < two64)
    (Husable : MEM_PAGE_SIZE ≤ usable) (Hbs : 0 < bs < 2147483648) :
  let n := MEM_PAGE_SIZE / bs in
  match mempool_init m page (Some mp) bs with
  | None => usable - MEM_PAGE_SIZE + MEM_PAGE_SIZE mod bs < 8
  | Some (m', mp', rc) =>
      8 ≤ usable - MEM_PAGE_SIZE + MEM_PAGE_SIZE mod bs
      ∧ rc = 0 ∧ mp' = Some (mkPool bs n page page) ∧ page_of m' page (page + usable)
      ∧ (8 ≤ bs → chain m' page (cut page bs (Z.to_nat n)))
  end.
Proof.
  cbn zeta. unfold mempool_init.
  assert (0 ≤ MEM_PAGE_SIZE / bs ≤ MEM_PAGE_SIZE) as Hn.
  { split; [apply Z.div_pos; unfold MEM_PAGE_SIZE; lia|apply Z.div_le_upper_bound; unfold MEM_PAGE_SIZE; lia]. }
  pose proof (Z.div_mod MEM_PAGE_SIZE bs ltac:(lia)) as Hdm.
  assert (∀ z, 0 ≤ z < 2147483648 → to_int z = z) as Hint.
  { intros z Hz. unfold to_int. rewrite Z.mod_small by lia. by rewrite (proj2 (Z.ltb_lt _ _)) by lia. }
  rewrite (proj2 (Z.eqb_neq bs 0)), (proj2 (Z.eqb_neq page 0)) by lia.
  rewrite !Hint by (unfold MEM_PAGE_SIZE in *; lia). cbn [free_count ptr mem block_size].
  set (n := MEM_PAGE_SIZE / bs) in *.
  assert (Z.of_nat (Z.to_nat n) * bs = MEM_PAGE_SIZE - MEM_PAGE_SIZE mod bs) as Hcut
    by (rewrite Z2Nat.id by lia; lia).
  cbn -[Z.to_nat store_ptr init_loop Z.modulo MEM_PAGE_SIZE].
  destruct (init_loop (Z.to_nat n) m page bs) as [[m1 a]|] eqn:Hl; cbn [mbind option_bind].
  2:{ destruct (Z.lt_ge_cases (usable - MEM_PAGE_SIZE + MEM_PAGE_SIZE mod bs) 8); [done|].
      destruct (init_loop_total page (page + usable) bs (Z.to_nat n) m page) as [? Ht];
        [lia|done|lia|lia|congruence]. }
  destruct (init_loop_page _ _ _ _ _ _ _ _ (proj1 Hbs) Hpage (Z.le_refl _) Hl) as [Hm1 ->].
  destruct (Z.lt_ge_cases (usable - MEM_PAGE_SIZE + MEM_PAGE_SIZE mod bs) 8) as [Hlt|Hge].
  { by rewrite (store_ptr_fails _ _ _ _ _ Hm1) by lia. }
  destruct (store_ptr_ok m1 page (page + usable) (page + Z.of_nat (Z.to_nat n) * bs) 0)
    as (m2 & -> & Hm2 & _ & Hx); [done|nia|lia|]. cbn [mbind option_bind].
  split; [done|]. split; [done|]. split; [done|]. split; [done|]. intros H8.
  destruct (init_loop_ok page (page + usable) bs (Z.to_nat n) m page)
    as (m' & Hl' & _ & Hch & _); [done|done|lia|lia|lia|done|].
  rewrite Hl in Hl'. injection Hl' as <-.
  eapply chain_ext; [|done]. intros q x (i & Hi & ->)%elem_of_cut ?. apply Hx. nia.
Qed.

(** The pool that a client starts with. *)
Lemma init_pool_ok m page usable bs mp :
  page_of m page (page + usable) → 0 < page → page + usable < two64 → MEM_PAGE_SIZE ≤ usable →
  8 ≤ bs < 2147483648 → 8 ≤ usable - MEM_PAGE_SIZE + MEM_PAGE_SIZE mod bs →
  let n := Z.to_nat (MEM_PAGE_SIZE / bs) in
  ∃ m0, mempool_init m page (Some mp) bs = Some (m0, Some (mkPool bs (MEM_PAGE_SIZE / bs) page page), 0)
  ∧ pool_ok page (page + usable) bs n m0 (mkPool bs (MEM_PAGE_SIZE / bs) page page)
      (mkBlocks (cut page bs n) [] ∅)
  ∧ page + Z.of_nat n * bs ≤ page + usable.
Proof.
  intros Hpage Hpos Htop Husable Hbs Hroom n.
  pose proof (init_spec m page usable bs mp Hpage Hpos Htop Husable ltac:(lia)) as Hi.
  cbn zeta in Hi. fold n in Hi.
  destruct (mempool_init m page (Some mp) bs) as [[[m0 mp0] rc]|]; [|lia].
  destruct Hi as (_ & -> & -> & Hm0 & Hch). specialize (Hch ltac:(lia)).
  assert (Z.of_nat n = MEM_PAGE_SIZE / bs) as Hn.
  { unfold n. rewrite Z2Nat.id; [done|]. apply Z.div_pos; unfold MEM_PAGE_SIZE; lia. }
  pose proof (Z.div_mod MEM_PAGE_SIZE bs ltac:(lia)) as Hdm.
  pose proof (Z.mod_pos_bound MEM_PAGE_SIZE bs ltac:(lia)).
  exists m0. split; [done|]. split; [|nia].
  split; cbn; [done|done|by rewrite length_cut|done|by rewrite app_nil_r|].
  intros x b. by rewrite lookup_empty.
Qed.

(** ** Properties *)


(** C37: the pool is a stack of blocks.  The hypotheses: blocks of at least 8
    bytes, on a page with room for one pointer after the last of them (which
    the 32-byte pool of [main] on exactly 4096 bytes has not,
    [mempool_main_overflows]), and a client that frees and writes only what it
    holds.  Then every call runs to its end inside the page and answers what the
    specification says: [malloc_] answers null exactly when the size is too
    large or no block is free, otherwise the block freed last; the blocks held
    and free are always the [4096 / bs] blocks of the page, each exactly once,
    so no two held blocks overlap.  A held block is the client's: every byte it
    has written there since it got the block has the value last written, and no
    call, at any point of the program, changes a byte of a held block unless it
    frees that block or writes that byte. *)
Theorem mempool_refines_stack m page usable bs mp prog s r
    (Hpage : page_of m page (page + usable)) (Hpos : 0 < page) (Htop : page + usable < two64)
    (Husable : MEM_PAGE_SIZE ≤ usable) (Hbs : 8 ≤ bs < 2147483648)
    (Hroom : 8 ≤ usable - MEM_PAGE_SIZE + MEM_PAGE_SIZE mod bs)
    (Hspec : let n := Z.to_nat (MEM_PAGE_SIZE / bs) in
             spec_all bs prog (mkBlocks (cut page bs n) [] ∅) = Some (s, r)) :
  let s0 := mkBlocks (cut page bs (Z.to_nat (MEM_PAGE_SIZE / bs))) [] ∅ in
  ∃ m0 p0 m' p, mempool_init m page (Some mp) bs = Some (m0, Some p0, 0)
  ∧ exec_all prog m0 (Some p0) = Some (m', Some p, r)
  ∧ free_count p = Z.of_nat (length (free_list s))
  ∧ free_list s ++ held s ≡ₚ cut page bs (Z.to_nat (MEM_PAGE_SIZE / bs))
  ∧ (∀ a b, a ∈ held s → b ∈ held s → a ≠ b → a + bs ≤ b ∨ b + bs ≤ a)
  ∧ (∀ x b, written s !! x = Some b → m' !! x = Some b)
  ∧ (∀ l1 o l2, prog = l1 ++ o :: l2 →
       ∃ m1 p1 s1 r1 m2 p2 r2, spec_all bs l1 s0 = Some (s1, r1)
         ∧ exec_all l1 m0 (Some p0) = Some (m1, Some p1, r1)
         ∧ exec o m1 (Some p1) = Some (m2, Some p2, r2)
         ∧ ∀ q x, q ∈ held s1 → q ≤ x < q + bs → o ≠ Free q → (∀ b, o ≠ Store x b) →
             m2 !! x = m1 !! x).
Proof.
  cbn zeta in *. set (n := Z.to_nat (MEM_PAGE_SIZE / bs)) in *.
  destruct (init_pool_ok m page usable bs mp Hpage Hpos Htop Husable Hbs Hroom)
    as (m0 & Hinit & Hok & Hfit). fold n in Hok, Hfit.
  destruct (exec_all_ok page (page + usable) bs n ltac:(unfold two64; lia) Hpos Htop Hfit
    prog _ _ _ _ _ Hok Hspec) as (m' & p & He & Hok').
  exists m0, (mkPool bs (MEM_PAGE_SIZE / bs) page page), m', p. split_and!; try done.
  - apply Hok'.
  - apply Hok'.
  - intros a b Ha Hb. apply (cut_apart page bs n); [lia|by eapply held_block..].
  - intros x b Hx. by apply (ok_written _ _ _ _ _ _ _ Hok').
  - intros l1 o l2 ->.
    by apply (call_keeps page (page + usable) bs n ltac:(unfold two64; lia) Hpos Htop Hfit
      m0 _ _ l1 o l2 s r).
Qed.

(** The blocks of 32 bytes of [main] divide the page: initialising the pool
    writes eight bytes past the end of an allocation of exactly 4096 bytes. *)
Theorem mempool_main_overflows m page mp
    (Hpage : page_of m page (page + MEM_PAGE_SIZE)) (Hpos : 0 < page)
    (Htop : page + MEM_PAGE_SIZE < two64) :
  mempool_init m page (Some mp) 32 = None.
Proof.
  pose proof (init_spec m page MEM_PAGE_SIZE 32 mp Hpage Hpos Htop (Z.le_refl _)) as Hi.
  specialize (Hi ltac:(lia)). cbn zeta in Hi.
  destruct (mempool_init m page (Some mp) 32) as [[[m' mp'] rc]|]; [|done].
  destruct Hi as [Hi _]. by vm_compute in Hi.
Qed.

(** ** Witnesses *)

(** A page of [n] zero bytes. *)
Definition zeros (page n : Z) : memory := list_to_map ((λ a, (a, 0)) <$> seqZ page n).

Lemma zeros_page page n : 0 ≤ n → page_of (zeros page n) page (page + n).
Proof.
  intros Hn a. unfold zeros. rewrite <-elem_of_dom, dom_list_to_map_L, elem_of_list_to_set.
  rewrite <-list_fmap_compose, list_elem_of_fmap. split.
  - intros (b & -> & Hb%elem_of_seqZ). simpl. lia.
  - intros Ha. exists a. split; [done|]. apply elem_of_seqZ. lia.
Qed.

Definition no_pool : mempool_t := mkPool 0 0 0 0.


(** The calls of [main], with a client that writes into its blocks: the last
    block it gets is one it has freed, and its first two bytes are its own. *)
Definition writing_main (page : Z) : list op :=
  main page ++ [Malloc 25; Store (page + 96) 42; Store (page + 33) 7; Free (page + 32);
                Malloc 5; Store (page + 97) 43; Store (page + 96) 44].

Lemma mempool_refines_stack_witness :
  ∃ m0 p0 m' p, mempool_init (zeros 65536 4104) 65536 (Some no_pool) 32 = Some (m0, Some p0, 0)
  ∧ exec_all (writing_main 65536) m0 (Some p0)
    = Some (m', Some p, [65536; 65568; 65600; 65632; 65568; 65632; 65568])
  ∧ free_count p = 126 ∧ m' !! 65632 = Some 44 ∧ m' !! 65633 = Some 43.
Proof.
  set (s0 := mkBlocks (cut 65536 32 (Z.to_nat (MEM_PAGE_SIZE / 32))) [] ∅).
  assert ((λ x, (length (free_list x.1), written x.1 !! 65632, written x.1 !! 65633, x.2)) <$>
    spec_all 32 (writing_main 65536) s0
    = Some (126%nat, Some 44, Some 43, [65536; 65568; 65600; 65632; 65568; 65632; 65568]))
    as Hv by (by vm_compute).
  destruct (spec_all 32 (writing_main 65536) s0) as [[s r]|] eqn:Hs; [|done].
  injection Hv as Hlen H1 H2 Hr. simpl in Hlen, H1, H2, Hr. subst r.
  destruct (mempool_refines_stack (zeros 65536 4104) 65536 4104 32 no_pool (writing_main 65536) s _
    (zeros_page 65536 4104 ltac:(lia)) ltac:(lia) ltac:(unfold two64; lia)
    ltac:(unfold MEM_PAGE_SIZE; lia) ltac:(lia) ltac:(unfold MEM_PAGE_SIZE; by vm_compute) Hs)
    as (m0 & p0 & m' & p & Hi & He & Hc & _ & _ & Hw & _).
  exists m0, p0, m', p. rewrite Hlen in Hc. split_and!; auto.
Defined.
