(* ===== verification/ThreadPool.v ===== *)
(** * thread_pool: an intrusive task queue and its workers

    [task_queue_t] and the worker threads (thread_pool/thread_pool.c): the
    linked queue whose [tail] points to the field to be filled next, the
    spinlock that guards it, the flag [block] under a mutex with its condition
    variable, the worker loop, [thrdpool_terminate] and [__threads_terminate].  One step is one
    critical section, one atomic access or one call.  The spinlock excludes its
    holders from each other (its file is empty), condition variables may wake
    a waiter for no reason.  [None] is undefined behaviour: an access to memory
    that was freed. *)

From S2P Require Import Prelude.
Open Scope Z_scope.

(** ** The queue *)

(** [task_t]: [next] is its first field, so a pointer to the task is a pointer
    to [next]. *)
Record task_t := mkTask {
  next : option nat;
  func : Z;
  arg : Z;
}.
#[export] Instance eta_task_t : Eta task_t := λ t, mkTask (next t) (func t) (arg t).

(** [void **tail]: the field [head] of the queue, or the [next] of a task. *)
Inductive link :=
  | AtHead
  | AtTask (t : nat).
#[export] Instance link_eq_dec : EqDecision link.
Proof. solve_decision. Defined.

(** [memory]: the tasks allocated and not freed. *)
Record task_queue_t := mkQueue {
  head : option nat;
  tail : link;
  block : bool;
  memory : gmap nat task_t;
}.
#[export] Instance eta_task_queue_t : Eta task_queue_t := λ q,
  mkQueue (head q) (tail q) (block q) (memory q).

(** [__taskqueue_create] without its allocations. *)
Definition taskqueue_create (m : gmap nat task_t) : task_queue_t := mkQueue None AtHead true m.

(** A store through a link. *)
Definition set_link (q : task_queue_t) (l : link) (v : option nat) : option task_queue_t :=
  match l with
  | AtHead => Some (q <| head := v |>)
  | AtTask t =>
      task ← memory q !! t;
      Some (q <| memory ::= <[t := task <| next := v |>]> |>)
  end.

(** [__push_task]: before the lock, and under it. *)
Definition push_prepare (q : task_queue_t) (t : nat) : option task_queue_t :=
  set_link q (AtTask t) None.
Definition push_locked (q : task_queue_t) (t : nat) : option task_queue_t :=
  q ← set_link q (tail q) (Some t); Some (q <| tail := AtTask t |>).

(** [__pop_task]. *)
Definition pop_task (q : task_queue_t) : option (task_queue_t * option nat) :=
  match head q with
  | None => Some (q, None)
  | Some t =>
      task ← memory q !! t;
      let q := q <| head := next task |> in
      Some (if bool_decide (head q = None) then q <| tail := AtHead |> else q, Some t)
  end.

Definition free_task (q : task_queue_t) (t : nat) : option task_queue_t :=
  _ ← memory q !! t; Some (q <| memory ::= delete t |>).

(** [__taskqueue_destroy]: the tasks it frees. *)
Fixpoint destroy_loop (fuel : nat) (q : task_queue_t) : option (task_queue_t * list nat) :=
  match fuel with
  | O => None
  | S fuel =>
      '(q, o) ← pop_task q;
      match o with
      | None => Some (q, [])
      | Some t => q ← free_task q t; '(q, l) ← destroy_loop fuel q; Some (q, t :: l)
      end
  end.

(** ** The threads *)

(** Program points of [__thrdpool_worker] with [__get_task] inside it. *)
Inductive worker :=
  | CheckQuit
  | PopTask
  | CheckBlock                  (* the queue was empty: lock the mutex *)
  | Asleep                      (* in pthread_cond_wait *)
  | Woken
  | Unpack (t : nat)            (* func = task->func; ctx = task->arg; free(task) *)
  | Run (f ctx : Z)             (* func(ctx) *)
  | Ended.

(** A call of [__push_task], or none. *)
Inductive pusher :=
  | NoPush
  | Prepare (t : nat)
  | Link_ (t : nat)
  | Signal.

(** A call of [thrdpool_terminate] or of [__threads_terminate], or none.
    [Terminated]: the first has returned; [Join i]: the second is at the
    [pthread_join] of worker [i], or has returned when [i] is their number. *)
Inductive terminator :=
  | Running
  | SetQuit
  | Unblock
  | Broadcast
  | Terminated
  | Join (i : nat).

Record pool := mkPool {
  task_queue : task_queue_t;
  quit : bool;
  workers : list worker;
  pushers : list pusher;
  terminators : list terminator;
}.
#[export] Instance eta_pool : Eta pool := λ p,
  mkPool (task_queue p) (quit p) (workers p) (pushers p) (terminators p).

Inductive event :=
  | Pushed (t : nat) (f ctx : Z)  (* linked into the queue *)
  | Popped (w : nat) (o : option nat)
  | Called (w : nat) (f ctx : Z).

(** One step of worker [w]; [None] also when it sleeps or has ended. *)
Definition worker_step (w : nat) (quit : bool) (q : task_queue_t) (p : worker)
    : option (task_queue_t * worker * list event) :=
  match p with
  | CheckQuit => Some (q, if quit then Ended else PopTask, [])
  | PopTask =>
      '(q, o) ← pop_task q;
      Some (q, match o with Some t => Unpack t | None => CheckBlock end, [Popped w o])
  | CheckBlock => Some (q, if block q then Asleep else Ended, [])
  | Asleep => None
  | Woken => Some (q, PopTask, [])
  | Unpack t =>
      task ← memory q !! t;
      q ← free_task q t;
      Some (q, Run (func task) (arg task), [])
  | Run f ctx => Some (q, CheckQuit, [Called w f ctx])
  | Ended => None
  end.

(** [pthread_cond_broadcast], and [pthread_cond_signal] for worker [i]. *)
Definition wake (w : worker) : worker := match w with Asleep => Woken | w => w end.
Definition asleep (w : worker) : bool := match w with Asleep => true | _ => false end.

Inductive pool_step : pool → list event → pool → Prop :=
  | step_worker w p x q x' es :
      workers p !! w = Some x → worker_step w (quit p) (task_queue p) x = Some (q, x', es) →
      pool_step p es (p <| task_queue := q |> <| workers ::= <[w := x']> |>)
  | step_spurious w p :
      workers p !! w = Some Asleep →
      pool_step p [] (p <| workers ::= <[w := Woken]> |>)
  (* a client allocates a task and calls __push_task *)
  | step_push j t n f a p :
      pushers p !! j = Some NoPush → memory (task_queue p) !! t = None →
      pool_step p []
        (p <| task_queue ::= (λ q, q <| memory ::= <[t := mkTask n f a]> |>) |>
           <| pushers ::= <[j := Prepare t]> |>)
  | step_prepare j t q p :
      pushers p !! j = Some (Prepare t) → push_prepare (task_queue p) t = Some q →
      pool_step p [] (p <| task_queue := q |> <| pushers ::= <[j := Link_ t]> |>)
  | step_link j t task q p :
      pushers p !! j = Some (Link_ t) → memory (task_queue p) !! t = Some task →
      push_locked (task_queue p) t = Some q →
      pool_step p [Pushed t (func task) (arg task)] (p <| task_queue := q |> <| pushers ::= <[j := Signal]> |>)
  | step_signal j w p :
      pushers p !! j = Some Signal → workers p !! w = Some Asleep →
      pool_step p [] (p <| workers ::= <[w := Woken]> |> <| pushers ::= <[j := NoPush]> |>)
  | step_signal_none j p :
      pushers p !! j = Some Signal → (∀ w, w ∈ workers p → asleep w = false) →
      pool_step p [] (p <| pushers ::= <[j := NoPush]> |>)
  | step_terminate j p :
      terminators p !! j = Some Running →
      pool_step p [] (p <| terminators ::= <[j := SetQuit]> |>)
  | step_quit j p :
      terminators p !! j = Some SetQuit →
      pool_step p [] (p <| quit := true |> <| terminators ::= <[j := Unblock]> |>)
  | step_unblock j p :
      terminators p !! j = Some Unblock →
      pool_step p []
        (p <| task_queue ::= (λ q, q <| block := false |>) |> <| terminators ::= <[j := Broadcast]> |>)
  | step_broadcast j p :
      terminators p !! j = Some Broadcast →
      pool_step p [] (p <| workers ::= fmap wake |> <| terminators ::= <[j := Terminated]> |>)
  (* __threads_terminate goes on *)
  | step_joins j p :
      terminators p !! j = Some Broadcast →
      pool_step p [] (p <| workers ::= fmap wake |> <| terminators ::= <[j := Join 0]> |>)
  | step_join j i p :
      terminators p !! j = Some (Join i) → workers p !! i = Some Ended →
      pool_step p [] (p <| terminators ::= <[j := Join (S i)]> |>).

(** A pool whose workers have just been started, its queue and [quit] set: the
    source starts the workers first, a race that is not modelled. *)
Definition pool_init (p : pool) : Prop :=
  ∃ m, task_queue p = taskqueue_create m ∧ quit p = false
  ∧ Forall (λ w, w = CheckQuit) (workers p) ∧ Forall (λ j, j = NoPush) (pushers p)
  ∧ Forall (λ t, t = Running) (terminators p).

Definition pool_lts : lts pool event := Lts pool_init pool_step.

(** Worker [w] alone, for [fuel] steps. *)
Fixpoint worker_alone (fuel : nat) (w : nat) (quit : bool) (q : task_queue_t) (x : worker)
    : task_queue_t * worker * list event :=
  match fuel with
  | O => (q, x, [])
  | S fuel =>
      match worker_step w quit q x with
      | None => (q, x, [])
      | Some (q, x, es) =>
          let '(q, x, es') := worker_alone fuel w quit q x in (q, x, es ++ es')
      end
  end.

(** ** Specification: a queue, and one call to make per worker *)

(** The tasks linked and not yet popped, oldest first, and what each worker
    has popped and not yet called.  Only the pops are in the order of the
    queue: the calls of different workers come in any order. *)
Record fifo := mkFifo {
  waiting : list (nat * Z * Z);
  current : gmap nat (Z * Z);
}.

Inductive fifo_step : fifo → list event → fifo → Prop :=
  | fifo_push l c t f a : fifo_step (mkFifo l c) [Pushed t f a] (mkFifo (l ++ [(t, f, a)]) c)
  | fifo_pop l c w t f a :
      c !! w = None →
      fifo_step (mkFifo ((t, f, a) :: l) c) [Popped w (Some t)] (mkFifo l (<[w := (f, a)]> c))
  | fifo_empty c w : fifo_step (mkFifo [] c) [Popped w None] (mkFifo [] c)
  | fifo_call l c w f a :
      c !! w = Some (f, a) →
      fifo_step (mkFifo l c) [Called w f a] (mkFifo l (delete w c)).

Definition fifo_lts : lts fifo event := Lts (λ s, s = mkFifo [] ∅) fifo_step.

(** What a run shows: the tasks linked with their calls, the pops that found a
    task, and the calls of worker [w]. *)
Definition pushed_of (e : event) : option (nat * Z * Z) :=
  match e with Pushed t f a => Some (t, f, a) | _ => None end.
Definition popped_of (e : event) : option (nat * nat) :=
  match e with Popped w (Some t) => Some (w, t) | _ => None end.
Definition called_of (w : nat) (e : event) : option (Z * Z) :=
  match e with Called w' f a => if decide (w' = w) then Some (f, a) else None | _ => None end.
Definition pushed (es : list event) : list (nat * Z * Z) := omap pushed_of es.
Definition popped (es : list event) : list (nat * nat) := omap popped_of es.
Definition called (w : nat) (es : list event) : list (Z * Z) := omap (called_of w) es.

(** Tasks with the workers that popped them: what the pops show of them, and
    the calls they are for worker [w]. *)
Definition pop_of (x : nat * (nat * Z * Z)) : nat * nat := (x.1, x.2.1.1).
Definition owed_of (w : nat) (x : nat * (nat * Z * Z)) : option (Z * Z) :=
  if decide (x.1 = w) then Some (x.2.1.2, x.2.2) else None.
Definition owed (w : nat) (k : list (nat * (nat * Z * Z))) : list (Z * Z) := omap (owed_of w) k.

(** ** The invariant *)

(** The tasks reached from [o] along [next]. *)
Fixpoint chain (m : gmap nat task_t) (o : option nat) (l : list nat) : Prop :=
  match l with
  | [] => o = None
  | t :: l => o = Some t ∧ ∃ task, m !! t = Some task ∧ chain m (next task) l
  end.

Definition tail_of (l : list nat) : link :=
  match last l with Some t => AtTask t | None => AtHead end.

Definition one (b : bool) : Z := if b then 1 else 0.
Definition pusher_has (t : nat) (x : pusher) : Z :=
  match x with Prepare t' | Link_ t' => one (bool_decide (t' = t)) | _ => 0 end.
Definition worker_has (t : nat) (x : worker) : Z :=
  match x with Unpack t' => one (bool_decide (t' = t)) | _ => 0 end.

(** A worker between its pop and its call. *)
Definition has_call (x : worker) : bool :=
  match x with Unpack _ | Run _ _ => true | _ => false end.

(** How many hold task [t]: the queue, the clients that push it, the workers. *)
Definition holders (p : pool) (l : list nat) (t : nat) : Z :=
  one (bool_decide (t ∈ l)) + sum_of (pusher_has t) (pushers p) + sum_of (worker_has t) (workers p).

Definition payload (m : gmap nat task_t) (t : nat) (f a : Z) : Prop :=
  ∃ n, m !! t = Some (mkTask n f a).

Record pool_ok (p : pool) (l : list nat) (s : fifo) : Prop := {
  ok_chain : chain (memory (task_queue p)) (head (task_queue p)) l;
  ok_tail : tail (task_queue p) = tail_of l;
  ok_nodup : NoDup l;
  ok_owner t : holders p l t ≤ 1;
  ok_memory t : 0 < holders p l t → is_Some (memory (task_queue p) !! t);
  ok_next j t : pushers p !! j = Some (Link_ t) →
    ∃ f a, memory (task_queue p) !! t = Some (mkTask None f a);
  ok_waiting : Forall2 (λ t x, x.1.1 = t ∧ payload (memory (task_queue p)) t x.1.2 x.2) l (waiting s);
  ok_unpack w t : workers p !! w = Some (Unpack t) →
    ∃ f a, current s !! w = Some (f, a) ∧ payload (memory (task_queue p)) t f a;
  ok_run w f a : workers p !! w = Some (Run f a) → current s !! w = Some (f, a);
  ok_idle w : is_Some (current s !! w) → ∃ x, workers p !! w = Some x ∧ has_call x = true;
}.

Lemma pusher_has_nonneg t x : 0 ≤ pusher_has t x.
Proof. destruct x; simpl; try lia; unfold one; case_match; lia. Qed.
Lemma worker_has_nonneg t x : 0 ≤ worker_has t x.
Proof. destruct x; simpl; try lia; unfold one; case_match; lia. Qed.
Lemma one_true (P : Prop) `{Decision P} : P → one (bool_decide P) = 1.
Proof. intros. unfold one. by rewrite bool_decide_eq_true_2. Qed.
Lemma one_false (P : Prop) `{Decision P} : ¬ P → one (bool_decide P) = 0.
Proof. intros. unfold one. by rewrite bool_decide_eq_false_2. Qed.
Lemma one_nonneg b : 0 ≤ one b.
Proof. unfold one. case_match; lia. Qed.

Lemma pusher_holds p j x t :
  pushers p !! j = Some x → pusher_has t x ≤ sum_of (pusher_has t) (pushers p).
Proof. intros Hj. exact (sum_of_lookup _ _ _ _ (pusher_has_nonneg t) Hj). Qed.
Lemma worker_holds p w x t :
  workers p !! w = Some x → worker_has t x ≤ sum_of (worker_has t) (workers p).
Proof. intros Hw. exact (sum_of_lookup _ _ _ _ (worker_has_nonneg t) Hw). Qed.

(** Whoever works on a task, it is not in the queue and nobody else has it. *)
Lemma pusher_owns p l s j x t :
  pool_ok p l s → pushers p !! j = Some x → pusher_has t x = 1 →
  (t ∉ l) ∧ sum_of (worker_has t) (workers p) = 0 ∧ sum_of (pusher_has t) (pushers p) = 1
  ∧ is_Some (memory (task_queue p) !! t).
Proof.
  intros Hok Hj Ht. pose proof (ok_owner _ _ _ Hok t) as Ho. pose proof (pusher_holds p j x t Hj).
  pose proof (sum_of_nonneg (worker_has t) (workers p) (worker_has_nonneg t)).
  pose proof (one_nonneg (bool_decide (t ∈ l))). unfold holders in Ho.
  split; [intros Hin; rewrite (one_true _ Hin) in Ho; lia|]. split; [lia|]. split; [lia|].
  apply (ok_memory _ _ _ Hok). unfold holders. lia.
Qed.

Lemma worker_owns p l s w x t :
  pool_ok p l s → workers p !! w = Some x → worker_has t x = 1 →
  (t ∉ l) ∧ sum_of (pusher_has t) (pushers p) = 0 ∧ sum_of (worker_has t) (workers p) = 1
  ∧ is_Some (memory (task_queue p) !! t).
Proof.
  intros Hok Hj Ht. pose proof (ok_owner _ _ _ Hok t) as Ho. pose proof (worker_holds p w x t Hj).
  pose proof (sum_of_nonneg (pusher_has t) (pushers p) (pusher_has_nonneg t)).
  pose proof (one_nonneg (bool_decide (t ∈ l))). unfold holders in Ho.
  split; [intros Hin; rewrite (one_true _ Hin) in Ho; lia|]. split; [lia|]. split; [lia|].
  apply (ok_memory _ _ _ Hok). unfold holders. lia.
Qed.

Lemma queue_owns p l s t :
  pool_ok p l s → t ∈ l →
  sum_of (pusher_has t) (pushers p) = 0 ∧ sum_of (worker_has t) (workers p) = 0
  ∧ is_Some (memory (task_queue p) !! t).
Proof.
  intros Hok Ht. pose proof (ok_owner _ _ _ Hok t) as Ho.
  pose proof (sum_of_nonneg (pusher_has t) (pushers p) (pusher_has_nonneg t)).
  pose proof (sum_of_nonneg (worker_has t) (workers p) (worker_has_nonneg t)).
  unfold holders in Ho. rewrite (one_true _ Ht) in Ho. split; [lia|]. split; [lia|].
  apply (ok_memory _ _ _ Hok). unfold holders. rewrite (one_true _ Ht). lia.
Qed.

(** *** Chains *)

Lemma task_chain_ext m m' o l :
  (∀ t, t ∈ l → m' !! t = m !! t) → chain m o l → chain m' o l.
Proof.
  revert o. induction l as [|t l IH]; intros o Hm; simpl; [done|].
  intros (-> & task & Ht & Hc). split; [done|]. exists task. rewrite Hm by left. split; [done|].
  apply IH; [|done]. intros t' ?. apply Hm. by right.
Qed.

(** Filling the link at the end. *)
Lemma chain_snoc m o l t0 t task0 task :
  chain m o (l ++ [t0]) → NoDup (l ++ [t0]) → t ∉ l ++ [t0] →
  m !! t0 = Some task0 → m !! t = Some task → next task = None →
  chain (<[t0 := task0 <| next := Some t |>]> m) o ((l ++ [t0]) ++ [t]).
Proof.
  revert o. induction l as [|x l IH]; intros o Hc Hnd Ht Hm0 Hm Hn; simpl in *.
  - destruct Hc as (-> & task' & Ht0 & _). split; [done|]. rewrite lookup_insert_eq.
    eexists. split; [done|]. split; [done|]. exists task.
    rewrite lookup_insert_ne by (intros ->; apply Ht; by left). done.
  - destruct Hc as (-> & task' & Hx & Hc). split; [done|]. apply NoDup_cons in Hnd as [Hxl Hnd].
    exists task'. rewrite lookup_insert_ne.
    + split; [done|]. apply IH; try done. intros Hin. apply Ht. by right.
    + intros ->. apply Hxl, elem_of_app. right. by apply list_elem_of_singleton.
Qed.

(** *** One change at a time *)

Lemma ok_same p p' l s :
  pool_ok p l s → memory (task_queue p') = memory (task_queue p) →
  head (task_queue p') = head (task_queue p) → tail (task_queue p') = tail (task_queue p) →
  pushers p' = pushers p → workers p' = workers p → pool_ok p' l s.
Proof.
  intros Hok Hm Hh Ht Hp Hw.
  split; unfold holders; rewrite ?Hm, ?Hh, ?Ht, ?Hp, ?Hw; apply Hok.
Qed.

(** A thread may let go of a task, or take one that nobody holds. *)
Definition may_hold (p : pool) (l : list nat) (t : nat) (before after : Z) : Prop :=
  after ≤ before ∨ (after = 1 ∧ holders p l t = 0 ∧ is_Some (memory (task_queue p) !! t)).

Lemma ok_worker p l s w x x' c :
  pool_ok p l s → workers p !! w = Some x →
  (∀ t, may_hold p l t (worker_has t x) (worker_has t x')) →
  (∀ t, x' = Unpack t → ∃ f a, c = Some (f, a) ∧ payload (memory (task_queue p)) t f a) →
  (∀ f a, x' = Run f a → c = Some (f, a)) →
  (has_call x' = false → c = None) →
  pool_ok (p <| workers ::= <[w := x']> |>) l
    (mkFifo (waiting s) (partial_alter (λ _, c) w (current s))).
Proof.
  intros Hok Hw Hhas Hun Hrun Hidle.
  assert (∀ t, holders (p <| workers ::= <[w := x']> |>) l t
    = holders p l t - worker_has t x + worker_has t x') as Hh.
  { intros t. unfold holders. simpl. rewrite (sum_of_insert _ _ _ _ _ Hw). lia. }
  split; try apply Hok; intros t.
  - rewrite Hh. pose proof (ok_owner _ _ _ Hok t). pose proof (worker_has_nonneg t x).
    destruct (Hhas t) as [?|(? & ? & ?)]; lia.
  - rewrite Hh. pose proof (ok_memory _ _ _ Hok t). destruct (Hhas t) as [?|(_ & _ & ?)]; [|done].
    intros. apply H. lia.
  - simpl. intros t' [(<- & -> & _)|[Hne Hl]]%list_lookup_insert_Some.
    + rewrite lookup_partial_alter_eq. by apply Hun.
    + rewrite lookup_partial_alter_ne by done. by apply (ok_unpack _ _ _ Hok).
  - simpl. intros f a [(<- & -> & _)|[Hne Hl]]%list_lookup_insert_Some.
    + rewrite lookup_partial_alter_eq. by apply Hrun.
    + rewrite lookup_partial_alter_ne by done. by apply (ok_run _ _ _ Hok).
  - simpl. destruct (decide (t = w)) as [->|Hne].
    + rewrite lookup_partial_alter_eq. intros Hc. exists x'.
      rewrite list_lookup_insert_eq by (by eapply lookup_lt_Some). split; [done|].
      destruct (has_call x') eqn:Hx; [done|]. destruct Hc as [? Hc]. by rewrite Hidle in Hc.
    + rewrite lookup_partial_alter_ne by done. intros (y & Hy & ?)%(ok_idle _ _ _ Hok).
      exists y. by rewrite list_lookup_insert_ne.
Qed.

Lemma ok_pusher p l s j x x' :
  pool_ok p l s → pushers p !! j = Some x →
  (∀ t, may_hold p l t (pusher_has t x) (pusher_has t x')) →
  (∀ t, x' = Link_ t → ∃ f a, memory (task_queue p) !! t = Some (mkTask None f a)) →
  pool_ok (p <| pushers ::= <[j := x']> |>) l s.
Proof.
  intros Hok Hj Hhas Hlink.
  assert (∀ t, holders (p <| pushers ::= <[j := x']> |>) l t
    = holders p l t - pusher_has t x + pusher_has t x') as Hh.
  { intros t. unfold holders. simpl. rewrite (sum_of_insert _ _ _ _ _ Hj). lia. }
  split; try apply Hok; intros t.
  - rewrite Hh. pose proof (ok_owner _ _ _ Hok t). pose proof (pusher_has_nonneg t x).
    destruct (Hhas t) as [?|(? & ? & ?)]; lia.
  - rewrite Hh. pose proof (ok_memory _ _ _ Hok t). destruct (Hhas t) as [?|(_ & _ & ?)]; [|done].
    intros. apply H. lia.
  - simpl. intros t' [(<- & -> & _)|[_ Hl]]%list_lookup_insert_Some; [by apply Hlink|].
    by apply (ok_next _ _ _ Hok t).
Qed.

(** The memory of a task that is neither in the queue nor with another thread:
    allocated, freed, or its [next] changed. *)
Lemma ok_memory_at p l s t m :
  pool_ok p l s → t ∉ l → (∀ t', t' ≠ t → m !! t' = memory (task_queue p) !! t') →
  (is_Some (m !! t) ∨ holders p l t = 0) →
  (∀ f a, payload (memory (task_queue p)) t f a → payload m t f a ∨ holders p l t = 0) →
  (∀ f a, memory (task_queue p) !! t = Some (mkTask None f a) →
     m !! t = Some (mkTask None f a) ∨ holders p l t = 0) →
  pool_ok (p <| task_queue ::= (λ q, q <| memory := m |>) |>) l s.
Proof.
  intros Hok Ht Hm Hsome Hpay Hnext.
  assert (∀ w, workers p !! w = Some (Unpack t) → holders p l t ≠ 0) as Hw.
  { intros w Hw. pose proof (worker_holds p w _ t Hw) as Hs. simpl in Hs.
    rewrite one_true in Hs by done. unfold holders.
    pose proof (sum_of_nonneg (pusher_has t) (pushers p) (pusher_has_nonneg t)).
    pose proof (one_nonneg (bool_decide (t ∈ l))). lia. }
  assert (∀ j, pushers p !! j = Some (Link_ t) → holders p l t ≠ 0) as Hj.
  { intros j Hj. pose proof (pusher_holds p j _ t Hj) as Hs. simpl in Hs.
    rewrite one_true in Hs by done. unfold holders.
    pose proof (sum_of_nonneg (worker_has t) (workers p) (worker_has_nonneg t)).
    pose proof (one_nonneg (bool_decide (t ∈ l))). lia. }
  split; try apply Hok; simpl.
  - eapply task_chain_ext; [|apply Hok]. intros t' Ht'. apply Hm. by intros ->.
  - intros t' Hpos. destruct (decide (t' = t)) as [->|Hne].
    + destruct Hsome as [?|H0]; [done|]. change (0 < holders p l t) in Hpos. lia.
    + rewrite Hm by done. by apply (ok_memory _ _ _ Hok).
  - intros j t' Hj'. destruct (ok_next _ _ _ Hok _ _ Hj') as (f & a & Hl). exists f, a.
    destruct (decide (t' = t)) as [->|Hne]; [|by rewrite Hm].
    destruct (Hnext _ _ Hl) as [?|H0]; [done|]. by destruct (Hj j Hj').
  - pose proof (ok_waiting _ _ _ Hok) as Hf. clear -Hf Hm Ht.
    induction Hf as [|t' x l k [Hx Hp] Hf IH]; constructor.
    + split; [done|]. destruct Hp as [n Hp]. exists n. rewrite Hm; [done|].
      intros ->. apply Ht. by left.
    + apply IH. intros Hin. apply Ht. by right.
  - intros w t' Hw'. destruct (ok_unpack _ _ _ Hok _ _ Hw') as (f & a & Hc & Hp). exists f, a.
    split; [done|]. destruct (decide (t' = t)) as [->|Hne].
    + destruct (Hpay _ _ Hp) as [?|H0]; [done|]. by destruct (Hw w Hw').
    + destruct Hp as [n Hp]. exists n. by rewrite Hm.
Qed.

(** *** Linking and popping *)

Lemma holders_app p l t t' :
  t' ∉ l → holders p (l ++ [t']) t = holders p l t + one (bool_decide (t' = t)).
Proof.
  intros Ht'. unfold holders. destruct (decide (t' = t)) as [->|Hne].
  - rewrite (one_true (t ∈ l ++ [t])) by (apply elem_of_app; right; by left).
    rewrite (one_false (t ∈ l)), (one_true (t = t)) by done. lia.
  - rewrite (one_false (t' = t)) by done. destruct (decide (t ∈ l)) as [Hin|Hin].
    + rewrite !one_true by (done || apply elem_of_app; by left). lia.
    + rewrite !one_false; [lia|done|]. intros [?|?%list_elem_of_singleton]%elem_of_app; congruence.
Qed.

(** A task nobody holds, appended to the chain by a memory that moves only the
    links of the tasks already there. *)
Lemma ok_linked p l s t f a m h :
  pool_ok p l s → holders p l t = 0 → t ∉ l →
  memory (task_queue p) !! t = Some (mkTask None f a) →
  (∀ t' task, memory (task_queue p) !! t' = Some task →
    ∃ n, m !! t' = Some (task <| next := n |>) ∧ (t' ∉ l → n = next task)) →
  chain m h (l ++ [t]) →
  pool_ok (p <| task_queue := mkQueue h (AtTask t) (block (task_queue p)) m |>) (l ++ [t])
    (mkFifo (waiting s ++ [(t, f, a)]) (current s)).
Proof.
  intros Hok H0 Ht Hm Hkeep Hch.
  assert (∀ t' f a, payload (memory (task_queue p)) t' f a → payload m t' f a) as Hpay.
  { intros t' f' a' [n Hn]. destruct (Hkeep _ _ Hn) as (n' & Hn' & _). by exists n'. }
  split; simpl; try apply Hok; try done.
  - unfold tail_of. by rewrite last_snoc.
  - apply NoDup_app. split; [apply Hok|]. split; [|apply NoDup_singleton].
    by intros x Hx ->%list_elem_of_singleton.
  - intros t'. change (holders p (l ++ [t]) t' ≤ 1). rewrite holders_app by done.
    destruct (decide (t = t')) as [<-|Hne]; [rewrite one_true by done; lia|].
    rewrite one_false by done. pose proof (ok_owner _ _ _ Hok t'). lia.
  - intros t' Hpos. assert (is_Some (memory (task_queue p) !! t')) as [task Htask].
    { change (0 < holders p (l ++ [t]) t') in Hpos. rewrite holders_app in Hpos by done.
      destruct (decide (t = t')) as [<-|Hne]; [by eexists|].
      rewrite one_false in Hpos by done. apply (ok_memory _ _ _ Hok). lia. }
    destruct (Hkeep _ _ Htask) as (n & Hn & _). by eexists.
  - intros j t' Hj. destruct (ok_next _ _ _ Hok _ _ Hj) as (f' & a' & Hl). exists f', a'.
    destruct (Hkeep _ _ Hl) as (n & -> & Hn). rewrite Hn; [done|].
    assert (pusher_has t' (Link_ t') = 1) as Hh by (simpl; by rewrite one_true).
    by destruct (pusher_owns _ _ _ _ _ _ Hok Hj Hh).
  - apply Forall2_app; [|constructor; [|constructor]].
    + eapply Forall2_impl; [apply Hok|]. intros t' x [? ?]. split; [done|]. by apply Hpay.
    + split; [done|]. apply Hpay. by exists None.
  - intros w t' Hw. destruct (ok_unpack _ _ _ Hok _ _ Hw) as (f' & a' & ? & ?). eauto.
Qed.

Lemma ok_link p l s t f a :
  pool_ok p l s → holders p l t = 0 → memory (task_queue p) !! t = Some (mkTask None f a) →
  ∃ q, push_locked (task_queue p) t = Some q
    ∧ pool_ok (p <| task_queue := q |>) (l ++ [t]) (mkFifo (waiting s ++ [(t, f, a)]) (current s)).
Proof.
  intros Hok H0 Hm. assert (t ∉ l) as Ht.
  { intros Hin. unfold holders in H0. rewrite one_true in H0 by done.
    pose proof (sum_of_nonneg (pusher_has t) (pushers p) (pusher_has_nonneg t)).
    pose proof (sum_of_nonneg (worker_has t) (workers p) (worker_has_nonneg t)). lia. }
  pose proof (λ m h, ok_linked p l s t f a m h Hok H0 Ht Hm) as Hall.
  unfold push_locked. rewrite (ok_tail _ _ _ Hok). pose proof (ok_chain _ _ _ Hok) as Hch.
  destruct l as [|t0 l _] using rev_ind.
  - simpl. eexists. split; [done|]. apply Hall.
    + intros t' task Ht'. exists (next task). split; [|done]. by destruct task.
    + simpl. split; [done|]. by exists (mkTask None f a).
  - unfold tail_of. rewrite last_snoc. simpl.
    destruct (queue_owns _ _ _ t0 Hok) as (_ & _ & task0 & Hm0);
      [apply elem_of_app; right; by left|].
    rewrite Hm0. simpl. eexists. split; [done|]. apply Hall.
    + intros t' task Ht'. simpl. destruct (decide (t' = t0)) as [->|Hne].
      * rewrite lookup_insert_eq. exists (Some t). split; [by simplify_eq|].
        intros []. apply elem_of_app. right. by left.
      * rewrite lookup_insert_ne by done. exists (next task). split; [|done]. by destruct task.
    + apply (chain_snoc _ _ _ _ _ task0 (mkTask None f a)); try done. apply Hok.
Qed.

(** Popping leaves the task with nobody. *)
Lemma ok_dequeue p l s :
  pool_ok p l s →
  match l with
  | [] => pop_task (task_queue p) = Some (task_queue p, None) ∧ waiting s = []
  | t :: l' => ∃ f a k q, waiting s = (t, f, a) :: k
      ∧ pop_task (task_queue p) = Some (q, Some t) ∧ payload (memory q) t f a
      ∧ block q = block (task_queue p)
      ∧ holders (p <| task_queue := q |>) l' t = 0
      ∧ pool_ok (p <| task_queue := q |>) l' (mkFifo k (current s))
  end.
Proof.
  intros Hok. pose proof (ok_chain _ _ _ Hok) as Hch. pose proof (ok_waiting _ _ _ Hok) as Hf.
  unfold pop_task. destruct l as [|t l]; simpl in Hch.
  { rewrite Hch. split; [done|]. by apply Forall2_nil_inv_l in Hf. }
  destruct Hch as (Hhead & task & Hm & Hch).
  apply Forall2_cons_inv_l in Hf as ([[t' f] a] & k & [Ht' [n Hp]] & Hf & Hs). simpl in Ht', Hp.
  subst t'. exists f, a, k. rewrite Hhead, Hm. simpl. eexists. split; [done|]. split; [done|].
  destruct (queue_owns _ _ _ t Hok) as (Hpu & Hwo & _); [by left|].
  pose proof (ok_nodup _ _ _ Hok) as Hnd. apply NoDup_cons in Hnd as [Htl Hnd].
  set (q := if bool_decide _ then _ else _).
  assert (memory q = memory (task_queue p) ∧ head q = next task ∧ block q = block (task_queue p)
    ∧ tail q = tail_of l) as (Hmq & Hhq & Hbq & Htq).
  { unfold q. case_bool_decide as Hn; simpl; split_and!; try done.
    - destruct l; [done|]. simpl in Hch. destruct Hch as [? _]. congruence.
    - rewrite (ok_tail _ _ _ Hok). unfold tail_of. destruct l; [by destruct Hn|done]. }
  assert (∀ x, holders (p <| task_queue := q |>) l x + one (bool_decide (x = t))
    = holders p (t :: l) x) as Hh.
  { intros x. unfold holders. simpl. destruct (decide (x = t)) as [->|Hne].
    - rewrite (one_true (t = t)), (one_true (t ∈ t :: l)), (one_false (t ∈ l)) by (done || by left). lia.
    - rewrite (one_false (x = t)) by done.
      assert (bool_decide (x ∈ t :: l) = bool_decide (x ∈ l)) as ->; [|lia].
      apply bool_decide_ext. rewrite elem_of_cons. tauto. }
  split; [exists n; by rewrite Hmq|]. split; [done|]. split.
  { pose proof (Hh t) as Ht. rewrite one_true in Ht by done. pose proof (ok_owner _ _ _ Hok t).
    unfold holders in *. simpl in *. rewrite Hpu, Hwo. rewrite one_false by done. done. }
  split; simpl; rewrite ?Hmq, ?Hhq; try apply Hok; try done.
  - intros x. pose proof (Hh x). pose proof (ok_owner _ _ _ Hok x).
    pose proof (one_nonneg (bool_decide (x = t))). lia.
  - intros x Hpos. apply (ok_memory _ _ _ Hok). pose proof (Hh x).
    pose proof (one_nonneg (bool_decide (x = t))). lia.
Qed.

(** *** Every step *)

Lemma run_silent (s : fifo) : run fifo_lts s [] s.
Proof. constructor. Qed.

(** The worker keeps the call it has to make, or has none before and after. *)
Lemma same_call p l s w x x' :
  pool_ok p l s → workers p !! w = Some x →
  (∀ t, may_hold p l t (worker_has t x) (worker_has t x')) →
  (∀ t, x' ≠ Unpack t) → (∀ f a, x' = Run f a → current s !! w = Some (f, a)) →
  (has_call x' = false → has_call x = false) →
  pool_ok (p <| workers ::= <[w := x']> |>) l s.
Proof.
  intros Hok Hw Hhas Hun Hrun Hidle.
  assert (mkFifo (waiting s) (partial_alter (λ _, current s !! w) w (current s)) = s) as Hs.
  { rewrite (partial_alter_self (current s)). by destruct s. }
  rewrite <-Hs. eapply ok_worker; [done|done|done|by intros t ?%Hun|done|].
  intros Hx%Hidle. apply eq_None_not_Some. intros (y & Hy & ?)%(ok_idle _ _ _ Hok). congruence.
Qed.

Lemma quiet_worker p l s w x x' :
  pool_ok p l s → workers p !! w = Some x → has_call x = false → has_call x' = false →
  pool_ok (p <| workers ::= <[w := x']> |>) l s.
Proof.
  intros Hok Hw Hx Hx'. eapply same_call; [done|done|..].
  - intros t. left. pose proof (worker_has_nonneg t x). by destruct x'.
  - by intros t ->.
  - by intros f a ->.
  - done.
Qed.

Lemma quiet_pusher p l s j x x' :
  pool_ok p l s → pushers p !! j = Some x →
  match x' with Prepare _ | Link_ _ => False | _ => True end →
  pool_ok (p <| pushers ::= <[j := x']> |>) l s.
Proof.
  intros Hok Hj Hx. eapply ok_pusher; [done|done|..].
  - intros t. left. pose proof (pusher_has_nonneg t x). by destruct x'.
  - by intros t ->.
Qed.

Lemma pop_step p l s w :
  pool_ok p l s → workers p !! w = Some PopTask →
  ∃ q o l' s', pop_task (task_queue p) = Some (q, o)
    ∧ fifo_step s [Popped w o] s'
    ∧ pool_ok (p <| task_queue := q |>
                 <| workers ::= <[w := match o with Some t => Unpack t | None => CheckBlock end]> |>) l' s'.
Proof.
  intros Hok Hw. pose proof (ok_dequeue _ _ _ Hok) as Hd. destruct l as [|t l].
  - destruct Hd as [Hp Hs]. exists (task_queue p), None, [], s. split; [done|]. split.
    + destruct s as [wt c]. simpl in Hs. subst wt. constructor.
    + eapply quiet_worker; [|done..]. by eapply ok_same.
  - destruct Hd as (f & a & k & q & Hs & Hp & Hpay & _ & H0 & Hok').
    exists q, (Some t), l, (mkFifo k (<[w := (f, a)]> (current s))). split; [done|]. split.
    + destruct s as [wt c] eqn:Es. simpl in Hs. subst wt. constructor.
      apply eq_None_not_Some. intros Hc. apply (ok_idle _ _ _ Hok) in Hc as (y & Hy & ?). by simplify_eq.
    + apply (ok_worker (p <| task_queue := q |>) l (mkFifo k (current s)) w PopTask
        (Unpack t) (Some (f, a)) Hok' Hw); [|by intros t' [= <-]; eauto|done|done].
      intros t'. simpl. destruct (decide (t = t')) as [<-|Hne].
      * right. split; [by rewrite one_true|]. split; [done|]. destruct Hpay as [n Hn]. by eexists.
      * left. by rewrite one_false.
Qed.

Lemma unpack_step p l s w t :
  pool_ok p l s → workers p !! w = Some (Unpack t) →
  ∃ task q, memory (task_queue p) !! t = Some task ∧ free_task (task_queue p) t = Some q
    ∧ pool_ok (p <| task_queue := q |> <| workers ::= <[w := Run (func task) (arg task)]> |>) l s.
Proof.
  intros Hok Hw. assert (worker_has t (Unpack t) = 1) as Hh by (simpl; by rewrite one_true).
  destruct (worker_owns _ _ _ _ _ _ Hok Hw Hh) as (Htl & Hp0 & Hw1 & task & Hm).
  destruct (ok_unpack _ _ _ Hok _ _ Hw) as (f & a & Hc & n & Hm'). rewrite Hm in Hm'. simplify_eq.
  exists (mkTask n f a). eexists. split; [done|]. unfold free_task. rewrite Hm. simpl.
  split; [done|].
  assert (pool_ok (p <| workers ::= <[w := Run f a]> |>) l s) as Hok1.
  { eapply same_call; [done|done|..]; [|done|by intros f' a' [= <- <-]|done].
    intros t'. left. apply (worker_has_nonneg t' (Unpack t)). }
  assert (holders (p <| workers ::= <[w := Run f a]> |>) l t = 0) as H0.
  { unfold holders. simpl. rewrite (sum_of_insert _ _ _ _ _ Hw), one_false, Hp0 by done. simpl.
    rewrite one_true by done. lia. }
  eapply ok_same; [apply (ok_memory_at _ _ _ t (delete t (memory (task_queue p))) Hok1 Htl)|done..].
  - intros t' Hne. simpl. by apply lookup_delete_ne.
  - by right.
  - by right.
  - by right.
Qed.

Lemma worker_ok p l s w x q x' es :
  pool_ok p l s → workers p !! w = Some x →
  worker_step w (quit p) (task_queue p) x = Some (q, x', es) →
  ∃ l' s', run fifo_lts s es s'
    ∧ pool_ok (p <| task_queue := q |> <| workers ::= <[w := x']> |>) l' s'.
Proof.
  intros Hok Hw Hstep. destruct x as [| | | | |t|f a|]; simpl in Hstep; try done.
  - simplify_eq. exists l, s. split; [apply run_silent|].
    eapply quiet_worker; [by eapply ok_same|done|done|by destruct (quit _)].
  - destruct (pop_step _ _ _ _ Hok Hw) as (q1 & o & l' & s' & Hp & Hf & Hok').
    rewrite Hp in Hstep. simplify_eq/=. exists l', s'. split; [by apply run_one|done].
  - simplify_eq. exists l, s. split; [apply run_silent|].
    eapply quiet_worker; [by eapply ok_same|done|done|by destruct (block _)].
  - simplify_eq. exists l, s. split; [apply run_silent|].
    eapply quiet_worker; [by eapply ok_same|done..].
  - destruct (unpack_step _ _ _ _ _ Hok Hw) as (task & q1 & Hm & Hfr & Hok').
    rewrite Hm in Hstep. simpl in Hstep. rewrite Hfr in Hstep. simplify_eq/=.
    exists l, s. split; [apply run_silent|done].
  - simplify_eq. exists l, (mkFifo (waiting s) (delete w (current s))). split.
    + apply run_one. destruct s as [wt c]. constructor. by eapply (ok_run _ _ _ Hok).
    + eapply (ok_same (p <| workers ::= <[w := CheckQuit]> |>)); [|done..].
      apply (ok_worker p l s w (Run f a) CheckQuit None Hok Hw); [|done..].
      intros t. by left.
Qed.

Lemma fresh_step p l s j t n f a :
  pool_ok p l s → pushers p !! j = Some NoPush → memory (task_queue p) !! t = None →
  pool_ok (p <| task_queue ::= (λ q, q <| memory ::= <[t := mkTask n f a]> |>) |>
             <| pushers ::= <[j := Prepare t]> |>) l s.
Proof.
  intros Hok Hj Hm. assert (holders p l t = 0) as H0.
  { destruct (Z.lt_ge_cases 0 (holders p l t)) as [Hlt|?].
    - apply (ok_memory _ _ _ Hok) in Hlt as [? ?]. congruence.
    - pose proof (one_nonneg (bool_decide (t ∈ l))). unfold holders in *.
      pose proof (sum_of_nonneg (pusher_has t) (pushers p) (pusher_has_nonneg t)).
      pose proof (sum_of_nonneg (worker_has t) (workers p) (worker_has_nonneg t)). lia. }
  assert (t ∉ l) as Htl.
  { intros Hin. destruct (queue_owns _ _ _ _ Hok Hin) as (_ & _ & ? & ?). congruence. }
  eapply ok_pusher.
  - eapply ok_same; [apply (ok_memory_at p l s t (<[t := mkTask n f a]> (memory (task_queue p))) Hok Htl)|done..];
      [|by right|by right|by right].
    intros t' Hne. by apply lookup_insert_ne.
  - done.
  - intros t'. simpl. destruct (decide (t = t')) as [<-|Hne].
    + right. split; [by rewrite one_true|]. split; [done|]. simpl. rewrite lookup_insert_eq. by eexists.
    + left. by rewrite one_false.
  - done.
Qed.

Lemma prepare_step p l s j t :
  pool_ok p l s → pushers p !! j = Some (Prepare t) →
  ∃ q, push_prepare (task_queue p) t = Some q
    ∧ pool_ok (p <| task_queue := q |> <| pushers ::= <[j := Link_ t]> |>) l s.
Proof.
  intros Hok Hj. assert (pusher_has t (Prepare t) = 1) as Hh by (simpl; by rewrite one_true).
  destruct (pusher_owns _ _ _ _ _ _ Hok Hj Hh) as (Htl & Hw0 & Hp1 & [n f a] & Hm).
  unfold push_prepare, set_link. rewrite Hm. simpl. eexists. split; [done|].
  eapply ok_pusher.
  - eapply ok_same; [apply (ok_memory_at p l s t (<[t := mkTask None f a]> (memory (task_queue p))) Hok Htl)|done..].
    + intros t' Hne. by apply lookup_insert_ne.
    + left. rewrite lookup_insert_eq. by eexists.
    + intros f' a' [n' Hn]. left. exists None. rewrite lookup_insert_eq. by simplify_eq.
    + intros f' a' Hn. left. rewrite lookup_insert_eq. by simplify_eq.
  - done.
  - intros t'. left. apply Z.le_refl.
  - intros t' [= <-]. simpl. rewrite lookup_insert_eq. eauto.
Qed.

Lemma link_step p l s j t :
  pool_ok p l s → pushers p !! j = Some (Link_ t) →
  ∃ f a q, memory (task_queue p) !! t = Some (mkTask None f a)
    ∧ push_locked (task_queue p) t = Some q
    ∧ pool_ok (p <| task_queue := q |> <| pushers ::= <[j := Signal]> |>) (l ++ [t])
        (mkFifo (waiting s ++ [(t, f, a)]) (current s)).
Proof.
  intros Hok Hj. assert (pusher_has t (Link_ t) = 1) as Hh by (simpl; by rewrite one_true).
  destruct (pusher_owns _ _ _ _ _ _ Hok Hj Hh) as (Htl & Hw0 & Hp1 & _).
  destruct (ok_next _ _ _ Hok _ _ Hj) as (f & a & Hm).
  assert (pool_ok (p <| pushers ::= <[j := Signal]> |>) l s) as Hok1 by (by eapply quiet_pusher).
  assert (holders (p <| pushers ::= <[j := Signal]> |>) l t = 0) as H0.
  { unfold holders. simpl. rewrite (sum_of_insert _ _ _ _ _ Hj), one_false, Hw0 by done. simpl.
    rewrite one_true by done. lia. }
  destruct (ok_link _ _ _ t f a Hok1 H0 Hm) as (q & Hq & Hok2).
  exists f, a, q. split; [done|]. split; [done|]. by eapply ok_same.
Qed.

Lemma wake_has t x : worker_has t (wake x) = worker_has t x.
Proof. by destruct x. Qed.

Lemma broadcast_ok p l s : pool_ok p l s → pool_ok (p <| workers ::= fmap wake |>) l s.
Proof.
  intros Hok. assert (∀ t, holders (p <| workers ::= fmap wake |>) l t = holders p l t) as Hh.
  { intros t. unfold holders. simpl. f_equal. induction (workers p) as [|x ws IH]; csimpl; [done|].
    rewrite wake_has. by f_equal. }
  split; try apply Hok; simpl.
  - intros t. rewrite Hh. apply Hok.
  - intros t. rewrite Hh. apply Hok.
  - intros w t. rewrite list_lookup_fmap. destruct (workers p !! w) as [x|] eqn:Hw; [|done].
    simpl. intros [= Hx]. apply (ok_unpack _ _ _ Hok). rewrite Hw. by destruct x; simplify_eq/=.
  - intros w f a. rewrite list_lookup_fmap. destruct (workers p !! w) as [x|] eqn:Hw; [|done].
    simpl. intros [= Hx]. apply (ok_run _ _ _ Hok). rewrite Hw. by destruct x; simplify_eq/=.
  - intros w (x & Hw & Hx)%(ok_idle _ _ _ Hok). exists (wake x).
    rewrite list_lookup_fmap, Hw. split; [done|by destruct x].
Qed.

Lemma pool_step_ok p es p' l s :
  pool_step p es p' → pool_ok p l s → ∃ l' s', run fifo_lts s es s' ∧ pool_ok p' l' s'.
Proof.
  intros Hs Hok. destruct Hs.
  - by eapply worker_ok.
  - exists l, s. split; [apply run_silent|]. by eapply quiet_worker.
  - exists l, s. split; [apply run_silent|]. by apply fresh_step.
  - destruct (prepare_step _ _ _ _ _ Hok H) as (q' & Hq & Hok'). simplify_eq.
    exists l, s. split; [apply run_silent|done].
  - destruct (link_step _ _ _ _ _ Hok H) as (f & a & q' & Hm & Hq & Hok'). simplify_eq/=.
    do 2 eexists. split; [|exact Hok']. apply run_one. destruct s. constructor.
  - exists l, s. split; [apply run_silent|].
    eapply quiet_pusher; [by eapply quiet_worker|done|done].
  - exists l, s. split; [apply run_silent|]. by eapply quiet_pusher.
  - exists l, s. split; [apply run_silent|by eapply ok_same].
  - exists l, s. split; [apply run_silent|by eapply ok_same].
  - exists l, s. split; [apply run_silent|by eapply ok_same].
  - exists l, s. split; [apply run_silent|]. eapply ok_same; [by apply broadcast_ok|done..].
  - exists l, s. split; [apply run_silent|]. eapply ok_same; [by apply broadcast_ok|done..].
  - exists l, s. split; [apply run_silent|by eapply ok_same].
Qed.

Lemma pool_init_ok p : pool_init p → pool_ok p [] (mkFifo [] ∅).
Proof.
  intros (m & Hq & _ & Hw & Hp & _). rewrite Forall_lookup in Hw. rewrite Forall_lookup in Hp.
  assert (∀ t, holders p [] t = 0) as H0.
  { intros t. unfold holders. rewrite one_false by apply not_elem_of_nil.
    rewrite (sum_of_zero (pusher_has t)), (sum_of_zero (worker_has t)); [done|..].
    - apply worker_has_nonneg.
    - intros x [i Hi]%list_elem_of_lookup. by rewrite (Hw _ _ Hi).
    - apply pusher_has_nonneg.
    - intros x [i Hi]%list_elem_of_lookup. by rewrite (Hp _ _ Hi). }
  split; rewrite ?Hq; try done.
  - constructor.
  - intros t. by rewrite H0.
  - intros t. rewrite H0. lia.
  - intros j t Hj. by apply Hp in Hj.
  - intros w t Hj. by apply Hw in Hj.
  - intros w f a Hj. by apply Hw in Hj.
  - intros w [fa Hfa]. simpl in Hfa. by rewrite lookup_empty in Hfa.
Qed.

Lemma pool_reachable_ok p : reachable pool_lts p → ∃ l s, pool_ok p l s.
Proof.
  apply (reachable_invariant pool_lts (λ p, ∃ l s, pool_ok p l s)).
  - intros p' Hi. do 2 eexists. by apply pool_init_ok.
  - intros p1 es p2 (l & s & Hok) Hs. destruct (pool_step_ok _ _ _ _ _ Hs Hok) as (l' & s' & _ & ?). eauto.
Qed.

(** ** Traces *)

(** What a run of the specification has shown: the pops took the first pushes,
    in their order, and every worker has made its calls in the order of its
    pops, but the one it still has to make. *)
Definition trace_ok (es : list event) (s : fifo) : Prop :=
  ∃ k, pushed es = k.*2 ++ waiting s ∧ popped es = pop_of <$> k
  ∧ ∀ w, owed w k = called w es ++ option_list (current s !! w).

Lemma trace_step es s es' s' : trace_ok es s → fifo_step s es' s' → trace_ok (es ++ es') s'.
Proof.
  intros (k & Hp & Hq & Hc) Hs.
  unfold trace_ok, pushed, popped, called in *. setoid_rewrite omap_app.
  destruct Hs as [l c t f a|l c w t f a Hw|c w|l c w f a Hw]; simpl in *.
  - exists k. rewrite Hp, Hq, app_nil_r. split; [by rewrite app_assoc|]. split; [done|].
    intros w. by rewrite app_nil_r.
  - exists (k ++ [(w, (t, f, a))]). rewrite Hp, Hq, app_nil_r, !fmap_app. simpl.
    split; [by rewrite <-app_assoc|]. split; [done|].
    intros w'. unfold owed. rewrite omap_app, app_nil_r. fold (owed w' k). rewrite Hc, <-app_assoc.
    f_equal. simpl. unfold owed_of. simpl. destruct (decide (w = w')) as [->|Hne].
    + by rewrite Hw, lookup_insert_eq.
    + by rewrite lookup_insert_ne, app_nil_r.
  - exists k. rewrite Hp, Hq, !app_nil_r. split; [done|]. split; [done|].
    intros w'. by rewrite app_nil_r.
  - exists k. rewrite Hp, Hq, !app_nil_r. split; [done|]. split; [done|].
    intros w'. rewrite Hc, <-app_assoc. f_equal. destruct (decide (w = w')) as [->|Hne].
    + by rewrite Hw, lookup_delete_eq.
    + by rewrite lookup_delete_ne.
Qed.

Lemma fifo_trace es0 s es s' : trace_ok es0 s → run fifo_lts s es s' → trace_ok (es0 ++ es) s'.
Proof.
  intros Ht Hr. revert es0 Ht. induction Hr as [s|s es s' es' s'' Hs Hr IH]; intros es0 Ht.
  - by rewrite app_nil_r.
  - rewrite app_assoc. apply IH. by eapply trace_step.
Qed.

(** A run of the pool, with the run of the specification that shows the same. *)
Lemma pool_run_ok p0 es p :
  pool_init p0 → run pool_lts p0 es p → ∃ l s, pool_ok p l s ∧ trace_ok es s.
Proof.
  intros Hi Hr.
  destruct (simulation_run pool_lts fifo_lts (λ p s, ∃ l, pool_ok p l s)) with p0 es p (mkFifo [] ∅)
    as (s & Hs & l & Hok); [|done|exists []; by apply pool_init_ok|].
  - intros p1 s1 es1 p2 [l Hok] Hs. destruct (pool_step_ok _ _ _ _ _ Hs Hok) as (l' & s' & ? & ?). eauto.
  - exists l, s. split; [done|]. change es with ([] ++ es). eapply fifo_trace; [|done].
    exists []. split_and!; [done..|]. intros w. simpl. by rewrite lookup_empty.
Qed.

(** ** Termination *)

Definition sleepless (p : pool) : Prop := ∀ w, workers p !! w ≠ Some Asleep.

(** The first [n] workers have ended. *)
Definition ended (n : nat) (p : pool) : Prop := ∀ w, (w < n)%nat → workers p !! w = Some Ended.

(** What the terminators have done so far. *)
Definition stage (p : pool) (t : terminator) : Prop :=
  match t with
  | Running | SetQuit => True
  | Unblock => quit p = true
  | Broadcast => quit p = true ∧ block (task_queue p) = false
  | Terminated => quit p = true ∧ block (task_queue p) = false ∧ sleepless p
  | Join n => (quit p = true ∧ block (task_queue p) = false ∧ sleepless p) ∧ ended n p
  end.

Definition stages (p : pool) : Prop := ∀ j t, terminators p !! j = Some t → stage p t.

(** The workers of [p'] are those of [p], further on. *)
Definition further (p p' : pool) : Prop :=
  (block (task_queue p) = false → sleepless p → sleepless p') ∧ ∀ n, ended n p → ended n p'.

Lemma further_refl p p' : workers p' = workers p → further p p'.
Proof. unfold further, sleepless, ended. by intros ->. Qed.

Lemma further_insert p p' w x y :
  workers p !! w = Some x → x ≠ Ended → workers p' = <[w := y]> (workers p) →
  (y = Asleep → block (task_queue p) = true) → further p p'.
Proof.
  intros Hx Hne Hw Hy. split.
  - intros Hb Hsl w' Hw'. rewrite Hw in Hw'.
    apply list_lookup_insert_Some in Hw' as [(_ & ? & _)|[_ ?]]; [|by apply (Hsl w')].
    rewrite Hy in Hb; done.
  - intros n Hn w' Hlt. rewrite Hw. rewrite list_lookup_insert_ne; [by apply Hn|].
    intros <-. rewrite (Hn _ Hlt) in Hx. congruence.
Qed.

Lemma further_wake p p' : workers p' = wake <$> workers p → further p p' ∧ sleepless p'.
Proof.
  intros Hw. assert (sleepless p') as Hsl.
  { intros w. rewrite Hw, list_lookup_fmap. destruct (workers p !! w) as [x|]; [|done].
    simpl. by destruct x. }
  split; [|done]. split; [done|]. intros n Hn w Hlt. by rewrite Hw, list_lookup_fmap, Hn.
Qed.

(** The workers go on, or a terminator does, and what the others did stays. *)
Lemma stages_keep p p' :
  stages p → quit p' = quit p → block (task_queue p') = block (task_queue p) →
  terminators p' = terminators p → further p p' → stages p'.
Proof.
  intros Hst Hq Hb Ht [Hsl He] j t Hj. rewrite Ht in Hj. specialize (Hst _ _ Hj).
  destruct t; simpl in *; rewrite ?Hq, ?Hb; naive_solver.
Qed.

Lemma stages_next p p' j t' :
  stages p → terminators p' = <[j := t']> (terminators p) →
  (quit p = true → quit p' = true) →
  (block (task_queue p) = false → block (task_queue p') = false) →
  further p p' → stage p' t' → stages p'.
Proof.
  intros Hst Ht Hq Hb [Hsl He] Ht' j' t Hj. rewrite Ht in Hj.
  apply list_lookup_insert_Some in Hj as [(<- & <- & _)|[_ Hj]]; [done|].
  specialize (Hst _ _ Hj). destruct t; simpl in *; naive_solver.
Qed.

Lemma worker_step_block w qt q x q' x' es :
  worker_step w qt q x = Some (q', x', es) →
  block q' = block q ∧ (x' = Asleep → block q = true).
Proof.
  destruct x; simpl; try done; intros Hs.
  - simplify_eq. split; [done|]. by destruct qt.
  - unfold pop_task in Hs. destruct (head q) as [t|]; simplify_eq/=; [|done].
    destruct (memory q !! t); simplify_eq/=. by case_bool_decide.
  - simplify_eq. split; [done|]. by destruct (block _).
  - by simplify_eq.
  - unfold free_task in Hs. destruct (memory q !! t); by simplify_eq/=.
  - by simplify_eq.
Qed.

Lemma set_link_block q l v q' : set_link q l v = Some q' → block q' = block q.
Proof. destruct l as [|t]; simpl; [by intros [= <-]|]. destruct (memory q !! t); by intros; simplify_eq/=. Qed.

Lemma stages_step p es p' : pool_step p es p' → stages p → stages p'.
Proof.
  intros Hs Hst. destruct Hs as [w p x q x' es Hw Hx|w p Hw|j t n f a p Hj Hm|j t q p Hj Hq
    |j t task q p Hj Hm Hq|j w p Hj Hw|j p Hj Hw|j p Hj|j p Hj|j p Hj|j p Hj|j p Hj|j i p Hj Hi].
  - assert (x ≠ Ended) as Hne by (by intros ->). apply worker_step_block in Hx as [Hb Hx].
    eapply stages_keep; [done|done|done|done|]. by eapply further_insert.
  - eapply stages_keep; [done..|]. by eapply further_insert.
  - eapply stages_keep; [done..|]. by apply further_refl.
  - eapply stages_keep; [done|done| |done|by apply further_refl].
    exact (set_link_block _ _ _ _ Hq).
  - eapply stages_keep; [done|done| |done|by apply further_refl]. unfold push_locked in Hq.
    destruct (set_link _ _ _) as [q1|] eqn:Hl; simplify_eq/=.
    exact (set_link_block _ _ _ _ Hl).
  - eapply stages_keep; [done..|]. by eapply further_insert.
  - eapply stages_keep; [done..|]. by apply further_refl.
  - eapply stages_next; [done..|by apply further_refl|done].
  - eapply stages_next; [done..|by apply further_refl|done].
  - eapply stages_next; [done..|by apply further_refl|]. split; [exact (Hst _ _ Hj)|done].
  - destruct (further_wake p (p <| workers ::= fmap wake |> <| terminators ::= <[j := Terminated]> |>))
      as [Hf Hsl]; [done|]. destruct (Hst _ _ Hj).
    eapply stages_next; [done|done|done|done|done|]. by split_and!.
  - destruct (further_wake p (p <| workers ::= fmap wake |> <| terminators ::= <[j := Join 0]> |>))
      as [Hf Hsl]; [done|]. destruct (Hst _ _ Hj).
    eapply stages_next; [done|done|done|done|done|]. split; [by split_and!|]. intros w. lia.
  - destruct (Hst _ _ Hj) as [Hd He]. eapply stages_next; [done..|by apply further_refl|].
    split; [done|]. intros w Hlt. destruct (decide (w = i)) as [->|]; [done|]. apply He. lia.
Qed.

Lemma stages_reachable p : reachable pool_lts p → stages p.
Proof.
  apply (reachable_invariant pool_lts stages).
  - intros p' (m & _ & _ & _ & _ & Ht) j t Hj. rewrite Forall_lookup in Ht.
    rewrite (Ht _ _ Hj). exact I.
  - intros p1 es p2 Hst Hs. by eapply stages_step.
Qed.

Definition is_call (e : event) : bool := match e with Called _ _ _ => true | _ => false end.
Definition calls (es : list event) : nat := length (filter is_call es).

(** A worker alone, step by step. *)
Lemma alone_step fuel w qt q x q1 x1 es1 q2 x2 es2 :
  worker_step w qt q x = Some (q1, x1, es1) → worker_alone fuel w qt q1 x1 = (q2, x2, es2) →
  worker_alone (S fuel) w qt q x = (q2, x2, es1 ++ es2).
Proof. intros Hs Ha. cbn [worker_alone]. by rewrite Hs, Ha. Qed.

Lemma alone_ended fuel w qt q : worker_alone fuel w qt q Ended = (q, Ended, []).
Proof. by destruct fuel. Qed.

Lemma alone_run fuel w q f a :
  worker_alone (2 + fuel) w true q (Run f a) = (q, Ended, [Called w f a]).
Proof.
  eapply (alone_step _ _ _ _ _ _ _ [_] _ _ []); [done|].
  eapply (alone_step _ _ _ _ _ _ _ [] _ _ []); [done|apply alone_ended].
Qed.

Lemma alone_unpack fuel p l s w t :
  pool_ok p l s → workers p !! w = Some (Unpack t) →
  ∃ q f a, worker_alone (3 + fuel) w true (task_queue p) (Unpack t) = (q, Ended, [Called w f a]).
Proof.
  intros Hok Hw. destruct (unpack_step _ _ _ _ _ Hok Hw) as (task & q & Hm & Hf & _).
  exists q, (func task), (arg task). eapply (alone_step _ _ _ _ _ _ _ [] _ _ [_]); [|apply alone_run].
  simpl. rewrite Hm. simpl. by rewrite Hf.
Qed.

Lemma alone_pop fuel p l s w :
  pool_ok p l s → block (task_queue p) = false → workers p !! w = Some PopTask →
  ∃ q es, worker_alone (4 + fuel) w true (task_queue p) PopTask = (q, Ended, es) ∧ (calls es ≤ 1)%nat.
Proof.
  intros Hok Hb Hw. destruct (pop_step _ _ _ _ Hok Hw) as (q1 & o & l' & s' & Hp & _ & Hok').
  assert (worker_step w true (task_queue p) PopTask
    = Some (q1, match o with Some t => Unpack t | None => CheckBlock end, [Popped w o])) as Hs
    by (simpl; by rewrite Hp).
  apply worker_step_block in Hs as Hb1. destruct Hb1 as [Hb1 _]. rewrite Hb in Hb1.
  destruct o as [t|].
  - destruct (alone_unpack fuel _ _ _ w t Hok') as (q & f & a & Ha).
    { simpl. apply list_lookup_insert_eq. by eapply lookup_lt_Some. }
    eexists _, _. split; [by eapply alone_step|]. done.
  - eexists _, _. split.
    + eapply alone_step; [done|]. eapply (alone_step _ _ _ _ _ _ Ended []); [|apply alone_ended].
      simpl. by rewrite Hb1.
    + unfold calls. simpl. lia.
Qed.

Lemma worker_ends p l s w x :
  pool_ok p l s → block (task_queue p) = false → workers p !! w = Some x → x ≠ Asleep →
  ∃ q es, worker_alone 5 w true (task_queue p) x = (q, Ended, es) ∧ (calls es ≤ 1)%nat.
Proof.
  intros Hok Hb Hw Hx. destruct x as [| | | | |t|f a|]; try done.
  - exists (task_queue p), []. by split; [|unfold calls; simpl; lia].
  - by apply (alone_pop 1 p l s).
  - exists (task_queue p), []. split; [simpl; by rewrite Hb|unfold calls; simpl; lia].
  - destruct (alone_pop 0 (p <| workers ::= <[w := PopTask]> |>) l s w) as (q & es & Ha & Hc).
    + by eapply quiet_worker.
    + done.
    + simpl. apply list_lookup_insert_eq. by eapply lookup_lt_Some.
    + exists q, es. split; [|done]. by eapply (alone_step _ _ _ _ _ _ _ []).
  - destruct (alone_unpack 2 _ _ _ _ _ Hok Hw) as (q & f & a & Ha). exists q, [Called w f a]. done.
  - exists (task_queue p), [Called w f a]. split; [apply (alone_run 3)|done].
  - exists (task_queue p), []. split; [done|]. unfold calls. simpl. lia.
Qed.

(** *** Destruction *)

Lemma ok_waiting_ids p l s : pool_ok p l s → (waiting s).*1.*1 = l.
Proof.
  intros Hok. pose proof (ok_waiting _ _ _ Hok) as Hf. clear Hok.
  induction Hf as [|t x l k [Hx _] _ IH]; csimpl; [done|]. by rewrite Hx, IH.
Qed.

Lemma destroy_loop_ok fuel : ∀ p l s,
  pool_ok p l s → (length l < fuel)%nat →
  ∃ q, destroy_loop fuel (task_queue p) = Some (q, l) ∧ head q = None.
Proof.
  induction fuel as [|fuel IH]; intros p l s Hok Hlen; [lia|].
  pose proof (ok_dequeue _ _ _ Hok) as Hd. cbn [destroy_loop]. destruct l as [|t l].
  - destruct Hd as [-> _]. simpl. exists (task_queue p). split; [done|]. apply (ok_chain _ _ _ Hok).
  - destruct Hd as (f & a & k & q & _ & -> & [n Hm] & _ & H0 & Hok'). simpl. unfold free_task.
    rewrite Hm. cbn [mbind option_bind].
    pose proof (ok_nodup _ _ _ Hok) as Hnd. apply NoDup_cons in Hnd as [Htl _].
    assert (pool_ok (p <| task_queue := q <| memory ::= delete t |> |>) l (mkFifo k (current s))) as Hok2.
    { eapply ok_same; [apply (ok_memory_at _ _ _ t (delete t (memory q)) Hok' Htl)|done..];
        [|by right|by right|by right]. intros t' Hne. simpl. by apply lookup_delete_ne. }
    destruct (IH _ _ _ Hok2) as (q' & Hdl & Hh).
    + simpl in Hlen. lia.
    + simpl in Hdl. rewrite Hdl. simpl. by exists q'.
Qed.

(** ** Properties *)

(** C39: tasks are popped in the order they were linked, and each is called
    once, by the worker that popped it, after its memory is freed.  Every
    interleaving of workers, of clients that push and of terminations is one of
    a first-in first-out queue from which a worker pops the oldest task when it
    has no call to make, or finds none when none is linked.  In every run the
    tasks linked are those popped, in the order of the pops, followed by those
    still in the queue, which are exactly the ones [__taskqueue_destroy] would
    free, each once; and the calls of each worker are those of the tasks it
    popped, in that order, all of them unless it is between its last pop and
    the call.  Calls of different workers come in any order: a later task may
    be called before an earlier one.  No thread is ever about to touch a freed
    task. *)
Theorem tpool_refines_fifo p0 es p (Hi : pool_init p0) (Hr : run pool_lts p0 es p) :
  refines pool_lts fifo_lts
  ∧ (∃ k l, pushed es = k.*2 ++ l ∧ popped es = pop_of <$> k
     ∧ (∃ q, destroy_loop (S (length l)) (task_queue p) = Some (q, l.*1.*1) ∧ head q = None)
     ∧ NoDup l.*1.*1
     ∧ ∀ w, ∃ rest, owed w k = called w es ++ rest ∧ (length rest ≤ 1)%nat
         ∧ (∀ x, workers p !! w = Some x → has_call x = false → rest = []))
  ∧ (∀ w x, workers p !! w = Some x → x ≠ Asleep → x ≠ Ended →
       worker_step w (quit p) (task_queue p) x ≠ None)
  ∧ (∀ j t, pushers p !! j = Some (Prepare t) → push_prepare (task_queue p) t ≠ None)
  ∧ (∀ j t, pushers p !! j = Some (Link_ t) → push_locked (task_queue p) t ≠ None).
Proof.
  split.
  { apply (simulation_refines _ _ (λ p s, ∃ l, pool_ok p l s)).
    - intros p' Hi'. exists (mkFifo [] ∅). split; [done|]. exists []. by apply pool_init_ok.
    - intros p1 s es' p2 [l Hok] Hs. destruct (pool_step_ok _ _ _ _ _ Hs Hok) as (l' & s' & ? & ?). eauto. }
  destruct (pool_run_ok _ _ _ Hi Hr) as (l & s & Hok & k & Hpu & Hpo & Hca). split.
  { exists k, (waiting s). pose proof (ok_waiting_ids _ _ _ Hok) as Hl.
    split; [done|]. split; [done|]. rewrite Hl. split_and!; [|apply Hok|].
    - destruct (destroy_loop_ok (S (length (waiting s))) p l s Hok) as (q & Hq & Hh); [|eauto].
      rewrite (Forall2_length _ _ _ (ok_waiting _ _ _ Hok)). lia.
    - intros w. exists (option_list (current s !! w)). split; [done|]. split.
      + destruct (current s !! w); simpl; lia.
      + intros x Hw Hx. destruct (current s !! w) eqn:Hc; [|done].
        destruct (ok_idle _ _ _ Hok w) as (y & Hy & ?); [by eexists|]. congruence. }
  split_and!.
  - intros w x Hw Ha He. destruct x as [| | | | |t|f a|]; try done.
    + destruct (pop_step _ _ _ _ Hok Hw) as (q & o & ? & ? & Hq & _). simpl. by rewrite Hq.
    + destruct (unpack_step _ _ _ _ _ Hok Hw) as (task & q & Hm & Hf & _). simpl.
      rewrite Hm. simpl. by rewrite Hf.
  - intros j t Hj. destruct (prepare_step _ _ _ _ _ Hok Hj) as (q & -> & _). done.
  - intros j t Hj. destruct (link_step _ _ _ _ _ Hok Hj) as (f & a & q & _ & -> & _). done.
Qed.

(** C40: termination is final.  Once a call of [thrdpool_terminate] has
    returned, no worker sleeps any more, and every worker, run alone, ends
    within five steps, after calling at most one more task; the same holds while
    [__threads_terminate] joins, so no join waits for ever, and when it has
    returned all the workers have ended. *)
Theorem tpool_terminate_ends p t w x
    (Hp : reachable pool_lts p) (Ht : t ∈ terminators p)
    (Hdone : match t with Terminated | Join _ => True | _ => False end)
    (Hw : workers p !! w = Some x) :
  (∃ q es, worker_alone 5 w (quit p) (task_queue p) x = (q, Ended, es) ∧ (calls es ≤ 1)%nat)
  ∧ ∀ i, t = Join i → (w < i)%nat → x = Ended.
Proof.
  apply list_elem_of_lookup in Ht as [j Hj].
  pose proof (stages_reachable p Hp _ _ Hj) as Hst.
  assert (quit p = true ∧ block (task_queue p) = false ∧ sleepless p) as (Hq & Hb & Hsl).
  { destruct t; try done. apply Hst. }
  apply pool_reachable_ok in Hp as (l & s & Hok). rewrite Hq. split.
  - apply (worker_ends p l s); try done. intros ->. by apply (Hsl w).
  - intros i -> Hlt. destruct Hst as [_ He]. specialize (He _ Hlt). congruence.
Qed.

(** ** Concrete runs *)

(** [n] workers, one client, one terminator. *)
Definition started (n : nat) : pool :=
  mkPool (taskqueue_create ∅) false (replicate n CheckQuit) [NoPush] [Running].

Lemma started_init n : pool_init (started n).
Proof.
  exists ∅. split_and!; [done|done|by apply Forall_replicate|by repeat constructor..].
Qed.

Inductive action :=
  | Worker (w : nat)
  | Push (j t : nat) (f a : Z)  (* enter __push_task with a new task *)
  | Pusher (j : nat)            (* its next step *)
  | Terminator (j : nat)
  | Joins (j : nat).

Definition play (x : action) (p : pool) : option (list event * pool) :=
  match x with
  | Worker w =>
      x ← workers p !! w;
      '(q, x', es) ← worker_step w (quit p) (task_queue p) x;
      Some (es, p <| task_queue := q |> <| workers ::= <[w := x']> |>)
  | Push j t f a =>
      match pushers p !! j, memory (task_queue p) !! t with
      | Some NoPush, None =>
          Some ([], p <| task_queue ::= (λ q, q <| memory ::= <[t := mkTask None f a]> |>) |>
                      <| pushers ::= <[j := Prepare t]> |>)
      | _, _ => None
      end
  | Pusher j =>
      match pushers p !! j with
      | Some (Prepare t) =>
          q ← push_prepare (task_queue p) t;
          Some ([], p <| task_queue := q |> <| pushers ::= <[j := Link_ t]> |>)
      | Some (Link_ t) =>
          task ← memory (task_queue p) !! t;
          q ← push_locked (task_queue p) t;
          Some ([Pushed t (func task) (arg task)],
                p <| task_queue := q |> <| pushers ::= <[j := Signal]> |>)
      | Some Signal =>
          match list_find asleep (workers p) with
          | Some (w, _) => Some ([], p <| workers ::= <[w := Woken]> |> <| pushers ::= <[j := NoPush]> |>)
          | None => Some ([], p <| pushers ::= <[j := NoPush]> |>)
          end
      | _ => None
      end
  | Terminator j =>
      match terminators p !! j with
      | Some Running => Some ([], p <| terminators ::= <[j := SetQuit]> |>)
      | Some SetQuit => Some ([], p <| quit := true |> <| terminators ::= <[j := Unblock]> |>)
      | Some Unblock =>
          Some ([], p <| task_queue ::= (λ q, q <| block := false |>) |>
                      <| terminators ::= <[j := Broadcast]> |>)
      | Some Broadcast =>
          Some ([], p <| workers ::= fmap wake |> <| terminators ::= <[j := Terminated]> |>)
      | Some (Join i) =>
          match workers p !! i with
          | Some Ended => Some ([], p <| terminators ::= <[j := Join (S i)]> |>)
          | _ => None
          end
      | _ => None
      end
  | Joins j =>
      match terminators p !! j with
      | Some Broadcast =>
          Some ([], p <| workers ::= fmap wake |> <| terminators ::= <[j := Join 0]> |>)
      | _ => None
      end
  end.

Lemma schedule_step x p es p' : play x p = Some (es, p') → pool_step p es p'.
Proof.
  destruct x as [w|j t f a|j|j|j]; simpl; intros Hx.
  - destruct (workers p !! w) as [y|] eqn:Hw; simplify_eq/=.
    destruct (worker_step _ _ _ y) as [[[q y'] es']|] eqn:Hy; simplify_eq/=.
    by eapply step_worker.
  - destruct (pushers p !! j) as [[]|] eqn:Hj; try done.
    destruct (memory _ !! t) eqn:Hm; simplify_eq/=. by eapply step_push.
  - destruct (pushers p !! j) as [[|t|t|]|] eqn:Hj; try done.
    + destruct (push_prepare _ t) as [q|] eqn:Hq; simplify_eq/=. by eapply step_prepare.
    + destruct (memory _ !! t) as [task|] eqn:Hm; simplify_eq/=.
      destruct (push_locked _ t) as [q|] eqn:Hq; simplify_eq/=. by eapply step_link.
    + destruct (list_find asleep (workers p)) as [[w y]|] eqn:Hf; simplify_eq/=.
      * apply list_find_Some in Hf as (Hw & Hy & _). eapply step_signal; [done|].
        rewrite Hw. by destruct y.
      * apply list_find_None in Hf. rewrite Forall_forall in Hf.
        eapply step_signal_none; [done|]. intros w Hw. specialize (Hf w Hw). by destruct (asleep w).
  - destruct (terminators p !! j) as [[| | | | |i]|] eqn:Hj; simplify_eq/=.
    + by eapply step_terminate.
    + by eapply step_quit.
    + by eapply step_unblock.
    + by eapply step_broadcast.
    + destruct (workers p !! i) as [[]|] eqn:Hi; simplify_eq/=. by eapply step_join.
  - destruct (terminators p !! j) as [[]|] eqn:Hj; simplify_eq/=. by eapply step_joins.
Qed.

Fixpoint plays (l : list action) (p : pool) : option (list event * pool) :=
  match l with
  | [] => Some ([], p)
  | x :: l => '(es, p) ← play x p; '(es', p) ← plays l p; Some (es ++ es', p)
  end.

Lemma tpool_plays_run l p es p' : plays l p = Some (es, p') → run pool_lts p es p'.
Proof.
  revert p es. induction l as [|x l IH]; simpl; intros p es Hl; [simplify_eq; constructor|].
  destruct (play x p) as [[es1 p1]|] eqn:Hx; simplify_eq/=.
  destruct (plays l p1) as [[es2 p2]|] eqn:Hy; simplify_eq/=.
  eapply run_step; [by eapply (schedule_step x)|by apply IH].
Qed.

(** A schedule of [n] workers, by a view of what it shows and of the state it
    leads to. *)
Lemma schedule {A} (n : nat) (l : list action) (φ : list event * pool → A) v :
  φ <$> plays l (started n) = Some v →
  ∃ es p, run pool_lts (started n) es p ∧ reachable pool_lts p ∧ φ (es, p) = v.
Proof.
  destruct (plays l (started n)) as [[es p]|] eqn:Hp; simpl; [|done]. intros [= <-]. exists es, p.
  apply tpool_plays_run in Hp. split; [done|]. split; [|done]. exists (started n), es.
  split; [apply started_init|done].
Qed.

(** The client pushes between the worker's look at the queue and its look at
    [block]: the signal finds nobody asleep, and the worker goes to sleep with
    a task in the queue.  Nothing will wake it but another push, a spurious
    wake-up or the end of the pool. *)
Theorem tpool_lost_wakeup :
  ∃ p, reachable pool_lts p
  ∧ (workers p, pushers p, head (task_queue p), quit p) = ([Asleep], [NoPush], Some 7%nat, false).
Proof.
  destruct (schedule 1 [Worker 0; Worker 0; Push 0 7 1 2; Pusher 0; Pusher 0; Pusher 0; Worker 0]
    (λ '(_, p), (workers p, pushers p, head (task_queue p), quit p))
    ([Asleep], [NoPush], Some 7%nat, false)) as (es & p & _ & Hp & Hv); [by vm_compute|].
  by exists p.
Qed.

(** Three tasks and two workers: worker 0 has popped the first, worker 1 has
    popped and called the second, the third waits. *)
Definition push (t : nat) (f a : Z) : list action := [Push 0 t f a; Pusher 0; Pusher 0; Pusher 0].
Definition overtaking : list action :=
  push 7 1 2 ++ push 8 3 4 ++ push 9 5 6
  ++ [Worker 0; Worker 0; Worker 1; Worker 1; Worker 1; Worker 1].

(** The calls of different workers overtake each other. *)
Theorem tpool_calls_overtake :
  ∃ es p, run pool_lts (started 2) es p ∧ pushed es = [(7%nat, 1, 2); (8%nat, 3, 4)]
  ∧ omap (λ e, match e with Called _ f a => Some (f, a) | _ => None end) es = [(3, 4); (1, 2)].
Proof.
  destruct (schedule 2 (push 7 1 2 ++ push 8 3 4 ++ [Worker 0; Worker 0; Worker 1; Worker 1]
      ++ [Worker 1; Worker 1; Worker 0; Worker 0])
    (λ '(es, _), (pushed es, omap (λ e, match e with Called _ f a => Some (f, a) | _ => None end) es))
    ([(7%nat, 1, 2); (8%nat, 3, 4)], [(3, 4); (1, 2)])) as (es & p & Hr & _ & [= ? ?]);
    [by vm_compute|].
  by exists es, p.
Qed.

Lemma tpool_refines_fifo_witness :
  ∃ es p, run pool_lts (started 2) es p
  ∧ workers p = [Unpack 7; CheckQuit] ∧ pushed es = [(7%nat, 1, 2); (8%nat, 3, 4); (9%nat, 5, 6)]
  ∧ popped es = [(0%nat, 7%nat); (1%nat, 8%nat)] ∧ called 0 es = [] ∧ called 1 es = [(3, 4)]
  ∧ worker_step 0 (quit p) (task_queue p) (Unpack 7) ≠ None
  ∧ (∃ k l, pushed es = k.*2 ++ l ∧ popped es = pop_of <$> k
     ∧ (∃ q, destroy_loop (S (length l)) (task_queue p) = Some (q, l.*1.*1) ∧ head q = None)
     ∧ ∃ rest, owed 1 k = called 1 es ++ rest ∧ rest = []).
Proof.
  destruct (schedule 2 overtaking (λ '(es, p), (workers p, pushed es, popped es, called 0 es, called 1 es))
    ([Unpack 7; CheckQuit], [(7%nat, 1, 2); (8%nat, 3, 4); (9%nat, 5, 6)],
     [(0%nat, 7%nat); (1%nat, 8%nat)], [], [(3, 4)]))
    as (es & p & Hr & _ & [= Hw Hpu Hpo H0 H1]); [by vm_compute|].
  exists es, p. split; [done|].
  destruct (tpool_refines_fifo (started 2) es p (started_init 2) Hr)
    as (_ & (k & l & ? & ? & ? & _ & Hc) & Hstep & _).
  split_and!; [done..|by apply (Hstep 0%nat (Unpack 7)); [rewrite Hw|..]|].
  exists k, l. split_and!; [done..|]. destruct (Hc 1%nat) as (rest & ? & _ & Hrest).
  exists rest. split; [done|]. apply (Hrest CheckQuit); [by rewrite Hw|done].
Defined.

(** The worker has popped the first of two tasks when the pool is ended. *)
Definition two_tasks : list action :=
  [Worker 0; Push 0 7 1 2; Pusher 0; Pusher 0; Pusher 0; Push 0 8 3 4; Pusher 0; Pusher 0;
   Worker 0; Terminator 0; Terminator 0; Terminator 0; Terminator 0].

(** The worker ends, and the terminator, joining it, returns. *)
Definition joined : list action :=
  [Worker 0; Push 0 7 1 2; Pusher 0; Pusher 0; Pusher 0; Worker 0; Terminator 0; Terminator 0;
   Terminator 0; Joins 0; Worker 0; Worker 0; Worker 0; Terminator 0].

Lemma tpool_terminate_ends_witness :
  (∃ p, reachable pool_lts p ∧ terminators p = [Terminated]
   ∧ ∃ q es, worker_alone 5 0 (quit p) (task_queue p) (Unpack 7) = (q, Ended, es)
       ∧ (calls es ≤ 1)%nat)
  ∧ ∃ p x, reachable pool_lts p ∧ terminators p = [Join 1] ∧ workers p = [x] ∧ x = Ended.
Proof.
  split.
  - destruct (schedule 1 two_tasks (λ '(_, p), (workers p, terminators p)) ([Unpack 7], [Terminated]))
      as (es & p & _ & Hp & [= Hw Ht]); [by vm_compute|].
    exists p. split; [done|]. split; [done|].
    apply (tpool_terminate_ends p Terminated 0 (Unpack 7) Hp);
      [rewrite Ht; by left|done|by rewrite Hw].
  - destruct (schedule 1 joined (λ '(_, p), (length (workers p), terminators p)) (1%nat, [Join 1]))
      as (es & p & _ & Hp & [= Hw Ht]); [by vm_compute|].
    destruct (workers p) as [|x [|]] eqn:Hx; try done.
    exists p, x. split; [done|]. split; [done|]. split; [done|].
    apply (tpool_terminate_ends p (Join 1) 0 x Hp) with (i := 1%nat);
      [rewrite Ht; by left|done|by rewrite Hx|done|lia].
Defined.
